(* ===== verification/_CoqProject ===== *)
-Q . S2P
Prelude.v
JsValue.v
UnicodeText.v
DomainModel.v
DomainParse.v
DomainGraph.v
DomainSnapshot.v
DomainCommands.v
DomainTransition.v
DomainUpdate.v
DomainSpec.v
DomainRefinement.v
DomainMoves.v
DomainMachine.v
DomainProperties.v
Timestamp.v
Authorization.v
AuthorizationProperties.v
PersistenceModel.v
ProjectRegistry.v
PersistenceReaders.v
PersistenceTransaction.v
ExecutionApplication.v
ExecutionLemmas.v
ExecutionSpec.v
ExecutionRefinement.v
ExecutionMachine.v
ExecutionLineage.v
ExecutionAuthority.v
ExecutionMoves.v
ExecutionReplay.v
ExecutionProperties.v
ExecutionDemo.v
