(* ===== verification/Prelude.v ===== *)
(** * agent-task-orchestrator: verification library

    The orchestrator keeps tasks and projects in one SQLite store, decides who
    may do what from grants kept in the same store, and hands ready tasks to
    workers under leases.  This library models that core as executable
    definitions translated from the TypeScript of src/src/, and proves what its
    callers rely on.

    ** Parts of the program and the files that model them

    - JavaScript at the boundary.  Callers pass [unknown] values, which every
      entry point re-reads defensively.  [JsValue] models what those readers can
      observe (UTF-16 strings, numbers, objects with prototypes and property
      descriptors, values whose inspection throws), [UnicodeText] the admitted
      texts, [Timestamp] the part of [Date] that is used.
    - Domain core (domain.ts): the task graph.  [DomainModel], [DomainParse],
      [DomainGraph], [DomainSnapshot], [DomainCommands] and [DomainTransition]
      follow the file from top to bottom; a function of the source that ends in
      [Unchecked] is the definition without that suffix.  [DomainSpec] is the
      abstract machine of the graph; [DomainUpdate], [DomainRefinement] and
      [DomainMoves] show that the commands implement it; [DomainMachine] has
      the reachable snapshots and [DomainProperties] the properties.
    - Authorization (authorization.ts): [Authorization] is the file,
      [AuthorizationProperties] its properties.
    - Project registry (project-registry.ts): [ProjectRegistry], the identity of
      a project's directory and its revalidation.
    - Persistence (persistence/*.ts, migrations/0001-current-baseline.sql):
      [PersistenceModel] has the rows, the faults and the transactions,
      [PersistenceReaders] the reading and validation of the state,
      [PersistenceTransaction] the statements with the constraints and triggers
      they can violate.
    - Execution application (execution-application.ts): [claim], [inspect],
      [renew] and [takeover] in [ExecutionApplication].  Each reads the state,
      checks its command, and repeats the checks inside one transaction, where
      it authorizes and writes.  It calls the domain core for the transition of
      a claimed task, [evaluateAuthorization] for the decision, the registry to
      revalidate the project, and the statements of the persistence layer.
      [ExecutionSpec] is the lease machine and [ExecutionRefinement] shows that
      every committed transaction is one of its steps; [ExecutionLemmas] has
      what the statements do, [ExecutionMachine] the four operations as one
      family and their interleavings, [ExecutionLineage] what the validation of
      the lineage guarantees, [ExecutionAuthority] what an allowed decision
      means, [ExecutionMoves] how leases evolve, [ExecutionReplay] what a
      repeated command is, and [ExecutionProperties] the properties.
      [ExecutionDemo] runs the operations on a concrete store.

    ** How the model is built

    State.  [PersistenceModel.ApplicationState] is the database and equally the
    state decoded from it; a transaction ([Tx]) is a function from a database to
    a fault or an answer with the next database, and [runWriteTransaction] keeps
    the changes only of a callback that returns and whose commit succeeds.  An
    operation is a function from the database to its answer and the next
    database; the answer of a call that ends in an exception is [None].
    Between its preflight, which reads outside of any transaction, and its
    transaction other connections may commit: [concurrent] is an arbitrary
    function of the database, and [later] closes it under calls of any clients.

    Errors.  A failure the code returns ([ok: false]) is a value, the [Err] of
    [Result] or a failed [ExecutionResult]; what a transaction throws is its
    [Err], which rolls it back.

    The host.  What is not in src/ is a class, and every theorem holds for every
    instance: [FileSystem] (Node's path and fs), [Sqlite] (which statement,
    open, begin or commit fails), [Host] (actor, lease owner, time, identifiers,
    commits of other connections), [UnicodeNormalization] (NFC) and
    [StateValidation] (the checks that reading makes on tables not modelled
    here).  No law is assumed of any of them.

    ** What the theorems show

    - Domain: [createDomainSnapshot] accepts exactly the well-formed snapshots;
      every command refines the abstract graph machine; every reachable
      snapshot is well formed and acyclic; tasks run only after their
      dependencies; terminal tasks never change; the graph searches decide the
      relations they are meant to decide; a cancellation determines every task
      after it; the eligibility evaluation is determined and agrees with what a
      claim accepts; every live task can be cancelled.
    - Authorization: a request is allowed exactly when a live matching grant
      exists and policy and confirmation agree, and every other decision has
      the reason that holds; issued grants never exceed the issuer's; for years
      of four digits the string comparisons are comparisons of times, and for
      later years they are not.
    - Registry: revalidation succeeds exactly for the directory registered.
    - Executions: every operation is a step of the lease machine; in every
      readable state the fencing tokens of a task are 1 to the current one and
      its one active attempt holds the current one; leases evolve monotonically
      under every interleaving and change only for a grant on the very project
      the command names; a successful claim starts a ready task or repeats a
      recorded answer; a recorded key answers its own command and conflicts
      with any other; only a renewal beyond the end of [Date] is not answered.

    ** Fuel

    The searches of [DomainGraph] run on fuel: the parent walks on the number of
    tasks, the dependency searches on the numbers of tasks and edges.
    [parentCycle_fuel], [dependencyCycle_total] and [dependencyReaches_total]
    show that it never runs out.

    ** What is not modelled

    - The application service with its policy, the execution loop and its
      backends, the dispatcher, the scheduler, completion, integration,
      workspaces, project policies, the Codex product and the command line:
      components of their own on top of the parts above.
    - The files, backups and migrations of the store, and SQLite beyond the
      constraints written out.
    - Stack and memory exhaustion. *)

From stdpp Require Export base gmap sets list strings pretty sorting.
From Stdlib Require Export ZArith Lia.

#[export] Set Default Goal Selector "!".
#[export] Set Warnings "-clear-no-such-hyp,-register-all".

(** ** Fallible code

    The domain core threads values of the union
    [{ ok: true, value } | { ok: false, error }]; every caller writes
    [if (!x.ok) return failure(x.error)].  [Result] is that union and
    [let?] is the early return. *)

Inductive Result (E A : Type) : Type :=
  | Ok (value : A)
  | Err (error : E).
Arguments Ok {E A} value.
Arguments Err {E A} error.

Definition is_ok {E A} (r : Result E A) : bool :=
  match r with Ok _ => true | Err _ => false end.

Definition result_bind {E A B} (r : Result E A) (k : A → Result E B) : Result E B :=
  match r with Ok a => k a | Err e => Err e end.

Declare Scope result_scope.
Delimit Scope result_scope with result.
Notation "'let?' x ':=' r 'in' k" := (result_bind r (fun x => k))
  (at level 10, x pattern, r at level 100, k at level 200,
   format "'[v' 'let?'  x  ':='  r  'in' '/' k ']'") : result_scope.
Open Scope result_scope.

(** [guard? b else e in k]: [if (!b) return failure(e)]. *)
Notation "'guard?' b 'else' e 'in' k" := (if b then k else Err e)
  (at level 10, b at level 100, e at level 100, k at level 200,
   format "'[v' 'guard?'  b  'else'  e  'in' '/' k ']'") : result_scope.

(** Lift of an optional read: [if (x === undefined) return failure(e)]. *)
Definition ok_or {E A} (o : option A) (e : E) : Result E A :=
  match o with Some a => Ok a | None => Err e end.

Lemma result_bind_ok {E A B} (r : Result E A) (k : A → Result E B) b :
  result_bind r k = Ok b ↔ ∃ a, r = Ok a ∧ k a = Ok b.
Proof. destruct r; simpl; naive_solver. Qed.

Lemma ok_or_ok {E A} (o : option A) (e : E) a : ok_or o e = Ok a ↔ o = Some a.
Proof. destruct o; naive_solver. Qed.

Lemma guard_ok {E A} (b : bool) (e : E) (k : Result E A) a :
  (guard? b else e in k) = Ok a ↔ b = true ∧ k = Ok a.
Proof. destruct b; naive_solver. Qed.

(** ** Tactics of the development *)

(** Peel the [let?]/[guard?] prefix of a successful run, keeping what each
    step returned. *)
Ltac inv_ok :=
  repeat match goal with
  | H : result_bind _ _ = Ok _ |- _ =>
      apply result_bind_ok in H; destruct H as (? & ? & H)
  | H : ok_or _ _ = Ok _ |- _ => apply ok_or_ok in H
  | H : (if _ then _ else Err _) = Ok _ |- _ =>
      apply guard_ok in H; destruct H as [? H]
  | H : Ok _ = Ok _ |- _ => injection H as H
  | H : Err _ = Ok _ |- _ => discriminate H
  end.

(** Split a boolean conjunction hypothesis. *)
Ltac inv_bool :=
  repeat match goal with
  | H : (_ && _) = true |- _ => apply andb_prop in H; destruct H
  | H : (_ || _) = false |- _ => apply orb_false_elim in H; destruct H
  | H : negb _ = true |- _ => apply negb_true_iff in H
  | H : negb _ = false |- _ => apply negb_false_iff in H
  | H : bool_decide _ = true |- _ => apply bool_decide_eq_true in H
  | H : bool_decide _ = false |- _ => apply bool_decide_eq_false in H
  | H : (_ =? _)%Z = true |- _ => apply Z.eqb_eq in H
  | H : (_ <=? _)%Z = true |- _ => apply Z.leb_le in H
  | H : (_ <? _)%Z = true |- _ => apply Z.ltb_lt in H
  | H : (_ =? _)%Z = false |- _ => apply Z.eqb_neq in H
  | H : (_ <=? _)%Z = false |- _ => apply Z.leb_gt in H
  | H : (_ <? _)%Z = false |- _ => apply Z.ltb_ge in H
  end.

(** ** Lists *)

(** [new Set(xs).size] *)
Definition setSize {A} `{EqDecision A} (xs : list A) : nat := length (remove_dups xs).

Section lists.
Context {A : Type}.
Implicit Types (l : list A).

Lemma remove_dups_length_le `{EqDecision A} l : length (remove_dups l) ≤ length l.
Proof. induction l; simpl; [done|]. case_decide; simpl; lia. Qed.

Lemma remove_dups_NoDup_id `{EqDecision A} l : NoDup l → remove_dups l = l.
Proof.
  induction 1 as [|x l Hx Hl IH]; simpl; [done|].
  rewrite IH. case_decide; [done|done].
Qed.

Lemma setSize_NoDup `{EqDecision A} l : setSize l = length l ↔ NoDup l.
Proof.
  unfold setSize. split; intros H.
  - induction l as [|x l IH]; [constructor|]. simpl in H.
    pose proof (remove_dups_length_le l).
    case_decide as Hx; simpl in H; [lia|].
    constructor; [done|]. apply IH. lia.
  - by rewrite remove_dups_NoDup_id.
Qed.

Lemma find_Some_iff (f : A → bool) l x :
  List.find f l = Some x → x ∈ l ∧ f x = true.
Proof. intros H. apply List.find_some in H. by rewrite list_elem_of_In. Qed.

(** What was found is the first element that satisfies the test. *)
Lemma find_split (f : A → bool) l x :
  List.find f l = Some x →
  ∃ before after, l = before ++ x :: after ∧ f x = true ∧ Forall (λ y, f y = false) before.
Proof.
  induction l as [|y l IH]; simpl; [done|]. destruct (f y) eqn:Hy.
  - intros [= ->]. by exists [], l.
  - intros (before & after & -> & Hx & Hb)%IH. exists (y :: before), after. by split_and!; [| |constructor].
Qed.

Lemma find_None_iff (f : A → bool) l :
  List.find f l = None ↔ ∀ x, x ∈ l → f x = false.
Proof.
  split.
  - intros H x Hx. apply list_elem_of_In in Hx. eapply List.find_none; eauto.
  - induction l as [|y l IH]; simpl; intros H; [done|].
    rewrite (H y) by set_solver. apply IH. set_solver.
Qed.

Lemma existsb_true (f : A → bool) l :
  existsb f l = true ↔ ∃ x, x ∈ l ∧ f x = true.
Proof. rewrite existsb_exists. by setoid_rewrite list_elem_of_In. Qed.

Lemma existsb_false (f : A → bool) l :
  existsb f l = false ↔ ∀ x, x ∈ l → f x = false.
Proof.
  rewrite <- not_true_iff_false, existsb_true. split.
  - intros H x Hx. destruct (f x) eqn:Hf; [|done]. exfalso; eauto.
  - intros H (x & Hx & Hf). by rewrite H in Hf.
Qed.

Lemma elem_of_flat_map {B} (f : A → list B) l y :
  y ∈ List.flat_map f l ↔ ∃ x, x ∈ l ∧ y ∈ f x.
Proof.
  rewrite list_elem_of_In, in_flat_map. by setoid_rewrite list_elem_of_In.
Qed.

Lemma forallb_true (f : A → bool) l :
  forallb f l = true ↔ ∀ x, x ∈ l → f x = true.
Proof. rewrite forallb_forall. by setoid_rewrite list_elem_of_In. Qed.
End lists.

(** Lookup in a list by a key that is unique in it. *)
Lemma find_key_unique {A K} `{EqDecision K} (key : A → K) (l : list A) x :
  NoDup (map key l) → x ∈ l →
  List.find (λ y, bool_decide (key y = key x)) l = Some x.
Proof.
  induction l as [|y l IH]; simpl; intros Hnd Hx; [set_solver|].
  apply NoDup_cons in Hnd as [Hy Hnd].
  apply elem_of_cons in Hx as [->|Hx]; [by rewrite bool_decide_true|].
  rewrite bool_decide_false; [by apply IH|].
  intros Heq. apply Hy. rewrite Heq. apply list_elem_of_fmap_2. done.
Qed.

(** Stable insertion sort by a JavaScript comparator: the observable behaviour
    of [Array.prototype.sort(compare)] for a consistent comparator. *)
Section sorting.
Context {A : Type} (compare : A → A → comparison).

Fixpoint insertBy (x : A) (l : list A) : list A :=
  match l with
  | [] => [x]
  | y :: l' => match compare x y with
               | Gt => y :: insertBy x l'
               | _ => x :: y :: l'
               end
  end.

Definition sortBy (l : list A) : list A := foldr insertBy [] l.

Lemma insertBy_perm x l : insertBy x l ≡ₚ x :: l.
Proof.
  induction l as [|y l IH]; simpl; [done|].
  destruct (compare x y); [done|done|]. rewrite IH. apply Permutation_swap.
Qed.

Lemma sortBy_perm l : sortBy l ≡ₚ l.
Proof.
  induction l as [|x l IH]; simpl; [done|]. by rewrite insertBy_perm, IH.
Qed.

Lemma elem_of_sortBy x l : x ∈ sortBy l ↔ x ∈ l.
Proof. by rewrite sortBy_perm. Qed.

Lemma sortBy_length l : length (sortBy l) = length l.
Proof. by rewrite sortBy_perm. Qed.
End sorting.

(** ** Association lists: a JavaScript [Map] in insertion order *)

Section assoc.
Context {K V : Type} `{EqDecision K}.

Definition assocGet (k : K) (l : list (K * V)) : option V :=
  snd <$> List.find (λ entry, bool_decide (entry.1 = k)) l.

(** [map.set(k, v)]: in place when the key is there, at the end otherwise. *)
Fixpoint assocSet (k : K) (v : V) (l : list (K * V)) : list (K * V) :=
  match l with
  | [] => [(k, v)]
  | (k', v') :: l' => if bool_decide (k' = k) then (k, v) :: l' else (k', v') :: assocSet k v l'
  end.

Lemma assocGet_cons k k' v l :
  assocGet k ((k', v) :: l) = if bool_decide (k' = k) then Some v else assocGet k l.
Proof. unfold assocGet. simpl. by case_bool_decide. Qed.

Lemma assocGet_set k k' v l :
  assocGet k (assocSet k' v l) = if bool_decide (k' = k) then Some v else assocGet k l.
Proof.
  induction l as [|[k'' v''] l IH]; cbn [assocSet]; [by rewrite assocGet_cons|].
  destruct (decide (k'' = k')) as [->|Hne].
  - rewrite bool_decide_true, !assocGet_cons by done. by case_bool_decide.
  - rewrite bool_decide_false, !assocGet_cons, IH by done.
    repeat case_bool_decide; congruence.
Qed.

Lemma assocSet_keys k v l :
  k ∉ map fst l → map fst (assocSet k v l) = map fst l ++ [k].
Proof.
  induction l as [|[k' v'] l IH]; simpl; [done|]. intros Hk.
  rewrite bool_decide_false by set_solver. simpl. f_equal. apply IH. set_solver.
Qed.
End assoc.
