(* ===== verification/JsValue.v ===== *)
(** * JavaScript values at the boundary of the core

    The domain core, the authorization evaluator and the execution application
    take [unknown] values and re-read them defensively.  This file models what
    those readers can observe: strings as sequences of UTF-16 code units with
    the language's [<] on strings, numbers up to the distinction made by
    [Number.isSafeInteger], objects and arrays with prototypes and property
    descriptors, and values whose inspection throws. *)

From S2P Require Import Prelude.

Open Scope Z_scope.

(** ** Strings: sequences of UTF-16 code units *)

Abbreviation JsString := (list Z) (only parsing).

(** String literals of the source (all of them ASCII). *)
Definition js (s : string) : JsString :=
  map (λ a, Z.of_N (Ascii.N_of_ascii a)) (String.list_ascii_of_string s).

(** [left < right] on strings: lexicographic in code units. *)
Fixpoint js_ltb (left right : JsString) : bool :=
  match left, right with
  | _, [] => false
  | [], _ :: _ => true
  | a :: left', b :: right' => (a <? b) || ((a =? b) && js_ltb left' right')
  end.

Definition js_lt (left right : JsString) : Prop := js_ltb left right = true.

(** [left <= right] *)
Definition js_leb (left right : JsString) : bool := negb (js_ltb right left).

(** [===] on strings. *)
Definition js_eqb (left right : JsString) : bool := bool_decide (left = right).

Lemma js_ltb_irrefl s : js_ltb s s = false.
Proof.
  induction s as [|a s IH]; simpl; [done|].
  by rewrite Z.ltb_irrefl, Z.eqb_refl, IH.
Qed.

Lemma js_ltb_cons a b s t :
  js_ltb (a :: s) (b :: t) = true ↔ a < b ∨ (a = b ∧ js_ltb s t = true).
Proof.
  simpl. rewrite orb_true_iff, andb_true_iff, Z.ltb_lt, Z.eqb_eq. done.
Qed.

Lemma js_ltb_trans s t u :
  js_ltb s t = true → js_ltb t u = true → js_ltb s u = true.
Proof.
  revert t u. induction s as [|a s IH]; intros [|b t] [|c u]; try done.
  rewrite !js_ltb_cons. intros [?|[-> ?]] [?|[-> ?]]; [left; lia|by left|by left|].
  right. eauto.
Qed.

Lemma js_ltb_total s t : js_ltb s t = true ∨ s = t ∨ js_ltb t s = true.
Proof.
  revert t. induction s as [|a s IH]; intros [|b t]; [by auto..|].
  rewrite !js_ltb_cons. destruct (Z.lt_trichotomy a b) as [?|[->|?]]; [auto| |auto].
  destruct (IH t) as [?|[->|?]]; auto.
Qed.

Lemma js_ltb_asym s t : js_ltb s t = true → js_ltb t s = false.
Proof.
  intros H. apply not_true_iff_false. intros H'.
  pose proof (js_ltb_trans _ _ _ H H') as Hss. by rewrite js_ltb_irrefl in Hss.
Qed.

#[export] Instance js_lt_strict : StrictOrder js_lt.
Proof.
  split.
  - intros s H. red in H. by rewrite js_ltb_irrefl in H.
  - intros s t u. apply js_ltb_trans.
Qed.

Lemma js_leb_lt s t : js_leb s t = true ↔ js_ltb s t = true ∨ s = t.
Proof.
  unfold js_leb. rewrite negb_true_iff. split.
  - intros H. destruct (js_ltb_total s t) as [?|[->|?]]; [auto|auto|congruence].
  - intros [H| ->]; [by apply js_ltb_asym|apply js_ltb_irrefl].
Qed.

(** [compareStrings(left, right)]: -1, 0 or 1. *)
Definition compareStrings (left right : JsString) : comparison :=
  if js_ltb left right then Lt else if js_ltb right left then Gt else Eq.

Lemma compareStrings_spec s t :
  CompareSpec (s = t) (js_lt s t) (js_lt t s) (compareStrings s t).
Proof.
  unfold compareStrings, js_lt.
  destruct (js_ltb s t) eqn:Hst; [by constructor|].
  destruct (js_ltb t s) eqn:Hts; [by constructor|]. constructor.
  destruct (js_ltb_total s t) as [?|[?|?]]; congruence.
Qed.

(** *** Sorting by a string key *)

Section sort_by_key.
Context {A : Type} (key : A → JsString).

Definition key_lt (x y : A) : Prop := js_lt (key x) (key y).

Definition sortByKey : list A → list A :=
  sortBy (λ left right, compareStrings (key left) (key right)).

Lemma insertBy_id x l :
  Forall (λ y, key_lt x y) l →
  insertBy (λ left right, compareStrings (key left) (key right)) x l = x :: l.
Proof.
  destruct l as [|y l]; simpl; [done|]. intros [Hxy _]%Forall_cons.
  destruct (compareStrings_spec (key x) (key y)) as [?|?|Hyx]; [done|done|].
  exfalso. eapply (irreflexivity js_lt). by etrans.
Qed.

(** Sorting a strictly sorted list is the identity. *)
Lemma sortByKey_id l : StronglySorted key_lt l → sortByKey l = l.
Proof.
  induction 1 as [|x l Hl IH Hx]; [done|].
  unfold sortByKey in *. simpl. by rewrite IH, insertBy_id.
Qed.

Lemma insertBy_sorted x l :
  StronglySorted key_lt l → Forall (λ y, key y ≠ key x) l →
  StronglySorted key_lt
    (insertBy (λ left right, compareStrings (key left) (key right)) x l).
Proof.
  induction 1 as [|y l Hl IH Hy]; simpl; intros Hne; [repeat constructor|].
  apply Forall_cons in Hne as [Hyx Hne].
  destruct (compareStrings_spec (key x) (key y)) as [Heq|Hlt|Hgt].
  - congruence.
  - constructor; [by constructor|]. constructor; [done|].
    eapply Forall_impl; [exact Hy|]. intros z Hz. unfold key_lt in *. by etrans.
  - constructor; [by apply IH|].
    rewrite insertBy_perm. constructor; [done|exact Hy].
Qed.

Lemma sortByKey_sorted l :
  NoDup (map key l) → StronglySorted key_lt (sortByKey l).
Proof.
  induction l as [|x l IH]; intros Hnd; [constructor|].
  apply NoDup_cons in Hnd as [Hx Hnd].
  apply (insertBy_sorted x (sortByKey l)); [by apply IH|]. unfold sortByKey.
  rewrite sortBy_perm. apply Forall_forall. intros y Hy Heq. apply Hx.
  rewrite <-Heq. by apply list_elem_of_fmap_2.
Qed.

Lemma key_sorted_NoDup l : StronglySorted key_lt l → NoDup (map key l).
Proof.
  induction 1 as [|x l Hl IH Hx]; simpl; constructor; [|done].
  intros (y & Heq & Hy)%list_elem_of_fmap. rewrite Forall_forall in Hx.
  specialize (Hx y Hy). unfold key_lt in Hx. rewrite Heq in Hx.
  by apply (irreflexivity js_lt) in Hx.
Qed.

Lemma key_lt_asym x y : key_lt x y → ¬ key_lt y x.
Proof. unfold key_lt. intros H1 H2. apply (irreflexivity js_lt (key x)). by etrans. Qed.

(** A strictly sorted list is determined by its elements. *)
Lemma key_sorted_unique l1 l2 :
  StronglySorted key_lt l1 → StronglySorted key_lt l2 → (∀ x, x ∈ l1 ↔ x ∈ l2) → l1 = l2.
Proof.
  intros H1 H2 He. apply (StronglySorted_unique_strong key_lt); [|done|done|].
  - intros x y _ _ Hxy Hyx. by destruct (key_lt_asym x y).
  - apply NoDup_Permutation; [..|done]; eapply NoDup_fmap_1; by apply (key_sorted_NoDup).
Qed.

(** The result of sorting does not depend on the order of the list. *)
Lemma sortByKey_perm l l' : StronglySorted key_lt l' → l ≡ₚ l' → sortByKey l = l'.
Proof.
  intros Hs Hp. apply key_sorted_unique; [|done|].
  - apply sortByKey_sorted. apply key_sorted_NoDup in Hs. by rewrite Hp.
  - intros x. unfold sortByKey. by rewrite elem_of_sortBy, Hp.
Qed.
End sort_by_key.

Lemma sorted_NoDup (l : list JsString) : StronglySorted js_lt l → NoDup l.
Proof. intros H. rewrite <-(map_id l). by apply key_sorted_NoDup. Qed.

(** ** Numbers

    The source accepts a number only after [Number.isSafeInteger]; every other
    number (fractional, infinite, not a number) is one constructor. *)

Inductive JsNumber : Type :=
  | NumInteger (z : Z)
  | NumOther.

Definition MAX_SAFE_INTEGER : Z := 9007199254740991.

(** ** Values *)

Inductive JsKey : Type :=
  | KeyString (s : JsString)
  | KeySymbol (n : nat).

Inductive JsPrototype : Type :=
  | ObjectPrototype | ArrayPrototype | NullPrototype | OtherPrototype.

(** A property descriptor: a data property or an accessor. *)
Inductive JsProperty (V : Type) : Type :=
  | DataProperty (enumerable : bool) (value : V)
  | AccessorProperty.
Arguments DataProperty {V} enumerable value.
Arguments AccessorProperty {V}.


(** [JArray proto slots others]: an array of length [length slots]; a hole is
    [None]; [others] counts own keys besides the indices and ["length"].
    [JOpaque]: a function, symbol or bigint.  [JHostile]: an object whose
    inspection throws (a revoked proxy, a throwing trap). *)
Inductive JsValue : Type :=
  | JUndefined
  | JNull
  | JBoolean (b : bool)
  | JNumber (n : JsNumber)
  | JString (s : JsString)
  | JOpaque
  | JObject (proto : JsPrototype) (own : list (JsKey * JsProperty JsValue))
  | JArray (proto : JsPrototype) (slots : list (option (JsProperty JsValue))) (others : nat)
  | JHostile.

(** The null-prototype copy a reader returns; [record.key] reads [undefined]
    when the key is absent. *)
Abbreviation JsRecord := (list (JsString * JsValue)) (only parsing).

Definition field (record : list (JsString * JsValue)) (key : string) : JsValue :=
  match List.find (λ entry, js_eqb entry.1 (js key)) record with
  | Some entry => entry.2
  | None => JUndefined
  end.

(** ** The defensive readers *)

(** The per-key loop of [readExactRecord]. *)
Fixpoint copyOwn (allowed : list JsString) (own : list (JsKey * JsProperty JsValue))
    : option (list (JsString * JsValue)) :=
  match own with
  | [] => Some []
  | (KeyString key, DataProperty true value) :: own' =>
      if bool_decide (key ∈ allowed)
      then rest ← copyOwn allowed own'; Some ((key, value) :: rest)
      else None
  | _ => None
  end.

Definition readExactRecord (value : JsValue) (expected : list string)
    : option (list (JsString * JsValue)) :=
  match value with
  | JObject proto own =>
      match proto with
      | ObjectPrototype | NullPrototype =>
          if (length own =? length expected)%nat
          then copyOwn (map js expected) own
          else None
      | _ => None
      end
  | _ => None
  end.

Fixpoint copySlots (slots : list (option (JsProperty JsValue))) : option (list JsValue) :=
  match slots with
  | [] => Some []
  | Some (DataProperty true value) :: slots' =>
      rest ← copySlots slots'; Some (value :: rest)
  | _ => None
  end.

(** [Reflect.ownKeys(value).length]: the filled indices, the other keys and
    ["length"]. *)
Definition arrayOwnKeyCount (slots : list (option (JsProperty JsValue))) (others : nat) : nat :=
  (length (omap id slots) + others + 1)%nat.

Definition readCanonicalArray (value : JsValue) : option (list JsValue) :=
  match value with
  | JArray ArrayPrototype slots others =>
      if (arrayOwnKeyCount slots others =? length slots + 1)%nat
      then copySlots slots
      else None
  | _ => None
  end.

(** ** Guards: each returns the narrowed value, [None] for [false] *)

Definition asString (value : JsValue) : option JsString :=
  match value with JString s => Some s | _ => None end.

Definition isBoolean (value : JsValue) : option bool :=
  match value with JBoolean b => Some b | _ => None end.

Definition isIdentifier (value : JsValue) : option JsString :=
  match value with
  | JString s => if (0 <? Z.of_nat (length s)) then Some s else None
  | _ => None
  end.

(** [value === null || guard(value)] *)
Definition nullable {A} (guard : JsValue → option A) (value : JsValue) : option (option A) :=
  match value with
  | JNull => Some None
  | _ => Some <$> guard value
  end.

Definition isNullableIdentifier (value : JsValue) : option (option JsString) :=
  nullable isIdentifier value.

Definition isSafeInteger (value : JsValue) : option Z :=
  match value with
  | JNumber (NumInteger z) => if Z.abs z <=? MAX_SAFE_INTEGER then Some z else None
  | _ => None
  end.

Definition isPositiveInteger (value : JsValue) : option Z :=
  z ← isSafeInteger value; if 0 <? z then Some z else None.

Definition isNonnegativeInteger (value : JsValue) : option Z :=
  z ← isSafeInteger value; if 0 <=? z then Some z else None.

(** [value === literal] for a string literal. *)
Definition isLiteral (value : JsValue) (literal : JsString) : bool :=
  match value with JString s => js_eqb s literal | _ => false end.

(** [value === n] for a number. *)
Definition isNumber (value : JsValue) (n : Z) : bool :=
  match value with JNumber (NumInteger z) => z =? n | _ => false end.

Definition isNull (value : JsValue) : bool :=
  match value with JNull => true | _ => false end.

(** ** Values the program builds: object literals, array literals *)

Definition jsObject (fields : list (string * JsValue)) : JsValue :=
  JObject ObjectPrototype
    (map (λ entry, (KeyString (js entry.1), DataProperty true entry.2)) fields).

Definition jsArray (items : list JsValue) : JsValue :=
  JArray ArrayPrototype (map (λ item, Some (DataProperty true item)) items) 0.

Definition jsNullable {A} (encode : A → JsValue) (value : option A) : JsValue :=
  match value with None => JNull | Some a => encode a end.

Definition jsInteger (z : Z) : JsValue := JNumber (NumInteger z).

(** ** Reading back what the program builds *)

Lemma copyOwn_literal allowed fields :
  Forall (λ entry, js entry.1 ∈ allowed) fields →
  copyOwn allowed (map (λ entry, (KeyString (js entry.1), DataProperty true entry.2)) fields)
  = Some (map (λ entry, (js entry.1, entry.2)) fields).
Proof.
  induction 1 as [|[k v] fields Hk _ IH]; simpl in *; [done|].
  by rewrite bool_decide_true, IH.
Qed.

(** The copy read from an object literal. *)
Definition jsRecord (fields : list (string * JsValue)) : list (JsString * JsValue) :=
  map (λ entry, (js entry.1, entry.2)) fields.
#[global] Arguments jsRecord : simpl never.

Lemma js_inj s t : js s = js t → s = t.
Proof.
  unfold js. intros H. rewrite <-(String.string_of_list_ascii_of_string s),
    <-(String.string_of_list_ascii_of_string t). f_equal.
  revert H. generalize (String.list_ascii_of_string s), (String.list_ascii_of_string t).
  intros l k. revert k. induction l as [|a l IH]; intros [|b k]; try done.
  intros [= Hab Hlk]. f_equal; [|by apply IH].
  apply N2Z.inj in Hab. rewrite <-(Ascii.ascii_N_embedding a), Hab.
  apply Ascii.ascii_N_embedding.
Qed.

Lemma field_record fields key :
  field (jsRecord fields) key =
  match List.find (λ entry, String.eqb entry.1 key) fields with
  | Some entry => entry.2
  | None => JUndefined
  end.
Proof.
  unfold field, jsRecord. induction fields as [|[k v] fields IH]; simpl; [done|].
  unfold js_eqb at 1. destruct (String.eqb_spec k key) as [->|Hne].
  - by rewrite bool_decide_true.
  - rewrite bool_decide_false; [exact IH|]. intros ?%js_inj. done.
Qed.

Lemma readExactRecord_object fields expected :
  map fst fields = expected →
  readExactRecord (jsObject fields) expected = Some (jsRecord fields).
Proof.
  intros <-. simpl. rewrite !length_map, Nat.eqb_refl. apply copyOwn_literal.
  apply Forall_forall. intros [k v] Hin. rewrite map_map.
  apply (list_elem_of_fmap_2 (λ entry, js entry.1)) in Hin. done.
Qed.

Lemma copySlots_literal items :
  copySlots (map (λ item, Some (DataProperty true item)) items) = Some items.
Proof. induction items as [|item items IH]; simpl; [done|]. by rewrite IH. Qed.

Lemma readCanonicalArray_array items : readCanonicalArray (jsArray items) = Some items.
Proof.
  simpl. unfold arrayOwnKeyCount.
  assert (length (omap id (map (λ item, Some (DataProperty true item)) items))
          = length items) as ->.
  { induction items as [|item items IH]; [done|]. cbn. f_equal. exact IH. }
  rewrite length_map, Nat.add_0_r, Nat.eqb_refl. apply copySlots_literal.
Qed.

Lemma isIdentifier_ok value s : isIdentifier value = Some s ↔ value = JString s ∧ s ≠ [].
Proof.
  destruct value; simpl; try naive_solver.
  case_match eqn:Hl; inv_bool; split; try naive_solver.
  - intros [= <-]. split; [done|]. intros ->. simpl in *. lia.
  - intros [[= <-] Hne]. destruct s0; [done|]. simpl in *. lia.
Qed.

Lemma isSafeInteger_ok value z :
  isSafeInteger value = Some z ↔ value = jsInteger z ∧ Z.abs z ≤ MAX_SAFE_INTEGER.
Proof.
  unfold jsInteger. destruct value as [| | |[]| | | | |]; simpl; try naive_solver.
  case_match eqn:Hl; inv_bool; split; try naive_solver.
  intros [[= <-] ?]. lia.
Qed.

Lemma isPositiveInteger_ok value z :
  isPositiveInteger value = Some z ↔ value = jsInteger z ∧ 0 < z ≤ MAX_SAFE_INTEGER.
Proof.
  unfold isPositiveInteger. destruct (isSafeInteger value) as [y|] eqn:Hs; simpl.
  - apply isSafeInteger_ok in Hs as [-> Hs].
    case_match eqn:Hl; inv_bool; split; unfold jsInteger.
    + intros [= <-]. split; [done|lia].
    + by intros [[= <-] ?].
    + done.
    + intros [[= <-] ?]. lia.
  - split; [done|]. intros [-> Hz].
    assert (isSafeInteger (jsInteger z) = Some z) by (apply isSafeInteger_ok; split; [done|lia]).
    congruence.
Qed.

Lemma isNonnegativeInteger_ok value z :
  isNonnegativeInteger value = Some z ↔ value = jsInteger z ∧ 0 ≤ z ≤ MAX_SAFE_INTEGER.
Proof.
  unfold isNonnegativeInteger. destruct (isSafeInteger value) as [y|] eqn:Hs; simpl.
  - apply isSafeInteger_ok in Hs as [-> Hs].
    case_match eqn:Hl; inv_bool; split; unfold jsInteger.
    + intros [= <-]. split; [done|lia].
    + by intros [[= <-] ?].
    + done.
    + intros [[= <-] ?]. lia.
  - split; [done|]. intros [-> Hz].
    assert (isSafeInteger (jsInteger z) = Some z) by (apply isSafeInteger_ok; split; [done|lia]).
    congruence.
Qed.

Lemma nullable_ok {A} (guard : JsValue → option A) value o :
  nullable guard value = Some o →
  (value = JNull ∧ o = None) ∨ ∃ a, guard value = Some a ∧ o = Some a.
Proof.
  destruct value; simpl; try (destruct (guard _) eqn:?; simpl; naive_solver); naive_solver.
Qed.

Lemma nullable_none {A} (guard : JsValue → option A) : nullable guard JNull = Some None.
Proof. done. Qed.

Lemma nullable_some {A} (guard : JsValue → option A) value a :
  value ≠ JNull → guard value = Some a → nullable guard value = Some (Some a).
Proof. intros Hn Hg. destruct value; simpl; rewrite ?Hg; done. Qed.

Lemma isLiteral_ok value s : isLiteral value s = true ↔ value = JString s.
Proof.
  destruct value; simpl; unfold js_eqb; rewrite ?bool_decide_eq_true; naive_solver.
Qed.

Lemma isNumber_ok value n : isNumber value n = true ↔ value = jsInteger n.
Proof.
  unfold jsInteger. destruct value as [| | |[]| | | | |]; simpl; try naive_solver.
  rewrite Z.eqb_eq. naive_solver.
Qed.

(** The readers stay folded; proofs use their lemmas. *)
#[global] Arguments field : simpl never.
#[global] Arguments isIdentifier : simpl never.
#[global] Arguments isSafeInteger : simpl never.
#[global] Arguments readExactRecord : simpl never.
#[global] Arguments readCanonicalArray : simpl never.
#[global] Arguments jsObject : simpl never.
#[global] Arguments jsArray : simpl never.
