(* ===== verification/UnicodeText.v ===== *)
(** * Text admitted by the domain core

    [wellFormedText], the forbidden general categories and the UTF-8 size bound
    behind [isCanonicalCancellationReason] (src/src/domain.ts).  Normalization
    to NFC is a table of the Unicode Character Database, not code of the
    program: it is the parameter [normalizeNFC] of the class
    [UnicodeNormalization], and every theorem holds for any such function. *)

From S2P Require Import Prelude JsValue.

Class UnicodeNormalization : Type := {
  normalizeNFC : JsString → JsString;
}.

Definition isHighSurrogate (unit : Z) : bool := (55296 <=? unit) && (unit <=? 56319).
Definition isLowSurrogate (unit : Z) : bool := (56320 <=? unit) && (unit <=? 57343).

(** A high surrogate must be followed by a low one (reading past the end gives
    [NaN], which fails the comparison), and no low surrogate stands alone. *)
Fixpoint wellFormedText (value : JsString) : bool :=
  match value with
  | [] => true
  | unit :: rest =>
      if isHighSurrogate unit then
        match rest with
        | next :: rest' => isLowSurrogate next && wellFormedText rest'
        | [] => false
        end
      else if isLowSurrogate unit then false
      else wellFormedText rest
  end.

(** The code points of a well-formed string. *)
Fixpoint codePoints (value : JsString) : list Z :=
  match value with
  | [] => []
  | unit :: rest =>
      match rest with
      | next :: rest' =>
          if isHighSurrogate unit && isLowSurrogate next
          then (65536 + (unit - 55296) * 1024 + (next - 56320)) :: codePoints rest'
          else unit :: codePoints rest
      | [] => [unit]
      end
  end.

Definition inRanges (ranges : list (Z * Z)) (point : Z) : bool :=
  existsb (λ range, (range.1 <=? point) && (point <=? range.2)) ranges.

(** General category [Cc] (control) and [Cf] (format) of Unicode 15. *)
Definition CcRanges : list (Z * Z) := [(0, 31); (127, 159)].
Definition CfRanges : list (Z * Z) :=
  [(173, 173); (1536, 1541); (1564, 1564); (1757, 1757); (1807, 1807);
   (2192, 2193); (2274, 2274); (6158, 6158); (8203, 8207); (8234, 8238);
   (8288, 8292); (8294, 8303); (65279, 65279); (65529, 65531);
   (69821, 69821); (69837, 69837); (78896, 78911); (113824, 113827);
   (119155, 119162); (917505, 917505); (917536, 917631)].

(** [/[\p{Cc}\p{Cf}]/u.test(value)] *)
Definition FORBIDDEN_CANCELLATION_REASON_TEXT (value : JsString) : bool :=
  existsb (inRanges (CcRanges ++ CfRanges)) (codePoints value).

Definition utf8Width (point : Z) : Z :=
  if point <? 128 then 1 else if point <? 2048 then 2
  else if point <? 65536 then 3 else 4.

(** [new TextEncoder().encode(value).byteLength] *)
Definition encodedBytes (value : JsString) : Z :=
  foldr (λ point size, utf8Width point + size) 0 (codePoints value).

Section text.
Context `{UnicodeNormalization}.

Definition canonicalReasonText (value : JsString) : bool :=
  wellFormedText value &&
  negb (FORBIDDEN_CANCELLATION_REASON_TEXT value) &&
  js_eqb (normalizeNFC value) value &&
  (1 <=? encodedBytes value) && (encodedBytes value <=? 4096).

Definition isCanonicalCancellationReason (value : JsValue) : option JsString :=
  match value with
  | JString s => if canonicalReasonText s then Some s else None
  | _ => None
  end.

Lemma isCanonicalCancellationReason_ok value s :
  isCanonicalCancellationReason value = Some s ↔
  value = JString s ∧ canonicalReasonText s = true.
Proof.
  unfold isCanonicalCancellationReason.
  split.
  - destruct value as [| | | |t| | | |]; try done.
    destruct (canonicalReasonText t) eqn:Ht; [|done]. by intros [= <-].
  - intros [-> Hs]. by rewrite Hs.
Qed.
End text.

(** The normalization used by witnesses: exact on strings whose code points are
    all below U+0300, where NFC is the identity. *)
Definition latinNormalization : UnicodeNormalization := {| normalizeNFC := λ s, s |}.
