(* ===== verification/DomainModel.v ===== *)
(** * Domain data (src/src/domain.ts, lines 1-330)

    The enumerations, records, error and event values of the domain core, the
    JavaScript objects that carry them, and the small constructors the file
    uses ([domainError], [event], [success], [failure]). *)

From S2P Require Import Prelude JsValue UnicodeText.

(** ** Enumerations *)

Inductive TaskState : Type :=
  | idea | ready | running | waiting | completed | cancelled.

Inductive WaitingReason : Type :=
  | human_input | authorization_required | execution_failed | policy_gate_failed
  | resource_exhausted | rate_limited | disk_full | workspace_conflict
  | wr_dependency_cancelled | stale_lease | ambiguous_external_state
  | backend_incompatible.

Inductive TaskTransitionEvent : Type :=
  | mark_ready | cancel | claim_accepted | dependency_cancelled | execution_wait
  | completion_accepted | interruption_verified | resume_accepted | retry_accepted.

#[export] Instance TaskState_eq_dec : EqDecision TaskState.
Proof. solve_decision. Defined.
#[export] Instance WaitingReason_eq_dec : EqDecision WaitingReason.
Proof. solve_decision. Defined.
#[export] Instance TaskTransitionEvent_eq_dec : EqDecision TaskTransitionEvent.
Proof. solve_decision. Defined.

Definition TaskState_name (s : TaskState) : string :=
  match s with
  | idea => "idea" | ready => "ready" | running => "running"
  | waiting => "waiting" | completed => "completed" | cancelled => "cancelled"
  end.

Definition WaitingReason_name (r : WaitingReason) : string :=
  match r with
  | human_input => "human_input"
  | authorization_required => "authorization_required"
  | execution_failed => "execution_failed"
  | policy_gate_failed => "policy_gate_failed"
  | resource_exhausted => "resource_exhausted"
  | rate_limited => "rate_limited"
  | disk_full => "disk_full"
  | workspace_conflict => "workspace_conflict"
  | wr_dependency_cancelled => "dependency_cancelled"
  | stale_lease => "stale_lease"
  | ambiguous_external_state => "ambiguous_external_state"
  | backend_incompatible => "backend_incompatible"
  end.

Definition TaskTransitionEvent_name (e : TaskTransitionEvent) : string :=
  match e with
  | mark_ready => "mark_ready" | cancel => "cancel"
  | claim_accepted => "claim_accepted"
  | dependency_cancelled => "dependency_cancelled"
  | execution_wait => "execution_wait"
  | completion_accepted => "completion_accepted"
  | interruption_verified => "interruption_verified"
  | resume_accepted => "resume_accepted" | retry_accepted => "retry_accepted"
  end.

Definition TASK_STATES : list TaskState :=
  [idea; ready; running; waiting; completed; cancelled].

Definition WAITING_REASONS : list WaitingReason :=
  [human_input; authorization_required; execution_failed; policy_gate_failed;
   resource_exhausted; rate_limited; disk_full; workspace_conflict;
   wr_dependency_cancelled; stale_lease; ambiguous_external_state;
   backend_incompatible].

Record TaskTransition : Type := {
  from : TaskState;
  to : TaskState;
  transitionEvent : TaskTransitionEvent;
}.

Definition TASK_TRANSITIONS : list TaskTransition := [
  {| from := idea; to := ready; transitionEvent := mark_ready |};
  {| from := idea; to := cancelled; transitionEvent := cancel |};
  {| from := ready; to := running; transitionEvent := claim_accepted |};
  {| from := ready; to := waiting; transitionEvent := dependency_cancelled |};
  {| from := ready; to := cancelled; transitionEvent := cancel |};
  {| from := running; to := waiting; transitionEvent := execution_wait |};
  {| from := running; to := completed; transitionEvent := completion_accepted |};
  {| from := running; to := cancelled; transitionEvent := interruption_verified |};
  {| from := waiting; to := running; transitionEvent := resume_accepted |};
  {| from := waiting; to := running; transitionEvent := retry_accepted |};
  {| from := waiting; to := cancelled; transitionEvent := cancel |}
].

(** [TERMINAL_STATES.has(state)], [GRAPH_MUTABLE_STATES.has(state)] *)
Definition TERMINAL_STATES : list TaskState := [completed; cancelled].
Definition GRAPH_MUTABLE_STATES : list TaskState := [idea; ready; waiting].

Definition isTerminal (s : TaskState) : bool := bool_decide (s ∈ TERMINAL_STATES).
Definition isGraphMutable (s : TaskState) : bool := bool_decide (s ∈ GRAPH_MUTABLE_STATES).

(** ** Errors *)

Module ErrorCode.
Inductive DomainErrorCode : Type :=
  | INVALID_INPUT | INVALID_SNAPSHOT | TASK_NOT_FOUND | PROJECT_NOT_FOUND
  | PROJECT_ALREADY_EXISTS | TASK_ALREADY_EXISTS | ILLEGAL_TRANSITION
  | TERMINAL_IMMUTABLE | MUTATION_NOT_ALLOWED | NO_OP | REVISION_EXHAUSTED
  | PROJECT_DISABLED | TASK_NOT_ELIGIBLE | DEPENDENCY_NOT_FOUND
  | DEPENDENCY_CANCELLED | DEPENDENCY_SELF | DEPENDENCY_DUPLICATE
  | DEPENDENCY_CYCLE | PARENT_NOT_FOUND | PARENT_SELF
  | PARENT_PROJECT_MISMATCH | PARENT_CYCLE | SUPERSESSION_NOT_FOUND
  | SUPERSESSION_SELF | EXTERNAL_PRECONDITION_FAILED
  | CONTINUATION_NOT_ELIGIBLE.
End ErrorCode.
Export (hints) ErrorCode.

Inductive DetailValue : Type :=
  | DetailString (s : JsString)
  | DetailNumber (z : Z)
  | DetailBoolean (b : bool)
  | DetailNull.

Abbreviation Details := (list (string * DetailValue)) (only parsing).

Definition detailNullable (value : option JsString) : DetailValue :=
  match value with Some s => DetailString s | None => DetailNull end.

Definition detailState (s : TaskState) : DetailValue := DetailString (js (TaskState_name s)).

Record DomainError : Type := {
  code : ErrorCode.DomainErrorCode;
  message : string;
  errorDetails : Details;
}.

Definition domainError (code : ErrorCode.DomainErrorCode) (message : string)
    (details : Details) : DomainError :=
  {| code := code; message := message; errorDetails := details |}.

(** [Parsed<T>]; [invalid(...)] and [parsed(...)] are its constructors. *)
Abbreviation Parsed T := (Result DomainError T) (only parsing).

Abbreviation parsed := Ok (only parsing).
Abbreviation invalid code message details := (Err (domainError code message details)) (only parsing).

(** ** Reasons *)

Module EligibilityReason.
Inductive EligibilityReason : Type :=
  | STATE_NOT_READY | PROJECT_NOT_REGISTERED | PROJECT_DISABLED
  | DEPENDENCY_NOT_REGISTERED | DEPENDENCY_NOT_COMPLETED.

Definition name (r : EligibilityReason) : string :=
  match r with
  | STATE_NOT_READY => "STATE_NOT_READY"
  | PROJECT_NOT_REGISTERED => "PROJECT_NOT_REGISTERED"
  | PROJECT_DISABLED => "PROJECT_DISABLED"
  | DEPENDENCY_NOT_REGISTERED => "DEPENDENCY_NOT_REGISTERED"
  | DEPENDENCY_NOT_COMPLETED => "DEPENDENCY_NOT_COMPLETED"
  end.

#[export] Instance eq_dec : EqDecision EligibilityReason.
Proof. solve_decision. Defined.
End EligibilityReason.
Export (hints) EligibilityReason.

Module ContinuationReason.
Inductive ContinuationReason : Type :=
  | STATE_NOT_WAITING | TASK_REVISION_STALE | PROJECT_NOT_REGISTERED
  | PROJECT_DISABLED | DEPENDENCY_NOT_REGISTERED | DEPENDENCY_NOT_COMPLETED
  | REQUIRED_ACTION_RECEIPT_STALE | IDENTITY_MISMATCH | EXECUTION_ID_REQUIRED
  | NOT_RETRYABLE | RETRY_TOO_EARLY.

Definition name (r : ContinuationReason) : string :=
  match r with
  | STATE_NOT_WAITING => "STATE_NOT_WAITING"
  | TASK_REVISION_STALE => "TASK_REVISION_STALE"
  | PROJECT_NOT_REGISTERED => "PROJECT_NOT_REGISTERED"
  | PROJECT_DISABLED => "PROJECT_DISABLED"
  | DEPENDENCY_NOT_REGISTERED => "DEPENDENCY_NOT_REGISTERED"
  | DEPENDENCY_NOT_COMPLETED => "DEPENDENCY_NOT_COMPLETED"
  | REQUIRED_ACTION_RECEIPT_STALE => "REQUIRED_ACTION_RECEIPT_STALE"
  | IDENTITY_MISMATCH => "IDENTITY_MISMATCH"
  | EXECUTION_ID_REQUIRED => "EXECUTION_ID_REQUIRED"
  | NOT_RETRYABLE => "NOT_RETRYABLE"
  | RETRY_TOO_EARLY => "RETRY_TOO_EARLY"
  end.

#[export] Instance eq_dec : EqDecision ContinuationReason.
Proof. solve_decision. Defined.
End ContinuationReason.
Export (hints) ContinuationReason.

(** ** Records *)

Record Project : Type := {
  projectId : JsString;
  enabled : bool;
}.

Record WaitingMetadataInput : Type := {
  reason : WaitingReason;
  phase : JsString;
  requiredAction : JsString;
  lastErrorCode : JsString;
  lastErrorSummary : option JsString;
  retryable : bool;
  retryCount : Z;
  retryAfter : option Z;
  executionId : option JsString;
  workspaceRevision : option JsString;
  backendThreadId : option JsString;
}.

(** [WaitingMetadata extends WaitingMetadataInput]. *)
Record WaitingMetadata : Type := {
  waitingInput : WaitingMetadataInput;
  waitingTaskRevision : Z;
}.

Record CompletionFact : Type := {
  decisionId : JsString;
  completionTaskRevision : Z;
}.

Inductive CancellationEvent : Type := ce_cancel | ce_interruption_verified.

Record CancellationFact : Type := {
  cancellationEvent : CancellationEvent;
  cancellationReason : JsString;
  verificationId : option JsString;
  cancellationTaskRevision : Z;
}.

Record Task : Type := {
  id : JsString;
  taskProjectId : JsString;
  state : TaskState;
  revision : Z;
  body : JsString;
  parentId : option JsString;
  dependencyIds : list JsString;
  taskWaiting : option WaitingMetadata;
  completion : option CompletionFact;
  cancellation : option CancellationFact;
  supersedesTaskId : option JsString;
}.

Record DomainSnapshot : Type := {
  projects : list Project;
  tasks : list Task;
}.

#[export] Instance Project_eq_dec : EqDecision Project.
Proof. solve_decision. Defined.
#[export] Instance WaitingMetadataInput_eq_dec : EqDecision WaitingMetadataInput.
Proof. solve_decision. Defined.
#[export] Instance WaitingMetadata_eq_dec : EqDecision WaitingMetadata.
Proof. solve_decision. Defined.
#[export] Instance CompletionFact_eq_dec : EqDecision CompletionFact.
Proof. solve_decision. Defined.
#[export] Instance CancellationEvent_eq_dec : EqDecision CancellationEvent.
Proof. solve_decision. Defined.
#[export] Instance CancellationFact_eq_dec : EqDecision CancellationFact.
Proof. solve_decision. Defined.
#[export] Instance Task_eq_dec : EqDecision Task.
Proof. solve_decision. Defined.

(** ** Events and results *)

Inductive DomainEventType : Type :=
  | task_created | task_transitioned | task_body_changed | task_waiting_changed
  | task_parent_changed | task_dependency_added | task_dependency_removed
  | task_supersession_changed.

Record DomainEvent : Type := {
  eventType : DomainEventType;
  eventTaskId : JsString;
  taskRevisionBefore : option Z;
  taskRevisionAfter : Z;
  eventDetails : Details;
}.

Definition event (type : DomainEventType) (taskId : JsString)
    (taskRevisionBefore : option Z) (taskRevisionAfter : Z) (details : Details) : DomainEvent :=
  {| eventType := type; eventTaskId := taskId;
     taskRevisionBefore := taskRevisionBefore;
     taskRevisionAfter := taskRevisionAfter; eventDetails := details |}.

Record DomainSuccess (T : Type) : Type := {
  value : T;
  events : list DomainEvent;
}.
Arguments value {T} _.
Arguments events {T} _.

(** [DomainResult<T>]: [DomainSuccess<T> | DomainFailure]. *)
Abbreviation DomainResult T := (Result DomainError (DomainSuccess T)) (only parsing).

Abbreviation success v evs := (Ok {| value := v; events := evs |}) (only parsing).
Abbreviation failure := Err (only parsing).

Record DomainMutation : Type := {
  snapshot : DomainSnapshot;
  changedTaskIds : list JsString;
}.

Record ProjectDomainMutation : Type := {
  projectSnapshot : DomainSnapshot;
  changedProjectIds : list JsString;
}.

Record TaskEligibilityDecision : Type := {
  eligibilityTaskId : JsString;
  eligibilityReadRevision : JsString;
  eligible : bool;
  eligibilityReasonList : list EligibilityReason.EligibilityReason;
}.

Inductive ContinuationKind : Type := resume | retry.
#[export] Instance ContinuationKind_eq_dec : EqDecision ContinuationKind.
Proof. solve_decision. Defined.

Record WaitingContinuationDecision : Type := {
  continuationTaskId : JsString;
  continuationReadRevision : JsString;
  continuationDecisionKind : ContinuationKind;
  continuationEligible : bool;
  continuationReasonList : list ContinuationReason.ContinuationReason;
}.

Record RequiredActionReceipt : Type := {
  receiptId : JsString;
  receiptTaskId : JsString;
  receiptTaskRevision : Z;
  receiptRequiredAction : JsString;
}.

Record WaitingContinuationCommand : Type := {
  commandTaskId : JsString;
  expectedTaskRevision : Z;
  readRevisionLabel : JsString;
  kind : ContinuationKind;
  requiredActionReceipt : RequiredActionReceipt;
  targetExecutionId : option JsString;
  targetWorkspaceRevision : option JsString;
  targetBackendThreadId : option JsString;
  trustedTime : Z;
}.

Record ExternalAcceptance : Type := {
  acceptanceTaskId : JsString;
  acceptanceTaskRevision : Z;
}.

Record CompletionDecision : Type := {
  completionDecisionId : JsString;
  completionDecisionTaskId : JsString;
  completionDecisionTaskRevision : Z;
}.

Inductive DispositionStatus : Type := absent | stopped.
#[export] Instance DispositionStatus_eq_dec : EqDecision DispositionStatus.
Proof. solve_decision. Defined.

Record ExecutionDisposition : Type := {
  dispositionReceiptId : JsString;
  dispositionTaskId : JsString;
  dispositionTaskRevision : Z;
  dispositionExecutionId : option JsString;
  dispositionStatus : DispositionStatus;
}.

Record DependentWaitingInput : Type := {
  dependentTaskId : JsString;
  dependentWaiting : WaitingMetadataInput;
}.

(** ** The objects that carry domain values *)

Definition jsName (name : string) : JsValue := JString (js name).

Definition projectValue (project : Project) : JsValue :=
  jsObject [("id", JString (projectId project)); ("enabled", JBoolean (enabled project))].

Definition waitingFields (w : WaitingMetadataInput) : list (string * JsValue) :=
  [("reason", jsName (WaitingReason_name (reason w)));
   ("phase", JString (phase w));
   ("requiredAction", JString (requiredAction w));
   ("lastErrorCode", JString (lastErrorCode w));
   ("lastErrorSummary", jsNullable JString (lastErrorSummary w));
   ("retryable", JBoolean (retryable w));
   ("retryCount", jsInteger (retryCount w));
   ("retryAfter", jsNullable jsInteger (retryAfter w));
   ("executionId", jsNullable JString (executionId w));
   ("workspaceRevision", jsNullable JString (workspaceRevision w));
   ("backendThreadId", jsNullable JString (backendThreadId w))].

Definition waitingInputValue (w : WaitingMetadataInput) : JsValue := jsObject (waitingFields w).

Definition waitingValue (w : WaitingMetadata) : JsValue :=
  jsObject (waitingFields (waitingInput w) ++
            [("waitingTaskRevision", jsInteger (waitingTaskRevision w))]).

Definition completionValue (fact : CompletionFact) : JsValue :=
  jsObject [("decisionId", JString (decisionId fact));
            ("acceptedTaskRevision", jsInteger (completionTaskRevision fact))].

Definition CancellationEvent_name (e : CancellationEvent) : string :=
  match e with ce_cancel => "cancel" | ce_interruption_verified => "interruption_verified" end.

Definition cancellationValue (fact : CancellationFact) : JsValue :=
  jsObject [("event", jsName (CancellationEvent_name (cancellationEvent fact)));
            ("reason", JString (cancellationReason fact));
            ("verificationId", jsNullable JString (verificationId fact));
            ("acceptedTaskRevision", jsInteger (cancellationTaskRevision fact))].

Definition taskValue (task : Task) : JsValue :=
  jsObject [("id", JString (id task));
            ("projectId", JString (taskProjectId task));
            ("state", jsName (TaskState_name (state task)));
            ("revision", jsInteger (revision task));
            ("body", JString (body task));
            ("parentId", jsNullable JString (parentId task));
            ("dependencyIds", jsArray (map JString (dependencyIds task)));
            ("waiting", jsNullable waitingValue (taskWaiting task));
            ("completion", jsNullable completionValue (completion task));
            ("cancellation", jsNullable cancellationValue (cancellation task));
            ("supersedesTaskId", jsNullable JString (supersedesTaskId task))].

Definition snapshotValue (s : DomainSnapshot) : JsValue :=
  jsObject [("projects", jsArray (map projectValue (projects s)));
            ("tasks", jsArray (map taskValue (tasks s)))].

(** ** Enumeration guards *)

Definition lookupName {A} (all : list A) (name : A → string) (value : JsValue) : option A :=
  List.find (λ a, isLiteral value (js (name a))) all.

Definition isTaskState (value : JsValue) : option TaskState :=
  lookupName TASK_STATES TaskState_name value.

Definition isWaitingReason (value : JsValue) : option WaitingReason :=
  lookupName WAITING_REASONS WaitingReason_name value.

Definition isTransitionEvent (value : JsValue) : option TaskTransitionEvent :=
  lookupName (map transitionEvent TASK_TRANSITIONS) TaskTransitionEvent_name value.

Definition isCancellationEvent (value : JsValue) : option CancellationEvent :=
  lookupName [ce_cancel; ce_interruption_verified] CancellationEvent_name value.

Lemma isTaskState_name s : isTaskState (jsName (TaskState_name s)) = Some s.
Proof. by destruct s; vm_compute. Qed.

Lemma isWaitingReason_name r : isWaitingReason (jsName (WaitingReason_name r)) = Some r.
Proof. by destruct r; vm_compute. Qed.

Lemma isTransitionEvent_name e :
  isTransitionEvent (jsName (TaskTransitionEvent_name e)) = Some e.
Proof. by destruct e; vm_compute. Qed.

Lemma isCancellationEvent_name e :
  isCancellationEvent (jsName (CancellationEvent_name e)) = Some e.
Proof. by destruct e; vm_compute. Qed.

Lemma isTerminal_spec s : isTerminal s = true ↔ s = completed ∨ s = cancelled.
Proof. by destruct s; vm_compute; naive_solver. Qed.

Lemma isGraphMutable_spec s :
  isGraphMutable s = true ↔ s = idea ∨ s = ready ∨ s = waiting.
Proof. by destruct s; vm_compute; naive_solver. Qed.
