(* ===== verification/DomainParse.v ===== *)
(** * Domain parsers (src/src/domain.ts, lines 476-742 and 983-1042)

    The readers that turn untrusted values into projects, tasks and command
    payloads.  Each parser is characterised by the data it accepts: [*_sound]
    says what an accepted value satisfies, [*_value] that the object carrying
    well-formed data is read back as that data. *)

From S2P Require Import Prelude JsValue UnicodeText DomainModel.

Import ErrorCode.

Definition atPath (path : JsString) : Details := [("path", DetailString path)].

Definition projectKeys : list string := ["id"; "enabled"].

Definition parseProject (value : JsValue) (path : JsString) : Parsed Project :=
  let? record := ok_or (readExactRecord value projectKeys)
    (domainError INVALID_SNAPSHOT "Project must have the exact domain shape" (atPath path)) in
  ok_or
    (id ← isIdentifier (field record "id");
     enabled ← isBoolean (field record "enabled");
     Some {| projectId := id; enabled := enabled |})
    (domainError INVALID_SNAPSHOT "Project identity or enablement is invalid" (atPath path)).

Definition waitingKeys : list string :=
  ["reason"; "phase"; "requiredAction"; "lastErrorCode"; "lastErrorSummary";
   "retryable"; "retryCount"; "retryAfter"; "executionId"; "workspaceRevision";
   "backendThreadId"].

Definition parseWaitingInput (value : JsValue) (path : JsString)
    : Parsed WaitingMetadataInput :=
  let? record := ok_or (readExactRecord value waitingKeys)
    (domainError INVALID_INPUT "Waiting metadata must contain every exact field" (atPath path)) in
  ok_or
    (reason ← isWaitingReason (field record "reason");
     phase ← isIdentifier (field record "phase");
     requiredAction ← isIdentifier (field record "requiredAction");
     lastErrorCode ← isIdentifier (field record "lastErrorCode");
     lastErrorSummary ← nullable asString (field record "lastErrorSummary");
     retryable ← isBoolean (field record "retryable");
     retryCount ← isNonnegativeInteger (field record "retryCount");
     retryAfter ← nullable isSafeInteger (field record "retryAfter");
     executionId ← isNullableIdentifier (field record "executionId");
     workspaceRevision ← isNullableIdentifier (field record "workspaceRevision");
     backendThreadId ← isNullableIdentifier (field record "backendThreadId");
     Some {| reason := reason; phase := phase; requiredAction := requiredAction;
             lastErrorCode := lastErrorCode; lastErrorSummary := lastErrorSummary;
             retryable := retryable; retryCount := retryCount;
             retryAfter := retryAfter; executionId := executionId;
             workspaceRevision := workspaceRevision;
             backendThreadId := backendThreadId |})
    (domainError INVALID_INPUT "Waiting metadata contains an invalid field" (atPath path)).

Definition parseWaiting (value : JsValue) (path : JsString) : Parsed WaitingMetadata :=
  let? record := ok_or (readExactRecord value (waitingKeys ++ ["waitingTaskRevision"]))
    (domainError INVALID_SNAPSHOT "Waiting metadata must contain every exact field" (atPath path)) in
  let input := jsObject (map (λ key, (key, field record key)) waitingKeys) in
  let? parsedInput := parseWaitingInput input path in
  let? waitingTaskRevision :=
    ok_or (isPositiveInteger (field record "waitingTaskRevision"))
      (domainError INVALID_SNAPSHOT "waitingTaskRevision must be a positive integer"
         (atPath path)) in
  parsed {| waitingInput := parsedInput; waitingTaskRevision := waitingTaskRevision |}.

Definition completionKeys : list string := ["decisionId"; "acceptedTaskRevision"].

Definition parseCompletion (value : JsValue) (path : JsString) : Parsed CompletionFact :=
  let? record := ok_or (readExactRecord value completionKeys)
    (domainError INVALID_SNAPSHOT "Completion fact must have the exact domain shape"
       (atPath path)) in
  ok_or
    (decisionId ← isIdentifier (field record "decisionId");
     acceptedTaskRevision ← isPositiveInteger (field record "acceptedTaskRevision");
     Some {| decisionId := decisionId; completionTaskRevision := acceptedTaskRevision |})
    (domainError INVALID_SNAPSHOT "Completion fact is invalid" (atPath path)).

Definition cancellationKeys : list string :=
  ["event"; "reason"; "verificationId"; "acceptedTaskRevision"].

Definition taskKeys : list string :=
  ["id"; "projectId"; "state"; "revision"; "body"; "parentId"; "dependencyIds";
   "waiting"; "completion"; "cancellation"; "supersedesTaskId"].

(** The state-by-state coherence of waiting and terminal facts; the message of
    the failing branch. *)
Definition incoherentFacts (state : TaskState) (revision : Z)
    (waitingFact : option WaitingMetadata) (completionFact : option CompletionFact)
    (cancellationFact : option CancellationFact) : option string :=
  match state with
  | waiting =>
      match waitingFact, completionFact, cancellationFact with
      | Some w, None, None =>
          if waitingTaskRevision w =? revision then None
          else Some "Waiting Task facts are incomplete or incoherent"
      | _, _, _ => Some "Waiting Task facts are incomplete or incoherent"
      end
  | completed =>
      match waitingFact, completionFact, cancellationFact with
      | None, Some c, None =>
          if completionTaskRevision c =? revision - 1 then None
          else Some "Completed Task facts are incomplete or incoherent"
      | _, _, _ => Some "Completed Task facts are incomplete or incoherent"
      end
  | cancelled =>
      match waitingFact, completionFact, cancellationFact with
      | None, None, Some c =>
          if cancellationTaskRevision c =? revision - 1 then None
          else Some "Cancelled Task facts are incomplete or incoherent"
      | _, _, _ => Some "Cancelled Task facts are incomplete or incoherent"
      end
  | _ =>
      match waitingFact, completionFact, cancellationFact with
      | None, None, None => None
      | _, _, _ =>
          Some "Non-waiting and non-terminal Task cannot carry waiting or terminal facts"
      end
  end.

(** [if (field !== null) { result = parse(field, path); ... }] *)
Definition parseNullable {A} (parse : JsValue → JsString → Parsed A)
    (value : JsValue) (path : JsString) : Parsed (option A) :=
  if isNull value then Ok None else let? a := parse value path in Ok (Some a).

Section parsers.
Context `{UnicodeNormalization}.

Definition parseCancellation (value : JsValue) (path : JsString) : Parsed CancellationFact :=
  let? record := ok_or (readExactRecord value cancellationKeys)
    (domainError INVALID_SNAPSHOT "Cancellation fact must have the exact domain shape"
       (atPath path)) in
  ok_or
    (event ← isCancellationEvent (field record "event");
     reason ← isCanonicalCancellationReason (field record "reason");
     verificationId ← isNullableIdentifier (field record "verificationId");
     acceptedTaskRevision ← isPositiveInteger (field record "acceptedTaskRevision");
     Some {| cancellationEvent := event; cancellationReason := reason;
             verificationId := verificationId;
             cancellationTaskRevision := acceptedTaskRevision |})
    (domainError INVALID_SNAPSHOT "Cancellation fact is invalid" (atPath path)).

Definition parseTask (value : JsValue) (path : JsString) : Parsed Task :=
  let bad (message : string) := domainError INVALID_SNAPSHOT message (atPath path) in
  let? record := ok_or (readExactRecord value taskKeys)
    (bad "Task must have the exact domain shape") in
  let? (id, projectId, state, revision, body, parentId, dependencyValues, supersedesTaskId) :=
    ok_or
      (id ← isIdentifier (field record "id");
       projectId ← isIdentifier (field record "projectId");
       state ← isTaskState (field record "state");
       revision ← isPositiveInteger (field record "revision");
       body ← asString (field record "body");
       parentId ← isNullableIdentifier (field record "parentId");
       dependencyValues ← readCanonicalArray (field record "dependencyIds");
       supersedesTaskId ← isNullableIdentifier (field record "supersedesTaskId");
       Some (id, projectId, state, revision, body, parentId, dependencyValues,
             supersedesTaskId))
      (bad "Task contains an invalid scalar or collection") in
  let? identifiers := ok_or (mapM isIdentifier dependencyValues)
    (bad "Task contains an invalid scalar or collection") in
  let dependencyIds := sortByKey (λ s, s) identifiers in
  guard? (setSize dependencyIds =? length dependencyIds)%nat
    else bad "Task dependency identifiers must be unique" in
  guard? negb (bool_decide (parentId = Some id))
    else bad "Task cannot parent itself" in
  guard? negb (bool_decide (id ∈ dependencyIds))
    else bad "Task cannot depend on itself" in
  guard? negb (bool_decide (supersedesTaskId = Some id))
    else bad "Task cannot supersede itself" in
  let? waitingFact :=
    parseNullable parseWaiting (field record "waiting") (path ++ js ".waiting") in
  let? completionFact :=
    parseNullable parseCompletion (field record "completion") (path ++ js ".completion") in
  let? cancellationFact :=
    parseNullable parseCancellation (field record "cancellation") (path ++ js ".cancellation") in
  match incoherentFacts state revision waitingFact completionFact cancellationFact with
  | Some message => Err (bad message)
  | None =>
      parsed {| id := id; taskProjectId := projectId; state := state;
                revision := revision; body := body; parentId := parentId;
                dependencyIds := dependencyIds; taskWaiting := waitingFact;
                completion := completionFact; cancellation := cancellationFact;
                supersedesTaskId := supersedesTaskId |}
  end.
End parsers.

(** ** Well-formed data *)

Definition identifier (s : JsString) : Prop := s ≠ [].
Definition nullableIdentifier (o : option JsString) : Prop := o ≠ Some [].
Definition positiveInteger (z : Z) : Prop := 0 < z ≤ MAX_SAFE_INTEGER.

Record waitingInput_wf (w : WaitingMetadataInput) : Prop := {
  wf_phase : identifier (phase w);
  wf_requiredAction : identifier (requiredAction w);
  wf_lastErrorCode : identifier (lastErrorCode w);
  wf_retryCount : 0 ≤ retryCount w ≤ MAX_SAFE_INTEGER;
  wf_retryAfter : ∀ z, retryAfter w = Some z → Z.abs z ≤ MAX_SAFE_INTEGER;
  wf_executionId : nullableIdentifier (executionId w);
  wf_workspaceRevision : nullableIdentifier (workspaceRevision w);
  wf_backendThreadId : nullableIdentifier (backendThreadId w);
}.

Record waiting_wf (w : WaitingMetadata) : Prop := {
  wf_waitingInput : waitingInput_wf (waitingInput w);
  wf_waitingTaskRevision : positiveInteger (waitingTaskRevision w);
}.

Record completion_wf (fact : CompletionFact) : Prop := {
  wf_decisionId : identifier (decisionId fact);
  wf_completionTaskRevision : positiveInteger (completionTaskRevision fact);
}.

Lemma isNullableIdentifier_ok value o :
  isNullableIdentifier value = Some o ↔
  value = jsNullable JString o ∧ nullableIdentifier o.
Proof.
  unfold isNullableIdentifier, nullableIdentifier. split.
  - intros [[-> ->]|(s & [-> Hs]%isIdentifier_ok & ->)]%nullable_ok; [done|].
    split; [done|]. by intros [= ->].
  - intros [-> Ho]. destruct o as [s|]; [|done]. simpl.
    assert (isIdentifier (JString s) = Some s) as Hs.
    { apply isIdentifier_ok. split; [done|]. by intros ->. }
    simpl in Hs. by rewrite Hs.
Qed.

Lemma nullableString_ok value o :
  nullable asString value = Some o ↔ value = jsNullable JString o.
Proof.
  split.
  - intros [[-> ->]|(s & Hs & ->)]%nullable_ok; [done|].
    destruct value; simplify_eq/=; done.
  - intros ->. by destruct o.
Qed.

Lemma nullableInteger_ok value o :
  nullable isSafeInteger value = Some o ↔
  value = jsNullable jsInteger o ∧ (∀ z, o = Some z → Z.abs z ≤ MAX_SAFE_INTEGER).
Proof.
  split.
  - intros [[-> ->]|(z & [-> Hz]%isSafeInteger_ok & ->)]%nullable_ok; [done|].
    split; [done|]. by intros ? [= <-].
  - intros [-> Ho]. destruct o as [z|]; [|done]. simpl.
    apply fmap_Some. exists z. split; [|done].
    apply (isSafeInteger_ok (jsInteger z)). auto.
Qed.

Lemma isBoolean_ok value b : isBoolean value = Some b ↔ value = JBoolean b.
Proof. destruct value; simpl; naive_solver. Qed.

Lemma asString_ok value s : asString value = Some s ↔ value = JString s.
Proof. destruct value; simpl; naive_solver. Qed.

Lemma isWaitingReason_ok value r :
  isWaitingReason value = Some r ↔ value = jsName (WaitingReason_name r).
Proof.
  split; [|intros ->; apply isWaitingReason_name].
  intros H. apply find_some in H as [_ H]. by apply isLiteral_ok in H.
Qed.

Lemma isTaskState_ok value s :
  isTaskState value = Some s ↔ value = jsName (TaskState_name s).
Proof.
  split; [|intros ->; apply isTaskState_name].
  intros H. apply find_some in H as [_ H]. by apply isLiteral_ok in H.
Qed.

Lemma isCancellationEvent_ok value e :
  isCancellationEvent value = Some e ↔ value = jsName (CancellationEvent_name e).
Proof.
  split; [|intros ->; apply isCancellationEvent_name].
  intros H. apply find_some in H as [_ H]. by apply isLiteral_ok in H.
Qed.

Lemma bind_some {A B} (o : option A) (k : A → option B) b :
  (o ≫= k) = Some b ↔ ∃ a, o = Some a ∧ k a = Some b.
Proof. destruct o; simpl; naive_solver. Qed.

(** Replaces every guard of a successful read by what it says of the value. *)
Ltac inv_reads :=
  repeat match goal with
  | H : (_ ≫= _) = Some _ |- _ => apply bind_some in H as (? & ? & H)
  | H : Some _ = Some _ |- _ => injection H as H
  | H : isIdentifier _ = Some _ |- _ => apply isIdentifier_ok in H as [? ?]
  | H : isNullableIdentifier _ = Some _ |- _ => apply isNullableIdentifier_ok in H as [? ?]
  | H : isPositiveInteger _ = Some _ |- _ => apply isPositiveInteger_ok in H as [? ?]
  | H : isNonnegativeInteger _ = Some _ |- _ => apply isNonnegativeInteger_ok in H as [? ?]
  | H : isSafeInteger _ = Some _ |- _ => apply isSafeInteger_ok in H as [? ?]
  | H : nullable isSafeInteger _ = Some _ |- _ => apply nullableInteger_ok in H as [? ?]
  end.

(** Replays a chain of guards on values whose guards are known to succeed. *)
Ltac run_reads :=
  repeat first
    [ apply bind_some; eexists; split;
      [ first
        [ apply isIdentifier_ok; split; [reflexivity|eassumption]
        | apply isBoolean_ok; reflexivity
        | apply asString_ok; reflexivity
        | apply isNullableIdentifier_ok; split; [reflexivity|eassumption]
        | apply nullableString_ok; reflexivity
        | apply nullableInteger_ok; split; [reflexivity|eassumption]
        | apply isPositiveInteger_ok; split; [reflexivity|eassumption]
        | apply isNonnegativeInteger_ok; split; [reflexivity|eassumption]
        | apply isSafeInteger_ok; split; [reflexivity|eassumption]
        | apply isWaitingReason_ok; reflexivity
        | apply isTaskState_ok; reflexivity
        | apply isCancellationEvent_ok; reflexivity
        | reflexivity
        | eassumption ]
      | ]
    | reflexivity ].

(** ** Soundness and round trip of the leaf parsers *)

Lemma parseProject_sound value path project :
  parseProject value path = Ok project → identifier (projectId project).
Proof. unfold parseProject. intros H. inv_ok. inv_reads. by subst. Qed.

Lemma parseProject_value project path :
  identifier (projectId project) → parseProject (projectValue project) path = Ok project.
Proof.
  intros Hid. unfold parseProject, projectValue.
  rewrite readExactRecord_object by done. simpl. rewrite !field_record. simpl.
  apply ok_or_ok. destruct project; simpl in *. run_reads.
Qed.

Lemma parseWaitingInput_sound value path w :
  parseWaitingInput value path = Ok w → waitingInput_wf w.
Proof.
  unfold parseWaitingInput. intros H. inv_ok. inv_reads. subst. by constructor.
Qed.

Lemma parseWaitingInput_fields fields w path :
  waitingInput_wf w → fields = waitingFields w →
  parseWaitingInput (jsObject fields) path = Ok w.
Proof.
  intros [] ->. unfold parseWaitingInput, waitingFields.
  rewrite readExactRecord_object by done. simpl. rewrite !field_record. simpl.
  apply ok_or_ok. destruct w; simpl in *. run_reads.
Qed.

Lemma parseWaiting_sound value path w : parseWaiting value path = Ok w → waiting_wf w.
Proof.
  unfold parseWaiting. intros H. inv_ok. subst. inv_reads. constructor; simpl; [|done].
  by eapply parseWaitingInput_sound.
Qed.

Lemma parseWaiting_value w path :
  waiting_wf w → parseWaiting (waitingValue w) path = Ok w.
Proof.
  intros [Hw Hr]. unfold parseWaiting, waitingValue.
  rewrite readExactRecord_object by done. simpl.
  rewrite !field_record. simpl.
  rewrite (parseWaitingInput_fields _ (waitingInput w)) by done. simpl.
  rewrite (proj2 (isPositiveInteger_ok _ _) (conj eq_refl Hr)). by destruct w.
Qed.

Lemma parseCompletion_sound value path fact :
  parseCompletion value path = Ok fact → completion_wf fact.
Proof.
  unfold parseCompletion. intros H. inv_ok. inv_reads. subst. by constructor.
Qed.

Lemma parseCompletion_value fact path :
  completion_wf fact → parseCompletion (completionValue fact) path = Ok fact.
Proof.
  intros []. unfold parseCompletion, completionValue.
  rewrite readExactRecord_object by done. simpl. rewrite !field_record. simpl.
  apply ok_or_ok. destruct fact; simpl in *. run_reads.
Qed.

(** ** Tasks *)

Lemma parseNullable_ok {A} (parse : JsValue → JsString → Parsed A) value path o :
  parseNullable parse value path = Ok o →
  o = None ∨ ∃ a, o = Some a ∧ parse value path = Ok a.
Proof.
  unfold parseNullable. destruct (isNull value); intros H; inv_ok; subst; eauto.
Qed.

Lemma parseNullable_wf {A} (parse : JsValue → JsString → Parsed A) (P : A → Prop) value path a :
  parseNullable parse value path = Ok (Some a) →
  (∀ v p x, parse v p = Ok x → P x) → P a.
Proof. intros [|(b & [= ->] & Hb)]%parseNullable_ok HP; [done|eauto]. Qed.

Lemma parseNullable_value {A} (parse : JsValue → JsString → Parsed A) encode (o : option A) path :
  (∀ a, isNull (encode a) = false) →
  (∀ a, o = Some a → parse (encode a) path = Ok a) →
  parseNullable parse (jsNullable encode o) path = Ok o.
Proof.
  intros Hn Hp. unfold parseNullable. destruct o as [a|]; simpl; [|done].
  by rewrite Hn, (Hp a).
Qed.

Lemma readIdentifiers_ok values ids :
  mapM isIdentifier values = Some ids → Forall identifier ids.
Proof.
  intros H%mapM_Some_1. induction H as [|v i values ids Hv _ IH]; constructor; [|done].
  by apply isIdentifier_ok in Hv as [-> ?].
Qed.

Lemma readIdentifiers_value ids :
  Forall identifier ids → mapM isIdentifier (map JString ids) = Some ids.
Proof.
  intros H. apply mapM_Some_2. induction H as [|i ids Hi _ IH]; simpl; constructor; [|done].
  by apply isIdentifier_ok.
Qed.

Section tasks.
Context `{UnicodeNormalization}.

Record cancellation_wf (fact : CancellationFact) : Prop := {
  wf_cancellationReason : canonicalReasonText (cancellationReason fact) = true;
  wf_verificationId : nullableIdentifier (verificationId fact);
  wf_cancellationTaskRevision : positiveInteger (cancellationTaskRevision fact);
}.

Lemma parseCancellation_sound value path fact :
  parseCancellation value path = Ok fact → cancellation_wf fact.
Proof.
  unfold parseCancellation. intros Hp. inv_ok. inv_reads. subst.
  match goal with
  | Hr : isCanonicalCancellationReason _ = Some _ |- _ =>
      apply isCanonicalCancellationReason_ok in Hr as [_ ?]
  end. by constructor.
Qed.

Lemma parseCancellation_value fact path :
  cancellation_wf fact → parseCancellation (cancellationValue fact) path = Ok fact.
Proof.
  intros []. unfold parseCancellation, cancellationValue.
  rewrite readExactRecord_object by done. simpl. rewrite !field_record. simpl.
  apply ok_or_ok. destruct fact as [e r v n]; simpl in *.
  assert (isCanonicalCancellationReason (JString r) = Some r).
  { by apply isCanonicalCancellationReason_ok. }
  run_reads.
Qed.

(** What [parseTask] promises of a task it returns. *)
Record task_wf (task : Task) : Prop := {
  wf_id : identifier (id task);
  wf_projectId : identifier (taskProjectId task);
  wf_revision : positiveInteger (revision task);
  wf_parentId : nullableIdentifier (parentId task);
  wf_dependencyIds : Forall identifier (dependencyIds task);
  wf_dependencySorted : StronglySorted js_lt (dependencyIds task);
  wf_supersedesTaskId : nullableIdentifier (supersedesTaskId task);
  wf_parentSelf : parentId task ≠ Some (id task);
  wf_dependencySelf : id task ∉ dependencyIds task;
  wf_supersedesSelf : supersedesTaskId task ≠ Some (id task);
  wf_waiting : ∀ w, taskWaiting task = Some w → waiting_wf w;
  wf_completion : ∀ c, completion task = Some c → completion_wf c;
  wf_cancellation : ∀ c, cancellation task = Some c → cancellation_wf c;
  wf_facts : incoherentFacts (state task) (revision task) (taskWaiting task)
               (completion task) (cancellation task) = None;
}.

Lemma parseTask_sound value path task : parseTask value path = Ok task → task_wf task.
Proof.
  unfold parseTask. intros Hp. inv_ok.
  destruct x0 as [[[[[[[id0 pid] st] rev] bd] par] deps] sup].
  inv_ok. case_match; inv_ok. subst. inv_reads. simplify_eq. inv_bool.
  constructor; simpl; try done.
  - match goal with Hm : mapM isIdentifier _ = Some _ |- _ =>
      apply readIdentifiers_ok in Hm as Hids end.
    rewrite Forall_forall in Hids. apply Forall_forall.
    intros i Hi%elem_of_sortBy. auto.
  - match goal with Hs : (setSize _ =? _)%nat = true |- _ =>
      apply Nat.eqb_eq, setSize_NoDup in Hs as Hnd end.
    apply (sortByKey_sorted (λ s, s)). rewrite map_id.
    unfold sortByKey in Hnd. by rewrite sortBy_perm in Hnd.
  - intros w ->. eapply parseNullable_wf; [eassumption|]. apply parseWaiting_sound.
  - intros w ->. eapply parseNullable_wf; [eassumption|]. apply parseCompletion_sound.
  - intros w ->. eapply parseNullable_wf; [eassumption|]. apply parseCancellation_sound.
Qed.

Lemma parseTask_value task path :
  task_wf task → parseTask (taskValue task) path = Ok task.
Proof.
  intros []. unfold parseTask, taskValue.
  rewrite readExactRecord_object by done. simpl. rewrite !field_record. simpl.
  destruct task as [id0 pid st rev bd par deps w c k sup]; simpl in *.
  rewrite readCanonicalArray_array.
  match goal with |- result_bind (ok_or ?o _) _ = _ =>
    assert (o = Some (id0, pid, st, rev, bd, par, map JString deps, sup)) as -> end.
  { run_reads. }
  simpl. rewrite readIdentifiers_value by done. simpl.
  assert (sortByKey (λ s, s) deps = deps) as -> by by apply sortByKey_id.
  rewrite (proj2 (setSize_NoDup deps)) by by apply sorted_NoDup.
  rewrite Nat.eqb_refl, !bool_decide_false by done. simpl.
  rewrite (parseNullable_value parseWaiting waitingValue)
    by (auto using parseWaiting_value). simpl.
  rewrite (parseNullable_value parseCompletion completionValue)
    by (auto using parseCompletion_value). simpl.
  rewrite (parseNullable_value parseCancellation cancellationValue)
    by (auto using parseCancellation_value). simpl.
  by rewrite wf_facts0.
Qed.
End tasks.
