(* ===== verification/DomainGraph.v ===== *)
(** * Graph searches of the domain core

    [parentCycle], [dependencyCycle] and [dependencyReaches]
    (src/src/domain.ts, lines 744-782 and 1304-1316) and the cursor loop of
    [setTaskParentUnchecked] (lines 1262-1272).  The loops and the recursive
    [visit] run on fuel and answer [None] when it runs out; the [*_total]
    lemmas show that the fuel the definitions pass is always enough, and the
    [*_spec] lemmas that the answers are those of the relational
    specification (absence of cycles, reachability). *)

From S2P Require Import Prelude JsValue UnicodeText DomainModel.

(** ** Relations *)

Definition acyclic {A} (R : relation A) : Prop := ∀ x, ¬ tc R x x.

Section acyclic.
Context {A : Type}.
Implicit Types R : relation A.

Lemma Acc_no_cycle R x : Acc (flip R) x → ¬ tc R x x.
Proof.
  induction 1 as [x _ IH]. intros Hx.
  assert (∃ y, R x y ∧ rtc R y x) as (y & Hxy & Hyx).
  { inversion Hx as [?? Hxy|?? ? Hxy Hyx]; subst; eexists; (split; [exact Hxy|]);
      [apply rtc_refl|by apply tc_rtc]. }
  apply (IH y Hxy). eapply tc_rtc_l; [exact Hyx|by apply tc_once].
Qed.

Lemma acyclic_subrelation R R' : (∀ x y, R' x y → R x y) → acyclic R → acyclic R'.
Proof.
  intros Hsub HR x Hx. apply (HR x).
  assert (∀ y z, tc R' y z → tc R y z) as Htc; [|by apply Htc].
  induction 1 as [y z Hyz|y w z Hyw _ IH]; [by apply tc_once, Hsub|].
  eapply tc_l; [by apply Hsub|done].
Qed.

(** Adding one edge [a -> b] creates a cycle only when [b] reaches [a]. *)
Lemma acyclic_add_edge R R' a b :
  acyclic R → ¬ rtc R b a →
  (∀ x y, R' x y → R x y ∨ (x = a ∧ y = b)) → acyclic R'.
Proof.
  intros HR Hba Hsub.
  assert (∀ x y, tc R' x y → tc R x y ∨ (rtc R x a ∧ rtc R b y)) as Hpath.
  { induction 1 as [x y Hxy|x y z Hxy _ IH].
    - destruct (Hsub _ _ Hxy) as [?|[-> ->]]; [left; by apply tc_once|].
      right. split; apply rtc_refl.
    - destruct (Hsub _ _ Hxy) as [Hxy'|[-> ->]].
      + destruct IH as [?|[??]]; [left; by eapply tc_l|right].
        split; [by eapply rtc_l|done].
      + right. split; [apply rtc_refl|]. destruct IH as [?|[??]]; [by apply tc_rtc|done]. }
  intros x Hx. destruct (Hpath _ _ Hx) as [?|[Hxa Hbx]]; [by apply (HR x)|].
  apply Hba. by etrans.
Qed.
End acyclic.

(** ** Indices *)

(** [new Map(tasks.map((task) => [task.id, task]))] *)
Definition taskIndex (tasks : list Task) : gmap JsString Task :=
  foldl (λ m task, <[id task := task]> m) ∅ tasks.

(** [snapshot.tasks.find((task) => task.id === taskId)] *)
Definition findTask (tasks : list Task) (taskId : JsString) : option Task :=
  List.find (λ task, bool_decide (id task = taskId)) tasks.

Definition taskById (snapshot : DomainSnapshot) (taskId : JsString) : option Task :=
  findTask (tasks snapshot) taskId.

Definition projectById (snapshot : DomainSnapshot) (pid : JsString) : option Project :=
  List.find (λ project, bool_decide (projectId project = pid)) (projects snapshot).

Section index.
Implicit Types (tasks : list Task).

Lemma findTask_Some tasks k t : findTask tasks k = Some t → t ∈ tasks ∧ id t = k.
Proof.
  intros [Hin Hk]%find_Some_iff. split; [done|]. by apply bool_decide_eq_true in Hk.
Qed.

Lemma findTask_None tasks k : findTask tasks k = None ↔ k ∉ map id tasks.
Proof.
  unfold findTask. rewrite find_None_iff. split.
  - intros H (t & -> & Ht)%list_elem_of_fmap. specialize (H t Ht).
    by apply bool_decide_eq_false in H.
  - intros H t Ht. apply bool_decide_eq_false. intros <-.
    apply H. by apply list_elem_of_fmap_2.
Qed.

Lemma findTask_lookup tasks k t :
  NoDup (map id tasks) → findTask tasks k = Some t ↔ t ∈ tasks ∧ id t = k.
Proof.
  intros Hnd. split; [apply findTask_Some|].
  intros [Hin <-]. by apply (find_key_unique id).
Qed.

Lemma taskIndex_aux (m : gmap JsString Task) tasks k :
  NoDup (map id tasks) →
  foldl (λ m task, <[id task := task]> m) m tasks !! k =
  match findTask tasks k with Some t => Some t | None => m !! k end.
Proof.
  revert m. induction tasks as [|t tasks IH]; intros m; simpl; [done|].
  intros [Ht Hnd]%NoDup_cons. rewrite IH by done. unfold findTask at 2; simpl.
  fold (findTask tasks k). case_bool_decide as Hk.
  - subst. rewrite (proj2 (findTask_None tasks (id t))) by done. apply lookup_insert_eq.
  - destruct (findTask tasks k); [done|]. by apply lookup_insert_ne.
Qed.

Lemma taskIndex_lookup tasks k :
  NoDup (map id tasks) → taskIndex tasks !! k = findTask tasks k.
Proof.
  intros Hnd. unfold taskIndex. rewrite taskIndex_aux by done.
  by destruct (findTask tasks k).
Qed.

Lemma taskIndex_dom tasks : 
  NoDup (map id tasks) → (size (dom (taskIndex tasks)) ≤ length tasks)%nat.
Proof.
  intros Hnd. assert (dom (taskIndex tasks) ⊆ list_to_set (map id tasks)) as Hsub.
  { intros k Hk. apply elem_of_dom in Hk as [t Ht].
    rewrite taskIndex_lookup in Ht by done. apply findTask_Some in Ht as [Ht <-].
    apply elem_of_list_to_set. by apply list_elem_of_fmap_2. }
  apply subseteq_size in Hsub. etrans; [exact Hsub|].
  rewrite size_list_to_set by done. by rewrite length_map.
Qed.
End index.

(** ** Edges *)

Definition parentEdge (tasks : list Task) (child parent : JsString) : Prop :=
  ∃ t, t ∈ tasks ∧ id t = child ∧ parentId t = Some parent.

Definition dependencyEdge (tasks : list Task) (dependent prerequisite : JsString) : Prop :=
  ∃ t, t ∈ tasks ∧ id t = dependent ∧ prerequisite ∈ dependencyIds t.

(** ** [parentCycle] *)

(** The [while (parentId !== null)] loop: [Some true] when a seen identifier
    comes back. *)
Fixpoint parentWalk (fuel : nat) (byId : gmap JsString Task) (seen : gset JsString)
    (cursor : option JsString) : option bool :=
  match fuel with
  | O => None
  | S fuel =>
      match cursor with
      | None => Some false
      | Some p =>
          if bool_decide (p ∈ seen) then Some true
          else parentWalk fuel byId ({[p]} ∪ seen) (byId !! p ≫= parentId)
      end
  end.

Definition parentCycle (tasks : list Task) : option JsString :=
  let byId := taskIndex tasks in
  id <$> List.find
    (λ task, match parentWalk (length tasks + 2)%nat byId {[id task]} (parentId task) with
             | Some true => true
             | _ => false
             end) tasks.

(** ** [dependencyCycle] *)

(** The sets [visiting] and [visited]. *)
Abbreviation DfsState := (gset JsString * gset JsString)%type (only parsing).

(** A loop of visits that stops at the first reported cycle. *)
Fixpoint visitAll (visit : DfsState → JsString → option (option JsString * DfsState))
    (ids : list JsString) (st : DfsState) : option (option JsString * DfsState) :=
  match ids with
  | [] => Some (None, st)
  | i :: ids' =>
      match visit st i with
      | None => None
      | Some (Some cycle, st') => Some (Some cycle, st')
      | Some (None, st') => visitAll visit ids' st'
      end
  end.

Definition dependenciesOf (byId : gmap JsString Task) (taskId : JsString) : list JsString :=
  match byId !! taskId with Some t => dependencyIds t | None => [] end.

Fixpoint visit (fuel : nat) (byId : gmap JsString Task) (st : DfsState) (taskId : JsString)
    : option (option JsString * DfsState) :=
  match fuel with
  | O => None
  | S fuel =>
      let (visiting, visited) := st in
      if bool_decide (taskId ∈ visiting) then Some (Some taskId, st)
      else if bool_decide (taskId ∈ visited) then Some (None, st)
      else
        match visitAll (visit fuel byId) (dependenciesOf byId taskId)
                ({[taskId]} ∪ visiting, visited) with
        | None => None
        | Some (Some cycle, st') => Some (Some cycle, st')
        | Some (None, (visiting', visited')) =>
            Some (None, (visiting' ∖ {[taskId]}, {[taskId]} ∪ visited'))
        end
  end.

Definition dependencyCycleRun (tasks : list Task) : option (option JsString * DfsState) :=
  visitAll (visit (length tasks + 2)%nat (taskIndex tasks)) (map id tasks) (∅, ∅).

Definition dependencyCycle (tasks : list Task) : option JsString :=
  match dependencyCycleRun tasks with Some (cycle, _) => cycle | None => None end.

(** ** [dependencyReaches] *)

(** [pending] is a stack: [push(...ids)] then [pop()] takes the last one. *)
Fixpoint reachesLoop (fuel : nat) (snapshot : DomainSnapshot) (target : JsString)
    (pending : list JsString) (seen : gset JsString) : option bool :=
  match fuel with
  | O => None
  | S fuel =>
      match pending with
      | [] => Some false
      | current :: rest =>
          if bool_decide (current = target) then Some true
          else if bool_decide (current ∈ seen) then reachesLoop fuel snapshot target rest seen
          else
            let pushed := match taskById snapshot current with
                          | Some t => dependencyIds t | None => [] end in
            reachesLoop fuel snapshot target (rev pushed ++ rest) ({[current]} ∪ seen)
      end
  end.

Definition dependencyCount (tasks : list Task) : nat :=
  foldr (λ t n, length (dependencyIds t) + n)%nat 0%nat tasks.

Definition dependencyReaches (snapshot : DomainSnapshot) (fromTaskId targetTaskId : JsString) : bool :=
  match reachesLoop (dependencyCount (tasks snapshot) + 2)%nat snapshot targetTaskId [fromTaskId] ∅ with
  | Some answer => answer
  | None => false
  end.

(** ** The ancestor loop of [setTaskParentUnchecked] *)

Fixpoint ancestorLoop (fuel : nat) (snapshot : DomainSnapshot) (taskId : JsString)
    (cursor : option Task) (seen : gset JsString) : option bool :=
  match fuel with
  | O => None
  | S fuel =>
      match cursor with
      | None => Some false
      | Some t =>
          if bool_decide (id t = taskId) then Some true
          else
            match parentId t with
            | None => Some false
            | Some p =>
                if bool_decide (id t ∈ seen) then Some false
                else ancestorLoop fuel snapshot taskId (taskById snapshot p) ({[id t]} ∪ seen)
            end
      end
  end.

Definition proposedParentCycles (snapshot : DomainSnapshot) (taskId : JsString) (parent : Task) : bool :=
  match ancestorLoop (length (tasks snapshot) + 2)%nat snapshot taskId (Some parent) ∅ with
  | Some answer => answer
  | None => false
  end.

(** ** [parentCycle] decides acyclicity of the parent links *)

Section parent.
Context (byId : gmap JsString Task).

Definition parentStep (x y : JsString) : Prop := byId !! x ≫= parentId = Some y.

Lemma parentWalk_total fuel seen cursor :
  (size (dom byId ∖ seen) + 2 ≤ fuel)%nat → is_Some (parentWalk fuel byId seen cursor).
Proof.
  revert seen cursor. induction fuel as [|fuel IH]; intros seen cursor Hf; [lia|].
  simpl. destruct cursor as [p|]; [|eauto]. case_bool_decide as Hp; [eauto|].
  destruct (byId !! p) as [t|] eqn:Hbp; simpl.
  - apply IH. assert (size (dom byId ∖ ({[p]} ∪ seen)) < size (dom byId ∖ seen))%nat; [|lia].
    apply subset_size. assert (p ∈ dom byId) by by eapply elem_of_dom_2. set_solver.
  - destruct fuel; [lia|]. simpl. eauto.
Qed.

Lemma parentWalk_false fuel seen p :
  parentWalk fuel byId seen (Some p) = Some false → Acc (flip parentStep) p.
Proof.
  revert seen p. induction fuel as [|fuel IH]; intros seen p; simpl; [done|].
  case_bool_decide; [done|]. intros Hw. constructor. intros q Hq. red in Hq.
  unfold parentStep in Hq. rewrite Hq in Hw. by eapply IH.
Qed.

Lemma parentWalk_true fuel seen cursor :
  parentWalk fuel byId seen cursor = Some true →
  (∀ p x, cursor = Some p → x ∈ seen → tc parentStep x p) →
  ∃ x, tc parentStep x x.
Proof.
  revert seen cursor. induction fuel as [|fuel IH]; intros seen cursor; simpl; [done|].
  destruct cursor as [p|]; [|done]. case_bool_decide as Hp; [by eauto|].
  intros Hw Hseen. eapply (IH _ _ Hw). intros q x Hq Hx.
  assert (parentStep p q) as Hpq by done.
  apply elem_of_union in Hx as [->%elem_of_singleton|Hx]; [by apply tc_once|].
  eapply tc_r; [by apply Hseen|done].
Qed.
End parent.

Lemma parentStep_edge tasks x y :
  NoDup (map id tasks) → parentStep (taskIndex tasks) x y ↔ parentEdge tasks x y.
Proof.
  intros Hnd. unfold parentStep, parentEdge. rewrite taskIndex_lookup by done.
  rewrite bind_Some. split.
  - intros (t & Ht & Hp). apply findTask_Some in Ht as [? <-]. eauto.
  - intros (t & Hin & <- & Hp). exists t. split; [|done]. by apply findTask_lookup.
Qed.

Lemma parentCycle_fuel tasks t :
  NoDup (map id tasks) →
  is_Some (parentWalk (length tasks + 2)%nat (taskIndex tasks) {[id t]} (parentId t)).
Proof.
  intros Hnd. apply parentWalk_total. pose proof (taskIndex_dom tasks Hnd).
  assert (size (dom (taskIndex tasks) ∖ {[id t]}) ≤ size (dom (taskIndex tasks)))%nat; [|lia].
  apply subseteq_size. set_solver.
Qed.

Lemma parentCycle_spec tasks :
  NoDup (map id tasks) → parentCycle tasks = None ↔ acyclic (parentEdge tasks).
Proof.
  intros Hnd. unfold parentCycle. rewrite fmap_None, find_None_iff. split.
  - intros Hw. apply (acyclic_subrelation (parentStep (taskIndex tasks))).
    { intros x y. by apply parentStep_edge. }
    intros x Hx.
    assert (∃ y, parentStep (taskIndex tasks) x y ∧ rtc (parentStep (taskIndex tasks)) y x)
      as (y & Hxy & Hyx).
    { inversion Hx as [?? Hxy|?? ? Hxy Hyx]; subst; eexists; (split; [exact Hxy|]);
        [apply rtc_refl|by apply tc_rtc]. }
    apply parentStep_edge in Hxy as (t & Hin & <- & Hp); [|done].
    specialize (Hw t Hin). destruct (parentCycle_fuel tasks t Hnd) as [[] Hb];
      rewrite Hb in Hw; [done|]. rewrite Hp in Hb. apply parentWalk_false in Hb.
    apply (Acc_no_cycle _ _ Hb). eapply tc_rtc_l; [exact Hyx|].
    apply tc_once, parentStep_edge; [done|]. exists t. eauto.
  - intros Hac t Hin.
    destruct (parentWalk _ _ _ _) as [[]|] eqn:Hw; [|done..]. exfalso.
    apply parentWalk_true in Hw as [x Hx].
    + apply (acyclic_subrelation _ (parentStep (taskIndex tasks))) in Hac; [by eapply Hac|].
      intros a b. by apply parentStep_edge.
    + intros p x Hp ->%elem_of_singleton. apply tc_once, parentStep_edge; [done|].
      exists t. eauto.
Qed.

(** ** [dependencyCycle] decides acyclicity of the dependency graph *)

Section visits.
Context (byId : gmap JsString Task).

Definition dependencyStep (x y : JsString) : Prop := y ∈ dependenciesOf byId x.

(** A visit that reports no cycle gives [visiting] back as it was, and every
    identifier it has marked visited is accessible (no infinite chain of
    dependencies starts there). *)
Definition visitSound (f : DfsState → JsString → option (option JsString * DfsState)) : Prop :=
  ∀ visiting visited x visiting' visited',
    f (visiting, visited) x = Some (None, (visiting', visited')) →
    visiting' = visiting ∧
    ((∀ v, v ∈ visited → Acc (flip dependencyStep) v) →
     visited ⊆ visited' ∧ (∀ v, v ∈ visited' → Acc (flip dependencyStep) v) ∧
     Acc (flip dependencyStep) x).

Lemma visitAll_sound f ids visiting visited visiting' visited' :
  visitSound f →
  visitAll f ids (visiting, visited) = Some (None, (visiting', visited')) →
  visiting' = visiting ∧
  ((∀ v, v ∈ visited → Acc (flip dependencyStep) v) →
   visited ⊆ visited' ∧ (∀ v, v ∈ visited' → Acc (flip dependencyStep) v) ∧
   Forall (Acc (flip dependencyStep)) ids).
Proof.
  intros Hf. revert visiting visited.
  induction ids as [|i ids IH]; intros visiting visited; simpl.
  { intros [= <- <-]. eauto. }
  destruct (f _ i) as [[[c|] [vg vd]]|] eqn:Hfi; [done| |done].
  apply Hf in Hfi as [-> Hfi]. intros [-> Hrest]%IH. split; [done|].
  intros Hvd. destruct (Hfi Hvd) as (? & Hvd' & Hi).
  destruct (Hrest Hvd') as (? & ? & ?). split; [by etrans|]. auto.
Qed.

Lemma visit_sound fuel : visitSound (visit fuel byId).
Proof.
  induction fuel as [|fuel IH]; intros visiting visited x visiting' visited'; simpl; [done|].
  case_bool_decide as Hg; [done|]. case_bool_decide as Hd.
  { intros [= <- <-]. split; [done|]. auto. }
  destruct (visitAll _ _ _) as [[[c|] [vg vd]]|] eqn:Hall; [done| |done].
  intros [= <- <-]. apply (visitAll_sound _ _ _ _ _ _ IH) in Hall as [-> Hall].
  split; [set_solver|]. intros Hvd. destruct (Hall Hvd) as (Hsub & Hvd' & Hdeps).
  assert (Acc (flip dependencyStep) x) as Hx.
  { constructor. intros y Hy. rewrite Forall_forall in Hdeps. by apply Hdeps. }
  split; [set_solver|]. split; [|done].
  intros v [->%elem_of_singleton|Hv]%elem_of_union; auto.
Qed.

(** A reported cycle is one. *)
Definition visitCycle (f : DfsState → JsString → option (option JsString * DfsState)) : Prop :=
  ∀ visiting visited x c st',
    f (visiting, visited) x = Some (Some c, st') →
    (∀ v, v ∈ visiting → tc dependencyStep v x) → ∃ y, tc dependencyStep y y.

Lemma visitAll_cycle f ids visiting visited c st' :
  visitSound f → visitCycle f →
  visitAll f ids (visiting, visited) = Some (Some c, st') →
  (∀ v x, v ∈ visiting → x ∈ ids → tc dependencyStep v x) →
  ∃ y, tc dependencyStep y y.
Proof.
  intros Hs Hf. revert visited. induction ids as [|i ids IH]; intros visited; simpl; [done|].
  destruct (f _ i) as [[[d|] [vg vd]]|] eqn:Hfi; [| |done].
  - intros _ Hpath. eapply Hf; [exact Hfi|]. set_solver.
  - apply Hs in Hfi as [-> _]. intros Hrest Hpath. eapply IH; [exact Hrest|]. set_solver.
Qed.

Lemma visit_cycle fuel : visitCycle (visit fuel byId).
Proof.
  induction fuel as [|fuel IH]; intros visiting visited x c st'; simpl; [done|].
  case_bool_decide as Hg; [eauto|]. case_bool_decide as Hd; [done|].
  destruct (visitAll _ _ _) as [[[d|] [vg vd]]|] eqn:Hall; [|done..].
  intros _ Hpath. eapply (visitAll_cycle _ _ _ _ _ _ (visit_sound fuel) IH Hall).
  intros v y [->%elem_of_singleton|Hv]%elem_of_union Hy; [by apply tc_once|].
  eapply tc_r; [by apply Hpath|done].
Qed.

(** Fuel: each level of the recursion puts one more registered identifier
    into [visiting]. *)
Lemma visitAll_total f ids visiting visited :
  visitSound f → (∀ vd x, is_Some (f (visiting, vd) x)) →
  is_Some (visitAll f ids (visiting, visited)).
Proof.
  intros Hs Hf. revert visited. induction ids as [|i ids IH]; intros visited; simpl; [eauto|].
  destruct (Hf visited i) as [[[c|] [vg vd]] Hi]; rewrite Hi; [eauto|].
  apply Hs in Hi as [-> _]. apply IH.
Qed.

Lemma visit_total fuel visiting visited x :
  (size (dom byId ∖ visiting) + 2 ≤ fuel)%nat →
  is_Some (visit fuel byId (visiting, visited) x).
Proof.
  revert visiting visited x. induction fuel as [|fuel IH]; intros visiting visited x Hf; [lia|].
  simpl. case_bool_decide as Hg; [eauto|]. case_bool_decide as Hd; [eauto|].
  assert (is_Some (visitAll (visit fuel byId) (dependenciesOf byId x)
                     ({[x]} ∪ visiting, visited))) as [[[c|] [vg vd]] ->]; [|eauto..].
  unfold dependenciesOf. destruct (byId !! x) as [t|] eqn:Hx; [|simpl; eauto].
  apply visitAll_total; [apply visit_sound|]. intros vd y. apply IH.
  assert (size (dom byId ∖ ({[x]} ∪ visiting)) < size (dom byId ∖ visiting))%nat; [|lia].
  apply subset_size. assert (x ∈ dom byId) by by eapply elem_of_dom_2. set_solver.
Qed.
End visits.

Lemma dependencyStep_edge tasks x y :
  NoDup (map id tasks) → dependencyStep (taskIndex tasks) x y ↔ dependencyEdge tasks x y.
Proof.
  intros Hnd. unfold dependencyStep, dependenciesOf, dependencyEdge.
  rewrite taskIndex_lookup by done. split.
  - destruct (findTask tasks x) as [t|] eqn:Ht; [|set_solver].
    apply findTask_Some in Ht as [? <-]. eauto.
  - intros (t & Hin & <- & Hy). by rewrite (proj2 (findTask_lookup tasks (id t) t Hnd)).
Qed.

Lemma dependencyCycle_total tasks :
  NoDup (map id tasks) → is_Some (dependencyCycleRun tasks).
Proof.
  intros Hnd. apply (visitAll_total (taskIndex tasks)); [apply visit_sound|].
  intros vd x. apply visit_total. pose proof (taskIndex_dom tasks Hnd).
  assert (size (dom (taskIndex tasks) ∖ ∅) ≤ size (dom (taskIndex tasks)))%nat; [|lia].
  apply subseteq_size. set_solver.
Qed.

Lemma dependencyCycle_spec tasks :
  NoDup (map id tasks) → dependencyCycle tasks = None ↔ acyclic (dependencyEdge tasks).
Proof.
  intros Hnd. unfold dependencyCycle.
  destruct (dependencyCycle_total tasks Hnd) as [[c [vg vd]] Hrun]. rewrite Hrun.
  unfold dependencyCycleRun in Hrun. split.
  - intros ->. apply (visitAll_sound (taskIndex tasks)) in Hrun as [_ Hrun]; [|apply visit_sound].
    destruct Hrun as (_ & _ & Hall); [set_solver|]. rewrite Forall_forall in Hall.
    apply (acyclic_subrelation (dependencyStep (taskIndex tasks))).
    { intros x y. by apply dependencyStep_edge. }
    intros x Hx. refine (Acc_no_cycle _ _ (Hall x _) Hx).
    assert (∃ y, dependencyStep (taskIndex tasks) x y) as (y & Hxy)
      by (inversion Hx; subst; eauto).
    apply dependencyStep_edge in Hxy as (t & Hin & <- & _); [|done].
    by apply list_elem_of_fmap_2.
  - intros Hac. destruct c as [c|]; [|done]. exfalso.
    apply (visitAll_cycle (taskIndex tasks)) in Hrun as [y Hy];
      [|apply visit_sound|apply visit_cycle|set_solver].
    revert y Hy. change (acyclic (dependencyStep (taskIndex tasks))).
    apply (acyclic_subrelation _ _ (λ a b, proj1 (dependencyStep_edge tasks a b Hnd)) Hac).
Qed.

(** ** [dependencyReaches] decides reachability *)

Section reaches.
Context (snapshot : DomainSnapshot) (target : JsString).

Definition dependenciesAt (x : JsString) : list JsString :=
  match taskById snapshot x with Some t => dependencyIds t | None => [] end.

Definition snapshotStep (x y : JsString) : Prop := y ∈ dependenciesAt x.

(** Dependencies still to be pushed: those of tasks not seen yet. *)
Definition unseenCount (ts : list Task) (seen : gset JsString) : nat :=
  foldr (λ t n, (if bool_decide (id t ∈ seen) then 0 else length (dependencyIds t)) + n)%nat
    0%nat ts.

Lemma unseenCount_mono ts seen x :
  (unseenCount ts ({[x]} ∪ seen) ≤ unseenCount ts seen)%nat.
Proof.
  induction ts as [|t ts IH]; simpl; [lia|].
  repeat case_bool_decide; try lia. exfalso. set_solver.
Qed.

Lemma unseenCount_step ts seen x t :
  findTask ts x = Some t → x ∉ seen →
  (unseenCount ts ({[x]} ∪ seen) + length (dependencyIds t) ≤ unseenCount ts seen)%nat.
Proof.
  induction ts as [|u ts IH]; [done|]. unfold findTask; simpl. fold (findTask ts x).
  intros Hf Hx. case_bool_decide as Hu.
  - simplify_eq. rewrite bool_decide_true by set_solver. rewrite bool_decide_false by done.
    pose proof (unseenCount_mono ts seen (id t)). lia.
  - specialize (IH Hf Hx). repeat case_bool_decide; try lia. exfalso. set_solver.
Qed.

Lemma unseenCount_empty ts : unseenCount ts ∅ = dependencyCount ts.
Proof.
  induction ts as [|t ts IH]; simpl; [done|]. rewrite bool_decide_false by set_solver.
  unfold dependencyCount in *; simpl. lia.
Qed.

Lemma reachesLoop_total fuel pending seen :
  (length pending + unseenCount (tasks snapshot) seen + 1 ≤ fuel)%nat →
  is_Some (reachesLoop fuel snapshot target pending seen).
Proof.
  revert pending seen. induction fuel as [|fuel IH]; intros pending seen Hf; [lia|].
  simpl. destruct pending as [|x rest]; simpl in *; [eauto|].
  case_bool_decide; [eauto|]. case_bool_decide as Hx; [apply IH; lia|].
  apply IH. rewrite length_app, length_rev. unfold taskById.
  destruct (findTask _ x) as [t|] eqn:Ht.
  - pose proof (unseenCount_step _ seen _ _ Ht Hx). lia.
  - pose proof (unseenCount_mono (tasks snapshot) seen x). simpl. lia.
Qed.

Lemma reachesLoop_true fuel from pending seen :
  reachesLoop fuel snapshot target pending seen = Some true →
  (∀ x, x ∈ pending → rtc snapshotStep from x) → rtc snapshotStep from target.
Proof.
  revert pending seen. induction fuel as [|fuel IH]; intros pending seen; simpl; [done|].
  destruct pending as [|x rest]; [done|]. case_bool_decide; [set_solver|].
  case_bool_decide as Hx; intros Hr Hpath; (eapply IH; [exact Hr|]); [set_solver|].
  intros y [Hy|Hy]%elem_of_app; [|set_solver]. apply list_elem_of_In, in_rev, list_elem_of_In in Hy.
  apply (rtc_r _ x); [apply Hpath; set_solver|exact Hy].
Qed.

(** Seen identifiers are not the target and their successors are seen or
    pending; so when nothing is pending the target is out of reach. *)
Lemma reachesLoop_false fuel pending seen :
  reachesLoop fuel snapshot target pending seen = Some false →
  (∀ x, x ∈ seen → x ≠ target ∧ ∀ y, snapshotStep x y → y ∈ seen ∨ y ∈ pending) →
  ∀ x, x ∈ pending ∨ x ∈ seen → ¬ rtc snapshotStep x target.
Proof.
  revert pending seen. induction fuel as [|fuel IH]; intros pending seen; simpl; [done|].
  destruct pending as [|c rest].
  { intros _ Hseen x [Hx|Hx]; [set_solver|]. intros Hr. revert Hx.
    induction Hr as [x|x y z Hxy _ IHr]; intros Hx; [by destruct (Hseen x Hx)|].
    destruct (Hseen x Hx) as [_ Hs]. destruct (Hs y Hxy) as [?|?]; [auto|set_solver]. }
  case_bool_decide as Hc; [done|]. case_bool_decide as Hs; intros Hr Hseen.
  - intros x Hx. apply (IH _ _ Hr); [|set_solver].
    intros y Hy. destruct (Hseen y Hy) as [? Hn]. split; [done|]. set_solver.
  - intros x Hx. apply (IH _ _ Hr).
    + intros y [->%elem_of_singleton|Hy]%elem_of_union.
      * split; [done|]. intros z Hz. right. apply elem_of_app. left.
        by apply list_elem_of_In, in_rev; rewrite rev_involutive; apply list_elem_of_In.
      * destruct (Hseen y Hy) as [? Hn]. split; [done|]. set_solver.
    + set_solver.
Qed.
End reaches.

Lemma snapshotStep_edge s x y :
  NoDup (map id (tasks s)) → snapshotStep s x y ↔ dependencyEdge (tasks s) x y.
Proof.
  intros Hnd. rewrite <-dependencyStep_edge by done.
  unfold snapshotStep, dependenciesAt, dependencyStep, dependenciesOf, taskById.
  by rewrite taskIndex_lookup.
Qed.

Lemma dependencyReaches_total s target from :
  is_Some (reachesLoop (dependencyCount (tasks s) + 2)%nat s target [from] ∅).
Proof. apply reachesLoop_total. rewrite unseenCount_empty. simpl. lia. Qed.

Lemma dependencyReaches_step s from target :
  dependencyReaches s from target = true ↔ rtc (snapshotStep s) from target.
Proof.
  unfold dependencyReaches.
  destruct (dependencyReaches_total s target from) as [[] Hr]; rewrite Hr.
  - split; [intros _|done]. eapply reachesLoop_true; [exact Hr|].
    intros x ->%list_elem_of_singleton. apply rtc_refl.
  - split; [done|]. intros Hp. exfalso. revert Hp.
    eapply reachesLoop_false; [exact Hr|set_solver|]. left. set_solver.
Qed.

Lemma dependencyReaches_spec s from target :
  NoDup (map id (tasks s)) →
  dependencyReaches s from target = true ↔ rtc (dependencyEdge (tasks s)) from target.
Proof.
  intros Hnd. rewrite dependencyReaches_step. split; apply rtc_subrel;
    intros x y; by apply snapshotStep_edge.
Qed.

(** ** The ancestor loop decides whether the child is an ancestor *)

Section ancestors.
Context (snapshot : DomainSnapshot) (taskId : JsString).
Hypothesis Hnd : NoDup (map id (tasks snapshot)).

Lemma parentEdge_fun x y z :
  parentEdge (tasks snapshot) x y → parentEdge (tasks snapshot) x z → y = z.
Proof.
  intros (t & Ht & <- & Hp) (u & Hu & Hid & Hq).
  assert (findTask (tasks snapshot) (id t) = Some t) by (by apply findTask_lookup).
  assert (findTask (tasks snapshot) (id t) = Some u) by (by apply findTask_lookup).
  congruence.
Qed.

Lemma ancestorLoop_total fuel cursor seen :
  (∀ t, cursor = Some t → t ∈ tasks snapshot) →
  (size (dom (taskIndex (tasks snapshot)) ∖ seen) + 1 ≤ fuel)%nat →
  is_Some (ancestorLoop fuel snapshot taskId cursor seen).
Proof.
  revert cursor seen. induction fuel as [|fuel IH]; intros cursor seen Hc Hf; [lia|].
  simpl. destruct cursor as [t|]; [|eauto]. specialize (Hc t eq_refl).
  case_bool_decide; [eauto|]. destruct (parentId t) as [p|]; [|eauto].
  case_bool_decide as Hs; [eauto|]. apply IH.
  { intros u Hu. by apply findTask_Some in Hu as [? _]. }
  assert (id t ∈ dom (taskIndex (tasks snapshot))).
  { apply elem_of_dom. exists t. rewrite taskIndex_lookup by done. by apply findTask_lookup. }
  assert (size (dom (taskIndex (tasks snapshot)) ∖ ({[id t]} ∪ seen))
          < size (dom (taskIndex (tasks snapshot)) ∖ seen))%nat; [|lia].
  apply subset_size. set_solver.
Qed.

Lemma ancestorLoop_true fuel t seen :
  t ∈ tasks snapshot →
  ancestorLoop fuel snapshot taskId (Some t) seen = Some true →
  rtc (parentEdge (tasks snapshot)) (id t) taskId.
Proof.
  revert t seen. induction fuel as [|fuel IH]; intros t seen Ht; simpl; [done|].
  case_bool_decide as Hid; [intros _; rewrite Hid; apply rtc_refl|].
  destruct (parentId t) as [p|] eqn:Hp; [|done]. case_bool_decide; [done|].
  unfold taskById. destruct (findTask _ p) as [u|] eqn:Hu.
  - apply findTask_Some in Hu as [Hu Hup]. intros Hl. eapply rtc_l; [|by eapply IH].
    exists t. by rewrite Hup.
  - intros Hl. by destruct fuel.
Qed.

(** Seen identifiers are not the child and step to a seen identifier or to
    the cursor; once nothing is left to follow they are closed under parents. *)
Lemma seen_closed (closed : gset JsString) :
  (∀ x, x ∈ closed → x ≠ taskId ∧ ∀ y, parentEdge (tasks snapshot) x y → y ∈ closed) →
  ∀ x, x ∈ closed → ¬ rtc (parentEdge (tasks snapshot)) x taskId.
Proof.
  intros Hc x Hx Hr. revert Hx.
  induction Hr as [x|x y z Hxy _ IHr]; intros Hx; [by destruct (Hc x Hx)|].
  destruct (Hc x Hx) as [_ Hs]. auto.
Qed.

Hypothesis Hreg : ∀ t p, t ∈ tasks snapshot → parentId t = Some p → p ∈ map id (tasks snapshot).

Lemma ancestorLoop_false fuel t seen :
  ancestorLoop fuel snapshot taskId (Some t) seen = Some false →
  t ∈ tasks snapshot →
  (∀ x, x ∈ seen → x ≠ taskId ∧
     ∀ y, parentEdge (tasks snapshot) x y → y ∈ ({[id t]} ∪ seen : gset JsString)) →
  ¬ rtc (parentEdge (tasks snapshot)) (id t) taskId.
Proof.
  revert t seen. induction fuel as [|fuel IH]; intros t seen; simpl; [done|].
  case_bool_decide as Hid; [done|]. destruct (parentId t) as [p|] eqn:Hp.
  - case_bool_decide as Hs; intros Hl Ht Hseen.
    { apply (seen_closed seen); [|done]. intros x Hx. destruct (Hseen x Hx). set_solver. }
    unfold taskById in Hl. destruct (findTask _ p) as [u|] eqn:Hu.
    2: { apply findTask_None in Hu. by destruct (Hu (Hreg t p Ht Hp)). }
    apply findTask_Some in Hu as [Hu <-]. intros Hr.
    assert (rtc (parentEdge (tasks snapshot)) (id u) taskId) as Hru.
    { inversion Hr as [|? y ? Hty Hyr]; subst; [done|].
      assert (parentEdge (tasks snapshot) (id t) (id u)) as Htu by (exists t; eauto).
      by rewrite (parentEdge_fun _ _ _ Htu Hty). }
    revert Hru. apply (IH _ _ Hl Hu). intros x [->%elem_of_singleton|Hx]%elem_of_union.
    + split; [done|]. intros y Hy.
      assert (parentEdge (tasks snapshot) (id t) (id u)) as Htu by (exists t; eauto).
      rewrite (parentEdge_fun _ _ _ Hy Htu). set_solver.
    + destruct (Hseen x Hx) as [? Hn]. split; [done|]. intros y Hy. specialize (Hn y Hy). set_solver.
  - intros _ Ht Hseen. apply (seen_closed ({[id t]} ∪ seen)); [|set_solver].
    intros x [->%elem_of_singleton|Hx]%elem_of_union; [|by apply Hseen].
    split; [done|]. intros y Hy. destruct Hy as (u & Hu & Hid' & Hq).
    assert (findTask (tasks snapshot) (id t) = Some t) by (by apply findTask_lookup).
    assert (findTask (tasks snapshot) (id t) = Some u) by (by apply findTask_lookup).
    congruence.
Qed.

Lemma proposedParentCycles_spec parent :
  parent ∈ tasks snapshot →
  proposedParentCycles snapshot taskId parent = true ↔
  rtc (parentEdge (tasks snapshot)) (id parent) taskId.
Proof.
  intros Hin. unfold proposedParentCycles.
  destruct (ancestorLoop_total (length (tasks snapshot) + 2)%nat (Some parent) ∅) as [b Hb].
  { by intros ? [= <-]. }
  { pose proof (taskIndex_dom _ Hnd).
    assert (size (dom (taskIndex (tasks snapshot)) ∖ ∅)
            ≤ size (dom (taskIndex (tasks snapshot))))%nat; [|lia].
    apply subseteq_size. set_solver. }
  rewrite Hb. destruct b; split; try done.
  - intros _. by eapply ancestorLoop_true.
  - intros Hr. exfalso. revert Hr. eapply ancestorLoop_false; [exact Hb|done|set_solver].
Qed.
End ancestors.
