(* ===== verification/DomainSnapshot.v ===== *)
(** * Snapshots of the domain (src/src/domain.ts, lines 784-982)

    [parseSnapshot] reads a whole snapshot and validates identifiers,
    references and the two graphs; [replaceTasks] and [nextTask] build the next
    snapshot and pass it through the same validation.  [snapshot_wf] is the
    invariant: [parseSnapshot_sound] and [parseSnapshot_value] show that
    complete-mode parsing accepts exactly the objects of well-formed snapshots. *)

From S2P Require Import Prelude JsValue UnicodeText DomainModel DomainParse DomainGraph.

Import ErrorCode.

(** [mode] together with [decisionTaskId]. *)
Inductive SnapshotValidationMode : Type :=
  | mode_complete
  | mode_decision (decisionTaskId : JsString).

(** [mode === "complete" || task.id !== decisionTaskId], negated. *)
Definition exempt (mode : SnapshotValidationMode) (taskId : JsString) : bool :=
  match mode with
  | mode_complete => false
  | mode_decision decisionTaskId => bool_decide (taskId = decisionTaskId)
  end.

Fixpoint parseIndexed {A} (parse : JsValue → JsString → Parsed A) (label : string)
    (index : nat) (values : list JsValue) : Parsed (list A) :=
  match values with
  | [] => Ok []
  | value :: rest =>
      let? a := parse value (js (label +:+ "[" +:+ pretty (N.of_nat index) +:+ "]")) in
      let? others := parseIndexed parse label (S index) rest in
      Ok (a :: others)
  end.

(** A [for] loop whose body can only return a failure. *)
Fixpoint forEach {A} (body : A → Parsed unit) (items : list A) : Parsed unit :=
  match items with
  | [] => Ok tt
  | item :: rest => let? _ := body item in forEach body rest
  end.

Definition atTask (taskId : JsString) : Details := [("taskId", DetailString taskId)].

(** One iteration of the reference checks over [tasks]. *)
Definition checkReferences (mode : SnapshotValidationMode) (projects : list Project)
    (tasks : list Task) (task : Task) : Parsed unit :=
  let taskIndex := taskIndex tasks in
  guard? bool_decide (taskProjectId task ∈ map projectId projects) || exempt mode (id task)
    else domainError INVALID_SNAPSHOT "Task Project is not registered" (atTask (id task)) in
  let? _ :=
    match parentId task with
    | None => Ok tt
    | Some p =>
        match taskIndex !! p with
        | None =>
            invalid INVALID_SNAPSHOT "Task parent is not registered" (atTask (id task))
        | Some parent =>
            guard? bool_decide (taskProjectId parent = taskProjectId task)
              else domainError INVALID_SNAPSHOT "Task parent belongs to another Project"
                     (atTask (id task)) in Ok tt
        end
    end in
  let? _ :=
    forEach (λ dependencyId,
      guard? bool_decide (is_Some (taskIndex !! dependencyId)) || exempt mode (id task)
        else domainError INVALID_SNAPSHOT "Task dependency is not registered"
               (atTask (id task) ++ [("dependencyId", DetailString dependencyId)]) in
      Ok tt) (dependencyIds task) in
  match supersedesTaskId task with
  | None => Ok tt
  | Some s =>
      guard? bool_decide (is_Some (taskIndex !! s))
        else domainError INVALID_SNAPSHOT "Superseded Task is not registered"
               (atTask (id task)) in Ok tt
  end.

Definition snapshotKeys : list string := ["projects"; "tasks"].

Section snapshots.
Context `{UnicodeNormalization}.

Definition parseSnapshot (value : JsValue) (mode : SnapshotValidationMode)
    : Parsed DomainSnapshot :=
  let? record := ok_or (readExactRecord value snapshotKeys)
    (domainError INVALID_SNAPSHOT
       "DomainSnapshot must have exact projects and tasks collections" []) in
  let? (projectValues, taskValues) :=
    ok_or (ps ← readCanonicalArray (field record "projects");
           ts ← readCanonicalArray (field record "tasks"); Some (ps, ts))
      (domainError INVALID_SNAPSHOT "DomainSnapshot collections must be arrays" []) in
  let? parsedProjects := parseIndexed parseProject "projects" 0 projectValues in
  let projects := sortByKey projectId parsedProjects in
  guard? (setSize (map projectId projects) =? length projects)%nat
    else domainError INVALID_SNAPSHOT "Project identifiers must be unique" [] in
  let? parsedTasks := parseIndexed parseTask "tasks" 0 taskValues in
  let tasks := sortByKey id parsedTasks in
  guard? (setSize (map id tasks) =? length tasks)%nat
    else domainError INVALID_SNAPSHOT "Task identifiers must be unique" [] in
  let? _ := forEach (checkReferences mode projects tasks) tasks in
  let? _ :=
    match parentCycle tasks with
    | Some taskId =>
        invalid INVALID_SNAPSHOT "Parent hierarchy contains a cycle" (atTask taskId)
    | None => Ok tt
    end in
  let? _ :=
    match dependencyCycle tasks with
    | Some taskId =>
        invalid INVALID_SNAPSHOT "Dependency graph contains a cycle" (atTask taskId)
    | None => Ok tt
    end in
  parsed {| projects := projects; tasks := tasks |}.

Definition mutation (snapshot : DomainSnapshot) (changedTaskIds : list JsString)
    (events : list DomainEvent) : DomainResult DomainMutation :=
  success {| snapshot := snapshot;
             changedTaskIds := sortByKey (λ s, s) changedTaskIds |} events.

Definition projectMutation (snapshot : DomainSnapshot) (projectId : JsString)
    : DomainResult ProjectDomainMutation :=
  success {| projectSnapshot := snapshot; changedProjectIds := [projectId] |} [].

(** The replacements are a [Map] whose keys are set once each. *)
Definition replaceTasks (snapshot : DomainSnapshot)
    (replacements : list (JsString * Task)) (additions : list Task) : Parsed DomainSnapshot :=
  let tasks := map (λ task, default task (assocGet (id task) replacements)) (tasks snapshot) in
  parseSnapshot
    (jsObject [("projects", jsArray (map projectValue (projects snapshot)));
               ("tasks", jsArray (map taskValue (tasks ++ additions)))])
    mode_complete.

(** [patched] is [{ ...task, ...patch }]; the candidate carries the next
    revision, and waiting facts are restamped with it. *)
Definition nextCandidate (task patched : Task) : Task :=
  let nextRevision := revision task + 1 in
  {| id := id patched; taskProjectId := taskProjectId patched;
     state := state patched; revision := nextRevision;
     body := body patched; parentId := parentId patched;
     dependencyIds := dependencyIds patched;
     taskWaiting :=
       match state patched, taskWaiting patched with
       | waiting, Some w =>
           Some {| waitingInput := waitingInput w; waitingTaskRevision := nextRevision |}
       | _, w => w
       end;
     completion := completion patched;
     cancellation := cancellation patched;
     supersedesTaskId := supersedesTaskId patched |}.

Definition nextTask (task patched : Task) : Parsed Task :=
  if revision task =? MAX_SAFE_INTEGER
  then invalid REVISION_EXHAUSTED "Task revision cannot be incremented safely"
         (atTask (id task))
  else parseTask (taskValue (nextCandidate task patched)) (js "task:" ++ id task).

Definition requireMutableTask (snapshot : DomainSnapshot) (taskId : JsString) : Parsed Task :=
  let? task := ok_or (taskById snapshot taskId)
    (domainError TASK_NOT_FOUND "Task is not registered" (atTask taskId)) in
  guard? negb (isTerminal (state task))
    else domainError TERMINAL_IMMUTABLE "Terminal Task cannot be mutated"
           (atTask taskId ++ [("state", detailState (state task))]) in
  parsed task.

Definition parseTaskCommand (value : JsValue) (keys : list string)
    : Parsed (list (JsString * JsValue)) :=
  ok_or (readExactRecord value keys)
    (domainError INVALID_INPUT "Command must contain the exact expected fields" []).

Definition readRevision (value : JsValue) : Parsed JsString :=
  ok_or (isIdentifier value)
    (domainError INVALID_INPUT "readRevision must be a nonempty opaque label" []).
End snapshots.

(** ** Loops *)

Lemma parseIndexed_sound {A} (parse : JsValue → JsString → Parsed A) (P : A → Prop)
    label index values items :
  (∀ v p a, parse v p = Ok a → P a) →
  parseIndexed parse label index values = Ok items → Forall P items.
Proof.
  intros HP. revert index items.
  induction values as [|v values IH]; intros index items; simpl; intros Hp; inv_ok; subst.
  - constructor.
  - constructor; eauto.
Qed.

Lemma parseIndexed_value {A} (parse : JsValue → JsString → Parsed A) encode label index items :
  Forall (λ a, ∀ p, parse (encode a) p = Ok a) items →
  parseIndexed parse label index (map encode items) = Ok items.
Proof.
  intros Hall. revert index. induction Hall as [|a items Ha _ IH]; intros index; simpl; [done|].
  rewrite Ha. simpl. by rewrite IH.
Qed.

Lemma forEach_ok {A} (loop : A → Parsed unit) items :
  forEach loop items = Ok tt ↔ Forall (λ a, loop a = Ok tt) items.
Proof.
  induction items as [|a items IH]; simpl; [done|]. rewrite Forall_cons, <-IH.
  destruct (loop a) as [[]|]; simpl; naive_solver.
Qed.

(** ** The invariant *)

Section invariant.
Context `{UnicodeNormalization}.

Record snapshot_wf (mode : SnapshotValidationMode) (s : DomainSnapshot) : Prop := {
  wf_projects : Forall (λ p, identifier (projectId p)) (projects s);
  wf_projectsSorted : StronglySorted (key_lt projectId) (projects s);
  wf_tasks : Forall task_wf (tasks s);
  wf_tasksSorted : StronglySorted (key_lt id) (tasks s);
  wf_taskProject : ∀ t, t ∈ tasks s → exempt mode (id t) = false →
    taskProjectId t ∈ map projectId (projects s);
  wf_taskParent : ∀ t p, t ∈ tasks s → parentId t = Some p →
    ∃ u, u ∈ tasks s ∧ id u = p ∧ taskProjectId u = taskProjectId t;
  wf_taskDependencies : ∀ t d, t ∈ tasks s → exempt mode (id t) = false →
    d ∈ dependencyIds t → d ∈ map id (tasks s);
  wf_taskSupersedes : ∀ t u, t ∈ tasks s → supersedesTaskId t = Some u →
    u ∈ map id (tasks s);
  wf_parentForest : acyclic (parentEdge (tasks s));
  wf_dependencyDag : acyclic (dependencyEdge (tasks s));
}.

(** What is well formed for commands is well formed for decisions. *)
Lemma snapshot_wf_decision k s : snapshot_wf mode_complete s → snapshot_wf (mode_decision k) s.
Proof. intros []. constructor; try done; eauto. Qed.

Lemma wf_taskIds mode s : snapshot_wf mode s → NoDup (map id (tasks s)).
Proof. intros []. by apply key_sorted_NoDup. Qed.

Lemma wf_projectIds mode s : snapshot_wf mode s → NoDup (map projectId (projects s)).
Proof. intros []. by apply key_sorted_NoDup. Qed.

Lemma wf_task mode s t : snapshot_wf mode s → t ∈ tasks s → task_wf t.
Proof. intros [] Ht. by eapply Forall_forall in Ht. Qed.

Lemma wf_parentRegistered mode s t p :
  snapshot_wf mode s → t ∈ tasks s → parentId t = Some p → p ∈ map id (tasks s).
Proof.
  intros Hs Ht Hp. destruct (wf_taskParent _ _ Hs t p Ht Hp) as (u & Hu & <- & _).
  by apply list_elem_of_fmap_2.
Qed.

Lemma index_is_Some ts k :
  NoDup (map id ts) → is_Some (taskIndex ts !! k) ↔ k ∈ map id ts.
Proof.
  intros Hnd. rewrite taskIndex_lookup by done.
  rewrite <-not_eq_None_Some, findTask_None.
  split; [intros Hn; by apply dec_stable|intros Hk Hn; by apply Hn].
Qed.

(** The reference checks of one task, as facts. *)
Lemma checkReferences_ok mode ps ts t :
  NoDup (map id ts) →
  checkReferences mode ps ts t = Ok tt ↔
  (exempt mode (id t) = false → taskProjectId t ∈ map projectId ps) ∧
  (∀ p, parentId t = Some p → ∃ u, u ∈ ts ∧ id u = p ∧ taskProjectId u = taskProjectId t) ∧
  (∀ d, exempt mode (id t) = false → d ∈ dependencyIds t → d ∈ map id ts) ∧
  (∀ u, supersedesTaskId t = Some u → u ∈ map id ts).
Proof.
  intros Hnd. unfold checkReferences. rewrite guard_ok. f_equiv.
  { rewrite orb_true_iff, bool_decide_eq_true. destruct (exempt mode (id t)); naive_solver. }
  rewrite result_bind_ok. split.
  - intros ([] & Hparent & Hrest). apply result_bind_ok in Hrest as ([] & Hdeps & Hsup).
    apply forEach_ok in Hdeps. split_and!.
    + intros p Hp. rewrite Hp, taskIndex_lookup in Hparent by done.
      destruct (findTask ts p) as [u|] eqn:Hu; [|done].
      apply findTask_Some in Hu as [? ?]. inv_ok. inv_bool. eauto.
    + intros d Hx Hd. rewrite Forall_forall in Hdeps. specialize (Hdeps d Hd).
      inv_ok. rewrite Hx, orb_false_r in *. inv_bool. by apply index_is_Some.
    + intros u Hu. rewrite Hu in Hsup. inv_ok. inv_bool. by apply index_is_Some.
  - intros (Hparent & Hdeps & Hsup). exists tt. split.
    { destruct (parentId t) as [p|]; [|done].
      destruct (Hparent p eq_refl) as (u & Hu & Hid & Hpid).
      rewrite taskIndex_lookup by done.
      rewrite (proj2 (findTask_lookup ts p u Hnd)) by done. by rewrite bool_decide_true. }
    apply result_bind_ok. exists tt. split.
    { apply forEach_ok, Forall_forall. intros d Hd. apply guard_ok. split; [|done].
      destruct (exempt mode (id t)); [by rewrite orb_true_r|].
      rewrite orb_false_r. apply bool_decide_eq_true, index_is_Some; auto. }
    destruct (supersedesTaskId t) as [u|]; [|done]. apply guard_ok. split; [|done].
    apply bool_decide_eq_true, index_is_Some; auto.
Qed.

Lemma sorted_keys_NoDup {A} (key : A → JsString) l :
  (setSize (map key (sortByKey key l)) = length (sortByKey key l)) ↔ NoDup (map key l).
Proof.
  rewrite <-(length_map key (sortByKey key l)), setSize_NoDup.
  unfold sortByKey. by rewrite sortBy_perm.
Qed.

(** The validation stage of [parseSnapshot] on well-formed elements: all its
    checks pass exactly when the sorted snapshot is well formed. *)
Lemma validated_wf mode ps ts :
  let ps' := sortByKey projectId ps in
  let ts' := sortByKey id ts in
  Forall (λ p, identifier (projectId p)) ps → Forall task_wf ts →
  (NoDup (map projectId ps) ∧ NoDup (map id ts) ∧
   forEach (checkReferences mode ps' ts') ts' = Ok tt ∧
   parentCycle ts' = None ∧ dependencyCycle ts' = None) ↔
  snapshot_wf mode {| projects := ps'; tasks := ts' |}.
Proof.
  intros ps' ts' Hps Hts.
  assert (NoDup (map id ts) ↔ NoDup (map id ts')) as Hids.
  { unfold ts', sortByKey. by rewrite sortBy_perm. }
  assert (NoDup (map projectId ps) ↔ NoDup (map projectId ps')) as Hpids.
  { unfold ps', sortByKey. by rewrite sortBy_perm. }
  split.
  - intros (Hnp & Hnt & Hrefs & Hpar & Hdep). assert (NoDup (map id ts')) by by apply Hids.
    apply forEach_ok in Hrefs. rewrite Forall_forall in Hrefs.
    assert (∀ t, t ∈ ts' → checkReferences mode ps' ts' t = Ok tt) as Hr by done.
    setoid_rewrite checkReferences_ok in Hr; [|done].
    constructor; simpl.
    + unfold ps', sortByKey. by rewrite sortBy_perm.
    + by apply sortByKey_sorted.
    + unfold ts', sortByKey. by rewrite sortBy_perm.
    + by apply sortByKey_sorted.
    + intros t Ht. by apply Hr.
    + intros t p Ht. by apply Hr.
    + intros t d Ht. by apply Hr.
    + intros t u Ht. by apply Hr.
    + by apply parentCycle_spec.
    + by apply dependencyCycle_spec.
  - intros Hwf. pose proof (wf_taskIds _ _ Hwf) as Hnt. pose proof (wf_projectIds _ _ Hwf).
    destruct Hwf; simpl in *.
    split; [by apply Hpids|]. split; [by apply Hids|]. split; [|split].
    + apply forEach_ok, Forall_forall. intros t Ht. apply checkReferences_ok; eauto 10.
    + by apply parentCycle_spec.
    + by apply dependencyCycle_spec.
Qed.

Lemma cycle_check_ok (c : option JsString) (e : JsString → DomainError) :
  match c with Some i => Err (e i) | None => Ok tt end = Ok tt ↔ c = None.
Proof. destruct c; naive_solver. Qed.

Lemma parseSnapshot_sound value mode s :
  parseSnapshot value mode = Ok s → snapshot_wf mode s.
Proof.
  unfold parseSnapshot. intros Hp. inv_ok. destruct x0 as [pvs tvs]. inv_ok. subst.
  repeat match goal with
  | u : unit |- _ => destruct u
  | Hs : (setSize _ =? _)%nat = true |- _ => apply Nat.eqb_eq, sorted_keys_NoDup in Hs
  | Hc : match _ with Some _ => _ | None => _ end = Ok tt |- _ =>
      apply (cycle_check_ok _ (λ _, _)) in Hc || apply cycle_check_ok in Hc
  end.
  apply validated_wf; [..|done].
  - eapply parseIndexed_sound; [|eassumption]. apply parseProject_sound.
  - eapply parseIndexed_sound; [|eassumption]. apply parseTask_sound.
Qed.

(** Any arrangement of the elements of a well-formed snapshot is read back
    as that snapshot, sorted. *)
Lemma parseSnapshot_lists mode ps ts :
  let s := {| projects := sortByKey projectId ps; tasks := sortByKey id ts |} in
  snapshot_wf mode s →
  parseSnapshot (jsObject [("projects", jsArray (map projectValue ps));
                           ("tasks", jsArray (map taskValue ts))]) mode = Ok s.
Proof.
  intros s Hwf.
  assert (Forall (λ p, identifier (projectId p)) ps) as Hps.
  { pose proof (wf_projects _ _ Hwf) as Hf. unfold s, sortByKey in Hf; simpl in Hf.
    by rewrite sortBy_perm in Hf. }
  assert (Forall task_wf ts) as Hts.
  { pose proof (wf_tasks _ _ Hwf) as Hf. unfold s, sortByKey in Hf; simpl in Hf.
    by rewrite sortBy_perm in Hf. }
  destruct (proj2 (validated_wf mode ps ts Hps Hts) Hwf) as (Hnp & Hnt & Hrefs & Hpar & Hdep).
  unfold parseSnapshot. rewrite readExactRecord_object by done. simpl.
  rewrite !field_record. simpl. rewrite !readCanonicalArray_array. simpl.
  rewrite parseIndexed_value
    by (eapply Forall_impl; [exact Hps|]; intros p Hid path; by apply parseProject_value).
  simpl. rewrite (proj2 (sorted_keys_NoDup _ _) Hnp), Nat.eqb_refl.
  rewrite parseIndexed_value
    by (eapply Forall_impl; [exact Hts|]; intros t Ht path; by apply parseTask_value).
  simpl. rewrite (proj2 (sorted_keys_NoDup _ _) Hnt), Nat.eqb_refl.
  by rewrite Hrefs, Hpar, Hdep.
Qed.

Lemma parseSnapshot_value mode s :
  snapshot_wf mode s → parseSnapshot (snapshotValue s) mode = Ok s.
Proof.
  intros Hwf. destruct s as [ps ts].
  assert (sortByKey projectId ps = ps) as Hps by (apply sortByKey_id; by destruct Hwf).
  assert (sortByKey id ts = ts) as Hts by (apply sortByKey_id; by destruct Hwf).
  pose proof (parseSnapshot_lists mode ps ts) as Hp. simpl in Hp.
  rewrite Hps, Hts in Hp. by apply Hp.
Qed.
End invariant.
