(* ===== verification/DomainCommands.v ===== *)
(** * Commands of the domain core (src/src/domain.ts, lines 820-1478)

    Project registration and enablement, and the commands that create a task
    or change its body, waiting metadata, parent, dependencies or supersession.
    Each takes the snapshot and the command as untrusted values, as the code
    does.  [eligibilityReasons] and [continuationReasons] are here too, with
    the two read-only evaluations. *)

From S2P Require Import Prelude JsValue UnicodeText DomainModel DomainParse DomainGraph DomainSnapshot.

Import ErrorCode.

(** Record updates: the patches the commands spread over a task. *)
Definition withBody (newBody : JsString) (t : Task) : Task :=
  {| id := id t; taskProjectId := taskProjectId t; state := state t; revision := revision t;
     body := newBody; parentId := parentId t; dependencyIds := dependencyIds t;
     taskWaiting := taskWaiting t; completion := completion t;
     cancellation := cancellation t; supersedesTaskId := supersedesTaskId t |}.

Definition withWaiting (w : option WaitingMetadata) (t : Task) : Task :=
  {| id := id t; taskProjectId := taskProjectId t; state := state t; revision := revision t;
     body := body t; parentId := parentId t; dependencyIds := dependencyIds t;
     taskWaiting := w; completion := completion t;
     cancellation := cancellation t; supersedesTaskId := supersedesTaskId t |}.

Definition withParent (parent : option JsString) (t : Task) : Task :=
  {| id := id t; taskProjectId := taskProjectId t; state := state t; revision := revision t;
     body := body t; parentId := parent; dependencyIds := dependencyIds t;
     taskWaiting := taskWaiting t; completion := completion t;
     cancellation := cancellation t; supersedesTaskId := supersedesTaskId t |}.

Definition withDependencies (ids : list JsString) (t : Task) : Task :=
  {| id := id t; taskProjectId := taskProjectId t; state := state t; revision := revision t;
     body := body t; parentId := parentId t; dependencyIds := ids;
     taskWaiting := taskWaiting t; completion := completion t;
     cancellation := cancellation t; supersedesTaskId := supersedesTaskId t |}.

Definition withSupersedes (superseded : option JsString) (t : Task) : Task :=
  {| id := id t; taskProjectId := taskProjectId t; state := state t; revision := revision t;
     body := body t; parentId := parentId t; dependencyIds := dependencyIds t;
     taskWaiting := taskWaiting t; completion := completion t;
     cancellation := cancellation t; supersedesTaskId := superseded |}.

(** [left === right] field by field, and [retryAfter] and the nullable strings
    by the same identity. *)
Definition sameWaitingInput (left : WaitingMetadata) (right : WaitingMetadataInput) : bool :=
  bool_decide (reason (waitingInput left) = reason right) &&
  bool_decide (phase (waitingInput left) = phase right) &&
  bool_decide (requiredAction (waitingInput left) = requiredAction right) &&
  bool_decide (lastErrorCode (waitingInput left) = lastErrorCode right) &&
  bool_decide (lastErrorSummary (waitingInput left) = lastErrorSummary right) &&
  bool_decide (retryable (waitingInput left) = retryable right) &&
  bool_decide (retryCount (waitingInput left) = retryCount right) &&
  bool_decide (retryAfter (waitingInput left) = retryAfter right) &&
  bool_decide (executionId (waitingInput left) = executionId right) &&
  bool_decide (workspaceRevision (waitingInput left) = workspaceRevision right) &&
  bool_decide (backendThreadId (waitingInput left) = backendThreadId right).

(** ** Eligibility and continuation predicates *)

Section reasons.
Import EligibilityReason.

(** A [Set] filled in order and then sorted by name. *)
Definition eligibilityReasons (snapshot : DomainSnapshot) (task : Task)
    : list EligibilityReason :=
  let found :=
    (if bool_decide (state task = ready) then [] else [STATE_NOT_READY]) ++
    (match projectById snapshot (taskProjectId task) with
     | None => [PROJECT_NOT_REGISTERED]
     | Some project => if enabled project then [] else [PROJECT_DISABLED]
     end) ++
    List.flat_map (λ dependencyId,
      match taskById snapshot dependencyId with
      | None => [DEPENDENCY_NOT_REGISTERED]
      | Some dependency =>
          if bool_decide (state dependency = completed) then [] else [DEPENDENCY_NOT_COMPLETED]
      end) (dependencyIds task) in
  sortByKey (λ r, js (name r)) (remove_dups found).
End reasons.

(** [recorded !== null && recorded !== target] *)
Definition identityMismatch (recorded target : option JsString) : bool :=
  match recorded with
  | None => false
  | Some _ => negb (bool_decide (recorded = target))
  end.

Section continuation.
Import ContinuationReason.

Definition continuationReasons (snapshot : DomainSnapshot) (task : Task)
    (command : WaitingContinuationCommand) : list ContinuationReason :=
  match state task, taskWaiting task with
  | waiting, Some metadata =>
      let w := waitingInput metadata in
      let receipt := requiredActionReceipt command in
      let found :=
        (if negb (revision task =? expectedTaskRevision command) ||
            negb (waitingTaskRevision metadata =? expectedTaskRevision command)
         then [TASK_REVISION_STALE] else []) ++
        (match projectById snapshot (taskProjectId task) with
         | None => [PROJECT_NOT_REGISTERED]
         | Some project => if enabled project then [] else [PROJECT_DISABLED]
         end) ++
        List.flat_map (λ dependencyId,
          match taskById snapshot dependencyId with
          | None => [DEPENDENCY_NOT_REGISTERED]
          | Some dependency =>
              if bool_decide (state dependency = completed) then []
              else [DEPENDENCY_NOT_COMPLETED]
          end) (dependencyIds task) ++
        (if negb (bool_decide (receiptTaskId receipt = id task)) ||
            negb (receiptTaskRevision receipt =? expectedTaskRevision command) ||
            negb (bool_decide (receiptRequiredAction receipt = requiredAction w))
         then [REQUIRED_ACTION_RECEIPT_STALE] else []) ++
        (if identityMismatch (executionId w) (targetExecutionId command) ||
            identityMismatch (workspaceRevision w) (targetWorkspaceRevision command) ||
            identityMismatch (backendThreadId w) (targetBackendThreadId command)
         then [IDENTITY_MISMATCH] else []) ++
        (match kind command with
         | resume =>
             match executionId w with None => [EXECUTION_ID_REQUIRED] | Some _ => [] end
         | retry =>
             (if retryable w then [] else [NOT_RETRYABLE]) ++
             (match retryAfter w with
              | Some time => if trustedTime command <? time then [RETRY_TOO_EARLY] else []
              | None => []
              end)
         end) in
      sortByKey (λ r, js (name r)) (remove_dups found)
  | _, _ => [STATE_NOT_WAITING]
  end.
End continuation.

Definition receiptKeys : list string :=
  ["receiptId"; "taskId"; "taskRevision"; "requiredAction"; "status"].

Definition parseRequiredActionReceipt (value : JsValue) : Parsed RequiredActionReceipt :=
  let? record := ok_or (readExactRecord value receiptKeys)
    (domainError INVALID_INPUT "Required-action receipt must have the exact shape" []) in
  ok_or
    (receiptId ← isIdentifier (field record "receiptId");
     taskId ← isIdentifier (field record "taskId");
     taskRevision ← isPositiveInteger (field record "taskRevision");
     requiredAction ← isIdentifier (field record "requiredAction");
     if isLiteral (field record "status") (js "accepted")
     then Some {| receiptId := receiptId; receiptTaskId := taskId;
                  receiptTaskRevision := taskRevision;
                  receiptRequiredAction := requiredAction |}
     else None)
    (domainError INVALID_INPUT "Required-action receipt contains an invalid field" []).

Definition continuationKeys : list string :=
  ["taskId"; "expectedTaskRevision"; "readRevision"; "kind"; "requiredActionReceipt";
   "targetExecutionId"; "targetWorkspaceRevision"; "targetBackendThreadId"; "trustedTime"].

Definition ContinuationKind_name (k : ContinuationKind) : string :=
  match k with resume => "resume" | retry => "retry" end.

Definition isContinuationKind (value : JsValue) : option ContinuationKind :=
  lookupName [resume; retry] ContinuationKind_name value.

Definition parseContinuationCommand (value : JsValue) : Parsed WaitingContinuationCommand :=
  let? record := ok_or (readExactRecord value continuationKeys)
    (domainError INVALID_INPUT "Continuation command must contain every exact field" []) in
  let? label := readRevision (field record "readRevision") in
  let? receipt := parseRequiredActionReceipt (field record "requiredActionReceipt") in
  ok_or
    (taskId ← isIdentifier (field record "taskId");
     expectedTaskRevision ← isPositiveInteger (field record "expectedTaskRevision");
     kind ← isContinuationKind (field record "kind");
     targetExecutionId ← isNullableIdentifier (field record "targetExecutionId");
     targetWorkspaceRevision ← isNullableIdentifier (field record "targetWorkspaceRevision");
     targetBackendThreadId ← isNullableIdentifier (field record "targetBackendThreadId");
     trustedTime ← isSafeInteger (field record "trustedTime");
     Some {| commandTaskId := taskId; expectedTaskRevision := expectedTaskRevision;
             readRevisionLabel := label; kind := kind; requiredActionReceipt := receipt;
             targetExecutionId := targetExecutionId;
             targetWorkspaceRevision := targetWorkspaceRevision;
             targetBackendThreadId := targetBackendThreadId; trustedTime := trustedTime |})
    (domainError INVALID_INPUT "Continuation command contains an invalid field" []).

Definition dependencyCommand (value : JsValue) : Parsed (JsString * JsString) :=
  let? record := parseTaskCommand value ["taskId"; "dependencyId"] in
  ok_or
    (taskId ← isIdentifier (field record "taskId");
     dependencyId ← isIdentifier (field record "dependencyId");
     Some (taskId, dependencyId))
    (domainError INVALID_INPUT "Dependency command contains an invalid field" []).

(** [try { return operation(); } catch { ... }]: [None] is an operation that
    threw.  The readers catch what untrusted values throw, so the operations
    below always return; what is left of the [catch] branch is the exhaustion of
    the stack by the recursive searches, which the model has no bound for. *)
Definition guardPublicResult {T} (code : DomainErrorCode)
    (operation : option (DomainResult T)) : DomainResult T :=
  match operation with
  | Some result => result
  | None =>
      failure (domainError code "Public domain input could not be read safely"
                 [("reason", DetailString (js "input_access_failed"))])
  end.

(** ** The commands *)

Section commands.
Context `{UnicodeNormalization}.

Definition createDomainSnapshot (input : JsValue) : DomainResult DomainSnapshot :=
  guardPublicResult INVALID_SNAPSHOT (Some (
    let? snapshot := parseSnapshot input mode_complete in success snapshot [])).

Definition registerProject (snapshotInput commandInput : JsValue)
    : DomainResult ProjectDomainMutation :=
  guardPublicResult INVALID_INPUT (Some (
    let? snapshot := parseSnapshot snapshotInput mode_complete in
    let invalidInput :=
      domainError INVALID_INPUT "Project registration contains an invalid field" [] in
    let? pid :=
      ok_or (record ← readExactRecord commandInput ["projectId"];
             isIdentifier (field record "projectId")) invalidInput in
    match projectById snapshot pid with
    | Some _ =>
        failure (domainError PROJECT_ALREADY_EXISTS "Project is already registered"
                   [("projectId", DetailString pid)])
    | None =>
        let? parsedSnapshot :=
          parseSnapshot
            (jsObject [("projects",
                        jsArray (map projectValue
                          (projects snapshot ++ [{| projectId := pid; enabled := true |}])));
                       ("tasks", jsArray (map taskValue (tasks snapshot)))])
            mode_complete in
        projectMutation parsedSnapshot pid
    end)).

Definition setProjectEnabled (snapshotInput commandInput : JsValue)
    : DomainResult ProjectDomainMutation :=
  guardPublicResult INVALID_INPUT (Some (
    let? snapshot := parseSnapshot snapshotInput mode_complete in
    let? (pid, newEnabled) :=
      ok_or (record ← readExactRecord commandInput ["projectId"; "enabled"];
             pid ← isIdentifier (field record "projectId");
             newEnabled ← isBoolean (field record "enabled");
             Some (pid, newEnabled))
        (domainError INVALID_INPUT "Project enablement command contains an invalid field" []) in
    let? project := ok_or (projectById snapshot pid)
      (domainError PROJECT_NOT_FOUND "Project is not registered"
         [("projectId", DetailString pid)]) in
    guard? negb (eqb (enabled project) newEnabled)
      else domainError NO_OP "Project enablement is unchanged"
             [("projectId", DetailString (projectId project))] in
    let? parsedSnapshot :=
      parseSnapshot
        (jsObject [("projects",
                    jsArray (map projectValue
                      (map (λ candidate,
                         if bool_decide (projectId candidate = projectId project)
                         then {| projectId := projectId project; enabled := newEnabled |}
                         else candidate) (projects snapshot))));
                   ("tasks", jsArray (map taskValue (tasks snapshot)))])
        mode_complete in
    projectMutation parsedSnapshot (projectId project))).

Definition createTask (snapshotInput commandInput : JsValue) : DomainResult DomainMutation :=
  guardPublicResult INVALID_INPUT (Some (
    let? snapshot := parseSnapshot snapshotInput mode_complete in
    let? record :=
      parseTaskCommand commandInput ["id"; "projectId"; "body"; "supersedesTaskId"] in
    let? (newId, pid, newBody, superseded) :=
      ok_or (newId ← isIdentifier (field record "id");
             pid ← isIdentifier (field record "projectId");
             newBody ← asString (field record "body");
             superseded ← isNullableIdentifier (field record "supersedesTaskId");
             Some (newId, pid, newBody, superseded))
        (domainError INVALID_INPUT "Create Task command contains an invalid field" []) in
    guard? negb (bool_decide (is_Some (taskById snapshot newId)))
      else domainError TASK_ALREADY_EXISTS "Task identity is already registered"
             (atTask newId) in
    guard? bool_decide (is_Some (projectById snapshot pid))
      else domainError PROJECT_NOT_FOUND "Task Project is not registered"
             [("projectId", DetailString pid)] in
    guard? negb (bool_decide (superseded = Some newId))
      else domainError SUPERSESSION_SELF "Task cannot supersede itself" (atTask newId) in
    guard? match superseded with
           | None => true
           | Some s => bool_decide (is_Some (taskById snapshot s))
           end
      else domainError SUPERSESSION_NOT_FOUND "Superseded Task is not registered"
             [("taskId", detailNullable superseded)] in
    let? task :=
      parseTask
        (taskValue {| id := newId; taskProjectId := pid; state := idea; revision := 1;
                      body := newBody; parentId := None; dependencyIds := [];
                      taskWaiting := None; completion := None; cancellation := None;
                      supersedesTaskId := superseded |})
        (js "task:" ++ newId) in
    let? next := replaceTasks snapshot [] [task] in
    mutation next [id task] [event task_created (id task) None 1 []])).

Definition updateTaskBody (snapshotInput commandInput : JsValue) : DomainResult DomainMutation :=
  guardPublicResult INVALID_INPUT (Some (
    let? snapshot := parseSnapshot snapshotInput mode_complete in
    let? record := parseTaskCommand commandInput ["taskId"; "body"] in
    let? (taskId, newBody) :=
      ok_or (taskId ← isIdentifier (field record "taskId");
             newBody ← asString (field record "body"); Some (taskId, newBody))
        (domainError INVALID_INPUT "Body command contains an invalid field" []) in
    let? task := requireMutableTask snapshot taskId in
    guard? negb (bool_decide (body task = newBody))
      else domainError NO_OP "Task body is unchanged" (atTask (id task)) in
    let? changed := nextTask task (withBody newBody task) in
    let? next := replaceTasks snapshot [(id changed, changed)] [] in
    mutation next [id changed]
      [event task_body_changed (id changed) (Some (revision task)) (revision changed) []])).

Definition updateTaskWaiting (snapshotInput commandInput : JsValue)
    : DomainResult DomainMutation :=
  guardPublicResult INVALID_INPUT (Some (
    let? snapshot := parseSnapshot snapshotInput mode_complete in
    let? record := parseTaskCommand commandInput ["taskId"; "waiting"] in
    let? taskId := ok_or (isIdentifier (field record "taskId"))
      (domainError INVALID_INPUT "Waiting command contains an invalid Task identity" []) in
    let? task := requireMutableTask snapshot taskId in
    match state task, taskWaiting task with
    | waiting, Some current =>
        let? input := parseWaitingInput (field record "waiting")
                        (js "task:" ++ id task ++ js ".waiting") in
        guard? negb (sameWaitingInput current input)
          else domainError NO_OP "Task waiting metadata is unchanged" (atTask (id task)) in
        let? changed :=
          nextTask task
            (withWaiting (Some {| waitingInput := input;
                                  waitingTaskRevision := revision task |}) task) in
        let? next := replaceTasks snapshot [(id changed, changed)] [] in
        mutation next [id changed]
          [event task_waiting_changed (id changed) (Some (revision task)) (revision changed)
             [("waitingReason",
               detailNullable ((λ w, js (WaitingReason_name (reason (waitingInput w))))
                                 <$> taskWaiting changed));
              ("requiredAction",
               detailNullable ((λ w, requiredAction (waitingInput w))
                                 <$> taskWaiting changed))]]
    | _, _ =>
        failure (domainError MUTATION_NOT_ALLOWED
                   "Waiting metadata can change only while the Task is waiting"
                   (atTask (id task)))
    end)).

Definition setTaskParent (snapshotInput commandInput : JsValue) : DomainResult DomainMutation :=
  guardPublicResult INVALID_INPUT (Some (
    let? snapshot := parseSnapshot snapshotInput mode_complete in
    let? record := parseTaskCommand commandInput ["taskId"; "parentId"] in
    let? (taskId, newParent) :=
      ok_or (taskId ← isIdentifier (field record "taskId");
             newParent ← isNullableIdentifier (field record "parentId");
             Some (taskId, newParent))
        (domainError INVALID_INPUT "Parent command contains an invalid field" []) in
    let? task := requireMutableTask snapshot taskId in
    guard? isGraphMutable (state task)
      else domainError MUTATION_NOT_ALLOWED "Parent can change only in idea, ready, or waiting"
             (atTask (id task)) in
    guard? negb (bool_decide (parentId task = newParent))
      else domainError NO_OP "Task parent is unchanged" (atTask (id task)) in
    guard? negb (bool_decide (newParent = Some (id task)))
      else domainError PARENT_SELF "Task cannot parent itself" (atTask (id task)) in
    let? _ :=
      match newParent with
      | None => Ok tt
      | Some p =>
          let? parent := ok_or (taskById snapshot p)
            (domainError PARENT_NOT_FOUND "Proposed parent is not registered"
               [("parentId", DetailString p)]) in
          guard? bool_decide (taskProjectId parent = taskProjectId task)
            else domainError PARENT_PROJECT_MISMATCH "Parent and child must share a Project"
                   (atTask (id task)) in
          guard? negb (proposedParentCycles snapshot (id task) parent)
            else domainError PARENT_CYCLE "Proposed parent creates a cycle" (atTask (id task)) in
          Ok tt
      end in
    let? changed := nextTask task (withParent newParent task) in
    let? next := replaceTasks snapshot [(id changed, changed)] [] in
    mutation next [id changed]
      [event task_parent_changed (id changed) (Some (revision task)) (revision changed)
         [("parentId", detailNullable (parentId changed))]])).

Definition addTaskDependency (snapshotInput commandInput : JsValue)
    : DomainResult DomainMutation :=
  guardPublicResult INVALID_INPUT (Some (
    let? snapshot := parseSnapshot snapshotInput mode_complete in
    let? (taskId, dependencyId) := dependencyCommand commandInput in
    let? task := requireMutableTask snapshot taskId in
    guard? isGraphMutable (state task)
      else domainError MUTATION_NOT_ALLOWED
             "Dependencies can change only in idea, ready, or waiting" (atTask (id task)) in
    guard? negb (bool_decide (taskId = dependencyId))
      else domainError DEPENDENCY_SELF "Task cannot depend on itself" (atTask (id task)) in
    guard? bool_decide (is_Some (taskById snapshot dependencyId))
      else domainError DEPENDENCY_NOT_FOUND "Dependency is not registered"
             [("dependencyId", DetailString dependencyId)] in
    guard? negb (bool_decide (dependencyId ∈ dependencyIds task))
      else domainError DEPENDENCY_DUPLICATE "Dependency edge already exists"
             (atTask (id task)) in
    guard? negb (dependencyReaches snapshot dependencyId (id task))
      else domainError DEPENDENCY_CYCLE "Proposed dependency creates a cycle"
             (atTask (id task)) in
    let newDependencies := sortByKey (λ s, s) (dependencyIds task ++ [dependencyId]) in
    let? changed := nextTask task (withDependencies newDependencies task) in
    let? next := replaceTasks snapshot [(id changed, changed)] [] in
    mutation next [id changed]
      [event task_dependency_added (id changed) (Some (revision task)) (revision changed)
         [("dependencyId", DetailString dependencyId)]])).

Definition removeTaskDependency (snapshotInput commandInput : JsValue)
    : DomainResult DomainMutation :=
  guardPublicResult INVALID_INPUT (Some (
    let? snapshot := parseSnapshot snapshotInput mode_complete in
    let? (taskId, dependencyId) := dependencyCommand commandInput in
    let? task := requireMutableTask snapshot taskId in
    guard? isGraphMutable (state task)
      else domainError MUTATION_NOT_ALLOWED
             "Dependencies can change only in idea, ready, or waiting" (atTask (id task)) in
    guard? bool_decide (dependencyId ∈ dependencyIds task)
      else domainError NO_OP "Dependency edge does not exist" (atTask (id task)) in
    let newDependencies :=
      List.filter (λ d, negb (bool_decide (d = dependencyId))) (dependencyIds task) in
    let? changed := nextTask task (withDependencies newDependencies task) in
    let? next := replaceTasks snapshot [(id changed, changed)] [] in
    mutation next [id changed]
      [event task_dependency_removed (id changed) (Some (revision task)) (revision changed)
         [("dependencyId", DetailString dependencyId)]])).

Definition setTaskSupersession (snapshotInput commandInput : JsValue)
    : DomainResult DomainMutation :=
  guardPublicResult INVALID_INPUT (Some (
    let? snapshot := parseSnapshot snapshotInput mode_complete in
    let? record := parseTaskCommand commandInput ["taskId"; "supersedesTaskId"] in
    let? (taskId, superseded) :=
      ok_or (taskId ← isIdentifier (field record "taskId");
             superseded ← isNullableIdentifier (field record "supersedesTaskId");
             Some (taskId, superseded))
        (domainError INVALID_INPUT "Supersession command contains an invalid field" []) in
    let? task := requireMutableTask snapshot taskId in
    guard? negb (bool_decide (supersedesTaskId task = superseded))
      else domainError NO_OP "Task supersession is unchanged" (atTask (id task)) in
    guard? negb (bool_decide (superseded = Some (id task)))
      else domainError SUPERSESSION_SELF "Task cannot supersede itself" (atTask (id task)) in
    guard? match superseded with
           | None => true
           | Some s => bool_decide (is_Some (taskById snapshot s))
           end
      else domainError SUPERSESSION_NOT_FOUND "Superseded Task is not registered"
             (atTask (id task)) in
    let? changed := nextTask task (withSupersedes superseded task) in
    let? next := replaceTasks snapshot [(id changed, changed)] [] in
    mutation next [id changed]
      [event task_supersession_changed (id changed) (Some (revision task)) (revision changed)
         [("supersedesTaskId", detailNullable (supersedesTaskId changed))]])).

(** ** Read-only evaluations *)

Definition evaluateTaskEligibility (snapshotInput commandInput : JsValue)
    : DomainResult TaskEligibilityDecision :=
  guardPublicResult INVALID_INPUT (Some (
    let? record := parseTaskCommand commandInput ["taskId"; "readRevision"] in
    let? label := readRevision (field record "readRevision") in
    let? taskId := ok_or (isIdentifier (field record "taskId"))
      (domainError INVALID_INPUT "Eligibility Task identity is invalid" []) in
    let? snapshot := parseSnapshot snapshotInput (mode_decision taskId) in
    let? task := ok_or (taskById snapshot taskId)
      (domainError TASK_NOT_FOUND "Task is not registered" (atTask taskId)) in
    let reasons := eligibilityReasons snapshot task in
    success {| eligibilityTaskId := id task; eligibilityReadRevision := label;
               eligible := (length reasons =? 0)%nat;
               eligibilityReasonList := reasons |} [])).

Definition evaluateWaitingContinuation (snapshotInput commandInput : JsValue)
    : DomainResult WaitingContinuationDecision :=
  guardPublicResult INVALID_INPUT (Some (
    let? command := parseContinuationCommand commandInput in
    let? snapshot := parseSnapshot snapshotInput (mode_decision (commandTaskId command)) in
    let? task := ok_or (taskById snapshot (commandTaskId command))
      (domainError TASK_NOT_FOUND "Task is not registered" (atTask (commandTaskId command))) in
    let reasons := continuationReasons snapshot task command in
    success {| continuationTaskId := id task;
               continuationReadRevision := readRevisionLabel command;
               continuationDecisionKind := kind command;
               continuationEligible := (length reasons =? 0)%nat;
               continuationReasonList := reasons |} [])).
End commands.
