(* ===== verification/DomainTransition.v ===== *)
(** * State transitions of the domain core (src/src/domain.ts, lines 1480-1906)

    [transitionTask]: the legality check against [TASK_TRANSITIONS], the
    payload of each event, the continuation and external-acceptance guards, and
    the cancellation cascade to ready direct dependents. *)

From S2P Require Import Prelude JsValue UnicodeText DomainModel DomainParse DomainGraph DomainSnapshot DomainCommands.

Import ErrorCode.

(** [{ ...task, ...patch, state }] for the patches of the transitions. *)
Definition withState (newState : TaskState) (t : Task) : Task :=
  {| id := id t; taskProjectId := taskProjectId t; state := newState; revision := revision t;
     body := body t; parentId := parentId t; dependencyIds := dependencyIds t;
     taskWaiting := taskWaiting t; completion := completion t;
     cancellation := cancellation t; supersedesTaskId := supersedesTaskId t |}.

Definition withCompletion (fact : option CompletionFact) (t : Task) : Task :=
  {| id := id t; taskProjectId := taskProjectId t; state := state t; revision := revision t;
     body := body t; parentId := parentId t; dependencyIds := dependencyIds t;
     taskWaiting := taskWaiting t; completion := fact;
     cancellation := cancellation t; supersedesTaskId := supersedesTaskId t |}.

Definition withCancellation (fact : option CancellationFact) (t : Task) : Task :=
  {| id := id t; taskProjectId := taskProjectId t; state := state t; revision := revision t;
     body := body t; parentId := parentId t; dependencyIds := dependencyIds t;
     taskWaiting := taskWaiting t; completion := completion t;
     cancellation := fact; supersedesTaskId := supersedesTaskId t |}.

Definition transitionPayload (value : JsValue) (keys : list string)
    : Parsed (list (JsString * JsValue)) :=
  ok_or (readExactRecord value keys)
    (domainError INVALID_INPUT "Transition payload must contain the exact event fields" []).

Definition parseExternalAcceptance (value : JsValue) (task : Task) : Parsed ExternalAcceptance :=
  let? record :=
    ok_or (readExactRecord value ["taskId"; "taskRevision"; "authorization"; "reliability"])
      (domainError INVALID_INPUT "External acceptance must have the exact shape" []) in
  guard? isLiteral (field record "taskId") (id task) &&
         isNumber (field record "taskRevision") (revision task) &&
         isLiteral (field record "authorization") (js "accepted") &&
         isLiteral (field record "reliability") (js "accepted")
    else domainError EXTERNAL_PRECONDITION_FAILED
           "External acceptance is not current and positive" (atTask (id task)) in
  parsed {| acceptanceTaskId := id task; acceptanceTaskRevision := revision task |}.

Definition parseCompletionDecision (value : JsValue) (task : Task) : Parsed CompletionDecision :=
  let? record :=
    ok_or (readExactRecord value ["decisionId"; "taskId"; "taskRevision"; "status"])
      (domainError INVALID_INPUT "Completion decision must have the exact shape" []) in
  ok_or
    (decision ← isIdentifier (field record "decisionId");
     if isLiteral (field record "taskId") (id task) &&
        isNumber (field record "taskRevision") (revision task) &&
        isLiteral (field record "status") (js "accepted")
     then Some {| completionDecisionId := decision; completionDecisionTaskId := id task;
                  completionDecisionTaskRevision := revision task |}
     else None)
    (domainError EXTERNAL_PRECONDITION_FAILED
       "Completion decision is not current and accepted" (atTask (id task))).

Definition DispositionStatus_name (s : DispositionStatus) : string :=
  match s with absent => "absent" | stopped => "stopped" end.

Definition parseExecutionDisposition (value : JsValue) (task : Task)
    : Parsed ExecutionDisposition :=
  let? record :=
    ok_or (readExactRecord value
             ["receiptId"; "taskId"; "taskRevision"; "executionId"; "status"])
      (domainError INVALID_INPUT "Execution disposition must have the exact shape" []) in
  ok_or
    (receipt ← isIdentifier (field record "receiptId");
     execution ← isNullableIdentifier (field record "executionId");
     status ← lookupName [absent; stopped] DispositionStatus_name (field record "status");
     if isLiteral (field record "taskId") (id task) &&
        isNumber (field record "taskRevision") (revision task)
     then Some {| dispositionReceiptId := receipt; dispositionTaskId := id task;
                  dispositionTaskRevision := revision task;
                  dispositionExecutionId := execution; dispositionStatus := status |}
     else None)
    (domainError EXTERNAL_PRECONDITION_FAILED
       "Execution disposition is not current and verified" (atTask (id task))).

Definition waitingFromInput (value : JsValue) (revision : Z) (path : JsString)
    : Parsed WaitingMetadata :=
  let? input := parseWaitingInput value path in
  parseWaiting (waitingValue {| waitingInput := input; waitingTaskRevision := revision |}) path.

Definition parseDependentEntry (value : JsValue) (path : JsString)
    : Parsed DependentWaitingInput :=
  let? (taskId, item) :=
    ok_or (item ← readExactRecord value ["taskId"; "waiting"];
           taskId ← isIdentifier (field item "taskId"); Some (taskId, item))
      (domainError INVALID_INPUT "Dependent waiting entry has an invalid shape" (atPath path)) in
  let? input := parseWaitingInput (field item "waiting") (path ++ js ".waiting") in
  parsed {| dependentTaskId := taskId; dependentWaiting := input |}.

Definition parseDependentWaiting (value : JsValue) : Parsed (list DependentWaitingInput) :=
  let? values := ok_or (readCanonicalArray value)
    (domainError INVALID_INPUT "dependentWaiting must be an array" []) in
  let? parsedEntries := parseIndexed parseDependentEntry "dependentWaiting" 0 values in
  let entries := sortByKey dependentTaskId parsedEntries in
  guard? (setSize (map dependentTaskId entries) =? length entries)%nat
    else domainError INVALID_INPUT "dependentWaiting Task identifiers must be unique" [] in
  parsed entries.

Definition detailEvent (e : TaskTransitionEvent) : DetailValue :=
  DetailString (js (TaskTransitionEvent_name e)).

Definition transitionDetails (domainEvent : TaskTransitionEvent) (fromState toState : TaskState)
    : Details :=
  [("domainEvent", detailEvent domainEvent); ("fromState", detailState fromState);
   ("toState", detailState toState)].

Definition noExecutionDisposition (value : JsValue) (message : string) : Parsed unit :=
  if isNull value then Ok tt else invalid INVALID_INPUT message [].

Section transitions.
Context `{UnicodeNormalization}.

Definition applySimpleTransition (snapshot : DomainSnapshot) (task : Task)
    (newState : TaskState) (patched : Task) (domainEvent : TaskTransitionEvent)
    : DomainResult DomainMutation :=
  let? changed := nextTask task (withState newState patched) in
  let? next := replaceTasks snapshot [(id changed, changed)] [] in
  mutation next [id changed]
    [event task_transitioned (id changed) (Some (revision task)) (revision changed)
       (transitionDetails domainEvent (state task) newState)].

(** The loop over [affected.entries()]. *)
Fixpoint cascadeDependents (affected : list Task) (inputs : list DependentWaitingInput)
    (replacements : list (JsString * Task)) (events : list DomainEvent)
    : Parsed (list (JsString * Task) * list DomainEvent) :=
  match affected with
  | [] => Ok (replacements, events)
  | dependent :: affected' =>
      let? input :=
        ok_or (input ← head inputs;
               if bool_decide (reason (dependentWaiting input) = wr_dependency_cancelled)
               then Some input else None)
          (domainError INVALID_INPUT
             "Direct dependent waiting reason must be dependency_cancelled"
             (atTask (id dependent))) in
      guard? negb (revision dependent =? MAX_SAFE_INTEGER)
        else domainError REVISION_EXHAUSTED
               "Dependent revision cannot be incremented safely" (atTask (id dependent)) in
      let? newWaiting :=
        waitingFromInput (waitingInputValue (dependentWaiting input)) (revision dependent + 1)
          (js "dependent:" ++ id dependent) in
      let? changed :=
        nextTask dependent (withState waiting (withWaiting (Some newWaiting) dependent)) in
      cascadeDependents affected' (tail inputs)
        (assocSet (id changed) changed replacements)
        (events ++
          [event task_transitioned (id dependent) (Some (revision dependent))
             (revision changed)
             (transitionDetails dependency_cancelled ready waiting)])
  end.

Definition readyDirectDependents (snapshot : DomainSnapshot) (taskId : JsString) : list Task :=
  List.filter (λ candidate,
    bool_decide (state candidate = ready) && bool_decide (taskId ∈ dependencyIds candidate))
    (tasks snapshot).

Definition cancelWithDirectDependents (snapshot : DomainSnapshot) (task : Task)
    (fact : CancellationFact) (dependentInputs : list DependentWaitingInput)
    (domainEvent : TaskTransitionEvent) : DomainResult DomainMutation :=
  let affected := sortByKey id (readyDirectDependents snapshot (id task)) in
  (* same length and the same identifiers, position by position *)
  guard? bool_decide (map id affected = map dependentTaskId dependentInputs)
    else domainError INVALID_INPUT
           "dependentWaiting must exactly cover ready direct dependents" (atTask (id task)) in
  let? cancelledTask :=
    nextTask task
      (withState cancelled
        (withWaiting None (withCompletion None (withCancellation (Some fact) task)))) in
  let? (replacements, events) :=
    cascadeDependents affected dependentInputs [(id cancelledTask, cancelledTask)]
      [event task_transitioned (id task) (Some (revision task)) (revision cancelledTask)
         (transitionDetails domainEvent (state task) cancelled)] in
  let? next := replaceTasks snapshot replacements [] in
  mutation next (map fst replacements) events.

Definition hasCancelledDependency (snapshot : DomainSnapshot) (task : Task) : bool :=
  existsb (λ dependencyId,
    match taskById snapshot dependencyId with
    | Some dependency => bool_decide (state dependency = cancelled)
    | None => false
    end) (dependencyIds task).

(** The events that move a task into [waiting]. *)
Definition waitingPayload (payload : JsValue) (task : Task) : Parsed WaitingMetadata :=
  guard? negb (revision task =? MAX_SAFE_INTEGER)
    else domainError REVISION_EXHAUSTED "Task revision cannot be incremented safely"
           (atTask (id task)) in
  waitingFromInput payload (revision task + 1) (js "task:" ++ id task ++ js ".waiting").

Definition continueTask (snapshot : DomainSnapshot) (task : Task) (payloadValue : JsValue)
    (domainEvent : TaskTransitionEvent) (expectedKind : ContinuationKind)
    : DomainResult DomainMutation :=
  let? payload := transitionPayload payloadValue ["continuation"; "externalAcceptance"] in
  let? continuation := parseContinuationCommand (field payload "continuation") in
  guard? bool_decide (commandTaskId continuation = id task) &&
         bool_decide (kind continuation = expectedKind)
    else domainError INVALID_INPUT
           "Continuation identity or kind does not match the transition" [] in
  let reasons := continuationReasons snapshot task continuation in
  guard? (length reasons =? 0)%nat
    else domainError CONTINUATION_NOT_ELIGIBLE
           "Waiting continuation predicate did not pass"
           (atTask (id task) ++
            [("firstReason",
              detailNullable ((λ r, js (ContinuationReason.name r)) <$> head reasons))]) in
  let? _ := parseExternalAcceptance (field payload "externalAcceptance") task in
  applySimpleTransition snapshot task running (withWaiting None task) domainEvent.

(** The [verificationId] of a [cancel] transition. *)
Definition cancelVerification (task : Task) (dispositionValue : JsValue)
    : Parsed (option JsString) :=
  match state task with
  | waiting =>
      match taskWaiting task ≫= (λ w, executionId (waitingInput w)) with
      | None =>
          let? _ := noExecutionDisposition dispositionValue
            "Waiting Task without an execution must not carry a disposition" in
          Ok None
      | Some execution =>
          let? disposition := parseExecutionDisposition dispositionValue task in
          guard? bool_decide (Some execution = dispositionExecutionId disposition)
            else domainError EXTERNAL_PRECONDITION_FAILED
                   "Execution disposition identity does not match waiting Task" [] in
          Ok (Some (dispositionReceiptId disposition))
      end
  | _ =>
      let? _ := noExecutionDisposition dispositionValue
        "Idea or ready cancellation has no execution disposition" in
      Ok None
  end.

(** The [switch] over a legal event. *)
Definition performTransition (snapshot : DomainSnapshot) (task : Task)
    (transition : TaskTransitionEvent) (payloadValue : JsValue) : DomainResult DomainMutation :=
  match transition with
  | mark_ready =>
      let? _ := transitionPayload payloadValue [] in
      let? project := ok_or (projectById snapshot (taskProjectId task))
        (domainError PROJECT_NOT_FOUND "Task Project is not registered" []) in
      guard? enabled project
        else domainError PROJECT_DISABLED "Disabled Project cannot offer a Task" [] in
      guard? negb (hasCancelledDependency snapshot task)
        else domainError DEPENDENCY_CANCELLED "Cancelled dependency prevents mark_ready"
               (atTask (id task)) in
      applySimpleTransition snapshot task ready task mark_ready
  | claim_accepted =>
      let? payload := transitionPayload payloadValue ["externalAcceptance"] in
      guard? (length (eligibilityReasons snapshot task) =? 0)%nat
        else domainError TASK_NOT_ELIGIBLE "Task is not domain-eligible for claim"
               (atTask (id task)) in
      let? _ := parseExternalAcceptance (field payload "externalAcceptance") task in
      applySimpleTransition snapshot task running task claim_accepted
  | dependency_cancelled =>
      let? payload := transitionPayload payloadValue ["waiting"] in
      guard? hasCancelledDependency snapshot task
        else domainError DEPENDENCY_CANCELLED "No direct dependency is cancelled"
               (atTask (id task)) in
      let? newWaiting := waitingPayload (field payload "waiting") task in
      guard? bool_decide (reason (waitingInput newWaiting) = wr_dependency_cancelled)
        else domainError INVALID_INPUT "Waiting reason must be dependency_cancelled"
               (atTask (id task)) in
      applySimpleTransition snapshot task waiting (withWaiting (Some newWaiting) task)
        dependency_cancelled
  | execution_wait =>
      let? payload := transitionPayload payloadValue ["waiting"] in
      let? newWaiting := waitingPayload (field payload "waiting") task in
      applySimpleTransition snapshot task waiting (withWaiting (Some newWaiting) task)
        execution_wait
  | completion_accepted =>
      let? payload := transitionPayload payloadValue ["decision"] in
      let? decision := parseCompletionDecision (field payload "decision") task in
      applySimpleTransition snapshot task completed
        (withCompletion (Some {| decisionId := completionDecisionId decision;
                                 completionTaskRevision := revision task |}) task)
        completion_accepted
  | resume_accepted => continueTask snapshot task payloadValue resume_accepted resume
  | retry_accepted => continueTask snapshot task payloadValue retry_accepted retry
  | cancel =>
      let? payload :=
        transitionPayload payloadValue ["reason"; "executionDisposition"; "dependentWaiting"] in
      let? text := ok_or (isCanonicalCancellationReason (field payload "reason"))
        (domainError INVALID_INPUT "Cancellation reason is invalid" (atTask (id task))) in
      let? dependents := parseDependentWaiting (field payload "dependentWaiting") in
      let? verification := cancelVerification task (field payload "executionDisposition") in
      cancelWithDirectDependents snapshot task
        {| cancellationEvent := ce_cancel; cancellationReason := text;
           verificationId := verification; cancellationTaskRevision := revision task |}
        dependents cancel
  | interruption_verified =>
      let? payload :=
        transitionPayload payloadValue ["reason"; "verification"; "dependentWaiting"] in
      let? text := ok_or (isCanonicalCancellationReason (field payload "reason"))
        (domainError INVALID_INPUT "Cancellation reason is invalid" (atTask (id task))) in
      let? verification := parseExecutionDisposition (field payload "verification") task in
      guard? bool_decide (dispositionStatus verification = stopped) &&
             bool_decide (is_Some (dispositionExecutionId verification))
        else domainError EXTERNAL_PRECONDITION_FAILED
               "Running interruption must be verified stopped" [] in
      let? dependents := parseDependentWaiting (field payload "dependentWaiting") in
      cancelWithDirectDependents snapshot task
        {| cancellationEvent := ce_interruption_verified; cancellationReason := text;
           verificationId := Some (dispositionReceiptId verification);
           cancellationTaskRevision := revision task |}
        dependents interruption_verified
  end.

Definition legalTransition (fromState toState : TaskState) (transition : TaskTransitionEvent)
    : bool :=
  existsb (λ row,
    bool_decide (from row = fromState) && bool_decide (to row = toState) &&
    bool_decide (transitionEvent row = transition)) TASK_TRANSITIONS.

Definition transitionTask (snapshotInput commandInput : JsValue) : DomainResult DomainMutation :=
  guardPublicResult INVALID_INPUT (Some (
    let? snapshot := parseSnapshot snapshotInput mode_complete in
    let? record := parseTaskCommand commandInput ["taskId"; "event"; "targetState"; "payload"] in
    let? (taskId, transition, targetState) :=
      ok_or (taskId ← isIdentifier (field record "taskId");
             transition ← isTransitionEvent (field record "event");
             targetState ← isTaskState (field record "targetState");
             Some (taskId, transition, targetState))
        (domainError INVALID_INPUT "Transition command contains an invalid field" []) in
    let? task := ok_or (taskById snapshot taskId)
      (domainError TASK_NOT_FOUND "Task is not registered" (atTask taskId)) in
    guard? negb (isTerminal (state task))
      else domainError TERMINAL_IMMUTABLE "Terminal Task cannot transition"
             (atTask (id task)) in
    guard? legalTransition (state task) targetState transition
      else domainError ILLEGAL_TRANSITION "Task transition is not in the authoritative relation"
             (atTask (id task) ++
              [("fromState", detailState (state task));
               ("toState", detailState targetState)]) in
    performTransition snapshot task transition (field record "payload"))).
End transitions.
