(* ===== verification/DomainUpdate.v ===== *)
(** * Updating a well-formed snapshot

    Lemmas shared by the commands: when the replaced tasks are well formed and
    the graphs stay acyclic, the validation inside [replaceTasks] and
    [nextTask] accepts the update unchanged. *)

From S2P Require Import Prelude JsValue UnicodeText DomainModel DomainParse DomainGraph DomainSnapshot DomainCommands.

(** [snapshot.tasks.map((task) => replacements.get(task.id) ?? task)] *)
Definition applyReplacements (replacements : list (JsString * Task)) (ts : list Task) : list Task :=
  map (λ t, default t (assocGet (id t) replacements)) ts.

(** The task [t'] put in the place of the task with its identifier. *)
Definition putTask (t' : Task) (ts : list Task) : list Task :=
  map (λ t, if bool_decide (id t = id t') then t' else t) ts.

Lemma applyReplacements_one t' ts : applyReplacements [(id t', t')] ts = putTask t' ts.
Proof.
  unfold applyReplacements, putTask. apply map_ext. intros t.
  rewrite assocGet_cons. repeat case_bool_decide; try done; congruence.
Qed.

Lemma sorted_map_keys {A} (key : A → JsString) (f : A → A) l :
  (∀ x, x ∈ l → key (f x) = key x) →
  StronglySorted (key_lt key) l → StronglySorted (key_lt key) (map f l).
Proof.
  intros Hf Hl. induction Hl as [|x l Hl IH Hx]; simpl; constructor.
  - apply IH. set_solver.
  - rewrite Forall_forall in Hx. apply Forall_forall.
    intros y (z & -> & Hz)%list_elem_of_fmap. unfold key_lt.
    rewrite !Hf by set_solver. by apply Hx.
Qed.

Lemma map_keys {A B} (key : A → B) (f : A → A) l :
  (∀ x, x ∈ l → key (f x) = key x) → map key (map f l) = map key l.
Proof. intros Hf. rewrite map_map. apply map_ext_in. intros x Hx%list_elem_of_In. auto. Qed.

(** The fields that carry references and edges. *)
Definition sameLinks (t t' : Task) : Prop :=
  id t' = id t ∧ taskProjectId t' = taskProjectId t ∧ parentId t' = parentId t ∧
  dependencyIds t' = dependencyIds t ∧ supersedesTaskId t' = supersedesTaskId t.

Section updates.
Context `{UnicodeNormalization}.

Section replace.
Context (s : DomainSnapshot) (f : Task → Task).
Hypothesis Hwf : snapshot_wf mode_complete s.
Hypothesis Hf : ∀ t, t ∈ tasks s →
  task_wf (f t) ∧ id (f t) = id t ∧ taskProjectId (f t) = taskProjectId t.
Hypothesis Hparent : ∀ t p, t ∈ tasks s → parentId (f t) = Some p →
  ∃ u, u ∈ tasks s ∧ id u = p ∧ taskProjectId u = taskProjectId t.
Hypothesis Hdeps : ∀ t d, t ∈ tasks s → d ∈ dependencyIds (f t) → d ∈ map id (tasks s).
Hypothesis Hsup : ∀ t u, t ∈ tasks s → supersedesTaskId (f t) = Some u →
  u ∈ map id (tasks s).
Hypothesis Hforest : acyclic (parentEdge (map f (tasks s))).
Hypothesis Hdag : acyclic (dependencyEdge (map f (tasks s))).

Lemma update_wf :
  snapshot_wf mode_complete {| projects := projects s; tasks := map f (tasks s) |}.
Proof.
  assert (map id (map f (tasks s)) = map id (tasks s)) as Hids.
  { apply map_keys. intros t Ht. by apply Hf. }
  destruct Hwf. constructor; simpl; try done.
  - apply Forall_forall. intros ? (t & -> & Ht)%list_elem_of_fmap. by apply Hf.
  - apply sorted_map_keys; [|done]. intros t Ht. by apply Hf.
  - intros ? (t & -> & Ht)%list_elem_of_fmap _.
    destruct (Hf t Ht) as (_ & _ & ->). by apply wf_taskProject.
  - intros ? p (t & -> & Ht)%list_elem_of_fmap Hp.
    destruct (Hparent t p Ht Hp) as (u & Hu & Hid & Hpid).
    exists (f u). destruct (Hf t Ht) as (_ & _ & ->), (Hf u Hu) as (_ & -> & ->).
    split; [by apply list_elem_of_fmap_2|done].
  - intros ? d (t & -> & Ht)%list_elem_of_fmap _ Hd. rewrite Hids. eauto.
  - intros ? u (t & -> & Ht)%list_elem_of_fmap Hu. rewrite Hids. eauto.
Qed.

Lemma replaceTasks_update replacements :
  applyReplacements replacements (tasks s) = map f (tasks s) →
  replaceTasks s replacements [] =
    Ok {| projects := projects s; tasks := map f (tasks s) |}.
Proof.
  intros Heq. unfold replaceTasks. unfold applyReplacements in Heq. rewrite Heq, app_nil_r.
  apply (parseSnapshot_value mode_complete
           {| projects := projects s; tasks := map f (tasks s) |} update_wf).
Qed.
End replace.

(** Updates that keep every link. *)
Lemma update_links_graph s f :
  (∀ t, t ∈ tasks s → sameLinks t (f t)) →
  (∀ x y, parentEdge (map f (tasks s)) x y → parentEdge (tasks s) x y) ∧
  (∀ x y, dependencyEdge (map f (tasks s)) x y → dependencyEdge (tasks s) x y).
Proof.
  intros Hf. split; intros x y (? & (t & -> & Ht)%list_elem_of_fmap & Hx & Hy);
    destruct (Hf t Ht) as (Hid & _ & Hp & Hd & _); exists t; split_and!; congruence.
Qed.

Lemma update_links s f replacements :
  snapshot_wf mode_complete s →
  (∀ t, t ∈ tasks s → task_wf (f t) ∧ sameLinks t (f t)) →
  applyReplacements replacements (tasks s) = map f (tasks s) →
  let s' := {| projects := projects s; tasks := map f (tasks s) |} in
  snapshot_wf mode_complete s' ∧ replaceTasks s replacements [] = Ok s'.
Proof.
  intros Hwf Hf Heq s'.
  destruct (update_links_graph s f) as [Hp Hd]; [intros t Ht; by apply Hf|].
  assert (∀ t, t ∈ tasks s → _) as Hf'
    by exact (λ t Ht, match Hf t Ht with
                      | conj Hw (conj Hi (conj Hj _)) => conj Hw (conj Hi Hj) end).
  assert (∀ t p, t ∈ tasks s → parentId (f t) = Some p →
    ∃ u, u ∈ tasks s ∧ id u = p ∧ taskProjectId u = taskProjectId t).
  { intros t p Ht. destruct (Hf t Ht) as (_ & _ & _ & -> & _). by eapply wf_taskParent. }
  assert (∀ t d, t ∈ tasks s → d ∈ dependencyIds (f t) → d ∈ map id (tasks s)).
  { intros t d Ht. destruct (Hf t Ht) as (_ & _ & _ & _ & -> & _).
    by eapply wf_taskDependencies. }
  assert (∀ t u, t ∈ tasks s → supersedesTaskId (f t) = Some u → u ∈ map id (tasks s)).
  { intros t u Ht. destruct (Hf t Ht) as (_ & _ & _ & _ & _ & ->).
    by eapply wf_taskSupersedes. }
  assert (acyclic (parentEdge (map f (tasks s)))).
  { eapply acyclic_subrelation; [exact Hp|]. by apply wf_parentForest with mode_complete. }
  assert (acyclic (dependencyEdge (map f (tasks s)))).
  { eapply acyclic_subrelation; [exact Hd|]. by apply wf_dependencyDag with mode_complete. }
  split; [by apply update_wf|by apply replaceTasks_update].
Qed.

(** [nextTask] on a candidate that is well formed. *)
Lemma nextTask_ok task patched :
  revision task ≠ MAX_SAFE_INTEGER → task_wf (nextCandidate task patched) →
  nextTask task patched = Ok (nextCandidate task patched).
Proof.
  intros Hr Hwf. unfold nextTask. apply Z.eqb_neq in Hr. rewrite Hr. by apply parseTask_value.
Qed.

Lemma nextTask_exhausted task patched :
  revision task = MAX_SAFE_INTEGER →
  nextTask task patched =
    Err (domainError ErrorCode.REVISION_EXHAUSTED
           "Task revision cannot be incremented safely" (atTask (id task))).
Proof. intros Hr. unfold nextTask. by rewrite (proj2 (Z.eqb_eq _ _) Hr). Qed.
End updates.

(** ** One task replaced *)

Lemma elem_of_putTask t' ts x :
  x ∈ putTask t' ts ↔
  (x = t' ∧ id t' ∈ map id ts) ∨ (x ∈ ts ∧ id x ≠ id t').
Proof.
  unfold putTask. rewrite list_elem_of_fmap. split.
  - intros (t & -> & Ht). case_bool_decide as Hid; [left|by right].
    split; [done|]. rewrite <-Hid. by apply list_elem_of_fmap_2.
  - intros [[-> (t & Hid & Ht)%list_elem_of_fmap]|[Hx Hid]].
    + exists t. by rewrite bool_decide_true.
    + exists x. by rewrite bool_decide_false.
Qed.

Lemma putTask_ids t' ts : map id (putTask t' ts) = map id ts.
Proof.
  unfold putTask. apply map_keys. intros t Ht. by case_bool_decide.
Qed.

(** ** Committing one task

    The tail shared by the commands: the next revision of the task, then the
    snapshot with the task replaced.  A patch is [admissible] when the result
    is a well-formed task whose references and graphs are sound; the tail then
    succeeds and stores exactly that task. *)

Section commit.
Context `{UnicodeNormalization}.

Definition updated (s : DomainSnapshot) (t' : Task) : DomainSnapshot :=
  {| projects := projects s; tasks := putTask t' (tasks s) |}.

Record admissible (s : DomainSnapshot) (t t' : Task) : Prop := {
  ad_wf : task_wf t';
  ad_id : id t' = id t;
  ad_project : taskProjectId t' = taskProjectId t;
  ad_parent : ∀ p, parentId t' = Some p →
    ∃ u, u ∈ tasks s ∧ id u = p ∧ taskProjectId u = taskProjectId t;
  ad_dependencies : ∀ d, d ∈ dependencyIds t' → d ∈ map id (tasks s);
  ad_supersedes : ∀ u, supersedesTaskId t' = Some u → u ∈ map id (tasks s);
  ad_forest : acyclic (parentEdge (putTask t' (tasks s)));
  ad_dag : acyclic (dependencyEdge (putTask t' (tasks s)));
}.

Lemma same_task mode s t u :
  snapshot_wf mode s → t ∈ tasks s → u ∈ tasks s → id u = id t → u = t.
Proof.
  intros Hwf Ht Hu Hid. apply wf_taskIds in Hwf.
  assert (findTask (tasks s) (id t) = Some t) by by apply findTask_lookup.
  assert (findTask (tasks s) (id t) = Some u) by by apply findTask_lookup.
  congruence.
Qed.

Lemma taskById_Some mode s k t :
  snapshot_wf mode s → taskById s k = Some t ↔ t ∈ tasks s ∧ id t = k.
Proof. intros Hwf. apply findTask_lookup. by eapply wf_taskIds. Qed.

Lemma taskById_registered s k : is_Some (taskById s k) ↔ k ∈ map id (tasks s).
Proof.
  unfold taskById. rewrite <-not_eq_None_Some, findTask_None.
  split; [apply dec_stable|intros Hk Hn; by apply Hn].
Qed.

Lemma admissible_update s t t' :
  snapshot_wf mode_complete s → t ∈ tasks s → admissible s t t' →
  snapshot_wf mode_complete (updated s t') ∧
  replaceTasks s [(id t', t')] [] = Ok (updated s t').
Proof.
  intros Hwf Ht []. unfold updated, putTask.
  assert (∀ u, u ∈ tasks s →
    task_wf (if bool_decide (id u = id t') then t' else u) ∧
    id (if bool_decide (id u = id t') then t' else u) = id u ∧
    taskProjectId (if bool_decide (id u = id t') then t' else u) = taskProjectId u) as Hf.
  { intros u Hu. case_bool_decide as Hid.
    - rewrite (same_task _ s t u Hwf Ht Hu) by congruence. done.
    - split; [by eapply wf_task|done]. }
  assert (∀ u p, u ∈ tasks s →
    parentId (if bool_decide (id u = id t') then t' else u) = Some p →
    ∃ v, v ∈ tasks s ∧ id v = p ∧ taskProjectId v = taskProjectId u) as Hp.
  { intros u p Hu. case_bool_decide as Hid; [|by eapply wf_taskParent].
    rewrite (same_task _ s t u Hwf Ht Hu) by congruence. auto. }
  assert (∀ u d, u ∈ tasks s →
    d ∈ dependencyIds (if bool_decide (id u = id t') then t' else u) → d ∈ map id (tasks s)).
  { intros u d Hu. case_bool_decide; [auto|by eapply wf_taskDependencies]. }
  assert (∀ u k, u ∈ tasks s →
    supersedesTaskId (if bool_decide (id u = id t') then t' else u) = Some k →
    k ∈ map id (tasks s)).
  { intros u k Hu. case_bool_decide; [auto|by eapply wf_taskSupersedes]. }
  split; [by apply update_wf|apply replaceTasks_update; try done].
  apply applyReplacements_one.
Qed.

(** The tail of every command that changes one task. *)
Lemma commit_ok {T} s t patched (k : Task → DomainSnapshot → Parsed T) :
  snapshot_wf mode_complete s → t ∈ tasks s →
  (revision t ≠ MAX_SAFE_INTEGER → admissible s t (nextCandidate t patched)) →
  (let? changed := nextTask t patched in
   let? next := replaceTasks s [(id changed, changed)] [] in
   k changed next) =
  (if revision t =? MAX_SAFE_INTEGER
   then Err (domainError ErrorCode.REVISION_EXHAUSTED
               "Task revision cannot be incremented safely" (atTask (id t)))
   else k (nextCandidate t patched) (updated s (nextCandidate t patched))).
Proof.
  intros Hwf Ht Had. destruct (Z.eqb_spec (revision t) MAX_SAFE_INTEGER) as [Hr|Hr].
  - by rewrite nextTask_exhausted.
  - specialize (Had Hr). rewrite nextTask_ok by (done || by destruct Had). cbn [result_bind].
    by rewrite (proj2 (admissible_update s t (nextCandidate t patched) Hwf Ht Had)).
Qed.

(** ** Admissible patches *)

Lemma restamp_wf w r :
  waiting_wf w → positiveInteger r →
  waiting_wf {| waitingInput := waitingInput w; waitingTaskRevision := r |}.
Proof. by intros [] ?. Qed.

Lemma next_positive t :
  task_wf t → revision t ≠ MAX_SAFE_INTEGER → positiveInteger (revision t + 1).
Proof. intros [] ?. unfold positiveInteger in *. lia. Qed.

Lemma nextCandidate_waiting_wf t patched w :
  positiveInteger (revision t + 1) →
  (∀ w, taskWaiting patched = Some w → waiting_wf w) →
  taskWaiting (nextCandidate t patched) = Some w → waiting_wf w.
Proof.
  intros Hr Hw. simpl. destruct (taskWaiting patched) as [u|]; [|by destruct (state patched)].
  destruct (state patched); intros [= <-]; by auto using restamp_wf.
Qed.

(** The facts of a live task stay coherent at the next revision. *)
Lemma live_facts t :
  task_wf t → isTerminal (state t) = false →
  incoherentFacts (state t) (revision t + 1)
    (match state t, taskWaiting t with
     | waiting, Some w =>
         Some {| waitingInput := waitingInput w; waitingTaskRevision := revision t + 1 |}
     | _, w => w
     end) (completion t) (cancellation t) = None.
Proof.
  intros Hwf Hlive. pose proof (wf_facts _ Hwf) as Hfacts. revert Hfacts. unfold incoherentFacts.
  destruct (state t); try done;
    destruct (taskWaiting t), (completion t), (cancellation t); try done; simpl.
  by rewrite Z.eqb_refl.
Qed.
Section patches.
Context (s : DomainSnapshot) (t : Task).
Hypothesis Hs : snapshot_wf mode_complete s.
Hypothesis Ht : t ∈ tasks s.
Hypothesis Hlive : isTerminal (state t) = false.
Hypothesis Hrev : revision t ≠ MAX_SAFE_INTEGER.

Lemma patch_wf patched :
  id patched = id t → taskProjectId patched = taskProjectId t →
  state patched = state t → completion patched = completion t →
  cancellation patched = cancellation t → taskWaiting patched = taskWaiting t →
  nullableIdentifier (parentId patched) → parentId patched ≠ Some (id t) →
  Forall identifier (dependencyIds patched) → StronglySorted js_lt (dependencyIds patched) →
  id t ∉ dependencyIds patched →
  nullableIdentifier (supersedesTaskId patched) → supersedesTaskId patched ≠ Some (id t) →
  task_wf (nextCandidate t patched).
Proof.
  intros Hid Hpid Hst Hc Hx Hw ???????. assert (task_wf t) as Hwf by by eapply wf_task.
  pose proof (live_facts t Hwf Hlive) as Hfacts. pose proof (next_positive t Hwf Hrev) as Hpos.
  assert (∀ w, taskWaiting (nextCandidate t patched) = Some w → waiting_wf w).
  { intros w. apply nextCandidate_waiting_wf; [done|]. rewrite Hw. by apply wf_waiting. }
  destruct Hwf. constructor; try done; simpl; rewrite ?Hid, ?Hpid, ?Hst, ?Hc, ?Hx, ?Hw; done.
Qed.

Lemma admissible_links t' : task_wf t' → sameLinks t t' → admissible s t t'.
Proof.
  intros Hwf (Hid & Hpid & Hp & Hd & Hu).
  assert (∀ u, u ∈ tasks s → sameLinks u (if bool_decide (id u = id t') then t' else u)) as Hl.
  { intros u Hin. case_bool_decide as Hq; [|done].
    rewrite (same_task _ s t u Hs Ht Hin) by congruence. done. }
  destruct (update_links_graph s _ Hl) as [Hpe Hde].
  constructor; [done..| | | | |].
  - rewrite Hp. intros p. by eapply wf_taskParent.
  - rewrite Hd. intros d. by eapply wf_taskDependencies.
  - rewrite Hu. intros u. by eapply wf_taskSupersedes.
  - eapply acyclic_subrelation; [exact Hpe|]. by eapply wf_parentForest.
  - eapply acyclic_subrelation; [exact Hde|]. by eapply wf_dependencyDag.
Qed.

(** Edges after one task is replaced. *)
Lemma putTask_parentEdge t' x y :
  id t' = id t → parentEdge (putTask t' (tasks s)) x y →
  (x = id t ∧ parentId t' = Some y) ∨ (x ≠ id t ∧ parentEdge (tasks s) x y).
Proof.
  intros Hid (u & [[-> _]|[Hu Hn]]%elem_of_putTask & Hx & Hy); [left; by rewrite <-Hid|].
  right. split; [congruence|]. by exists u.
Qed.

Lemma putTask_dependencyEdge t' x y :
  id t' = id t → dependencyEdge (putTask t' (tasks s)) x y →
  (x = id t ∧ y ∈ dependencyIds t') ∨ (x ≠ id t ∧ dependencyEdge (tasks s) x y).
Proof.
  intros Hid (u & [[-> _]|[Hu Hn]]%elem_of_putTask & Hx & Hy); [left; by rewrite <-Hid|].
  right. split; [congruence|]. by exists u.
Qed.

Lemma admissible_parent p :
  nullableIdentifier p → p ≠ Some (id t) →
  (∀ q, p = Some q → ∃ u, u ∈ tasks s ∧ id u = q ∧ taskProjectId u = taskProjectId t ∧
     ¬ rtc (parentEdge (tasks s)) q (id t)) →
  admissible s t (nextCandidate t (withParent p t)).
Proof.
  intros Hp Hself Hreg. assert (task_wf t) as Hwf by by eapply wf_task.
  assert (task_wf (nextCandidate t (withParent p t))) by (destruct Hwf; by apply patch_wf).
  constructor; simpl; [done..| | | | |].
  - intros q Hq. destruct (Hreg q Hq) as (u & ? & ? & ? & _). eauto.
  - intros d. by eapply wf_taskDependencies.
  - intros u. by eapply wf_taskSupersedes.
  - destruct p as [q|].
    + destruct (Hreg q eq_refl) as (_ & _ & _ & _ & Hr).
      eapply (acyclic_add_edge _ _ (id t) q); [by eapply wf_parentForest|done|].
      intros x y [[-> [= ->]]|[_ ?]]%putTask_parentEdge; auto.
    + eapply acyclic_subrelation; [|by eapply wf_parentForest].
      intros x y [[_ ?]|[_ ?]]%putTask_parentEdge; done.
  - eapply acyclic_subrelation; [|by eapply wf_dependencyDag].
    intros x y [[-> ?]|[_ ?]]%putTask_dependencyEdge; [by exists t|done|done].
Qed.

Lemma admissible_dependencies ids :
  Forall identifier ids → StronglySorted js_lt ids → id t ∉ ids →
  (∀ d, d ∈ ids → d ∈ map id (tasks s)) →
  acyclic (dependencyEdge (putTask (nextCandidate t (withDependencies ids t)) (tasks s))) →
  admissible s t (nextCandidate t (withDependencies ids t)).
Proof.
  intros ? ? ? ? Hdag. assert (task_wf t) as Hwf by by eapply wf_task.
  assert (task_wf (nextCandidate t (withDependencies ids t))) by (destruct Hwf; by apply patch_wf).
  constructor; simpl; try done.
  - intros p. by eapply wf_taskParent.
  - intros u. by eapply wf_taskSupersedes.
  - eapply acyclic_subrelation; [|by eapply wf_parentForest].
    intros x y [[-> ?]|[_ ?]]%putTask_parentEdge; [by exists t|done|done].
Qed.

Lemma admissible_supersedes u :
  nullableIdentifier u → u ≠ Some (id t) →
  (∀ k, u = Some k → k ∈ map id (tasks s)) →
  admissible s t (nextCandidate t (withSupersedes u t)).
Proof.
  intros ? ? ?. assert (task_wf t) as Hwf by by eapply wf_task.
  assert (task_wf (nextCandidate t (withSupersedes u t))) by (destruct Hwf; by apply patch_wf).
  constructor; simpl; try done.
  - intros p. by eapply wf_taskParent.
  - intros d. by eapply wf_taskDependencies.
  - eapply acyclic_subrelation; [|by eapply wf_parentForest].
    intros x y [[-> ?]|[_ ?]]%putTask_parentEdge; [by exists t|done|done].
  - eapply acyclic_subrelation; [|by eapply wf_dependencyDag].
    intros x y [[-> ?]|[_ ?]]%putTask_dependencyEdge; [by exists t|done|done].
Qed.
End patches.
End commit.
