(* ===== verification/DomainSpec.v ===== *)
(** * The task graph as an abstract machine

    What the domain core promises, without parsing, re-validation or JavaScript
    values: the actions, when each is allowed (stated on the graph itself:
    reachability, membership, states of dependencies) and the one result it
    has.  DomainRefinement.v shows that the commands of the code implement it;
    DomainMachine.v proves its invariants. *)

From S2P Require Import Prelude JsValue UnicodeText DomainModel DomainParse DomainGraph DomainSnapshot DomainCommands DomainTransition DomainUpdate.

(** ** Conditions on the graph *)

(** The project of the task is registered and enabled. *)
Definition projectOpen (s : DomainSnapshot) (t : Task) : Prop :=
  ∃ p, projectById s (taskProjectId t) = Some p ∧ enabled p = true.

Definition dependenciesCompleted (s : DomainSnapshot) (t : Task) : Prop :=
  ∀ d, d ∈ dependencyIds t → ∃ u, taskById s d = Some u ∧ state u = completed.

Definition someDependencyCancelled (s : DomainSnapshot) (t : Task) : Prop :=
  ∃ d u, d ∈ dependencyIds t ∧ taskById s d = Some u ∧ state u = cancelled.

(** A task that may be handed out. *)
Definition claimable (s : DomainSnapshot) (t : Task) : Prop :=
  state t = ready ∧ projectOpen s t ∧ dependenciesCompleted s t.

(** A recorded identity that is absent, or the one named by the command. *)
Definition identityMatches (recorded target : option JsString) : Prop :=
  recorded = None ∨ recorded = target.

(** A waiting task that may go back to [running] under the command. *)
Record continuable (s : DomainSnapshot) (t : Task) (c : WaitingContinuationCommand) : Prop := {
  cont_state : state t = waiting;
  cont_waiting : ∃ m, taskWaiting t = Some m ∧
    let w := waitingInput m in
    let receipt := requiredActionReceipt c in
    revision t = expectedTaskRevision c ∧
    waitingTaskRevision m = expectedTaskRevision c ∧
    receiptTaskId receipt = id t ∧
    receiptTaskRevision receipt = expectedTaskRevision c ∧
    receiptRequiredAction receipt = requiredAction w ∧
    identityMatches (executionId w) (targetExecutionId c) ∧
    identityMatches (workspaceRevision w) (targetWorkspaceRevision c) ∧
    identityMatches (backendThreadId w) (targetBackendThreadId c) ∧
    match kind c with
    | resume => executionId w ≠ None
    | retry => retryable w = true ∧ ∀ time, retryAfter w = Some time → time ≤ trustedTime c
    end;
  cont_project : projectOpen s t;
  cont_dependencies : dependenciesCompleted s t;
}.

(** ** Actions *)

(** The moves of a task along [TASK_TRANSITIONS], with what each one carries
    once its payload has been accepted. *)
Inductive TaskMove : Type :=
  | MarkReady
  | ClaimAccepted
  | DependencyCancelled (w : WaitingMetadataInput)
  | ExecutionWait (w : WaitingMetadataInput)
  | CompletionAccepted (decision : JsString)
  | Continue (command : WaitingContinuationCommand)
  | Cancel (text : JsString) (verification : option JsString)
      (dependents : list DependentWaitingInput)
  | InterruptionVerified (text : JsString) (verification : JsString)
      (dependents : list DependentWaitingInput).

Inductive TaskAction : Type :=
  | CreateTask (newId pid newBody : JsString) (superseded : option JsString)
  | UpdateTaskBody (tid newBody : JsString)
  | UpdateTaskWaiting (tid : JsString) (w : WaitingMetadataInput)
  | SetTaskParent (tid : JsString) (parent : option JsString)
  | AddTaskDependency (tid did : JsString)
  | RemoveTaskDependency (tid did : JsString)
  | SetTaskSupersession (tid : JsString) (superseded : option JsString)
  | Move (tid : JsString) (m : TaskMove).

Inductive ProjectAction : Type :=
  | RegisterProject (pid : JsString)
  | SetProjectEnabled (pid : JsString) (newEnabled : bool).

Definition moveEvent (m : TaskMove) : TaskTransitionEvent :=
  match m with
  | MarkReady => mark_ready
  | ClaimAccepted => claim_accepted
  | DependencyCancelled _ => dependency_cancelled
  | ExecutionWait _ => execution_wait
  | CompletionAccepted _ => completion_accepted
  | Continue command =>
      match kind command with resume => resume_accepted | retry => retry_accepted end
  | Cancel _ _ _ => cancel
  | InterruptionVerified _ _ _ => interruption_verified
  end.

Definition moveTarget (m : TaskMove) : TaskState :=
  match m with
  | MarkReady => ready
  | ClaimAccepted => running
  | DependencyCancelled _ => waiting
  | ExecutionWait _ => waiting
  | CompletionAccepted _ => completed
  | Continue _ => running
  | Cancel _ _ _ => cancelled
  | InterruptionVerified _ _ _ => cancelled
  end.

(** ** Results *)

(** The task at its next revision: the patch with the revision advanced, and
    waiting facts stamped with the new revision. *)
Definition restampedWaiting (w : WaitingMetadataInput) (t : Task) : WaitingMetadata :=
  {| waitingInput := w; waitingTaskRevision := revision t + 1 |}.

(** One task replaced and one event about it. *)
Definition taskChange (s : DomainSnapshot) (t t' : Task) (type : DomainEventType)
    (details : Details) : DomainSuccess DomainMutation :=
  {| value := {| snapshot := updated s t'; changedTaskIds := [id t] |};
     events := [event type (id t) (Some (revision t)) (revision t + 1) details] |}.

(** What an accepted move stores in the task. *)
Definition movePatch (m : TaskMove) (t : Task) : Task :=
  withState (moveTarget m)
    (match m with
     | DependencyCancelled w | ExecutionWait w => withWaiting (Some (restampedWaiting w t)) t
     | CompletionAccepted decision =>
         withCompletion (Some {| decisionId := decision; completionTaskRevision := revision t |}) t
     | Continue _ => withWaiting None t
     | Cancel text verification _ =>
         withWaiting None (withCompletion None (withCancellation
           (Some {| cancellationEvent := ce_cancel; cancellationReason := text;
                    verificationId := verification; cancellationTaskRevision := revision t |}) t))
     | InterruptionVerified text verification _ =>
         withWaiting None (withCompletion None (withCancellation
           (Some {| cancellationEvent := ce_interruption_verified; cancellationReason := text;
                    verificationId := Some verification;
                    cancellationTaskRevision := revision t |}) t))
     | _ => t
     end).

Definition moved (m : TaskMove) (t : Task) : Task := nextCandidate t (movePatch m t).

(** A ready dependent of a cancelled task, put in [waiting]. *)
Definition suspended (w : WaitingMetadataInput) (t : Task) : Task :=
  nextCandidate t (withState waiting (withWaiting (Some (restampedWaiting w t)) t)).

Definition moveDependents (m : TaskMove) : list DependentWaitingInput :=
  match m with
  | Cancel _ _ dependents | InterruptionVerified _ _ dependents => dependents
  | _ => []
  end.

(** What becomes of each task under a move of [t]. *)
Definition afterMove (m : TaskMove) (t : Task) (u : Task) : Task :=
  if bool_decide (id u = id t) then moved m t
  else match List.find (λ i, bool_decide (dependentTaskId i = id u)) (moveDependents m) with
       | Some i => suspended (dependentWaiting i) u
       | None => u
       end.

Definition moveEvents (s : DomainSnapshot) (m : TaskMove) (t : Task) : list DomainEvent :=
  event task_transitioned (id t) (Some (revision t)) (revision t + 1)
    (transitionDetails (moveEvent m) (state t) (moveTarget m)) ::
  match moveTarget m with
  | cancelled =>
      map (λ u, event task_transitioned (id u) (Some (revision u)) (revision u + 1)
                  (transitionDetails dependency_cancelled ready waiting))
        (readyDirectDependents s (id t))
  | _ => []
  end.

Definition moveResult (s : DomainSnapshot) (m : TaskMove) (t : Task)
    : DomainSuccess DomainMutation :=
  {| value :=
       {| snapshot := {| projects := projects s; tasks := map (afterMove m t) (tasks s) |};
          changedTaskIds := sortByKey (λ k, k) (id t :: map dependentTaskId (moveDependents m)) |};
     events := moveEvents s m t |}.

(** ** When a move is allowed *)

(** The dependents a cancellation names are exactly the ready tasks that
    depend on it directly, each with a [dependency_cancelled] waiting. *)
Record dependentsCovered (s : DomainSnapshot) (t : Task)
    (dependents : list DependentWaitingInput) : Prop := {
  cover_ids : map dependentTaskId dependents = map id (readyDirectDependents s (id t));
  cover_reasons : Forall (λ i, reason (dependentWaiting i) = wr_dependency_cancelled) dependents;
  cover_wf : Forall (λ i, waitingInput_wf (dependentWaiting i)) dependents;
  cover_revisions :
    Forall (λ u, revision u ≠ MAX_SAFE_INTEGER) (readyDirectDependents s (id t));
}.

Section allowed.
Context `{UnicodeNormalization}.

Definition moveAllowed (s : DomainSnapshot) (t : Task) (m : TaskMove) : Prop :=
  match m with
  | MarkReady => state t = idea ∧ projectOpen s t ∧ ¬ someDependencyCancelled s t
  | ClaimAccepted => claimable s t
  | DependencyCancelled w =>
      state t = ready ∧ someDependencyCancelled s t ∧ waitingInput_wf w ∧
      reason w = wr_dependency_cancelled
  | ExecutionWait w => state t = running ∧ waitingInput_wf w
  | CompletionAccepted decision => state t = running ∧ identifier decision
  | Continue command => continuable s t command
  | Cancel text verification dependents =>
      (state t = idea ∨ state t = ready ∨ state t = waiting) ∧
      canonicalReasonText text = true ∧ nullableIdentifier verification ∧
      (* a verified stop is recorded exactly for a waiting task with an execution *)
      (is_Some verification ↔
         state t = waiting ∧ ∃ w, taskWaiting t = Some w ∧ executionId (waitingInput w) ≠ None)
  | InterruptionVerified text verification dependents =>
      state t = running ∧ canonicalReasonText text = true ∧ identifier verification
  end.

(** ** Steps *)

Definition mutable (s : DomainSnapshot) (t : Task) : Prop :=
  t ∈ tasks s ∧ isTerminal (state t) = false ∧ revision t ≠ MAX_SAFE_INTEGER.

Definition newTask (newId pid newBody : JsString) (superseded : option JsString) : Task :=
  {| id := newId; taskProjectId := pid; state := idea; revision := 1; body := newBody;
     parentId := None; dependencyIds := []; taskWaiting := None; completion := None;
     cancellation := None; supersedesTaskId := superseded |}.

Definition addTask (s : DomainSnapshot) (t : Task) : DomainSnapshot :=
  {| projects := projects s; tasks := sortByKey id (tasks s ++ [t]) |}.

(** [taskStep s action result]: the action is allowed in [s] and has that
    result. *)
Inductive taskStep (s : DomainSnapshot) : TaskAction → DomainSuccess DomainMutation → Prop :=
  | step_create newId pid newBody superseded :
      identifier newId → newId ∉ map id (tasks s) → pid ∈ map projectId (projects s) →
      superseded ≠ Some newId → nullableIdentifier superseded →
      (∀ k, superseded = Some k → k ∈ map id (tasks s)) →
      taskStep s (CreateTask newId pid newBody superseded)
        {| value := {| snapshot := addTask s (newTask newId pid newBody superseded);
                       changedTaskIds := [newId] |};
           events := [event task_created newId None 1 []] |}
  | step_body t newBody :
      mutable s t → body t ≠ newBody →
      taskStep s (UpdateTaskBody (id t) newBody)
        (taskChange s t (nextCandidate t (withBody newBody t)) task_body_changed [])
  | step_waiting t w current :
      mutable s t → state t = waiting → taskWaiting t = Some current →
      waitingInput_wf w → waitingInput current ≠ w →
      taskStep s (UpdateTaskWaiting (id t) w)
        (taskChange s t (nextCandidate t (withWaiting (Some (restampedWaiting w t)) t))
           task_waiting_changed
           [("waitingReason", DetailString (js (WaitingReason_name (reason w))));
            ("requiredAction", DetailString (requiredAction w))])
  | step_parent t parent :
      mutable s t → isGraphMutable (state t) = true → parentId t ≠ parent →
      parent ≠ Some (id t) → nullableIdentifier parent →
      (∀ p, parent = Some p → ∃ u, u ∈ tasks s ∧ id u = p ∧
         taskProjectId u = taskProjectId t ∧ ¬ rtc (parentEdge (tasks s)) p (id t)) →
      taskStep s (SetTaskParent (id t) parent)
        (taskChange s t (nextCandidate t (withParent parent t)) task_parent_changed
           [("parentId", detailNullable parent)])
  | step_dependency_add t d :
      mutable s t → isGraphMutable (state t) = true → d ∈ map id (tasks s) →
      d ≠ id t → d ∉ dependencyIds t →
      ¬ rtc (dependencyEdge (tasks s)) d (id t) →
      taskStep s (AddTaskDependency (id t) d)
        (taskChange s t
           (nextCandidate t (withDependencies (sortByKey (λ k, k) (dependencyIds t ++ [d])) t))
           task_dependency_added [("dependencyId", DetailString d)])
  | step_dependency_remove t d :
      mutable s t → isGraphMutable (state t) = true → d ∈ dependencyIds t →
      taskStep s (RemoveTaskDependency (id t) d)
        (taskChange s t
           (nextCandidate t
              (withDependencies
                 (List.filter (λ k, negb (bool_decide (k = d))) (dependencyIds t)) t))
           task_dependency_removed [("dependencyId", DetailString d)])
  | step_supersession t superseded :
      mutable s t → supersedesTaskId t ≠ superseded → superseded ≠ Some (id t) →
      nullableIdentifier superseded →
      (∀ k, superseded = Some k → k ∈ map id (tasks s)) →
      taskStep s (SetTaskSupersession (id t) superseded)
        (taskChange s t (nextCandidate t (withSupersedes superseded t))
           task_supersession_changed [("supersedesTaskId", detailNullable superseded)])
  | step_move t m :
      mutable s t → moveAllowed s t m →
      (moveTarget m = cancelled → dependentsCovered s t (moveDependents m)) →
      taskStep s (Move (id t) m) (moveResult s m t).

Definition enableProject (pid : JsString) (b : bool) (p : Project) : Project :=
  if bool_decide (projectId p = pid) then {| projectId := pid; enabled := b |} else p.

Inductive projectStep (s : DomainSnapshot) : ProjectAction → DomainSnapshot → Prop :=
  | step_register pid :
      identifier pid → pid ∉ map projectId (projects s) →
      projectStep s (RegisterProject pid)
        {| projects := sortByKey projectId
                         (projects s ++ [{| projectId := pid; enabled := true |}]);
           tasks := tasks s |}
  | step_enable p newEnabled :
      p ∈ projects s → enabled p ≠ newEnabled →
      projectStep s (SetProjectEnabled (projectId p) newEnabled)
        {| projects := map (enableProject (projectId p) newEnabled) (projects s);
           tasks := tasks s |}.
End allowed.
