(* ===== verification/DomainRefinement.v ===== *)
(** * The commands implement the abstract machine

    For every snapshot value and command value, a command of domain.ts succeeds
    exactly when the snapshot parses, the command reads as an action, and the
    action is a step of DomainSpec.v; its result is the result of the step. *)

From S2P Require Import Prelude JsValue UnicodeText DomainModel DomainParse DomainGraph DomainSnapshot DomainCommands DomainTransition DomainUpdate DomainSpec.

Import ErrorCode.

(** ** Reading commands *)

Definition readFields {T} (keys : list string) (read : list (JsString * JsValue) → option T)
    (value : JsValue) : option T :=
  record ← readExactRecord value keys; read record.

Definition readBodyCommand : JsValue → option (JsString * JsString) :=
  readFields ["taskId"; "body"] (λ record,
    taskId ← isIdentifier (field record "taskId");
    newBody ← asString (field record "body"); Some (taskId, newBody)).

Definition readParentCommand : JsValue → option (JsString * option JsString) :=
  readFields ["taskId"; "parentId"] (λ record,
    taskId ← isIdentifier (field record "taskId");
    parent ← isNullableIdentifier (field record "parentId"); Some (taskId, parent)).

Definition readDependencyCommand : JsValue → option (JsString * JsString) :=
  readFields ["taskId"; "dependencyId"] (λ record,
    taskId ← isIdentifier (field record "taskId");
    dependencyId ← isIdentifier (field record "dependencyId"); Some (taskId, dependencyId)).

Definition readSupersessionCommand : JsValue → option (JsString * option JsString) :=
  readFields ["taskId"; "supersedesTaskId"] (λ record,
    taskId ← isIdentifier (field record "taskId");
    superseded ← isNullableIdentifier (field record "supersedesTaskId");
    Some (taskId, superseded)).

Definition readWaitingCommand : JsValue → option (JsString * WaitingMetadataInput) :=
  readFields ["taskId"; "waiting"] (λ record,
    taskId ← isIdentifier (field record "taskId");
    match parseWaitingInput (field record "waiting")
            (js "task:" ++ taskId ++ js ".waiting") with
    | Ok w => Some (taskId, w)
    | Err _ => None
    end).

Definition readCreateCommand
    : JsValue → option (JsString * JsString * JsString * option JsString) :=
  readFields ["id"; "projectId"; "body"; "supersedesTaskId"] (λ record,
    newId ← isIdentifier (field record "id");
    pid ← isIdentifier (field record "projectId");
    newBody ← asString (field record "body");
    superseded ← isNullableIdentifier (field record "supersedesTaskId");
    Some (newId, pid, newBody, superseded)).

Definition readRegistration : JsValue → option JsString :=
  readFields ["projectId"] (λ record, isIdentifier (field record "projectId")).

Definition readEnablement : JsValue → option (JsString * bool) :=
  readFields ["projectId"; "enabled"] (λ record,
    pid ← isIdentifier (field record "projectId");
    newEnabled ← isBoolean (field record "enabled"); Some (pid, newEnabled)).

(** Both halves of a command: the shape, then the fields. *)
Lemma readFields_ok {T E} keys (read : list (JsString * JsValue) → option T) value x (e1 e2 : E) :
  (let? record := ok_or (readExactRecord value keys) e1 in ok_or (read record) e2) = Ok x ↔
  readFields keys read value = Some x.
Proof.
  unfold readFields. destruct (readExactRecord value keys) as [record|]; simpl; [|naive_solver].
  destruct (read record); naive_solver.
Qed.

Lemma readFields_some {T} keys (read : list (JsString * JsValue) → option T) value x :
  readFields keys read value = Some x ↔
  ∃ record, readExactRecord value keys = Some record ∧ read record = Some x.
Proof. unfold readFields. by rewrite bind_Some. Qed.

Lemma filter_sorted {A} (R : relation A) (f : A → bool) l :
  StronglySorted R l → StronglySorted R (List.filter f l).
Proof.
  induction 1 as [|x l Hl IH Hx]; simpl; [constructor|].
  destruct (f x); [|done]. constructor; [done|]. rewrite Forall_forall in *.
  intros y Hy%list_elem_of_In. apply filter_In in Hy as [Hy%list_elem_of_In _]. auto.
Qed.

Section refinement.
Context `{UnicodeNormalization}.

Lemma requireMutableTask_ok mode s k t :
  snapshot_wf mode s →
  requireMutableTask s k = Ok t ↔ t ∈ tasks s ∧ id t = k ∧ isTerminal (state t) = false.
Proof.
  intros Hwf. unfold requireMutableTask. rewrite result_bind_ok.
  setoid_rewrite ok_or_ok. setoid_rewrite guard_ok. split.
  - intros (u & (Hu & Hid)%(taskById_Some _ _ _ _ Hwf) & Hn%negb_true_iff & [= <-]). done.
  - intros (Ht & Hid & Hn). exists t. rewrite Hn. split; [|done].
    by apply (taskById_Some _ _ _ _ Hwf).
Qed.

(** The tail of a command on one task, as the result of a step. *)
Lemma commit_change s t patched type details :
  snapshot_wf mode_complete s → t ∈ tasks s →
  (revision t ≠ MAX_SAFE_INTEGER → admissible s t (nextCandidate t patched)) →
  ∀ r : DomainSuccess DomainMutation,
  (let? changed := nextTask t patched in
   let? next := replaceTasks s [(id changed, changed)] [] in
   mutation next [id changed]
     [event type (id changed) (Some (revision t)) (revision changed) (details changed)]) = Ok r ↔
  revision t ≠ MAX_SAFE_INTEGER ∧ id patched = id t ∧
  r = taskChange s t (nextCandidate t patched) type (details (nextCandidate t patched)).
Proof.
  intros Hwf Ht Had r.
  rewrite (commit_ok s t patched (λ changed next, mutation next [id changed]
    [event type (id changed) (Some (revision t)) (revision changed) (details changed)])) by done.
  destruct (Z.eqb_spec (revision t) MAX_SAFE_INTEGER) as [Hr|Hr]; [naive_solver|].
  destruct (Had Hr) as [_ Hid _ _ _ _ _ _]. simpl in Hid.
  unfold mutation, taskChange. simpl. rewrite Hid. naive_solver.
Qed.

Lemma patch_body_admissible s t newBody :
  snapshot_wf mode_complete s → t ∈ tasks s → isTerminal (state t) = false →
  revision t ≠ MAX_SAFE_INTEGER → admissible s t (nextCandidate t (withBody newBody t)).
Proof.
  intros Hs Ht Hl Hr. apply admissible_links; [done..| |done].
  pose proof (wf_task _ _ _ Hs Ht) as []. by eapply patch_wf.
Qed.

End refinement.

(** [inv_guards]: peel what runs before the commit.  [run_guards]: run it. *)
Ltac inv_guards :=
  repeat match goal with
  | H : result_bind ?m _ = Ok _ |- _ =>
      lazymatch m with
      | nextTask _ _ => fail
      | _ => apply result_bind_ok in H; destruct H as (? & ? & H); cbv beta iota in H
      end
  | H : ok_or _ _ = Ok _ |- _ => apply ok_or_ok in H
  | H : (if _ then _ else Err _) = Ok _ |- _ => apply guard_ok in H; destruct H as [? H]
  | H : parseSnapshot _ mode_complete = Ok ?s |- _ =>
      lazymatch goal with
      | _ : snapshot_wf mode_complete s |- _ => fail
      | _ => pose proof (parseSnapshot_sound _ _ _ H)
      end
  | Hs : snapshot_wf mode_complete ?s, H : requireMutableTask ?s _ = Ok _ |- _ =>
      apply (requireMutableTask_ok _ _ _ _ Hs) in H; destruct H as (? & <- & ?)
  | H : (_ * _)%type |- _ => destruct H
  | H : unit |- _ => destruct H
  end; inv_bool.

Ltac solve_guard :=
  repeat match goal with
  | |- _ && _ = true => apply andb_true_intro; split
  | |- negb _ = true => apply negb_true_iff
  | |- bool_decide _ = true => apply bool_decide_eq_true
  | |- bool_decide _ = false => apply bool_decide_eq_false
  end.

Ltac run_guards :=
  repeat match goal with
  | |- result_bind ?m _ = Ok _ =>
      lazymatch m with
      | nextTask _ _ => fail
      | _ => apply result_bind_ok; eexists; split;
             [first [eassumption | apply ok_or_ok; eassumption
                    | eapply requireMutableTask_ok; [eassumption|by eauto]]
             |cbv beta iota]
      end
  | |- (if _ then _ else Err _) = Ok _ =>
      apply guard_ok; split; [solve_guard; first [eassumption | done | congruence]|]
  end.

Section commands.
Context `{UnicodeNormalization}.

Theorem updateTaskBody_refines v c r :
  updateTaskBody v c = Ok r ↔
  ∃ s tid newBody, parseSnapshot v mode_complete = Ok s ∧
    readBodyCommand c = Some (tid, newBody) ∧ taskStep s (UpdateTaskBody tid newBody) r.
Proof.
  unfold updateTaskBody, guardPublicResult, parseTaskCommand. split.
  - intros Hr. inv_guards. eapply (commit_change _ _ _ _ (λ _, [])) in Hr as (Hrev & _ & ->);
      eauto using patch_body_admissible.
    do 3 eexists. split; [eassumption|]. split; [by apply readFields_some; eauto|].
    by apply step_body.
  - intros (s & tid & newBody & Hp & (record & Hrec & Hread)%readFields_some & Hstep).
    pose proof (parseSnapshot_sound _ _ _ Hp) as Hs.
    inversion Hstep as [|t nb [Ht [Hl Hrev]]| | | | | |]; subst. run_guards.
    eapply (commit_change _ _ _ _ (λ _, [])); eauto using patch_body_admissible.
Qed.
Lemma sameWaitingInput_spec current w :
  sameWaitingInput current w = false ↔ waitingInput current ≠ w.
Proof.
  rewrite <-not_true_iff_false. f_equiv. unfold sameWaitingInput.
  rewrite !andb_true_iff, !bool_decide_eq_true.
  destruct current as [[] r], w; simpl. split; [by intros H'; destruct_and!; subst|].
  intros [= -> -> -> -> -> -> -> -> -> -> ->]. done.
Qed.

Lemma patch_waiting_admissible s t w :
  snapshot_wf mode_complete s → t ∈ tasks s → state t = waiting → revision t ≠ MAX_SAFE_INTEGER →
  waitingInput_wf w → ∀ z,
  nextCandidate t (withWaiting (Some {| waitingInput := w; waitingTaskRevision := z |}) t) =
    nextCandidate t (withWaiting (Some (restampedWaiting w t)) t) ∧
  admissible s t (nextCandidate t (withWaiting (Some (restampedWaiting w t)) t)).
Proof.
  intros Hs Ht Hst Hr Hw z. split; [unfold nextCandidate; simpl; by rewrite Hst|].
  apply admissible_links; [done..| |done].
  pose proof (wf_task _ _ _ Hs Ht) as Hwf. pose proof (next_positive t Hwf Hr) as Hpos.
  pose proof (wf_facts _ Hwf) as Hfacts.
  destruct Hwf; constructor; try done; simpl; rewrite ?Hst; simpl in *; try done.
  - intros u [= <-]. by constructor.
  - rewrite Hst in Hfacts. simpl in *. revert Hfacts.
    destruct (taskWaiting t), (completion t), (cancellation t); try done.
    by rewrite Z.eqb_refl.
Qed.

(** The details of a [task_waiting_changed] event. *)
Definition waitingDetails (changed : Task) : Details :=
  [("waitingReason",
    detailNullable ((λ w, js (WaitingReason_name (reason (waitingInput w))))
                      <$> taskWaiting changed));
   ("requiredAction",
    detailNullable ((λ w, requiredAction (waitingInput w)) <$> taskWaiting changed))].

Lemma commit_waiting s t w r :
  snapshot_wf mode_complete s → t ∈ tasks s → state t = waiting → waitingInput_wf w →
  (let? changed := nextTask t
     (withWaiting (Some {| waitingInput := w; waitingTaskRevision := revision t |}) t) in
   let? next := replaceTasks s [(id changed, changed)] [] in
   mutation next [id changed]
     [event task_waiting_changed (id changed) (Some (revision t)) (revision changed)
        (waitingDetails changed)]) = Ok r ↔
  revision t ≠ MAX_SAFE_INTEGER ∧
  r = taskChange s t (nextCandidate t (withWaiting (Some (restampedWaiting w t)) t))
        task_waiting_changed
        [("waitingReason", DetailString (js (WaitingReason_name (reason w))));
         ("requiredAction", DetailString (requiredAction w))].
Proof.
  intros Hs Ht Hst Hw. rewrite commit_change; [|done..|].
  2: { intros Hr. destruct (patch_waiting_admissible s t w Hs Ht Hst Hr Hw (revision t)) as [Heq ?].
       by rewrite Heq. }
  assert (nextCandidate t
    (withWaiting (Some {| waitingInput := w; waitingTaskRevision := revision t |}) t) =
    nextCandidate t (withWaiting (Some (restampedWaiting w t)) t)) as ->.
  { unfold nextCandidate; simpl; by rewrite Hst. }
  assert (waitingDetails (nextCandidate t (withWaiting (Some (restampedWaiting w t)) t)) =
    [("waitingReason", DetailString (js (WaitingReason_name (reason w))));
     ("requiredAction", DetailString (requiredAction w))]) as ->.
  { unfold waitingDetails, nextCandidate; simpl. by rewrite Hst. }
  naive_solver.
Qed.

Theorem updateTaskWaiting_refines v c r :
  updateTaskWaiting v c = Ok r ↔
  ∃ s tid w, parseSnapshot v mode_complete = Ok s ∧
    readWaitingCommand c = Some (tid, w) ∧ taskStep s (UpdateTaskWaiting tid w) r.
Proof.
  unfold updateTaskWaiting, guardPublicResult, parseTaskCommand. split.
  - intros Hr. inv_guards.
    destruct (state _) eqn:Hst; try done. destruct (taskWaiting _) as [current|] eqn:Hcur; [|done].
    inv_guards.
    match goal with Hw : sameWaitingInput _ _ = false |- _ => apply sameWaitingInput_spec in Hw end.
    pose proof (parseWaitingInput_sound _ _ _ ltac:(eassumption)) as Hw.
    apply commit_waiting in Hr as [? ->]; [|done..].
    do 3 eexists. split; [eassumption|]. split; [|].
    + apply readFields_some. eexists. split; [eassumption|].
      apply bind_Some. eexists. split; [eassumption|].
      match goal with Hpw : parseWaitingInput _ _ = Ok _ |- _ => by rewrite Hpw end.
    + eapply step_waiting; try done. split; [done|]. by rewrite Hst.
  - intros (s & tid & w & Hp & (record & Hrec & Hread)%readFields_some & Hstep).
    pose proof (parseSnapshot_sound _ _ _ Hp) as Hs.
    apply bind_Some in Hread as (k & Hk & Hread).
    destruct (parseWaitingInput _ _) as [w'|] eqn:Hpw; [|done]. simplify_eq.
    inversion Hstep as [| |t ? current [Ht [Hl Hrev]] Hst Hcur Hw Hne| | | | |]; subst.
    run_guards. rewrite Hst, Hcur.
    apply result_bind_ok; eexists; split; [eassumption|].
    apply guard_ok; split; [by apply negb_true_iff, sameWaitingInput_spec|].
    by apply commit_waiting.
Qed.
Lemma nullable_field a b (k : JsString) o :
  (taskId ← isIdentifier a; p ← isNullableIdentifier b; Some (taskId, p)) = Some (k, o) →
  nullableIdentifier o.
Proof.
  intros (? & _ & (? & Hn & ?)%bind_Some)%bind_Some. simplify_eq.
  by apply isNullableIdentifier_ok in Hn as [_ ?].
Qed.

Lemma parent_checks s t parent :
  snapshot_wf mode_complete s → t ∈ tasks s →
  match parent with
  | None => Ok tt
  | Some p =>
      let? u := ok_or (taskById s p)
        (domainError PARENT_NOT_FOUND "Proposed parent is not registered"
           [("parentId", DetailString p)]) in
      guard? bool_decide (taskProjectId u = taskProjectId t)
        else domainError PARENT_PROJECT_MISMATCH "Parent and child must share a Project"
               (atTask (id t)) in
      guard? negb (proposedParentCycles s (id t) u)
        else domainError PARENT_CYCLE "Proposed parent creates a cycle" (atTask (id t)) in
      Ok tt
  end = Ok tt ↔
  (∀ p, parent = Some p → ∃ u, u ∈ tasks s ∧ id u = p ∧
     taskProjectId u = taskProjectId t ∧ ¬ rtc (parentEdge (tasks s)) p (id t)).
Proof.
  intros Hs Ht. destruct parent as [p|]; [|naive_solver].
  pose proof (λ u q, wf_parentRegistered _ _ u q Hs) as Hreg.
  rewrite result_bind_ok. setoid_rewrite ok_or_ok. setoid_rewrite guard_ok.
  setoid_rewrite guard_ok. split.
  - intros (u & Hu & Hproj & Hcyc & _) ? [= <-].
    apply (taskById_Some _ _ _ _ Hs) in Hu as [Hu <-]. inv_bool.
    exists u. split_and!; try done. intros Hr.
    apply (proposedParentCycles_spec s (id t) (wf_taskIds _ _ Hs) Hreg u Hu) in Hr. congruence.
  - intros Hall. destruct (Hall p eq_refl) as (u & Hu & <- & Hproj & Hr).
    exists u. split; [by apply (taskById_Some _ _ _ _ Hs)|].
    split; [by apply bool_decide_eq_true|]. split; [|done]. apply negb_true_iff.
    apply not_true_iff_false. intros Hc. apply Hr.
    by apply (proposedParentCycles_spec s (id t) (wf_taskIds _ _ Hs) Hreg u Hu).
Qed.

Theorem setTaskParent_refines v c r :
  setTaskParent v c = Ok r ↔
  ∃ s tid parent, parseSnapshot v mode_complete = Ok s ∧
    readParentCommand c = Some (tid, parent) ∧ taskStep s (SetTaskParent tid parent) r.
Proof.
  unfold setTaskParent, guardPublicResult, parseTaskCommand. split.
  - intros Hr. inv_guards.
    match goal with Hs : snapshot_wf _ ?s, Ht : ?t ∈ tasks ?s, Hc : _ = Ok tt |- _ =>
      pose proof (proj1 (parent_checks _ _ _ Hs Ht) Hc) end.
    match goal with Hf : _ = Some (_, _) |- _ => apply nullable_field in Hf as Hn end.
    eapply (commit_change _ _ _ _ (λ u, [("parentId", detailNullable (parentId u))]))
      in Hr as (Hrev & _ & ->); eauto using admissible_parent.
    do 3 eexists. split; [eassumption|]. split; [by apply readFields_some; eauto|].
    by apply step_parent.
  - intros (s & tid & parent & Hp & (record & Hrec & Hread)%readFields_some & Hstep).
    pose proof (parseSnapshot_sound _ _ _ Hp) as Hs.
    inversion Hstep as [| | |t ? [Ht [Hl Hrev]]| | | |]; subst. run_guards.
    apply result_bind_ok; exists tt; split; [by apply parent_checks|].
    eapply (commit_change _ _ _ _ (λ u, [("parentId", detailNullable (parentId u))]));
      eauto using admissible_parent.
Qed.

Theorem setTaskSupersession_refines v c r :
  setTaskSupersession v c = Ok r ↔
  ∃ s tid superseded, parseSnapshot v mode_complete = Ok s ∧
    readSupersessionCommand c = Some (tid, superseded) ∧
    taskStep s (SetTaskSupersession tid superseded) r.
Proof.
  unfold setTaskSupersession, guardPublicResult, parseTaskCommand. split.
  - intros Hr. inv_guards.
    match goal with Hf : _ = Some (_, ?o) |- _ =>
      apply nullable_field in Hf as Hn;
      assert (∀ k, o = Some k → k ∈ map id (tasks x)) by
        (intros k ->; inv_bool; by apply taskById_registered) end.
    eapply (commit_change _ _ _ _
      (λ u, [("supersedesTaskId", detailNullable (supersedesTaskId u))]))
      in Hr as (Hrev & _ & ->); eauto using admissible_supersedes.
    do 3 eexists. split; [eassumption|]. split; [by apply readFields_some; eauto|].
    by apply step_supersession.
  - intros (s & tid & superseded & Hp & (record & Hrec & Hread)%readFields_some & Hstep).
    pose proof (parseSnapshot_sound _ _ _ Hp) as Hs.
    inversion Hstep as [| | | | | |t ? [Ht [Hl Hrev]] ? ? ? Hreg|]; subst. run_guards.
    apply guard_ok; split.
    { destruct superseded as [k|]; [|done]. by apply bool_decide_eq_true, taskById_registered, Hreg. }
    eapply (commit_change _ _ _ _
      (λ u, [("supersedesTaskId", detailNullable (supersedesTaskId u))]));
      eauto using admissible_supersedes.
Qed.
Lemma dependencyCommand_ok c x :
  dependencyCommand c = Ok x ↔ readDependencyCommand c = Some x.
Proof. apply readFields_ok. Qed.

Lemma dependencyCommand_identifier c tid d :
  readDependencyCommand c = Some (tid, d) → identifier d.
Proof.
  intros (record & _ & Hread)%readFields_some.
  apply bind_Some in Hread as (? & _ & (? & Hd & ?)%bind_Some). simplify_eq.
  by apply isIdentifier_ok in Hd as [_ ?].
Qed.

Lemma add_dependency_admissible s t d :
  snapshot_wf mode_complete s → t ∈ tasks s → isTerminal (state t) = false →
  d ∈ map id (tasks s) → d ≠ id t → d ∉ dependencyIds t →
  ¬ rtc (dependencyEdge (tasks s)) d (id t) → revision t ≠ MAX_SAFE_INTEGER →
  admissible s t
    (nextCandidate t (withDependencies (sortByKey (λ k, k) (dependencyIds t ++ [d])) t)).
Proof.
  intros Hs Ht Hl Hd Hne Hdup Hr Hrev. pose proof (wf_task _ _ _ Hs Ht) as Hwf.
  assert (identifier d).
  { apply list_elem_of_fmap in Hd as (u & -> & Hu). by apply (wf_id _ (wf_task _ _ _ Hs Hu)). }
  assert (∀ k, k ∈ sortByKey (λ k, k) (dependencyIds t ++ [d]) ↔ k ∈ dependencyIds t ∨ k = d) as Hin.
  { intros k. unfold sortByKey. rewrite elem_of_sortBy. set_solver. }
  apply admissible_dependencies; try done.
  - unfold sortByKey. rewrite sortBy_perm, Forall_app. destruct Hwf. by repeat constructor.
  - apply (sortByKey_sorted (λ k, k)). rewrite map_id. apply NoDup_app. split_and!.
    + apply sorted_NoDup. by destruct Hwf.
    + set_solver.
    + apply NoDup_singleton.
  - rewrite Hin. intros [?|?]; [by destruct Hwf|congruence].
  - intros k [?| ->]%Hin; [by eapply wf_taskDependencies|done].
  - eapply (acyclic_add_edge _ _ (id t) d); [by eapply wf_dependencyDag|done|].
    intros x y [[-> [?| ->]%Hin]|[_ ?]]%(putTask_dependencyEdge s t); auto. left. by exists t.
Qed.

Lemma remove_dependency_admissible s t d :
  snapshot_wf mode_complete s → t ∈ tasks s → isTerminal (state t) = false →
  revision t ≠ MAX_SAFE_INTEGER →
  admissible s t
    (nextCandidate t
       (withDependencies (List.filter (λ k, negb (bool_decide (k = d))) (dependencyIds t)) t)).
Proof.
  intros Hs Ht Hl Hrev. pose proof (wf_task _ _ _ Hs Ht) as Hwf.
  assert (∀ k, k ∈ List.filter (λ k, negb (bool_decide (k = d))) (dependencyIds t) →
    k ∈ dependencyIds t) as Hin.
  { intros k Hk. apply list_elem_of_In, filter_In in Hk as [Hk _]. by apply list_elem_of_In. }
  apply admissible_dependencies; try done.
  - apply Forall_forall. intros k Hk. destruct Hwf. rewrite Forall_forall in *. auto.
  - apply filter_sorted. by destruct Hwf.
  - intros Hk%Hin. by destruct Hwf.
  - intros k Hk%Hin. by eapply wf_taskDependencies.
  - eapply acyclic_subrelation; [|by eapply wf_dependencyDag].
    intros x y [[-> Hy%Hin]|[_ ?]]%(putTask_dependencyEdge s t); [by exists t|done|done].
Qed.

Theorem addTaskDependency_refines v c r :
  addTaskDependency v c = Ok r ↔
  ∃ s tid did, parseSnapshot v mode_complete = Ok s ∧
    readDependencyCommand c = Some (tid, did) ∧ taskStep s (AddTaskDependency tid did) r.
Proof.
  unfold addTaskDependency, guardPublicResult. split.
  - intros Hr. inv_guards.
    match goal with Hc : dependencyCommand _ = _ |- _ => apply dependencyCommand_ok in Hc end.
    match goal with Hd : is_Some _ |- _ => apply taskById_registered in Hd end.
    match goal with Hc : dependencyReaches ?s _ _ = false |- _ =>
      rewrite <-not_true_iff_false, dependencyReaches_spec in Hc by (by eapply wf_taskIds) end.
    eapply (commit_change _ _ _ _ (λ _, [("dependencyId", DetailString _)]))
      in Hr as (Hrev & _ & ->); eauto using add_dependency_admissible.
    do 3 eexists. split; [eassumption|]. split; [eassumption|]. by apply step_dependency_add.
  - intros (s & tid & did & Hp & Hc & Hstep).
    pose proof (parseSnapshot_sound _ _ _ Hp) as Hs. apply dependencyCommand_ok in Hc.
    inversion Hstep as [| | | |t ? [Ht [Hl Hrev]] Hg Hd Hne Hdup Hreach| | |]; subst. run_guards.
    apply guard_ok; split; [by apply bool_decide_eq_true, taskById_registered|]. run_guards.
    apply guard_ok; split.
    { apply negb_true_iff, not_true_iff_false. rewrite dependencyReaches_spec; [done|].
      by eapply wf_taskIds. }
    eapply (commit_change _ _ _ _ (λ _, [("dependencyId", DetailString did)]));
      eauto using add_dependency_admissible.
Qed.

Theorem removeTaskDependency_refines v c r :
  removeTaskDependency v c = Ok r ↔
  ∃ s tid did, parseSnapshot v mode_complete = Ok s ∧
    readDependencyCommand c = Some (tid, did) ∧ taskStep s (RemoveTaskDependency tid did) r.
Proof.
  unfold removeTaskDependency, guardPublicResult. split.
  - intros Hr. inv_guards.
    match goal with Hc : dependencyCommand _ = _ |- _ => apply dependencyCommand_ok in Hc end.
    eapply (commit_change _ _ _ _ (λ _, [("dependencyId", DetailString _)]))
      in Hr as (Hrev & _ & ->); eauto using remove_dependency_admissible.
    do 3 eexists. split; [eassumption|]. split; [eassumption|]. by apply step_dependency_remove.
  - intros (s & tid & did & Hp & Hc & Hstep).
    pose proof (parseSnapshot_sound _ _ _ Hp) as Hs. apply dependencyCommand_ok in Hc.
    inversion Hstep as [| | | | |t ? [Ht [Hl Hrev]]| |]; subst. run_guards.
    eapply (commit_change _ _ _ _ (λ _, [("dependencyId", DetailString did)]));
      eauto using remove_dependency_admissible.
Qed.
(** ** Additions to the snapshot *)

Lemma elem_of_addTask s t x : x ∈ tasks (addTask s t) ↔ x ∈ tasks s ∨ x = t.
Proof. unfold addTask, sortByKey. simpl. rewrite elem_of_sortBy. set_solver. Qed.

Lemma newTask_wf newId pid newBody superseded :
  identifier newId → identifier pid → nullableIdentifier superseded →
  superseded ≠ Some newId → task_wf (newTask newId pid newBody superseded).
Proof.
  intros. constructor; simpl; try done; try constructor. set_solver.
Qed.

Lemma addTask_wf s newId pid newBody superseded :
  snapshot_wf mode_complete s →
  identifier newId → newId ∉ map id (tasks s) → pid ∈ map projectId (projects s) →
  superseded ≠ Some newId → nullableIdentifier superseded →
  (∀ k, superseded = Some k → k ∈ map id (tasks s)) →
  snapshot_wf mode_complete (addTask s (newTask newId pid newBody superseded)).
Proof.
  intros Hs Hid Hnew Hpid Hself Hsup Hreg. set (t := newTask newId pid newBody superseded).
  assert (identifier pid).
  { apply list_elem_of_fmap in Hpid as (p & -> & Hp). pose proof (wf_projects _ _ Hs) as Hps.
    rewrite Forall_forall in Hps. auto. }
  assert (task_wf t) as Ht by by apply newTask_wf.
  assert (∀ k, k ∈ map id (tasks s) → k ∈ map id (tasks (addTask s t))) as Hids.
  { intros k (u & -> & Hu)%list_elem_of_fmap. apply list_elem_of_fmap_2, elem_of_addTask. auto. }
  pose proof (wf_taskIds _ _ Hs) as Hnd. constructor; try by destruct Hs.
  - apply Forall_forall. intros x [Hx| ->]%elem_of_addTask; [by eapply wf_task|done].
  - apply sortByKey_sorted. rewrite map_app. apply NoDup_app. split_and!; [done| |].
    + intros k Hk ->%list_elem_of_singleton. done.
    + apply NoDup_singleton.
  - intros x [Hx| ->]%elem_of_addTask ?; [|done]. simpl. by eapply wf_taskProject.
  - intros x p [Hx| ->]%elem_of_addTask Hp; [|done].
    destruct (wf_taskParent _ _ Hs x p Hx Hp) as (u & ? & ?).
    exists u. rewrite elem_of_addTask. auto.
  - intros x d [Hx| ->]%elem_of_addTask ? Hd; [|by apply elem_of_nil in Hd].
    apply Hids. by eapply wf_taskDependencies.
  - intros x k [Hx| ->]%elem_of_addTask Hk; apply Hids; [by eapply wf_taskSupersedes|auto].
  - eapply acyclic_subrelation; [|by eapply wf_parentForest].
    intros x y (u & [Hu| ->]%elem_of_addTask & ? & ?); [by exists u|done].
  - eapply acyclic_subrelation; [|by eapply wf_dependencyDag].
    intros x y (u & [Hu| ->]%elem_of_addTask & ? & Hd); [by exists u|].
    by apply elem_of_nil in Hd.
Qed.

Lemma replaceTasks_add s t :
  snapshot_wf mode_complete s → snapshot_wf mode_complete (addTask s t) →
  replaceTasks s [] [t] = Ok (addTask s t).
Proof.
  intros Hs Hwf. unfold replaceTasks. rewrite map_id.
  assert (sortByKey projectId (projects s) = projects s) as Hp
    by (apply sortByKey_id; by destruct Hs).
  pose proof (parseSnapshot_lists mode_complete (projects s) (tasks s ++ [t])) as Hl.
  simpl in Hl. rewrite Hp in Hl. by apply Hl.
Qed.

Lemma projectById_registered s k : is_Some (projectById s k) ↔ k ∈ map projectId (projects s).
Proof.
  unfold projectById. rewrite <-not_eq_None_Some, find_None_iff. split.
  - intros Hn. apply dec_stable. intros Hk. apply Hn. intros p Hp.
    apply bool_decide_eq_false. intros <-. apply Hk. by apply list_elem_of_fmap_2.
  - intros (p & -> & Hp)%list_elem_of_fmap Hn. specialize (Hn p Hp).
    by rewrite bool_decide_true in Hn.
Qed.

Lemma create_tail s newId pid newBody superseded r :
  snapshot_wf mode_complete s →
  snapshot_wf mode_complete (addTask s (newTask newId pid newBody superseded)) →
  task_wf (newTask newId pid newBody superseded) →
  (let? task := parseTask (taskValue (newTask newId pid newBody superseded))
                  (js "task:" ++ newId) in
   let? next := replaceTasks s [] [task] in
   mutation next [id task] [event task_created (id task) None 1 []]) = Ok r ↔
  r = {| value := {| snapshot := addTask s (newTask newId pid newBody superseded);
                     changedTaskIds := [newId] |};
         events := [event task_created newId None 1 []] |}.
Proof.
  intros Hs Hwf Ht. rewrite parseTask_value by done. cbn [result_bind].
  rewrite replaceTasks_add by done. unfold mutation. simpl. naive_solver.
Qed.

Lemma readCreate_fields c newId pid newBody superseded :
  readCreateCommand c = Some (newId, pid, newBody, superseded) →
  identifier newId ∧ identifier pid ∧ nullableIdentifier superseded.
Proof.
  intros (record & _ & Hread)%readFields_some.
  apply bind_Some in Hread as (? & [_ Hi]%isIdentifier_ok & Hread).
  apply bind_Some in Hread as (? & [_ Hp]%isIdentifier_ok & Hread).
  apply bind_Some in Hread as (? & _ & Hread).
  apply bind_Some in Hread as (? & [_ Hs]%isNullableIdentifier_ok & Hread). by simplify_eq.
Qed.

Theorem createTask_refines v c r :
  createTask v c = Ok r ↔
  ∃ s newId pid newBody superseded, parseSnapshot v mode_complete = Ok s ∧
    readCreateCommand c = Some (newId, pid, newBody, superseded) ∧
    taskStep s (CreateTask newId pid newBody superseded) r.
Proof.
  unfold createTask, guardPublicResult, parseTaskCommand. split.
  - intros Hr. apply result_bind_ok in Hr as (s & Hp & Hr).
    pose proof (parseSnapshot_sound _ _ _ Hp) as Hs.
    apply result_bind_ok in Hr as (record & Hrec%ok_or_ok & Hr).
    apply result_bind_ok in Hr as ([[[newId pid] newBody] superseded] & Hread%ok_or_ok & Hr).
    assert (readCreateCommand c = Some (newId, pid, newBody, superseded)) as Hc
      by (apply readFields_some; eauto).
    destruct (readCreate_fields _ _ _ _ _ Hc) as (? & ? & ?).
    do 4 (apply guard_ok in Hr as [? Hr]). inv_bool.
    rewrite taskById_registered in *. rewrite projectById_registered in *.
    assert (∀ k, superseded = Some k → k ∈ map id (tasks s)).
    { intros k ->. inv_bool. by apply taskById_registered. }
    apply create_tail in Hr as ->; [|by auto using addTask_wf, newTask_wf..].
    do 5 eexists. split_and!; [eassumption|eassumption|]. by constructor.
  - intros (s & newId & pid & newBody & superseded & Hp & Hc & Hstep).
    pose proof (parseSnapshot_sound _ _ _ Hp) as Hs.
    destruct (readCreate_fields _ _ _ _ _ Hc) as (? & ? & ?).
    apply readFields_some in Hc as (record & Hrec & Hread).
    inversion Hstep as [? ? ? ? Hid Hnew Hpid Hself Hnull Hreg| | | | | | |]; subst. run_guards.
    apply guard_ok; split.
    { solve_guard. by rewrite taskById_registered. }
    apply guard_ok; split; [by apply bool_decide_eq_true, projectById_registered|]. run_guards.
    apply guard_ok; split.
    { destruct superseded as [k|]; [|done]. by apply bool_decide_eq_true, taskById_registered, Hreg. }
    by apply create_tail; auto using addTask_wf, newTask_wf.
Qed.

(** ** Projects *)

Lemma taskSide_wf s ps :
  snapshot_wf mode_complete s → Forall (λ p, identifier (projectId p)) ps →
  StronglySorted (key_lt projectId) ps →
  (∀ k, k ∈ map projectId (projects s) → k ∈ map projectId ps) →
  snapshot_wf mode_complete {| projects := ps; tasks := tasks s |}.
Proof.
  intros Hs Hps Hsort Hsub. destruct Hs. constructor; simpl; try done.
  intros t Ht Hx. by apply Hsub, wf_taskProject.
Qed.

Lemma projects_tail s ps pid r :
  snapshot_wf mode_complete s →
  snapshot_wf mode_complete {| projects := sortByKey projectId ps; tasks := tasks s |} →
  (let? next := parseSnapshot
     (jsObject [("projects", jsArray (map projectValue ps));
                ("tasks", jsArray (map taskValue (tasks s)))]) mode_complete in
   projectMutation next pid) = Ok r ↔
  r = {| value := {| projectSnapshot := {| projects := sortByKey projectId ps; tasks := tasks s |};
                     changedProjectIds := [pid] |};
         events := [] |}.
Proof.
  intros Hs Hwf.
  assert (sortByKey id (tasks s) = tasks s) as Ht by (apply sortByKey_id; by destruct Hs).
  pose proof (parseSnapshot_lists mode_complete ps (tasks s)) as Hl. simpl in Hl.
  rewrite Ht in Hl. rewrite Hl by done. unfold projectMutation. simpl. naive_solver.
Qed.

Lemma register_wf s pid :
  snapshot_wf mode_complete s → identifier pid → pid ∉ map projectId (projects s) →
  snapshot_wf mode_complete
    {| projects := sortByKey projectId (projects s ++ [{| projectId := pid; enabled := true |}]);
       tasks := tasks s |}.
Proof.
  intros Hs Hid Hnew. apply taskSide_wf; [done|..].
  - unfold sortByKey. rewrite sortBy_perm, Forall_app. destruct Hs. by repeat constructor.
  - apply sortByKey_sorted. rewrite map_app. apply NoDup_app. split_and!.
    + by eapply wf_projectIds.
    + intros k Hk ->%list_elem_of_singleton. done.
    + apply NoDup_singleton.
  - intros k (p & -> & Hp)%list_elem_of_fmap. apply list_elem_of_fmap_2.
    unfold sortByKey. rewrite elem_of_sortBy. set_solver.
Qed.

Lemma enableProject_id pid b p : projectId (enableProject pid b p) = projectId p.
Proof. unfold enableProject. by case_bool_decide. Qed.

Lemma enable_wf s pid b :
  snapshot_wf mode_complete s →
  snapshot_wf mode_complete
    {| projects := map (enableProject pid b) (projects s); tasks := tasks s |}.
Proof.
  intros Hs. apply taskSide_wf; [done|..].
  - apply Forall_forall. intros ? (p & -> & Hp)%list_elem_of_fmap.
    rewrite enableProject_id. pose proof (wf_projects _ _ Hs) as Hf.
    rewrite Forall_forall in Hf. auto.
  - apply sorted_map_keys; [by intros; apply enableProject_id|by destruct Hs].
  - rewrite (map_keys projectId (enableProject pid b)); [done|]. intros; apply enableProject_id.
Qed.

(** The result of a project command. *)
Definition projectChange (s' : DomainSnapshot) (pid : JsString)
    : DomainSuccess ProjectDomainMutation :=
  {| value := {| projectSnapshot := s'; changedProjectIds := [pid] |}; events := [] |}.

Theorem registerProject_refines v c r :
  registerProject v c = Ok r ↔
  ∃ s pid s', parseSnapshot v mode_complete = Ok s ∧ readRegistration c = Some pid ∧
    projectStep s (RegisterProject pid) s' ∧ r = projectChange s' pid.
Proof.
  unfold registerProject, guardPublicResult. split.
  - intros Hr. apply result_bind_ok in Hr as (s & Hp & Hr).
    pose proof (parseSnapshot_sound _ _ _ Hp) as Hs.
    apply result_bind_ok in Hr as (pid & Hc%ok_or_ok & Hr).
    assert (identifier pid).
    { apply bind_Some in Hc as (? & _ & [_ ?]%isIdentifier_ok). done. }
    destruct (projectById s pid) eqn:Hpid; [done|].
    assert (pid ∉ map projectId (projects s)).
    { rewrite <-projectById_registered, Hpid. by intros []. }
    apply projects_tail in Hr as ->; [|done|by apply register_wf].
    do 3 eexists. split_and!; [eassumption|exact Hc|by constructor|done].
  - intros (s & pid & s' & Hp & Hc & Hstep & ->).
    pose proof (parseSnapshot_sound _ _ _ Hp) as Hs.
    inversion Hstep as [? Hid Hnew|]; subst. rewrite Hp. cbn [result_bind].
    change (_ ← readExactRecord c _; _) with (readRegistration c). rewrite Hc. cbn [ok_or result_bind].
    destruct (projectById s pid) eqn:Hpid.
    { exfalso. apply Hnew, projectById_registered. by rewrite Hpid. }
    apply projects_tail; [done|by apply register_wf|done].
Qed.

Theorem setProjectEnabled_refines v c r :
  setProjectEnabled v c = Ok r ↔
  ∃ s pid b s', parseSnapshot v mode_complete = Ok s ∧ readEnablement c = Some (pid, b) ∧
    projectStep s (SetProjectEnabled pid b) s' ∧ r = projectChange s' pid.
Proof.
  assert (∀ s pid b, snapshot_wf mode_complete s →
    sortByKey projectId (map (enableProject pid b) (projects s)) =
    map (enableProject pid b) (projects s)) as Hsort.
  { intros s pid b Hs. apply sortByKey_id.
    by apply (wf_projectsSorted _ _ (enable_wf s pid b Hs)). }
  unfold setProjectEnabled, guardPublicResult. split.
  - intros Hr. apply result_bind_ok in Hr as (s & Hp & Hr).
    pose proof (parseSnapshot_sound _ _ _ Hp) as Hs.
    apply result_bind_ok in Hr as ([pid b] & Hc%ok_or_ok & Hr).
    apply result_bind_ok in Hr as (p & Hpid%ok_or_ok & Hr).
    apply guard_ok in Hr as [Hne Hr]. apply find_Some_iff in Hpid as [Hin Hpid]. inv_bool.
    subst pid. change (map (λ candidate, _) (projects s))
      with (map (enableProject (projectId p) b) (projects s)) in Hr.
    apply projects_tail in Hr as ->; [|done|by rewrite Hsort; [apply enable_wf|]].
    rewrite Hsort by done.
    do 4 eexists. split_and!; [eassumption|exact Hc| |done].
    constructor; [done|]. by apply eqb_false_iff.
  - intros (s & pid & b & s' & Hp & Hc & Hstep & ->).
    pose proof (parseSnapshot_sound _ _ _ Hp) as Hs.
    inversion Hstep as [|p ? Hin Hne]; subst. rewrite Hp. cbn [result_bind].
    unfold readEnablement, readFields in Hc. rewrite Hc. cbn [ok_or result_bind].
    unfold projectById. rewrite (find_key_unique projectId) by (done || by eapply wf_projectIds).
    cbn [ok_or result_bind]. apply guard_ok. split; [by apply negb_true_iff, eqb_false_iff|].
    change (map (λ candidate, _) (projects s))
      with (map (enableProject (projectId p) b) (projects s)).
    apply projects_tail; [done|..]; by rewrite Hsort; [try apply enable_wf|].
Qed.
End commands.
