(* ===== verification/DomainMoves.v ===== *)
(** * The transition command implements the moves of the abstract machine

    [transitionTask] of domain.ts succeeds exactly when its payload reads as a
    move that the abstract machine allows, and then produces the result of the
    move, the cancellation cascade included. *)

From S2P Require Import Prelude JsValue UnicodeText DomainModel DomainParse DomainGraph DomainSnapshot DomainCommands DomainTransition DomainUpdate DomainSpec DomainRefinement.

Import ErrorCode.

(** ** Reasons *)

Lemma if_reason_nil {A} (b : bool) (l : list A) : l ≠ [] → (if b then l else []) = [] ↔ b = false.
Proof. destruct b; naive_solver. Qed.

Lemma if_noreason_nil {A} (b : bool) (l : list A) : l ≠ [] → (if b then [] else l) = [] ↔ b = true.
Proof. destruct b; naive_solver. Qed.

Lemma sorted_dups_nil {A} `{EqDecision A} (key : A → JsString) (l : list A) :
  sortByKey key (remove_dups l) = [] ↔ l = [].
Proof.
  rewrite <-!length_zero_iff_nil. unfold sortByKey. rewrite sortBy_length.
  destruct l as [|x l]; [done|]. split; [|done]. intros Hlen%length_zero_iff_nil.
  assert (x ∈ remove_dups (x :: l)) as Hx by (apply elem_of_remove_dups; set_solver).
  rewrite Hlen in Hx. by apply elem_of_nil in Hx.
Qed.

Lemma app_eq_nil_2 {A} (l k : list A) : l = [] → k = [] → l ++ k = [].
Proof. by intros -> ->. Qed.

Lemma flat_map_nil {A B} (f : A → list B) l :
  List.flat_map f l = [] ↔ ∀ x, x ∈ l → f x = [].
Proof.
  induction l as [|y l IH]; simpl; [by split; [intros _ x Hx%elem_of_nil|]|].
  split.
  - intros [Hy Hl]%app_eq_nil x [->|Hx]%elem_of_cons; [done|]. by apply IH.
  - intros Hall. rewrite (Hall y) by set_solver. apply IH. intros x Hx. apply Hall. set_solver.
Qed.

Lemma project_reason_nil {A} s t (missing disabled : list A) :
  missing ≠ [] → disabled ≠ [] →
  match projectById s (taskProjectId t) with
  | None => missing
  | Some project => if enabled project then [] else disabled
  end = [] ↔ projectOpen s t.
Proof.
  intros Hm Hd. unfold projectOpen. destruct (projectById _ _) as [p|].
  - rewrite if_noreason_nil by done. naive_solver.
  - split; [done|naive_solver].
Qed.

Lemma dependency_reasons_nil {A} s t (missing incomplete : list A) :
  missing ≠ [] → incomplete ≠ [] →
  List.flat_map (λ d,
    match taskById s d with
    | None => missing
    | Some u => if bool_decide (state u = completed) then [] else incomplete
    end) (dependencyIds t) = [] ↔ dependenciesCompleted s t.
Proof.
  intros Hm Hi. rewrite flat_map_nil. unfold dependenciesCompleted.
  split; intros Hall d Hd; specialize (Hall d Hd).
  - destruct (taskById s d) as [u|]; [|done].
    rewrite if_noreason_nil, bool_decide_eq_true in Hall by done. eauto.
  - destruct Hall as (u & -> & Hu). by rewrite bool_decide_true.
Qed.

Lemma eligibilityReasons_nil s t : eligibilityReasons s t = [] ↔ claimable s t.
Proof.
  unfold eligibilityReasons, claimable. rewrite sorted_dups_nil.
  split.
  - intros [Hst [Hp Hd]%app_eq_nil]%app_eq_nil.
    rewrite if_noreason_nil, bool_decide_eq_true in Hst by done.
    rewrite project_reason_nil in Hp by done. rewrite dependency_reasons_nil in Hd by done. done.
  - intros (Hst & Hp & Hd). rewrite bool_decide_true by done.
    apply app_eq_nil_2; [done|]. apply app_eq_nil_2.
    + by apply project_reason_nil.
    + by apply dependency_reasons_nil.
Qed.

Lemma identityMismatch_false recorded target :
  identityMismatch recorded target = false ↔ identityMatches recorded target.
Proof.
  unfold identityMismatch, identityMatches. destruct recorded as [r|]; [|naive_solver].
  rewrite negb_false_iff, bool_decide_eq_true. naive_solver.
Qed.

Lemma orb_reason_nil {A} (a b : bool) (l : list A) :
  l ≠ [] → (if a || b then l else []) = [] ↔ a = false ∧ b = false.
Proof. intros Hl. rewrite if_reason_nil by done. apply orb_false_iff. Qed.

Lemma continuationReasons_nil s t c : continuationReasons s t c = [] ↔ continuable s t c.
Proof.
  unfold continuationReasons. split.
  - intros Hr. destruct (state t) eqn:Hst; try done.
    destruct (taskWaiting t) as [m|] eqn:Hm; [|done].
    rewrite sorted_dups_nil in Hr.
    apply app_eq_nil in Hr as [Hrev Hr]. apply app_eq_nil in Hr as [Hp Hr].
    apply app_eq_nil in Hr as [Hd Hr]. apply app_eq_nil in Hr as [Hreceipt Hr].
    apply app_eq_nil in Hr as [Hident Hkind].
    rewrite project_reason_nil in Hp by done. rewrite dependency_reasons_nil in Hd by done.
    rewrite orb_reason_nil in Hrev by done. rewrite !if_reason_nil in Hreceipt, Hident by done.
    destruct Hrev. inv_bool.
    rewrite identityMismatch_false in *. constructor; [done| |done|done].
    exists m. split; [done|]. cbv zeta. split_and!; try done.
    destruct (kind c).
    + destruct (executionId _); [done|]. done.
    + apply app_eq_nil in Hkind as [Hretry Hlate].
      rewrite if_noreason_nil in Hretry by done. split; [done|]. intros time Ht.
      rewrite Ht in Hlate. rewrite if_reason_nil in Hlate by done. by apply Z.ltb_ge.
  - intros [Hst (m & Hm & Hrev & Hw & Hid & Hrr & Hact & He & Hws & Hb & Hkind) Hp Hd].
    rewrite Hst, Hm, sorted_dups_nil.
    repeat apply app_eq_nil_2.
    + apply orb_reason_nil; [done|]. by rewrite !negb_false_iff, !Z.eqb_eq.
    + by apply project_reason_nil.
    + by apply dependency_reasons_nil.
    + apply if_reason_nil; [done|]. rewrite !orb_false_iff, !negb_false_iff, Z.eqb_eq.
      by rewrite !bool_decide_eq_true.
    + apply if_reason_nil; [done|]. by rewrite !orb_false_iff, !identityMismatch_false.
    + destruct (kind c); [by destruct (executionId _)|]. destruct Hkind as [Hr Hlate].
      apply app_eq_nil_2; [by apply if_noreason_nil|].
      destruct (retryAfter _) as [time|]; [|done]. apply if_reason_nil; [done|].
      apply Z.ltb_ge. by apply Hlate.
Qed.

Lemma hasCancelledDependency_spec s t :
  hasCancelledDependency s t = true ↔ someDependencyCancelled s t.
Proof.
  unfold hasCancelledDependency, someDependencyCancelled. rewrite existsb_true. split.
  - intros (d & Hd & Hu). destruct (taskById s d) as [u|] eqn:Hf; [|done]. inv_bool. eauto 10.
  - intros (d & u & Hd & Hf & Hu). exists d. split; [done|]. rewrite Hf. by apply bool_decide_eq_true.
Qed.

Lemma and_iff_compat_l_2 (A B C : Prop) : (A → B ↔ C) → A ∧ B ↔ A ∧ C.
Proof. tauto. Qed.

(** ** Reading a payload as a move *)

Definition okSome {A} (r : Parsed A) : option A :=
  match r with Ok a => Some a | Err _ => None end.

Lemma okSome_some {A} (r : Parsed A) a : okSome r = Some a ↔ r = Ok a.
Proof. destruct r; naive_solver. Qed.

Section moves.
Context `{UnicodeNormalization}.

(** The receipts a payload carries must name the task at its revision; what is
    left of the payload is the move. *)
Definition readMove (t : Task) (e : TaskTransitionEvent) (payload : JsValue) : option TaskMove :=
  match e with
  | mark_ready => _ ← readExactRecord payload []; Some MarkReady
  | claim_accepted =>
      record ← readExactRecord payload ["externalAcceptance"];
      _ ← okSome (parseExternalAcceptance (field record "externalAcceptance") t);
      Some ClaimAccepted
  | dependency_cancelled =>
      record ← readExactRecord payload ["waiting"];
      w ← okSome (parseWaitingInput (field record "waiting") (js "task:" ++ id t ++ js ".waiting"));
      Some (DependencyCancelled w)
  | execution_wait =>
      record ← readExactRecord payload ["waiting"];
      w ← okSome (parseWaitingInput (field record "waiting") (js "task:" ++ id t ++ js ".waiting"));
      Some (ExecutionWait w)
  | completion_accepted =>
      record ← readExactRecord payload ["decision"];
      decision ← okSome (parseCompletionDecision (field record "decision") t);
      Some (CompletionAccepted (completionDecisionId decision))
  | resume_accepted | retry_accepted =>
      record ← readExactRecord payload ["continuation"; "externalAcceptance"];
      command ← okSome (parseContinuationCommand (field record "continuation"));
      _ ← okSome (parseExternalAcceptance (field record "externalAcceptance") t);
      if bool_decide (commandTaskId command = id t) &&
         bool_decide (kind command = match e with resume_accepted => resume | _ => retry end)
      then Some (Continue command) else None
  | cancel =>
      record ← readExactRecord payload ["reason"; "executionDisposition"; "dependentWaiting"];
      text ← isCanonicalCancellationReason (field record "reason");
      dependents ← okSome (parseDependentWaiting (field record "dependentWaiting"));
      verification ← okSome (cancelVerification t (field record "executionDisposition"));
      Some (Cancel text verification dependents)
  | interruption_verified =>
      record ← readExactRecord payload ["reason"; "verification"; "dependentWaiting"];
      text ← isCanonicalCancellationReason (field record "reason");
      verification ← okSome (parseExecutionDisposition (field record "verification") t);
      dependents ← okSome (parseDependentWaiting (field record "dependentWaiting"));
      if bool_decide (dispositionStatus verification = stopped) &&
         bool_decide (is_Some (dispositionExecutionId verification))
      then Some (InterruptionVerified text (dispositionReceiptId verification) dependents)
      else None
  end.

(** ** The task after a move *)

Lemma quiet_facts t :
  task_wf t → isTerminal (state t) = false →
  completion t = None ∧ cancellation t = None ∧ (state t ≠ waiting → taskWaiting t = None).
Proof.
  intros Hwf Hl. pose proof (wf_facts _ Hwf) as Hf. unfold incoherentFacts in Hf.
  destruct (state t), (taskWaiting t), (completion t), (cancellation t); done.
Qed.

Lemma moveAllowed_live s t m : moveAllowed s t m → isTerminal (state t) = false.
Proof.
  destruct m; simpl.
  - by intros (-> & _).
  - by intros [-> _].
  - by intros (-> & _).
  - by intros (-> & _).
  - by intros (-> & _).
  - by intros [-> _ _ _].
  - by intros ([-> |[-> | ->]] & _).
  - by intros (-> & _).
Qed.

Lemma move_legal s t m :
  moveAllowed s t m → legalTransition (state t) (moveTarget m) (moveEvent m) = true.
Proof.
  destruct m; simpl.
  - by intros (-> & _).
  - by intros [-> _].
  - by intros (-> & _).
  - by intros (-> & _).
  - by intros (-> & _).
  - intros [-> _ _ _]. by destruct (kind command).
  - by intros ([-> |[-> | ->]] & _).
  - by intros (-> & _).
Qed.

Lemma restamped_wf w t : task_wf t → revision t ≠ MAX_SAFE_INTEGER → waitingInput_wf w →
  waiting_wf (restampedWaiting w t).
Proof. intros. constructor; [done|]. by apply next_positive. Qed.

(** A task in the states a move starts from carries no terminal facts, so the
    facts the move stores are all it has. *)
Lemma facts_wf s t m :
  task_wf t → moveAllowed s t m → revision t ≠ MAX_SAFE_INTEGER →
  let t' := moved m t in
  (∀ w, taskWaiting t' = Some w → waiting_wf w) ∧
  (∀ c, completion t' = Some c → completion_wf c) ∧
  (∀ c, cancellation t' = Some c → cancellation_wf c) ∧
  incoherentFacts (state t') (revision t') (taskWaiting t') (completion t') (cancellation t') = None.
Proof.
  intros Hwf Ha Hr. destruct (quiet_facts t Hwf (moveAllowed_live _ _ _ Ha)) as (Hc & Hk & Hw).
  assert (revision t + 1 - 1 = revision t) as Hpred by lia.
  pose proof (wf_revision _ Hwf). pose proof (next_positive _ Hwf Hr).
  destruct m; simpl in *.
  - destruct Ha as (Hst & _). rewrite Hw, Hc, Hk by congruence. done.
  - destruct Ha as (Hst & _). rewrite Hw, Hc, Hk by congruence. done.
  - destruct Ha as (_ & _ & Hwi & _). rewrite Hc, Hk. split_and!; try done.
    + intros ? [= <-]. by constructor.
    + by rewrite Z.eqb_refl.
  - destruct Ha as (_ & Hwi). rewrite Hc, Hk. split_and!; try done.
    + intros ? [= <-]. by constructor.
    + by rewrite Z.eqb_refl.
  - destruct Ha as (Hst & Hid). rewrite Hw, Hk, Hpred by congruence. split_and!; try done.
    + intros ? [= <-]. by constructor.
    + by rewrite Z.eqb_refl.
  - by rewrite Hc, Hk.
  - destruct Ha as (_ & Htext & Hv & _). split_and!; try done.
    + intros ? [= <-]. by constructor.
    + by rewrite Hpred, Z.eqb_refl.
  - destruct Ha as (_ & Htext & Hv). split_and!; try done.
    + intros ? [= <-]. constructor; [done| |done]. by intros [= ->].
    + by rewrite Hpred, Z.eqb_refl.
Qed.

Lemma movePatch_links m t : sameLinks t (movePatch m t).
Proof. by destruct m. Qed.

Lemma moved_links m t : sameLinks t (moved m t).
Proof. by destruct m. Qed.

Lemma moved_revision m t : revision (moved m t) = revision t + 1.
Proof. done. Qed.

Lemma moved_id m t : id (moved m t) = id t.
Proof. by destruct (moved_links m t). Qed.

Lemma linked_wf t t' :
  task_wf t → sameLinks t t' → positiveInteger (revision t') →
  (∀ w, taskWaiting t' = Some w → waiting_wf w) →
  (∀ c, completion t' = Some c → completion_wf c) →
  (∀ c, cancellation t' = Some c → cancellation_wf c) →
  incoherentFacts (state t') (revision t') (taskWaiting t') (completion t') (cancellation t') = None →
  task_wf t'.
Proof.
  intros [] (Hid & Hpid & Hp & Hd & Hs) ?????.
  constructor; rewrite ?Hid, ?Hpid, ?Hp, ?Hd, ?Hs; done.
Qed.

Lemma moved_wf s t m :
  task_wf t → moveAllowed s t m → revision t ≠ MAX_SAFE_INTEGER → task_wf (moved m t).
Proof.
  intros Hwf Ha Hr. destruct (facts_wf s t m Hwf Ha Hr) as (? & ? & ? & ?).
  apply (linked_wf t); try done; [apply moved_links|by apply next_positive].
Qed.
(** ** Moves of one task *)

Lemma afterMove_alone m t ts :
  moveDependents m = [] → map (afterMove m t) ts = putTask (moved m t) ts.
Proof.
  intros Hd. unfold putTask. apply map_ext. intros u. unfold afterMove.
  rewrite Hd, moved_id. simpl. by case_bool_decide.
Qed.

Lemma applySimpleTransition_spec s t m r :
  snapshot_wf mode_complete s → t ∈ tasks s →
  moveAllowed s t m → moveDependents m = [] → moveTarget m ≠ cancelled →
  ∀ patched, withState (moveTarget m) patched = movePatch m t →
  applySimpleTransition s t (moveTarget m) patched (moveEvent m) = Ok r ↔
  revision t ≠ MAX_SAFE_INTEGER ∧ r = moveResult s m t.
Proof.
  intros Hs Ht Ha Hd Htarget patched Hp. unfold applySimpleTransition. rewrite Hp.
  rewrite (commit_change s t (movePatch m t) task_transitioned
    (λ _, transitionDetails (moveEvent m) (state t) (moveTarget m))); [|done..|].
  - assert (taskChange s t (nextCandidate t (movePatch m t)) task_transitioned
      (transitionDetails (moveEvent m) (state t) (moveTarget m)) = moveResult s m t) as ->.
    { unfold taskChange, moveResult, updated, moveEvents.
      rewrite afterMove_alone, Hd by done. by destruct (moveTarget m). }
    destruct (movePatch_links m t) as [-> _]. naive_solver.
  - intros Hr. apply admissible_links; [done..| |apply moved_links].
    eapply moved_wf; [by eapply wf_task|done|done].
Qed.

(** ** The cascade *)

Definition suspendedEvent (u : Task) : DomainEvent :=
  event task_transitioned (id u) (Some (revision u)) (revision u + 1)
    (transitionDetails dependency_cancelled ready waiting).

Definition suspensions (us : list Task) (inputs : list DependentWaitingInput)
    : list (JsString * Task) :=
  zip_with (λ u i, (id u, suspended (dependentWaiting i) u)) us inputs.

Lemma suspended_wf u w :
  task_wf u → state u = ready → revision u ≠ MAX_SAFE_INTEGER → waitingInput_wf w →
  task_wf (suspended w u).
Proof.
  intros Hwf Hst Hr Hw. destruct (quiet_facts u Hwf) as (Hc & Hk & _); [by rewrite Hst|].
  apply (linked_wf u); try done; simpl; rewrite ?Hc, ?Hk; try done.
  - by apply next_positive.
  - intros ? [= <-]. constructor; [done|]. by apply next_positive.
  - by rewrite Z.eqb_refl.
Qed.

Lemma waitingFromInput_value w r path :
  waitingInput_wf w → positiveInteger r →
  waitingFromInput (waitingInputValue w) r path =
    Ok {| waitingInput := w; waitingTaskRevision := r |}.
Proof.
  intros Hw Hr. unfold waitingFromInput, waitingInputValue.
  rewrite (parseWaitingInput_fields _ w) by done. simpl. by apply parseWaiting_value.
Qed.

Lemma assocSet_fresh {K V} `{EqDecision K} (k : K) (v : V) l :
  k ∉ map fst l → assocSet k v l = l ++ [(k, v)].
Proof.
  induction l as [|[k' v'] l IH]; simpl; [done|]. intros Hk.
  rewrite bool_decide_false by set_solver. f_equal. apply IH. set_solver.
Qed.

Lemma cascadeDependents_spec us inputs repl evs r :
  Forall task_wf us → Forall (λ u, state u = ready) us →
  Forall (λ i, waitingInput_wf (dependentWaiting i)) inputs →
  map id us = map dependentTaskId inputs → NoDup (map fst repl ++ map id us) →
  cascadeDependents us inputs repl evs = Ok r ↔
  Forall (λ i, reason (dependentWaiting i) = wr_dependency_cancelled) inputs ∧
  Forall (λ u, revision u ≠ MAX_SAFE_INTEGER) us ∧
  r = (repl ++ suspensions us inputs, evs ++ map suspendedEvent us).
Proof.
  revert inputs repl evs. induction us as [|u us IH]; intros [|i inputs] repl evs Hus Hst Hin Hids Hnd;
    try done; simpl.
  { unfold suspensions. simpl. rewrite !app_nil_r, !Forall_nil. naive_solver. }
  apply Forall_cons in Hus as [Hu Hus], Hst as [Hr Hst], Hin as [Hi Hin].
  injection Hids as Hid Hids. rewrite !Forall_cons.
  destruct (decide (reason (dependentWaiting i) = wr_dependency_cancelled)) as [Hreason|Hreason];
    [rewrite bool_decide_true by done|rewrite bool_decide_false by done; simpl; naive_solver].
  simpl. destruct (Z.eqb_spec (revision u) MAX_SAFE_INTEGER) as [Hm|Hm]; simpl; [naive_solver|].
  rewrite waitingFromInput_value by (done || by apply next_positive). cbn [result_bind].
  change (withState waiting (withWaiting (Some _) u))
    with (withState waiting (withWaiting (Some (restampedWaiting (dependentWaiting i) u)) u)).
  rewrite nextTask_ok by (done || by apply suspended_wf). cbn [result_bind].
  fold (suspended (dependentWaiting i) u).
  change (id (suspended (dependentWaiting i) u)) with (id u).
  assert (id u ∉ map fst repl).
  { simpl in Hnd. apply NoDup_app in Hnd as (_ & Hnd & _). intros Hk. apply (Hnd _ Hk). set_solver. }
  rewrite assocSet_fresh by done. rewrite IH; try done.
  - unfold suspensions. simpl. rewrite <-!(assoc app). simpl. naive_solver.
  - rewrite map_app. simpl. rewrite <-(assoc app). done.
Qed.
Lemma assocGet_suspensions us inputs u :
  map id us = map dependentTaskId inputs → (∀ x, x ∈ us → id x = id u → x = u) →
  assocGet (id u) (suspensions us inputs) =
    (λ i, suspended (dependentWaiting i) u) <$>
      List.find (λ i, bool_decide (dependentTaskId i = id u)) inputs.
Proof.
  revert inputs. induction us as [|x us IH]; intros [|i inputs] Hids Hu; try done.
  injection Hids as Hid Hids. unfold suspensions. cbn [zip_with]. rewrite assocGet_cons.
  cbn [List.find]. rewrite <-Hid. case_bool_decide as Hx.
  - by rewrite (Hu x) by (set_solver || done).
  - apply IH; [done|]. intros y Hy. apply Hu. set_solver.
Qed.

Lemma readyDirectDependents_elem s k u :
  u ∈ readyDirectDependents s k ↔ u ∈ tasks s ∧ state u = ready ∧ k ∈ dependencyIds u.
Proof.
  unfold readyDirectDependents. rewrite list_elem_of_In, filter_In, <-list_elem_of_In.
  by rewrite andb_true_iff, !bool_decide_eq_true.
Qed.

Lemma readyDirectDependents_sorted s k :
  snapshot_wf mode_complete s →
  StronglySorted (key_lt id) (readyDirectDependents s k) ∧
  sortByKey id (readyDirectDependents s k) = readyDirectDependents s k.
Proof.
  intros Hs. assert (StronglySorted (key_lt id) (readyDirectDependents s k)) as Hd
    by (apply filter_sorted; by destruct Hs).
  split; [done|by apply sortByKey_id].
Qed.

Section cancelling.
Context (s : DomainSnapshot) (t : Task) (m : TaskMove).
Hypothesis Hs : snapshot_wf mode_complete s.
Hypothesis Ht : t ∈ tasks s.
Hypothesis Htarget : moveTarget m = cancelled.
Hypothesis Hmoved : task_wf (moved m t).
Hypothesis Hcover : dependentsCovered s t (moveDependents m).

Let us := readyDirectDependents s (id t).

Lemma dependent_of u i :
  u ∈ tasks s → id u ≠ id t →
  List.find (λ i, bool_decide (dependentTaskId i = id u)) (moveDependents m) = Some i →
  u ∈ us ∧ waitingInput_wf (dependentWaiting i) ∧ revision u ≠ MAX_SAFE_INTEGER.
Proof.
  intros Hu Hne [Hi Hid]%find_Some_iff. apply bool_decide_eq_true in Hid.
  destruct Hcover as [Hids Hreasons Hwfs Hrevs].
  assert (id u ∈ map id us) as (x & Hx & Hin)%list_elem_of_fmap.
  { fold us in Hids. rewrite <-Hids, <-Hid. by apply list_elem_of_fmap_2. }
  assert (x = u) as ->.
  { eapply same_task; [exact Hs|exact Hu| |done]. by apply readyDirectDependents_elem in Hin as [? _]. }
  rewrite Forall_forall in Hwfs. rewrite Forall_forall in Hrevs. auto.
Qed.

Lemma afterMove_ok u :
  u ∈ tasks s → task_wf (afterMove m t u) ∧ sameLinks u (afterMove m t u).
Proof.
  intros Hu. unfold afterMove. case_bool_decide as Hid.
  - rewrite (same_task _ s t u Hs Ht Hu Hid). split; [done|apply moved_links].
  - destruct (List.find _ _) as [i|] eqn:Hf; [|split; [by eapply wf_task|done]].
    destruct (dependent_of u i Hu Hid Hf) as ((_ & Hst & _)%readyDirectDependents_elem & Hw & Hr).
    split; [|done]. apply suspended_wf; try done. by eapply wf_task.
Qed.

Lemma cancel_replacements :
  applyReplacements ((id t, moved m t) :: suspensions us (moveDependents m)) (tasks s) =
    map (afterMove m t) (tasks s).
Proof.
  apply map_ext_in. intros u Hu%list_elem_of_In. rewrite assocGet_cons. unfold afterMove.
  case_bool_decide as Hid; case_bool_decide; try congruence; [done|].
  rewrite assocGet_suspensions.
  - by destruct (List.find _ _).
  - by destruct Hcover.
  - intros x [Hx _]%readyDirectDependents_elem Hxu. by eapply same_task.
Qed.

Lemma cancel_commit :
  snapshot_wf mode_complete (snapshot (value (moveResult s m t))) ∧
  replaceTasks s ((id t, moved m t) :: suspensions us (moveDependents m)) [] =
    Ok (snapshot (value (moveResult s m t))).
Proof. apply update_links; [done|exact afterMove_ok|exact cancel_replacements]. Qed.
End cancelling.
Lemma suspensions_keys us inputs :
  map id us = map dependentTaskId inputs → map fst (suspensions us inputs) = map id us.
Proof.
  revert inputs. induction us as [|u us IH]; intros [|i inputs] Hids; try done.
  injection Hids as _ Hids. unfold suspensions. simpl. f_equal. by apply IH.
Qed.

Lemma cascade_cancel s t m evs r :
  snapshot_wf mode_complete s → t ∈ tasks s →
  Forall (λ i, waitingInput_wf (dependentWaiting i)) (moveDependents m) →
  map id (readyDirectDependents s (id t)) = map dependentTaskId (moveDependents m) →
  cascadeDependents (readyDirectDependents s (id t)) (moveDependents m)
    [(id t, moved m t)] evs = Ok r ↔
  dependentsCovered s t (moveDependents m) ∧
  r = ((id t, moved m t) :: suspensions (readyDirectDependents s (id t)) (moveDependents m),
       evs ++ map suspendedEvent (readyDirectDependents s (id t))).
Proof.
  intros Hs Ht Hinputs Hids. rewrite cascadeDependents_spec; try done.
  - split; [intros (? & ? & ->); by split; [constructor|]|]. by intros [[] ->].
  - apply Forall_forall; intros u (? & ? & _)%readyDirectDependents_elem. by eapply wf_task.
  - by apply Forall_forall; intros u (? & ? & _)%readyDirectDependents_elem.
  - simpl. constructor.
    + intros (u & Hid & (Hu & _ & Hdep)%readyDirectDependents_elem)%list_elem_of_fmap.
      apply (wf_dependencySelf u (wf_task _ _ _ Hs Hu)). by rewrite <-Hid.
    + apply key_sorted_NoDup. by apply readyDirectDependents_sorted.
Qed.

Lemma cancelWithDirectDependents_spec s t m fact r :
  snapshot_wf mode_complete s → t ∈ tasks s → moveTarget m = cancelled →
  withState cancelled
    (withWaiting None (withCompletion None (withCancellation (Some fact) t))) = movePatch m t →
  (revision t ≠ MAX_SAFE_INTEGER → task_wf (moved m t)) →
  Forall (λ i, waitingInput_wf (dependentWaiting i)) (moveDependents m) →
  cancelWithDirectDependents s t fact (moveDependents m) (moveEvent m) = Ok r ↔
  dependentsCovered s t (moveDependents m) ∧ revision t ≠ MAX_SAFE_INTEGER ∧ r = moveResult s m t.
Proof.
  intros Hs Ht Htarget Hpatch Hwf Hinputs. unfold cancelWithDirectDependents.
  destruct (readyDirectDependents_sorted s (id t) Hs) as [Hsorted ->].
  rewrite guard_ok, bool_decide_eq_true, Hpatch.
  destruct (decide (map id (readyDirectDependents s (id t)) =
                    map dependentTaskId (moveDependents m))) as [Hids|Hids].
  2: { split; [by intros [? _]|]. intros [[Hids'] _]. by rewrite Hids' in Hids. }
  destruct (decide (revision t = MAX_SAFE_INTEGER)) as [Hr|Hr].
  { rewrite nextTask_exhausted by done. simpl. naive_solver. }
  rewrite nextTask_ok by (done || by apply Hwf). cbn [result_bind]. fold (moved m t).
  rewrite (moved_id m t). change (revision (moved m t)) with (revision t + 1).
  rewrite result_bind_ok.
  setoid_rewrite (cascade_cancel s t m _ _ Hs Ht Hinputs Hids).
  assert (∀ evs, dependentsCovered s t (moveDependents m) →
    (let? next := replaceTasks s ((id t, moved m t) ::
       suspensions (readyDirectDependents s (id t)) (moveDependents m)) [] in
     mutation next (map fst ((id t, moved m t) ::
       suspensions (readyDirectDependents s (id t)) (moveDependents m))) evs) =
    Ok {| value := value (moveResult s m t); events := evs |}) as Htail.
  { intros evs Hcover. destruct (cancel_commit s t m Hs Ht (Hwf Hr) Hcover) as [_ ->].
    unfold mutation. simpl. by rewrite suspensions_keys, Hids. }
  assert (moveResult s m t = {| value := value (moveResult s m t); events := moveEvents s m t |})
    as Heq by done.
  unfold moveEvents in Heq. rewrite Htarget in Heq. split.
  - intros [_ ([repl evs] & (Hcover & [= -> ->]) & Hr')]. rewrite Htail in Hr' by done.
    injection Hr' as <-. by rewrite Heq.
  - intros (Hcover & _ & ->). split; [done|]. eexists. split; [by split|].
    cbv beta iota. rewrite Htail by done. by rewrite Heq at 2.
Qed.
(** ** Each event of the transition switch *)

Definition legalSource (e : TaskTransitionEvent) (st : TaskState) : Prop :=
  match e with
  | mark_ready => st = idea
  | claim_accepted | dependency_cancelled => st = ready
  | execution_wait | completion_accepted | interruption_verified => st = running
  | resume_accepted | retry_accepted => st = waiting
  | cancel => st = idea ∨ st = ready ∨ st = waiting
  end.

Definition legalTarget (e : TaskTransitionEvent) : TaskState :=
  match e with
  | mark_ready => ready
  | claim_accepted | resume_accepted | retry_accepted => running
  | dependency_cancelled | execution_wait => waiting
  | completion_accepted => completed
  | cancel | interruption_verified => cancelled
  end.

Lemma legalTransition_iff st target e :
  legalTransition st target e = true ↔ legalSource e st ∧ target = legalTarget e.
Proof. destruct st, target, e; vm_compute; naive_solver. Qed.

Lemma readMove_event t e payload m : readMove t e payload = Some m → moveEvent m = e.
Proof.
  intros Hm. destruct e; simpl in Hm;
    repeat match goal with
    | Hm : _ ≫= _ = Some _ |- _ => apply bind_Some in Hm as (? & _ & Hm)
    end; try (by simplify_eq).
  - destruct (bool_decide _ && bool_decide _); by simplify_eq.
  - destruct (bool_decide _ && bool_decide _) eqn:Hb; [|done]. simplify_eq. inv_bool.
    simpl. by match goal with Hk : kind _ = _ |- _ => rewrite Hk end.
  - destruct (bool_decide _ && bool_decide _) eqn:Hb; [|done]. simplify_eq. inv_bool.
    simpl. by match goal with Hk : kind _ = _ |- _ => rewrite Hk end.
Qed.
(** The receipts name a nonempty identity. *)
Lemma parseExecutionDisposition_identifier value t d :
  parseExecutionDisposition value t = Ok d → identifier (dispositionReceiptId d).
Proof.
  unfold parseExecutionDisposition. intros Hd. inv_guards.
  apply bind_Some in Hd as (rc & [_ Hrc]%isIdentifier_ok & Hd).
  apply bind_Some in Hd as (? & _ & Hd). apply bind_Some in Hd as (? & _ & Hd).
  case_match; by simplify_eq.
Qed.

Lemma parseCompletionDecision_identifier value t d :
  parseCompletionDecision value t = Ok d → identifier (completionDecisionId d).
Proof.
  unfold parseCompletionDecision. intros Hd. inv_guards.
  apply bind_Some in Hd as (rc & [_ Hrc]%isIdentifier_ok & Hd). case_match; by simplify_eq.
Qed.

(** What a run of [performTransition] amounts to. *)
Definition performs (s : DomainSnapshot) (t : Task) (e : TaskTransitionEvent)
    (payload : JsValue) (r : DomainSuccess DomainMutation) : Prop :=
  ∃ m, readMove t e payload = Some m ∧ moveAllowed s t m ∧
    (moveTarget m = cancelled → dependentsCovered s t (moveDependents m)) ∧
    revision t ≠ MAX_SAFE_INTEGER ∧ r = moveResult s m t.

Lemma waitingPayload_ok payload t w :
  task_wf t →
  waitingPayload payload t = Ok w ↔
  revision t ≠ MAX_SAFE_INTEGER ∧
  ∃ i, parseWaitingInput payload (js "task:" ++ id t ++ js ".waiting") = Ok i ∧
       w = restampedWaiting i t.
Proof.
  intros Hwf. unfold waitingPayload. rewrite guard_ok, negb_true_iff, Z.eqb_neq.
  apply and_iff_compat_l_2. intros Hr. unfold waitingFromInput. rewrite result_bind_ok.
  pose proof (next_positive t Hwf Hr) as Hpos.
  split.
  - intros (i & Hi & Hw). exists i. split; [done|].
    rewrite parseWaiting_value in Hw
      by (constructor; [by eapply parseWaitingInput_sound|done]). by injection Hw as <-.
  - intros (i & Hi & ->). exists i. split; [done|].
    apply parseWaiting_value. constructor; [by eapply parseWaitingInput_sound|done].
Qed.

Section perform.
Context (s : DomainSnapshot) (t : Task) (payload : JsValue).
Hypothesis Hs : snapshot_wf mode_complete s.
Hypothesis Ht : t ∈ tasks s.

Lemma perform_mark_ready r :
  state t = idea →
  performTransition s t mark_ready payload = Ok r ↔ performs s t mark_ready payload r.
Proof.
  intros Hst. unfold performs. simpl. split.
  - intros Hr. inv_guards.
    match goal with Hc : hasCancelledDependency _ _ = false |- _ =>
      rewrite <-not_true_iff_false, hasCancelledDependency_spec in Hc end.
    assert (moveAllowed s t MarkReady) as Ha by (split_and!; [done|by eexists|done]).
    apply (applySimpleTransition_spec s t MarkReady) in Hr as [? ->]; try done.
    exists MarkReady. split_and!; try done.
    match goal with Hp : transitionPayload _ _ = Ok _ |- _ => apply ok_or_ok in Hp; by rewrite Hp end.
  - intros (m & Hm & Ha & _ & Hr & ->). apply bind_Some in Hm as (record & Hrec & [= <-]).
    destruct Ha as (_ & (p & Hp & Hen) & Hc). unfold transitionPayload.
    rewrite Hrec, Hp. simpl. rewrite Hen.
    apply guard_ok. split.
    { by rewrite negb_true_iff, <-not_true_iff_false, hasCancelledDependency_spec. }
    apply (applySimpleTransition_spec s t MarkReady); try done.
    split_and!; [done|by eexists|done].
Qed.

Lemma perform_claim r :
  performTransition s t claim_accepted payload = Ok r ↔ performs s t claim_accepted payload r.
Proof.
  unfold performs. simpl. split.
  - intros Hr. inv_guards.
    match goal with He : (length _ =? 0)%nat = true |- _ =>
      apply Nat.eqb_eq, length_zero_iff_nil, eligibilityReasons_nil in He end.
    apply (applySimpleTransition_spec s t ClaimAccepted) in Hr as [? ->]; try done.
    exists ClaimAccepted. split_and!; try done.
    unfold transitionPayload in *. inv_guards.
    repeat match goal with Hx : _ = Some _ |- _ => rewrite Hx; simpl
                         | Hx : _ = Ok _ |- _ => rewrite Hx; simpl end. done.
  - intros (m & Hm & Ha & _ & Hr & ->).
    apply bind_Some in Hm as (record & Hrec & Hm).
    apply bind_Some in Hm as (acc & Hacc%okSome_some & [= <-]).
    unfold transitionPayload. rewrite Hrec. simpl.
    rewrite (proj2 (eligibilityReasons_nil s t) Ha). simpl. rewrite Hacc. simpl.
    by apply (applySimpleTransition_spec s t ClaimAccepted).
Qed.
Lemma perform_dependency_cancelled r :
  state t = ready →
  performTransition s t dependency_cancelled payload = Ok r ↔
  performs s t dependency_cancelled payload r.
Proof.
  intros Hst. unfold performs. simpl. unfold transitionPayload.
  pose proof (wf_task _ _ _ Hs Ht) as Hwf. split.
  - intros Hr. inv_guards.
    match goal with Hc : hasCancelledDependency _ _ = true |- _ =>
      apply hasCancelledDependency_spec in Hc end.
    match goal with Hp : waitingPayload _ _ = Ok _ |- _ =>
      apply waitingPayload_ok in Hp as (Hrev & w & Hw & ->); [|done] end.
    assert (moveAllowed s t (DependencyCancelled w)) as Ha.
    { split_and!; try done. by eapply parseWaitingInput_sound. }
    apply (applySimpleTransition_spec s t (DependencyCancelled w)) in Hr as [_ ->]; try done.
    exists (DependencyCancelled w). split_and!; try done.
    apply bind_Some. eexists. split; [eassumption|].
    apply bind_Some. eexists. by split; [apply okSome_some; exact Hw|].
  - intros (m & Hm & Ha & _ & Hr & ->).
    apply bind_Some in Hm as (record & Hrec & Hm).
    apply bind_Some in Hm as (w & Hw%okSome_some & [= <-]).
    destruct Ha as (_ & Hc & Hwi & Hreason). rewrite Hrec. simpl.
    apply guard_ok. split; [by apply hasCancelledDependency_spec|].
    apply result_bind_ok. exists (restampedWaiting w t).
    split; [apply waitingPayload_ok; eauto|]. apply guard_ok.
    split; [by apply bool_decide_eq_true|].
    apply (applySimpleTransition_spec s t (DependencyCancelled w)); done.
Qed.

Lemma perform_execution_wait r :
  state t = running →
  performTransition s t execution_wait payload = Ok r ↔ performs s t execution_wait payload r.
Proof.
  intros Hst. unfold performs. simpl. unfold transitionPayload.
  pose proof (wf_task _ _ _ Hs Ht) as Hwf. split.
  - intros Hr. inv_guards.
    match goal with Hp : waitingPayload _ _ = Ok _ |- _ =>
      apply waitingPayload_ok in Hp as (Hrev & w & Hw & ->); [|done] end.
    assert (moveAllowed s t (ExecutionWait w)) as Ha.
    { split; [done|]. by eapply parseWaitingInput_sound. }
    apply (applySimpleTransition_spec s t (ExecutionWait w)) in Hr as [_ ->]; try done.
    exists (ExecutionWait w). split_and!; try done.
    apply bind_Some. eexists. split; [eassumption|].
    apply bind_Some. eexists. by split; [apply okSome_some; exact Hw|].
  - intros (m & Hm & Ha & _ & Hr & ->).
    apply bind_Some in Hm as (record & Hrec & Hm).
    apply bind_Some in Hm as (w & Hw%okSome_some & [= <-]). rewrite Hrec. simpl.
    apply result_bind_ok. exists (restampedWaiting w t).
    split; [apply waitingPayload_ok; eauto|].
    by apply (applySimpleTransition_spec s t (ExecutionWait w)).
Qed.

Lemma perform_completion r :
  state t = running →
  performTransition s t completion_accepted payload = Ok r ↔
  performs s t completion_accepted payload r.
Proof.
  intros Hst. unfold performs. simpl. unfold transitionPayload. split.
  - intros Hr. inv_guards.
    match goal with Hp : parseCompletionDecision _ _ = Ok ?d |- _ =>
      apply parseCompletionDecision_identifier in Hp as Hid;
      pose (m := CompletionAccepted (completionDecisionId d)) end.
    assert (moveAllowed s t m) as Ha by done.
    apply (applySimpleTransition_spec s t m) in Hr as [? ->]; try done.
    exists m. split_and!; try done. apply bind_Some. eexists. split; [eassumption|].
    apply bind_Some. eexists. by split; [apply okSome_some; eassumption|].
  - intros (m & Hm & Ha & _ & Hr & ->).
    apply bind_Some in Hm as (record & Hrec & Hm).
    apply bind_Some in Hm as (d & Hd%okSome_some & [= <-]). rewrite Hrec. simpl. rewrite Hd. simpl.
    by apply (applySimpleTransition_spec s t (CompletionAccepted (completionDecisionId d))).
Qed.

Lemma perform_continue k r :
  let e := match k with resume => resume_accepted | retry => retry_accepted end in
  performTransition s t e payload = Ok r ↔ performs s t e payload r.
Proof.
  intros e. unfold performs.
  assert (performTransition s t e payload = continueTask s t payload e k) as -> by by destruct k.
  unfold continueTask, transitionPayload. split.
  - intros Hr. inv_guards.
    match goal with He : (length _ =? 0)%nat = true |- _ =>
      apply Nat.eqb_eq, length_zero_iff_nil, continuationReasons_nil in He as Hc end.
    match goal with Hp : parseContinuationCommand _ = Ok ?c |- _ => pose (m := Continue c) end.
    assert (moveEvent m = e) as Hev by (simpl; destruct k; by case_match).
    rewrite <-Hev in Hr.
    apply (applySimpleTransition_spec s t m) in Hr as [? ->]; try done.
    exists m. split_and!; try done.
    destruct k; simpl;
      (apply bind_Some; eexists; split; [eassumption|];
       apply bind_Some; eexists; split; [apply okSome_some; eassumption|];
       apply bind_Some; eexists; split; [apply okSome_some; eassumption|];
       by rewrite !bool_decide_true).
  - intros (m & Hm & Ha & _ & Hr & ->).
    assert (∃ record command acc, readExactRecord payload ["continuation"; "externalAcceptance"] = Some record ∧
      parseContinuationCommand (field record "continuation") = Ok command ∧
      parseExternalAcceptance (field record "externalAcceptance") t = Ok acc ∧
      commandTaskId command = id t ∧ kind command = k ∧ m = Continue command)
      as (record & command & acc & Hrec & Hcmd & Hacc & Hid & Hk & ->).
    { destruct k; simpl in Hm;
        apply bind_Some in Hm as (record & Hrec & Hm);
        apply bind_Some in Hm as (command & Hcmd%okSome_some & Hm);
        apply bind_Some in Hm as (acc & Hacc%okSome_some & Hm);
        (destruct (bool_decide _ && bool_decide _) eqn:Hb; [|done]); simplify_eq; inv_bool;
        eauto 12. }
    rewrite Hrec. simpl. rewrite Hcmd. simpl. rewrite !bool_decide_true by done. simpl.
    rewrite (proj2 (continuationReasons_nil s t command) Ha). simpl. rewrite Hacc. simpl.
    assert (e = moveEvent (Continue command)) as -> by (subst k; simpl; by destruct (kind command)).
    by apply (applySimpleTransition_spec s t (Continue command)).
Qed.
Lemma cancelVerification_ok value v :
  cancelVerification t value = Ok v →
  nullableIdentifier v ∧
  (is_Some v ↔ state t = waiting ∧
     ∃ w, taskWaiting t = Some w ∧ executionId (waitingInput w) ≠ None).
Proof.
  intros Hv. unfold cancelVerification, noExecutionDisposition in Hv.
  assert (∀ (P Q : Prop), ¬ P → ¬ Q → P ↔ Q) as Hno by tauto.
  assert (∀ A, ¬ is_Some (@None A)) as Hn by by intros A [].
  destruct (decide (state t = waiting)) as [Hst|Hst].
  2: { destruct (state t); try done; inv_guards; destruct (isNull value); try done;
         simplify_eq; (split; [done|]); apply Hno; [done|by intros []|done|by intros []|..];
         try done; by intros []. }
  rewrite Hst in *. destruct (taskWaiting t) as [w|] eqn:Hw; simpl in Hv.
  - destruct (executionId (waitingInput w)) as [x|] eqn:Hx.
    + inv_guards. simplify_eq. split.
      * match goal with Hd : parseExecutionDisposition _ _ = Ok _ |- _ =>
          apply parseExecutionDisposition_identifier in Hd end. by intros [= ?].
      * split; [|by eauto]. intros _. split; [done|]. exists w. by rewrite Hx.
    + inv_guards. destruct (isNull value); [|done]. simplify_eq. split; [done|].
      apply Hno; [done|]. intros (_ & ? & [= <-] & ?). by rewrite Hx in *.
  - inv_guards. destruct (isNull value); [|done]. simplify_eq. split; [done|].
    apply Hno; [done|]. by intros (_ & ? & ? & ?).
Qed.
Lemma parseDependentWaiting_sound value inputs :
  parseDependentWaiting value = Ok inputs →
  Forall (λ i, waitingInput_wf (dependentWaiting i)) inputs.
Proof.
  intros Hp. unfold parseDependentWaiting in Hp. inv_guards. injection Hp as <-.
  unfold sortByKey. rewrite sortBy_perm.
  match goal with Hi : parseIndexed _ _ _ _ = Ok _ |- _ =>
    revert Hi; apply parseIndexed_sound end.
  intros v p i Hi. unfold parseDependentEntry in Hi. inv_guards. injection Hi as <-.
  by eapply parseWaitingInput_sound.
Qed.

(** The two cancellations share their tail. *)
Lemma cancel_tail m fact r :
  moveAllowed s t m → moveTarget m = cancelled →
  withState cancelled
    (withWaiting None (withCompletion None (withCancellation (Some fact) t))) = movePatch m t →
  Forall (λ i, waitingInput_wf (dependentWaiting i)) (moveDependents m) →
  cancelWithDirectDependents s t fact (moveDependents m) (moveEvent m) = Ok r ↔
  dependentsCovered s t (moveDependents m) ∧ revision t ≠ MAX_SAFE_INTEGER ∧ r = moveResult s m t.
Proof.
  intros Ha Htarget Hp Hin. apply cancelWithDirectDependents_spec; try done.
  intros Hr. eapply moved_wf; [by eapply wf_task|done|done].
Qed.

Lemma perform_cancel r :
  state t = idea ∨ state t = ready ∨ state t = waiting →
  performTransition s t cancel payload = Ok r ↔ performs s t cancel payload r.
Proof.
  intros Hst. unfold performs. simpl. unfold transitionPayload. split.
  - intros Hr. inv_guards.
    match goal with Ht : isCanonicalCancellationReason _ = Some ?x,
                    Hv : cancelVerification _ _ = Ok ?v,
                    Hd : parseDependentWaiting _ = Ok ?d |- _ =>
      apply cancelVerification_ok in Hv as Hvw; destruct Hvw as [? ?];
      apply parseDependentWaiting_sound in Hd as Hdw;
      apply isCanonicalCancellationReason_ok in Ht as Htw; destruct Htw as [_ ?];
      pose (m := Cancel x v d) end.
    assert (moveAllowed s t m) as Ha by by split_and!.
    apply (cancel_tail m) in Hr as (? & ? & ->); try done.
    exists m. split_and!; try done.
    do 3 (apply bind_Some; eexists; split; [first [eassumption|apply okSome_some; eassumption]|]).
    apply bind_Some; eexists; split; [apply okSome_some; eassumption|done].
  - intros (m & Hm & Ha & Hcover & Hr & ->).
    apply bind_Some in Hm as (record & Hrec & Hm). apply bind_Some in Hm as (x & Hx & Hm).
    apply bind_Some in Hm as (d & Hd%okSome_some & Hm).
    apply bind_Some in Hm as (v & Hv%okSome_some & [= <-]).
    rewrite Hrec. simpl. rewrite Hx. simpl. rewrite Hd. simpl. rewrite Hv. simpl.
    apply (cancel_tail (Cancel x v d)); try done; [by eapply parseDependentWaiting_sound|].
    split; [by apply Hcover|done].
Qed.

Lemma perform_interruption r :
  state t = running →
  performTransition s t interruption_verified payload = Ok r ↔
  performs s t interruption_verified payload r.
Proof.
  intros Hst. unfold performs. simpl. unfold transitionPayload. split.
  - intros Hr. inv_guards.
    match goal with Ht : isCanonicalCancellationReason _ = Some ?x,
                    Hv : parseExecutionDisposition _ _ = Ok ?v,
                    Hd : parseDependentWaiting _ = Ok ?d |- _ =>
      apply parseExecutionDisposition_identifier in Hv as Hvw;
      apply parseDependentWaiting_sound in Hd as Hdw;
      apply isCanonicalCancellationReason_ok in Ht as Htw; destruct Htw as [_ ?];
      pose (m := InterruptionVerified x (dispositionReceiptId v) d) end.
    assert (moveAllowed s t m) as Ha by by split_and!.
    apply (cancel_tail m) in Hr as (? & ? & ->); try done.
    exists m. split_and!; try done.
    do 4 (apply bind_Some; eexists; split; [first [eassumption|apply okSome_some; eassumption]|]).
    by rewrite !bool_decide_true.
  - intros (m & Hm & Ha & Hcover & Hr & ->).
    apply bind_Some in Hm as (record & Hrec & Hm). apply bind_Some in Hm as (x & Hx & Hm).
    apply bind_Some in Hm as (v & Hv%okSome_some & Hm).
    apply bind_Some in Hm as (d & Hd%okSome_some & Hm).
    destruct (bool_decide _ && bool_decide _) eqn:Hb; [|done]. simplify_eq.
    rewrite Hrec. simpl. rewrite Hx. simpl. rewrite Hv. simpl. rewrite Hb, Hd. simpl.
    apply (cancel_tail (InterruptionVerified x (dispositionReceiptId v) d)); try done;
      [by eapply parseDependentWaiting_sound|]. split; [by apply Hcover|done].
Qed.

Lemma performTransition_spec e r :
  legalSource e (state t) →
  performTransition s t e payload = Ok r ↔ performs s t e payload r.
Proof.
  destruct e; simpl; intros Hst.
  - by apply perform_mark_ready.
  - by apply perform_cancel.
  - by apply perform_claim.
  - by apply perform_dependency_cancelled.
  - by apply perform_execution_wait.
  - by apply perform_completion.
  - by apply perform_interruption.
  - by apply (perform_continue resume).
  - by apply (perform_continue retry).
Qed.
End perform.

(** ** The command *)

Definition readTransition
    : JsValue → option (JsString * TaskTransitionEvent * TaskState * JsValue) :=
  readFields ["taskId"; "event"; "targetState"; "payload"] (λ record,
    taskId ← isIdentifier (field record "taskId");
    transition ← isTransitionEvent (field record "event");
    targetState ← isTaskState (field record "targetState");
    Some (taskId, transition, targetState, field record "payload")).

Theorem transitionTask_refines v c r :
  transitionTask v c = Ok r ↔
  ∃ s t e payload m, parseSnapshot v mode_complete = Ok s ∧ t ∈ tasks s ∧
    readTransition c = Some (id t, e, legalTarget e, payload) ∧
    readMove t e payload = Some m ∧ taskStep s (Move (id t) m) r.
Proof.
  unfold transitionTask, guardPublicResult, parseTaskCommand. split.
  - intros Hr. apply result_bind_ok in Hr as (s & Hp & Hr).
    pose proof (parseSnapshot_sound _ _ _ Hp) as Hs.
    apply result_bind_ok in Hr as (record & Hrec%ok_or_ok & Hr).
    apply result_bind_ok in Hr as ([[k e] target] & Hread%ok_or_ok & Hr).
    apply result_bind_ok in Hr as (t & Hf%ok_or_ok & Hr).
    apply (taskById_Some _ _ _ _ Hs) in Hf as [Ht <-].
    apply guard_ok in Hr as [Hl%negb_true_iff Hr]. apply guard_ok in Hr as [Hlegal Hr].
    apply legalTransition_iff in Hlegal as [Hsource ->].
    apply performTransition_spec in Hr as (m & Hm & Ha & Hcover & Hrev & ->); try done.
    exists s, t, e, (field record "payload"), m. split_and!; try done; [|by constructor].
    apply readFields_some. exists record. split; [done|].
    apply bind_Some in Hread as (? & Hk & Hread). apply bind_Some in Hread as (? & He & Hread).
    apply bind_Some in Hread as (? & Htg & Hread). simplify_eq. by rewrite Hk, He, Htg.
  - intros (s & t & e & payload & m & Hp & Ht & (record & Hrec & Hread)%readFields_some & Hm & Hstep).
    pose proof (parseSnapshot_sound _ _ _ Hp) as Hs.
    apply bind_Some in Hread as (? & Hk & Hread). apply bind_Some in Hread as (? & He & Hread).
    apply bind_Some in Hread as (? & Htg & Hread). simplify_eq.
    inversion Hstep as [| | | | | | |t' ? (Ht' & Hl & Hrev) Ha Hcover Hid]; subst.
    assert (t' = t) as -> by by eapply same_task.
    rewrite Hp. cbn [result_bind]. rewrite Hrec. cbn [ok_or result_bind]. rewrite Hk, He, Htg.
    cbn [mbind option_bind ok_or result_bind].
    rewrite (proj2 (taskById_Some _ s (id t) t Hs)) by done. cbn [ok_or result_bind].
    apply guard_ok. split; [by rewrite Hl|]. apply guard_ok.
    assert (legalTransition (state t) (legalTarget e) e = true) as Hlegal.
    { rewrite <-(readMove_event _ _ _ _ Hm).
      pose proof (move_legal _ _ _ Ha) as Hml. pose proof Hml as Hml'.
      apply legalTransition_iff in Hml' as [_ <-]. done. }
    split; [done|]. apply legalTransition_iff in Hlegal as [Hsource _].
    apply performTransition_spec; try done. by exists m.
Qed.
End moves.
