(* ===== verification/DomainMachine.v ===== *)
(** * Running the domain commands

    The commands of domain.ts as one family ([runTaskCommand],
    [runProjectCommand]), the snapshots they can reach from the empty one, and
    the invariants of every reachable snapshot. *)

From S2P Require Import Prelude JsValue UnicodeText DomainModel DomainParse DomainGraph DomainSnapshot DomainCommands DomainTransition DomainUpdate DomainSpec DomainRefinement DomainMoves.

(** ** The command family *)

Inductive TaskCommand : Type :=
  | cmd_createTask | cmd_updateTaskBody | cmd_updateTaskWaiting | cmd_setTaskParent
  | cmd_addTaskDependency | cmd_removeTaskDependency | cmd_setTaskSupersession
  | cmd_transitionTask.

Inductive ProjectCommand : Type := cmd_registerProject | cmd_setProjectEnabled.

Section machine.
Context `{UnicodeNormalization}.

Definition runTaskCommand (k : TaskCommand)
    : JsValue → JsValue → DomainResult DomainMutation :=
  match k with
  | cmd_createTask => createTask
  | cmd_updateTaskBody => updateTaskBody
  | cmd_updateTaskWaiting => updateTaskWaiting
  | cmd_setTaskParent => setTaskParent
  | cmd_addTaskDependency => addTaskDependency
  | cmd_removeTaskDependency => removeTaskDependency
  | cmd_setTaskSupersession => setTaskSupersession
  | cmd_transitionTask => transitionTask
  end.

Definition runProjectCommand (k : ProjectCommand)
    : JsValue → JsValue → DomainResult ProjectDomainMutation :=
  match k with
  | cmd_registerProject => registerProject
  | cmd_setProjectEnabled => setProjectEnabled
  end.

(** The action a command value stands for in a snapshot. *)
Definition commandAction (k : TaskCommand) (s : DomainSnapshot) (c : JsValue) (a : TaskAction)
    : Prop :=
  match k with
  | cmd_createTask => ∃ i p b u, readCreateCommand c = Some (i, p, b, u) ∧ a = CreateTask i p b u
  | cmd_updateTaskBody => ∃ i b, readBodyCommand c = Some (i, b) ∧ a = UpdateTaskBody i b
  | cmd_updateTaskWaiting => ∃ i w, readWaitingCommand c = Some (i, w) ∧ a = UpdateTaskWaiting i w
  | cmd_setTaskParent => ∃ i p, readParentCommand c = Some (i, p) ∧ a = SetTaskParent i p
  | cmd_addTaskDependency =>
      ∃ i d, readDependencyCommand c = Some (i, d) ∧ a = AddTaskDependency i d
  | cmd_removeTaskDependency =>
      ∃ i d, readDependencyCommand c = Some (i, d) ∧ a = RemoveTaskDependency i d
  | cmd_setTaskSupersession =>
      ∃ i u, readSupersessionCommand c = Some (i, u) ∧ a = SetTaskSupersession i u
  | cmd_transitionTask =>
      ∃ t e payload m, t ∈ tasks s ∧ readTransition c = Some (id t, e, legalTarget e, payload) ∧
        readMove t e payload = Some m ∧ a = Move (id t) m
  end.

Definition projectAction (k : ProjectCommand) (c : JsValue) (a : ProjectAction) : Prop :=
  match k with
  | cmd_registerProject => ∃ p, readRegistration c = Some p ∧ a = RegisterProject p
  | cmd_setProjectEnabled => ∃ p b, readEnablement c = Some (p, b) ∧ a = SetProjectEnabled p b
  end.

Definition actionProject (a : ProjectAction) : JsString :=
  match a with RegisterProject p => p | SetProjectEnabled p _ => p end.

Lemma runTaskCommand_refines k v c r :
  runTaskCommand k v c = Ok r ↔
  ∃ s a, parseSnapshot v mode_complete = Ok s ∧ commandAction k s c a ∧ taskStep s a r.
Proof.
  destruct k; cbn [runTaskCommand commandAction].
  - rewrite createTask_refines. naive_solver.
  - rewrite updateTaskBody_refines. naive_solver.
  - rewrite updateTaskWaiting_refines. naive_solver.
  - rewrite setTaskParent_refines. naive_solver.
  - rewrite addTaskDependency_refines. naive_solver.
  - rewrite removeTaskDependency_refines. naive_solver.
  - rewrite setTaskSupersession_refines. naive_solver.
  - rewrite transitionTask_refines. split.
    + intros (s & t & e & payload & m & ? & ? & ? & ? & ?). exists s, (Move (id t) m).
      split_and!; [done| |done]. eauto 10.
    + intros (s & a & ? & (t & e & payload & m & ? & ? & ? & ->) & ?). eauto 10.
Qed.

Lemma runProjectCommand_refines k v c r :
  runProjectCommand k v c = Ok r ↔
  ∃ s a s', parseSnapshot v mode_complete = Ok s ∧ projectAction k c a ∧ projectStep s a s' ∧
    r = projectChange s' (actionProject a).
Proof.
  destruct k; cbn [runProjectCommand projectAction].
  - rewrite registerProject_refines. naive_solver.
  - rewrite setProjectEnabled_refines. naive_solver.
Qed.

(** ** What a step does to each task *)

Record evolution (s : DomainSnapshot) (u u' : Task) : Prop := {
  ev_id : id u' = id u;
  ev_project : taskProjectId u' = taskProjectId u;
  ev_change : u' = u ∨
    (isTerminal (state u) = false ∧ revision u' = revision u + 1 ∧
     (state u' = state u ∨ ∃ e, legalTransition (state u) (state u') e = true));
  ev_dependencies : dependencyIds u' = dependencyIds u ∨
    (isGraphMutable (state u) = true ∧ state u' = state u);
  ev_enter : state u' = running → state u = running ∨ dependenciesCompleted s u;
  ev_complete : state u' = completed → state u = running ∨ state u = completed;
}.

Lemma evolution_refl s u : evolution s u u.
Proof. constructor; auto. Qed.

(** A patch that keeps the state. *)
Lemma evolution_edit s u patched :
  isTerminal (state u) = false → sameLinks u (withDependencies (dependencyIds u) (withParent (parentId u)
    (withSupersedes (supersedesTaskId u) patched))) → state patched = state u →
  (dependencyIds patched = dependencyIds u ∨ isGraphMutable (state u) = true) →
  evolution s u (nextCandidate u patched).
Proof.
  intros Hl (Hid & Hp & _) Hst Hd. constructor; simpl in *; auto.
  - destruct Hd; auto.
  - rewrite Hst. auto.
  - rewrite Hst. auto.
Qed.

Lemma evolution_move s t m :
  moveAllowed s t m → evolution s t (moved m t).
Proof.
  intros Ha. pose proof (move_legal s t m Ha) as Hlegal.
  pose proof (moveAllowed_live s t m Ha) as Hl.
  assert (state (moved m t) = moveTarget m) as Hst by by destruct m.
  destruct (moved_links m t) as (Hid & Hp & _ & Hd & _).
  constructor; try done; try (by auto); rewrite Hst.
  - right. split_and!; eauto.
  - intros Hr. destruct m; simpl in *; try done; right.
    + by destruct Ha as (_ & _ & ?).
    + by destruct Ha.
  - intros Hr. destruct m; simpl in *; try done. left. by destruct Ha.
Qed.

Lemma evolution_suspended s u w : state u = ready → evolution s u (suspended w u).
Proof.
  intros Hst. constructor; simpl; auto; [|done..]. right. rewrite Hst. split_and!; try done.
  right. by exists dependency_cancelled.
Qed.

Definition fresh (s : DomainSnapshot) (u : Task) : Prop :=
  state u = idea ∧ revision u = 1 ∧ dependencyIds u = [] ∧ id u ∉ map id (tasks s).

Definition evolves (s s' : DomainSnapshot) : Prop :=
  projects s' = projects s ∧
  (∀ u, u ∈ tasks s → ∃ u', u' ∈ tasks s' ∧ evolution s u u') ∧
  (∀ u', u' ∈ tasks s' → (∃ u, u ∈ tasks s ∧ evolution s u u') ∨ fresh s u').

Lemma evolves_map s f :
  (∀ u, u ∈ tasks s → evolution s u (f u)) →
  evolves s {| projects := projects s; tasks := map f (tasks s) |}.
Proof.
  intros Hf. split_and!; [done| |].
  - intros u Hu. exists (f u). split; [by apply list_elem_of_fmap_2|auto].
  - intros u' (u & -> & Hu)%list_elem_of_fmap. eauto.
Qed.

Lemma evolves_updated s t t' :
  snapshot_wf mode_complete s → t ∈ tasks s → evolution s t t' → evolves s (updated s t').
Proof.
  intros Hs Ht Hev. apply evolves_map. intros u Hu. case_bool_decide as Hid.
  - destruct Hev as [Hid' ? ? ? ? ?].
    rewrite (same_task _ s t u Hs Ht Hu) by congruence. by constructor.
  - apply evolution_refl.
Qed.

Lemma taskStep_evolves s a r :
  snapshot_wf mode_complete s → taskStep s a r → evolves s (snapshot (value r)).
Proof.
  intros Hs Hstep. destruct Hstep as
    [newId pid newBody sup ? Hnew|t ? (Ht & Hl & _)|t ? ? (Ht & Hl & _)|t ? (Ht & Hl & _)
    |t ? (Ht & Hl & _)|t ? (Ht & Hl & _)|t ? (Ht & Hl & _)|t m (Ht & Hl & _) Ha Hcover]; simpl.
  - split_and!; [done| |].
    + intros u Hu. exists u. rewrite elem_of_addTask. split; [by left|apply evolution_refl].
    + intros u [Hu| ->]%elem_of_addTask; [left; eauto using evolution_refl|by right].
  - apply (evolves_updated s t); [done..|]. apply evolution_edit; by auto.
  - apply (evolves_updated s t); [done..|]. apply evolution_edit; by auto.
  - apply (evolves_updated s t); [done..|]. apply evolution_edit; by auto.
  - apply (evolves_updated s t); [done..|]. apply evolution_edit; by auto.
  - apply (evolves_updated s t); [done..|]. apply evolution_edit; by auto.
  - apply (evolves_updated s t); [done..|]. apply evolution_edit; by auto.
  - apply evolves_map. intros u Hu. unfold afterMove. case_bool_decide as Hid.
    { rewrite (same_task _ s t u Hs Ht Hu Hid). by apply evolution_move. }
    destruct (List.find _ _) as [i|] eqn:Hf; [|apply evolution_refl].
    assert (moveTarget m = cancelled) as Htarget by (destruct m; done).
    destruct (dependent_of s t m Hs (Hcover Htarget) u i Hu Hid Hf)
      as [(_ & ? & _)%readyDirectDependents_elem _]. by apply evolution_suspended.
Qed.
(** ** Steps preserve well-formedness *)

Lemma move_wf s t m :
  snapshot_wf mode_complete s → t ∈ tasks s → moveAllowed s t m →
  (moveTarget m = cancelled → dependentsCovered s t (moveDependents m)) →
  revision t ≠ MAX_SAFE_INTEGER → snapshot_wf mode_complete (snapshot (value (moveResult s m t))).
Proof.
  intros Hs Ht Ha Hcover Hr.
  assert (task_wf (moved m t)) as Hwf by (eapply moved_wf; [by eapply wf_task|done|done]).
  destruct (decide (moveTarget m = cancelled)) as [Htarget|Htarget].
  - by apply cancel_commit; auto.
  - simpl. rewrite afterMove_alone by (by destruct m).
    apply (admissible_update s t (moved m t)); [done..|].
    apply admissible_links; [done..|apply moved_links].
Qed.

Lemma taskStep_wf s a r :
  snapshot_wf mode_complete s → taskStep s a r → snapshot_wf mode_complete (snapshot (value r)).
Proof.
  intros Hs Hstep. destruct Hstep as
    [newId pid newBody sup ? Hnew|t ? (Ht & Hl & Hr)|t w ? (Ht & Hl & Hr) Hst ? Hw|t ? (Ht & Hl & Hr)
    |t ? (Ht & Hl & Hr)|t ? (Ht & Hl & Hr)|t ? (Ht & Hl & Hr)|t m (Ht & Hl & Hr) Ha Hcover];
    cbn [taskChange value snapshot].
  - by apply addTask_wf.
  - apply (admissible_update s t); [done..|]. by apply patch_body_admissible.
  - apply (admissible_update s t); [done..|].
    by apply (patch_waiting_admissible s t w Hs Ht Hst Hr Hw 0).
  - apply (admissible_update s t); [done..|]. by apply admissible_parent.
  - apply (admissible_update s t); [done..|]. by apply add_dependency_admissible.
  - apply (admissible_update s t); [done..|]. by apply remove_dependency_admissible.
  - apply (admissible_update s t); [done..|]. by apply admissible_supersedes.
  - by apply move_wf.
Qed.

Lemma projectStep_wf s a s' :
  snapshot_wf mode_complete s → projectStep s a s' → snapshot_wf mode_complete s'.
Proof.
  intros Hs Hstep. destruct Hstep as [pid Hid Hnew|p b Hp Hne]; [by apply register_wf|].
  by apply enable_wf.
Qed.

Lemma projectStep_tasks s a s' : projectStep s a s' → tasks s' = tasks s.
Proof. by intros []. Qed.

(** ** Reachable snapshots *)

Definition emptySnapshot : DomainSnapshot := {| projects := []; tasks := [] |}.

(** The host feeds each result back as the next snapshot value, with any
    command value whatever. *)
Inductive reachable : DomainSnapshot → Prop :=
  | reach_empty : reachable emptySnapshot
  | reach_task s k c r :
      reachable s → runTaskCommand k (snapshotValue s) c = Ok r → reachable (snapshot (value r))
  | reach_project s k c r :
      reachable s → runProjectCommand k (snapshotValue s) c = Ok r →
      reachable (projectSnapshot (value r)).

Lemma empty_wf : snapshot_wf mode_complete emptySnapshot.
Proof.
  constructor; simpl; try constructor; try (by intros ? []%elem_of_nil);
    try (by intros ? ? []%elem_of_nil).
  - intros x Hx. apply (Acc_no_cycle (parentEdge []) x); [|done].
    constructor. intros y (t & []%elem_of_nil & _).
  - intros x Hx. apply (Acc_no_cycle (dependencyEdge []) x); [|done].
    constructor. intros y (t & []%elem_of_nil & _).
Qed.

(** Each command run on a well-formed snapshot is a step of the machine. *)
Lemma run_is_step k s c r :
  snapshot_wf mode_complete s → runTaskCommand k (snapshotValue s) c = Ok r →
  ∃ a, commandAction k s c a ∧ taskStep s a r.
Proof.
  intros Hs (s' & a & Hp & Ha & Hstep)%runTaskCommand_refines.
  rewrite parseSnapshot_value in Hp by done. injection Hp as <-. eauto.
Qed.

Lemma run_is_projectStep k s c r :
  snapshot_wf mode_complete s → runProjectCommand k (snapshotValue s) c = Ok r →
  ∃ a, projectStep s a (projectSnapshot (value r)).
Proof.
  intros Hs (s0 & a & s' & Hp & Ha & Hstep & ->)%runProjectCommand_refines.
  rewrite parseSnapshot_value in Hp by done. injection Hp as <-. eauto.
Qed.

Lemma reachable_invariant s : reachable s → snapshot_wf mode_complete s.
Proof.
  induction 1 as [|s k c r _ Hs Hr|s k c r _ Hs Hr]; [apply empty_wf| |].
  - destruct (run_is_step _ _ _ _ Hs Hr) as (a & _ & Hstep). by eapply taskStep_wf.
  - destruct (run_is_projectStep _ _ _ _ Hs Hr) as (a & Hstep). by eapply projectStep_wf.
Qed.
(** ** Which tasks change, and what is reported *)

Definition changesOnly (s : DomainSnapshot) (r : DomainSuccess DomainMutation) : Prop :=
  ∀ u, u ∈ tasks s → ∃ u', u' ∈ tasks (snapshot (value r)) ∧ id u' = id u ∧
    (id u ∈ changedTaskIds (value r) → revision u' = revision u + 1) ∧
    (id u ∉ changedTaskIds (value r) → u' = u).

Lemma changesOnly_one s t t' type details :
  snapshot_wf mode_complete s → t ∈ tasks s → id t' = id t → revision t' = revision t + 1 →
  changesOnly s (taskChange s t t' type details).
Proof.
  intros Hs Ht Hid Hr u Hu. cbn [taskChange value snapshot changedTaskIds].
  destruct (decide (id u = id t)) as [Heq|Hne].
  - rewrite (same_task _ s t u Hs Ht Hu Heq). exists t'. split_and!; try done.
    + apply elem_of_putTask. left. split; [done|]. rewrite Hid. by apply list_elem_of_fmap_2.
    + intros Hn. exfalso. apply Hn. set_solver.
  - exists u. split_and!; try done.
    + apply elem_of_putTask. right. by rewrite Hid.
    + by intros ?%list_elem_of_singleton.
Qed.

Lemma changesOnly_move s t m :
  snapshot_wf mode_complete s → t ∈ tasks s →
  changesOnly s (moveResult s m t).
Proof.
  intros Hs Ht u Hu. cbn [moveResult value snapshot changedTaskIds tasks].
  exists (afterMove m t u). split; [by apply list_elem_of_fmap_2|].
  unfold sortByKey. rewrite elem_of_sortBy, elem_of_cons. unfold afterMove.
  case_bool_decide as Hid.
  { rewrite (same_task _ s t u Hs Ht Hu Hid). rewrite moved_id. split_and!; [done|done|naive_solver]. }
  destruct (List.find _ _) as [i|] eqn:Hf.
  - apply find_Some_iff in Hf as [Hi Hf]. apply bool_decide_eq_true in Hf.
    split_and!; [done|done|]. intros Hn. exfalso. apply Hn. right. rewrite <-Hf.
    by apply list_elem_of_fmap_2.
  - split_and!; [done| |done]. intros [?|(i & Hi & Hin)%list_elem_of_fmap]; [done|].
    apply (proj1 (find_None_iff _ _)) with (x := i) in Hf; [|done].
    by apply bool_decide_eq_false in Hf.
Qed.

Lemma taskStep_changes s a r :
  snapshot_wf mode_complete s → taskStep s a r → changesOnly s r.
Proof.
  intros Hs Hstep. destruct Hstep as
    [newId pid newBody sup ? Hnew|t ? (Ht & _)|t ? ? (Ht & _)|t ? (Ht & _)
    |t ? (Ht & _)|t ? (Ht & _)|t ? (Ht & _)|t m (Ht & _) Ha Hcover].
  1: { intros u Hu. exists u. cbn [value snapshot changedTaskIds].
       rewrite elem_of_addTask. split_and!; [by left|done| |done].
       intros <-%list_elem_of_singleton. by destruct Hnew; apply list_elem_of_fmap_2. }
  all: by apply changesOnly_one || by apply changesOnly_move.
Qed.

(** Every change is reported by exactly one event about the task. *)
Lemma taskStep_events s a r :
  snapshot_wf mode_complete s → taskStep s a r →
  map eventTaskId (events r) ≡ₚ changedTaskIds (value r).
Proof.
  intros Hs Hstep. destruct Hstep as [| | | | | | |t m (Ht & _) Ha Hcover]; try done.
  cbn [moveResult events value changedTaskIds]. unfold sortByKey. rewrite sortBy_perm.
  unfold moveEvents. simpl. apply Permutation_cons; [done|].
  destruct (decide (moveTarget m = cancelled)) as [Htarget|Htarget].
  - rewrite Htarget, map_map. destruct (Hcover Htarget) as [-> _ _ _]. done.
  - assert (moveDependents m = []) as -> by by destruct m. by destruct (moveTarget m).
Qed.
End machine.
