(* ===== verification/DomainProperties.v ===== *)
(** * Properties of the domain core (src/src/domain.ts)

    The claims about the domain commands, each with a run of the code that
    meets its hypotheses.  The proofs apply the lemmas of the component files. *)

From S2P Require Import Prelude JsValue UnicodeText DomainModel DomainParse DomainGraph DomainSnapshot DomainCommands DomainTransition DomainUpdate DomainSpec DomainRefinement DomainMoves DomainMachine.

(** ** A concrete run

    Two tasks of one project, the second depending on the first: the first is
    completed and the second claimed. *)

Module Demo.
#[local] Existing Instance latinNormalization.

Definition str (s : string) : JsValue := JString (js s).

Definition receipt (task : string) (rev : Z) : JsValue :=
  jsObject [("taskId", str task); ("taskRevision", jsInteger rev);
            ("authorization", str "accepted"); ("reliability", str "accepted")].

Definition transition (task ev target : string) (payload : JsValue) : TaskCommand * JsValue :=
  (cmd_transitionTask,
   jsObject [("taskId", str task); ("event", str ev); ("targetState", str target);
             ("payload", payload)]).

Definition newTaskCommand (task : string) : TaskCommand * JsValue :=
  (cmd_createTask,
   jsObject [("id", str task); ("projectId", str "p"); ("body", str "work");
             ("supersedesTaskId", JNull)]).

Definition prefixScript : list (TaskCommand * JsValue) :=
  [newTaskCommand "a"; newTaskCommand "b";
   (cmd_addTaskDependency, jsObject [("taskId", str "b"); ("dependencyId", str "a")]);
   transition "a" "mark_ready" "ready" (jsObject []);
   transition "b" "mark_ready" "ready" (jsObject [])].

Definition middleScript : list (TaskCommand * JsValue) :=
  prefixScript ++
  [transition "a" "claim_accepted" "running" (jsObject [("externalAcceptance", receipt "a" 2)]);
   transition "a" "completion_accepted" "completed"
     (jsObject [("decision",
        jsObject [("decisionId", str "d1"); ("taskId", str "a"); ("taskRevision", jsInteger 3);
                  ("status", str "accepted")])])].

Definition claimB : TaskCommand * JsValue :=
  transition "b" "claim_accepted" "running" (jsObject [("externalAcceptance", receipt "b" 3)]).

Definition script : list (TaskCommand * JsValue) := middleScript ++ [claimB].

Fixpoint runScript (commands : list (TaskCommand * JsValue)) (s : DomainSnapshot)
    : option DomainSnapshot :=
  match commands with
  | [] => Some s
  | (k, c) :: rest =>
      match runTaskCommand k (snapshotValue s) c with
      | Ok r => runScript rest (snapshot (value r))
      | Err _ => None
      end
  end.

Lemma runScript_reachable commands s s' :
  reachable s → runScript commands s = Some s' → reachable s'.
Proof.
  revert s. induction commands as [|[k c] rest IH]; intros s Hs; simpl; [by intros [= <-]|].
  destruct (runTaskCommand _ _ _) as [r|] eqn:Hr; [|done]. apply IH. by eapply reach_task.
Qed.

Definition start : DomainSnapshot :=
  match registerProject (snapshotValue emptySnapshot) (jsObject [("projectId", str "p")]) with
  | Ok r => projectSnapshot (value r)
  | Err _ => emptySnapshot
  end.

(** [before]: both tasks ready; [middle]: [a] completed; [final]: [b] running. *)
Definition before : DomainSnapshot := default emptySnapshot (runScript prefixScript start).
Definition middle : DomainSnapshot := default emptySnapshot (runScript middleScript start).
Definition final : DomainSnapshot := default emptySnapshot (runScript script start).

Definition noTask : Task := newTask (js "?") (js "?") [] None.
Definition taskOf (s : DomainSnapshot) (k : string) : Task := default noTask (taskById s (js k)).

Definition noMutation : DomainSuccess DomainMutation :=
  {| value := {| snapshot := emptySnapshot; changedTaskIds := [] |}; events := [] |}.

Definition resultOf (s : DomainSnapshot) (command : TaskCommand * JsValue)
    : DomainSuccess DomainMutation :=
  match runTaskCommand command.1 (snapshotValue s) command.2 with
  | Ok r => r
  | Err _ => noMutation
  end.

Lemma start_reachable : reachable start.
Proof.
  destruct (registerProject (snapshotValue emptySnapshot) (jsObject [("projectId", str "p")]))
    as [r|] eqn:Hr; [|by vm_compute in Hr].
  unfold start. rewrite Hr. eapply (reach_project _ cmd_registerProject); [apply reach_empty|exact Hr].
Qed.

Lemma script_reachable commands :
  is_Some (runScript commands start) → reachable (default emptySnapshot (runScript commands start)).
Proof.
  intros [s Hs]. rewrite Hs. eapply runScript_reachable; [apply start_reachable|exact Hs].
Qed.

Lemma before_reachable : reachable before.
Proof. apply script_reachable. vm_compute. eauto. Qed.

Lemma middle_reachable : reachable middle.
Proof. apply script_reachable. vm_compute. eauto. Qed.

Lemma final_reachable : reachable final.
Proof. apply script_reachable. vm_compute. eauto. Qed.

Lemma before_wf : snapshot_wf mode_complete before.
Proof. apply reachable_invariant, before_reachable. Qed.

Lemma middle_wf : snapshot_wf mode_complete middle.
Proof. apply reachable_invariant, middle_reachable. Qed.

Lemma taskOf_in s k : is_Some (taskById s (js k)) → taskOf s k ∈ tasks s.
Proof. intros [t Ht]. unfold taskOf. rewrite Ht. by apply findTask_Some in Ht as [? _]. Qed.

Lemma final_states : map (λ t, (id t, state t, revision t)) (tasks final) =
  [(js "a", completed, 4); (js "b", running, 4)].
Proof. by vm_compute. Qed.
End Demo.

(** ** Properties *)

Section properties.
Context `{UnicodeNormalization}.

(** C1 Whatever the snapshot and command values are, a task command of the
    code succeeds exactly when the snapshot parses, the command reads as an
    action, and the action is a step of the abstract task graph; the returned
    snapshot, changed identities and events are those of the step.  In
    particular the re-validation inside each command never rejects an update
    that the abstract machine allows. *)
Theorem task_commands_refine k v c r :
  runTaskCommand k v c = Ok r ↔
  ∃ s a, parseSnapshot v mode_complete = Ok s ∧ commandAction k s c a ∧ taskStep s a r.
Proof. apply runTaskCommand_refines. Qed.

(** C29 The project commands succeed exactly on the registration of a new
    identifier or a change of enablement of a registered project, and return
    the snapshot of that step with the project named and no task event. *)
Theorem project_commands_refine k v c r :
  runProjectCommand k v c = Ok r ↔
  ∃ s a s', parseSnapshot v mode_complete = Ok s ∧ projectAction k c a ∧ projectStep s a s' ∧
    r = projectChange s' (actionProject a).
Proof. apply runProjectCommand_refines. Qed.

(** C10 [createDomainSnapshot] accepts well-formed snapshots only, whatever value
    it is given: what it returns satisfies the whole domain invariant (sorted
    unique identifiers, coherent facts, registered references, acyclic parent
    and dependency graphs) and comes with no event.  Every snapshot that
    satisfies it is accepted and read back unchanged, and the projects and
    tasks may be listed in any order: the answer holds them sorted. *)
Theorem createDomainSnapshot_characterised :
  (∀ v r, createDomainSnapshot v = Ok r →
     snapshot_wf mode_complete (value r) ∧ events r = []) ∧
  (∀ s, snapshot_wf mode_complete s ↔
     createDomainSnapshot (snapshotValue s) = Ok {| value := s; events := [] |}) ∧
  (∀ s ps ts, snapshot_wf mode_complete s → ps ≡ₚ projects s → ts ≡ₚ tasks s →
     createDomainSnapshot (jsObject [("projects", jsArray (map projectValue ps));
                                     ("tasks", jsArray (map taskValue ts))]) =
       Ok {| value := s; events := [] |}).
Proof.
  unfold createDomainSnapshot, guardPublicResult. split_and!.
  - intros v r (s & Hp & [= <-])%result_bind_ok. split; [by eapply parseSnapshot_sound|done].
  - intros s. split; [intros Hwf; by rewrite parseSnapshot_value|].
    intros (s' & Hp & [= <-])%result_bind_ok. by eapply parseSnapshot_sound.
  - intros s ps ts Hwf Hps Hts. destruct s as [sps sts]; simpl in *.
    pose proof (parseSnapshot_lists mode_complete ps ts) as Hp. simpl in Hp.
    rewrite (sortByKey_perm projectId ps sps) in Hp by (try done; by destruct Hwf).
    rewrite (sortByKey_perm id ts sts) in Hp by (try done; by destruct Hwf).
    by rewrite Hp.
Qed.

(** C5 Every command run on any values preserves the invariant, and so do runs
    of the project commands: whatever is returned is a well-formed snapshot. *)
Theorem commands_preserve_invariant :
  (∀ k v c r, runTaskCommand k v c = Ok r → snapshot_wf mode_complete (snapshot (value r))) ∧
  (∀ k v c r, runProjectCommand k v c = Ok r →
     snapshot_wf mode_complete (projectSnapshot (value r))).
Proof.
  split.
  - intros k v c r (s & a & Hp & _ & Hstep)%runTaskCommand_refines.
    eapply taskStep_wf; [by eapply parseSnapshot_sound|done].
  - intros k v c r (s & a & s' & Hp & _ & Hstep & ->)%runProjectCommand_refines.
    eapply projectStep_wf; [by eapply parseSnapshot_sound|done].
Qed.

Lemma completed_persists s s' t d :
  snapshot_wf mode_complete s' → evolves s s' → taskById s d = Some t →
  state t = completed → taskById s' d = Some t.
Proof.
  intros Hs' (_ & Hforward & _) [Ht <-]%findTask_Some Hst.
  destruct (Hforward t Ht) as (t' & Ht' & Hev).
  destruct (ev_change _ _ _ Hev) as [->|(Hl & _)]; [|by rewrite Hst in Hl].
  by apply (taskById_Some _ _ _ _ Hs').
Qed.

Lemma gate_preserved s s' :
  snapshot_wf mode_complete s' → evolves s s' →
  (∀ u, u ∈ tasks s → state u = running ∨ state u = completed → dependenciesCompleted s u) →
  ∀ u, u ∈ tasks s' → state u = running ∨ state u = completed → dependenciesCompleted s' u.
Proof.
  intros Hs' Hev Hgate u' Hu' Hst'.
  assert (∃ u, dependencyIds u' = dependencyIds u ∧ dependenciesCompleted s u)
    as (u & Hd & Hdone).
  { destruct Hev as (_ & _ & Hback). destruct (Hback u' Hu') as [(u & Hu & Hue)|(Hst & _)].
    2: { destruct Hst'; congruence. }
    exists u. destruct Hue as [_ _ _ Hdeps Henter Hcomplete]. split.
    - destruct Hdeps as [?|[Hg Hsame]]; [done|].
      rewrite <-Hsame in Hg. by destruct Hst' as [Hx|Hx]; rewrite Hx in Hg.
    - destruct Hst' as [Hr|Hc]; [destruct (Henter Hr); auto|].
      destruct (Hcomplete Hc); auto. }
  intros d Hin. rewrite Hd in Hin. destruct (Hdone d Hin) as (v & Hv & Hvs).
  exists v. split; [|done]. by eapply completed_persists.
Qed.

(** C3 Execution order: in every snapshot the commands can reach from the
    empty one, a running or completed task has all its dependencies completed. *)
Theorem running_after_dependencies s u :
  reachable s → u ∈ tasks s → state u = running ∨ state u = completed →
  dependenciesCompleted s u.
Proof.
  intros Hreach. revert u. induction Hreach as [|s k c r Hreach IH Hr|s k c r Hreach IH Hr].
  - by intros u Hu%elem_of_nil.
  - pose proof (reachable_invariant s Hreach) as Hs.
    destruct (run_is_step _ _ _ _ Hs Hr) as (a & _ & Hstep).
    eapply gate_preserved; [by eapply taskStep_wf|by eapply taskStep_evolves|done].
  - pose proof (reachable_invariant s Hreach) as Hs.
    destruct (run_is_projectStep _ _ _ _ Hs Hr) as (a & Hstep).
    intros u Hu Hst d Hd. rewrite (projectStep_tasks _ _ _ Hstep) in Hu.
    destruct (IH u Hu Hst d Hd) as (t & Ht & ?). exists t. unfold taskById in *.
    by rewrite (projectStep_tasks _ _ _ Hstep).
Qed.

(** C14 Terminal immutability: no command changes, moves or removes a completed
    or cancelled task. *)
Theorem terminal_tasks_immutable k s c r t :
  snapshot_wf mode_complete s → runTaskCommand k (snapshotValue s) c = Ok r →
  t ∈ tasks s → isTerminal (state t) = true → t ∈ tasks (snapshot (value r)).
Proof.
  intros Hs Hr Ht Hterm. destruct (run_is_step _ _ _ _ Hs Hr) as (a & _ & Hstep).
  destruct (taskStep_evolves _ _ _ Hs Hstep) as (_ & Hforward & _).
  destruct (Hforward t Ht) as (t' & Ht' & Hev).
  destruct (ev_change _ _ _ Hev) as [->|(Hl & _)]; [done|congruence].
Qed.

(** C22 Only [TASK_TRANSITIONS]: when a command changes the state of a task, the
    pair of states is a row of the transition relation, and the project of the
    task is unchanged. *)
Theorem state_changes_are_legal k s c r t :
  snapshot_wf mode_complete s → runTaskCommand k (snapshotValue s) c = Ok r → t ∈ tasks s →
  ∃ t', t' ∈ tasks (snapshot (value r)) ∧ id t' = id t ∧ taskProjectId t' = taskProjectId t ∧
    (state t' = state t ∨
     ∃ row, row ∈ TASK_TRANSITIONS ∧ from row = state t ∧ to row = state t').
Proof.
  intros Hs Hr Ht. destruct (run_is_step _ _ _ _ Hs Hr) as (a & _ & Hstep).
  destruct (taskStep_evolves _ _ _ Hs Hstep) as (_ & Hforward & _).
  destruct (Hforward t Ht) as (t' & Ht' & Hev). exists t'.
  destruct Hev as [Hid Hp [->|(_ & _ & [Hst|(e & Hlegal)])] _ _ _]; split_and!; auto.
  right. unfold legalTransition in Hlegal. apply existsb_true in Hlegal as (row & Hrow & Hm).
  inv_bool. by exists row.
Qed.

(** C21 Frame and revisions: after a command, every task named as changed has
    exactly the next revision, every other task is untouched, and the events
    are about exactly the changed tasks, one each. *)
Theorem revisions_and_events k s c r :
  snapshot_wf mode_complete s → runTaskCommand k (snapshotValue s) c = Ok r →
  changesOnly s r ∧ map eventTaskId (events r) ≡ₚ changedTaskIds (value r).
Proof.
  intros Hs Hr. destruct (run_is_step _ _ _ _ Hs Hr) as (a & _ & Hstep).
  split; [by eapply taskStep_changes|by eapply taskStep_events].
Qed.

(** C26 The parent-hierarchy check of snapshot validation ([parentCycle], a walk
    with a seen set from every task) answers [null] exactly when the parent
    links form no cycle, and every walk ends within its fuel. *)
Theorem parentCycle_decides ts :
  NoDup (map id ts) →
  (parentCycle ts = None ↔ acyclic (parentEdge ts)) ∧
  ∀ t, is_Some (parentWalk (length ts + 2)%nat (taskIndex ts) {[id t]} (parentId t)).
Proof. intros Hnd. split; [by apply parentCycle_spec|intros t; by apply parentCycle_fuel]. Qed.

(** C15 The dependency check ([dependencyCycle], a depth-first search with
    visiting and visited sets) terminates on every task list and answers
    [null] exactly when the dependency graph has no cycle. *)
Theorem dependencyCycle_decides ts :
  NoDup (map id ts) →
  is_Some (dependencyCycleRun ts) ∧
  (dependencyCycle ts = None ↔ acyclic (dependencyEdge ts)).
Proof. intros Hnd. split; [by apply dependencyCycle_total|by apply dependencyCycle_spec]. Qed.

(** C17 The two searches that guard new edges: [dependencyReaches] (an explicit
    stack with a seen set) always terminates and decides reachability in the
    dependency graph, and the ancestor loop of [setTaskParent] decides whether
    the task is an ancestor of its proposed parent. *)
Theorem edge_guards_decide s source target parent :
  snapshot_wf mode_complete s → parent ∈ tasks s →
  (∃ answer, reachesLoop (dependencyCount (tasks s) + 2)%nat s target [source] ∅ = Some answer) ∧
  (dependencyReaches s source target = true ↔ rtc (dependencyEdge (tasks s)) source target) ∧
  (proposedParentCycles s target parent = true ↔ rtc (parentEdge (tasks s)) (id parent) target).
Proof.
  intros Hs Hp. pose proof (wf_taskIds _ _ Hs) as Hnd. split_and!.
  - apply dependencyReaches_total.
  - by apply dependencyReaches_spec.
  - apply proposedParentCycles_spec; [done| |done]. intros t p. by eapply wf_parentRegistered.
Qed.
(** What each reported reason means. *)
Definition reasonHolds (s : DomainSnapshot) (t : Task) (reason : EligibilityReason.EligibilityReason)
    : Prop :=
  match reason with
  | EligibilityReason.STATE_NOT_READY => state t ≠ ready
  | EligibilityReason.PROJECT_NOT_REGISTERED => projectById s (taskProjectId t) = None
  | EligibilityReason.PROJECT_DISABLED =>
      ∃ p, projectById s (taskProjectId t) = Some p ∧ enabled p = false
  | EligibilityReason.DEPENDENCY_NOT_REGISTERED =>
      ∃ d, d ∈ dependencyIds t ∧ taskById s d = None
  | EligibilityReason.DEPENDENCY_NOT_COMPLETED =>
      ∃ d u, d ∈ dependencyIds t ∧ taskById s d = Some u ∧ state u ≠ completed
  end.

Lemma eligibilityReasons_elem s t reason :
  reason ∈ eligibilityReasons s t ↔ reasonHolds s t reason.
Proof.
  unfold eligibilityReasons, sortByKey. rewrite elem_of_sortBy, elem_of_remove_dups, !elem_of_app.
  rewrite elem_of_flat_map. unfold reasonHolds. split.
  - intros [Hr|[Hr|(d & Hd & Hr)]].
    + case_bool_decide; [by apply elem_of_nil in Hr|]. by apply list_elem_of_singleton in Hr as ->.
    + destruct (projectById _ _) as [p|] eqn:Hp; [destruct (enabled p) eqn:He|].
      * by apply elem_of_nil in Hr.
      * apply list_elem_of_singleton in Hr as ->. eauto.
      * by apply list_elem_of_singleton in Hr as ->.
    + destruct (taskById s d) as [u|] eqn:Hu; [case_bool_decide|].
      * by apply elem_of_nil in Hr.
      * apply list_elem_of_singleton in Hr as ->. eauto.
      * apply list_elem_of_singleton in Hr as ->. eauto.
  - destruct reason.
    + intros Hst. left. rewrite bool_decide_false by done. set_solver.
    + intros ->. right; left. set_solver.
    + intros (p & -> & ->). right; left. set_solver.
    + intros (d & Hd & Hu). right; right. exists d. rewrite Hu. set_solver.
    + intros (d & u & Hd & Hu & Hst). right; right. exists d. rewrite Hu.
      rewrite bool_decide_false by done. set_solver.
Qed.

(** The task and the label an eligibility command names. *)
Definition readEligibility : JsValue → option (JsString * JsString) :=
  readFields ["taskId"; "readRevision"] (λ record,
    taskId ← isIdentifier (field record "taskId");
    label ← isIdentifier (field record "readRevision");
    Some (taskId, label)).

(** What an evaluation of [t] read under [label] has to say: the identity and
    the label, every reason that holds and no other, listed in the strict order
    of their names, and eligible exactly for a task that may be claimed. *)
Record eligibilityReport (s : DomainSnapshot) (t : Task) (label : JsString)
    (d : TaskEligibilityDecision) : Prop := {
  report_task : eligibilityTaskId d = id t;
  report_label : eligibilityReadRevision d = label;
  report_eligible : eligible d = true ↔ claimable s t;
  report_reasons : ∀ reason, reason ∈ eligibilityReasonList d ↔ reasonHolds s t reason;
  report_order :
    StronglySorted (key_lt (λ reason, js (EligibilityReason.name reason))) (eligibilityReasonList d);
}.

Lemma eligibilityReport_ok s t label :
  eligibilityReport s t label
    {| eligibilityTaskId := id t; eligibilityReadRevision := label;
       eligible := (length (eligibilityReasons s t) =? 0)%nat;
       eligibilityReasonList := eligibilityReasons s t |}.
Proof.
  constructor; simpl; try done.
  - by rewrite Nat.eqb_eq, length_zero_iff_nil, eligibilityReasons_nil.
  - apply eligibilityReasons_elem.
  - unfold eligibilityReasons. apply sortByKey_sorted.
    apply NoDup_fmap_2_strong; [|apply NoDup_remove_dups].
    by intros [] [] _ _.
Qed.

(** A report leaves no choice. *)
Lemma eligibilityReport_unique s t label d d' :
  eligibilityReport s t label d → eligibilityReport s t label d' → d = d'.
Proof.
  intros [H1 H2 H3 H4 H5] [K1 K2 K3 K4 K5]. destruct d as [i l e rs], d' as [i' l' e' rs'].
  simpl in *. f_equal; [congruence|congruence| |].
  - apply Bool.eq_true_iff_eq. by rewrite H3, K3.
  - eapply key_sorted_unique; [exact H5|exact K5|]. intros x. by rewrite H4, K4.
Qed.

Lemma readEligibility_ok c k label :
  readEligibility c = Some (k, label) ↔
  ∃ record, parseTaskCommand c ["taskId"; "readRevision"] = Ok record ∧
    readRevision (field record "readRevision") = Ok label ∧
    isIdentifier (field record "taskId") = Some k.
Proof.
  unfold readEligibility, parseTaskCommand, readRevision. rewrite readFields_some. split.
  - intros (record & Hrec & (? & Hk & (? & Hl & [= <- <-])%bind_Some)%bind_Some).
    exists record. by rewrite Hrec, Hl.
  - intros (record & Hrec%ok_or_ok & Hl%ok_or_ok & Hk). exists record.
    split; [done|]. by rewrite Hk, Hl.
Qed.

Lemma evaluateTaskEligibility_ok v c r :
  evaluateTaskEligibility v c = Ok r ↔
  ∃ s t label, readEligibility c = Some (id t, label) ∧
    parseSnapshot v (mode_decision (id t)) = Ok s ∧ t ∈ tasks s ∧
    eligibilityReport s t label (value r) ∧ events r = [].
Proof.
  unfold evaluateTaskEligibility, guardPublicResult. split.
  - intros Hr. apply result_bind_ok in Hr as (record & Hrec & Hr).
    apply result_bind_ok in Hr as (label & Hl & Hr).
    apply result_bind_ok in Hr as (k & Hk%ok_or_ok & Hr).
    apply result_bind_ok in Hr as (s & Hp & Hr).
    apply result_bind_ok in Hr as (t & [Ht <-]%ok_or_ok%findTask_Some & [= <-]).
    exists s, t, label. split_and!; try done; [|apply eligibilityReport_ok].
    apply readEligibility_ok. by exists record.
  - intros (s & t & label & (record & Hrec & Hl & Hk)%readEligibility_ok & Hp & Ht & Hd & He).
    rewrite Hrec. cbn [result_bind]. rewrite Hl. cbn [result_bind]. rewrite Hk.
    cbn [ok_or result_bind]. rewrite Hp. cbn [result_bind].
    rewrite (proj2 (taskById_Some _ s (id t) t (parseSnapshot_sound _ _ _ Hp))) by done.
    cbn [ok_or result_bind]. destruct r as [d es]. cbn [value events] in Hd, He. subst es.
    by rewrite (eligibilityReport_unique _ _ _ _ _ Hd (eligibilityReport_ok s t label)).
Qed.

(** C19 Eligibility: the evaluation returns exactly when the command reads as a
    task identity and a label and that task is in the snapshot, and then its
    answer is determined: it names the task and the label of the command,
    lists a reason exactly when the reason holds in the snapshot, each once
    and in the order of their names, and says eligible exactly for a ready
    task whose project is enabled and whose dependencies are all completed. *)
Theorem eligibility_decision v c r :
  evaluateTaskEligibility v c = Ok r ↔
  ∃ s t label, readEligibility c = Some (id t, label) ∧
    parseSnapshot v (mode_decision (id t)) = Ok s ∧ t ∈ tasks s ∧
    eligibilityReport s t label (value r) ∧ events r = [].
Proof. apply evaluateTaskEligibility_ok. Qed.

(** C20 Continuation: an evaluation that returns says eligible exactly when the
    waiting task may continue under the command: enabled project, completed
    dependencies, current revision and receipt, matching recorded identities,
    and an execution to resume or a retry that is due. *)
Theorem continuation_decision v c r :
  evaluateWaitingContinuation v c = Ok r →
  ∃ s t command, parseContinuationCommand c = Ok command ∧
    parseSnapshot v (mode_decision (id t)) = Ok s ∧ t ∈ tasks s ∧
    continuationTaskId (value r) = id t ∧ id t = commandTaskId command ∧
    continuationDecisionKind (value r) = kind command ∧
    (continuationEligible (value r) = true ↔ continuable s t command) ∧
    (continuationEligible (value r) = true ↔ continuationReasonList (value r) = []).
Proof.
  unfold evaluateWaitingContinuation, guardPublicResult. intros Hr. inv_ok.
  match goal with Hf : taskById ?s (commandTaskId ?c) = Some ?t |- _ =>
    apply findTask_Some in Hf as [Ht Hid]; exists s, t, c; rewrite <-Hid in * end.
  subst r.
  cbn [value continuationTaskId continuationDecisionKind continuationEligible continuationReasonList].
  by rewrite Nat.eqb_eq, length_zero_iff_nil, continuationReasons_nil.
Qed.

Lemma claim_succeeds s t claim payload :
  snapshot_wf mode_complete s → mutable s t →
  readTransition claim = Some (id t, claim_accepted, running, payload) →
  readMove t claim_accepted payload = Some ClaimAccepted →
  claimable s t ↔ ∃ r, transitionTask (snapshotValue s) claim = Ok r.
Proof.
  intros Hs Ht Hclaim Hmove. setoid_rewrite transitionTask_refines. split.
  - intros Hc. exists (moveResult s ClaimAccepted t), s, t, claim_accepted, payload, ClaimAccepted.
    split_and!; try done; [by apply parseSnapshot_value|by destruct Ht|by constructor].
  - intros (r & s' & t' & e & payload' & m & Hp & Ht' & Hread & Hm & Hstep).
    rewrite parseSnapshot_value in Hp by done. injection Hp as <-.
    rewrite Hclaim in Hread. injection Hread as Hid <- _ <-.
    assert (t' = t) as -> by (apply (same_task _ s t t' Hs); [by destruct Ht|done|done]).
    rewrite Hmove in Hm. injection Hm as <-.
    inversion Hstep as [| | | | | | |t'' ? Hmut Ha Hcover Hid']; subst.
    assert (t'' = t) as -> by (apply (same_task _ s t t'' Hs); [by destruct Ht|by destruct Hmut|done]).
    exact Ha.
Qed.

(** The code asks for eligibility before it reads the acceptance. *)
Lemma claim_refused s t claim payload :
  snapshot_wf mode_complete s → mutable s t → state t = ready → ¬ claimable s t →
  readTransition claim = Some (id t, claim_accepted, running, payload) →
  readMove t claim_accepted payload = Some ClaimAccepted →
  transitionTask (snapshotValue s) claim =
    Err (domainError ErrorCode.TASK_NOT_ELIGIBLE "Task is not domain-eligible for claim"
           (atTask (id t))).
Proof.
  intros Hs [Ht [Hl _]] Hst Hc (record & Hrec & Hread)%readFields_some Hmove.
  apply bind_Some in Hread as (? & Hk & Hread). apply bind_Some in Hread as (? & He & Hread).
  apply bind_Some in Hread as (? & Htg & Hread). simplify_eq.
  unfold transitionTask, guardPublicResult, parseTaskCommand.
  rewrite parseSnapshot_value by done. cbn [result_bind]. rewrite Hrec. cbn [ok_or result_bind].
  rewrite Hk, He, Htg. cbn [mbind option_bind ok_or result_bind].
  rewrite (proj2 (taskById_Some _ s (id t) t Hs)) by done. cbn [ok_or result_bind].
  rewrite Hl, Hst. cbn [negb legalTransition]. simpl.
  apply bind_Some in Hmove as (payload & Hpay & _). unfold transitionPayload. rewrite Hpay. simpl.
  destruct (length _ =? 0)%nat eqn:Hn; [|done]. exfalso. apply Hc.
  by apply eligibilityReasons_nil, length_zero_iff_nil, Nat.eqb_eq.
Qed.

(** C28 Claiming agrees with eligibility: for a live task of a well-formed
    snapshot the evaluation of [evaluateTaskEligibility] always returns, and it
    says eligible exactly when a [claim_accepted] transition of the task (with
    an acceptance of it at its revision) succeeds; when it says that a ready
    task is not eligible, the transition fails with [TASK_NOT_ELIGIBLE]. *)
Theorem claim_agrees_with_eligibility s t label c claim payload :
  snapshot_wf mode_complete s → mutable s t →
  readEligibility c = Some (id t, label) →
  readTransition claim = Some (id t, claim_accepted, running, payload) →
  readMove t claim_accepted payload = Some ClaimAccepted →
  ∃ r, evaluateTaskEligibility (snapshotValue s) c = Ok r ∧
    eligibilityTaskId (value r) = id t ∧ eligibilityReadRevision (value r) = label ∧
    (eligible (value r) = true ↔
       ∃ r', transitionTask (snapshotValue s) claim = Ok r') ∧
    (eligible (value r) = false → state t = ready →
       transitionTask (snapshotValue s) claim =
         Err (domainError ErrorCode.TASK_NOT_ELIGIBLE "Task is not domain-eligible for claim"
                (atTask (id t)))).
Proof.
  intros Hs Ht Hc Hclaim Hmove. pose proof (eligibilityReport_ok s t label) as Hd.
  eexists {| value := _; events := [] |}. split.
  { apply evaluateTaskEligibility_ok. exists s, t, label. cbn [value].
    split_and!; [done| |by destruct Ht|exact Hd|done].
    by apply parseSnapshot_value, snapshot_wf_decision. }
  cbn [value]. split_and!; [apply Hd|apply Hd| |].
  - rewrite (report_eligible _ _ _ _ Hd). by apply (claim_succeeds s t claim payload).
  - intros Hno Hst. apply (claim_refused s t claim payload); try done.
    intros Hyes%(report_eligible _ _ _ _ Hd). congruence.
Qed.

(** ** What a cancellation does to each task *)

(** The next revision of a task, with everything a cancellation does not touch. *)
Record advanced (u u' : Task) : Prop := {
  adv_id : id u' = id u;
  adv_project : taskProjectId u' = taskProjectId u;
  adv_body : body u' = body u;
  adv_parent : parentId u' = parentId u;
  adv_dependencies : dependencyIds u' = dependencyIds u;
  adv_supersedes : supersedesTaskId u' = supersedesTaskId u;
  adv_revision : revision u' = revision u + 1;
}.

(** An execution has to be known to be stopped: the task runs, or waits with one. *)
Definition needsVerification (t : Task) : Prop :=
  state t = running ∨
  (state t = waiting ∧ ∃ w, taskWaiting t = Some w ∧ executionId (waitingInput w) ≠ None).

(** The task [u] before and [u'] after the cancellation of [t] for the reason
    [text], with the waitings given for its dependents. *)
Inductive cascaded (t : Task) (e : TaskTransitionEvent) (text : JsString)
    (dependents : list DependentWaitingInput) (u u' : Task) : Prop :=
  | cascaded_task fact :
      id u = id t → advanced u u' → state u' = cancelled →
      taskWaiting u' = None → completion u' = None → cancellation u' = Some fact →
      cancellationEvent fact =
        (match e with cancel => ce_cancel | _ => ce_interruption_verified end) →
      cancellationReason fact = text → cancellationTaskRevision fact = revision u →
      (is_Some (verificationId fact) ↔ needsVerification u) →
      cascaded t e text dependents u u'
  | cascaded_dependent i :
      id u ≠ id t → state u = ready → id t ∈ dependencyIds u →
      i ∈ dependents → dependentTaskId i = id u →
      reason (dependentWaiting i) = wr_dependency_cancelled →
      advanced u u' → state u' = waiting →
      taskWaiting u' = Some {| waitingInput := dependentWaiting i;
                               waitingTaskRevision := revision u + 1 |} →
      completion u' = completion u → cancellation u' = cancellation u →
      cascaded t e text dependents u u'
  | cascaded_other :
      id u ≠ id t → ¬ (state u = ready ∧ id t ∈ dependencyIds u) → u' = u →
      cascaded t e text dependents u u'.

Definition moveText (m : TaskMove) : JsString :=
  match m with Cancel text _ _ | InterruptionVerified text _ _ => text | _ => [] end.

Lemma cancelled_move s t m :
  moveAllowed s t m → moveTarget m = cancelled →
  cascaded t (moveEvent m) (moveText m) (moveDependents m) t (moved m t).
Proof.
  intros Ha Htarget. destruct m as [| | | | |command|text v ds|text v ds]; try done.
  - destruct Ha as (Hst & _ & _ & Hv). econstructor; try done. simpl. unfold needsVerification.
    rewrite Hv. destruct Hst as [Hst|[Hst|Hst]]; rewrite Hst; naive_solver.
  - destruct Ha as (Hst & _ & _). econstructor; try done. simpl. unfold needsVerification.
    split; [by left|by eauto].
Qed.

Lemma afterMove_cascaded s t m u :
  snapshot_wf mode_complete s → t ∈ tasks s → u ∈ tasks s → moveAllowed s t m →
  moveTarget m = cancelled → dependentsCovered s t (moveDependents m) →
  cascaded t (moveEvent m) (moveText m) (moveDependents m) u (afterMove m t u).
Proof.
  intros Hs Ht Hu Ha Htarget Hcover. unfold afterMove. case_bool_decide as Hid.
  { rewrite (same_task _ s t u Hs Ht Hu Hid). by eapply cancelled_move. }
  destruct (List.find _ _) as [i|] eqn:Hf.
  - destruct (dependent_of s t m Hs Hcover u i Hu Hid Hf)
      as [(_ & Hst & Hd)%readyDirectDependents_elem _].
    apply find_Some_iff in Hf as [Hi Hii%bool_decide_eq_true].
    eapply cascaded_dependent; try done.
    pose proof (cover_reasons _ _ _ Hcover) as Hreasons. rewrite Forall_forall in Hreasons. auto.
  - apply cascaded_other; [done| |done]. intros [Hst Hd].
    assert (id u ∈ map dependentTaskId (moveDependents m)) as (i & Hi & Hin)%list_elem_of_fmap.
    { rewrite (cover_ids _ _ _ Hcover). by apply list_elem_of_fmap_2, readyDirectDependents_elem. }
    apply (proj1 (find_None_iff _ _)) with (x := i) in Hf; [|done].
    by apply bool_decide_eq_false in Hf.
Qed.

(** What a cancelling payload says. *)
Definition readCancellation (e : TaskTransitionEvent) (payload : JsValue)
    : option (JsString * list DependentWaitingInput) :=
  record ← readExactRecord payload
    ["reason"; match e with cancel => "executionDisposition" | _ => "verification" end;
     "dependentWaiting"];
  text ← isCanonicalCancellationReason (field record "reason");
  dependents ← okSome (parseDependentWaiting (field record "dependentWaiting"));
  Some (text, dependents).

Lemma readMove_cancellation t e payload m :
  readMove t e payload = Some m → moveTarget m = cancelled →
  readCancellation e payload = Some (moveText m, moveDependents m).
Proof.
  intros Hm Htarget. pose proof (readMove_event _ _ _ _ Hm) as He.
  destruct m as [| | | | |command|text v ds|text v ds]; try done; simpl in He; subst e;
    simpl in Hm; apply bind_Some in Hm as (record & Hrec & Hm);
    apply bind_Some in Hm as (x & Hx & Hm); unfold readCancellation; rewrite Hrec; simpl; rewrite Hx.
  - apply bind_Some in Hm as (d & Hd & Hm). apply bind_Some in Hm as (w & Hw & [= <- <- <-]).
    simpl. by rewrite Hd.
  - apply bind_Some in Hm as (w & Hw & Hm). apply bind_Some in Hm as (d & Hd & Hm).
    case_match; [|done]. injection Hm as <- <- <-. simpl. by rewrite Hd.
Qed.

Lemma move_target m : moveTarget m = legalTarget (moveEvent m).
Proof. destruct m as [| | | | |command|?|?]; try done. simpl. by destruct (kind command). Qed.

(** C18 Cancellation cascade: a transition command that cancels a task keeps the
    projects and every task in its place, and each task after it is determined.
    The task itself is cancelled at its next revision with the fact of its
    cancellation (the reason given, its revision, and a verification exactly
    when an execution had to be stopped); every ready task that depends
    directly on it waits, at its next revision, with the waiting the command
    gives for it, whose reason is [dependency_cancelled]; nothing else in these
    tasks changes, and every other task is untouched. *)
Theorem cancellation_cascade s t c e payload r :
  snapshot_wf mode_complete s → t ∈ tasks s →
  readTransition c = Some (id t, e, cancelled, payload) →
  transitionTask (snapshotValue s) c = Ok r →
  ∃ text dependents, readCancellation e payload = Some (text, dependents) ∧
    projects (snapshot (value r)) = projects s ∧
    Forall2 (cascaded t e text dependents) (tasks s) (tasks (snapshot (value r))).
Proof.
  intros Hs Ht Hc Hr.
  apply transitionTask_refines in Hr as (s' & t' & e' & payload' & m & Hp & Ht' & Hread & Hm & Hstep).
  rewrite parseSnapshot_value in Hp by done. injection Hp as <-.
  rewrite Hc in Hread. injection Hread as Hid <- Htarget <-.
  assert (t' = t) as -> by by apply (same_task _ s t t' Hs).
  inversion Hstep as [| | | | | | |t'' ? Hmut Ha Hcover Hid']; subst.
  assert (t'' = t) as -> by (apply (same_task _ s t t'' Hs); [done|by destruct Hmut|done]).
  pose proof (readMove_event _ _ _ _ Hm) as <-.
  symmetry in Htarget. rewrite <-move_target in Htarget. exists (moveText m), (moveDependents m).
  split_and!; [by apply (readMove_cancellation t)|done|].
  apply Forall2_fmap_r, Forall_Forall2_diag, Forall_forall. intros u Hu.
  eapply afterMove_cascaded; eauto.
Qed.
(** ** Commands on their encoded values *)

Definition dependencyCommandValue (tid did : JsString) : JsValue :=
  jsObject [("taskId", JString tid); ("dependencyId", JString did)].

Definition parentCommandValue (tid : JsString) (parent : option JsString) : JsValue :=
  jsObject [("taskId", JString tid); ("parentId", jsNullable JString parent)].

Lemma readDependencyCommand_value tid did :
  identifier tid → identifier did →
  readDependencyCommand (dependencyCommandValue tid did) = Some (tid, did).
Proof.
  intros Ht Hd. apply readFields_some. eexists. split; [by apply readExactRecord_object|].
  rewrite !field_record. simpl.
  by rewrite !(proj2 (isIdentifier_ok _ _)) by (split; [reflexivity|done]).
Qed.

Lemma readParentCommand_value tid parent :
  identifier tid → nullableIdentifier parent →
  readParentCommand (parentCommandValue tid parent) = Some (tid, parent).
Proof.
  intros Ht Hp. apply readFields_some. eexists. split; [by apply readExactRecord_object|].
  rewrite !field_record. simpl.
  rewrite (proj2 (isIdentifier_ok _ _)) by (split; [reflexivity|done]). simpl.
  by rewrite (proj2 (isNullableIdentifier_ok _ _)) by (split; [reflexivity|done]).
Qed.

Lemma task_identifier s t : snapshot_wf mode_complete s → t ∈ tasks s → identifier (id t).
Proof. intros Hs Ht. by apply (wf_id _ (wf_task _ _ _ Hs Ht)). Qed.

Lemma registered_identifier s k :
  snapshot_wf mode_complete s → k ∈ map id (tasks s) → identifier k.
Proof. intros Hs (u & -> & Hu)%list_elem_of_fmap. by eapply task_identifier. Qed.

(** C24 Adding a dependency between registered tasks: the command answers
    [DEPENDENCY_CYCLE] exactly when the prerequisite already reaches the task,
    and otherwise stores the edge, with the dependencies sorted, in the next
    revision of the task and of no other. *)
Theorem addTaskDependency_cycle s t d :
  snapshot_wf mode_complete s → mutable s t → isGraphMutable (state t) = true →
  d ∈ map id (tasks s) → d ≠ id t → d ∉ dependencyIds t →
  (rtc (dependencyEdge (tasks s)) d (id t) →
   addTaskDependency (snapshotValue s) (dependencyCommandValue (id t) d) =
     Err (domainError ErrorCode.DEPENDENCY_CYCLE "Proposed dependency creates a cycle"
            (atTask (id t)))) ∧
  (¬ rtc (dependencyEdge (tasks s)) d (id t) →
   addTaskDependency (snapshotValue s) (dependencyCommandValue (id t) d) =
     Ok (taskChange s t
           (nextCandidate t (withDependencies (sortByKey (λ k, k) (dependencyIds t ++ [d])) t))
           task_dependency_added [("dependencyId", DetailString d)])).
Proof.
  intros Hs [Ht [Hl Hrev]] Hg Hd Hne Hdup.
  pose proof (readDependencyCommand_value (id t) d (task_identifier _ _ Hs Ht)
    (registered_identifier _ _ Hs Hd)) as Hread. split; intros Hr.
  - unfold addTaskDependency, guardPublicResult. rewrite parseSnapshot_value by done.
    rewrite (proj2 (dependencyCommand_ok _ _) Hread). cbn [result_bind].
    rewrite (proj2 (requireMutableTask_ok _ s (id t) t Hs)) by done. cbn [result_bind].
    rewrite Hg, !bool_decide_false by congruence. cbn [negb].
    rewrite (bool_decide_true (is_Some _)) by by apply taskById_registered.
    rewrite bool_decide_false by done. cbn [negb].
    by rewrite (proj2 (dependencyReaches_spec s d (id t) (wf_taskIds _ _ Hs)) Hr).
  - apply addTaskDependency_refines. exists s, (id t), d.
    split_and!; [by apply parseSnapshot_value|done|]. by constructor.
Qed.

(** C25 Giving a task a parent of its project: the command answers [PARENT_CYCLE]
    exactly when the task is the proposed parent's ancestor, and otherwise
    stores the link. *)
Theorem setTaskParent_cycle s t u :
  snapshot_wf mode_complete s → mutable s t → isGraphMutable (state t) = true →
  u ∈ tasks s → id u ≠ id t → parentId t ≠ Some (id u) → taskProjectId u = taskProjectId t →
  (rtc (parentEdge (tasks s)) (id u) (id t) →
   setTaskParent (snapshotValue s) (parentCommandValue (id t) (Some (id u))) =
     Err (domainError ErrorCode.PARENT_CYCLE "Proposed parent creates a cycle" (atTask (id t)))) ∧
  (¬ rtc (parentEdge (tasks s)) (id u) (id t) →
   setTaskParent (snapshotValue s) (parentCommandValue (id t) (Some (id u))) =
     Ok (taskChange s t (nextCandidate t (withParent (Some (id u)) t)) task_parent_changed
           [("parentId", DetailString (id u))])).
Proof.
  intros Hs [Ht [Hl Hrev]] Hg Hu Hne Hpar Hproj.
  pose proof (task_identifier _ _ Hs Hu) as Hidu.
  assert (nullableIdentifier (Some (id u))) as Hnull by by intros [= ?].
  pose proof (readParentCommand_value (id t) _ (task_identifier _ _ Hs Ht) Hnull) as Hread.
  split; intros Hr.
  - apply readFields_some in Hread as (record & Hrec & Hread).
    unfold setTaskParent, guardPublicResult, parseTaskCommand.
    rewrite parseSnapshot_value by done. cbn [result_bind]. rewrite Hrec. cbn [ok_or result_bind].
    rewrite Hread. cbn [ok_or result_bind].
    rewrite (proj2 (requireMutableTask_ok _ s (id t) t Hs)) by done. cbn [result_bind].
    rewrite Hg, !bool_decide_false by congruence. cbn [negb].
    rewrite (proj2 (taskById_Some _ s (id u) u Hs)) by done. cbn [ok_or result_bind].
    rewrite bool_decide_true by done.
    by rewrite (proj2 (proposedParentCycles_spec s (id t) (wf_taskIds _ _ Hs)
                         (λ x p, wf_parentRegistered _ _ x p Hs) u Hu) Hr).
  - apply setTaskParent_refines. exists s, (id t), (Some (id u)).
    split_and!; [by apply parseSnapshot_value|done|].
    constructor; try done; [congruence|]. intros p [= <-]. eauto.
Qed.

(** C27 What is not in the relation is refused: a transition command on a terminal
    task fails with [TERMINAL_IMMUTABLE], and one whose states and event are
    not a row of [TASK_TRANSITIONS] with [ILLEGAL_TRANSITION], whatever the
    payload holds. *)
Theorem illegal_transitions_refused s t c e target payload :
  snapshot_wf mode_complete s → t ∈ tasks s →
  readTransition c = Some (id t, e, target, payload) →
  (isTerminal (state t) = true →
   transitionTask (snapshotValue s) c =
     Err (domainError ErrorCode.TERMINAL_IMMUTABLE "Terminal Task cannot transition"
            (atTask (id t)))) ∧
  (isTerminal (state t) = false →
   (¬ ∃ row, row ∈ TASK_TRANSITIONS ∧ from row = state t ∧ to row = target ∧
      transitionEvent row = e) →
   transitionTask (snapshotValue s) c =
     Err (domainError ErrorCode.ILLEGAL_TRANSITION
            "Task transition is not in the authoritative relation"
            (atTask (id t) ++ [("fromState", detailState (state t));
                               ("toState", detailState target)]))).
Proof.
  intros Hs Ht (record & Hrec & Hread)%readFields_some.
  apply bind_Some in Hread as (? & Hk & Hread). apply bind_Some in Hread as (? & He & Hread).
  apply bind_Some in Hread as (? & Htg & Hread). simplify_eq.
  unfold transitionTask, guardPublicResult, parseTaskCommand.
  rewrite parseSnapshot_value by done. cbn [result_bind]. rewrite Hrec. cbn [ok_or result_bind].
  rewrite Hk, He, Htg. cbn [mbind option_bind ok_or result_bind].
  rewrite (proj2 (taskById_Some _ s (id t) t Hs)) by done. cbn [ok_or result_bind].
  split; [by intros ->|]. intros -> Hno. cbn [negb].
  destruct (legalTransition _ _ _) eqn:Hlegal; [|done]. exfalso. apply Hno.
  unfold legalTransition in Hlegal. apply existsb_true in Hlegal as (row & Hrow & Hm).
  inv_bool. by exists row.
Qed.
(** ** Every live task can be ended *)

Definition cancelledWaiting : WaitingMetadataInput :=
  {| reason := wr_dependency_cancelled; phase := js "cancelled"; requiredAction := js "replan";
     lastErrorCode := js "dependency_cancelled"; lastErrorSummary := None; retryable := false;
     retryCount := 0; retryAfter := None; executionId := None; workspaceRevision := None;
     backendThreadId := None |}.

Definition cancelledDependents (s : DomainSnapshot) (t : Task) : list DependentWaitingInput :=
  map (λ u, {| dependentTaskId := id u; dependentWaiting := cancelledWaiting |})
    (readyDirectDependents s (id t)).

Definition dependentValue (i : DependentWaitingInput) : JsValue :=
  jsObject [("taskId", JString (dependentTaskId i));
            ("waiting", waitingInputValue (dependentWaiting i))].

Definition stoppedValue (t : Task) (execution : JsString) : JsValue :=
  jsObject [("receiptId", JString (js "stopped")); ("taskId", JString (id t));
            ("taskRevision", jsInteger (revision t)); ("executionId", JString execution);
            ("status", JString (js "stopped"))].

(** The cancellation command of a live task: a verified interruption for a
    running one, a cancellation otherwise. *)
Definition endCommand (s : DomainSnapshot) (t : Task) (text : JsString) : JsValue :=
  let dependents := jsArray (map dependentValue (cancelledDependents s t)) in
  let e := if bool_decide (state t = running) then interruption_verified else cancel in
  jsObject [("taskId", JString (id t)); ("event", jsName (TaskTransitionEvent_name e));
            ("targetState", jsName (TaskState_name cancelled));
            ("payload",
             if bool_decide (state t = running)
             then jsObject [("reason", JString text);
                            ("verification", stoppedValue t (js "execution"));
                            ("dependentWaiting", dependents)]
             else jsObject [("reason", JString text);
                            ("executionDisposition",
                             match state t, taskWaiting t ≫= (λ w, executionId (waitingInput w)) with
                             | waiting, Some execution => stoppedValue t execution
                             | _, _ => JNull
                             end);
                            ("dependentWaiting", dependents)])].

Lemma cancelledWaiting_wf : waitingInput_wf cancelledWaiting.
Proof. by constructor. Qed.

Lemma parseDependentWaiting_value s t :
  snapshot_wf mode_complete s →
  parseDependentWaiting (jsArray (map dependentValue (cancelledDependents s t))) =
    Ok (cancelledDependents s t).
Proof.
  intros Hs. unfold parseDependentWaiting. rewrite readCanonicalArray_array. cbn [ok_or result_bind].
  destruct (readyDirectDependents_sorted s (id t) Hs) as [Hsorted _].
  assert (map dependentTaskId (cancelledDependents s t) =
          map id (readyDirectDependents s (id t))) as Hids.
  { unfold cancelledDependents. by rewrite map_map. }
  rewrite parseIndexed_value.
  - cbn [result_bind]. assert (StronglySorted (key_lt dependentTaskId) (cancelledDependents s t)).
    { unfold cancelledDependents. clear -Hsorted.
      induction Hsorted as [|u us Hus IH Hu]; simpl; constructor; [done|].
      rewrite Forall_forall in Hu. apply Forall_forall.
      intros ? (x & -> & Hx)%list_elem_of_fmap. by apply Hu. }
    rewrite sortByKey_id, (proj2 (setSize_NoDup _)), length_map, Nat.eqb_refl; try done.
    rewrite Hids. by apply key_sorted_NoDup.
  - apply Forall_forall. intros ? (u & -> & Hu%readyDirectDependents_elem)%list_elem_of_fmap path.
    unfold parseDependentEntry, dependentValue. rewrite readExactRecord_object by done.
    cbn [ok_or result_bind mbind option_bind]. rewrite !field_record. simpl.
    rewrite (proj2 (isIdentifier_ok _ _))
      by (split; [reflexivity|by eapply task_identifier; [|destruct Hu]]).
    done.
Qed.

Lemma parseExecutionDisposition_value t execution :
  identifier execution →
  parseExecutionDisposition (stoppedValue t execution) t =
    Ok {| dispositionReceiptId := js "stopped"; dispositionTaskId := id t;
          dispositionTaskRevision := revision t; dispositionExecutionId := Some execution;
          dispositionStatus := stopped |}.
Proof.
  intros He. unfold parseExecutionDisposition, stoppedValue. rewrite readExactRecord_object by done.
  cbn [ok_or result_bind]. rewrite !field_record. simpl. apply ok_or_ok.
  rewrite (proj2 (isIdentifier_ok _ execution)) by (split; [reflexivity|done]). simpl.
  unfold js_eqb. by rewrite bool_decide_true, Z.eqb_refl.
Qed.

Definition endMove (s : DomainSnapshot) (t : Task) (text : JsString) : TaskMove :=
  if bool_decide (state t = running)
  then InterruptionVerified text (js "stopped") (cancelledDependents s t)
  else Cancel text
         (match state t, taskWaiting t ≫= (λ w, executionId (waitingInput w)) with
          | waiting, Some _ => Some (js "stopped")
          | _, _ => None
          end) (cancelledDependents s t).

Lemma waiting_execution_identifier s t execution :
  snapshot_wf mode_complete s → t ∈ tasks s →
  taskWaiting t ≫= (λ w, executionId (waitingInput w)) = Some execution → identifier execution.
Proof.
  intros Hs Ht (w & Hw & Hx)%bind_Some. intros ->.
  destruct (wf_waiting _ (wf_task _ _ _ Hs Ht) w Hw) as [[] _]. congruence.
Qed.

Lemma readMove_end s t text :
  snapshot_wf mode_complete s → t ∈ tasks s → isTerminal (state t) = false →
  canonicalReasonText text = true →
  ∃ e payload, readTransition (endCommand s t text) = Some (id t, e, legalTarget e, payload) ∧
    readMove t e payload = Some (endMove s t text).
Proof.
  intros Hs Ht Hl Htext.
  unfold endCommand, endMove. set (e := if bool_decide (state t = running) then _ else _).
  set (payload := if bool_decide (state t = running) then _ else _).
  exists e, payload. split.
  - apply readFields_some. eexists. split; [by apply readExactRecord_object|].
    rewrite !field_record. simpl.
    rewrite (proj2 (isIdentifier_ok _ _)) by (split; [reflexivity|by eapply task_identifier]).
    simpl. rewrite isTransitionEvent_name. simpl. unfold e.
    by case_bool_decide.
  - unfold e, payload. case_bool_decide as Hst; cbn [readMove].
    + rewrite readExactRecord_object by done. cbn [mbind option_bind]. rewrite !field_record. simpl.
      rewrite Htext. simpl. rewrite parseExecutionDisposition_value by done. simpl.
      by rewrite parseDependentWaiting_value.
    + rewrite readExactRecord_object by done. cbn [mbind option_bind]. rewrite !field_record. simpl.
      rewrite Htext. simpl. rewrite parseDependentWaiting_value by done. simpl. unfold cancelVerification.
      destruct (state t); try done.
      destruct (taskWaiting t ≫= _) as [execution|] eqn:Hx; [|done].
      rewrite parseExecutionDisposition_value by (by eapply waiting_execution_identifier).
      simpl. by rewrite bool_decide_true.
Qed.

(** C23 Every live task can be ended: unless a revision is exhausted, a
    well-formed snapshot has, for each task that is not terminal, a transition
    command that cancels it (a verified interruption when it is running),
    whatever depends on it. *)
Theorem live_tasks_can_be_cancelled s t text :
  snapshot_wf mode_complete s → mutable s t → canonicalReasonText text = true →
  Forall (λ u, revision u ≠ MAX_SAFE_INTEGER) (readyDirectDependents s (id t)) →
  ∃ r t', transitionTask (snapshotValue s) (endCommand s t text) = Ok r ∧
    t' ∈ tasks (snapshot (value r)) ∧ id t' = id t ∧ state t' = cancelled.
Proof.
  intros Hs [Ht [Hl Hrev]] Htext Hrevs. set (m := endMove s t text).
  assert (moveTarget m = cancelled) as Htarget by (unfold m, endMove; by case_bool_decide).
  assert (moveDependents m = cancelledDependents s t) as Hdeps
    by (unfold m, endMove; by case_bool_decide).
  exists (moveResult s m t), (moved m t). split; [|split_and!].
  - apply transitionTask_refines.
    destruct (readMove_end s t text Hs Ht Hl Htext) as (e & payload & Hread & Hm).
    exists s, t, e, payload, m. split_and!; try done; [by apply parseSnapshot_value|].
    constructor; [done| |intros _; rewrite Hdeps; constructor; try done].
    + unfold m, endMove. case_bool_decide as Hst; [done|].
      assert (state t = idea ∨ state t = ready ∨ state t = waiting)
        by (destruct (state t); auto; done).
      split_and!; try done; [by repeat case_match|].
      destruct (state t) eqn:Hs'; try done; try (split; [by intros []|by intros [? _]]).
      destruct (taskWaiting t) as [w|]; simpl; [|split; [by intros []|naive_solver]].
      destruct (executionId (waitingInput w)) as [x|] eqn:Hx; simpl.
      * split; [|by eauto]. intros _. split; [done|]. exists w. by rewrite Hx.
      * split; [by intros []|]. intros (_ & ? & [= <-] & ?). by rewrite Hx in *.
    + unfold cancelledDependents. by rewrite map_map.
    + by apply Forall_fmap, Forall_true.
    + apply Forall_fmap, Forall_true. intros u. apply cancelledWaiting_wf.
  - apply list_elem_of_fmap. exists t. unfold afterMove. by rewrite bool_decide_true.
  - apply moved_id.
  - unfold moved. simpl. unfold m, endMove. by case_bool_decide.
Qed.
End properties.

(** ** The hypotheses hold on the concrete run *)

Module DemoWitnesses.
Import Demo.
#[local] Existing Instance latinNormalization.

Lemma in_before k : is_Some (taskById before (js k)) → taskOf before k ∈ tasks before.
Proof. apply taskOf_in. Qed.

Lemma commands_preserve_invariant_witness :
  runTaskCommand claimB.1 (snapshotValue middle) claimB.2 = Ok (resultOf middle claimB) ∧
  snapshot_wf mode_complete (snapshot (value (resultOf middle claimB))).
Proof.
  assert (runTaskCommand claimB.1 (snapshotValue middle) claimB.2 = Ok (resultOf middle claimB))
    as Hr by by vm_compute.
  split; [exact Hr|]. apply (proj1 commands_preserve_invariant _ _ _ _ Hr).
Defined.

Lemma running_after_dependencies_witness :
  state (taskOf final "b") = running ∧ dependenciesCompleted final (taskOf final "b").
Proof.
  split; [by vm_compute|]. apply (running_after_dependencies final).
  - apply final_reachable.
  - apply taskOf_in. vm_compute. eauto.
  - left. by vm_compute.
Defined.

Lemma terminal_tasks_immutable_witness :
  state (taskOf middle "a") = completed ∧
  taskOf middle "a" ∈ tasks (snapshot (value (resultOf middle claimB))).
Proof.
  split; [by vm_compute|].
  apply (terminal_tasks_immutable claimB.1 middle claimB.2 (resultOf middle claimB)).
  - apply middle_wf.
  - by vm_compute.
  - apply taskOf_in. vm_compute. eauto.
  - by vm_compute.
Defined.

Lemma state_changes_are_legal_witness :
  state (taskOf middle "b") = ready ∧
  ∃ t', t' ∈ tasks (snapshot (value (resultOf middle claimB))) ∧
    id t' = id (taskOf middle "b") ∧ taskProjectId t' = taskProjectId (taskOf middle "b") ∧
    (state t' = state (taskOf middle "b") ∨
     ∃ row, row ∈ TASK_TRANSITIONS ∧ from row = state (taskOf middle "b") ∧ to row = state t').
Proof.
  split; [by vm_compute|].
  apply (state_changes_are_legal claimB.1 middle claimB.2 (resultOf middle claimB)).
  - apply middle_wf.
  - by vm_compute.
  - apply taskOf_in. vm_compute. eauto.
Defined.

Lemma revisions_and_events_witness :
  changedTaskIds (value (resultOf middle claimB)) = [js "b"] ∧
  changesOnly middle (resultOf middle claimB) ∧
  map eventTaskId (events (resultOf middle claimB)) ≡ₚ
    changedTaskIds (value (resultOf middle claimB)).
Proof.
  split; [by vm_compute|].
  apply (revisions_and_events claimB.1 middle claimB.2 (resultOf middle claimB)).
  - apply middle_wf.
  - by vm_compute.
Defined.

Lemma parentCycle_decides_witness : acyclic (parentEdge (tasks before)).
Proof.
  apply (parentCycle_decides (tasks before)); [|by vm_compute].
  by eapply wf_taskIds, before_wf.
Defined.

Lemma dependencyCycle_decides_witness :
  dependencyCycle (tasks before) = None ∧ acyclic (dependencyEdge (tasks before)).
Proof.
  split; [by vm_compute|]. apply (dependencyCycle_decides (tasks before)); [|by vm_compute].
  by eapply wf_taskIds, before_wf.
Defined.

Lemma edge_guards_decide_witness :
  rtc (dependencyEdge (tasks before)) (js "b") (js "a") ∧
  ¬ rtc (dependencyEdge (tasks before)) (js "a") (js "b").
Proof.
  assert (∀ x y, dependencyReaches before x y = true ↔ rtc (dependencyEdge (tasks before)) x y)
    as Hr.
  { intros x y. apply (edge_guards_decide before x y (taskOf before "a")).
    - apply before_wf.
    - apply in_before. vm_compute. eauto. }
  split; [apply Hr; by vm_compute|]. intros Hn%Hr. by vm_compute in Hn.
Defined.
Definition eligibilityCommand (k : string) : JsValue :=
  jsObject [("taskId", str k); ("readRevision", str "label")].

Definition eligibilityOf (s : DomainSnapshot) (k : string) : DomainSuccess TaskEligibilityDecision :=
  match evaluateTaskEligibility (snapshotValue s) (eligibilityCommand k) with
  | Ok r => r
  | Err _ => {| value := {| eligibilityTaskId := []; eligibilityReadRevision := [];
                            eligible := false; eligibilityReasonList := [] |}; events := [] |}
  end.

Lemma eligibility_decision_witness :
  eligible (value (eligibilityOf before "a")) = true ∧
  eligibilityReasonList (value (eligibilityOf before "b")) =
    [EligibilityReason.DEPENDENCY_NOT_COMPLETED] ∧
  ∃ s t label, readEligibility (eligibilityCommand "b") = Some (id t, label) ∧
    parseSnapshot (snapshotValue before) (mode_decision (id t)) = Ok s ∧ t ∈ tasks s ∧
    ¬ claimable s t.
Proof.
  split; [by vm_compute|]. split; [by vm_compute|].
  destruct (proj1 (eligibility_decision (snapshotValue before) (eligibilityCommand "b")
              (eligibilityOf before "b"))) as (s & t & label & Hc & Hp & Ht & Hd & _).
  { by vm_compute. }
  exists s, t, label. split_and!; [exact Hc|exact Hp|exact Ht|].
  intros Hyes%(report_eligible _ _ _ _ Hd). by vm_compute in Hyes.
Defined.

(** [a] claimed and then waiting for a person. *)
Definition waitingScript : list (TaskCommand * JsValue) :=
  prefixScript ++
  [transition "a" "claim_accepted" "running" (jsObject [("externalAcceptance", receipt "a" 2)]);
   transition "a" "execution_wait" "waiting"
     (jsObject [("waiting", jsObject
        [("reason", str "human_input"); ("phase", str "review"); ("requiredAction", str "answer");
         ("lastErrorCode", str "none"); ("lastErrorSummary", JNull); ("retryable", JBoolean true);
         ("retryCount", jsInteger 0); ("retryAfter", jsInteger 10); ("executionId", str "x1");
         ("workspaceRevision", JNull); ("backendThreadId", JNull)])])].

Definition paused : DomainSnapshot := default emptySnapshot (runScript waitingScript start).

Definition continuationCommand (kind : string) (time : Z) : JsValue :=
  jsObject [("taskId", str "a"); ("expectedTaskRevision", jsInteger 4); ("readRevision", str "l");
            ("kind", str kind);
            ("requiredActionReceipt",
             jsObject [("receiptId", str "r"); ("taskId", str "a"); ("taskRevision", jsInteger 4);
                       ("requiredAction", str "answer"); ("status", str "accepted")]);
            ("targetExecutionId", str "x1"); ("targetWorkspaceRevision", JNull);
            ("targetBackendThreadId", JNull); ("trustedTime", jsInteger time)].

Definition continuationOf (kind : string) (time : Z)
    : DomainSuccess WaitingContinuationDecision :=
  match evaluateWaitingContinuation (snapshotValue paused) (continuationCommand kind time) with
  | Ok r => r
  | Err _ => {| value := {| continuationTaskId := []; continuationReadRevision := [];
                            continuationDecisionKind := resume; continuationEligible := false;
                            continuationReasonList := [] |}; events := [] |}
  end.

Lemma continuation_decision_witness :
  continuationReasonList (value (continuationOf "retry" 9)) = [ContinuationReason.RETRY_TOO_EARLY] ∧
  ∃ s t command, parseContinuationCommand (continuationCommand "retry" 10) = Ok command ∧
    parseSnapshot (snapshotValue paused) (mode_decision (id t)) = Ok s ∧ t ∈ tasks s ∧
    continuable s t command.
Proof.
  split; [by vm_compute|].
  destruct (continuation_decision (snapshotValue paused) (continuationCommand "retry" 10)
              (continuationOf "retry" 10)) as (s & t & c & Hc & Hp & Ht & _ & _ & _ & He & _).
  { by vm_compute. }
  exists s, t, c. split_and!; [exact Hc|exact Hp|exact Ht|]. apply He. by vm_compute.
Defined.

Lemma createDomainSnapshot_characterised_witness :
  createDomainSnapshot (jsObject [("projects", jsArray (map projectValue (projects before)));
                                  ("tasks", jsArray (map taskValue (reverse (tasks before))))]) =
    Ok {| value := before; events := [] |}.
Proof.
  apply (proj2 (proj2 createDomainSnapshot_characterised)).
  - apply before_wf.
  - reflexivity.
  - apply reverse_Permutation.
Defined.

(** [a] is eligible and can be claimed; [b] waits for [a] and cannot. *)
Lemma claim_agrees_with_eligibility_witness :
  (∃ r, transitionTask (snapshotValue before)
          (transition "a" "claim_accepted" "running"
             (jsObject [("externalAcceptance", receipt "a" 2)])).2 = Ok r) ∧
  transitionTask (snapshotValue before) claimB.2 =
    Err (domainError ErrorCode.TASK_NOT_ELIGIBLE "Task is not domain-eligible for claim"
           (atTask (id (taskOf before "b")))).
Proof.
  split.
  - destruct (claim_agrees_with_eligibility before (taskOf before "a") (js "label")
      (eligibilityCommand "a")
      (transition "a" "claim_accepted" "running"
         (jsObject [("externalAcceptance", receipt "a" 2)])).2
      (jsObject [("externalAcceptance", receipt "a" 2)])) as (r & Hr & _ & _ & Hiff & _).
    + apply before_wf.
    + split; [apply in_before; vm_compute; eauto|by vm_compute].
    + by vm_compute.
    + by vm_compute.
    + by vm_compute.
    + apply Hiff. vm_compute in Hr. injection Hr as <-. reflexivity.
  - destruct (claim_agrees_with_eligibility before (taskOf before "b") (js "label")
      (eligibilityCommand "b") claimB.2
      (jsObject [("externalAcceptance", receipt "b" 3)])) as (r & Hr & _ & _ & _ & Hno).
    + apply before_wf.
    + split; [apply in_before; vm_compute; eauto|by vm_compute].
    + by vm_compute.
    + by vm_compute.
    + by vm_compute.
    + apply Hno; [|by vm_compute]. vm_compute in Hr. injection Hr as <-. reflexivity.
Defined.

(** The cancellation of [a], on which [b] depends. *)
Definition cancelA : TaskCommand * JsValue :=
  (cmd_transitionTask, endCommand before (taskOf before "a") (js "no longer needed")).

Definition cancelPayload : JsValue :=
  match readTransition cancelA.2 with Some (_, _, _, payload) => payload | None => JNull end.

Lemma cancellation_cascade_witness :
  map (λ u, (id u, state u)) (tasks (snapshot (value (resultOf before cancelA)))) =
    [(js "a", cancelled); (js "b", waiting)] ∧
  ∃ text dependents, readCancellation cancel cancelPayload = Some (text, dependents) ∧
    projects (snapshot (value (resultOf before cancelA))) = projects before ∧
    Forall2 (cascaded (taskOf before "a") cancel text dependents)
      (tasks before) (tasks (snapshot (value (resultOf before cancelA)))).
Proof.
  split; [by vm_compute|].
  apply (cancellation_cascade before (taskOf before "a") cancelA.2).
  - apply before_wf.
  - apply in_before. vm_compute. eauto.
  - by vm_compute.
  - by vm_compute.
Defined.

Lemma addTaskDependency_cycle_witness :
  addTaskDependency (snapshotValue before) (dependencyCommandValue (id (taskOf before "a")) (js "b")) =
    Err (domainError ErrorCode.DEPENDENCY_CYCLE "Proposed dependency creates a cycle"
           (atTask (id (taskOf before "a")))).
Proof.
  apply (addTaskDependency_cycle before (taskOf before "a") (js "b")).
  - apply before_wf.
  - split; [apply in_before; vm_compute; eauto|by vm_compute].
  - by vm_compute.
  - vm_compute. set_solver.
  - by vm_compute.
  - vm_compute. by intros ?%elem_of_nil.
  - apply dependencyReaches_spec; [by eapply wf_taskIds, before_wf|by vm_compute].
Defined.

Lemma setTaskParent_cycle_witness :
  setTaskParent (snapshotValue before)
    (parentCommandValue (id (taskOf before "b")) (Some (id (taskOf before "a")))) =
  Ok (taskChange before (taskOf before "b")
        (nextCandidate (taskOf before "b") (withParent (Some (id (taskOf before "a"))) (taskOf before "b")))
        task_parent_changed [("parentId", DetailString (id (taskOf before "a")))]).
Proof.
  apply (setTaskParent_cycle before (taskOf before "b") (taskOf before "a")).
  - apply before_wf.
  - split; [apply in_before; vm_compute; eauto|by vm_compute].
  - by vm_compute.
  - apply in_before. vm_compute. eauto.
  - by vm_compute.
  - by vm_compute.
  - by vm_compute.
  - intros Hr. apply (proposedParentCycles_spec before (id (taskOf before "b"))
      (wf_taskIds _ _ before_wf) (λ x p, wf_parentRegistered _ _ x p before_wf)) in Hr.
    + by vm_compute in Hr.
    + apply in_before. vm_compute. eauto.
Defined.

Lemma illegal_transitions_refused_witness :
  transitionTask (snapshotValue before) (transition "a" "mark_ready" "ready" JNull).2 =
    Err (domainError ErrorCode.ILLEGAL_TRANSITION
           "Task transition is not in the authoritative relation"
           (atTask (id (taskOf before "a")) ++
            [("fromState", detailState (state (taskOf before "a")));
             ("toState", detailState ready)])).
Proof.
  apply (illegal_transitions_refused before (taskOf before "a") _ mark_ready ready JNull).
  - apply before_wf.
  - apply in_before. vm_compute. eauto.
  - by vm_compute.
  - by vm_compute.
  - intros (row & Hrow & Hf & Ht & He). vm_compute in Hrow, Hf.
    by repeat (apply elem_of_cons in Hrow as [->|Hrow]; [done|]); apply elem_of_nil in Hrow.
Defined.

Lemma live_tasks_can_be_cancelled_witness :
  ∃ r t', transitionTask (snapshotValue before)
            (endCommand before (taskOf before "a") (js "no longer needed")) = Ok r ∧
    t' ∈ tasks (snapshot (value r)) ∧ id t' = id (taskOf before "a") ∧ state t' = cancelled.
Proof.
  apply live_tasks_can_be_cancelled.
  - apply before_wf.
  - split; [apply in_before; vm_compute; eauto|by vm_compute].
  - by vm_compute.
  - eapply bool_decide_unpack. by vm_compute.
Defined.
End DemoWitnesses.
