(* ===== verification/Timestamp.v ===== *)
(** * Dates

    The part of JavaScript's [Date] the program uses: [toISOString], and the
    canonical-timestamp guards ([timestamp] of authorization.ts,
    [isCanonicalUtcTimestamp] of persistence/values.ts), which accept a string
    exactly when it is the [toISOString] of its own parse.  Grants, leases and
    requests compare such strings with [<]; [iso_order] shows when that is the
    order of time.  Calendar arithmetic follows ECMAScript's DayFromYear,
    YearFromTime, MonthFromTime and DateFromTime. *)

From S2P Require Import Prelude JsValue.

(** ** Calendar *)

Definition msPerDay : Z := 86400000.

(** The time values a [Date] can hold. *)
Definition maxTime : Z := 8640000000000000.

Definition dayFromYear (y : Z) : Z :=
  365 * (y - 1970) + (y - 1969) / 4 - (y - 1901) / 100 + (y - 1601) / 400.

Definition daysInYear (y : Z) : Z := dayFromYear (y + 1) - dayFromYear y.

(** YearFromTime: the year whose first day is the last one not after [day]. *)
Definition yearFromDay (day : Z) : Z :=
  let y := 1970 + (400 * day) / 146097 in
  if day <? dayFromYear y then y - 1
  else if dayFromYear (y + 1) <=? day then y + 1 else y.

(** The day of the year on which month [m] (1 to 12) starts; [leap] is 0 or 1. *)
Definition monthStart (leap m : Z) : Z :=
  if m <=? 1 then 0
  else if m =? 2 then 31
  else leap +
    (if m =? 3 then 59 else if m =? 4 then 90 else if m =? 5 then 120
     else if m =? 6 then 151 else if m =? 7 then 181 else if m =? 8 then 212
     else if m =? 9 then 243 else if m =? 10 then 273 else if m =? 11 then 304 else 334).

Definition monthFromDay (leap doy : Z) : Z :=
  if doy <? 31 then 1
  else if doy <? 59 + leap then 2 else if doy <? 90 + leap then 3
  else if doy <? 120 + leap then 4 else if doy <? 151 + leap then 5
  else if doy <? 181 + leap then 6 else if doy <? 212 + leap then 7
  else if doy <? 243 + leap then 8 else if doy <? 273 + leap then 9
  else if doy <? 304 + leap then 10 else if doy <? 334 + leap then 11 else 12.

Definition leapOf (y : Z) : Z := daysInYear y - 365.

Record DateFields : Type := {
  year : Z; month : Z; date : Z; hours : Z; minutes : Z; seconds : Z; milliseconds : Z;
}.

Definition dateFields (t : Z) : DateFields :=
  let day := t / msPerDay in
  let within := t mod msPerDay in
  let y := yearFromDay day in
  let doy := day - dayFromYear y in
  let m := monthFromDay (leapOf y) doy in
  {| year := y; month := m; date := doy - monthStart (leapOf y) m + 1;
     hours := within / 3600000; minutes := within / 60000 mod 60;
     seconds := within / 1000 mod 60; milliseconds := within mod 1000 |}.

(** MakeDate: the time value of a set of fields. *)
Definition makeDate (f : DateFields) : Z :=
  (dayFromYear (year f) + monthStart (leapOf (year f)) (month f) + date f - 1) * msPerDay +
  hours f * 3600000 + minutes f * 60000 + seconds f * 1000 + milliseconds f.

(** ** toISOString *)

(** [n] in decimal, padded to [w] digits. *)
Fixpoint pad (w : nat) (n : Z) : JsString :=
  match w with
  | O => []
  | S w => pad w (n / 10) ++ [48 + n mod 10]
  end.

Definition isoYear (y : Z) : JsString :=
  if (0 <=? y) && (y <=? 9999) then pad 4 y
  else (if y <? 0 then [45] else [43]) ++ pad 6 (Z.abs y).

Definition isoRest (f : DateFields) : JsString :=
  [45] ++ pad 2 (month f) ++ [45] ++ pad 2 (date f) ++ [84] ++ pad 2 (hours f) ++ [58] ++
  pad 2 (minutes f) ++ [58] ++ pad 2 (seconds f) ++ [46] ++ pad 3 (milliseconds f) ++ [90].

Definition toISOString (t : Z) : JsString :=
  isoYear (year (dateFields t)) ++ isoRest (dateFields t).

(** ** Date.parse, on the strings [toISOString] can return *)

Definition number (digits : JsString) : option Z :=
  if forallb (λ c, (48 <=? c) && (c <=? 57)) digits
  then Some (foldl (λ n c, 10 * n + (c - 48)) 0 digits) else None.

Definition slice (start len : nat) (s : JsString) : JsString := take len (drop start s).

Definition parseIsoFields (y : option Z) (rest : JsString) : option Z :=
  y ← y;
  m ← number (slice 1 2 rest); d ← number (slice 4 2 rest); h ← number (slice 7 2 rest);
  mi ← number (slice 10 2 rest); s ← number (slice 13 2 rest); ms ← number (slice 16 3 rest);
  Some (makeDate {| year := y; month := m; date := d; hours := h; minutes := mi; seconds := s;
                    milliseconds := ms |}).

Definition dateParse (s : JsString) : option Z :=
  match s with
  | [] => None
  | sign :: rest =>
      if sign =? 43 then parseIsoFields (number (take 6 rest)) (drop 6 rest)
      else if sign =? 45 then parseIsoFields (Z.opp <$> number (take 6 rest)) (drop 6 rest)
      else parseIsoFields (number (take 4 s)) (drop 4 s)
  end.

(** [const date = new Date(value); Number.isFinite(date.valueOf()) &&
    date.toISOString() === value]: a parse that is not canonical does not print
    as the value, so only canonical parses matter. *)
Definition isCanonicalUtcTimestampText (s : JsString) : bool :=
  match dateParse s with
  | Some t => (Z.abs t <=? maxTime) && js_eqb (toISOString t) s
  | None => false
  end.

(** [isCanonicalUtcTimestamp] (persistence/values.ts) *)
Definition isCanonicalUtcTimestamp (value : JsValue) : option JsString :=
  match value with
  | JString s => if isCanonicalUtcTimestampText s then Some s else None
  | _ => None
  end.

(** [timestamp] (authorization.ts) *)
Definition timestamp (value : JsValue) : option JsString :=
  match value with
  | JString s =>
      if (20 <=? length s)%nat && (length s <=? 40)%nat && isCanonicalUtcTimestampText s
      then Some s else None
  | _ => None
  end.

(** ** Calendar lemmas *)

Lemma dayFromYear_next y : dayFromYear y + 365 <= dayFromYear (y + 1) <= dayFromYear y + 366.
Proof. unfold dayFromYear. Z.to_euclidean_division_equations. lia. Qed.

Lemma yearFromDay_spec day :
  dayFromYear (yearFromDay day) <= day < dayFromYear (yearFromDay day + 1).
Proof.
  unfold yearFromDay. set (y := 1970 + 400 * day / 146097).
  assert (dayFromYear (y - 1) <= day < dayFromYear (y + 2)) as Hy.
  { unfold y, dayFromYear. Z.to_euclidean_division_equations. lia. }
  destruct (Z.ltb_spec day (dayFromYear y)).
  - replace (y - 1 + 1) with y by lia. lia.
  - destruct (Z.leb_spec (dayFromYear (y + 1)) day); [|lia].
    replace (y + 1 + 1) with (y + 2) by lia. lia.
Qed.

Lemma leapOf_range y : leapOf y = 0 ∨ leapOf y = 1.
Proof. unfold leapOf, daysInYear. pose proof (dayFromYear_next y). lia. Qed.

Lemma dayFromYear_mono y y' : y < y' → dayFromYear (y + 1) <= dayFromYear y'.
Proof.
  intros H. assert (∀ k, 0 <= k → dayFromYear (y + 1) <= dayFromYear (y + 1 + k)) as Hk.
  { apply natlike_ind; [by rewrite Z.add_0_r|]. intros k _ IH.
    pose proof (dayFromYear_next (y + 1 + k)).
    replace (y + 1 + Z.succ k) with (y + 1 + k + 1) by lia. lia. }
  replace y' with (y + 1 + (y' - y - 1)) by lia. apply Hk. lia.
Qed.

(** The day of the year, and the month and date it falls in. *)
Ltac calendar :=
  repeat match goal with |- context [?a <? ?b] => destruct (Z.ltb_spec a b) end; simpl; lia.

Lemma monthFromDay_range leap doy : 1 <= monthFromDay leap doy <= 12.
Proof. unfold monthFromDay. calendar. Qed.

Lemma monthStart_bounds leap doy :
  (leap = 0 ∨ leap = 1) → 0 <= doy < 365 + leap →
  0 <= doy - monthStart leap (monthFromDay leap doy) <= 30.
Proof. intros [-> | ->] Hd; unfold monthStart, monthFromDay; calendar. Qed.

Lemma month_mono leap doy doy' :
  doy <= doy' → monthFromDay leap doy <= monthFromDay leap doy'.
Proof. intros Hd. unfold monthFromDay. calendar. Qed.

Record fields_ok (f : DateFields) : Prop := {
  f_month : 1 <= month f <= 12;
  f_date : 1 <= date f <= 31;
  f_hours : 0 <= hours f < 24;
  f_minutes : 0 <= minutes f < 60;
  f_seconds : 0 <= seconds f < 60;
  f_milliseconds : 0 <= milliseconds f < 1000;
}.

Lemma doy_range t :
  let y := yearFromDay (t / msPerDay) in
  0 <= t / msPerDay - dayFromYear y < 365 + leapOf y.
Proof.
  intros y. pose proof (yearFromDay_spec (t / msPerDay)) as Hy. fold y in Hy.
  unfold leapOf, daysInYear. lia.
Qed.

Lemma dateFields_ok t : fields_ok (dateFields t).
Proof.
  assert (0 <= t mod msPerDay < msPerDay) as Hw by (apply Z.mod_pos_bound; done).
  constructor; unfold dateFields; cbn [month date hours minutes seconds milliseconds].
  - apply monthFromDay_range.
  - pose proof (monthStart_bounds _ _ (leapOf_range _) (doy_range t)). lia.
  - unfold msPerDay in *. Z.to_euclidean_division_equations. lia.
  - apply Z.mod_pos_bound. lia.
  - apply Z.mod_pos_bound. lia.
  - apply Z.mod_pos_bound. lia.
Qed.

(** MakeDate undoes the decomposition. *)
Lemma makeDate_fields t : makeDate (dateFields t) = t.
Proof.
  unfold makeDate, dateFields. cbn [year month date hours minutes seconds milliseconds].
  set (y := yearFromDay _). set (m := monthFromDay _ _).
  replace (dayFromYear y + monthStart (leapOf y) m +
    (t / msPerDay - dayFromYear y - monthStart (leapOf y) m + 1) - 1) with (t / msPerDay) by lia.
  clear y m. unfold msPerDay. Z.to_euclidean_division_equations. lia.
Qed.

(** ** Digits *)

Lemma pad_length w n : length (pad w n) = w.
Proof. revert n. induction w as [|w IH]; intros n; simpl; [done|]. rewrite length_app, IH. simpl. lia. Qed.

Lemma pad_digits w n : forallb (λ c, (48 <=? c) && (c <=? 57)) (pad w n) = true.
Proof.
  revert n. induction w as [|w IH]; intros n; simpl; [done|].
  rewrite forallb_app, IH. simpl. pose proof (Z.mod_pos_bound n 10 ltac:(lia)).
  rewrite !(proj2 (Z.leb_le _ _)) by lia. done.
Qed.

Lemma pad_value w n : 0 <= n < 10 ^ Z.of_nat w →
  foldl (λ n c, 10 * n + (c - 48)) 0 (pad w n) = n.
Proof.
  revert n. induction w as [|w IH]; intros n Hn; simpl.
  - simpl in Hn. lia.
  - rewrite foldl_app, IH; simpl.
    + pose proof (Z.div_mod n 10 ltac:(lia)). lia.
    + rewrite Nat2Z.inj_succ, Z.pow_succ_r in Hn by lia.
      split; [apply Z.div_pos; lia|apply Z.div_lt_upper_bound; lia].
Qed.

Lemma number_pad w n : 0 <= n < 10 ^ Z.of_nat w → number (pad w n) = Some n.
Proof. intros Hn. unfold number. by rewrite pad_digits, pad_value. Qed.

Lemma js_ltb_app_same p s t : js_ltb (p ++ s) (p ++ t) = js_ltb s t.
Proof. induction p as [|a p IH]; simpl; [done|]. by rewrite Z.ltb_irrefl, Z.eqb_refl, IH. Qed.

Lemma js_ltb_app_lt p q s t :
  length p = length q → js_ltb p q = true → js_ltb (p ++ s) (q ++ t) = true.
Proof.
  revert q. induction p as [|a p IH]; intros [|b q] Hl Hlt; try done.
  change (js_ltb (a :: p ++ s) (b :: q ++ t) = true). injection Hl as Hl.
  apply js_ltb_cons in Hlt. apply js_ltb_cons. destruct Hlt as [?|[-> ?]]; [by left|right]. auto.
Qed.

Lemma pad_lt w a b : 0 <= a → a < b → b < 10 ^ Z.of_nat w → js_ltb (pad w a) (pad w b) = true.
Proof.
  revert a b. induction w as [|w IH]; intros a b Ha Hab Hb; simpl; [simpl in Hb; lia|].
  rewrite Nat2Z.inj_succ, Z.pow_succ_r in Hb by lia.
  destruct (Z.eq_dec (a / 10) (b / 10)) as [Heq|Hne].
  - rewrite Heq, js_ltb_app_same. apply js_ltb_cons. left.
    pose proof (Z.div_mod a 10 ltac:(lia)). pose proof (Z.div_mod b 10 ltac:(lia)). lia.
  - apply js_ltb_app_lt; [by rewrite !pad_length|]. apply IH.
    + apply Z.div_pos; lia.
    + pose proof (Z.div_le_mono a b 10 ltac:(lia) ltac:(lia)). lia.
    + apply Z.div_lt_upper_bound; lia.
Qed.

(** ** Order *)

(** The fields in lexicographic order. *)
Definition fieldList (f : DateFields) : list Z :=
  [year f; month f; date f; hours f; minutes f; seconds f; milliseconds f].

Fixpoint lexLt (xs ys : list Z) : Prop :=
  match xs, ys with
  | x :: xs, y :: ys => x < y ∨ (x = y ∧ lexLt xs ys)
  | _, _ => False
  end.

Lemma date_lex t t' :
  t / msPerDay < t' / msPerDay →
  let f := dateFields t in let f' := dateFields t' in
  year f < year f' ∨ (year f = year f' ∧
    (month f < month f' ∨ (month f = month f' ∧ date f < date f'))).
Proof.
  intros Hd. unfold dateFields. cbn [year month date].
  pose proof (yearFromDay_spec (t / msPerDay)) as Hy.
  pose proof (yearFromDay_spec (t' / msPerDay)) as Hy'.
  set (y := yearFromDay (t / msPerDay)) in *. set (y' := yearFromDay (t' / msPerDay)) in *.
  destruct (Z.lt_trichotomy y y') as [?|[Heq|Hgt]]; [by left| |].
  - right. split; [done|]. rewrite <-Heq in *.
    set (a := t / msPerDay - dayFromYear y). set (b := t' / msPerDay - dayFromYear y).
    pose proof (month_mono (leapOf y) a b ltac:(lia)).
    destruct (Z.eq_dec (monthFromDay (leapOf y) a) (monthFromDay (leapOf y) b)) as [Hm|Hm].
    + right. rewrite Hm. split; [done|]. lia.
    + left. lia.
  - pose proof (dayFromYear_mono y' y Hgt). lia.
Qed.

Lemma time_lex w w' :
  0 <= w → w < w' → w' < msPerDay →
  lexLt [w / 3600000; w / 60000 mod 60; w / 1000 mod 60; w mod 1000]
        [w' / 3600000; w' / 60000 mod 60; w' / 1000 mod 60; w' mod 1000].
Proof. unfold msPerDay. simpl. intros. Z.to_euclidean_division_equations. lia. Qed.

Lemma fields_lex t t' :
  t < t' → lexLt (fieldList (dateFields t)) (fieldList (dateFields t')).
Proof.
  intros Hlt. pose proof (Z.mod_pos_bound t msPerDay ltac:(done)).
  pose proof (Z.mod_pos_bound t' msPerDay ltac:(done)).
  destruct (Z.eq_dec (t / msPerDay) (t' / msPerDay)) as [Heq|Hne].
  - pose proof (time_lex (t mod msPerDay) (t' mod msPerDay) ltac:(lia)) as Hw.
    pose proof (Z.div_mod t msPerDay ltac:(done)). pose proof (Z.div_mod t' msPerDay ltac:(done)).
    specialize (Hw ltac:(lia) ltac:(lia)).
    unfold fieldList, dateFields. cbn [year month date hours minutes seconds milliseconds].
    rewrite Heq. do 3 (right; split; [done|]). exact Hw.
  - pose proof (Z.div_le_mono t t' msPerDay ltac:(done) ltac:(lia)).
    destruct (date_lex t t' ltac:(lia)) as [?|[Hy [?|[Hm ?]]]]; simpl; auto 10.
Qed.

Lemma pad_step w a b s t :
  0 <= a → b < 10 ^ Z.of_nat w → (a < b ∨ (a = b ∧ js_ltb s t = true)) →
  js_ltb (pad w a ++ s) (pad w b ++ t) = true.
Proof.
  intros Ha Hb [Hlt|[-> Hst]].
  - apply js_ltb_app_lt; [by rewrite !pad_length|by apply pad_lt].
  - by rewrite js_ltb_app_same.
Qed.

Lemma sep_step c s t : js_ltb s t = true → js_ltb ([c] ++ s) ([c] ++ t) = true.
Proof. intros H. apply js_ltb_cons. by right. Qed.

(** A year that prints with four digits. *)
Definition plainYear (t : Z) : Prop := 0 <= year (dateFields t) <= 9999.

Lemma iso_plain t : plainYear t →
  toISOString t = pad 4 (year (dateFields t)) ++ isoRest (dateFields t).
Proof.
  intros [H1 H2]. unfold toISOString, isoYear.
  by rewrite (proj2 (Z.leb_le _ _) H1), (proj2 (Z.leb_le _ _) H2).
Qed.

Ltac iso_field Hlex :=
  apply pad_step; simpl Z.pow; [lia..|];
  destruct Hlex as [?|[? Hlex]]; [by left|right; split; [done|]].

(** Comparing the strings compares the times. *)
Lemma iso_lt t t' :
  plainYear t → plainYear t' → t < t' → js_ltb (toISOString t) (toISOString t') = true.
Proof.
  intros Hp Hp' Hlt. rewrite !iso_plain by done. pose proof (fields_lex t t' Hlt) as Hlex.
  destruct (dateFields_ok t), (dateFields_ok t'), Hp, Hp'. unfold isoRest.
  simpl in Hlex.
  do 6 (iso_field Hlex; apply sep_step). apply pad_step; simpl Z.pow; [lia..|].
  destruct Hlex as [?|[? []]]. by left.
Qed.

Lemma iso_ltb t t' :
  plainYear t → plainYear t' → js_ltb (toISOString t) (toISOString t') = (t <? t').
Proof.
  intros Hp Hp'. destruct (Z.ltb_spec t t') as [Hlt|Hge]; [by apply iso_lt|].
  destruct (Z.eq_dec t t') as [->|Hne]; [apply js_ltb_irrefl|].
  apply js_ltb_asym, iso_lt; [done|done|lia].
Qed.

(** A year that prints as [+] and six digits. *)
Definition lateYear (t : Z) : Prop := 9999 < year (dateFields t).

Lemma late_after t late : plainYear t → lateYear late → t < late.
Proof.
  intros [_ Hp] Hl. unfold lateYear in Hl. destruct (Z.lt_ge_cases t late) as [?|Hge]; [done|].
  destruct (Z.eq_dec late t) as [->|Hne]; [lia|].
  pose proof (fields_lex late t ltac:(lia)) as Hlex. revert Hlex Hp Hl.
  generalize (dateFields late) (dateFields t). intros f g Hlex Hp Hl.
  destruct Hlex as [Hy|[Hy _]]; simpl in Hy; lia.
Qed.

(** In time a late year comes after every plain one; as strings it sorts
    before, since [+] sorts before the digits. *)
Lemma late_sorts_first t late :
  plainYear t → lateYear late → js_ltb (toISOString late) (toISOString t) = true.
Proof.
  intros Hp Hl. rewrite (iso_plain t) by done. unfold toISOString, isoYear, lateYear in *.
  rewrite (proj2 (Z.leb_gt _ 9999)), andb_false_r, (proj2 (Z.ltb_ge _ 0)) by lia. simpl.
  pose proof (pad_digits 4 (year (dateFields t))) as Hd. simpl in Hd.
  apply andb_true_iff in Hd as [[Hc _]%andb_true_iff _]. apply Z.leb_le in Hc.
  rewrite (proj2 (Z.ltb_lt _ _)) by lia. done.
Qed.

(** ** The guard accepts exactly the strings of [toISOString] *)

Lemma year_bound t : Z.abs t <= maxTime → Z.abs (year (dateFields t)) < 10 ^ 6.
Proof.
  intros Ht. unfold dateFields. cbn [year]. unfold maxTime in Ht.
  assert (Z.abs (t / msPerDay) <= 100000000) as Hd.
  { unfold msPerDay. Z.to_euclidean_division_equations. lia. }
  revert Hd. generalize (t / msPerDay). intros day Hd. unfold yearFromDay.
  set (y := 1970 + 400 * day / 146097).
  assert (Z.abs y < 900000) by (unfold y; Z.to_euclidean_division_equations; lia).
  repeat case_match; lia.
Qed.

Lemma parseIsoFields_rest f :
  fields_ok f → parseIsoFields (Some (year f)) (isoRest f) = Some (makeDate f).
Proof.
  intros []. unfold parseIsoFields. cbn [mbind option_bind].
  change (slice 1 2 (isoRest f)) with (pad 2 (month f)).
  change (slice 4 2 (isoRest f)) with (pad 2 (date f)).
  change (slice 7 2 (isoRest f)) with (pad 2 (hours f)).
  change (slice 10 2 (isoRest f)) with (pad 2 (minutes f)).
  change (slice 13 2 (isoRest f)) with (pad 2 (seconds f)).
  change (slice 16 3 (isoRest f)) with (pad 3 (milliseconds f)).
  rewrite !number_pad by (simpl; lia). simpl. by destruct f.
Qed.

Lemma dateParse_iso t : Z.abs t <= maxTime → dateParse (toISOString t) = Some t.
Proof.
  intros Ht. pose proof (year_bound t Ht) as Hy. pose proof (dateFields_ok t) as Hf.
  pose proof (makeDate_fields t) as Hm. pose proof (parseIsoFields_rest _ Hf) as Hrest.
  unfold toISOString, isoYear. set (y := year (dateFields t)) in *.
  set (rest := isoRest (dateFields t)) in *.
  destruct ((0 <=? y) && (y <=? 9999)) eqn:Hplain.
  - inv_bool.
    assert (dateParse (pad 4 y ++ rest) = parseIsoFields (number (pad 4 y)) rest) as ->.
    { cbn [pad app dateParse].
      pose proof (Z.mod_pos_bound (y / 10 / 10 / 10) 10 ltac:(lia)).
      rewrite !(proj2 (Z.eqb_neq _ _)) by lia. done. }
    rewrite number_pad by (simpl; lia). rewrite Hrest. by rewrite Hm.
  - destruct (Z.ltb_spec y 0) as [Hneg|Hpos].
    + assert (dateParse (([45] ++ pad 6 (Z.abs y)) ++ rest) =
        parseIsoFields (Z.opp <$> number (pad 6 (Z.abs y))) rest) as -> by done.
      rewrite number_pad by (split; [lia|exact Hy]). cbn [fmap option_fmap option_map].
      replace (- Z.abs y) with y by lia. rewrite Hrest. by rewrite Hm.
    + assert (dateParse (([43] ++ pad 6 (Z.abs y)) ++ rest) =
        parseIsoFields (number (pad 6 (Z.abs y))) rest) as -> by done.
      rewrite number_pad by (split; [lia|exact Hy]).
      replace (Z.abs y) with y by lia. rewrite Hrest. by rewrite Hm.
Qed.

Lemma isCanonicalUtcTimestampText_ok s :
  isCanonicalUtcTimestampText s = true ↔ ∃ t, Z.abs t <= maxTime ∧ toISOString t = s.
Proof.
  unfold isCanonicalUtcTimestampText, js_eqb. split.
  - destruct (dateParse s) as [t|]; [|done]. intros H. inv_bool. by exists t.
  - intros (t & Ht & <-). rewrite dateParse_iso by done.
    by rewrite (proj2 (Z.leb_le _ _) Ht), bool_decide_true.
Qed.

Lemma iso_length t : (24 <= length (toISOString t) <= 27)%nat.
Proof.
  unfold toISOString, isoYear. rewrite length_app.
  change (length (isoRest (dateFields t))) with 20%nat.
  repeat case_match; simpl; lia.
Qed.

(** Both guards accept the same strings: the length test of authorization.ts is
    implied. *)
Lemma timestamp_ok value s :
  timestamp value = Some s ↔ value = JString s ∧ ∃ t, Z.abs t <= maxTime ∧ toISOString t = s.
Proof.
  split.
  - intros H. destruct value as [| | | |x| | | |]; try done. simpl in H.
    destruct (_ && isCanonicalUtcTimestampText x) eqn:Hx; [|done]. injection H as <-.
    inv_bool. split; [done|]. by apply isCanonicalUtcTimestampText_ok.
  - intros [-> (t & Ht & <-)]. unfold timestamp. pose proof (iso_length t).
    rewrite !(proj2 (Nat.leb_le _ _)) by lia. cbn [andb].
    by rewrite (proj2 (isCanonicalUtcTimestampText_ok _)) by eauto.
Qed.

Lemma isCanonicalUtcTimestamp_ok value s :
  isCanonicalUtcTimestamp value = Some s ↔
  value = JString s ∧ ∃ t, Z.abs t <= maxTime ∧ toISOString t = s.
Proof.
  split.
  - intros H. destruct value as [| | | |x| | | |]; try done. simpl in H.
    destruct (isCanonicalUtcTimestampText x) eqn:Hx; [|done]. injection H as <-.
    split; [done|]. by apply isCanonicalUtcTimestampText_ok.
  - intros [-> (t & Ht & <-)]. unfold isCanonicalUtcTimestamp.
    by rewrite (proj2 (isCanonicalUtcTimestampText_ok _)) by eauto.
Qed.
