(* ===== verification/Authorization.v ===== *)
(** * Authorization (src/src/authorization.ts)

    The action vocabularies, the parser of grants, the evaluation of a request
    against the grants of an actor, and the proof obligation of issuing a new
    grant.  Actions are the source's strings; timestamps are compared as
    strings, as the source does. *)

From S2P Require Import Prelude JsValue DomainModel DomainParse Timestamp.

(** ** Vocabularies *)

Definition BASE_AUTHORIZATION_ACTIONS : list string :=
  ["authorization.grant.issue"; "authorization.grant.inspect"; "authorization.grant.revoke";
   "policy.evaluate"; "project.register"; "project.update"; "project.disable";
   "project.inspect"; "task.create"; "task.update"; "task.mark_ready"; "task.cancel";
   "task.inspect"; "dependency.add"; "dependency.remove"; "authorization.grant.list";
   "runtime.status"; "runtime.backup"; "runtime.restore"].

Definition EXECUTION_AUTHORIZATION_ACTIONS : list string :=
  ["execution.claim"; "execution.claim.inspect"; "execution.lease.renew";
   "execution.lease.takeover"].

Definition CLAIM_AUTHORIZATION_ACTIONS : list string :=
  BASE_AUTHORIZATION_ACTIONS ++ EXECUTION_AUTHORIZATION_ACTIONS.

Definition MANUAL_EXECUTION_AUTHORIZATION_ACTIONS : list string :=
  ["execution.start"; "execution.inspect"; "execution.resume"; "execution.retry";
   "execution.cancel"; "execution.completion.accept"].

Definition MANUAL_AUTHORIZATION_ACTIONS : list string :=
  CLAIM_AUTHORIZATION_ACTIONS ++ MANUAL_EXECUTION_AUTHORIZATION_ACTIONS.

Definition DISPATCH_AUTHORIZATION_ACTIONS : list string := ["dispatch.run"].

Definition DISPATCHER_AUTHORIZATION_ACTIONS : list string :=
  MANUAL_AUTHORIZATION_ACTIONS ++ DISPATCH_AUTHORIZATION_ACTIONS.

Definition WORKSPACE_AUTHORIZATION_ACTIONS : list string :=
  ["workspace.reserve"; "workspace.create"; "workspace.inspect"; "workspace.recover";
   "workspace.cleanup"].

Definition COMPLETION_INTEGRATION_AUTHORIZATION_ACTIONS : list string :=
  ["completion.gate.run"; "completion.gate.inspect"; "completion.gate.cancel";
   "completion.accept"; "integration.reserve"; "integration.inspect";
   "integration.lease.renew"; "integration.lease.takeover"; "integration.apply";
   "integration.push"; "integration.recover"; "integration.release"].

Definition WORKSPACE_STAGE_AUTHORIZATION_ACTIONS : list string :=
  DISPATCHER_AUTHORIZATION_ACTIONS ++ WORKSPACE_AUTHORIZATION_ACTIONS.

Definition PHASE3_AUTHORIZATION_ACTIONS : list string :=
  WORKSPACE_STAGE_AUTHORIZATION_ACTIONS ++ COMPLETION_INTEGRATION_AUTHORIZATION_ACTIONS.

Definition SCHEDULER_AUTHORIZATION_ACTIONS : list string :=
  ["scheduler.register"; "scheduler.inspect"; "scheduler.remove"].

Definition SCHEDULER_STAGE_AUTHORIZATION_ACTIONS : list string :=
  PHASE3_AUTHORIZATION_ACTIONS ++ SCHEDULER_AUTHORIZATION_ACTIONS.

Definition CODEX_AUTHORIZATION_ACTIONS : list string :=
  ["codex.profile.activate"; "codex.profile.inspect"; "codex.profile.deactivate";
   "codex.execution.invoke"; "codex.execution.cancel"].

Definition AUTHORIZATION_ACTIONS : list string :=
  SCHEDULER_STAGE_AUTHORIZATION_ACTIONS ++ CODEX_AUTHORIZATION_ACTIONS.

Definition HIGH_RISK_ACTIONS : list string :=
  ["authorization.grant.issue"; "authorization.grant.revoke"; "project.register";
   "project.update"; "project.disable"; "runtime.restore"; "execution.completion.accept";
   "completion.accept"; "integration.apply"; "integration.push"; "workspace.cleanup";
   "scheduler.register"; "scheduler.remove"; "codex.profile.activate";
   "codex.profile.deactivate"; "codex.execution.invoke"].

Definition isAuthorizationVocabularyVersion (value : JsValue) : bool :=
  existsb (isNumber value) [1; 2; 3; 4; 5; 6; 7; 8].

Definition actionsForVocabulary (version : Z) : list string :=
  if version =? 1 then BASE_AUTHORIZATION_ACTIONS
  else if version =? 2 then CLAIM_AUTHORIZATION_ACTIONS
  else if version =? 3 then MANUAL_AUTHORIZATION_ACTIONS
  else if version =? 4 then DISPATCHER_AUTHORIZATION_ACTIONS
  else if version =? 5 then WORKSPACE_STAGE_AUTHORIZATION_ACTIONS
  else if version =? 6 then PHASE3_AUTHORIZATION_ACTIONS
  else if version =? 7 then SCHEDULER_STAGE_AUTHORIZATION_ACTIONS
  else AUTHORIZATION_ACTIONS.

(** ** Data *)

Inductive AuthorizationPolicyResult : Type := allow | deny | read_not_applicable.

Inductive AuthorizationReason : Type :=
  | allowed_ | actor_mismatch | action_mismatch | scope_mismatch | scope_revision_stale
  | grant_expired | grant_not_yet_valid | grant_revoked | grant_missing | policy_denied
  | confirmation_required.

Inductive ScopeKind : Type := runtime | project.

Record AuthorizationScope : Type := {
  scopeKind : ScopeKind;
  scopeProjectId : option JsString;
  scopeResourceRevision : option Z;
  scopeConfigRevision : option Z;
}.

Record AuthorizationGrant : Type := {
  grantId : JsString;
  grantRevision : Z;
  grantActorId : JsString;
  grantAction : string;
  grantScope : AuthorizationScope;
  notBefore : JsString;
  expiresAt : JsString;
  revokedAt : option JsString;
  issuerGrantId : option JsString;
  sourceGrantId : option JsString;
}.

Record AuthorizationTarget : Type := {
  targetProjectId : option JsString;
  targetResourceRevision : option Z;
  targetConfigRevision : option Z;
}.

Record AuthorizationEvaluationInput : Type := {
  inputActorId : JsString;
  inputAction : string;
  inputTarget : AuthorizationTarget;
  inputNow : JsString;
  inputPolicy : AuthorizationPolicyResult;
  inputConfirmed : bool;
  inputGrants : list AuthorizationGrant;
}.

Record AuthorizationEvaluation : Type := {
  allowed : bool;
  evaluationReason : AuthorizationReason;
  evaluationPolicy : AuthorizationPolicyResult;
  evaluationGrantId : option JsString;
  evaluationGrantRevision : option Z;
}.

#[export] Instance AuthorizationPolicyResult_eq_dec : EqDecision AuthorizationPolicyResult.
Proof. solve_decision. Defined.
#[export] Instance AuthorizationReason_eq_dec : EqDecision AuthorizationReason.
Proof. solve_decision. Defined.
#[export] Instance ScopeKind_eq_dec : EqDecision ScopeKind.
Proof. solve_decision. Defined.
#[export] Instance AuthorizationScope_eq_dec : EqDecision AuthorizationScope.
Proof. solve_decision. Defined.

(** ** Guards

    [exactRecord] and [canonicalArray] are the readers of the domain core
    again, line for line. *)

Definition exactRecord (value : JsValue) (keys : list string) : option (list (JsString * JsValue)) :=
  readExactRecord value keys.

Definition canonicalArray (value : JsValue) : option (list JsValue) := readCanonicalArray value.

(** At most 128 code units, as the persisted identifiers are. *)
Definition shortIdentifier (value : JsValue) : option JsString :=
  match value with
  | JString s => if (0 <? length s)%nat && (length s <=? 128)%nat then Some s else None
  | _ => None
  end.

Definition domainIdentifier (value : JsValue) : option JsString := isIdentifier value.

Definition revisionNumber (value : JsValue) : option Z := isPositiveInteger value.

Definition isAuthorizationAction (value : JsValue) : option string :=
  lookupName AUTHORIZATION_ACTIONS (λ action, action) value.

Definition isHighRiskAction (action : string) : bool := bool_decide (action ∈ HIGH_RISK_ACTIONS).

Definition parseScope (value : JsValue) : option AuthorizationScope :=
  record ← exactRecord value ["kind"; "projectId"; "resourceRevision"; "configRevision"];
  if isLiteral (field record "kind") (js "runtime") then
    if isNull (field record "projectId") && isNull (field record "resourceRevision") &&
       isNull (field record "configRevision")
    then Some {| scopeKind := runtime; scopeProjectId := None; scopeResourceRevision := None;
                 scopeConfigRevision := None |}
    else None
  else if isLiteral (field record "kind") (js "project") then
    p ← domainIdentifier (field record "projectId");
    r ← revisionNumber (field record "resourceRevision");
    c ← revisionNumber (field record "configRevision");
    Some {| scopeKind := project; scopeProjectId := Some p; scopeResourceRevision := Some r;
            scopeConfigRevision := Some c |}
  else None.

Definition grantKeys : list string :=
  ["grantId"; "revision"; "actorId"; "action"; "scope"; "notBefore"; "expiresAt"; "revokedAt";
   "issuerGrantId"; "sourceGrantId"].

Definition parseAuthorizationGrant (value : JsValue) : option AuthorizationGrant :=
  record ← exactRecord value grantKeys;
  scope ← parseScope (field record "scope");
  grantId ← shortIdentifier (field record "grantId");
  revision ← revisionNumber (field record "revision");
  actorId ← shortIdentifier (field record "actorId");
  action ← isAuthorizationAction (field record "action");
  notBefore ← timestamp (field record "notBefore");
  expiresAt ← timestamp (field record "expiresAt");
  revokedAt ← nullable timestamp (field record "revokedAt");
  issuerGrantId ← nullable shortIdentifier (field record "issuerGrantId");
  sourceGrantId ← nullable shortIdentifier (field record "sourceGrantId");
  if js_leb expiresAt notBefore then None
  else Some {| grantId := grantId; grantRevision := revision; grantActorId := actorId;
               grantAction := action; grantScope := scope; notBefore := notBefore;
               expiresAt := expiresAt; revokedAt := revokedAt; issuerGrantId := issuerGrantId;
               sourceGrantId := sourceGrantId |}.

Definition scopeMatches (scope : AuthorizationScope) (target : AuthorizationTarget) : bool :=
  match scopeKind scope with
  | runtime => true
  | project =>
      bool_decide (targetProjectId target = scopeProjectId scope) &&
      bool_decide (targetResourceRevision target = scopeResourceRevision scope) &&
      bool_decide (targetConfigRevision target = scopeConfigRevision scope)
  end.

Definition evaluation (allowed : bool) (reason : AuthorizationReason)
    (policy : AuthorizationPolicyResult) (grant : option AuthorizationGrant)
    : AuthorizationEvaluation :=
  {| allowed := allowed; evaluationReason := reason; evaluationPolicy := policy;
     evaluationGrantId := grantId <$> grant; evaluationGrantRevision := grantRevision <$> grant |}.

(** The JavaScript object of a grant: a row as its reader presents it. *)
Definition scopeValue (scope : AuthorizationScope) : JsValue :=
  jsObject [("kind", jsName (match scopeKind scope with runtime => "runtime" | project => "project" end));
            ("projectId", jsNullable JString (scopeProjectId scope));
            ("resourceRevision", jsNullable jsInteger (scopeResourceRevision scope));
            ("configRevision", jsNullable jsInteger (scopeConfigRevision scope))].

Definition grantValue (g : AuthorizationGrant) : JsValue :=
  jsObject [("grantId", JString (grantId g)); ("revision", jsInteger (grantRevision g));
            ("actorId", JString (grantActorId g)); ("action", jsName (grantAction g));
            ("scope", scopeValue (grantScope g)); ("notBefore", JString (notBefore g));
            ("expiresAt", JString (expiresAt g));
            ("revokedAt", jsNullable JString (revokedAt g));
            ("issuerGrantId", jsNullable JString (issuerGrantId g));
            ("sourceGrantId", jsNullable JString (sourceGrantId g))].

(** ** Evaluation *)

Definition AuthorizationPolicyResult_name (p : AuthorizationPolicyResult) : string :=
  match p with
  | allow => "allow" | deny => "deny" | read_not_applicable => "read_not_applicable"
  end.

Definition isPolicyResult (value : JsValue) : option AuthorizationPolicyResult :=
  lookupName [allow; deny; read_not_applicable] AuthorizationPolicyResult_name value.

Definition AuthorizationReason_name (r : AuthorizationReason) : string :=
  match r with
  | allowed_ => "allowed" | actor_mismatch => "actor_mismatch"
  | action_mismatch => "action_mismatch" | scope_mismatch => "scope_mismatch"
  | scope_revision_stale => "scope_revision_stale" | grant_expired => "grant_expired"
  | grant_not_yet_valid => "grant_not_yet_valid" | grant_revoked => "grant_revoked"
  | grant_missing => "grant_missing" | policy_denied => "policy_denied"
  | confirmation_required => "confirmation_required"
  end.

(** The checks before the grants are looked at; every failure is the same
    [evaluation(false, "grant_missing", "deny", null)]. *)
Definition parseEvaluationInput (value : JsValue) : option AuthorizationEvaluationInput :=
  input ← exactRecord value
    ["actorId"; "action"; "target"; "now"; "policy"; "confirmed"; "grants"];
  actorId ← shortIdentifier (field input "actorId");
  action ← isAuthorizationAction (field input "action");
  now ← timestamp (field input "now");
  target ← exactRecord (field input "target") ["projectId"; "resourceRevision"; "configRevision"];
  grants ← canonicalArray (field input "grants");
  projectId ← nullable domainIdentifier (field target "projectId");
  resourceRevision ← nullable revisionNumber (field target "resourceRevision");
  configRevision ← nullable revisionNumber (field target "configRevision");
  policy ← isPolicyResult (field input "policy");
  confirmed ← isBoolean (field input "confirmed");
  parsedGrants ← mapM parseAuthorizationGrant grants;
  Some {| inputActorId := actorId; inputAction := action;
          inputTarget := {| targetProjectId := projectId;
                            targetResourceRevision := resourceRevision;
                            targetConfigRevision := configRevision |};
          inputNow := now; inputPolicy := policy; inputConfirmed := confirmed;
          inputGrants := parsedGrants |}.

(** The [for] loop over the grants of the actor for the action; [reason] is the
    variable [firstReason]. *)
Fixpoint grantLoop (input : AuthorizationEvaluationInput) (reason : AuthorizationReason)
    (grants : list AuthorizationGrant) : AuthorizationEvaluation :=
  match grants with
  | [] => evaluation false reason (inputPolicy input) None
  | grant :: rest =>
      if bool_decide (is_Some (revokedAt grant)) then grantLoop input grant_revoked rest
      else if js_ltb (inputNow input) (notBefore grant) then grantLoop input grant_not_yet_valid rest
      else if js_leb (expiresAt grant) (inputNow input) then grantLoop input grant_expired rest
      else if negb (scopeMatches (grantScope grant) (inputTarget input)) then
        grantLoop input
          (if bool_decide (scopeKind (grantScope grant) = project) &&
              bool_decide (scopeProjectId (grantScope grant) = targetProjectId (inputTarget input))
           then scope_revision_stale else scope_mismatch) rest
      else if bool_decide (inputPolicy input = deny) then
        evaluation false policy_denied deny (Some grant)
      else if isHighRiskAction (inputAction input) && negb (inputConfirmed input) then
        evaluation false confirmation_required (inputPolicy input) (Some grant)
      else evaluation true allowed_ (inputPolicy input) (Some grant)
  end.

Definition actorGrants (actorId : JsString) (grants : list AuthorizationGrant)
    : list AuthorizationGrant :=
  List.filter (λ grant, bool_decide (grantActorId grant = actorId)) grants.

Definition actionGrants (action : string) (grants : list AuthorizationGrant)
    : list AuthorizationGrant :=
  List.filter (λ grant, bool_decide (grantAction grant = action)) grants.

Definition decideAuthorization (input : AuthorizationEvaluationInput) : AuthorizationEvaluation :=
  match actorGrants (inputActorId input) (inputGrants input) with
  | [] => evaluation false actor_mismatch (inputPolicy input) None
  | ofActor =>
      match actionGrants (inputAction input) ofActor with
      | [] => evaluation false action_mismatch (inputPolicy input) None
      | ofAction => grantLoop input grant_missing ofAction
      end
  end.

Definition evaluateAuthorization (value : JsValue) : AuthorizationEvaluation :=
  match parseEvaluationInput value with
  | None => evaluation false grant_missing deny None
  | Some input => decideAuthorization input
  end.

(** ** Issuing *)

Record GrantIssueCandidate : Type := {
  candidateActorId : JsString;
  candidateAction : string;
  candidateScope : AuthorizationScope;
  candidateNotBefore : JsString;
  candidateExpiresAt : JsString;
}.

Record GrantIssueProof : Type := {
  administrativeGrantId : JsString;
  proofSourceGrantId : JsString;
}.

Definition scopeTarget (scope : AuthorizationScope) : AuthorizationTarget :=
  {| targetProjectId := scopeProjectId scope;
     targetResourceRevision := scopeResourceRevision scope;
     targetConfigRevision := scopeConfigRevision scope |}.

(** The conjunction inside the two loops. *)
Definition covers (candidate : GrantIssueCandidate) (now : JsString)
    (admin authority : AuthorizationGrant) : bool :=
  bool_decide (revokedAt admin = None) && bool_decide (revokedAt authority = None) &&
  js_leb (notBefore admin) now && js_leb (notBefore authority) now &&
  js_leb (candidateExpiresAt candidate) (expiresAt admin) &&
  js_leb (candidateExpiresAt candidate) (expiresAt authority) &&
  scopeMatches (grantScope admin) (scopeTarget (candidateScope candidate)) &&
  scopeMatches (grantScope authority) (scopeTarget (candidateScope candidate)).

Definition issuable (value : JsString) : bool :=
  bool_decide (is_Some (shortIdentifier (JString value))).

Definition canonicalTime (value : JsString) : bool :=
  bool_decide (is_Some (timestamp (JString value))).

Definition canIssueGrant (issuerActorId : JsString) (issuerGrants : list AuthorizationGrant)
    (candidate : GrantIssueCandidate) (now : JsString) : option GrantIssueProof :=
  if negb (issuable issuerActorId) || negb (issuable (candidateActorId candidate)) ||
     negb (canonicalTime now) || negb (canonicalTime (candidateNotBefore candidate)) ||
     negb (canonicalTime (candidateExpiresAt candidate))
  then None
  else if js_ltb (candidateNotBefore candidate) now ||
          js_leb (candidateExpiresAt candidate) (candidateNotBefore candidate) ||
          js_leb (candidateExpiresAt candidate) now
  then None
  else
    let held := actorGrants issuerActorId issuerGrants in
    let administrative := actionGrants "authorization.grant.issue" held in
    let source := actionGrants (candidateAction candidate) held in
    pair ← List.find (λ pair, covers candidate now pair.1 pair.2)
             (list_prod administrative source);
    Some {| administrativeGrantId := grantId pair.1; proofSourceGrantId := grantId pair.2 |}.

(** ** What a grant gives *)

Record grant_wf (g : AuthorizationGrant) : Prop := {
  gwf_grantId : 0 < Z.of_nat (length (grantId g)) <= 128;
  gwf_revision : positiveInteger (grantRevision g);
  gwf_actorId : 0 < Z.of_nat (length (grantActorId g)) <= 128;
  gwf_action : grantAction g ∈ AUTHORIZATION_ACTIONS;
  gwf_scope :
    match scopeKind (grantScope g) with
    | runtime => scopeProjectId (grantScope g) = None ∧ scopeResourceRevision (grantScope g) = None ∧
        scopeConfigRevision (grantScope g) = None
    | project => ∃ p r c, scopeProjectId (grantScope g) = Some p ∧ identifier p ∧
        scopeResourceRevision (grantScope g) = Some r ∧ positiveInteger r ∧
        scopeConfigRevision (grantScope g) = Some c ∧ positiveInteger c
    end;
  gwf_notBefore : isCanonicalUtcTimestampText (notBefore g) = true;
  gwf_expiresAt : isCanonicalUtcTimestampText (expiresAt g) = true;
  gwf_revokedAt : ∀ s, revokedAt g = Some s → isCanonicalUtcTimestampText s = true;
  gwf_issuer : ∀ s, issuerGrantId g = Some s → 0 < Z.of_nat (length s) <= 128;
  gwf_source : ∀ s, sourceGrantId g = Some s → 0 < Z.of_nat (length s) <= 128;
  gwf_window : js_ltb (notBefore g) (expiresAt g) = true;
}.

(** The grant authorises the actor to take the action on the target at [now]. *)
Record usable (g : AuthorizationGrant) (actor : JsString) (action : string)
    (target : AuthorizationTarget) (now : JsString) : Prop := {
  us_actor : grantActorId g = actor;
  us_action : grantAction g = action;
  us_live : revokedAt g = None;
  us_start : js_leb (notBefore g) now = true;
  us_end : js_ltb now (expiresAt g) = true;
  us_scope : scopeMatches (grantScope g) target = true;
}.
