(* ===== verification/AuthorizationProperties.v ===== *)
(** * Properties of authorization (src/src/authorization.ts)

    Who may do what, when, and why not; which grants may be issued; and what
    comparing timestamps as strings means in time. *)

From S2P Require Import Prelude JsValue DomainModel DomainParse Timestamp Authorization.

(** ** String order as an order *)

Lemma js_leb_trans a b c : js_leb a b = true → js_leb b c = true → js_leb a c = true.
Proof.
  rewrite !js_leb_lt. intros [H1| ->] [H2| ->]; auto. left. by eapply js_ltb_trans.
Qed.

Lemma js_lt_le_trans a b c : js_ltb a b = true → js_leb b c = true → js_ltb a c = true.
Proof. rewrite js_leb_lt. intros H1 [H2|<-]; [by eapply js_ltb_trans|done]. Qed.

Lemma js_leb_ltb a b : js_leb a b = negb (js_ltb b a).
Proof. done. Qed.

(** ** The loop over grants *)

Definition usableb (input : AuthorizationEvaluationInput) (g : AuthorizationGrant) : bool :=
  bool_decide (revokedAt g = None) && js_leb (notBefore g) (inputNow input) &&
  js_ltb (inputNow input) (expiresAt g) && scopeMatches (grantScope g) (inputTarget input).

(** The verdict on the first usable grant. *)
Definition verdict (input : AuthorizationEvaluationInput) (g : AuthorizationGrant)
    : AuthorizationEvaluation :=
  if bool_decide (inputPolicy input = deny) then evaluation false policy_denied deny (Some g)
  else if isHighRiskAction (inputAction input) && negb (inputConfirmed input)
  then evaluation false confirmation_required (inputPolicy input) (Some g)
  else evaluation true allowed_ (inputPolicy input) (Some g).

(** Why one grant is not usable, in the order the code asks. *)
Definition refusal (input : AuthorizationEvaluationInput) (g : AuthorizationGrant)
    : AuthorizationReason :=
  if bool_decide (is_Some (revokedAt g)) then grant_revoked
  else if js_ltb (inputNow input) (notBefore g) then grant_not_yet_valid
  else if js_leb (expiresAt g) (inputNow input) then grant_expired
  else if bool_decide (scopeKind (grantScope g) = project) &&
          bool_decide (scopeProjectId (grantScope g) = targetProjectId (inputTarget input))
       then scope_revision_stale else scope_mismatch.

Lemma grantLoop_step input reason g rest :
  grantLoop input reason (g :: rest) =
    if usableb input g then verdict input g else grantLoop input (refusal input g) rest.
Proof.
  simpl. unfold usableb, refusal. rewrite !js_leb_ltb.
  destruct (revokedAt g) as [x|]; simpl.
  { done. }
  destruct (js_ltb (inputNow input) (notBefore g)); simpl; [done|].
  destruct (js_ltb (inputNow input) (expiresAt g)); simpl; [|done].
  by destruct (scopeMatches _ _).
Qed.

(** The loop decides on the first usable grant; with none it ends with the
    refusal of the last one. *)
Lemma grantLoop_spec input reason grants :
  grantLoop input reason grants =
    match List.find (usableb input) grants with
    | Some g => verdict input g
    | None => evaluation false (default reason (refusal input <$> last grants))
                (inputPolicy input) None
    end.
Proof.
  revert reason. induction grants as [|g rest IH]; intros reason; [done|].
  rewrite grantLoop_step. cbn [List.find]. destruct (usableb input g); [done|].
  rewrite IH. destruct (List.find _ _); [done|].
  destruct rest as [|h rest]; [done|]. rewrite last_cons_cons.
  destruct (last (h :: rest)) eqn:Hl; [done|]. by apply last_None in Hl.
Qed.

Definition requested (input : AuthorizationEvaluationInput) : list AuthorizationGrant :=
  actionGrants (inputAction input) (actorGrants (inputActorId input) (inputGrants input)).

Lemma requested_elem input g :
  g ∈ requested input ↔
  g ∈ inputGrants input ∧ grantActorId g = inputActorId input ∧ grantAction g = inputAction input.
Proof.
  unfold requested, actionGrants, actorGrants.
  rewrite !list_elem_of_In, !filter_In, !bool_decide_eq_true, <-list_elem_of_In. tauto.
Qed.

Lemma usableb_usable input g :
  g ∈ requested input → usableb input g = true ↔
  usable g (inputActorId input) (inputAction input) (inputTarget input) (inputNow input).
Proof.
  intros (_ & Ha & Hc)%requested_elem. unfold usableb.
  rewrite !andb_true_iff, bool_decide_eq_true. split; [intros [[[? ?] ?] ?]; by constructor|].
  by intros [].
Qed.

Definition usableGrant (input : AuthorizationEvaluationInput) : option AuthorizationGrant :=
  List.find (usableb input) (requested input).

Lemma usableGrant_None input :
  usableGrant input = None ↔
  ∀ g, g ∈ inputGrants input →
    ¬ usable g (inputActorId input) (inputAction input) (inputTarget input) (inputNow input).
Proof.
  unfold usableGrant. rewrite find_None_iff. split.
  - intros Hn g Hg Hu. assert (g ∈ requested input) as Hr by (apply requested_elem; by destruct Hu).
    apply (usableb_usable input g Hr) in Hu. by rewrite Hn in Hu.
  - intros Hn g Hr. apply not_true_iff_false. intros Hu.
    apply (usableb_usable input g Hr) in Hu. apply requested_elem in Hr as (Hg & _). by eapply Hn.
Qed.

Lemma decideAuthorization_spec input :
  decideAuthorization input =
    match usableGrant input with
    | Some g => verdict input g
    | None =>
        evaluation false
          (match actorGrants (inputActorId input) (inputGrants input), requested input with
           | [], _ => actor_mismatch
           | _, [] => action_mismatch
           | _, ofAction => default grant_missing (refusal input <$> last ofAction)
           end) (inputPolicy input) None
    end.
Proof.
  unfold decideAuthorization, usableGrant, requested.
  destruct (actorGrants _ _) as [|g ofActor]; [done|].
  destruct (actionGrants _ _) as [|h ofAction] eqn:Hof; [done|].
  rewrite grantLoop_spec. by destruct (List.find _ _).
Qed.

Lemma verdict_allowed input g :
  allowed (verdict input g) = true ↔
  inputPolicy input ≠ deny ∧ (inputAction input ∈ HIGH_RISK_ACTIONS → inputConfirmed input = true).
Proof.
  unfold verdict, isHighRiskAction. case_bool_decide as Hd; simpl; [naive_solver|].
  case_bool_decide as Hr; simpl; [|naive_solver]. destruct (inputConfirmed input); naive_solver.
Qed.

Lemma decide_allowed input :
  allowed (decideAuthorization input) = true ↔
  inputPolicy input ≠ deny ∧
  (inputAction input ∈ HIGH_RISK_ACTIONS → inputConfirmed input = true) ∧
  ∃ g, g ∈ inputGrants input ∧
    usable g (inputActorId input) (inputAction input) (inputTarget input) (inputNow input).
Proof.
  rewrite decideAuthorization_spec. destruct (usableGrant input) as [g|] eqn:Hg.
  - rewrite verdict_allowed. apply find_Some_iff in Hg as [Hr Hu].
    apply (usableb_usable input g Hr) in Hu. apply requested_elem in Hr as (Hin & _).
    naive_solver.
  - split; [done|]. intros (_ & _ & g & Hin & Hu).
    by apply (proj1 (usableGrant_None input) Hg g Hin) in Hu.
Qed.

(** C6 Authorization is granted exactly when the input is well formed, the
    policy does not deny, a high-risk action is confirmed, and the actor holds
    a grant for the action that is live, inside its validity window and scoped
    to the target.  Everything else is refused. *)
Theorem authorization_allowed_iff v :
  allowed (evaluateAuthorization v) = true ↔
  ∃ input, parseEvaluationInput v = Some input ∧ inputPolicy input ≠ deny ∧
    (inputAction input ∈ HIGH_RISK_ACTIONS → inputConfirmed input = true) ∧
    ∃ g, g ∈ inputGrants input ∧
      usable g (inputActorId input) (inputAction input) (inputTarget input) (inputNow input).
Proof.
  unfold evaluateAuthorization. destruct (parseEvaluationInput v) as [input|].
  - rewrite decide_allowed. naive_solver.
  - split; [done|]. by intros (? & ? & _).
Qed.

Lemma actorGrants_nil input :
  actorGrants (inputActorId input) (inputGrants input) = [] ↔
  ∀ g, g ∈ inputGrants input → grantActorId g ≠ inputActorId input.
Proof.
  unfold actorGrants. split.
  - intros Hnil g Hin Ha. assert (g ∈ actorGrants (inputActorId input) (inputGrants input)) as Hf.
    { unfold actorGrants. apply list_elem_of_In, filter_In. split; [by apply list_elem_of_In|].
      by apply bool_decide_eq_true. }
    unfold actorGrants in Hf. rewrite Hnil in Hf. by apply elem_of_nil in Hf.
  - intros Hno. destruct (List.filter _ _) as [|g l] eqn:Hf; [done|]. exfalso.
    assert (g ∈ g :: l) as Hin by set_solver. rewrite <-Hf in Hin.
    apply list_elem_of_In, filter_In in Hin as [Hin Ha%bool_decide_eq_true].
    by apply (Hno g); [apply list_elem_of_In|].
Qed.

(** *** The whole decision *)

(** The grants the request may rely on, in the order given. *)
Definition candidates (input : AuthorizationEvaluationInput) : list AuthorizationGrant :=
  filter (λ g, grantActorId g = inputActorId input ∧ grantAction g = inputAction input)
    (inputGrants input).

Definition authorises (input : AuthorizationEvaluationInput) (g : AuthorizationGrant) : Prop :=
  usable g (inputActorId input) (inputAction input) (inputTarget input) (inputNow input).

Definition firstAuthorising (input : AuthorizationEvaluationInput) (g : AuthorizationGrant) : Prop :=
  ∃ before after, candidates input = before ++ g :: after ∧ authorises input g ∧
    Forall (λ h, ¬ authorises input h) before.

(** What is wrong with a grant that does not authorise. *)
Inductive refused (input : AuthorizationEvaluationInput) (g : AuthorizationGrant)
    : AuthorizationReason → Prop :=
  | refused_revoked : revokedAt g ≠ None → refused input g grant_revoked
  | refused_early :
      revokedAt g = None → js_ltb (inputNow input) (notBefore g) = true →
      refused input g grant_not_yet_valid
  | refused_late :
      revokedAt g = None → js_leb (notBefore g) (inputNow input) = true →
      js_leb (expiresAt g) (inputNow input) = true →
      refused input g grant_expired
  | refused_stale :
      revokedAt g = None → js_leb (notBefore g) (inputNow input) = true →
      js_ltb (inputNow input) (expiresAt g) = true →
      scopeKind (grantScope g) = project →
      scopeProjectId (grantScope g) = targetProjectId (inputTarget input) →
      scopeResourceRevision (grantScope g) ≠ targetResourceRevision (inputTarget input) ∨
      scopeConfigRevision (grantScope g) ≠ targetConfigRevision (inputTarget input) →
      refused input g scope_revision_stale
  | refused_scope :
      revokedAt g = None → js_leb (notBefore g) (inputNow input) = true →
      js_ltb (inputNow input) (expiresAt g) = true →
      scopeKind (grantScope g) = project →
      scopeProjectId (grantScope g) ≠ targetProjectId (inputTarget input) →
      refused input g scope_mismatch.

(** The decision, its reason, the policy reported and the grant named. *)
Inductive decides (input : AuthorizationEvaluationInput) : AuthorizationEvaluation → Prop :=
  | decides_allowed g :
      firstAuthorising input g → inputPolicy input ≠ deny →
      (inputAction input ∈ HIGH_RISK_ACTIONS → inputConfirmed input = true) →
      decides input
        {| allowed := true; evaluationReason := allowed_; evaluationPolicy := inputPolicy input;
           evaluationGrantId := Some (grantId g); evaluationGrantRevision := Some (grantRevision g) |}
  | decides_denied g :
      firstAuthorising input g → inputPolicy input = deny →
      decides input
        {| allowed := false; evaluationReason := policy_denied; evaluationPolicy := deny;
           evaluationGrantId := Some (grantId g); evaluationGrantRevision := Some (grantRevision g) |}
  | decides_unconfirmed g :
      firstAuthorising input g → inputPolicy input ≠ deny →
      inputAction input ∈ HIGH_RISK_ACTIONS → inputConfirmed input = false →
      decides input
        {| allowed := false; evaluationReason := confirmation_required; evaluationPolicy := inputPolicy input;
           evaluationGrantId := Some (grantId g); evaluationGrantRevision := Some (grantRevision g) |}
  | decides_actor :
      (∀ g, g ∈ inputGrants input → grantActorId g ≠ inputActorId input) →
      decides input
        {| allowed := false; evaluationReason := actor_mismatch; evaluationPolicy := inputPolicy input;
           evaluationGrantId := None; evaluationGrantRevision := None |}
  | decides_action :
      (∃ g, g ∈ inputGrants input ∧ grantActorId g = inputActorId input) →
      (∀ g, g ∈ inputGrants input → grantActorId g = inputActorId input →
         grantAction g ≠ inputAction input) →
      decides input
        {| allowed := false; evaluationReason := action_mismatch; evaluationPolicy := inputPolicy input;
           evaluationGrantId := None; evaluationGrantRevision := None |}
  | decides_refused g r :
      Forall (λ h, ¬ authorises input h) (candidates input) →
      last (candidates input) = Some g → refused input g r →
      decides input
        {| allowed := false; evaluationReason := r; evaluationPolicy := inputPolicy input;
           evaluationGrantId := None; evaluationGrantRevision := None |}.

Lemma requested_candidates input : requested input = candidates input.
Proof.
  unfold requested, actionGrants, actorGrants, candidates.
  induction (inputGrants input) as [|g l IH]; [done|]. cbn [List.filter].
  rewrite filter_cons. case_bool_decide as Ha; cbn [List.filter].
  - case_bool_decide as Hc; [rewrite decide_True by done; by rewrite IH|].
    rewrite decide_False by naive_solver. exact IH.
  - rewrite decide_False by naive_solver. exact IH.
Qed.

Lemma authorises_usableb input g :
  g ∈ candidates input → usableb input g = true ↔ authorises input g.
Proof. rewrite <-requested_candidates. apply usableb_usable. Qed.

(** The reason the code gives is the one that holds. *)
Lemma refusal_refused input g : usableb input g = false → refused input g (refusal input g).
Proof.
  unfold usableb, refusal, scopeMatches. rewrite !js_leb_ltb.
  destruct (revokedAt g) eqn:Hr; simpl; intros Hu; [constructor; congruence|].
  destruct (js_ltb (inputNow input) (notBefore g)) eqn:Hn; [by constructor|].
  destruct (js_ltb (inputNow input) (expiresAt g)) eqn:He; simpl.
  2: { constructor; [done|..]; rewrite js_leb_ltb; by rewrite ?Hn, ?He. }
  simpl in Hu. destruct (scopeKind (grantScope g)) eqn:Hk; [done|].
  assert (js_leb (notBefore g) (inputNow input) = true) as Hle by (rewrite js_leb_ltb; by rewrite Hn).
  destruct (decide (scopeProjectId (grantScope g) = targetProjectId (inputTarget input))) as [Hp|Hp].
  - rewrite (bool_decide_true (scopeProjectId _ = _)) by done. apply refused_stale; try done.
    rewrite !andb_false_iff, !bool_decide_eq_false in Hu. destruct Hu as [[?|?]|?]; [congruence|..]; auto.
  - rewrite (bool_decide_false (scopeProjectId _ = _)), andb_false_r by done. by constructor.
Qed.

Lemma usableGrant_first input g : usableGrant input = Some g → firstAuthorising input g.
Proof.
  unfold usableGrant, firstAuthorising. rewrite requested_candidates. intros Hf.
  destruct (find_split _ _ _ Hf) as (before & after & Heq & Hu & Hno). exists before, after.
  assert (∀ h, h ∈ candidates input → usableb input h = true ↔ authorises input h) as Hiff
    by apply authorises_usableb.
  rewrite Heq in *. split_and!; [done|apply Hiff; [set_solver|done]|].
  rewrite Forall_forall in *. intros h Hh Hyes. apply (Hiff h) in Hyes; [|set_solver].
  specialize (Hno h Hh). simpl in Hno. congruence.
Qed.

Lemma decides_verdict input g :
  firstAuthorising input g → decides input (verdict input g).
Proof.
  intros Hg. unfold verdict, isHighRiskAction. case_bool_decide as Hp; [by constructor|].
  case_bool_decide as Hr; simpl; [destruct (inputConfirmed input) eqn:Hc; simpl|];
    by constructor.
Qed.

Lemma decide_decides input : decides input (decideAuthorization input).
Proof.
  rewrite decideAuthorization_spec. destruct (usableGrant input) as [g|] eqn:Hg.
  { by apply decides_verdict, usableGrant_first. }
  destruct (actorGrants _ _) as [|a l] eqn:Ha.
  { by apply decides_actor, actorGrants_nil. }
  pose proof (proj1 (usableGrant_None input) Hg) as Hnone.
  destruct (requested input) as [|h r] eqn:Hr.
  - apply decides_action.
    + exists a. assert (a ∈ actorGrants (inputActorId input) (inputGrants input)) as Hin
        by (rewrite Ha; set_solver).
      unfold actorGrants in Hin. apply list_elem_of_In, filter_In in Hin as [Hin ?%bool_decide_eq_true].
      by rewrite <-list_elem_of_In in Hin.
    + intros g Hin Hga Hgc. assert (g ∈ requested input) as Hx by by apply requested_elem.
      rewrite Hr in Hx. by apply elem_of_nil in Hx.
  - destruct (last (h :: r)) as [k|] eqn:Hl; [|by apply last_None in Hl].
    cbn [fmap option_fmap option_map default from_option].
    assert (∀ g, g ∈ candidates input → ¬ authorises input g) as Hno.
    { intros g Hin. rewrite <-requested_candidates in Hin. apply requested_elem in Hin as (? & _). by apply Hnone. }
    rewrite <-Hr, requested_candidates in Hl. eapply decides_refused; [|exact Hl|].
    + by apply Forall_forall.
    + apply refusal_refused, not_true_iff_false. intros Hu.
      assert (k ∈ candidates input) as Hk by by apply last_Some_elem_of.
      apply (Hno k Hk). by apply authorises_usableb.
Qed.

(** C33 The decision of [evaluateAuthorization] on readable input, with its
    reason, in full.  The first grant of the actor for the action that
    authorises the request is named, and the answer is allowed, the policy's
    denial, or a missing confirmation of a high-risk action.  Without one the
    reason says what is missing: a grant of the actor, one for the action, or,
    on the last grant for the action, that it is revoked, not yet valid,
    expired, for other revisions of the project or for another project.  Every
    other input is refused as [grant_missing] under policy [deny]. *)
Theorem authorization_reasons v :
  match parseEvaluationInput v with
  | Some input => decides input (evaluateAuthorization v)
  | None => evaluateAuthorization v =
      {| allowed := false; evaluationReason := grant_missing; evaluationPolicy := deny;
         evaluationGrantId := None; evaluationGrantRevision := None |}
  end.
Proof.
  unfold evaluateAuthorization. destruct (parseEvaluationInput v) as [input|]; [|done].
  apply decide_decides.
Qed.

(** ** Reading grants *)

Lemma shortIdentifier_ok value s :
  shortIdentifier value = Some s ↔ value = JString s ∧ 0 < Z.of_nat (length s) <= 128.
Proof.
  split.
  - intros H. destruct value; try done. simpl in H.
    destruct (_ && _) eqn:Hl in H; [|done]. injection H as <-.
    apply andb_true_iff in Hl as [H1%Nat.ltb_lt H2%Nat.leb_le]. split; [done|lia].
  - intros [-> Hl]. simpl. rewrite (proj2 (Nat.ltb_lt _ _)), (proj2 (Nat.leb_le _ _)) by lia. done.
Qed.

Lemma timestampText_ok value s :
  timestamp value = Some s ↔ value = JString s ∧ isCanonicalUtcTimestampText s = true.
Proof. by rewrite timestamp_ok, isCanonicalUtcTimestampText_ok. Qed.

Lemma isAuthorizationAction_ok value a :
  isAuthorizationAction value = Some a ↔ value = jsName a ∧ a ∈ AUTHORIZATION_ACTIONS.
Proof.
  unfold isAuthorizationAction, lookupName. split.
  - intros [Hin Hl]%find_Some_iff. apply isLiteral_ok in Hl. done.
  - intros [-> Hin]. destruct (List.find _ _) as [b|] eqn:Hf.
    + apply find_Some_iff in Hf as [_ Hb]. apply isLiteral_ok in Hb.
      injection Hb as Hb%js_inj. by rewrite Hb.
    + apply (proj1 (find_None_iff _ _)) with (x := a) in Hf; [|done].
      by rewrite (proj2 (isLiteral_ok (jsName a) (js a)) eq_refl) in Hf.
Qed.


Lemma nullable_sound {A} (guard : JsValue → option A) (P : A → Prop) value o :
  (∀ v a, guard v = Some a → P a) → nullable guard value = Some o → ∀ a, o = Some a → P a.
Proof. intros Hg [[_ ->]|(b & Hb & ->)]%nullable_ok a; [done|intros [= <-]; eauto]. Qed.

Lemma nullable_string {P : JsString → Prop} (guard : JsValue → option JsString) o :
  (∀ s, P s → guard (JString s) = Some s) → (∀ s, o = Some s → P s) →
  nullable guard (jsNullable JString o) = Some o.
Proof. intros Hg Ho. destruct o as [s|]; [|done]. apply nullable_some; [done|]. apply Hg. auto. Qed.

Lemma parseScope_sound value scope : parseScope value = Some scope →
  match scopeKind scope with
  | runtime => scopeProjectId scope = None ∧ scopeResourceRevision scope = None ∧
      scopeConfigRevision scope = None
  | project => ∃ p r c, scopeProjectId scope = Some p ∧ identifier p ∧
      scopeResourceRevision scope = Some r ∧ positiveInteger r ∧
      scopeConfigRevision scope = Some c ∧ positiveInteger c
  end.
Proof.
  unfold parseScope, domainIdentifier, revisionNumber. intros H. inv_reads.
  repeat case_match; simplify_eq; inv_reads; simplify_eq; simpl; [done|].
  do 3 eexists. split_and!; eauto.
Qed.

Lemma parseGrant_sound value g : parseAuthorizationGrant value = Some g → grant_wf g.
Proof.
  unfold parseAuthorizationGrant, revisionNumber. intros H. inv_reads.
  case_match eqn:Hwin; [done|]. injection H as <-.
  repeat match goal with
  | H : shortIdentifier _ = Some _ |- _ => apply shortIdentifier_ok in H as [_ ?]
  | H : timestamp _ = Some _ |- _ => apply timestampText_ok in H as [_ ?]
  | H : isAuthorizationAction _ = Some _ |- _ => apply isAuthorizationAction_ok in H as [_ ?]
  | H : parseScope _ = Some _ |- _ => apply parseScope_sound in H
  end.
  constructor; simpl; try done.
  - eapply nullable_sound; [|eassumption]. intros v a [_ ?]%timestampText_ok. done.
  - eapply nullable_sound; [|eassumption]. intros v a [_ ?]%shortIdentifier_ok. done.
  - eapply nullable_sound; [|eassumption]. intros v a [_ ?]%shortIdentifier_ok. done.
  - rewrite js_leb_ltb in Hwin. by apply negb_false_iff in Hwin.
Qed.

#[local] Arguments isIdentifier : simpl never.
#[local] Arguments domainIdentifier : simpl never.
#[local] Arguments revisionNumber : simpl never.
#[local] Arguments isPositiveInteger : simpl never.
#[local] Arguments shortIdentifier : simpl never.
#[local] Arguments timestamp : simpl never.
#[local] Arguments isAuthorizationAction : simpl never.
#[local] Arguments nullable : simpl never.

Lemma parseScope_value g : grant_wf g → parseScope (scopeValue (grantScope g)) = Some (grantScope g).
Proof.
  intros Hwf. pose proof (gwf_scope g Hwf) as Hs. unfold parseScope, exactRecord, scopeValue.
  rewrite readExactRecord_object by done. cbn [mbind option_bind]. rewrite !field_record. simpl.
  destruct (grantScope g) as [[] p r c]; simpl in *.
  - destruct Hs as (-> & -> & ->). done.
  - destruct Hs as (p' & r' & c' & -> & Hp & -> & Hr & -> & Hc). simpl.
    unfold domainIdentifier, revisionNumber. run_reads.
Qed.

Lemma parseGrant_value g : grant_wf g → parseAuthorizationGrant (grantValue g) = Some g.
Proof.
  intros Hwf. pose proof (parseScope_value g Hwf) as Hscope.
  destruct Hwf as [? ? ? ? ? ? ? Hrevoked ? ? Hwin].
  unfold parseAuthorizationGrant, exactRecord, grantValue.
  rewrite readExactRecord_object by done. cbn [mbind option_bind]. rewrite !field_record. simpl.
  assert (∀ s, 0 < Z.of_nat (length s) <= 128 → shortIdentifier (JString s) = Some s) as Hid
    by (intros s ?; by apply shortIdentifier_ok).
  assert (∀ s, isCanonicalUtcTimestampText s = true → timestamp (JString s) = Some s) as Htime
    by (intros s ?; by apply timestampText_ok).
  rewrite Hscope, !Hid, !Htime by done. simpl.
  rewrite (nullable_string timestamp (revokedAt g) Htime), (nullable_string shortIdentifier
    (issuerGrantId g) Hid), (nullable_string shortIdentifier (sourceGrantId g) Hid) by done.
  unfold revisionNumber. rewrite (proj2 (isPositiveInteger_ok _ (grantRevision g))) by done. simpl.
  rewrite (proj2 (isAuthorizationAction_ok _ (grantAction g))) by done. simpl.
  rewrite js_leb_ltb, Hwin. by destruct g.
Qed.

(** C35 Reading grants: a grant is accepted exactly when it is well formed (bounded
    identifiers, a known action, a scope whose fields fit its kind, canonical
    timestamps and a validity window that is not empty as strings), and the
    object of a well-formed grant is read back unchanged. *)
Theorem grants_round_trip g :
  ((∃ v, parseAuthorizationGrant v = Some g) ↔ grant_wf g) ∧
  (grant_wf g ↔ parseAuthorizationGrant (grantValue g) = Some g).
Proof.
  split; split.
  - intros [v Hv]. by eapply parseGrant_sound.
  - intros Hwf. exists (grantValue g). by apply parseGrant_value.
  - apply parseGrant_value.
  - apply parseGrant_sound.
Qed.

(** ** Issuing grants *)

Definition issuesFor (candidate : GrantIssueCandidate) (now : JsString) (issuer : JsString)
    (action : string) (g : AuthorizationGrant) : Prop :=
  grantActorId g = issuer ∧ grantAction g = action ∧ revokedAt g = None ∧
  js_leb (notBefore g) now = true ∧ js_leb (candidateExpiresAt candidate) (expiresAt g) = true ∧
  scopeMatches (grantScope g) (scopeTarget (candidateScope candidate)) = true.

Definition issueWindow (candidate : GrantIssueCandidate) (now : JsString) : Prop :=
  js_leb now (candidateNotBefore candidate) = true ∧
  js_ltb (candidateNotBefore candidate) (candidateExpiresAt candidate) = true ∧
  js_ltb now (candidateExpiresAt candidate) = true.

Lemma held_elem issuer action grants g :
  g ∈ actionGrants action (actorGrants issuer grants) ↔
  g ∈ grants ∧ grantActorId g = issuer ∧ grantAction g = action.
Proof.
  unfold actionGrants, actorGrants.
  rewrite !list_elem_of_In, !filter_In, !bool_decide_eq_true, <-list_elem_of_In. tauto.
Qed.

Lemma covers_ok candidate now issuer admin authority :
  grantActorId admin = issuer → grantAction admin = "authorization.grant.issue" →
  grantActorId authority = issuer → grantAction authority = candidateAction candidate →
  covers candidate now admin authority = true ↔
  issuesFor candidate now issuer "authorization.grant.issue" admin ∧
  issuesFor candidate now issuer (candidateAction candidate) authority.
Proof.
  intros ? ? ? ?. unfold covers, issuesFor.
  rewrite !andb_true_iff, !bool_decide_eq_true. tauto.
Qed.

Lemma canIssueGrant_ok issuer grants candidate now proof :
  canIssueGrant issuer grants candidate now = Some proof →
  issueWindow candidate now ∧
  ∃ admin authority, admin ∈ grants ∧ authority ∈ grants ∧
    issuesFor candidate now issuer "authorization.grant.issue" admin ∧
    issuesFor candidate now issuer (candidateAction candidate) authority ∧
    administrativeGrantId proof = grantId admin ∧ proofSourceGrantId proof = grantId authority.
Proof.
  unfold canIssueGrant. intros H. case_match; [done|]. case_match eqn:Hwin; [done|].
  rewrite !orb_false_iff, !js_leb_ltb, !negb_false_iff in Hwin. destruct Hwin as [[Hn Hw] He].
  split.
  { unfold issueWindow. rewrite js_leb_ltb, Hn. done. }
  apply bind_some in H as ([admin authority] & [Hin Hc]%find_Some_iff & [= <-]).
  apply list_elem_of_In, in_prod_iff in Hin as [Ha Hb].
  rewrite <-!list_elem_of_In, !held_elem in Ha, Hb. destruct Ha as (? & ? & ?), Hb as (? & ? & ?).
  apply (covers_ok candidate now issuer) in Hc as [? ?]; [|done..].
  by exists admin, authority.
Qed.

(** C34 Issuing: a proof is returned exactly when the identifiers and timestamps
    are canonical, the candidate's window is not empty and does not start in
    the past, and the issuer holds two live grants that are already valid,
    outlive the candidate and cover its scope: one for issuing, one for the
    very action given away. *)
Theorem canIssueGrant_iff issuer grants candidate now :
  is_Some (canIssueGrant issuer grants candidate now) ↔
  issuable issuer = true ∧ issuable (candidateActorId candidate) = true ∧
  canonicalTime now = true ∧ canonicalTime (candidateNotBefore candidate) = true ∧
  canonicalTime (candidateExpiresAt candidate) = true ∧ issueWindow candidate now ∧
  ∃ admin authority, admin ∈ grants ∧ authority ∈ grants ∧
    issuesFor candidate now issuer "authorization.grant.issue" admin ∧
    issuesFor candidate now issuer (candidateAction candidate) authority.
Proof.
  split.
  - intros [proof Hp]. destruct (canIssueGrant_ok _ _ _ _ _ Hp) as (Hw & a & b & Ha & Hb & ? & ? & _).
    unfold canIssueGrant in Hp. case_match eqn:Hids; [done|].
    rewrite !orb_false_iff, !negb_false_iff in Hids. destruct_and!. split_and!; eauto 10.
  - intros (H1 & H2 & H3 & H4 & H5 & (Hn & Hw & He) & a & b & Ha & Hb & Hia & Hib).
    unfold canIssueGrant. rewrite H1, H2, H3, H4, H5. cbn [negb orb].
    rewrite js_leb_ltb in Hn. apply negb_true_iff in Hn. rewrite !js_leb_ltb, Hn, Hw, He. cbn [negb orb].
    destruct (List.find _ _) as [[x y]|] eqn:Hf; [by simpl; eauto|]. exfalso.
    apply (proj1 (find_None_iff _ _)) with (x := (a, b)) in Hf.
    + simpl in Hf. pose proof (proj1 Hia) as Hia1. pose proof (proj1 Hib) as Hib1.
      pose proof (proj1 (proj2 Hia)) as Hia2. pose proof (proj1 (proj2 Hib)) as Hib2.
      by rewrite (proj2 (covers_ok candidate now issuer a b Hia1 Hia2 Hib1 Hib2)) in Hf.
    + apply list_elem_of_In, in_prod_iff. rewrite <-!list_elem_of_In, !held_elem.
      by destruct Hia as (? & ? & _), Hib as (? & ? & _).
Qed.

(** A scope that matches what a covered scope matches. *)
Lemma scopeMatches_trans scope candidate target :
  scopeMatches scope (scopeTarget candidate) = true → scopeMatches candidate target = true →
  (scopeKind candidate = runtime → scopeProjectId candidate = None) →
  (scopeKind scope = project → scopeProjectId scope ≠ None) →
  scopeMatches scope target = true.
Proof.
  unfold scopeMatches. destruct (scopeKind scope), (scopeKind candidate); try done.
  - intros H _ Hc Hs. inv_bool. simpl in *. rewrite (Hc eq_refl) in *. by destruct (Hs eq_refl).
  - intros H1 H2 _ _. inv_bool. simpl in *. rewrite !andb_true_iff, !bool_decide_eq_true. split_and!; congruence.
Qed.

(** C11 No escalation: whatever a grant issued under a proof authorises, at any
    time and for any target, the issuer's own source grant authorises too, and
    it is one of the grants the issuer held. *)
Theorem issued_grants_attenuate issuer grants candidate now proof issued target time :
  canIssueGrant issuer grants candidate now = Some proof →
  (∀ g, g ∈ grants → grant_wf g) → grant_wf issued →
  grantScope issued = candidateScope candidate → notBefore issued = candidateNotBefore candidate →
  expiresAt issued = candidateExpiresAt candidate →
  usable issued (candidateActorId candidate) (candidateAction candidate) target time →
  ∃ source, source ∈ grants ∧ grantId source = proofSourceGrantId proof ∧
    usable source issuer (candidateAction candidate) target time.
Proof.
  intros Hp Hwfs Hwf Hscope Hnb Hexp [_ _ _ Hstart Hend Hmatch].
  destruct (canIssueGrant_ok _ _ _ _ _ Hp) as ((Hn & _) & _ & b & _ & Hb & _ & Hib & _ & Hid).
  destruct Hib as (Hactor & Haction & Hlive & Hbn & Hbe & Hbs). exists b.
  split_and!; [done|done|]. rewrite Hscope in Hmatch. constructor; try done.
  - eapply js_leb_trans; [exact Hbn|]. eapply js_leb_trans; [exact Hn|]. by rewrite <-Hnb.
  - rewrite Hexp in Hend. by eapply js_lt_le_trans.
  - eapply scopeMatches_trans; [exact Hbs|exact Hmatch| |].
    + intros Hk. pose proof (gwf_scope _ Hwf) as Hs. rewrite Hscope, Hk in Hs. by destruct Hs.
    + intros Hk. pose proof (gwf_scope _ (Hwfs _ Hb)) as Hs. rewrite Hk in Hs.
      destruct Hs as (p & ? & ? & -> & _). done.
Qed.

(** ** Vocabularies *)

(** C38 Vocabularies only grow: the action list of an earlier vocabulary version is
    a prefix of that of a later one, so an action keeps its meaning across
    versions; no action is listed twice and every high-risk action is a known
    action. *)
Theorem vocabularies_nested v w :
  1 <= v <= w → w <= 8 →
  actionsForVocabulary v `prefix_of` actionsForVocabulary w ∧
  NoDup (actionsForVocabulary w) ∧
  isAuthorizationVocabularyVersion (jsInteger w) = true ∧
  ∀ action, isHighRiskAction action = true → action ∈ actionsForVocabulary 8.
Proof.
  intros Hv Hw. assert (v ∈ [1; 2; 3; 4; 5; 6; 7; 8] ∧ w ∈ [1; 2; 3; 4; 5; 6; 7; 8]) as [Ev Ew]
    by (rewrite !elem_of_cons; lia).
  split; [|split; [|split]].
  - assert (Forall (λ a, Forall (λ b, b < a ∨ actionsForVocabulary a `prefix_of` actionsForVocabulary b)
      [1; 2; 3; 4; 5; 6; 7; 8]) [1; 2; 3; 4; 5; 6; 7; 8]) as Hall
      by (apply (bool_decide_unpack _); vm_compute; exact I).
    rewrite Forall_forall in Hall. specialize (Hall v Ev). rewrite Forall_forall in Hall.
    destruct (Hall w Ew); [lia|done].
  - assert (Forall (λ b, NoDup (actionsForVocabulary b)) [1; 2; 3; 4; 5; 6; 7; 8]) as Hall
      by (apply (bool_decide_unpack _); vm_compute; exact I).
    rewrite Forall_forall in Hall. by apply Hall.
  - unfold isAuthorizationVocabularyVersion. apply existsb_true. exists w. split; [done|].
    by apply isNumber_ok.
  - intros action Ha. unfold isHighRiskAction in Ha. apply bool_decide_eq_true in Ha.
    revert action Ha. apply Forall_forall. apply (bool_decide_unpack _). vm_compute. exact I.
Qed.

(** ** Time *)

(** C37 Canonical timestamps: the two guards of the repository agree, and they
    accept exactly the strings [Date.prototype.toISOString] prints for a time
    within the range of [Date]. *)
Theorem timestamps_canonical v s :
  (timestamp v = Some s ↔ v = JString s ∧ ∃ t, Z.abs t <= maxTime ∧ toISOString t = s) ∧
  timestamp v = isCanonicalUtcTimestamp v.
Proof.
  split; [apply timestamp_ok|].
  destruct (timestamp v) as [x|] eqn:H1, (isCanonicalUtcTimestamp v) as [y|] eqn:H2; [| | |done].
  - apply timestamp_ok in H1 as [-> _]. apply isCanonicalUtcTimestamp_ok in H2 as [[= ->] _]. done.
  - apply timestamp_ok, isCanonicalUtcTimestamp_ok in H1. congruence.
  - apply isCanonicalUtcTimestamp_ok, timestamp_ok in H2. congruence.
Qed.

(** The grant is valid from [start] to [stop], both in years of four digits. *)
Definition window (g : AuthorizationGrant) (start stop : Z) : Prop :=
  plainYear start ∧ plainYear stop ∧
  notBefore g = toISOString start ∧ expiresAt g = toISOString stop.

(** The grant is for the request, apart from its window. *)
Definition applies (input : AuthorizationEvaluationInput) (g : AuthorizationGrant) : Prop :=
  g ∈ inputGrants input ∧ grantActorId g = inputActorId input ∧
  grantAction g = inputAction input ∧ revokedAt g = None ∧
  scopeMatches (grantScope g) (inputTarget input) = true.

Lemma usable_in_time input g start stop now :
  plainYear now → inputNow input = toISOString now → window g start stop →
  (g ∈ inputGrants input ∧
     usable g (inputActorId input) (inputAction input) (inputTarget input) (inputNow input)) ↔
  applies input g ∧ start <= now < stop.
Proof.
  intros Hn Hnow (Hs & He & Hb & Hx). rewrite Hnow.
  assert (js_leb (notBefore g) (toISOString now) = true ↔ start <= now) as Hleft.
  { rewrite Hb. unfold js_leb. rewrite iso_ltb by done. rewrite negb_true_iff, Z.ltb_ge. done. }
  assert (js_ltb (toISOString now) (expiresAt g) = true ↔ now < stop) as Hright.
  { by rewrite Hx, iso_ltb, Z.ltb_lt by done. }
  unfold applies. split.
  - intros (Hin & [Ha Hc Hlive Hfrom Hto Hm]). tauto.
  - intros ((Hin & Ha & Hc & Hlive & Hm) & Hfrom & Hto). split; [done|].
    constructor; tauto.
Qed.

(** C36 Validity windows in time: when the times of a request and of its grants
    are in years of four digits, the string comparisons of the evaluation are
    comparisons of times: a request is allowed exactly when the policy and the
    confirmation permit it and some grant that applies to it is valid at that
    moment, from its [notBefore] (included) to its [expiresAt] (excluded). *)
Theorem grant_window_in_time v input now :
  parseEvaluationInput v = Some input → plainYear now → inputNow input = toISOString now →
  (∀ g, g ∈ inputGrants input → ∃ start stop, window g start stop) →
  allowed (evaluateAuthorization v) = true ↔
  inputPolicy input ≠ deny ∧
  (inputAction input ∈ HIGH_RISK_ACTIONS → inputConfirmed input = true) ∧
  ∃ g start stop, applies input g ∧ window g start stop ∧ start <= now < stop.
Proof.
  intros Hp Hn Hnow Hw. unfold evaluateAuthorization. rewrite Hp, decide_allowed.
  apply and_iff_compat_l, and_iff_compat_l. split.
  - intros (g & Hg). destruct (Hw g (proj1 Hg)) as (start & stop & Hwin).
    destruct (proj1 (usable_in_time input g start stop now Hn Hnow Hwin) Hg). by exists g, start, stop.
  - intros (g & start & stop & Happ & Hwin & Htime). exists g.
    by apply (usable_in_time input g start stop now Hn Hnow Hwin).
Qed.

(** C39 Years of more than four digits: the comparison of strings is not the order
    of time there.  A grant that starts in such a year and expires in a year of
    four digits never bars a request made before it expires: the request is
    allowed although the grant only starts later. *)
Theorem expanded_year_grant_usable v input g start stop now :
  parseEvaluationInput v = Some input → inputPolicy input ≠ deny →
  (inputAction input ∈ HIGH_RISK_ACTIONS → inputConfirmed input = true) →
  applies input g → inputNow input = toISOString now → plainYear now →
  notBefore g = toISOString start → lateYear start →
  expiresAt g = toISOString stop → plainYear stop → now < stop →
  allowed (evaluateAuthorization v) = true ∧ now < start.
Proof.
  intros Hp Hpolicy Hconf (Hin & Ha & Hc & Hlive & Hm) Hnow Hn Hb Hlate Hx He Hlt.
  split; [|by apply late_after]. unfold evaluateAuthorization. rewrite Hp, decide_allowed.
  split_and!; [done..|]. exists g. split; [done|]. constructor; [done..| | |done].
  - rewrite Hb, Hnow, js_leb_ltb. apply negb_true_iff, js_ltb_asym. by apply late_sorts_first.
  - by rewrite Hx, Hnow, iso_ltb, Z.ltb_lt.
Qed.

Module Demo.

Definition runtimeScope : AuthorizationScope :=
  {| scopeKind := runtime; scopeProjectId := None; scopeResourceRevision := None;
     scopeConfigRevision := None |}.

Definition projectScope : AuthorizationScope :=
  {| scopeKind := project; scopeProjectId := Some (js "p1"); scopeResourceRevision := Some 1;
     scopeConfigRevision := Some 2 |}.

Definition target : AuthorizationTarget := scopeTarget projectScope.

Definition grant (identifier actor : string) (action : string) (scope : AuthorizationScope)
    (from to : Z) : AuthorizationGrant :=
  {| grantId := js identifier; grantRevision := 1; grantActorId := js actor; grantAction := action;
     grantScope := scope; notBefore := toISOString from; expiresAt := toISOString to;
     revokedAt := None; issuerGrantId := None; sourceGrantId := None |}.

(** 2026-01-01, 2027-01-01 and 10000-01-01. *)
Definition y2026 : Z := 1767225600000.
Definition y2027 : Z := 1798761600000.
Definition y10000 : Z := 253402300800000.

Definition admin : AuthorizationGrant :=
  grant "g1" "owner" "authorization.grant.issue" runtimeScope y2026 y2027.
Definition authority : AuthorizationGrant :=
  grant "g2" "owner" "execution.claim" runtimeScope y2026 y2027.

Definition candidate : GrantIssueCandidate :=
  {| candidateActorId := js "worker"; candidateAction := "execution.claim";
     candidateScope := projectScope; candidateNotBefore := toISOString (y2026 + 1000);
     candidateExpiresAt := toISOString (y2026 + 2000) |}.

Definition issued : AuthorizationGrant :=
  grant "g3" "worker" "execution.claim" projectScope (y2026 + 1000) (y2026 + 2000).

(** A grant that starts in the year 10000 and expires in 2027. *)
Definition farFuture : AuthorizationGrant :=
  grant "g4" "worker" "task.create" runtimeScope y10000 y2027.

Lemma grant_ok identifier actor action scope from to :
  (0 <? length (js identifier))%nat && (length (js identifier) <=? 128)%nat &&
  (0 <? length (js actor))%nat && (length (js actor) <=? 128)%nat &&
  bool_decide (action ∈ AUTHORIZATION_ACTIONS) && (Z.abs from <=? maxTime) &&
  (Z.abs to <=? maxTime) && js_ltb (toISOString from) (toISOString to) = true →
  scope = runtimeScope ∨ scope = projectScope →
  grant_wf (grant identifier actor action scope from to).
Proof.
  intros H Hscope. inv_bool.
  repeat match goal with H : (_ <? _)%nat = true |- _ => apply Nat.ltb_lt in H
    | H : (_ <=? _)%nat = true |- _ => apply Nat.leb_le in H end.
  constructor; cbn [grant grantId grantRevision grantActorId grantAction grantScope notBefore
    expiresAt revokedAt issuerGrantId sourceGrantId]; [lia|done|lia|done| | | |done..|done].
  - destruct Hscope as [-> | ->]; cbn [scopeKind runtimeScope projectScope]; [done|].
    by exists (js "p1"), 1, 2.
  - apply isCanonicalUtcTimestampText_ok. eauto.
  - apply isCanonicalUtcTimestampText_ok. eauto.
Qed.

End Demo.

Module Witnesses.

Lemma vocabularies_nested_witness :
  actionsForVocabulary 2 `prefix_of` actionsForVocabulary 5.
Proof. apply (vocabularies_nested 2 5); lia. Defined.

(** A request of the worker to create a task, made in [now]. *)
Definition request (now : Z) (grants : list AuthorizationGrant) : JsValue :=
  jsObject
    [("actorId", JString (js "worker")); ("action", jsName "task.create");
     ("target", jsObject [("projectId", JNull); ("resourceRevision", JNull); ("configRevision", JNull)]);
     ("now", JString (toISOString now)); ("policy", jsName "allow"); ("confirmed", JBoolean false);
     ("grants", jsArray (map grantValue grants))].

Definition requestInput (now : Z) (grants : list AuthorizationGrant)
    : AuthorizationEvaluationInput :=
  {| inputActorId := js "worker"; inputAction := "task.create";
     inputTarget := {| targetProjectId := None; targetResourceRevision := None;
                       targetConfigRevision := None |};
     inputNow := toISOString now; inputPolicy := allow; inputConfirmed := false;
     inputGrants := grants |}.

Definition thisYear : AuthorizationGrant :=
  Demo.grant "g5" "worker" "task.create" Demo.runtimeScope Demo.y2026 Demo.y2027.

Lemma creation_not_high_risk : "task.create" ∉ HIGH_RISK_ACTIONS.
Proof. eapply bool_decide_unpack. by vm_compute. Qed.

Lemma grant_window_in_time_witness :
  allowed (evaluateAuthorization (request Demo.y2026 [thisYear])) = true ∧
  ¬ allowed (evaluateAuthorization (request Demo.y2027 [thisYear])) = true.
Proof.
  assert (∀ g, g ∈ [thisYear] → window g Demo.y2026 Demo.y2027) as Hw.
  { intros g ->%list_elem_of_singleton. split; [split; vm_compute; discriminate|].
    split; [split; vm_compute; discriminate|]. done. }
  split.
  - apply (grant_window_in_time _ (requestInput Demo.y2026 [thisYear]) Demo.y2026).
    + by vm_compute.
    + split; vm_compute; discriminate.
    + done.
    + intros g Hg. exists Demo.y2026, Demo.y2027. by apply Hw.
    + split; [done|]. split; [intros Hr; by destruct (creation_not_high_risk Hr)|].
      exists thisYear, Demo.y2026, Demo.y2027.
      split; [split; [apply list_elem_of_here|by split_and!]|].
      split; [by apply Hw, list_elem_of_here|]. split; [discriminate|reflexivity].
  - intros Hyes. apply (grant_window_in_time _ (requestInput Demo.y2027 [thisYear]) Demo.y2027) in Hyes
      as (_ & _ & g & start & stop & (Hg & _) & (_ & Hp & _ & Hx) & _ & Hlt).
    + destruct (Hw g Hg) as (_ & Hp' & _ & Hx'). rewrite Hx' in Hx.
      assert (js_ltb (toISOString Demo.y2027) (toISOString stop) = true) as Hlt'
        by (rewrite iso_ltb by done; by apply Z.ltb_lt).
      rewrite <-Hx, js_ltb_irrefl in Hlt'. done.
    + by vm_compute.
    + split; vm_compute; discriminate.
    + done.
    + intros g Hg. exists Demo.y2026, Demo.y2027. by apply Hw.
Defined.

Lemma expanded_year_grant_usable_witness :
  allowed (evaluateAuthorization (request Demo.y2026 [Demo.farFuture])) = true ∧
  Demo.y2026 < Demo.y10000.
Proof.
  apply (expanded_year_grant_usable _ (requestInput Demo.y2026 [Demo.farFuture]) Demo.farFuture
    Demo.y10000 Demo.y2027 Demo.y2026).
  - by vm_compute.
  - done.
  - intros Hr. by destruct (creation_not_high_risk Hr).
  - split; [apply list_elem_of_here|]. by split_and!.
  - done.
  - split; vm_compute; discriminate.
  - done.
  - by vm_compute.
  - done.
  - split; vm_compute; discriminate.
  - by vm_compute.
Defined.

Lemma issued_grants_attenuate_witness :
  ∃ source, source ∈ [Demo.admin; Demo.authority] ∧
    usable source (js "owner") "execution.claim" Demo.target (toISOString (Demo.y2026 + 1500)).
Proof.
  destruct (issued_grants_attenuate (js "owner") [Demo.admin; Demo.authority] Demo.candidate
    (toISOString Demo.y2026)
    {| administrativeGrantId := js "g1"; proofSourceGrantId := js "g2" |}
    Demo.issued Demo.target (toISOString (Demo.y2026 + 1500))) as (source & Hin & _ & Hu).
  - vm_compute. reflexivity.
  - intros g Hg. apply elem_of_cons in Hg as [->|Hg]; [|apply list_elem_of_singleton in Hg as ->];
      apply Demo.grant_ok; [vm_compute; reflexivity|by left|vm_compute; reflexivity|by left].
  - apply Demo.grant_ok; [vm_compute; reflexivity|by right].
  - reflexivity.
  - reflexivity.
  - reflexivity.
  - constructor; try reflexivity; vm_compute; reflexivity.
  - exists source. exact (conj Hin Hu).
Defined.

End Witnesses.
