(* ===== verification/PersistenceModel.v ===== *)
(** * Persisted rows and transactions
    (src/src/persistence/application-repository-model.ts, errors.ts, database.ts)

    The rows of the tables the execution application reads and writes, the
    faults of the persistence layer, and transactions: a callback over the
    database that may throw, whose changes are kept only when it returns. *)

From S2P Require Import Prelude JsValue UnicodeText DomainModel Authorization.

(** ** Faults (errors.ts) *)

Inductive PersistenceErrorCode : Type :=
  | PE_INVALID_INPUT | PE_AUTHORIZATION_DENIED | PE_UNSAFE_RUNTIME_ROOT | PE_OS_IDENTITY_UNAVAILABLE
  | PE_PATH_IDENTITY_CHANGED | PE_LIFECYCLE_BUSY | PE_LIFECYCLE_IDENTITY_CHANGED
  | PE_ACTIVE_CONNECTIONS | PE_CONNECTION_RECEIPT_CHANGED | PE_STORE_CLOSED | PE_SQLITE_OPEN_FAILED
  | PE_CONNECTION_POLICY_FAILED | PE_BUSY | PE_TRANSACTION_FAILED | PE_ASYNC_TRANSACTION_FORBIDDEN
  | PE_MIGRATION_HISTORY_MISMATCH | PE_MIGRATION_CHECKSUM_MISMATCH | PE_MIGRATION_FAILED
  | PE_SCHEMA_NEWER | PE_SCHEMA_UNSUPPORTED | PE_INTEGRITY_ERROR | PE_CORRUPT_ROW
  | PE_REVISION_CONFLICT | PE_NOT_FOUND | PE_BACKUP_INVALID | PE_BACKUP_CONFLICT
  | PE_RESTORE_ACK_REQUIRED | PE_RESTORE_CONFLICT | PE_RESTORE_RECOVERY_REQUIRED
  | PE_RESTORE_BLOCKED.

#[export] Instance PersistenceErrorCode_eq_dec : EqDecision PersistenceErrorCode.
Proof. solve_decision. Defined.

(** What the layer throws: a [PersistenceError], or anything else, told apart
    only by whether its message says that SQLite is busy or locked. *)
Inductive Fault : Type :=
  | PersistenceFault (code : PersistenceErrorCode)
  | OtherFault (busyOrLocked : bool).

Definition normalizeSqliteFailure (error : Fault) (fallback : PersistenceErrorCode) : Fault :=
  match error with
  | PersistenceFault code => PersistenceFault code
  | OtherFault true => PersistenceFault PE_BUSY
  | OtherFault false => PersistenceFault fallback
  end.

(** A violated constraint of the schema. *)
Definition constraintFault : Fault := OtherFault false.

(** ** Rows *)

Record ProjectRootIdentity : Type := {
  canonicalRoot : JsString;
  rootKey : JsString;
  platform : JsString;
  device : JsString;
  inode : JsString;
  mode : Z;
}.

Record RegisteredProject : Type := {
  projectRoot : ProjectRootIdentity;
  registeredId : JsString;
  configRevision : Z;
  resourceRevision : Z;
  registeredCreatedAt : JsString;
  registeredUpdatedAt : JsString;
}.

Record AuthorizationBootstrap : Type := {
  bootstrapRoot : ProjectRootIdentity;
  bootstrapActorId : JsString;
  trustedPrincipal : JsString;
  bootstrapRequestId : JsString;
  bootstrapCreatedAt : JsString;
  bootstrapExpiresAt : JsString;
}.

Record AuthorizationLocalIdentity : Type := {
  identityActorId : JsString;
  principalSha256 : JsString;
  identityPlatform : JsString;
  runtimeRootKey : JsString;
  identityBootstrapRequestId : JsString;
  identityCreatedAt : JsString;
}.

Record ApplicationRequestRecord : Type := {
  requestId : JsString;
  correlationId : JsString;
  requestActorId : JsString;
  requestAction : string;
  requestTargetKind : string;
  requestTargetId : JsString;
  requestTargetRevision : option Z;
  requestResult : string;
  requestCreatedAt : JsString;
}.

Record AuthorizationDecisionRecord : Type := {
  decisionRecordId : JsString;
  decisionRequestId : JsString;
  decisionActorId : JsString;
  decisionAction : string;
  decisionResult : string;
  decisionReason : AuthorizationReason;
  decisionPolicy : AuthorizationPolicyResult;
  decisionGrantId : option JsString;
  decisionGrantRevision : option Z;
  decisionProjectId : option JsString;
  decisionResourceRevision : option Z;
  decisionCreatedAt : JsString;
}.

Record ApplicationAuditRecord : Type := {
  auditId : JsString;
  auditRequestId : JsString;
  auditDecisionId : option JsString;
  auditEventKind : string;
  auditResult : string;
  auditActorId : JsString;
  auditCorrelationId : JsString;
  auditTargetKind : string;
  auditTargetId : JsString;
  auditTargetRevision : option Z;
  auditReason : string;
  auditCreatedAt : JsString;
}.

Record TaskExecutionSequence : Type := {
  sequenceTaskId : JsString;
  lastAttemptNumber : Z;
  currentFencingToken : Z;
  sequenceRevision : Z;
}.

Inductive OperationKind : Type := op_claim | op_takeover.
Inductive AttemptStatus : Type := active | superseded.

Record ExecutionAttempt : Type := {
  attemptId : JsString;
  attemptTaskId : JsString;
  attemptNumber : Z;
  operationKind : OperationKind;
  status : AttemptStatus;
  idempotencyKey : JsString;
  ownerId : JsString;
  requestedLeaseSeconds : Z;
  predecessorExecutionRevision : option Z;
  predecessorLeaseRevision : option Z;
  predecessorFencingToken : option Z;
  leaseRevision : Z;
  leaseExpiresAt : JsString;
  fencingToken : Z;
  attemptRevision : Z;
  expectedTaskRevision : Z;
  preTaskRevision : Z;
  postTaskRevision : Z;
  attemptResourceRevision : Z;
  attemptConfigRevision : Z;
  attemptRequestId : JsString;
  attemptDecisionId : JsString;
  supersedesExecutionId : option JsString;
  supersededByExecutionId : option JsString;
  createdAt : JsString;
  updatedAt : JsString;
}.

(** The columns of three other tables that the execution application reads. *)
Inductive TerminalStatus : Type := terminal_completed | terminal_cancelled.

Record ExecutionTerminalStateRecord : Type := {
  terminalExecutionId : JsString;
  terminalStatus : TerminalStatus;
}.

Inductive ExecutionIntentState : Type :=
  | intent_pending | intent_executing | intent_observed | intent_verified | intent_finalized
  | intent_retry_wait | intent_ambiguous | intent_failed.

Record ExecutionOperationIntent : Type := {
  intentExecutionId : JsString;
  intentState : ExecutionIntentState;
}.

Record ManualBackendTurnRecord : Type := { turnExecutionId : JsString }.

#[export] Instance DomainSnapshot_eq_dec : EqDecision DomainSnapshot.
Proof. solve_decision. Defined.
#[export] Instance ProjectRootIdentity_eq_dec : EqDecision ProjectRootIdentity.
Proof. solve_decision. Defined.
#[export] Instance OperationKind_eq_dec : EqDecision OperationKind.
Proof. solve_decision. Defined.
#[export] Instance AttemptStatus_eq_dec : EqDecision AttemptStatus.
Proof. solve_decision. Defined.
#[export] Instance TerminalStatus_eq_dec : EqDecision TerminalStatus.
Proof. solve_decision. Defined.
#[export] Instance ExecutionIntentState_eq_dec : EqDecision ExecutionIntentState.
Proof. solve_decision. Defined.

(** The database, and equally the state decoded from it.  A table is the list
    of its rows in insertion order; every lookup of the code is by a unique
    key, and where the order of a [SELECT] matters the reader sorts.
    [otherTables] are the tables that the operations modelled here never
    write, kept opaque under their names. *)
Record ApplicationState : Type := {
  domainInitialized : bool;
  domain : DomainSnapshot;
  registered : list RegisteredProject;
  bootstrap : option AuthorizationBootstrap;
  localIdentity : option AuthorizationLocalIdentity;
  grants : list AuthorizationGrant;
  requests : list ApplicationRequestRecord;
  decisions : list AuthorizationDecisionRecord;
  audit : list ApplicationAuditRecord;
  executionSequences : list TaskExecutionSequence;
  executions : list ExecutionAttempt;
  executionTerminalStates : list ExecutionTerminalStateRecord;
  executionIntents : list ExecutionOperationIntent;
  manualTurns : list ManualBackendTurnRecord;
  otherTables : list (string * list JsValue);
}.

(** Replacing one table. *)
Definition setDomain (x : DomainSnapshot) (db : ApplicationState) : ApplicationState :=
  {| domainInitialized := domainInitialized db; domain := x; registered := registered db;
     bootstrap := bootstrap db; localIdentity := localIdentity db; grants := grants db;
     requests := requests db; decisions := decisions db; audit := audit db;
     executionSequences := executionSequences db; executions := executions db;
     executionTerminalStates := executionTerminalStates db; executionIntents := executionIntents db;
     manualTurns := manualTurns db; otherTables := otherTables db |}.

Definition setJournal (newRequests : list ApplicationRequestRecord)
    (newDecisions : list AuthorizationDecisionRecord) (newAudit : list ApplicationAuditRecord)
    (db : ApplicationState) : ApplicationState :=
  {| domainInitialized := domainInitialized db; domain := domain db; registered := registered db;
     bootstrap := bootstrap db; localIdentity := localIdentity db; grants := grants db;
     requests := newRequests; decisions := newDecisions; audit := newAudit;
     executionSequences := executionSequences db; executions := executions db;
     executionTerminalStates := executionTerminalStates db; executionIntents := executionIntents db;
     manualTurns := manualTurns db; otherTables := otherTables db |}.

Definition setLeases (newSequences : list TaskExecutionSequence) (newExecutions : list ExecutionAttempt)
    (db : ApplicationState) : ApplicationState :=
  {| domainInitialized := domainInitialized db; domain := domain db; registered := registered db;
     bootstrap := bootstrap db; localIdentity := localIdentity db; grants := grants db;
     requests := requests db; decisions := decisions db; audit := audit db;
     executionSequences := newSequences; executions := newExecutions;
     executionTerminalStates := executionTerminalStates db; executionIntents := executionIntents db;
     manualTurns := manualTurns db; otherTables := otherTables db |}.

(** [applicationAuditKind]: the event kind of an accepted action; [None] is the
    [TypeError] of an action that is audited elsewhere. *)
Definition auditKinds : list (string * string) :=
  [("authorization.grant.issue", "grant.issued");
   ("authorization.grant.inspect", "grant.inspected");
   ("authorization.grant.revoke", "grant.revoked");
   ("policy.evaluate", "policy.evaluated");
   ("project.register", "project.registered");
   ("project.update", "project.updated");
   ("project.disable", "project.disabled");
   ("project.inspect", "project.inspected");
   ("task.create", "task.created");
   ("task.update", "task.updated");
   ("task.mark_ready", "task.ready");
   ("task.cancel", "task.cancelled");
   ("task.inspect", "task.inspected");
   ("dependency.add", "dependency.added");
   ("dependency.remove", "dependency.removed");
   ("authorization.grant.list", "grant.listed");
   ("runtime.status", "runtime.status.inspected");
   ("runtime.backup", "backup.authorized");
   ("runtime.restore", "restore.authorized");
   ("execution.claim", "execution.claimed");
   ("execution.claim.inspect", "execution.claim.inspected");
   ("execution.lease.renew", "execution.lease.renewed");
   ("execution.lease.takeover", "execution.lease.taken_over");
   ("completion.gate.run", "completion.gate.ran");
   ("completion.gate.inspect", "completion.gate.inspected");
   ("completion.gate.cancel", "completion.gate.cancelled");
   ("completion.accept", "completion.accepted");
   ("integration.reserve", "integration.reserved");
   ("integration.inspect", "integration.inspected");
   ("integration.lease.renew", "integration.lease.renewed");
   ("integration.lease.takeover", "integration.lease.taken_over");
   ("integration.apply", "integration.applied");
   ("integration.push", "integration.pushed");
   ("integration.recover", "integration.recovered");
   ("integration.release", "integration.released")].

Definition applicationAuditKind (action : string) : option string :=
  snd <$> List.find (λ entry, String.eqb entry.1 action) auditKinds.

(** ** Transactions *)

(** Code run inside a transaction: it reads and changes the database, or
    throws. *)
Definition Tx (A : Type) : Type := ApplicationState → Result Fault (A * ApplicationState).

Definition txRet {A} (a : A) : Tx A := λ db, Ok (a, db).
Definition txBind {A B} (m : Tx A) (k : A → Tx B) : Tx B :=
  λ db, match m db with Ok (a, db') => k a db' | Err e => Err e end.
Definition txThrow {A} (e : Fault) : Tx A := λ _, Err e.

Declare Scope tx_scope.
Delimit Scope tx_scope with tx.
Notation "'do!' x '<-' m 'in' k" := (txBind m (fun x => k))
  (at level 10, x pattern, m at level 100, k at level 200) : tx_scope.
Notation "'run!' m 'in' k" := (txBind m (fun _ => k))
  (at level 10, m at level 100, k at level 200) : tx_scope.
Open Scope tx_scope.

Lemma txBind_ok {A B} (m : Tx A) (k : A → Tx B) db b db' :
  txBind m k db = Ok (b, db') ↔ ∃ a db1, m db = Ok (a, db1) ∧ k a db1 = Ok (b, db').
Proof. unfold txBind. destruct (m db) as [[a db1]|]; naive_solver. Qed.

(** [runReadSnapshot] and [runWriteTransaction]: the transaction may fail to
    begin or to commit; on any failure it is rolled back and the error is
    normalised. *)
Definition runWriteTransaction {A} (beginFault commitFault : option Fault) (callback : Tx A)
    (db : ApplicationState) : Result Fault A * ApplicationState :=
  match beginFault with
  | Some e => (Err (normalizeSqliteFailure e PE_TRANSACTION_FAILED), db)
  | None =>
      match callback db with
      | Err e => (Err (normalizeSqliteFailure e PE_TRANSACTION_FAILED), db)
      | Ok (a, db') =>
          match commitFault with
          | Some e => (Err (normalizeSqliteFailure e PE_TRANSACTION_FAILED), db)
          | None => (Ok a, db')
          end
      end
  end.

Definition runReadSnapshot {A} (beginFault commitFault : option Fault) (callback : Tx A)
    (db : ApplicationState) : Result Fault A :=
  match beginFault with
  | Some e => Err (normalizeSqliteFailure e PE_TRANSACTION_FAILED)
  | None =>
      match callback db with
      | Err e => Err (normalizeSqliteFailure e PE_TRANSACTION_FAILED)
      | Ok (a, _) =>
          match commitFault with
          | Some e => Err (normalizeSqliteFailure e PE_TRANSACTION_FAILED)
          | None => Ok a
          end
      end
  end.

(** A transaction that returns has committed exactly the changes of its
    callback; one that fails has changed nothing. *)
Lemma runWriteTransaction_ok {A} beginFault commitFault (callback : Tx A) db a db' :
  runWriteTransaction beginFault commitFault callback db = (Ok a, db') ↔
  beginFault = None ∧ commitFault = None ∧ callback db = Ok (a, db').
Proof.
  unfold runWriteTransaction. destruct beginFault; [naive_solver|].
  destruct (callback db) as [[b db1]|]; [|naive_solver]. destruct commitFault; naive_solver.
Qed.

Lemma runWriteTransaction_err {A} beginFault commitFault (callback : Tx A) db e db' :
  runWriteTransaction beginFault commitFault callback db = (Err e, db') → db' = db.
Proof.
  unfold runWriteTransaction. destruct beginFault; [naive_solver|].
  destruct (callback db) as [[b db1]|]; [|naive_solver]. destruct commitFault; naive_solver.
Qed.
