(* ===== verification/ProjectRegistry.v ===== *)
(** * Project registry (src/src/project-registry.ts)

    A project is bound to a directory by its identity (device, inode, mode and
    canonical path), taken when it is registered and compared again before it
    is used.  Node's [path] and [fs] modules are the class [FileSystem]; nothing
    is assumed of them. *)

From S2P Require Import Prelude JsValue UnicodeText PersistenceModel.

Inductive ProjectRegistryErrorCode : Type :=
  | INVALID_PROJECT_ROOT | PROJECT_ROOT_MISSING | PROJECT_ROOT_REPARSE
  | PROJECT_IDENTITY_UNCERTAIN | PROJECT_RUNTIME_OVERLAP | REGISTRY_IDENTITY_CHANGED.

#[export] Instance ProjectRegistryErrorCode_eq_dec : EqDecision ProjectRegistryErrorCode.
Proof. solve_decision. Defined.

Record Stats : Type := {
  dev : Z;
  ino : Z;
  statMode : Z;
  isDirectory : bool;
  isSymbolicLink : bool;
}.

Inductive StatResult : Type :=
  | StatOk (stats : Stats)
  | StatMissing
  | StatFailed.

(** What the process observes of the host: [process.platform], the functions of
    [path], [String.prototype.toLocaleLowerCase], [lstatSync] and
    [realpathSync.native] ([None] when it throws). *)
Class FileSystem : Type := {
  processPlatform : JsString;
  pathResolve : JsString → JsString;
  pathIsAbsolute : JsString → bool;
  pathRoot : JsString → JsString;
  pathJoin : JsString → JsString → JsString;
  pathSep : JsString;
  toLocaleLowerCase : JsString → JsString;
  lstat : JsString → StatResult;
  realpath : JsString → option JsString;
}.

Abbreviation Checked T := (Result ProjectRegistryErrorCode T) (only parsing).

Section registry.
Context `{FileSystem}.

Definition isWindows : bool := js_eqb processPlatform (js "win32").

Definition comparablePath (value : JsString) : JsString :=
  if isWindows then toLocaleLowerCase (pathResolve value) else pathResolve value.

Definition startsWith (prefix value : JsString) : bool :=
  js_eqb (take (length prefix) value) prefix.

Definition overlaps (left right : JsString) : bool :=
  let first := comparablePath left in
  let second := comparablePath right in
  js_eqb first second || startsWith (second ++ pathSep) first || startsWith (first ++ pathSep) second.

Definition exactProjectFilesystemIdentity (stats : Stats) : Checked (JsString * JsString * Z) :=
  guard? Z.abs (statMode stats) <=? MAX_SAFE_INTEGER else PROJECT_IDENTITY_UNCERTAIN in
  Ok (js (pretty (dev stats)), js (pretty (ino stats)), statMode stats).

Definition isSeparator (unit : Z) : bool := (unit =? 47) || (unit =? 92).

(** [value.split(/[\\/]+/u).filter((segment) => segment.length > 0)];
    [current] is the segment being read. *)
Fixpoint splitSegments (current : JsString) (value : JsString) : list JsString :=
  match value with
  | [] => if bool_decide (current = []) then [] else [current]
  | unit :: rest =>
      if isSeparator unit
      then (if bool_decide (current = []) then [] else [current]) ++ splitSegments [] rest
      else splitSegments (current ++ [unit]) rest
  end.

Definition segments (value : JsString) : list JsString :=
  splitSegments [] (drop (length (pathRoot value)) value).

Definition isLetter (unit : Z) : bool :=
  ((65 <=? unit) && (unit <=? 90)) || ((97 <=? unit) && (unit <=? 122)).

(** [/^[A-Za-z]:[\\/]/u] *)
Definition driveQualified (value : JsString) : bool :=
  match value with
  | drive :: colon :: separator :: _ => isLetter drive && (colon =? 58) && isSeparator separator
  | _ => false
  end.

Definition rejectLexicalRoot (value : JsValue) : Checked JsString :=
  let? text := match value with
               | JString s =>
                   if negb (bool_decide (s = [])) && negb (bool_decide (0 ∈ s)) && pathIsAbsolute s
                   then Ok s else Err INVALID_PROJECT_ROOT
               | _ => Err INVALID_PROJECT_ROOT
               end in
  guard? negb (isWindows && (startsWith (js "\\") text || negb (driveQualified text)))
    else INVALID_PROJECT_ROOT in
  guard? negb (existsb (λ segment, js_eqb segment (js ".") || js_eqb segment (js "..")) (segments text))
    else INVALID_PROJECT_ROOT in
  guard? negb (js_eqb (comparablePath text) (comparablePath (pathRoot text))) &&
         js_eqb (comparablePath text) (comparablePath (pathResolve text))
    else INVALID_PROJECT_ROOT in
  Ok text.

(** The loop over the components, from [current]. *)
Fixpoint inspectComponents (current : JsString) (parts : list JsString) : Checked unit :=
  match parts with
  | [] => Ok tt
  | part :: rest =>
      let current := pathJoin current part in
      match lstat current with
      | StatOk stats =>
          if isSymbolicLink stats then Err PROJECT_ROOT_REPARSE else inspectComponents current rest
      | StatMissing => Err PROJECT_ROOT_MISSING
      | StatFailed => Err PROJECT_IDENTITY_UNCERTAIN
      end
  end.

Definition inspectEveryComponent (value : JsString) : Checked unit :=
  inspectComponents (pathRoot value) (segments value).

(** [lstatSync] inside the [try]: any failure is [PROJECT_IDENTITY_UNCERTAIN]. *)
Definition rootStat (value : JsString) : Checked Stats :=
  match lstat value with
  | StatOk stats => Ok stats
  | _ => Err PROJECT_IDENTITY_UNCERTAIN
  end.

Definition inspectProjectRoot (projectRootInput runtimeRootInput : JsValue)
    : Checked ProjectRootIdentity :=
  let? projectText := rejectLexicalRoot projectRootInput in
  let? runtimeText := rejectLexicalRoot runtimeRootInput in
  let? _ := inspectEveryComponent projectText in
  let? _ := inspectEveryComponent runtimeText in
  let? stats := rootStat projectText in
  guard? isDirectory stats && negb (isSymbolicLink stats) else PROJECT_ROOT_REPARSE in
  let? canonical := ok_or (realpath projectText) PROJECT_IDENTITY_UNCERTAIN in
  let? canonicalRuntime := ok_or (realpath runtimeText) PROJECT_IDENTITY_UNCERTAIN in
  guard? js_eqb (comparablePath canonical) (comparablePath projectText) else PROJECT_ROOT_REPARSE in
  guard? negb (overlaps canonical canonicalRuntime) else PROJECT_RUNTIME_OVERLAP in
  let? (statDevice, statInode, statModeNumber) := exactProjectFilesystemIdentity stats in
  guard? negb (bool_decide (statDevice = [])) && negb (bool_decide (statInode = []))
    else PROJECT_IDENTITY_UNCERTAIN in
  Ok {| canonicalRoot := canonical; rootKey := comparablePath canonical;
        platform := processPlatform; device := statDevice; inode := statInode;
        mode := statModeNumber |}.

Definition inspectTrustedRuntimeRoot (runtimeRootInput : JsValue) : Checked ProjectRootIdentity :=
  let? runtimeText := rejectLexicalRoot runtimeRootInput in
  let? _ := inspectEveryComponent runtimeText in
  let? stats := rootStat runtimeText in
  guard? isDirectory stats && negb (isSymbolicLink stats) else PROJECT_ROOT_REPARSE in
  let? canonical := ok_or (realpath runtimeText) PROJECT_IDENTITY_UNCERTAIN in
  guard? js_eqb (comparablePath canonical) (comparablePath runtimeText) else PROJECT_ROOT_REPARSE in
  let? (statDevice, statInode, statModeNumber) := exactProjectFilesystemIdentity stats in
  Ok {| canonicalRoot := canonical; rootKey := comparablePath canonical;
        platform := processPlatform; device := statDevice; inode := statInode;
        mode := statModeNumber |}.

(** Equality of identities, the canonical path left to [rootKey]. *)
Definition sameRootIdentity (left right : ProjectRootIdentity) : bool :=
  js_eqb (rootKey left) (rootKey right) && js_eqb (platform left) (platform right) &&
  js_eqb (device left) (device right) && js_eqb (inode left) (inode right) &&
  (mode left =? mode right).

Definition revalidateProjectRoot (receipt : ProjectRootIdentity) (runtimeRoot : JsString)
    : Checked ProjectRootIdentity :=
  let? current := inspectProjectRoot (JString (canonicalRoot receipt)) (JString runtimeRoot) in
  guard? sameRootIdentity current receipt else REGISTRY_IDENTITY_CHANGED in
  Ok current.

(** ** What an accepted root is *)

Definition lexicalRoot (text : JsString) : Prop :=
  text ≠ [] ∧ (0 ∉ text) ∧ pathIsAbsolute text = true ∧
  (isWindows = true → startsWith (js "\\") text = false ∧ driveQualified text = true) ∧
  (js "." ∉ segments text) ∧ (js ".." ∉ segments text) ∧
  comparablePath text ≠ comparablePath (pathRoot text) ∧
  comparablePath text = comparablePath (pathResolve text).

Lemma rejectLexicalRoot_ok value text :
  rejectLexicalRoot value = Ok text ↔ value = JString text ∧ lexicalRoot text.
Proof.
  unfold rejectLexicalRoot, lexicalRoot. rewrite result_bind_ok. split.
  - intros (s & Hs & Hok). rewrite !guard_ok in Hok. destruct Hok as (H1 & H2 & H3 & [= <-]).
    destruct value; try done. case_match eqn:Hc; [|done]. injection Hs as <-. inv_bool.
    unfold js_eqb in *. inv_bool. split_and!; try done.
    + intros Hw. rewrite Hw in H1. simpl in H1. inv_bool. done.
    + intros Hin. apply not_true_iff_false in H2. apply H2, existsb_true.
      exists (js "."). split; [done|]. by rewrite bool_decide_true.
    + intros Hin. apply not_true_iff_false in H2. apply H2, existsb_true.
      exists (js ".."). split; [done|]. by rewrite (bool_decide_true (js ".." = js "..")), orb_true_r.
  - intros (-> & Hne & Hz & Habs & Hwin & Hd & Hdd & Hr & Hres). exists text.
    rewrite !bool_decide_false, Habs by done. split; [done|]. rewrite !guard_ok. unfold js_eqb.
    rewrite bool_decide_false, bool_decide_true by done. split_and!; try done.
    + destruct isWindows; [|done]. by destruct Hwin as [-> ->].
    + apply negb_true_iff, existsb_false. intros x Hx.
      rewrite !bool_decide_false; [done| |]; congruence.
Qed.

Record acceptedRoot (text runtimeText : JsString) (identity : ProjectRootIdentity) : Prop := {
  ar_lexical : lexicalRoot text;
  ar_runtime : lexicalRoot runtimeText;
  ar_components : inspectEveryComponent text = Ok tt;
  ar_runtime_components : inspectEveryComponent runtimeText = Ok tt;
  ar_identity : ∃ stats, lstat text = StatOk stats ∧ isDirectory stats = true ∧
    isSymbolicLink stats = false ∧ device identity = js (pretty (dev stats)) ∧
    inode identity = js (pretty (ino stats)) ∧ mode identity = statMode stats ∧
    Z.abs (statMode stats) <= MAX_SAFE_INTEGER;
  ar_canonical : realpath text = Some (canonicalRoot identity) ∧
    comparablePath (canonicalRoot identity) = comparablePath text;
  ar_disjoint : ∃ runtimeRoot, realpath runtimeText = Some runtimeRoot ∧
    overlaps (canonicalRoot identity) runtimeRoot = false;
  ar_key : rootKey identity = comparablePath (canonicalRoot identity);
  ar_platform : platform identity = processPlatform;
}.

Lemma pretty_N_go_nonempty x s : s ≠ "" → pretty_N_go x s ≠ "".
Proof.
  revert s. induction (N.lt_wf_0 x) as [x _ IH]; intros s Hs.
  assert (x = 0 ∨ 0 < x)%N as [->|?] by lia; [by rewrite pretty_N_go_0|].
  rewrite pretty_N_go_step by done. apply IH; [by apply N.div_lt|done].
Qed.

Lemma pretty_nonempty (z : Z) : js (pretty z) ≠ [].
Proof.
  intros H'. change [] with (js "") in H'. apply js_inj in H'. destruct z as [|p|p]; try done.
  unfold pretty, pretty_Z, pretty, pretty_positive, pretty, pretty_N in H'. simpl in H'.
  rewrite pretty_N_go_step in H' by lia. by apply pretty_N_go_nonempty in H'.
Qed.

Lemma rootStat_ok text stats : rootStat text = Ok stats ↔ lstat text = StatOk stats.
Proof. unfold rootStat. destruct (lstat text); naive_solver. Qed.

Lemma exactIdentity_ok stats d i m :
  exactProjectFilesystemIdentity stats = Ok (d, i, m) ↔
  Z.abs (statMode stats) <= MAX_SAFE_INTEGER ∧ d = js (pretty (dev stats)) ∧
  i = js (pretty (ino stats)) ∧ m = statMode stats.
Proof. unfold exactProjectFilesystemIdentity. rewrite guard_ok, Z.leb_le. naive_solver. Qed.

(** A root is accepted exactly when both paths are plain absolute paths whose
    components are not links, the root is a real directory that resolves to
    itself and does not overlap the runtime root. *)
Lemma inspectProjectRoot_ok value runtimeValue identity :
  inspectProjectRoot value runtimeValue = Ok identity ↔
  ∃ text runtimeText, value = JString text ∧ runtimeValue = JString runtimeText ∧
    acceptedRoot text runtimeText identity.
Proof.
  unfold inspectProjectRoot. split.
  - intros Hok. inv_ok.
    repeat match goal with
    | H : rejectLexicalRoot _ = Ok _ |- _ => apply rejectLexicalRoot_ok in H as [-> ?]
    | H : rootStat _ = Ok _ |- _ => apply rootStat_ok in H
    | u : () |- _ => destruct u
    end.
    match goal with H : (let '(_, _) := ?x in _) = Ok _ |- _ => destruct x as [[d i] m] end.
    inv_ok. inv_bool. unfold js_eqb in *. inv_bool. subst identity.
    match goal with H : exactProjectFilesystemIdentity _ = Ok _ |- _ =>
      apply exactIdentity_ok in H as (? & -> & -> & ->) end.
    do 2 eexists. split_and!; [done..|]. constructor; simpl; eauto 10.
  - intros (text & runtimeText & -> & -> & [Hl Hr Hc Hrc Hid [Hreal Hcmp] Hdis Hkey Hplat]).
    destruct Hid as (stats & Hstat & Hdir & Hlink & Hdev & Hino & Hmode & Hsafe).
    destruct Hdis as (root & Hroot & Hover). destruct identity as [c k p d i m]. simpl in *. subst.
    rewrite !(proj2 (rejectLexicalRoot_ok _ _)) by done. simpl. rewrite Hc, Hrc. simpl.
    rewrite (proj2 (rootStat_ok _ _) Hstat). simpl. rewrite Hdir, Hlink, Hreal, Hroot. simpl.
    unfold js_eqb. rewrite bool_decide_true, Hover by done. simpl.
    rewrite (proj2 (exactIdentity_ok stats _ _ _)) by done. simpl.
    by rewrite !bool_decide_false by apply pretty_nonempty.
Qed.

Lemma sameRootIdentity_ok left right :
  sameRootIdentity left right = true ↔
  rootKey left = rootKey right ∧ platform left = platform right ∧ device left = device right ∧
  inode left = inode right ∧ mode left = mode right.
Proof.
  unfold sameRootIdentity, js_eqb. rewrite !andb_true_iff, !bool_decide_eq_true, Z.eqb_eq. tauto.
Qed.

(** C40 Revalidation of a project succeeds exactly when its directory is accepted
    again under the same canonical key with the same device, inode and mode:
    a directory replaced by another one is refused. *)
Theorem revalidateProjectRoot_iff receipt runtimeRoot current stats :
  revalidateProjectRoot receipt runtimeRoot = Ok current ∧ lstat (canonicalRoot receipt) = StatOk stats ↔
  acceptedRoot (canonicalRoot receipt) runtimeRoot current ∧
  lstat (canonicalRoot receipt) = StatOk stats ∧
  rootKey current = rootKey receipt ∧ processPlatform = platform receipt ∧
  js (pretty (dev stats)) = device receipt ∧ js (pretty (ino stats)) = inode receipt ∧
  statMode stats = mode receipt.
Proof.
  unfold revalidateProjectRoot. rewrite result_bind_ok. split.
  - intros ((c & (t & r & [= <-] & [= <-] & Ha)%inspectProjectRoot_ok & Hg) & Hstat).
    rewrite guard_ok, sameRootIdentity_ok in Hg. destruct Hg as ((? & Hp & ? & ? & ?) & [= <-]).
    destruct (ar_identity _ _ _ Ha) as (st & Hst & _ & _ & Hd & Hi & Hm & _).
    rewrite Hstat in Hst. injection Hst as <-. rewrite (ar_platform _ _ _ Ha) in Hp.
    split_and!; congruence || done.
  - intros (Ha & Hstat & Hk & Hp & Hd & Hi & Hm). split; [|done].
    exists current. split; [apply inspectProjectRoot_ok; eauto|].
    rewrite guard_ok, sameRootIdentity_ok. split; [|done].
    destruct (ar_identity _ _ _ Ha) as (st & Hst & _ & _ & Hd' & Hi' & Hm' & _).
    rewrite Hstat in Hst. injection Hst as <-. rewrite (ar_platform _ _ _ Ha). split_and!; congruence.
Qed.
End registry.
