(* ===== verification/PersistenceReaders.v ===== *)
(** * Reading the persisted state
    (src/src/persistence/application-repository-readers.ts,
    application-repository-state.ts, repository.ts)

    Every read decodes all the tables and validates what they hold together.
    Transcribed here: the domain snapshot, the grants, the rows of the lease
    tables and the validation of the execution lineage (sequences, attempts,
    their requests and decisions).  The checks of the remaining tables are one
    predicate, [restOfStateValid], of which nothing is assumed. *)

From S2P Require Import Prelude JsValue UnicodeText DomainModel DomainGraph DomainCommands Timestamp Authorization PersistenceModel.

Definition corruptRow : Fault := PersistenceFault PE_CORRUPT_ROW.

(** [new Map(rows.map((row) => [row.key, row])).get(key)]: the last row wins. *)
Definition mapGet {A} (key : A → JsString) (rows : list A) (k : JsString) : option A :=
  List.find (λ row, bool_decide (key row = k)) (reverse rows).

(** [rows.find((row) => row.key === key)] *)
Definition findBy {A} (key : A → JsString) (k : JsString) (rows : list A) : option A :=
  List.find (λ row, bool_decide (key row = k)) rows.

Definition positive (n : Z) : bool := (0 <? n) && (n <=? MAX_SAFE_INTEGER).
Definition nullablePositive (n : option Z) : bool := match n with Some n => positive n | None => true end.

Definition decodeTaskExecutionSequenceRow (s : TaskExecutionSequence) : bool :=
  positive (lastAttemptNumber s) && positive (currentFencingToken s) && positive (sequenceRevision s).

Definition readExecutionAttempts (a : ExecutionAttempt) : bool :=
  positive (attemptNumber a) && positive (requestedLeaseSeconds a) &&
  nullablePositive (predecessorExecutionRevision a) &&
  nullablePositive (predecessorLeaseRevision a) && nullablePositive (predecessorFencingToken a) &&
  positive (leaseRevision a) && isCanonicalUtcTimestampText (leaseExpiresAt a) &&
  positive (fencingToken a) && positive (attemptRevision a) && positive (expectedTaskRevision a) &&
  positive (preTaskRevision a) && positive (postTaskRevision a) &&
  positive (attemptResourceRevision a) && positive (attemptConfigRevision a) &&
  isCanonicalUtcTimestampText (createdAt a) && isCanonicalUtcTimestampText (updatedAt a).

(** [ORDER BY] on a text column: the order of UTF-8 bytes, which is that of code
    points, so a surrogate counts more than any other unit. *)
Definition codePointKey (s : JsString) : JsString :=
  map (λ unit, if (55296 <=? unit) && (unit <=? 57343) then unit + 65536 else unit) s.

Definition compareText (left right : JsString) : comparison :=
  compareStrings (codePointKey left) (codePointKey right).

Definition readGrants (rows : list AuthorizationGrant) : Result Fault (list AuthorizationGrant) :=
  ok_or (mapM (λ row, parseAuthorizationGrant (grantValue row))
           (sortBy (λ left right, compareText (grantId left) (grantId right)) rows)) corruptRow.

(** [new Date(new Date(now).valueOf() + seconds * 1000).toISOString()]; [None]
    is the [RangeError] of a time outside the range of [Date]. *)
Definition leaseExpiry (now : JsString) (durationSeconds : Z) : option JsString :=
  start ← dateParse now;
  if Z.abs (start + durationSeconds * 1000) <=? maxTime
  then Some (toISOString (start + durationSeconds * 1000)) else None.

(** ** The execution lineage *)

Definition isActive (a : ExecutionAttempt) : bool := bool_decide (status a = active).

(** [ORDER BY task_id, attempt_number], restricted to one task. *)
Definition attemptsOf (taskId : JsString) (rows : list ExecutionAttempt) : list ExecutionAttempt :=
  sortBy (λ left right, attemptNumber left ?= attemptNumber right)
    (List.filter (λ a, bool_decide (attemptTaskId a = taskId)) rows).

Definition claimShape (index : Z) (a : ExecutionAttempt) : bool :=
  (index =? 0) && (postTaskRevision a =? preTaskRevision a + 1) &&
  bool_decide (supersedesExecutionId a = None) &&
  bool_decide (predecessorExecutionRevision a = None) &&
  bool_decide (predecessorLeaseRevision a = None) && bool_decide (predecessorFencingToken a = None).

Definition takeoverShape (index : Z) (previous : option ExecutionAttempt) (a : ExecutionAttempt) : bool :=
  negb (index =? 0) && (preTaskRevision a <=? postTaskRevision a) &&
  (postTaskRevision a <=? preTaskRevision a + 1) &&
  bool_decide (supersedesExecutionId a = attemptId <$> previous) &&
  bool_decide (predecessorExecutionRevision a =
                 Some (default 0 (attemptRevision <$> previous) - 1)) &&
  bool_decide (predecessorLeaseRevision a = leaseRevision <$> previous) &&
  bool_decide (predecessorFencingToken a = fencingToken <$> previous).

Definition requestBinds (a : ExecutionAttempt) (request : ApplicationRequestRecord) : bool :=
  String.eqb (requestAction request)
    (match operationKind a with op_claim => "execution.claim" | op_takeover => "execution.lease.takeover" end) &&
  String.eqb (requestResult request) "allow" && String.eqb (requestTargetKind request) "execution" &&
  js_eqb (requestTargetId request) (attemptId a) &&
  bool_decide (requestTargetRevision request = Some 1) &&
  js_eqb (requestCreatedAt request) (createdAt a).

Definition decisionBinds (task : Task) (a : ExecutionAttempt)
    (decision : AuthorizationDecisionRecord) : bool :=
  js_eqb (decisionRecordId decision) (attemptDecisionId a) &&
  js_eqb (decisionRequestId decision) (attemptRequestId a) &&
  bool_decide (decisionProjectId decision = Some (taskProjectId task)) &&
  bool_decide (decisionResourceRevision decision = Some (attemptResourceRevision a)).

(** The condition of the inner loop, negated clause by clause.  An expiry beyond
    the range of [Date], whose [toISOString] throws in the code, makes the row
    invalid here: the read fails in both cases, and the operations answer every
    failed read with [PERSISTENCE_FAILURE]. *)
Definition attemptValid (st : ApplicationState) (task : Task) (index : Z)
    (previous next : option ExecutionAttempt) (a : ExecutionAttempt) : bool :=
  (attemptNumber a =? index + 1) && (fencingToken a =? index + 1) &&
  (1 <=? attemptRevision a) && (1 <=? leaseRevision a) &&
  (30 <=? requestedLeaseSeconds a) && (requestedLeaseSeconds a <=? 3600) &&
  js_leb (createdAt a) (updatedAt a) &&
  (negb (leaseRevision a =? 1) ||
     bool_decide (leaseExpiry (createdAt a) (requestedLeaseSeconds a) = Some (leaseExpiresAt a))) &&
  (negb (isActive a) || js_ltb (updatedAt a) (leaseExpiresAt a)) &&
  (expectedTaskRevision a =? preTaskRevision a) && (postTaskRevision a <=? revision task) &&
  match findBy registeredId (taskProjectId task) (registered st) with
  | Some entry => (attemptResourceRevision a <=? resourceRevision entry) &&
                    (attemptConfigRevision a <=? configRevision entry)
  | None => false
  end &&
  match mapGet requestId (requests st) (attemptRequestId a) with
  | Some request => requestBinds a request
  | None => false
  end &&
  match mapGet decisionRequestId (decisions st) (attemptRequestId a) with
  | Some decision => decisionBinds task a decision
  | None => false
  end &&
  match operationKind a with
  | op_claim => claimShape index a
  | op_takeover => takeoverShape index previous a
  end &&
  match status a with
  | active => bool_decide (next = None) && bool_decide (supersededByExecutionId a = None)
  | superseded => bool_decide (is_Some next) &&
                  bool_decide (supersededByExecutionId a = attemptId <$> next)
  end.

Fixpoint attemptsValid (st : ApplicationState) (task : Task) (index : Z)
    (previous : option ExecutionAttempt) (attempts : list ExecutionAttempt) : bool :=
  match attempts with
  | [] => true
  | a :: rest =>
      attemptValid st task index previous (head rest) a &&
      attemptsValid st task (index + 1) (Some a) rest
  end.

(** [taskStateMatchesExecution] *)
Definition taskStateMatches (taskState : TaskState) (terminal : option ExecutionTerminalStateRecord)
    : bool :=
  match taskState with
  | running | waiting => bool_decide (terminal = None)
  | completed => bool_decide (terminalStatus <$> terminal = Some terminal_completed)
  | cancelled => bool_decide (terminalStatus <$> terminal = Some terminal_cancelled)
  | idea | ready => false
  end.

(** The body of the loop over the sequences. *)
Definition sequenceValid (st : ApplicationState) (sequence : TaskExecutionSequence) : bool :=
  let attempts := attemptsOf (sequenceTaskId sequence) (executions st) in
  let actives := List.filter isActive attempts in
  let terminal := activeAttempt ← head actives;
                  mapGet terminalExecutionId (executionTerminalStates st) (attemptId activeAttempt) in
  match mapGet id (tasks (domain st)) (sequenceTaskId sequence), actives with
  | Some task, [current] =>
      taskStateMatches (state task) terminal &&
      (Z.of_nat (length attempts) =? lastAttemptNumber sequence) &&
      (sequenceRevision sequence =? lastAttemptNumber sequence) &&
      (attemptNumber current =? lastAttemptNumber sequence) &&
      (fencingToken current =? currentFencingToken sequence) &&
      attemptsValid st task 0 None attempts
  | _, _ => false
  end.

(** An accepted [execution.*] request names an execution that has reached the
    revision it was made for. *)
Definition executionRequestValid (st : ApplicationState) (request : ApplicationRequestRecord) : bool :=
  negb (String.prefix "execution." (requestAction request)) ||
  negb (String.eqb (requestResult request) "allow") ||
  match mapGet attemptId (executions st) (requestTargetId request), requestTargetRevision request with
  | Some execution, Some target => target <=? attemptRevision execution
  | _, _ => false
  end.

Definition executionLineageValid (st : ApplicationState) : bool :=
  (setSize (map attemptId (executions st)) =? length (executions st))%nat &&
  (setSize (map sequenceTaskId (executionSequences st)) =? length (executionSequences st))%nat &&
  forallb (sequenceValid st) (executionSequences st) &&
  forallb (λ a, existsb (λ s, bool_decide (sequenceTaskId s = attemptTaskId a)) (executionSequences st))
    (executions st) &&
  forallb (executionRequestValid st) (requests st).

(** ** Reading *)

(** The validation of every other table, in the decoded state. *)
Class StateValidation : Type := { restOfStateValid : ApplicationState → bool }.

Section readers.
Context `{UnicodeNormalization} `{StateValidation}.

Definition validateDecodedSnapshot (value : DomainSnapshot) : Result Fault DomainSnapshot :=
  match createDomainSnapshot (snapshotValue value) with
  | Ok result => Ok (DomainModel.value result)
  | Err _ => Err corruptRow
  end.

Definition readDomainSnapshotUntransactional (db : ApplicationState) : Result Fault DomainSnapshot :=
  validateDecodedSnapshot (domain db).

Definition decodedState (d : DomainSnapshot) (gs : list AuthorizationGrant) (db : ApplicationState)
    : ApplicationState :=
  {| domainInitialized := domainInitialized db; domain := d; registered := registered db;
     bootstrap := bootstrap db; localIdentity := localIdentity db; grants := gs;
     requests := requests db; decisions := decisions db; audit := audit db;
     executionSequences := executionSequences db; executions := executions db;
     executionTerminalStates := executionTerminalStates db; executionIntents := executionIntents db;
     manualTurns := manualTurns db; otherTables := otherTables db |}.

Definition readApplicationStateUntransactional (db : ApplicationState)
    : Result Fault ApplicationState :=
  let? d := readDomainSnapshotUntransactional db in
  let? gs := readGrants (grants db) in
  guard? forallb decodeTaskExecutionSequenceRow (executionSequences db) else corruptRow in
  guard? forallb readExecutionAttempts (executions db) else corruptRow in
  let st := decodedState d gs db in
  guard? executionLineageValid st else corruptRow in
  guard? restOfStateValid st else corruptRow in
  Ok st.

(** The snapshot and the grants a reader returns are what the rows say. *)
Definition reads (db st : ApplicationState) : Prop := readApplicationStateUntransactional db = Ok st.

Lemma reads_ok db st : reads db st →
  ∃ d gs, readDomainSnapshotUntransactional db = Ok d ∧ readGrants (grants db) = Ok gs ∧
    st = decodedState d gs db ∧ executionLineageValid st = true ∧ restOfStateValid st = true ∧
    forallb decodeTaskExecutionSequenceRow (executionSequences st) = true ∧
    forallb readExecutionAttempts (executions st) = true.
Proof.
  unfold reads, readApplicationStateUntransactional. intros Hr. inv_ok. subst st.
  do 2 eexists. split_and!; eauto.
Qed.
End readers.
