(* ===== verification/PersistenceTransaction.v ===== *)
(** * The write transaction
    (src/src/persistence/application-repository-transaction.ts, repository.ts,
    src/migrations/0001-current-baseline.sql)

    The statements the execution application issues, with the keys, checks and
    triggers of the schema that constrain them, the compare-and-swap of the
    domain snapshot, and [withApplicationTransaction].  SQLite itself may make
    any statement fail ([statementFault]). *)

From S2P Require Import Prelude JsValue UnicodeText DomainModel DomainGraph DomainCommands Timestamp Authorization PersistenceModel PersistenceReaders.

(** What the environment adds to a call: for the write transaction, the fault
    of each write statement beyond the constraints below, of using the store (closed,
    locked by a backup), of beginning and of committing; the same for the read
    that precedes it. *)
Class Sqlite : Type := {
  statementFault : string → option Fault;
  openFault : option PersistenceErrorCode;
  beginFault : option Fault;
  commitFault : option Fault;
  readOpenFault : option PersistenceErrorCode;
  readBeginFault : option Fault;
  readCommitFault : option Fault;
}.

Definition revisionConflict : Fault := PersistenceFault PE_REVISION_CONFLICT.
Definition integrityError : Fault := PersistenceFault PE_INTEGRITY_ERROR.
Definition invalidInput : Fault := PersistenceFault PE_INVALID_INPUT.

(** ** Primitive steps *)

Definition query {A} (f : ApplicationState → A) : Tx A := λ db, Ok (f db, db).
Definition modify (f : ApplicationState → ApplicationState) : Tx unit := λ db, Ok (tt, f db).
Definition require (condition : bool) (e : Fault) : Tx unit :=
  if condition then txRet tt else txThrow e.
Definition fromResult {A} (r : Result Fault A) : Tx A :=
  match r with Ok a => txRet a | Err e => txThrow e end.

(** [UPDATE table SET ... WHERE ...]: the new rows and [changes]. *)
Definition updateWhere {A} (condition : A → bool) (set : A → A) (rows : list A) : list A * nat :=
  (map (λ row, if condition row then set row else row) rows, length (List.filter condition rows)).

Definition isUnique {A} (key : A → JsString) (rows : list A) (row : A) : bool :=
  negb (existsb (λ other, bool_decide (key other = key row)) rows).

(** ** Row changes *)

Definition advancedSequence (s : TaskExecutionSequence) : TaskExecutionSequence :=
  {| sequenceTaskId := sequenceTaskId s; lastAttemptNumber := lastAttemptNumber s + 1;
     currentFencingToken := currentFencingToken s + 1; sequenceRevision := sequenceRevision s + 1 |}.

Definition renewedAttempt (now newExpiry : JsString) (a : ExecutionAttempt) : ExecutionAttempt :=
  {| attemptId := attemptId a; attemptTaskId := attemptTaskId a; attemptNumber := attemptNumber a;
     operationKind := operationKind a; status := status a; idempotencyKey := idempotencyKey a;
     ownerId := ownerId a; requestedLeaseSeconds := requestedLeaseSeconds a;
     predecessorExecutionRevision := predecessorExecutionRevision a;
     predecessorLeaseRevision := predecessorLeaseRevision a;
     predecessorFencingToken := predecessorFencingToken a;
     leaseRevision := leaseRevision a + 1; leaseExpiresAt := newExpiry;
     fencingToken := fencingToken a; attemptRevision := attemptRevision a + 1;
     expectedTaskRevision := expectedTaskRevision a; preTaskRevision := preTaskRevision a;
     postTaskRevision := postTaskRevision a; attemptResourceRevision := attemptResourceRevision a;
     attemptConfigRevision := attemptConfigRevision a; attemptRequestId := attemptRequestId a;
     attemptDecisionId := attemptDecisionId a; supersedesExecutionId := supersedesExecutionId a;
     supersededByExecutionId := supersededByExecutionId a; createdAt := createdAt a; updatedAt := now |}.

Definition supersededAttempt (successor now : JsString) (a : ExecutionAttempt) : ExecutionAttempt :=
  {| attemptId := attemptId a; attemptTaskId := attemptTaskId a; attemptNumber := attemptNumber a;
     operationKind := operationKind a; status := superseded; idempotencyKey := idempotencyKey a;
     ownerId := ownerId a; requestedLeaseSeconds := requestedLeaseSeconds a;
     predecessorExecutionRevision := predecessorExecutionRevision a;
     predecessorLeaseRevision := predecessorLeaseRevision a;
     predecessorFencingToken := predecessorFencingToken a;
     leaseRevision := leaseRevision a; leaseExpiresAt := leaseExpiresAt a;
     fencingToken := fencingToken a; attemptRevision := attemptRevision a + 1;
     expectedTaskRevision := expectedTaskRevision a; preTaskRevision := preTaskRevision a;
     postTaskRevision := postTaskRevision a; attemptResourceRevision := attemptResourceRevision a;
     attemptConfigRevision := attemptConfigRevision a; attemptRequestId := attemptRequestId a;
     attemptDecisionId := attemptDecisionId a; supersedesExecutionId := supersedesExecutionId a;
     supersededByExecutionId := Some successor; createdAt := createdAt a; updatedAt := now |}.

(** The [CHECK] clauses of [execution_attempts] that its keys and readers do
    not already imply. *)
Definition attemptChecks (a : ExecutionAttempt) : bool :=
  (0 <? attemptNumber a) && (30 <=? requestedLeaseSeconds a) && (requestedLeaseSeconds a <=? 3600) &&
  (0 <? leaseRevision a) && (0 <? fencingToken a) && (0 <? attemptRevision a) &&
  (expectedTaskRevision a =? preTaskRevision a) &&
  match operationKind a with
  | op_claim =>
      (attemptNumber a =? 1) && (postTaskRevision a =? preTaskRevision a + 1) &&
      bool_decide (supersedesExecutionId a = None) &&
      bool_decide (predecessorExecutionRevision a = None) &&
      bool_decide (predecessorLeaseRevision a = None) && bool_decide (predecessorFencingToken a = None)
  | op_takeover =>
      (1 <? attemptNumber a) && (preTaskRevision a <=? postTaskRevision a) &&
      (postTaskRevision a <=? preTaskRevision a + 1) &&
      bool_decide (is_Some (supersedesExecutionId a)) &&
      bool_decide (is_Some (predecessorExecutionRevision a)) &&
      bool_decide (is_Some (predecessorLeaseRevision a)) &&
      bool_decide (is_Some (predecessorFencingToken a))
  end &&
  match status a with
  | active => bool_decide (supersededByExecutionId a = None)
  | superseded => bool_decide (is_Some (supersededByExecutionId a))
  end.

(** The [UNIQUE] constraints between two rows of [execution_attempts], the
    partial index [execution_attempts_one_active_per_task] included. *)
Definition attemptsConflict (a b : ExecutionAttempt) : bool :=
  js_eqb (attemptId a) (attemptId b) || js_eqb (idempotencyKey a) (idempotencyKey b) ||
  js_eqb (attemptRequestId a) (attemptRequestId b) ||
  js_eqb (attemptDecisionId a) (attemptDecisionId b) ||
  (bool_decide (is_Some (supersededByExecutionId a)) &&
   bool_decide (supersededByExecutionId a = supersededByExecutionId b)) ||
  (js_eqb (attemptTaskId a) (attemptTaskId b) &&
   ((attemptNumber a =? attemptNumber b) || (fencingToken a =? fencingToken b) ||
    (isActive a && isActive b))).

(** The [BEFORE UPDATE] trigger [execution_attempts_update_guard], for the two
    updates above: a renewal moves the lease forward, a supersession is later
    than the last update, and both name the time of the change. *)
Definition renewalGuard (now newExpiry : JsString) (a : ExecutionAttempt) : bool :=
  isActive a && js_ltb (leaseExpiresAt a) newExpiry && js_ltb (updatedAt a) now &&
  bool_decide (supersededByExecutionId a = None).

Definition supersessionGuard (now : JsString) (a : ExecutionAttempt) : bool :=
  isActive a && bool_decide (supersededByExecutionId a = None) && js_ltb (updatedAt a) now &&
  js_leb (leaseExpiresAt a) now.

(** ** Statements *)

Section transaction.
Context `{UnicodeNormalization} `{StateValidation} `{Sqlite}.

(** A write statement, named by its verb and table: no call issues one twice. *)
Definition statement (name : string) : Tx unit :=
  match statementFault name with Some e => txThrow e | None => txRet tt end.

Definition read : Tx ApplicationState :=
  λ db, match readApplicationStateUntransactional db with
        | Ok st => Ok (st, db)
        | Err e => Err e
        end.

Definition insertRequest (record : ApplicationRequestRecord) : Tx unit :=
  run! statement "INSERT application_requests" in
  do! rows <- query requests in
  run! require (isUnique requestId rows record) constraintFault in
  modify (λ db, setJournal (requests db ++ [record]) (decisions db) (audit db) db).

Definition insertDecision (record : AuthorizationDecisionRecord) : Tx unit :=
  run! statement "INSERT authorization_decisions" in
  do! rows <- query decisions in
  run! require (isUnique decisionRecordId rows record && isUnique decisionRequestId rows record)
    constraintFault in
  modify (λ db, setJournal (requests db) (decisions db ++ [record]) (audit db) db).

(** A member of a canonical JSON object: ["key":value]. *)
Definition jsonText (s : JsString) : JsString := [34] ++ s ++ [34].
Definition jsonInteger (n : option Z) : JsString :=
  match n with None => js "null" | Some n => js (pretty n) end.

(** [canonicalJson({ action, reason, targetKind, targetRevision })], whose text
    fields need no escapes. *)
Definition auditDetails (action : string) (record : ApplicationAuditRecord) : JsString :=
  js "{" ++ jsonText (js "action") ++ js ":" ++ jsonText (js action) ++ js "," ++
  jsonText (js "reason") ++ js ":" ++ jsonText (js (auditReason record)) ++ js "," ++
  jsonText (js "targetKind") ++ js ":" ++ jsonText (js (auditTargetKind record)) ++ js "," ++
  jsonText (js "targetRevision") ++ js ":" ++ jsonInteger (auditTargetRevision record) ++ js "}" ++
  [10].

Definition readApplicationRequestActionValue (request : JsString) (db : ApplicationState) : string :=
  default "" (requestAction <$> findBy requestId request (requests db)).

Definition insertAudit (record : ApplicationAuditRecord) : Tx unit :=
  do! action <- query (readApplicationRequestActionValue (auditRequestId record)) in
  run! require (length (auditDetails action record) <=? 1024)%nat invalidInput in
  run! statement "INSERT application_audit" in
  do! rows <- query audit in
  run! require (isUnique auditId rows record && isUnique auditRequestId rows record &&
                negb (existsb (λ other, bool_decide (is_Some (auditDecisionId record)) &&
                                        bool_decide (auditDecisionId other = auditDecisionId record))
                        rows)) constraintFault in
  modify (λ db, setJournal (requests db) (decisions db) (audit db ++ [record]) db).

Definition insertExecutionSequence (record : TaskExecutionSequence) : Tx unit :=
  run! statement "INSERT task_execution_sequences" in
  do! rows <- query executionSequences in
  run! require (isUnique sequenceTaskId rows record && (0 <? lastAttemptNumber record) &&
                (0 <? currentFencingToken record) && (0 <? sequenceRevision record)) constraintFault in
  modify (λ db, setLeases (executionSequences db ++ [record]) (executions db) db).

Definition readTaskExecutionSequenceById (taskId : JsString) (db : ApplicationState)
    : Result Fault (option TaskExecutionSequence) :=
  match findBy sequenceTaskId taskId (executionSequences db) with
  | None => Ok None
  | Some s => if decodeTaskExecutionSequenceRow s then Ok (Some s) else Err corruptRow
  end.

Definition advanceExecutionSequence (taskId : JsString)
    (expectedAttemptNumber expectedFencingToken expectedRevision : Z) : Tx TaskExecutionSequence :=
  run! statement "UPDATE task_execution_sequences" in
  do! (rows, changes) <- query (λ db,
        updateWhere (λ s, bool_decide (sequenceTaskId s = taskId) &&
                          (lastAttemptNumber s =? expectedAttemptNumber) &&
                          (currentFencingToken s =? expectedFencingToken) &&
                          (sequenceRevision s =? expectedRevision))
          advancedSequence (executionSequences db)) in
  run! modify (λ db, setLeases rows (executions db) db) in
  run! require (changes =? 1)%nat revisionConflict in
  do! found <- query (readTaskExecutionSequenceById taskId) in
  do! sequence <- fromResult found in
  match sequence with
  | None => txThrow integrityError
  | Some sequence => txRet sequence
  end.

Definition insertExecutionAttempt (record : ExecutionAttempt) : Tx unit :=
  run! statement "INSERT execution_attempts" in
  do! rows <- query executions in
  run! require (attemptChecks record && negb (existsb (attemptsConflict record) rows)) constraintFault in
  modify (λ db, setLeases (executionSequences db) (executions db ++ [record]) db).

(** An update of [execution_attempts]: the trigger runs on every row that
    matches, then the rows change and their number is checked. *)
Definition updateAttempts (condition guard : ExecutionAttempt → bool)
    (set : ExecutionAttempt → ExecutionAttempt) : Tx unit :=
  run! statement "UPDATE execution_attempts" in
  do! matching <- query (λ db, List.filter condition (executions db)) in
  run! require (forallb guard matching) constraintFault in
  do! (rows, changes) <- query (λ db, updateWhere condition set (executions db)) in
  run! modify (λ db, setLeases (executionSequences db) rows db) in
  require (changes =? 1)%nat revisionConflict.

Definition renewExecutionLease (execution owner : JsString)
    (expectedRevision expectedLeaseRevision expectedFencingToken expectedTask : Z)
    (now newExpiry : JsString) : Tx unit :=
  updateAttempts
    (λ a, js_eqb (attemptId a) execution && js_eqb (ownerId a) owner &&
          (attemptRevision a =? expectedRevision) && (leaseRevision a =? expectedLeaseRevision) &&
          (fencingToken a =? expectedFencingToken) && (postTaskRevision a =? expectedTask) &&
          isActive a && js_ltb now (leaseExpiresAt a))
    (renewalGuard now newExpiry) (renewedAttempt now newExpiry).

Definition supersedeExecutionAttempt (execution successor owner : JsString)
    (expectedRevision expectedLeaseRevision expectedFencingToken expectedTask : Z)
    (observedAt : JsString) : Tx unit :=
  do! rows <- query executions in
  updateAttempts
    (λ a, js_eqb (attemptId a) execution && js_eqb (ownerId a) owner &&
          (attemptRevision a =? expectedRevision) && (leaseRevision a =? expectedLeaseRevision) &&
          (fencingToken a =? expectedFencingToken) && (postTaskRevision a =? expectedTask) &&
          isActive a && bool_decide (supersededByExecutionId a = None) &&
          js_leb (leaseExpiresAt a) observedAt)
    (λ a, supersessionGuard observedAt a &&
          negb (existsb (λ b, bool_decide (supersededByExecutionId b = Some successor)) rows))
    (supersededAttempt successor observedAt).

(** ** The domain snapshot (repository.ts) *)

(** [canonicalJson(left) === canonicalJson(right)] on snapshots, projects and
    tasks: the text determines the value, so it is equality. *)

Definition validateCallerSnapshot (value : DomainSnapshot) : Result Fault DomainSnapshot :=
  match createDomainSnapshot (snapshotValue value) with
  | Ok result => Ok (DomainModel.value result)
  | Err _ => Err invalidInput
  end.

Definition parseMutation (mutation : DomainMutation) : Result Fault DomainMutation :=
  guard? forallb (λ taskId, negb (bool_decide (taskId = []))) (changedTaskIds mutation)
    else invalidInput in
  let sorted := sortByKey (λ k, k) (changedTaskIds mutation) in
  guard? (setSize sorted =? length sorted)%nat && bool_decide (sorted = changedTaskIds mutation)
    else invalidInput in
  let? next := validateCallerSnapshot (snapshot mutation) in
  Ok {| snapshot := next; changedTaskIds := changedTaskIds mutation |}.

(** [changedTaskIds(expected, next)]: the tasks that differ, each at revision 1
    or one above its prior revision. *)
Fixpoint changedTasks (expected : list Task) (next : list Task) : Result Fault (list JsString) :=
  match next with
  | [] => Ok []
  | task :: rest =>
      let? changed :=
        match mapGet id expected (id task) with
        | None => if revision task =? 1 then Ok [id task] else Err revisionConflict
        | Some previous =>
            if bool_decide (previous = task) then Ok []
            else if revision task =? revision previous + 1 then Ok [id task]
            else Err revisionConflict
        end in
      let? others := changedTasks expected rest in
      Ok (changed ++ others)
  end.

Definition computeChangedTaskIds (expected next : DomainSnapshot) : Result Fault (list JsString) :=
  guard? forallb (λ task, bool_decide (is_Some (mapGet id (tasks next) (id task)))) (tasks expected)
    else invalidInput in
  let? changed := changedTasks (tasks expected) (tasks next) in
  Ok (sortByKey (λ k, k) changed).

(** One turn of the loop over [changedTaskIds]: insert the task or update it
    by compare-and-swap on its revision; its dependency rows are replaced with
    it. *)
Definition writeTask (expected next : DomainSnapshot) (taskId : JsString) (rows : list Task)
    : Result Fault (list Task) :=
  match mapGet id (tasks next) taskId with
  | None => Err invalidInput
  | Some task =>
      match mapGet id (tasks expected) taskId with
      | None => if isUnique id rows task then Ok (rows ++ [task]) else Err constraintFault
      | Some previous =>
          let '(rows', changes) :=
            updateWhere (λ row, bool_decide (id row = id task) && (revision row =? revision previous))
              (λ _, task) rows in
          if (changes =? 1)%nat then Ok rows' else Err revisionConflict
      end
  end.

Fixpoint writeTasks (expected next : DomainSnapshot) (taskIds : list JsString) (rows : list Task)
    : Result Fault (list Task) :=
  match taskIds with
  | [] => Ok rows
  | taskId :: rest =>
      let? rows' := writeTask expected next taskId rows in writeTasks expected next rest rows'
  end.

Definition writeDomainMutationUntransactional (expectedInput : DomainSnapshot)
    (mutationInput : DomainMutation) : Tx DomainSnapshot :=
  do! expected <- fromResult (validateCallerSnapshot expectedInput) in
  do! mutation <- fromResult (parseMutation mutationInput) in
  let next := snapshot mutation in
  run! require (bool_decide (projects expected = projects next)) invalidInput in
  do! actualChanged <- fromResult (computeChangedTaskIds expected next) in
  run! require (bool_decide (actualChanged = changedTaskIds mutation) &&
                negb (bool_decide (actualChanged = []))) invalidInput in
  do! initialized <- query domainInitialized in
  run! require initialized revisionConflict in
  do! current <- query readDomainSnapshotUntransactional in
  do! current <- fromResult current in
  run! require (bool_decide (current = expected)) revisionConflict in
  run! statement "UPDATE tasks" in
  do! rows <- query (λ db, tasks (domain db)) in
  do! rows <- fromResult (writeTasks expected next (changedTaskIds mutation) rows) in
  run! modify (λ db, setDomain {| projects := projects (domain db); tasks := rows |} db) in
  do! readback <- query readDomainSnapshotUntransactional in
  do! readback <- fromResult readback in
  run! require (bool_decide (readback = next)) integrityError in
  txRet readback.

(** [writeDomain]: what [writeDomainMutationUntransactional] throws inside its
    [try] is normalised. *)
Definition writeDomain (expected : DomainSnapshot) (mutation : DomainMutation) : Tx DomainSnapshot :=
  λ db, match writeDomainMutationUntransactional expected mutation db with
        | Ok r => Ok r
        | Err e => Err (normalizeSqliteFailure e PE_INTEGRITY_ERROR)
        end.

(** ** The transaction *)

Definition withApplicationTransaction {A} (callback : Tx A) (db : ApplicationState)
    : Result Fault A * ApplicationState :=
  match openFault with
  | Some code => (Err (PersistenceFault code), db)
  | None =>
      runWriteTransaction beginFault commitFault
        (λ db, match (do! result <- callback in run! read in txRet result) db with
               | Ok r => Ok r
               | Err e => Err (normalizeSqliteFailure e PE_INTEGRITY_ERROR)
               end) db
  end.

(** [readApplicationState(binding.database)] *)
Definition readApplicationStateForOwner (db : ApplicationState) : Result Fault ApplicationState :=
  match readOpenFault with
  | Some code => Err (PersistenceFault code)
  | None => runReadSnapshot readBeginFault readCommitFault read db
  end.
End transaction.
