(* ===== verification/ExecutionApplication.v ===== *)
(** * Execution application (src/src/execution-application.ts)

    Claiming a ready task for execution, inspecting an execution, renewing its
    lease and taking it over once the lease has expired.  Each operation reads
    the state, checks the command against it, and then repeats the checks
    inside a write transaction, in which it records the authorization and
    changes the lease tables.  Between the two, other connections may commit
    ([concurrent]). *)

From S2P Require Import Prelude JsValue UnicodeText DomainModel DomainParse DomainGraph DomainCommands DomainTransition Timestamp Authorization PersistenceModel ProjectRegistry PersistenceReaders PersistenceTransaction.

(** ** Results *)

Module ExecutionError.
Inductive Code : Type :=
  | INVALID_INPUT | AUTHORIZATION_DENIED | PROJECT_NOT_FOUND | PROJECT_DISABLED
  | PROJECT_IDENTITY_CHANGED | TASK_NOT_FOUND | TASK_NOT_ELIGIBLE | EXECUTION_NOT_FOUND
  | IDEMPOTENCY_CONFLICT | STALE_REVISION | STALE_FENCE | LEASE_NOT_RENEWABLE | LEASE_NOT_EXPIRED
  | RECONCILIATION_REQUIRED | PERSISTENCE_FAILURE.

#[export] Instance Code_eq_dec : EqDecision Code.
Proof. solve_decision. Defined.
End ExecutionError.
Export (hints) ExecutionError.

Record ExecutionClaimView : Type := {
  viewExecutionId : JsString;
  viewTaskId : JsString;
  viewAttemptNumber : Z;
  viewStatus : AttemptStatus;
  viewOwnerId : JsString;
  viewLeaseRevision : Z;
  viewLeaseExpiresAt : JsString;
  viewExpired : bool;
  viewFencingToken : Z;
  viewRevision : Z;
  viewTaskRevision : Z;
  viewResourceRevision : Z;
  viewConfigRevision : Z;
  viewSupersedes : option JsString;
  viewSupersededBy : option JsString;
}.

(** [ExecutionApplicationResult<ExecutionClaimView>] *)
Inductive ExecutionResult : Type :=
  | Succeeded (view : ExecutionClaimView) (request correlation : JsString)
  | Failed (code : ExecutionError.Code) (message : string) (request correlation : option JsString).

(** ** Commands *)

Record ExecutionClaimCommand : Type := {
  claimProjectId : JsString;
  claimResourceRevision : Z;
  claimConfigRevision : Z;
  claimTaskId : JsString;
  claimTaskRevision : Z;
  claimIdempotencyKey : JsString;
  claimLeaseSeconds : Z;
}.

Record ExecutionInspectCommand : Type := {
  inspectProjectId : JsString;
  inspectResourceRevision : Z;
  inspectConfigRevision : Z;
  inspectExecutionId : JsString;
  inspectExecutionRevision : Z;
  inspectTaskRevision : Z;
}.

Record ExecutionLeaseRenewCommand : Type := {
  renewProjectId : JsString;
  renewResourceRevision : Z;
  renewConfigRevision : Z;
  renewExecutionId : JsString;
  renewExecutionRevision : Z;
  renewLeaseRevision : Z;
  renewFencingToken : Z;
  renewTaskRevision : Z;
  renewLeaseSeconds : Z;
}.

Record ExecutionTakeoverCommand : Type := {
  takeoverProjectId : JsString;
  takeoverResourceRevision : Z;
  takeoverConfigRevision : Z;
  takeoverTaskId : JsString;
  takeoverTaskRevision : Z;
  takeoverPredecessorId : JsString;
  takeoverExecutionRevision : Z;
  takeoverLeaseRevision : Z;
  takeoverFencingToken : Z;
  takeoverIdempotencyKey : JsString;
  takeoverLeaseSeconds : Z;
}.

(** ** Guards *)

Definition executionDomainIdentifier (value : JsValue) : option JsString :=
  match value with
  | JString s =>
      if (0 <? length s)%nat && (length s <=? 1024)%nat && negb (bool_decide (0 ∈ s))
      then Some s else None
  | _ => None
  end.

Definition isAlphanumeric (unit : Z) : bool :=
  ((48 <=? unit) && (unit <=? 57)) || ((65 <=? unit) && (unit <=? 90)) ||
  ((97 <=? unit) && (unit <=? 122)).

(** [/^[A-Za-z0-9][A-Za-z0-9._:-]{0,127}$/u] *)
Definition operationIdentifierText (s : JsString) : bool :=
  match s with
  | [] => false
  | first :: rest =>
      isAlphanumeric first && (length rest <=? 127)%nat &&
      forallb (λ unit, isAlphanumeric unit || bool_decide (unit ∈ [46; 95; 58; 45])) rest
  end.

Definition operationIdentifier (value : JsValue) : option JsString :=
  match value with
  | JString s => if operationIdentifierText s then Some s else None
  | _ => None
  end.

Definition leaseDuration (value : JsValue) : option Z :=
  n ← isSafeInteger value; if (30 <=? n) && (n <=? 3600) then Some n else None.

(** [/^[0-9A-F]{64}$/u] *)
Definition isDigest (s : JsString) : bool :=
  (length s =? 64)%nat &&
  forallb (λ unit, ((48 <=? unit) && (unit <=? 57)) || ((65 <=? unit) && (unit <=? 70))) s.

(** ** The trusted ingress *)

Record TrustedActorAssertion : Type := {
  assertedActorId : JsString;
  principal : JsValue;
}.

Record TrustedExecutionContext : Type := {
  contextActor : TrustedActorAssertion;
  contextOwnerId : JsString;
  contextNow : JsString;
}.

Record ExecutionOperationIdentity : Type := {
  operationContext : TrustedExecutionContext;
  operationRequestId : JsString;
  operationCorrelationId : JsString;
  operationDecisionId : JsString;
  operationAuditId : JsString;
}.

(** What the host answers during one call: each method of [ExecutionIngress]
    ([None] when it throws), [String(value)] on a value that is not a string,
    and what other connections commit between the read and the transaction. *)
Class Host : Type := {
  currentActor : option JsValue;
  currentLeaseOwner : option JsValue;
  ingressNow : option JsValue;
  nextId : string → option JsValue;
  stringOf : JsValue → option JsString;
  layoutRoot : JsString;
  concurrent : ApplicationState → ApplicationState;
}.

Section ingress.
Context `{Host}.

(** [String(value)] *)
Definition toText (value : JsValue) : option JsString :=
  match value with JString s => Some s | _ => stringOf value end.

Definition parseActor (value : JsValue) : option TrustedActorAssertion :=
  record ← exactRecord value ["actorId"; "principal"];
  actorId ← operationIdentifier (field record "actorId");
  digest ← toText (field record "principal");
  if isDigest digest
  then Some {| assertedActorId := actorId; principal := field record "principal" |} else None.

Definition trustedContext : option TrustedExecutionContext :=
  assertion ← currentActor; owner ← currentLeaseOwner; now ← ingressNow;
  actor ← parseActor assertion;
  owner ← operationIdentifier owner;
  now ← timestamp now;
  Some {| contextActor := actor; contextOwnerId := owner; contextNow := now |}.

Definition operationIdentity (context : TrustedExecutionContext) : option ExecutionOperationIdentity :=
  requestValue ← nextId "request"; correlationValue ← nextId "correlation";
  decisionValue ← nextId "decision"; auditValue ← nextId "audit";
  request ← operationIdentifier requestValue;
  correlation ← operationIdentifier correlationValue;
  decision ← operationIdentifier decisionValue;
  auditKey ← operationIdentifier auditValue;
  if (setSize [request; correlation; decision; auditKey] =? 4)%nat
  then Some {| operationContext := context; operationRequestId := request;
               operationCorrelationId := correlation; operationDecisionId := decision;
               operationAuditId := auditKey |}
  else None.

Definition nextExecutionId : option JsString := value ← nextId "execution"; operationIdentifier value.
End ingress.

(** [operationActor(identity)] and the other fields of the spread context. *)
Definition operationActorId (identity : ExecutionOperationIdentity) : JsString :=
  assertedActorId (contextActor (operationContext identity)).
Definition operationNow (identity : ExecutionOperationIdentity) : JsString :=
  contextNow (operationContext identity).
Definition operationOwner (identity : ExecutionOperationIdentity) : JsString :=
  contextOwnerId (operationContext identity).

(** [failed(code, message, identity)] *)
Definition failed (code : ExecutionError.Code) (message : string)
    (identity : option ExecutionOperationIdentity) : ExecutionResult :=
  Failed code message (operationRequestId <$> identity) (operationCorrelationId <$> identity).

Definition succeeded (view : ExecutionClaimView) (request correlation : JsString) : ExecutionResult :=
  Succeeded view request correlation.

(** [{ ...failure, requestId, correlationId }] *)
Definition withIdentity (identity : ExecutionOperationIdentity) (result : ExecutionResult)
    : ExecutionResult :=
  match result with
  | Failed code message _ _ => failed code message (Some identity)
  | Succeeded view request correlation => Succeeded view request correlation
  end.

(** ** Parsers of the commands *)

Definition claimKeys : list string :=
  ["kind"; "projectId"; "expectedProjectResourceRevision"; "expectedProjectConfigRevision";
   "taskId"; "expectedTaskRevision"; "idempotencyKey"; "leaseDurationSeconds"].

Definition parseClaim (value : JsValue) : option ExecutionClaimCommand :=
  record ← exactRecord value claimKeys;
  if isLiteral (field record "kind") (js "execution.claim") then
    claimProject ← executionDomainIdentifier (field record "projectId");
    resource ← revisionNumber (field record "expectedProjectResourceRevision");
    config ← revisionNumber (field record "expectedProjectConfigRevision");
    task ← executionDomainIdentifier (field record "taskId");
    taskRevision ← revisionNumber (field record "expectedTaskRevision");
    key ← operationIdentifier (field record "idempotencyKey");
    seconds ← leaseDuration (field record "leaseDurationSeconds");
    Some {| claimProjectId := claimProject; claimResourceRevision := resource;
            claimConfigRevision := config; claimTaskId := task; claimTaskRevision := taskRevision;
            claimIdempotencyKey := key; claimLeaseSeconds := seconds |}
  else None.

Definition inspectKeys : list string :=
  ["kind"; "projectId"; "expectedProjectResourceRevision"; "expectedProjectConfigRevision";
   "executionId"; "expectedExecutionRevision"; "expectedTaskRevision"].

Definition parseInspect (value : JsValue) : option ExecutionInspectCommand :=
  record ← exactRecord value inspectKeys;
  if isLiteral (field record "kind") (js "execution.claim.inspect") then
    inspectProject ← executionDomainIdentifier (field record "projectId");
    resource ← revisionNumber (field record "expectedProjectResourceRevision");
    config ← revisionNumber (field record "expectedProjectConfigRevision");
    execution ← operationIdentifier (field record "executionId");
    executionRevision ← revisionNumber (field record "expectedExecutionRevision");
    taskRevision ← revisionNumber (field record "expectedTaskRevision");
    Some {| inspectProjectId := inspectProject; inspectResourceRevision := resource;
            inspectConfigRevision := config; inspectExecutionId := execution;
            inspectExecutionRevision := executionRevision; inspectTaskRevision := taskRevision |}
  else None.

Definition renewKeys : list string :=
  ["kind"; "projectId"; "expectedProjectResourceRevision"; "expectedProjectConfigRevision";
   "executionId"; "expectedExecutionRevision"; "expectedLeaseRevision"; "expectedFencingToken";
   "expectedTaskRevision"; "leaseDurationSeconds"].

Definition parseRenew (value : JsValue) : option ExecutionLeaseRenewCommand :=
  record ← exactRecord value renewKeys;
  if isLiteral (field record "kind") (js "execution.lease.renew") then
    renewProject ← executionDomainIdentifier (field record "projectId");
    resource ← revisionNumber (field record "expectedProjectResourceRevision");
    config ← revisionNumber (field record "expectedProjectConfigRevision");
    execution ← operationIdentifier (field record "executionId");
    executionRevision ← revisionNumber (field record "expectedExecutionRevision");
    lease ← revisionNumber (field record "expectedLeaseRevision");
    fence ← revisionNumber (field record "expectedFencingToken");
    taskRevision ← revisionNumber (field record "expectedTaskRevision");
    seconds ← leaseDuration (field record "leaseDurationSeconds");
    Some {| renewProjectId := renewProject; renewResourceRevision := resource;
            renewConfigRevision := config; renewExecutionId := execution;
            renewExecutionRevision := executionRevision; renewLeaseRevision := lease;
            renewFencingToken := fence; renewTaskRevision := taskRevision;
            renewLeaseSeconds := seconds |}
  else None.

Definition takeoverKeys : list string :=
  ["kind"; "projectId"; "expectedProjectResourceRevision"; "expectedProjectConfigRevision";
   "taskId"; "expectedTaskRevision"; "predecessorExecutionId"; "expectedExecutionRevision";
   "expectedLeaseRevision"; "expectedFencingToken"; "idempotencyKey"; "leaseDurationSeconds"].

Definition parseTakeover (value : JsValue) : option ExecutionTakeoverCommand :=
  record ← exactRecord value takeoverKeys;
  if isLiteral (field record "kind") (js "execution.lease.takeover") then
    takeoverProject ← executionDomainIdentifier (field record "projectId");
    resource ← revisionNumber (field record "expectedProjectResourceRevision");
    config ← revisionNumber (field record "expectedProjectConfigRevision");
    task ← executionDomainIdentifier (field record "taskId");
    taskRevision ← revisionNumber (field record "expectedTaskRevision");
    predecessor ← operationIdentifier (field record "predecessorExecutionId");
    executionRevision ← revisionNumber (field record "expectedExecutionRevision");
    lease ← revisionNumber (field record "expectedLeaseRevision");
    fence ← revisionNumber (field record "expectedFencingToken");
    key ← operationIdentifier (field record "idempotencyKey");
    seconds ← leaseDuration (field record "leaseDurationSeconds");
    Some {| takeoverProjectId := takeoverProject; takeoverResourceRevision := resource;
            takeoverConfigRevision := config; takeoverTaskId := task;
            takeoverTaskRevision := taskRevision; takeoverPredecessorId := predecessor;
            takeoverExecutionRevision := executionRevision; takeoverLeaseRevision := lease;
            takeoverFencingToken := fence; takeoverIdempotencyKey := key;
            takeoverLeaseSeconds := seconds |}
  else None.

(** ** Reading the state *)

Abbreviation Checks T := (Result ExecutionResult T) (only parsing).

Definition stateTaskById (st : ApplicationState) (taskId : JsString) : option Task :=
  findBy id taskId (tasks (domain st)).

Definition binding (st : ApplicationState) (boundProject : JsString)
    (expectedResource expectedConfig : Z) (taskId : JsString) : Checks (RegisteredProject * Task) :=
  let? entry := ok_or (findBy registeredId boundProject (registered st))
    (failed ExecutionError.PROJECT_NOT_FOUND "Project is not registered" None) in
  guard? (resourceRevision entry =? expectedResource) && (configRevision entry =? expectedConfig)
    else failed ExecutionError.STALE_REVISION "Project binding is stale" None in
  let? task := ok_or (stateTaskById st taskId)
    (failed ExecutionError.TASK_NOT_FOUND "Task is not registered" None) in
  guard? js_eqb (taskProjectId task) boundProject
    else failed ExecutionError.STALE_REVISION "Task Project binding is stale" None in
  Ok (entry, task).

(** [binding] inside an operation: its failure carries the identity. *)
Definition bindingFor (identity : ExecutionOperationIdentity) (st : ApplicationState)
    (boundProject : JsString) (expectedResource expectedConfig : Z) (taskId : JsString)
    : Checks (RegisteredProject * Task) :=
  match binding st boundProject expectedResource expectedConfig taskId with
  | Ok bound => Ok bound
  | Err early => Err (withIdentity identity early)
  end.

Definition sameProject (left right : RegisteredProject) : bool :=
  js_eqb (registeredId left) (registeredId right) &&
  (resourceRevision left =? resourceRevision right) && (configRevision left =? configRevision right) &&
  sameRootIdentity (projectRoot left) (projectRoot right).

Definition projectEnabled (st : ApplicationState) (boundProject : JsString) : bool :=
  match findBy projectId boundProject (projects (domain st)) with
  | Some entry => enabled entry
  | None => false
  end.

Definition executionPolicy (st : ApplicationState) (entry : RegisteredProject) (action : string)
    : AuthorizationPolicyResult :=
  if String.eqb action "execution.claim.inspect" then read_not_applicable
  else if projectEnabled st (registeredId entry) then allow else deny.

Definition authorizationValue (st : ApplicationState) (identity : ExecutionOperationIdentity)
    (action : string) (entry : RegisteredProject) (policy : AuthorizationPolicyResult) : JsValue :=
  jsObject
    [("actorId", JString (operationActorId identity)); ("action", jsName action);
     ("target", jsObject [("projectId", JString (registeredId entry));
                          ("resourceRevision", jsInteger (resourceRevision entry));
                          ("configRevision", jsInteger (configRevision entry))]);
     ("now", JString (operationNow identity));
     ("policy", jsName (AuthorizationPolicyResult_name policy)); ("confirmed", JBoolean true);
     ("grants", jsArray (map grantValue (grants st)))].

Definition authorization (st : ApplicationState) (identity : ExecutionOperationIdentity)
    (action : string) (entry : RegisteredProject) (policy : AuthorizationPolicyResult)
    : AuthorizationEvaluation :=
  evaluateAuthorization (authorizationValue st identity action entry policy).

(** ** Records of an operation *)

Definition requestRecord (identity : ExecutionOperationIdentity) (action : string)
    (execution : JsString) (executionRevision : Z) (result : string) : ApplicationRequestRecord :=
  {| requestId := operationRequestId identity; correlationId := operationCorrelationId identity;
     requestActorId := operationActorId identity; requestAction := action;
     requestTargetKind := "execution"; requestTargetId := execution;
     requestTargetRevision := Some executionRevision; requestResult := result;
     requestCreatedAt := operationNow identity |}.

Definition decisionRecord (identity : ExecutionOperationIdentity) (action : string)
    (evaluated : AuthorizationEvaluation) (entry : RegisteredProject) : AuthorizationDecisionRecord :=
  {| decisionRecordId := operationDecisionId identity;
     decisionRequestId := operationRequestId identity; decisionActorId := operationActorId identity;
     decisionAction := action; decisionResult := if allowed evaluated then "allow" else "deny";
     decisionReason := evaluationReason evaluated; decisionPolicy := evaluationPolicy evaluated;
     decisionGrantId := evaluationGrantId evaluated;
     decisionGrantRevision := evaluationGrantRevision evaluated;
     decisionProjectId := Some (registeredId entry);
     decisionResourceRevision := Some (resourceRevision entry);
     decisionCreatedAt := operationNow identity |}.

Definition auditRecord (identity : ExecutionOperationIdentity) (action : string)
    (execution : JsString) (executionRevision : Z) (evaluated : AuthorizationEvaluation)
    : ApplicationAuditRecord :=
  {| auditId := operationAuditId identity; auditRequestId := operationRequestId identity;
     auditDecisionId := Some (operationDecisionId identity);
     auditEventKind := if allowed evaluated then default "" (applicationAuditKind action)
                       else "authorization.denied";
     auditResult := if allowed evaluated then "accepted" else "denied";
     auditActorId := operationActorId identity;
     auditCorrelationId := operationCorrelationId identity; auditTargetKind := "execution";
     auditTargetId := execution; auditTargetRevision := Some executionRevision;
     auditReason := if allowed evaluated then "accepted"
                    else AuthorizationReason_name (evaluationReason evaluated);
     auditCreatedAt := operationNow identity |}.

Definition view (attempt : ExecutionAttempt) (now : JsString) : ExecutionClaimView :=
  {| viewExecutionId := attemptId attempt; viewTaskId := attemptTaskId attempt;
     viewAttemptNumber := attemptNumber attempt; viewStatus := status attempt;
     viewOwnerId := ownerId attempt; viewLeaseRevision := leaseRevision attempt;
     viewLeaseExpiresAt := leaseExpiresAt attempt;
     viewExpired := js_leb (leaseExpiresAt attempt) now; viewFencingToken := fencingToken attempt;
     viewRevision := attemptRevision attempt; viewTaskRevision := postTaskRevision attempt;
     viewResourceRevision := attemptResourceRevision attempt;
     viewConfigRevision := attemptConfigRevision attempt;
     viewSupersedes := supersedesExecutionId attempt;
     viewSupersededBy := supersededByExecutionId attempt |}.

(** ** Replays *)

Definition executionProjectMatches (st : ApplicationState) (attempt : ExecutionAttempt)
    (boundProject : JsString) : bool :=
  bool_decide (taskProjectId <$> findBy id (attemptTaskId attempt) (tasks (domain st))
               = Some boundProject).

Definition claimTupleMatches (st : ApplicationState) (attempt : ExecutionAttempt)
    (command : ExecutionClaimCommand) (owner : JsString) : bool :=
  bool_decide (operationKind attempt = op_claim) &&
  executionProjectMatches st attempt (claimProjectId command) &&
  js_eqb (attemptTaskId attempt) (claimTaskId command) &&
  (expectedTaskRevision attempt =? claimTaskRevision command) &&
  (attemptResourceRevision attempt =? claimResourceRevision command) &&
  (attemptConfigRevision attempt =? claimConfigRevision command) &&
  js_eqb (ownerId attempt) owner &&
  (requestedLeaseSeconds attempt =? claimLeaseSeconds command) &&
  bool_decide (predecessorExecutionRevision attempt = None) &&
  bool_decide (predecessorLeaseRevision attempt = None) &&
  bool_decide (predecessorFencingToken attempt = None) &&
  bool_decide (supersedesExecutionId attempt = None).

Definition takeoverTupleMatches (st : ApplicationState) (attempt : ExecutionAttempt)
    (command : ExecutionTakeoverCommand) (owner : JsString) : bool :=
  bool_decide (operationKind attempt = op_takeover) &&
  executionProjectMatches st attempt (takeoverProjectId command) &&
  js_eqb (attemptTaskId attempt) (takeoverTaskId command) &&
  (expectedTaskRevision attempt =? takeoverTaskRevision command) &&
  (attemptResourceRevision attempt =? takeoverResourceRevision command) &&
  (attemptConfigRevision attempt =? takeoverConfigRevision command) &&
  js_eqb (ownerId attempt) owner &&
  (requestedLeaseSeconds attempt =? takeoverLeaseSeconds command) &&
  bool_decide (predecessorExecutionRevision attempt = Some (takeoverExecutionRevision command)) &&
  bool_decide (predecessorLeaseRevision attempt = Some (takeoverLeaseRevision command)) &&
  bool_decide (predecessorFencingToken attempt = Some (takeoverFencingToken command)) &&
  bool_decide (supersedesExecutionId attempt = Some (takeoverPredecessorId command)).

(** A recorded execution answers a command with the same idempotency key: it is
    replayed to the actor and owner that made it, and a conflict for any other
    command. *)
Definition replayOrConflict (st : ApplicationState) (attempt : ExecutionAttempt) (tupleMatches : bool)
    (context : TrustedExecutionContext) (identity : option ExecutionOperationIdentity)
    : ExecutionResult :=
  let request := findBy requestId (attemptRequestId attempt) (requests st) in
  match request with
  | Some request =>
      if tupleMatches && js_eqb (requestActorId request) (assertedActorId (contextActor context))
      then succeeded (view attempt (contextNow context)) (requestId request) (correlationId request)
      else failed ExecutionError.IDEMPOTENCY_CONFLICT
             "Execution idempotency identity is bound to another operation" identity
  | None => failed ExecutionError.IDEMPOTENCY_CONFLICT
              "Execution idempotency identity is bound to another operation" identity
  end.

Definition requiresReliabilityReconciliation (st : ApplicationState) (execution : JsString) : bool :=
  if existsb (λ terminal, js_eqb (terminalExecutionId terminal) execution) (executionTerminalStates st)
  then false
  else existsb (λ intent, js_eqb (intentExecutionId intent) execution &&
                          negb (bool_decide (intentState intent = intent_finalized)))
         (executionIntents st) ||
       existsb (λ turn, js_eqb (turnExecutionId turn) execution) (manualTurns st).

Definition mapPersistenceFailure (error : Fault) (identity : option ExecutionOperationIdentity)
    : ExecutionResult :=
  match error with
  | PersistenceFault PE_REVISION_CONFLICT =>
      failed ExecutionError.STALE_FENCE
        "Execution CAS, owner, lease, Task revision, or fence is stale" identity
  | _ => failed ExecutionError.PERSISTENCE_FAILURE "Execution persistence operation failed" identity
  end.

(** ** The runtime and the actor *)

Section checks.
Context `{Host} `{FileSystem}.

Inductive RuntimeActorFailure : Type :=
  | bootstrap_absent | runtime_root_unavailable | runtime_root_mismatch | local_identity_mismatch.

Definition localIdentityRequired (st : ApplicationState) (actor : TrustedActorAssertion) : bool :=
  startsWith (js "local-v1:") (assertedActorId actor) ||
  bool_decide (identityActorId <$> localIdentity st = Some (assertedActorId actor)).

Definition localIdentityMatches (st : ApplicationState) (actor : TrustedActorAssertion)
    (current : ProjectRootIdentity) : bool :=
  match localIdentity st with
  | None => false
  | Some local =>
      js_eqb (identityActorId local) (assertedActorId actor) &&
      isLiteral (principal actor) (principalSha256 local) &&
      js_eqb (identityPlatform local) (platform current) &&
      js_eqb (runtimeRootKey local) (rootKey current)
  end.

Definition validateTrustedRuntimeAndActor (st : ApplicationState) (actor : TrustedActorAssertion)
    : option RuntimeActorFailure :=
  match bootstrap st with
  | None => Some bootstrap_absent
  | Some origin =>
      match inspectTrustedRuntimeRoot (JString layoutRoot) with
      | Err _ => Some runtime_root_unavailable
      | Ok current =>
          if negb (sameRootIdentity (bootstrapRoot origin) current) then Some runtime_root_mismatch
          else if localIdentityRequired st actor && negb (localIdentityMatches st actor current)
          then Some local_identity_mismatch else None
      end
  end.

Definition validateRuntimeAndActor (st : ApplicationState) (identity : ExecutionOperationIdentity)
    : Checks unit :=
  match validateTrustedRuntimeAndActor st (contextActor (operationContext identity)) with
  | None => Ok tt
  | Some runtime_root_unavailable =>
      Err (failed ExecutionError.PROJECT_IDENTITY_CHANGED
             "Runtime root identity could not be revalidated" (Some identity))
  | Some runtime_root_mismatch =>
      Err (failed ExecutionError.AUTHORIZATION_DENIED
             "Authorization bootstrap is bound to another runtime root" (Some identity))
  | Some local_identity_mismatch =>
      Err (failed ExecutionError.AUTHORIZATION_DENIED
             "Trusted local identity does not match the initialized runtime" (Some identity))
  | Some bootstrap_absent =>
      Err (failed ExecutionError.AUTHORIZATION_DENIED "Authorization bootstrap is absent"
             (Some identity))
  end.

(** [revalidateProject]: every error of the registry is a
    [ProjectRegistryError]. *)
Definition revalidateProject (entry : RegisteredProject) (identity : ExecutionOperationIdentity)
    : Checks unit :=
  match revalidateProjectRoot (projectRoot entry) layoutRoot with
  | Ok _ => Ok tt
  | Err _ =>
      Err (failed ExecutionError.PROJECT_IDENTITY_CHANGED
             "Project root identity changed or could not be revalidated" (Some identity))
  end.
End checks.

(** ** The operations *)

Section operations.
Context `{UnicodeNormalization} `{StateValidation} `{Sqlite} `{Host} `{FileSystem}.

Definition persistAuthorization (identity : ExecutionOperationIdentity) (action : string)
    (execution : JsString) (executionRevision : Z) (entry : RegisteredProject)
    (evaluated : AuthorizationEvaluation) : Tx unit :=
  run! insertRequest (requestRecord identity action execution executionRevision
                        (if allowed evaluated then "allow" else "deny")) in
  insertDecision (decisionRecord identity action evaluated entry).

Definition persistAudit (identity : ExecutionOperationIdentity) (action : string)
    (execution : JsString) (executionRevision : Z) (evaluated : AuthorizationEvaluation) : Tx unit :=
  insertAudit (auditRecord identity action execution executionRevision evaluated).

Definition recordDenied (identity : ExecutionOperationIdentity) (action : string)
    (execution : JsString) (executionRevision : Z) (entry : RegisteredProject)
    (evaluated : AuthorizationEvaluation) : Tx ExecutionResult :=
  run! persistAuthorization identity action execution executionRevision entry evaluated in
  run! persistAudit identity action execution executionRevision evaluated in
  txRet (failed ExecutionError.AUTHORIZATION_DENIED
           "Current explicit authorization did not permit the execution operation" (Some identity)).

(** [throw new TypeError("... readback did not match")] *)
Definition readbackFault : Fault := OtherFault false.

(** The [try] around the transaction.  Other connections may have committed
    since the state was read. *)
Definition transact (identity : ExecutionOperationIdentity) (callback : Tx ExecutionResult)
    (db : ApplicationState) : ExecutionResult * ApplicationState :=
  match withApplicationTransaction callback (concurrent db) with
  | (Ok result, db') => (result, db')
  | (Err e, db') => (mapPersistenceFailure e (Some identity), db')
  end.

Definition readPreflight (identity : option ExecutionOperationIdentity) (db : ApplicationState)
    : Checks ApplicationState :=
  match readApplicationStateForOwner db with
  | Ok st => Ok st
  | Err e => Err (mapPersistenceFailure e identity)
  end.

(** *** claim *)

Definition claimTransition (st : ApplicationState) (task : Task) : DomainResult DomainMutation :=
  transitionTask (snapshotValue (domain st)) (jsObject
    [("taskId", JString (id task)); ("event", jsName "claim_accepted");
     ("targetState", jsName "running");
     ("payload", jsObject [("externalAcceptance", jsObject
        [("taskId", JString (id task)); ("taskRevision", jsInteger (revision task));
         ("authorization", jsName "accepted"); ("reliability", jsName "accepted")])])]).

(** The checks the preflight and the transaction share, in the order of each. *)
Definition claimEligible (command : ExecutionClaimCommand) (identity : ExecutionOperationIdentity)
    (staleMessage : string) (st : ApplicationState) (task : Task) : Checks unit :=
  guard? revision task =? claimTaskRevision command
    else failed ExecutionError.STALE_REVISION staleMessage (Some identity) in
  guard? projectEnabled st (claimProjectId command)
    else failed ExecutionError.PROJECT_DISABLED
           "Disabled Project cannot offer an execution claim" (Some identity) in
  guard? bool_decide (state task = ready) &&
         negb (existsb (λ s, js_eqb (sequenceTaskId s) (claimTaskId command)) (executionSequences st))
    else failed ExecutionError.TASK_NOT_ELIGIBLE
           "Task is not eligible for an initial execution claim" (Some identity) in
  Ok tt.

Definition claimReplay (command : ExecutionClaimCommand) (context : TrustedExecutionContext)
    (identity : option ExecutionOperationIdentity) (st : ApplicationState) : Checks unit :=
  match findBy idempotencyKey (claimIdempotencyKey command) (executions st) with
  | None => Ok tt
  | Some replayed =>
      Err (replayOrConflict st replayed
             (claimTupleMatches st replayed command (contextOwnerId context)) context identity)
  end.

Definition claimChecks (command : ExecutionClaimCommand) (identity : ExecutionOperationIdentity)
    (preflightProject : RegisteredProject) (st : ApplicationState)
    : Checks (RegisteredProject * Task * DomainMutation) :=
  let? _ := claimReplay command (operationContext identity) (Some identity) st in
  let? (entry, task) := bindingFor identity st (claimProjectId command)
    (claimResourceRevision command) (claimConfigRevision command) (claimTaskId command) in
  guard? sameProject entry preflightProject
    else failed ExecutionError.PROJECT_IDENTITY_CHANGED
           "Project identity changed after trusted preflight" (Some identity) in
  let? _ := claimEligible command identity "Task revision changed after preflight" st task in
  match claimTransition st task with
  | Ok transition => Ok (entry, task, DomainModel.value transition)
  | Err e =>
      match code e with
      | ErrorCode.PROJECT_DISABLED =>
          Err (failed ExecutionError.PROJECT_DISABLED
                 "Disabled Project cannot offer an execution claim" (Some identity))
      | _ =>
          Err (failed ExecutionError.TASK_NOT_ELIGIBLE
                 "Task is not domain-eligible for execution claim" (Some identity))
      end
  end.

Definition claimedAttempt (command : ExecutionClaimCommand) (identity : ExecutionOperationIdentity)
    (execution : JsString) (entry : RegisteredProject) (expiry : JsString) : ExecutionAttempt :=
  {| attemptId := execution; attemptTaskId := claimTaskId command; attemptNumber := 1;
     operationKind := op_claim; status := active; idempotencyKey := claimIdempotencyKey command;
     ownerId := operationOwner identity; requestedLeaseSeconds := claimLeaseSeconds command;
     predecessorExecutionRevision := None; predecessorLeaseRevision := None;
     predecessorFencingToken := None; leaseRevision := 1; leaseExpiresAt := expiry;
     fencingToken := 1; attemptRevision := 1; expectedTaskRevision := claimTaskRevision command;
     preTaskRevision := claimTaskRevision command;
     postTaskRevision := claimTaskRevision command + 1;
     attemptResourceRevision := resourceRevision entry; attemptConfigRevision := configRevision entry;
     attemptRequestId := operationRequestId identity;
     attemptDecisionId := operationDecisionId identity; supersedesExecutionId := None;
     supersededByExecutionId := None; createdAt := operationNow identity;
     updatedAt := operationNow identity |}.

(** [leaseExpiry] inside the transaction: a [RangeError] rolls it back. *)
Definition expiryOrThrow (now : JsString) (seconds : Z) : Tx JsString :=
  match leaseExpiry now seconds with Some expiry => txRet expiry | None => txThrow (OtherFault false) end.

Definition claimReadback (command : ExecutionClaimCommand) (execution : JsString)
    (readback : ApplicationState) : option ExecutionAttempt :=
  claimed ← findBy attemptId execution (executions readback);
  task ← stateTaskById readback (claimTaskId command);
  if bool_decide (state task = running) && (revision task =? claimTaskRevision command + 1)
  then Some claimed else None.

Definition claimTransaction (command : ExecutionClaimCommand) (identity : ExecutionOperationIdentity)
    (execution : JsString) (preflightProject : RegisteredProject) : Tx ExecutionResult :=
  let action := "execution.claim" in
  do! st <- read in
  match claimChecks command identity preflightProject st with
  | Err result => txRet result
  | Ok (entry, task, mutation) =>
      let evaluated := authorization st identity action entry (executionPolicy st entry action) in
      if negb (allowed evaluated) then recordDenied identity action execution 1 entry evaluated else
      run! persistAuthorization identity action execution 1 entry evaluated in
      run! insertExecutionSequence {| sequenceTaskId := claimTaskId command; lastAttemptNumber := 1;
                                      currentFencingToken := 1; sequenceRevision := 1 |} in
      do! expiry <- expiryOrThrow (operationNow identity) (claimLeaseSeconds command) in
      run! insertExecutionAttempt (claimedAttempt command identity execution entry expiry) in
      do! _ <- writeDomain (domain st) mutation in
      run! persistAudit identity action execution 1 evaluated in
      do! readback <- read in
      match claimReadback command execution readback with
      | Some claimed => txRet (succeeded (view claimed (operationNow identity))
                                 (operationRequestId identity) (operationCorrelationId identity))
      | None => txThrow readbackFault
      end
  end.

Record ClaimPlan : Type := {
  planCommand : ExecutionClaimCommand;
  planIdentity : ExecutionOperationIdentity;
  planExecution : JsString;
  planProject : RegisteredProject;
}.

Definition claimPreflight (value : JsValue) (db : ApplicationState) : Checks ClaimPlan :=
  let? command := ok_or (parseClaim value)
    (failed ExecutionError.INVALID_INPUT "Execution claim input is invalid" None) in
  let? context := ok_or trustedContext
    (failed ExecutionError.INVALID_INPUT "Trusted execution claim ingress is invalid" None) in
  let? preflight := readPreflight None db in
  let? _ := claimReplay command context None preflight in
  let identityOption := operationIdentity context in
  let unobtained := failed ExecutionError.INVALID_INPUT
                      "Trusted execution identities could not be obtained" identityOption in
  let? identity := ok_or identityOption unobtained in
  let? execution := ok_or nextExecutionId unobtained in
  let? (entry, task) := bindingFor identity preflight (claimProjectId command)
    (claimResourceRevision command) (claimConfigRevision command) (claimTaskId command) in
  let? _ := claimEligible command identity "Task revision is stale" preflight task in
  let? _ := validateRuntimeAndActor preflight identity in
  let? _ := revalidateProject entry identity in
  Ok {| planCommand := command; planIdentity := identity; planExecution := execution;
        planProject := entry |}.

Definition claim (value : JsValue) (db : ApplicationState) : ExecutionResult * ApplicationState :=
  match claimPreflight value db with
  | Err result => (result, db)
  | Ok plan => transact (planIdentity plan)
      (claimTransaction (planCommand plan) (planIdentity plan) (planExecution plan) (planProject plan)) db
  end.

(** *** inspect *)

(** [context === null ? null : operationIdentity(context, ingress)] *)
Definition trustedIdentity : option ExecutionOperationIdentity :=
  context ← trustedContext; operationIdentity context.

Definition findAttempt (st : ApplicationState) (execution : JsString)
    (identity : ExecutionOperationIdentity) (missing : string) : Checks ExecutionAttempt :=
  ok_or (findBy attemptId execution (executions st))
    (failed ExecutionError.EXECUTION_NOT_FOUND missing (Some identity)).

Definition inspectChecks (command : ExecutionInspectCommand) (identity : ExecutionOperationIdentity)
    (preflightProject : option RegisteredProject) (staleMessage : string) (st : ApplicationState)
    : Checks (RegisteredProject * ExecutionAttempt) :=
  let? attempt := findAttempt st (inspectExecutionId command) identity
                    "Execution attempt is not registered" in
  let? (entry, task) := bindingFor identity st (inspectProjectId command)
    (inspectResourceRevision command) (inspectConfigRevision command) (attemptTaskId attempt) in
  guard? match preflightProject with Some other => sameProject entry other | None => true end
    else failed ExecutionError.PROJECT_IDENTITY_CHANGED
           "Project identity changed after trusted preflight" (Some identity) in
  guard? (attemptRevision attempt =? inspectExecutionRevision command) &&
         (revision task =? inspectTaskRevision command)
    else failed ExecutionError.STALE_REVISION staleMessage (Some identity) in
  Ok (entry, attempt).

Definition inspectTransaction (command : ExecutionInspectCommand)
    (identity : ExecutionOperationIdentity) (preflightProject : RegisteredProject)
    : Tx ExecutionResult :=
  let action := "execution.claim.inspect" in
  do! st <- read in
  match inspectChecks command identity (Some preflightProject)
          "Execution or Task revision changed after preflight" st with
  | Err result => txRet result
  | Ok (entry, attempt) =>
      let evaluated := authorization st identity action entry (executionPolicy st entry action) in
      if negb (allowed evaluated)
      then recordDenied identity action (attemptId attempt) (attemptRevision attempt) entry evaluated
      else
      run! persistAuthorization identity action (attemptId attempt) (attemptRevision attempt) entry
             evaluated in
      run! persistAudit identity action (attemptId attempt) (attemptRevision attempt) evaluated in
      do! readback <- read in
      match findBy attemptId (attemptId attempt) (executions readback) with
      | Some found => txRet (succeeded (view found (operationNow identity))
                               (operationRequestId identity) (operationCorrelationId identity))
      | None => txThrow readbackFault
      end
  end.

Definition inspectPreflight (value : JsValue) (db : ApplicationState)
    : Checks (ExecutionInspectCommand * ExecutionOperationIdentity * RegisteredProject) :=
  let? command := ok_or (parseInspect value)
    (failed ExecutionError.INVALID_INPUT "Execution inspection input is invalid" None) in
  let? identity := ok_or trustedIdentity
    (failed ExecutionError.INVALID_INPUT "Trusted execution inspection ingress is invalid" None) in
  let? preflight := readPreflight (Some identity) db in
  let? (entry, _) := inspectChecks command identity None "Execution or Task revision is stale"
                       preflight in
  let? _ := validateRuntimeAndActor preflight identity in
  let? _ := revalidateProject entry identity in
  Ok (command, identity, entry).

Definition inspect (value : JsValue) (db : ApplicationState) : ExecutionResult * ApplicationState :=
  match inspectPreflight value db with
  | Err result => (result, db)
  | Ok (command, identity, entry) =>
      transact identity (inspectTransaction command identity entry) db
  end.

(** *** renew *)

Definition renewFenceMatches (command : ExecutionLeaseRenewCommand) (attempt : ExecutionAttempt)
    (task : Task) : bool :=
  (attemptRevision attempt =? renewExecutionRevision command) &&
  (leaseRevision attempt =? renewLeaseRevision command) &&
  (fencingToken attempt =? renewFencingToken command) &&
  (revision task =? renewTaskRevision command).

Definition renewLeaseHeld (identity : ExecutionOperationIdentity) (attempt : ExecutionAttempt) : bool :=
  isActive attempt && js_eqb (ownerId attempt) (operationOwner identity) &&
  js_ltb (operationNow identity) (leaseExpiresAt attempt) &&
  js_ltb (updatedAt attempt) (operationNow identity).

Definition renewTransaction (command : ExecutionLeaseRenewCommand)
    (identity : ExecutionOperationIdentity) (preflightProject : RegisteredProject)
    (newExpiry : JsString) : Tx ExecutionResult :=
  let action := "execution.lease.renew" in
  do! st <- read in
  match
    (let? attempt := findAttempt st (renewExecutionId command) identity
                       "Execution attempt is not registered" in
     let? (entry, task) := bindingFor identity st (renewProjectId command)
       (renewResourceRevision command) (renewConfigRevision command) (attemptTaskId attempt) in
     guard? sameProject entry preflightProject
       else failed ExecutionError.PROJECT_IDENTITY_CHANGED
              "Project identity changed after trusted preflight" (Some identity) in
     guard? renewFenceMatches command attempt task && renewLeaseHeld identity attempt &&
            js_ltb (leaseExpiresAt attempt) newExpiry
       else failed ExecutionError.STALE_FENCE
              "Execution lease CAS, owner, Task revision, or fence changed after preflight"
              (Some identity) in
     Ok (entry, attempt))
  with
  | Err result => txRet result
  | Ok (entry, attempt) =>
      let evaluated := authorization st identity action entry (executionPolicy st entry action) in
      if negb (allowed evaluated)
      then recordDenied identity action (attemptId attempt) (attemptRevision attempt) entry evaluated
      else
      run! persistAuthorization identity action (attemptId attempt) (attemptRevision attempt) entry
             evaluated in
      run! renewExecutionLease (attemptId attempt) (operationOwner identity)
             (renewExecutionRevision command) (renewLeaseRevision command)
             (renewFencingToken command) (renewTaskRevision command) (operationNow identity)
             newExpiry in
      run! persistAudit identity action (attemptId attempt) (attemptRevision attempt) evaluated in
      do! readback <- read in
      match findBy attemptId (attemptId attempt) (executions readback) with
      | Some found =>
          if (attemptRevision found =? attemptRevision attempt + 1) &&
             (leaseRevision found =? leaseRevision attempt + 1) &&
             (fencingToken found =? fencingToken attempt) && isActive found
          then txRet (succeeded (view found (operationNow identity))
                        (operationRequestId identity) (operationCorrelationId identity))
          else txThrow readbackFault
      | None => txThrow readbackFault
      end
  end.

Record RenewPlan : Type := {
  renewCommand : ExecutionLeaseRenewCommand;
  renewIdentity : ExecutionOperationIdentity;
  renewProject : RegisteredProject;
  renewExpiry : JsString;
}.

(** The checks up to the computation of the new expiry. *)
Definition renewHeld (value : JsValue) (db : ApplicationState)
    : Checks (ExecutionLeaseRenewCommand * ExecutionOperationIdentity * ApplicationState *
              ExecutionAttempt * RegisteredProject) :=
  let? command := ok_or (parseRenew value)
    (failed ExecutionError.INVALID_INPUT "Execution lease renewal input is invalid" None) in
  let? identity := ok_or trustedIdentity
    (failed ExecutionError.INVALID_INPUT "Trusted execution lease renewal ingress is invalid" None) in
  let? preflight := readPreflight (Some identity) db in
  let? attempt := findAttempt preflight (renewExecutionId command) identity
                    "Execution attempt is not registered" in
  let? (entry, task) := bindingFor identity preflight (renewProjectId command)
    (renewResourceRevision command) (renewConfigRevision command) (attemptTaskId attempt) in
  guard? renewFenceMatches command attempt task
    else failed ExecutionError.STALE_FENCE "Execution lease, Task revision, or fence is stale"
           (Some identity) in
  guard? renewLeaseHeld identity attempt
    else failed ExecutionError.STALE_FENCE
           "Execution lease is expired, superseded, or not owned by the caller" (Some identity) in
  Ok (command, identity, preflight, attempt, entry).

(** [None]: [leaseExpiry] throws a [RangeError], outside any [try]. *)
Definition renewPreflight (value : JsValue) (db : ApplicationState) : option (Checks RenewPlan) :=
  match renewHeld value db with
  | Err result => Some (Err result)
  | Ok (command, identity, preflight, attempt, entry) =>
      newExpiry ← leaseExpiry (operationNow identity) (renewLeaseSeconds command);
      Some (
        guard? js_ltb (leaseExpiresAt attempt) newExpiry
          else failed ExecutionError.LEASE_NOT_RENEWABLE
                 "Requested lease would not move expiry forward" (Some identity) in
        let? _ := validateRuntimeAndActor preflight identity in
        let? _ := revalidateProject entry identity in
        Ok {| renewCommand := command; renewIdentity := identity; renewProject := entry;
              renewExpiry := newExpiry |})
  end.

(** [None] is the exception that leaves [renew]. *)
Definition renew (value : JsValue) (db : ApplicationState) : option ExecutionResult * ApplicationState :=
  match renewPreflight value db with
  | None => (None, db)
  | Some (Err result) => (Some result, db)
  | Some (Ok plan) =>
      let '(result, db') := transact (renewIdentity plan)
        (renewTransaction (renewCommand plan) (renewIdentity plan) (renewProject plan)
           (renewExpiry plan)) db in
      (Some result, db')
  end.

(** *** takeover *)

Definition takeoverReplay (command : ExecutionTakeoverCommand) (context : TrustedExecutionContext)
    (identity : option ExecutionOperationIdentity) (st : ApplicationState) : Checks unit :=
  match findBy idempotencyKey (takeoverIdempotencyKey command) (executions st) with
  | None => Ok tt
  | Some replayed =>
      Err (replayOrConflict st replayed
             (takeoverTupleMatches st replayed command (contextOwnerId context)) context identity)
  end.

(** The revisions, lease and fence the command names are the predecessor's, and
    the predecessor is the last attempt of its task's sequence. *)
Definition takeoverFenceMatches (command : ExecutionTakeoverCommand) (attempt : ExecutionAttempt)
    (task : Task) (sequence : option TaskExecutionSequence) : bool :=
  (attemptRevision attempt =? takeoverExecutionRevision command) &&
  (leaseRevision attempt =? takeoverLeaseRevision command) &&
  (fencingToken attempt =? takeoverFencingToken command) &&
  (revision task =? takeoverTaskRevision command) &&
  match sequence with
  | Some s => (lastAttemptNumber s =? attemptNumber attempt) &&
              (currentFencingToken s =? fencingToken attempt) &&
              (sequenceRevision s =? attemptNumber attempt)
  | None => false
  end.

Definition sequenceOf (st : ApplicationState) (taskId : JsString) : option TaskExecutionSequence :=
  findBy sequenceTaskId taskId (executionSequences st).

Definition leaseReleased (identity : ExecutionOperationIdentity) (st : ApplicationState)
    (attempt : ExecutionAttempt) : Checks unit :=
  guard? js_leb (leaseExpiresAt attempt) (operationNow identity)
    else failed ExecutionError.LEASE_NOT_EXPIRED "Predecessor execution lease has not expired"
           (Some identity) in
  guard? negb (requiresReliabilityReconciliation st (attemptId attempt))
    else failed ExecutionError.RECONCILIATION_REQUIRED
           "Effect-capable execution state must reconcile before takeover" (Some identity) in
  Ok tt.

Definition takeoverChecks (command : ExecutionTakeoverCommand) (identity : ExecutionOperationIdentity)
    (preflightProject : RegisteredProject) (st : ApplicationState)
    : Checks (RegisteredProject * ExecutionAttempt * TaskExecutionSequence) :=
  let? _ := takeoverReplay command (operationContext identity) (Some identity) st in
  let? attempt := findAttempt st (takeoverPredecessorId command) identity
                    "Predecessor execution attempt is not registered" in
  let? (entry, task) := bindingFor identity st (takeoverProjectId command)
    (takeoverResourceRevision command) (takeoverConfigRevision command) (takeoverTaskId command) in
  guard? sameProject entry preflightProject
    else failed ExecutionError.PROJECT_IDENTITY_CHANGED
           "Project identity changed after trusted preflight" (Some identity) in
  let staleFence := failed ExecutionError.STALE_FENCE
    "Predecessor execution, Task, sequence, or fence changed after preflight" (Some identity) in
  guard? js_eqb (attemptTaskId attempt) (takeoverTaskId command) &&
         takeoverFenceMatches command attempt task (sequenceOf st (takeoverTaskId command)) &&
         bool_decide (state task = running) && isActive attempt
    else staleFence in
  let? sequence := ok_or (sequenceOf st (takeoverTaskId command)) staleFence in
  let? _ := leaseReleased identity st attempt in
  Ok (entry, attempt, sequence).

Definition takeoverAttempt (command : ExecutionTakeoverCommand) (identity : ExecutionOperationIdentity)
    (execution : JsString) (entry : RegisteredProject) (predecessor : ExecutionAttempt)
    (advanced : TaskExecutionSequence) (expiry : JsString) : ExecutionAttempt :=
  {| attemptId := execution; attemptTaskId := takeoverTaskId command;
     attemptNumber := lastAttemptNumber advanced; operationKind := op_takeover; status := active;
     idempotencyKey := takeoverIdempotencyKey command; ownerId := operationOwner identity;
     requestedLeaseSeconds := takeoverLeaseSeconds command;
     predecessorExecutionRevision := Some (takeoverExecutionRevision command);
     predecessorLeaseRevision := Some (takeoverLeaseRevision command);
     predecessorFencingToken := Some (takeoverFencingToken command); leaseRevision := 1;
     leaseExpiresAt := expiry; fencingToken := currentFencingToken advanced; attemptRevision := 1;
     expectedTaskRevision := takeoverTaskRevision command;
     preTaskRevision := takeoverTaskRevision command;
     postTaskRevision := takeoverTaskRevision command;
     attemptResourceRevision := resourceRevision entry; attemptConfigRevision := configRevision entry;
     attemptRequestId := operationRequestId identity;
     attemptDecisionId := operationDecisionId identity;
     supersedesExecutionId := Some (attemptId predecessor); supersededByExecutionId := None;
     createdAt := operationNow identity; updatedAt := operationNow identity |}.

Definition takeoverReadback (command : ExecutionTakeoverCommand) (execution : JsString)
    (predecessor : ExecutionAttempt) (readback : ApplicationState) : option ExecutionAttempt :=
  replacement ← findBy attemptId execution (executions readback);
  old ← findBy attemptId (attemptId predecessor) (executions readback);
  terminalSequence ← sequenceOf readback (takeoverTaskId command);
  if isActive replacement && (fencingToken replacement =? fencingToken predecessor + 1) &&
     bool_decide (status old = superseded) &&
     bool_decide (supersededByExecutionId old = Some execution) &&
     (currentFencingToken terminalSequence =? fencingToken replacement)
  then Some replacement else None.

Definition takeoverTransaction (command : ExecutionTakeoverCommand)
    (identity : ExecutionOperationIdentity) (execution : JsString)
    (preflightProject : RegisteredProject) : Tx ExecutionResult :=
  let action := "execution.lease.takeover" in
  do! st <- read in
  match takeoverChecks command identity preflightProject st with
  | Err result => txRet result
  | Ok (entry, attempt, sequence) =>
      let evaluated := authorization st identity action entry (executionPolicy st entry action) in
      if negb (allowed evaluated) then recordDenied identity action execution 1 entry evaluated else
      run! persistAuthorization identity action execution 1 entry evaluated in
      do! advanced <- advanceExecutionSequence (takeoverTaskId command) (lastAttemptNumber sequence)
                        (currentFencingToken sequence) (sequenceRevision sequence) in
      run! supersedeExecutionAttempt (attemptId attempt) execution (ownerId attempt)
             (takeoverExecutionRevision command) (takeoverLeaseRevision command)
             (takeoverFencingToken command) (takeoverTaskRevision command)
             (operationNow identity) in
      do! expiry <- expiryOrThrow (operationNow identity) (takeoverLeaseSeconds command) in
      run! insertExecutionAttempt
             (takeoverAttempt command identity execution entry attempt advanced expiry) in
      run! persistAudit identity action execution 1 evaluated in
      do! readback <- read in
      match takeoverReadback command execution attempt readback with
      | Some replacement => txRet (succeeded (view replacement (operationNow identity))
                                     (operationRequestId identity) (operationCorrelationId identity))
      | None => txThrow readbackFault
      end
  end.

Record TakeoverPlan : Type := {
  takeoverCommand : ExecutionTakeoverCommand;
  takeoverIdentity : ExecutionOperationIdentity;
  takeoverExecution : JsString;
  takeoverProject : RegisteredProject;
}.

Definition takeoverPreflight (value : JsValue) (db : ApplicationState) : Checks TakeoverPlan :=
  let? command := ok_or (parseTakeover value)
    (failed ExecutionError.INVALID_INPUT "Execution takeover input is invalid" None) in
  let? context := ok_or trustedContext
    (failed ExecutionError.INVALID_INPUT "Trusted execution takeover ingress is invalid" None) in
  let? preflight := readPreflight None db in
  let? _ := takeoverReplay command context None preflight in
  let identityOption := operationIdentity context in
  let unobtained := failed ExecutionError.INVALID_INPUT
                      "Trusted takeover identities could not be obtained" identityOption in
  let? identity := ok_or identityOption unobtained in
  let? execution := ok_or nextExecutionId unobtained in
  let? predecessor := findAttempt preflight (takeoverPredecessorId command) identity
                        "Predecessor execution attempt is not registered" in
  guard? js_eqb (attemptTaskId predecessor) (takeoverTaskId command)
    else failed ExecutionError.STALE_REVISION "Predecessor Task binding is stale" (Some identity) in
  let? (entry, task) := bindingFor identity preflight (takeoverProjectId command)
    (takeoverResourceRevision command) (takeoverConfigRevision command) (takeoverTaskId command) in
  guard? takeoverFenceMatches command predecessor task (sequenceOf preflight (takeoverTaskId command))
    else failed ExecutionError.STALE_FENCE
           "Predecessor execution, Task revision, sequence, or fence is stale" (Some identity) in
  guard? isActive predecessor
    else failed ExecutionError.STALE_FENCE "Predecessor execution is no longer active"
           (Some identity) in
  let? _ := leaseReleased identity preflight predecessor in
  guard? bool_decide (state task = running)
    else failed ExecutionError.TASK_NOT_ELIGIBLE "Only a running Task can be taken over"
           (Some identity) in
  let? _ := validateRuntimeAndActor preflight identity in
  let? _ := revalidateProject entry identity in
  Ok {| takeoverCommand := command; takeoverIdentity := identity; takeoverExecution := execution;
        takeoverProject := entry |}.

Definition takeover (value : JsValue) (db : ApplicationState) : ExecutionResult * ApplicationState :=
  match takeoverPreflight value db with
  | Err result => (result, db)
  | Ok plan => transact (takeoverIdentity plan)
      (takeoverTransaction (takeoverCommand plan) (takeoverIdentity plan) (takeoverExecution plan)
         (takeoverProject plan)) db
  end.
End operations.
