(* ===== verification/ExecutionLemmas.v ===== *)
(** * Lemmas on the execution application

    What each statement, each transaction and each operation does to the
    database when it succeeds, and what the validation of the lineage says
    about the leases of a task. *)

From S2P Require Import Prelude JsValue UnicodeText DomainModel DomainParse DomainGraph DomainSnapshot DomainCommands DomainTransition Timestamp Authorization PersistenceModel ProjectRegistry PersistenceReaders PersistenceTransaction ExecutionApplication.

(** ** Lookups *)

Lemma findBy_ok {A} (key : A → JsString) k rows row :
  findBy key k rows = Some row → row ∈ rows ∧ key row = k.
Proof. intros [Hin Hk]%find_Some_iff. by apply bool_decide_eq_true in Hk. Qed.

Lemma findBy_none {A} (key : A → JsString) k rows :
  findBy key k rows = None ↔ k ∉ map key rows.
Proof.
  unfold findBy. rewrite find_None_iff. split.
  - intros Hn (row & -> & Hin)%list_elem_of_fmap. specialize (Hn row Hin).
    by apply bool_decide_eq_false in Hn.
  - intros Hn row Hin. apply bool_decide_eq_false. intros <-. apply Hn.
    by apply list_elem_of_fmap_2.
Qed.

Lemma findBy_unique {A} (key : A → JsString) rows row :
  NoDup (map key rows) → row ∈ rows → findBy key (key row) rows = Some row.
Proof. apply find_key_unique. Qed.

Lemma isUnique_ok {A} (key : A → JsString) rows row :
  isUnique key rows row = true ↔ key row ∉ map key rows.
Proof.
  unfold isUnique. rewrite negb_true_iff, existsb_false. split.
  - intros Hn (other & Heq & Hin)%list_elem_of_fmap. specialize (Hn other Hin).
    apply bool_decide_eq_false in Hn. congruence.
  - intros Hn other Hin. apply bool_decide_eq_false. intros Heq. apply Hn. rewrite <-Heq.
    by apply list_elem_of_fmap_2.
Qed.

Lemma filter_singleton_elem {A} (f : A → bool) l x : List.filter f l = [x] → x ∈ l ∧ f x = true.
Proof.
  intros Hf. assert (In x (List.filter f l)) as Hin by (rewrite Hf; by left).
  apply filter_In in Hin as [? ?]. split; [by apply list_elem_of_In|done].
Qed.

(** ** Transaction steps *)

Lemma require_ok condition e db u db' :
  require condition e db = Ok (u, db') ↔ condition = true ∧ u = tt ∧ db' = db.
Proof. unfold require, txRet, txThrow. destruct condition, u; naive_solver. Qed.

Lemma fromResult_ok {A} (r : Result Fault A) db a db' :
  fromResult r db = Ok (a, db') ↔ r = Ok a ∧ db' = db.
Proof. unfold fromResult, txRet, txThrow. destruct r; naive_solver. Qed.

(** The rows after an update, and the row an update by a unique key changes. *)
Lemma updateWhere_one {A} (condition : A → bool) set rows rows' :
  updateWhere condition set rows = (rows', 1%nat) →
  rows' = map (λ row, if condition row then set row else row) rows ∧
  ∃ row, List.filter condition rows = [row].
Proof.
  unfold updateWhere. intros [= <- Hl]. split; [done|].
  destruct (List.filter condition rows) as [|row [|? ?]]; try done. by exists row.
Qed.

Section steps.
Context `{UnicodeNormalization} `{StateValidation} `{Sqlite}.

Lemma statement_ok table db u db' :
  statement table db = Ok (u, db') → u = tt ∧ db' = db.
Proof. unfold statement, txRet, txThrow. destruct (statementFault table), u; naive_solver. Qed.

Lemma read_ok db st db' : read db = Ok (st, db') ↔ reads db st ∧ db' = db.
Proof. unfold read, reads. destruct (readApplicationStateUntransactional db); naive_solver. Qed.
End steps.

(** Take apart a transaction that returned. *)
Ltac inv_tx :=
  repeat match goal with
  | H : txBind _ _ _ = Ok (_, _) |- _ => apply txBind_ok in H as (? & ? & ? & H)
  | H : txRet _ _ = Ok (_, _) |- _ => unfold txRet in H; injection H as ? ?
  | H : txThrow _ _ = Ok _ |- _ => discriminate H
  | H : query _ _ = Ok (_, _) |- _ => unfold query in H; injection H as ? ?
  | H : modify _ _ = Ok (_, _) |- _ => unfold modify in H; injection H as ? ?
  | H : statement _ _ = Ok (_, _) |- _ => apply statement_ok in H as [? ?]
  | H : require _ _ _ = Ok (_, _) |- _ => apply require_ok in H as (? & ? & ?)
  | H : fromResult _ _ = Ok (_, _) |- _ => apply fromResult_ok in H as [? ?]
  | H : read _ = Ok (_, _) |- _ => apply read_ok in H as [? ?]
  | H : (let '(_, _) := ?p in _) _ = Ok (_, _) |- _ => destruct p eqn:?
  | u : () |- _ => destruct u
  end; subst.

Section statements.
Context `{UnicodeNormalization} `{StateValidation} `{Sqlite}.

Lemma insertRequest_ok record db u db' : insertRequest record db = Ok (u, db') →
  (requestId record ∉ map requestId (requests db)) ∧
  db' = setJournal (requests db ++ [record]) (decisions db) (audit db) db.
Proof. unfold insertRequest. intros Ht. inv_tx. split; [by apply isUnique_ok|done]. Qed.

Lemma insertDecision_ok record db u db' : insertDecision record db = Ok (u, db') →
  db' = setJournal (requests db) (decisions db ++ [record]) (audit db) db.
Proof. unfold insertDecision. intros Ht. by inv_tx. Qed.

Lemma insertAudit_ok record db u db' : insertAudit record db = Ok (u, db') →
  db' = setJournal (requests db) (decisions db) (audit db ++ [record]) db.
Proof. unfold insertAudit. intros Ht. by inv_tx. Qed.

Lemma insertExecutionSequence_ok record db u db' : insertExecutionSequence record db = Ok (u, db') →
  (sequenceTaskId record ∉ map sequenceTaskId (executionSequences db)) ∧
  db' = setLeases (executionSequences db ++ [record]) (executions db) db.
Proof.
  unfold insertExecutionSequence. intros Ht. inv_tx. inv_bool. split; [by apply isUnique_ok|done].
Qed.

Lemma insertExecutionAttempt_ok record db u db' : insertExecutionAttempt record db = Ok (u, db') →
  existsb (attemptsConflict record) (executions db) = false ∧
  db' = setLeases (executionSequences db) (executions db ++ [record]) db.
Proof. unfold insertExecutionAttempt. intros Ht. inv_tx. inv_bool. done. Qed.

Lemma updateAttempts_ok condition guard set db u db' :
  updateAttempts condition guard set db = Ok (u, db') →
  ∃ row, List.filter condition (executions db) = [row] ∧ guard row = true ∧
    db' = setLeases (executionSequences db)
            (map (λ a, if condition a then set a else a) (executions db)) db.
Proof.
  unfold updateAttempts. intros Ht. inv_tx.
  match goal with Hu : updateWhere _ _ _ = (_, ?n), Hn : (?n =? 1)%nat = true |- _ =>
    apply Nat.eqb_eq in Hn; subst n; apply updateWhere_one in Hu as (-> & row & Hf) end.
  exists row. split; [done|]. rewrite Hf in *. simpl in *. inv_bool. done.
Qed.
End statements.

Lemma writeDomain_ok `{UnicodeNormalization} `{StateValidation} `{Sqlite} expected mutation db s db' :
  writeDomain expected mutation db = Ok (s, db') →
  validateCallerSnapshot (snapshot mutation) = Ok s ∧
  ∃ rows, db' = setDomain {| projects := projects (domain db); tasks := rows |} db ∧
    readDomainSnapshotUntransactional db' = Ok s.
Proof.
  unfold writeDomain. intros Ht.
  destruct (writeDomainMutationUntransactional _ _ _) as [[s0 db0]|] eqn:Hw in Ht; [|done].
  injection Ht as -> ->. unfold writeDomainMutationUntransactional in Hw. inv_tx.
  match goal with Hm : parseMutation _ = Ok _ |- _ =>
    unfold parseMutation in Hm; apply guard_ok in Hm as [_ Hm]; apply guard_ok in Hm as [_ Hm];
    apply result_bind_ok in Hm as (next & Hnext & Hm); injection Hm as <- end.
  simpl in *. inv_bool. subst. split; [done|]. eexists. split; [reflexivity|].
  match goal with Hr : readDomainSnapshotUntransactional _ = Ok ?r |- _ => rewrite Hr end.
  inv_bool. congruence.
Qed.
