(* ===== verification/ExecutionSpec.v ===== *)
(** * The lease machine

    An abstract machine over the persisted state: which changes to the leases
    are possible, under which conditions, and what they record.  The
    operations of [ExecutionApplication] refine it
    ([ExecutionRefinement]); the safety properties are proved of it. *)

From S2P Require Import Prelude JsValue UnicodeText DomainModel DomainParse DomainGraph DomainCommands DomainTransition Timestamp Authorization PersistenceModel ProjectRegistry PersistenceReaders PersistenceTransaction ExecutionApplication.

Section spec.
Context `{UnicodeNormalization}.

(** The three records of an operation. *)
Definition journal (identity : ExecutionOperationIdentity) (action : string) (execution : JsString)
    (executionRevision : Z) (entry : RegisteredProject) (evaluated : AuthorizationEvaluation)
    (st : ApplicationState) : ApplicationState :=
  setJournal
    (requests st ++ [requestRecord identity action execution executionRevision
                       (if allowed evaluated then "allow" else "deny")])
    (decisions st ++ [decisionRecord identity action evaluated entry])
    (audit st ++ [auditRecord identity action execution executionRevision evaluated]) st.

(** The authorization the operation asks for. *)
Definition evaluatedFor (st : ApplicationState) (identity : ExecutionOperationIdentity)
    (action : string) (entry : RegisteredProject) : AuthorizationEvaluation :=
  authorization st identity action entry (executionPolicy st entry action).

Definition firstSequence (taskId : JsString) : TaskExecutionSequence :=
  {| sequenceTaskId := taskId; lastAttemptNumber := 1; currentFencingToken := 1;
     sequenceRevision := 1 |}.

(** The row of one execution replaced. *)
Definition putAttempt (a : ExecutionAttempt) (rows : list ExecutionAttempt) : list ExecutionAttempt :=
  map (λ row, if js_eqb (attemptId row) (attemptId a) then a else row) rows.

Definition putSequence (s : TaskExecutionSequence) (rows : list TaskExecutionSequence)
    : list TaskExecutionSequence :=
  map (λ row, if js_eqb (sequenceTaskId row) (sequenceTaskId s) then s else row) rows.

(** The project and the task an operation is bound to. *)
Record boundTo (st : ApplicationState) (boundProject : JsString) (resource config : Z)
    (taskId : JsString) (entry : RegisteredProject) (task : Task) : Prop := {
  bt_entry : entry ∈ registered st ∧ registeredId entry = boundProject;
  bt_revisions : resourceRevision entry = resource ∧ configRevision entry = config;
  bt_task : task ∈ tasks (domain st) ∧ id task = taskId;
  bt_project : taskProjectId task = boundProject;
}.

(** What an operation was asked to do, and the action it needs a grant for. *)
Inductive ExecutionCommand : Type :=
  | CommandClaim (command : ExecutionClaimCommand)
  | CommandInspect (command : ExecutionInspectCommand)
  | CommandRenew (command : ExecutionLeaseRenewCommand)
  | CommandTakeover (command : ExecutionTakeoverCommand).

Definition requestedAction (asked : ExecutionCommand) : string :=
  match asked with
  | CommandClaim _ => "execution.claim"
  | CommandInspect _ => "execution.claim.inspect"
  | CommandRenew _ => "execution.lease.renew"
  | CommandTakeover _ => "execution.lease.takeover"
  end.

(** The registered project and the task a command is about, in a state: the
    project and revisions it names, and the task it names or whose execution it
    names, which belongs to that project. *)
Definition actsOn (st : ApplicationState) (asked : ExecutionCommand) (entry : RegisteredProject)
    (task : Task) : Prop :=
  match asked with
  | CommandClaim command =>
      boundTo st (claimProjectId command) (claimResourceRevision command)
        (claimConfigRevision command) (claimTaskId command) entry task
  | CommandInspect command =>
      ∃ attempt, attempt ∈ executions st ∧ attemptId attempt = inspectExecutionId command ∧
        boundTo st (inspectProjectId command) (inspectResourceRevision command)
          (inspectConfigRevision command) (attemptTaskId attempt) entry task
  | CommandRenew command =>
      ∃ attempt, attempt ∈ executions st ∧ attemptId attempt = renewExecutionId command ∧
        boundTo st (renewProjectId command) (renewResourceRevision command)
          (renewConfigRevision command) (attemptTaskId attempt) entry task
  | CommandTakeover command =>
      boundTo st (takeoverProjectId command) (takeoverResourceRevision command)
        (takeoverConfigRevision command) (takeoverTaskId command) entry task
  end.

(** The identifier of the operation names no earlier request. *)
Definition newRequest (st : ApplicationState) (identity : ExecutionOperationIdentity) : Prop :=
  operationRequestId identity ∉ map requestId (requests st).

Inductive LeaseEvent : Type :=
  | Unchanged
  | Denied
  | Inspected (attempt : ExecutionAttempt)
  | Claimed (attempt : ExecutionAttempt)
  | Renewed (attempt : ExecutionAttempt) (newExpiry : JsString)
  | TakenOver (predecessor attempt : ExecutionAttempt).

(** [leaseStep identity asked st event st'] *)
Inductive leaseStep (identity : ExecutionOperationIdentity) (asked : ExecutionCommand)
    (st : ApplicationState) : LeaseEvent → ApplicationState → Prop :=
  | step_unchanged : leaseStep identity asked st Unchanged st
  | step_denied execution n entry task :
      let evaluated := evaluatedFor st identity (requestedAction asked) entry in
      newRequest st identity → actsOn st asked entry task → allowed evaluated = false →
      leaseStep identity asked st Denied
        (journal identity (requestedAction asked) execution n entry evaluated st)
  | step_inspected command entry task attempt :
      let evaluated := evaluatedFor st identity "execution.claim.inspect" entry in
      asked = CommandInspect command → newRequest st identity →
      attempt ∈ executions st → attemptId attempt = inspectExecutionId command →
      boundTo st (inspectProjectId command) (inspectResourceRevision command)
        (inspectConfigRevision command) (attemptTaskId attempt) entry task →
      attemptRevision attempt = inspectExecutionRevision command →
      revision task = inspectTaskRevision command → allowed evaluated = true →
      leaseStep identity asked st (Inspected attempt)
        (journal identity "execution.claim.inspect" (attemptId attempt) (attemptRevision attempt)
           entry evaluated st)
  | step_claimed command execution entry task mutation expiry :
      let evaluated := evaluatedFor st identity "execution.claim" entry in
      let attempt := claimedAttempt command identity execution entry expiry in
      asked = CommandClaim command → newRequest st identity →
      execution ∉ map attemptId (executions st) →
      boundTo st (claimProjectId command) (claimResourceRevision command)
        (claimConfigRevision command) (claimTaskId command) entry task →
      revision task = claimTaskRevision command → state task = ready →
      projectEnabled st (claimProjectId command) = true →
      claimTaskId command ∉ map sequenceTaskId (executionSequences st) →
      claimIdempotencyKey command ∉ map idempotencyKey (executions st) →
      claimTransition st task = Ok mutation →
      leaseExpiry (operationNow identity) (claimLeaseSeconds command) = Some expiry →
      allowed evaluated = true →
      leaseStep identity asked st (Claimed attempt)
        (setDomain (snapshot (value mutation))
           (setLeases (executionSequences st ++ [firstSequence (claimTaskId command)])
              (executions st ++ [attempt])
              (journal identity "execution.claim" execution 1 entry evaluated st)))
  | step_renewed command entry task attempt newExpiry :
      let evaluated := evaluatedFor st identity "execution.lease.renew" entry in
      asked = CommandRenew command → newRequest st identity →
      attempt ∈ executions st → attemptId attempt = renewExecutionId command →
      boundTo st (renewProjectId command) (renewResourceRevision command)
        (renewConfigRevision command) (attemptTaskId attempt) entry task →
      renewFenceMatches command attempt task = true →
      postTaskRevision attempt = renewTaskRevision command →
      renewLeaseHeld identity attempt = true →
      leaseExpiry (operationNow identity) (renewLeaseSeconds command) = Some newExpiry →
      js_ltb (leaseExpiresAt attempt) newExpiry = true →
      allowed evaluated = true →
      leaseStep identity asked st (Renewed attempt newExpiry)
        (setLeases (executionSequences st)
           (putAttempt (renewedAttempt (operationNow identity) newExpiry attempt) (executions st))
           (journal identity "execution.lease.renew" (attemptId attempt) (attemptRevision attempt)
              entry evaluated st))
  | step_taken_over command execution entry task predecessor sequence expiry :
      let evaluated := evaluatedFor st identity "execution.lease.takeover" entry in
      let attempt := takeoverAttempt command identity execution entry predecessor
                       (advancedSequence sequence) expiry in
      asked = CommandTakeover command → newRequest st identity →
      predecessor ∈ executions st → attemptId predecessor = takeoverPredecessorId command →
      sequence ∈ executionSequences st →
      sequenceTaskId sequence = attemptTaskId predecessor →
      takeoverTaskId command = attemptTaskId predecessor →
      boundTo st (takeoverProjectId command) (takeoverResourceRevision command)
        (takeoverConfigRevision command) (takeoverTaskId command) entry task →
      takeoverFenceMatches command predecessor task (Some sequence) = true →
      postTaskRevision predecessor = takeoverTaskRevision command →
      state task = running → isActive predecessor = true →
      js_leb (leaseExpiresAt predecessor) (operationNow identity) = true →
      requiresReliabilityReconciliation st (attemptId predecessor) = false →
      execution ∉ map attemptId (executions st) →
      takeoverIdempotencyKey command ∉ map idempotencyKey (executions st) →
      leaseExpiry (operationNow identity) (takeoverLeaseSeconds command) = Some expiry →
      allowed evaluated = true →
      leaseStep identity asked st (TakenOver predecessor attempt)
        (setLeases (putSequence (advancedSequence sequence) (executionSequences st))
           (putAttempt (supersededAttempt execution (operationNow identity) predecessor)
              (executions st) ++ [attempt])
           (journal identity "execution.lease.takeover" execution 1 entry evaluated st)).

(** A result that reports a failure. *)
Definition refusal (result : ExecutionResult) : Prop :=
  ∃ code message request correlation, result = Failed code message request correlation.

(** The recorded execution that answers a command, and the request that made
    it: same idempotency key, same command, same owner and actor. *)
Definition answers (asked : ExecutionCommand) (owner : JsString) (st : ApplicationState)
    (attempt : ExecutionAttempt) : Prop :=
  match asked with
  | CommandClaim command =>
      findBy idempotencyKey (claimIdempotencyKey command) (executions st) = Some attempt ∧
      claimTupleMatches st attempt command owner = true
  | CommandTakeover command =>
      findBy idempotencyKey (takeoverIdempotencyKey command) (executions st) = Some attempt ∧
      takeoverTupleMatches st attempt command owner = true
  | _ => False
  end.

Record recorded (asked : ExecutionCommand) (context : TrustedExecutionContext)
    (st : ApplicationState) (attempt : ExecutionAttempt) (request : ApplicationRequestRecord)
    : Prop := {
  rd_answers : answers asked (contextOwnerId context) st attempt;
  rd_request : findBy requestId (attemptRequestId attempt) (requests st) = Some request;
  rd_actor : requestActorId request = assertedActorId (contextActor context);
}.

(** The answer to a repeated command. *)
Definition replayed (asked : ExecutionCommand) (st : ApplicationState)
    (context : TrustedExecutionContext) (result : ExecutionResult) : Prop :=
  ∃ attempt request, recorded asked context st attempt request ∧
    result = Succeeded (view attempt (contextNow context)) (requestId request) (correlationId request).

(** What the caller is told. *)
Definition reported (identity : ExecutionOperationIdentity) (asked : ExecutionCommand)
    (st : ApplicationState)
    (event : LeaseEvent) (result : ExecutionResult) : Prop :=
  let told attempt := result = Succeeded (view attempt (operationNow identity))
                                 (operationRequestId identity) (operationCorrelationId identity) in
  match event with
  | Unchanged => refusal result ∨ replayed asked st (operationContext identity) result
  | Denied => ∃ message, result =
      failed ExecutionError.AUTHORIZATION_DENIED message (Some identity)
  | Inspected attempt | Claimed attempt | TakenOver _ attempt => told attempt
  | Renewed attempt newExpiry => told (renewedAttempt (operationNow identity) newExpiry attempt)
  end.
End spec.
