(* ===== verification/ExecutionRefinement.v ===== *)
(** * The operations refine the lease machine

    Every committed transaction of the execution application is a step of the
    machine of [ExecutionSpec] between the states read before and after it. *)

From S2P Require Import Prelude JsValue UnicodeText DomainModel DomainParse DomainGraph DomainSnapshot DomainCommands DomainTransition DomainUpdate DomainSpec DomainMoves DomainMachine Timestamp Authorization PersistenceModel ProjectRegistry PersistenceReaders PersistenceTransaction ExecutionApplication ExecutionLemmas ExecutionSpec.

(** ** Checks *)

Section checks.
Context `{UnicodeNormalization} `{StateValidation} `{Sqlite} `{Host} `{FileSystem}.

Lemma bindingFor_ok identity st boundProject resource config taskId entry task :
  bindingFor identity st boundProject resource config taskId = Ok (entry, task) →
  boundTo st boundProject resource config taskId entry task.
Proof.
  unfold bindingFor, binding. case_match eqn:Hb; [|done]. intros [= ->]. inv_ok. inv_bool.
  unfold js_eqb in *. inv_bool. simplify_eq.
  repeat match goal with
  | Hf : findBy _ _ _ = Some _ |- _ => apply findBy_ok in Hf as [? ?]
  | Hf : stateTaskById _ _ = Some _ |- _ => apply findBy_ok in Hf as [? ?]
  end.
  by constructor.
Qed.

Lemma findAttempt_ok st execution identity missing attempt :
  findAttempt st execution identity missing = Ok attempt →
  attempt ∈ executions st ∧ attemptId attempt = execution.
Proof. unfold findAttempt. intros Hf%ok_or_ok. by apply findBy_ok. Qed.

Lemma claimEligible_ok command identity message st task :
  claimEligible command identity message st task = Ok tt ↔
  revision task = claimTaskRevision command ∧ projectEnabled st (claimProjectId command) = true ∧
  state task = ready ∧ (claimTaskId command ∉ map sequenceTaskId (executionSequences st)).
Proof.
  unfold claimEligible. rewrite !guard_ok, Z.eqb_eq, andb_true_iff, bool_decide_eq_true, negb_true_iff.
  assert (existsb (λ s, js_eqb (sequenceTaskId s) (claimTaskId command)) (executionSequences st) = false
          ↔ claimTaskId command ∉ map sequenceTaskId (executionSequences st)) as ->; [|tauto].
  unfold js_eqb. rewrite existsb_false. split.
  - intros Hn (s & Heq & Hin)%list_elem_of_fmap. specialize (Hn s Hin).
    apply bool_decide_eq_false in Hn. congruence.
  - intros Hn s Hin. apply bool_decide_eq_false. intros Heq. apply Hn. rewrite <-Heq.
    by apply list_elem_of_fmap_2.
Qed.

Lemma claimChecks_ok command identity preflight st entry task mutation :
  claimChecks command identity preflight st = Ok (entry, task, mutation) →
  (claimIdempotencyKey command ∉ map idempotencyKey (executions st)) ∧
  boundTo st (claimProjectId command) (claimResourceRevision command) (claimConfigRevision command)
    (claimTaskId command) entry task ∧
  claimEligible command identity "Task revision changed after preflight" st task = Ok tt ∧
  ∃ events, claimTransition st task = Ok {| value := mutation; events := events |}.
Proof.
  unfold claimChecks, claimReplay. destruct (findBy _ _ _) eqn:Hkey; [done|]. simpl.
  intros Hc. apply result_bind_ok in Hc as ([e t] & Hb%bindingFor_ok & Hc).
  apply guard_ok in Hc as [_ Hc]. apply result_bind_ok in Hc as ([] & He & Hc).
  destruct (claimTransition st t) as [[m evs]|err] eqn:Ht; [|by destruct (code err)].
  injection Hc as -> -> <-. split_and!; [by apply findBy_none|done|done|eauto].
Qed.

Lemma takeoverChecks_ok command identity preflight st entry predecessor sequence :
  takeoverChecks command identity preflight st = Ok (entry, predecessor, sequence) →
  (takeoverIdempotencyKey command ∉ map idempotencyKey (executions st)) ∧
  predecessor ∈ executions st ∧ attemptId predecessor = takeoverPredecessorId command ∧
  takeoverTaskId command = attemptTaskId predecessor ∧
  sequenceOf st (takeoverTaskId command) = Some sequence ∧
  (∃ task, boundTo st (takeoverProjectId command) (takeoverResourceRevision command)
     (takeoverConfigRevision command) (takeoverTaskId command) entry task ∧
     takeoverFenceMatches command predecessor task (Some sequence) = true ∧ state task = running) ∧
  isActive predecessor = true ∧
  js_leb (leaseExpiresAt predecessor) (operationNow identity) = true ∧
  requiresReliabilityReconciliation st (attemptId predecessor) = false.
Proof.
  unfold takeoverChecks, takeoverReplay. destruct (findBy _ _ _) eqn:Hkey; [done|]. simpl.
  intros Hc. apply result_bind_ok in Hc as (a & [Hin Hid]%findAttempt_ok & Hc).
  apply result_bind_ok in Hc as ([e t] & Hb%bindingFor_ok & Hc).
  apply guard_ok in Hc as [_ Hc]. apply guard_ok in Hc as [Hfence Hc].
  apply result_bind_ok in Hc as (s & Hs%ok_or_ok & Hc).
  apply result_bind_ok in Hc as ([] & Hrel & Hc). injection Hc as -> -> ->.
  rewrite Hs in Hfence. unfold leaseReleased in Hrel. rewrite !guard_ok in Hrel.
  destruct Hrel as (Hexp & Hrec & _). inv_bool. unfold js_eqb in *. inv_bool.
  split_and!; eauto. by apply findBy_none.
Qed.

Lemma reads_det db st st' : reads db st → reads db st' → st = st'.
Proof. unfold reads. congruence. Qed.

(** *** Early returns *)

Lemma failed_refusal c message identity : refusal (failed c message identity).
Proof. unfold refusal, failed. eauto. Qed.

Lemma withIdentity_refusal identity r : refusal r → refusal (withIdentity identity r).
Proof. intros (c & m & rq & co & ->). apply failed_refusal. Qed.

Lemma guard_err {A} (b : bool) e (k : Checks A) r :
  (guard? b else e in k) = Err r → (b = false ∧ r = e) ∨ k = Err r.
Proof. destruct b; [by right|]. intros [= <-]. by left. Qed.

Lemma ok_or_err {E A} (o : option A) (e : E) r : ok_or o e = Err r → r = e.
Proof. destruct o; [done|]. by intros [= <-]. Qed.

Lemma bind_err {A B} (m : Checks A) (k : A → Checks B) r :
  result_bind m k = Err r → m = Err r ∨ ∃ a, m = Ok a ∧ k a = Err r.
Proof. destruct m; naive_solver. Qed.

Lemma bindingFor_err identity st boundProject resource config taskId r :
  bindingFor identity st boundProject resource config taskId = Err r → refusal r.
Proof.
  unfold bindingFor. destruct (binding _ _ _ _ _) as [|e] eqn:Hb; [done|]. intros [= <-].
  apply withIdentity_refusal. unfold binding in Hb.
  apply bind_err in Hb as [->%ok_or_err|(entry & _ & Hb)]; [apply failed_refusal|].
  apply guard_err in Hb as [[_ ->]|Hb]; [apply failed_refusal|].
  apply bind_err in Hb as [->%ok_or_err|(task & _ & Hb)]; [apply failed_refusal|].
  apply guard_err in Hb as [[_ ->]|Hb]; [apply failed_refusal|done].
Qed.

Lemma replayOrConflict_cases asked st attempt matches context identity :
  (matches = true → answers asked (contextOwnerId context) st attempt) →
  refusal (replayOrConflict st attempt matches context identity) ∨
  replayed asked st context (replayOrConflict st attempt matches context identity).
Proof.
  intros Hanswers. unfold replayOrConflict.
  destruct (findBy _ _ _) as [request|] eqn:Hf; [|left; apply failed_refusal].
  destruct (_ && _) eqn:Hm; [|left; apply failed_refusal]. right. inv_bool.
  unfold js_eqb in *. inv_bool. exists attempt, request. split; [|done]. constructor; auto.
Qed.

Lemma claimReplay_err command context identity st r :
  claimReplay command context identity st = Err r →
  refusal r ∨ replayed (CommandClaim command) st context r.
Proof.
  unfold claimReplay. destruct (findBy _ _ _) as [a|] eqn:Hf; [|done]. intros [= <-].
  by apply replayOrConflict_cases.
Qed.

Lemma takeoverReplay_err command context identity st r :
  takeoverReplay command context identity st = Err r →
  refusal r ∨ replayed (CommandTakeover command) st context r.
Proof.
  unfold takeoverReplay. destruct (findBy _ _ _) as [a|] eqn:Hf; [|done]. intros [= <-].
  by apply replayOrConflict_cases.
Qed.

End checks.

(** Walk the checks of an operation to the one that returned early. *)
Ltac walk_checks He :=
  repeat first
    [ apply guard_err in He as [[_ ->]|He]; [by left; apply failed_refusal|]
    | apply bind_err in He as [->%ok_or_err|(? & _ & He)]; [by left; apply failed_refusal|]
    | apply bind_err in He as [He%bindingFor_err|([? ?] & _ & He)]; [by left|] ].

Section early.
Context `{UnicodeNormalization} `{StateValidation} `{Sqlite} `{Host} `{FileSystem}.

Lemma leaseReleased_err identity st attempt r : leaseReleased identity st attempt = Err r → refusal r.
Proof.
  unfold leaseReleased. intros He. enough (refusal r ∨ False) by tauto. by walk_checks He.
Qed.

Lemma claimEligible_err command identity message st task r :
  claimEligible command identity message st task = Err r → refusal r.
Proof.
  unfold claimEligible. intros He. enough (refusal r ∨ False) by tauto. by walk_checks He.
Qed.

Lemma inspectChecks_err command identity preflight message st r :
  inspectChecks command identity preflight message st = Err r →
  refusal r ∨ replayed (CommandInspect command) st (operationContext identity) r.
Proof. unfold inspectChecks, findAttempt. intros He. by walk_checks He. Qed.

Lemma claimChecks_err command identity preflight st r :
  claimChecks command identity preflight st = Err r →
  refusal r ∨ replayed (CommandClaim command) st (operationContext identity) r.
Proof.
  unfold claimChecks. intros He.
  apply bind_err in He as [He%claimReplay_err|(? & _ & He)]; [done|]. walk_checks He.
  apply bind_err in He as [He%claimEligible_err|(? & _ & He)]; [by left|].
  left. destruct (claimTransition _ _) as [|e]; [done|].
  destruct (code e); injection He as <-; apply failed_refusal.
Qed.

Lemma takeoverChecks_err command identity preflight st r :
  takeoverChecks command identity preflight st = Err r →
  refusal r ∨ replayed (CommandTakeover command) st (operationContext identity) r.
Proof.
  unfold takeoverChecks, findAttempt. intros He.
  apply bind_err in He as [He%takeoverReplay_err|(? & _ & He)]; [done|]. walk_checks He.
  apply bind_err in He as [He%leaseReleased_err|(? & _ & He)]; [by left|done].
Qed.

(** What [read] returns after a change, in terms of what it returned before. *)
Lemma reads_self db st : reads db st → st = decodedState (domain st) (grants st) db.
Proof. intros (d & gs & _ & _ & -> & _)%reads_ok. done. Qed.

Lemma reads_domain db st : reads db st → readDomainSnapshotUntransactional db = Ok (domain st).
Proof. intros (d & gs & Hd & _ & -> & _)%reads_ok. done. Qed.

Lemma reads_again db db' st st' d :
  reads db st → reads db' st' → grants db' = grants db →
  readDomainSnapshotUntransactional db' = Ok d → st' = decodedState d (grants st) db'.
Proof.
  intros (d0 & gs0 & _ & Hg0 & -> & _)%reads_ok (d1 & gs1 & Hd1 & Hg1 & -> & _)%reads_ok Hg Hd.
  rewrite Hg, Hg0 in Hg1. injection Hg1 as <-. rewrite Hd in Hd1. by injection Hd1 as <-.
Qed.

Lemma reads_unchanged db db' st st' :
  reads db st → reads db' st' → grants db' = grants db → domain db' = domain db →
  st' = decodedState (domain st) (grants st) db'.
Proof.
  intros Hr Hr' Hg Hd. eapply reads_again; [done..|].
  unfold readDomainSnapshotUntransactional. rewrite Hd. by apply reads_domain.
Qed.

(** The state read is a well-formed snapshot with unique executions. *)
Lemma reads_snapshot db st : reads db st → snapshot_wf mode_complete (domain st).
Proof.
  intros Hr%reads_domain. unfold readDomainSnapshotUntransactional, validateDecodedSnapshot in Hr.
  case_match eqn:Hc; [|done]. injection Hr as <-. unfold createDomainSnapshot in Hc. simpl in Hc.
  inv_ok. subst. simpl. by eapply parseSnapshot_sound.
Qed.

Lemma reads_lineage db st : reads db st → executionLineageValid st = true.
Proof. by intros (d & gs & _ & _ & _ & Hl & _)%reads_ok. Qed.

Lemma reads_unique db st : reads db st →
  NoDup (map attemptId (executions st)) ∧ NoDup (map sequenceTaskId (executionSequences st)).
Proof.
  intros Hr%reads_lineage. unfold executionLineageValid in Hr. inv_bool.
  repeat match goal with Hn : (_ =? _)%nat = true |- _ => apply Nat.eqb_eq in Hn end.
  split; apply setSize_NoDup; by rewrite length_map.
Qed.
End early.

(** ** Updates by a unique key *)

Lemma key_inj {A} (key : A → JsString) rows x y :
  NoDup (map key rows) → x ∈ rows → y ∈ rows → key x = key y → x = y.
Proof.
  intros Hnd Hx Hy Heq. pose proof (findBy_unique key rows x Hnd Hx) as H1.
  rewrite Heq, (findBy_unique key rows y Hnd Hy) in H1. by injection H1.
Qed.

Lemma find_last {A} (key : A → JsString) rows x :
  NoDup (map key (rows ++ [x])) → findBy key (key x) (rows ++ [x]) = Some x.
Proof. intros Hnd. apply findBy_unique; [done|]. apply elem_of_app. right. by left. Qed.

Lemma update_put {A} (key : A → JsString) (condition : A → bool) set rows row x :
  NoDup (map key rows) → x ∈ rows → List.filter condition rows = [row] →
  (∀ a, condition a = true → key a = key x) → key (set x) = key x →
  row = x ∧ map (λ a, if condition a then set a else a) rows =
            map (λ a, if js_eqb (key a) (key (set x)) then set x else a) rows.
Proof.
  intros Hnd Hx Hf Hkey Hset.
  assert (row ∈ rows ∧ condition row = true) as [Hrow Hc].
  { rewrite list_elem_of_In. apply filter_In. rewrite Hf. by left. }
  assert (row = x) as -> by (eapply key_inj; eauto).
  split; [done|]. apply map_ext_in. intros a Ha%list_elem_of_In. unfold js_eqb. rewrite Hset.
  destruct (condition a) eqn:Hca.
  - rewrite bool_decide_true by auto. by rewrite (key_inj key rows a x Hnd Ha Hx (Hkey a Hca)).
  - rewrite bool_decide_false; [done|]. intros Heq.
    rewrite (key_inj key rows a x Hnd Ha Hx Heq) in Hca. congruence.
Qed.

Lemma putAttempt_ids a rows : map attemptId (putAttempt a rows) = map attemptId rows.
Proof.
  unfold putAttempt. rewrite map_map. apply map_ext. intros row. unfold js_eqb.
  by case_bool_decide as Hid; simpl.
Qed.

Lemma putAttempt_elem a x rows b :
  attemptId a = attemptId x → x ∈ rows →
  b ∈ putAttempt a rows ↔ b = a ∨ (b ∈ rows ∧ attemptId b ≠ attemptId x).
Proof.
  intros Hid Hx. unfold putAttempt. rewrite list_elem_of_fmap. unfold js_eqb. split.
  - intros (row & -> & Hin). case_bool_decide; [by left|right]. split; [done|congruence].
  - intros [->|[Hin Hne]].
    + exists x. by rewrite bool_decide_true.
    + exists b. rewrite bool_decide_false by congruence. done.
Qed.

Lemma putAttempt_find a x rows :
  NoDup (map attemptId rows) → x ∈ rows → attemptId a = attemptId x →
  findBy attemptId (attemptId a) (putAttempt a rows) = Some a.
Proof.
  intros Hnd Hx Hid. apply findBy_unique; [by rewrite putAttempt_ids|].
  apply (putAttempt_elem a x); [done|done|by left].
Qed.

Lemma putSequence_find a x rows :
  NoDup (map sequenceTaskId rows) → x ∈ rows → sequenceTaskId a = sequenceTaskId x →
  findBy sequenceTaskId (sequenceTaskId a) (putSequence a rows) = Some a.
Proof.
  intros Hnd Hx Hid. apply findBy_unique.
  - unfold putSequence. rewrite map_map. erewrite map_ext; [exact Hnd|].
    intros row. unfold js_eqb. by case_bool_decide as Heq; simpl.
  - unfold putSequence. rewrite list_elem_of_fmap. exists x. unfold js_eqb.
    by rewrite bool_decide_true.
Qed.

(** ** Transactions are steps *)

Section transactions.
Context `{UnicodeNormalization} `{StateValidation} `{Sqlite} `{Host} `{FileSystem}.
Implicit Types (identity : ExecutionOperationIdentity) (db : ApplicationState).

Lemma persistAuthorization_ok identity action execution n entry evaluated db u db' :
  persistAuthorization identity action execution n entry evaluated db = Ok (u, db') →
  newRequest db identity ∧ db' = setJournal
    (requests db ++ [requestRecord identity action execution n
                       (if allowed evaluated then "allow" else "deny")])
    (decisions db ++ [decisionRecord identity action evaluated entry]) (audit db) db.
Proof.
  unfold persistAuthorization. intros Ht. apply txBind_ok in Ht as (? & ? & Hr & Hd).
  apply insertRequest_ok in Hr as [Hnew ->]. split; [exact Hnew|]. by apply insertDecision_ok in Hd.
Qed.

Lemma recordDenied_ok identity action execution n entry evaluated db r db' :
  recordDenied identity action execution n entry evaluated db = Ok (r, db') →
  newRequest db identity ∧ db' = journal identity action execution n entry evaluated db ∧
  ∃ message, r = failed ExecutionError.AUTHORIZATION_DENIED message (Some identity).
Proof.
  unfold recordDenied. intros Ht. apply txBind_ok in Ht as (? & ? & Hp & Ht).
  apply txBind_ok in Ht as (? & ? & Ha & Ht). apply persistAuthorization_ok in Hp as [Hnew ->].
  apply insertAudit_ok in Ha as ->. unfold txRet in Ht. injection Ht as <- <-. eauto.
Qed.

(** A refusal and an early return are steps whatever the operation. *)
Lemma denied_step identity asked execution n entry task st db db' st' r :
  let evaluated := evaluatedFor st identity (requestedAction asked) entry in
  reads db st → reads db' st' → actsOn st asked entry task → allowed evaluated = false →
  recordDenied identity (requestedAction asked) execution n entry evaluated db = Ok (r, db') →
  leaseStep identity asked st Denied st' ∧ reported identity asked st Denied r ∧ (Denied = Unchanged → db' = db).
Proof.
  intros evaluated Hr Hr' Hin Hdeny (Hnew & -> & Hm)%recordDenied_ok. split_and!; [|exact Hm|done].
  rewrite (reads_unchanged _ _ _ _ Hr Hr' eq_refl eq_refl).
  destruct (reads_ok _ _ Hr) as (d & gs & _ & _ & -> & _).
  exact (step_denied identity asked (decodedState d gs db) execution n entry task Hnew Hin Hdeny).
Qed.

Lemma unchanged_step identity asked st db st' r :
  reads db st → reads db st' → refusal r ∨ replayed asked st (operationContext identity) r →
  leaseStep identity asked st Unchanged st' ∧ reported identity asked st Unchanged r ∧ (Unchanged = Unchanged → db = db).
Proof.
  unfold reads. intros Hr Hr' Hq. rewrite Hr in Hr'. injection Hr' as <-. split; [constructor|done].
Qed.

Lemma inspectTransaction_step command identity preflight db r db' st' :
  inspectTransaction command identity preflight db = Ok (r, db') → reads db' st' →
  ∃ st event, reads db st ∧ leaseStep identity (CommandInspect command) st event st' ∧
    reported identity (CommandInspect command) st event r ∧ (event = Unchanged → db' = db).
Proof.
  unfold inspectTransaction. intros Ht Hr'. apply txBind_ok in Ht as (st & ? & [Hr ->]%read_ok & Ht).
  destruct (inspectChecks _ _ _ _ _) as [[entry attempt]|early] eqn:Hc.
  2: { unfold txRet in Ht. injection Ht as <- <-. exists st, Unchanged. split; [done|].
       apply (unchanged_step _ _ _ _ _ _ Hr Hr'). by eapply inspectChecks_err. }
  unfold inspectChecks in Hc. apply result_bind_ok in Hc as (a & [Hin Hida]%findAttempt_ok & Hc).
  apply result_bind_ok in Hc as ([e t] & Hb%bindingFor_ok & Hc).
  apply guard_ok in Hc as [_ Hc]. apply guard_ok in Hc as [Hrevs Hc]. injection Hc as -> ->.
  apply andb_true_iff in Hrevs as [Hrev%Z.eqb_eq Htrev%Z.eqb_eq].
  assert (actsOn st (CommandInspect command) entry t) as Hon by by exists attempt.
  change (authorization st identity ?a entry (executionPolicy st entry ?a)) with
    (evaluatedFor st identity a entry) in Ht.
  destruct (allowed (evaluatedFor _ _ _ _)) eqn:Ha; simpl negb in Ht; cbn iota in Ht.
  - apply txBind_ok in Ht as (? & ? & [Hnew ->]%persistAuthorization_ok & Ht).
    apply txBind_ok in Ht as (? & ? & ->%insertAudit_ok & Ht).
    apply txBind_ok in Ht as (rb & ? & [Hrb ->]%read_ok & Ht).
    destruct (findBy _ _ _) as [found|] eqn:Hf; [|done]. unfold txRet in Ht. injection Ht as <- <-.
    pose proof (reads_unchanged _ _ _ _ Hr Hr' eq_refl eq_refl) as Hst'.
    rewrite (reads_det _ _ _ Hrb Hr') in Hf.
    destruct (reads_unique _ _ Hr) as [Hnd _].
    destruct (reads_ok _ _ Hr) as (d & gs & _ & _ & -> & _). rewrite Hst' in Hf |- *.
    change (executions (decodedState d gs db)) with (executions db) in Hnd, Hin.
    change (findBy attemptId (attemptId attempt) (executions db) = Some found) in Hf.
    rewrite (findBy_unique attemptId) in Hf by done. injection Hf as <-.
    exists (decodedState d gs db), (Inspected attempt). split; [done|]. split; [|done].
    exact (step_inspected identity _ (decodedState d gs db) command entry t attempt eq_refl Hnew Hin
             Hida Hb Hrev Htrev Ha).
  - exists st, Denied. split; [done|]. by apply (denied_step _ (CommandInspect command) _ _ _ _ _ _ _ _ _ Hr Hr' Hon Ha Ht).
Qed.

Lemma renewExecutionLease_ok execution owner r l f t now newExpiry attempt db u db' :
  NoDup (map attemptId (executions db)) → attempt ∈ executions db → attemptId attempt = execution →
  renewExecutionLease execution owner r l f t now newExpiry db = Ok (u, db') →
  postTaskRevision attempt = t ∧ db' = setLeases (executionSequences db)
          (putAttempt (renewedAttempt now newExpiry attempt) (executions db)) db.
Proof.
  intros Hnd Hin Hid Ht. apply updateAttempts_ok in Ht as (row & Hf & _ & ->).
  destruct (filter_singleton_elem _ _ _ Hf) as [_ Hrow].
  destruct (update_put attemptId _ (renewedAttempt now newExpiry) _ row attempt Hnd Hin Hf) as [-> ->];
    [|done|by inv_bool].
  intros a Ha. inv_bool. unfold js_eqb in *. inv_bool. congruence.
Qed.

Lemma renewTransaction_step command identity preflight newExpiry db r db' st' :
  renewTransaction command identity preflight newExpiry db = Ok (r, db') → reads db' st' →
  leaseExpiry (operationNow identity) (renewLeaseSeconds command) = Some newExpiry →
  ∃ st event, reads db st ∧ leaseStep identity (CommandRenew command) st event st' ∧
    reported identity (CommandRenew command) st event r ∧ (event = Unchanged → db' = db).
Proof.
  unfold renewTransaction. intros Ht Hr' Hexp.
  apply txBind_ok in Ht as (st & ? & [Hr ->]%read_ok & Ht).
  match type of Ht with match ?x with _ => _ end _ = _ =>
    destruct x as [[entry attempt]|early] eqn:Hc end.
  2: { unfold txRet in Ht. injection Ht as <- <-. exists st, Unchanged. split; [done|].
       apply (unchanged_step _ _ _ _ _ _ Hr Hr'). unfold findAttempt in Hc. by walk_checks Hc. }
  apply result_bind_ok in Hc as (a & [Hin Hida]%findAttempt_ok & Hc).
  apply result_bind_ok in Hc as ([e t] & Hb%bindingFor_ok & Hc).
  apply guard_ok in Hc as [_ Hc]. apply guard_ok in Hc as [Hfence Hc]. injection Hc as -> ->.
  apply andb_true_iff in Hfence as [[Hfence Hheld]%andb_true_iff Hfwd].
  assert (actsOn st (CommandRenew command) entry t) as Hon by by exists attempt.
  change (authorization st identity ?a entry (executionPolicy st entry ?a)) with
    (evaluatedFor st identity a entry) in Ht.
  destruct (allowed (evaluatedFor _ _ _ _)) eqn:Ha; simpl negb in Ht; cbn iota in Ht.
  2: { exists st, Denied. split; [done|]. by apply (denied_step _ (CommandRenew command) _ _ _ _ _ _ _ _ _ Hr Hr' Hon Ha Ht). }
  apply txBind_ok in Ht as (? & ? & [Hnew ->]%persistAuthorization_ok & Ht).
  apply txBind_ok in Ht as (? & ? & Hl & Ht).
  destruct (reads_unique _ _ Hr) as [Hnd _].
  destruct (reads_ok _ _ Hr) as (d & gs & _ & _ & -> & _).
  apply (renewExecutionLease_ok _ _ _ _ _ _ _ _ attempt) in Hl as [Hpost ->]; [|done..].
  apply txBind_ok in Ht as (? & ? & ->%insertAudit_ok & Ht).
  apply txBind_ok in Ht as (rb & ? & [Hrb ->]%read_ok & Ht).
  destruct (findBy _ _ _) as [found|] eqn:Hf; [|done].
  match type of Ht with (if ?x then _ else _) _ = _ => destruct x; [|done] end. unfold txRet in Ht. injection Ht as <- <-.
  pose proof (reads_unchanged _ _ _ _ Hr Hr' eq_refl eq_refl) as Hst'.
  rewrite (reads_det _ _ _ Hrb Hr'), Hst' in Hf. rewrite Hst'.
  exists (decodedState d gs db), (Renewed attempt newExpiry). split; [done|]. split.
  - exact (step_renewed identity _ (decodedState d gs db) command entry t attempt newExpiry
             eq_refl Hnew Hin Hida Hb Hfence Hpost Hheld Hexp Hfwd Ha).
  - change (findBy attemptId (attemptId (renewedAttempt (operationNow identity) newExpiry attempt))
      (putAttempt (renewedAttempt (operationNow identity) newExpiry attempt) (executions db))
      = Some found) in Hf.
    by rewrite (putAttempt_find _ attempt) in Hf by done; injection Hf as <-.
Qed.

(** The snapshot of an accepted transition is written as it is. *)
Lemma validateCallerSnapshot_wf s :
  snapshot_wf mode_complete s → validateCallerSnapshot s = Ok s.
Proof.
  intros Hs. unfold validateCallerSnapshot, createDomainSnapshot. simpl.
  by rewrite parseSnapshot_value.
Qed.

Lemma claimTransition_wf st task r :
  snapshot_wf mode_complete (domain st) → claimTransition st task = Ok r →
  snapshot_wf mode_complete (snapshot (value r)).
Proof.
  intros Hs Ht. destruct (run_is_step cmd_transitionTask _ _ _ Hs Ht) as (a & _ & Hstep).
  by eapply taskStep_wf.
Qed.

Lemma claimReadback_ok command execution st claimed :
  claimReadback command execution st = Some claimed →
  findBy attemptId execution (executions st) = Some claimed.
Proof. unfold claimReadback. intros Hc. inv_reads. by repeat case_match; simplify_eq. Qed.

Lemma expiryOrThrow_ok now seconds db expiry db' :
  expiryOrThrow now seconds db = Ok (expiry, db') → leaseExpiry now seconds = Some expiry ∧ db' = db.
Proof.
  unfold expiryOrThrow, txRet, txThrow. destruct (leaseExpiry _ _); naive_solver.
Qed.

Lemma attemptsConflict_id record rows :
  existsb (attemptsConflict record) rows = false → attemptId record ∉ map attemptId rows.
Proof.
  intros Hc (a & Heq & Hin)%list_elem_of_fmap. rewrite existsb_false in Hc.
  specialize (Hc a Hin). unfold attemptsConflict in Hc. inv_bool. unfold js_eqb in *. inv_bool.
  congruence.
Qed.

Lemma claimTransaction_step command identity execution preflight db r db' st' :
  claimTransaction command identity execution preflight db = Ok (r, db') → reads db' st' →
  ∃ st event, reads db st ∧ leaseStep identity (CommandClaim command) st event st' ∧
    reported identity (CommandClaim command) st event r ∧ (event = Unchanged → db' = db).
Proof.
  unfold claimTransaction. intros Ht Hr'. apply txBind_ok in Ht as (st & ? & [Hr ->]%read_ok & Ht).
  destruct (claimChecks _ _ _ _) as [[[entry task] mutation]|early] eqn:Hc.
  2: { unfold txRet in Ht. injection Ht as <- <-. exists st, Unchanged. split; [done|].
       apply (unchanged_step _ _ _ _ _ _ Hr Hr'). by eapply claimChecks_err. }
  apply claimChecks_ok in Hc as (Hkey & Hb & (Hrev & Hen & Hready & Hseq)%claimEligible_ok & evs & Hm).
  change (authorization st identity ?a entry (executionPolicy st entry ?a)) with
    (evaluatedFor st identity a entry) in Ht.
  destruct (allowed (evaluatedFor _ _ _ _)) eqn:Ha; simpl negb in Ht; cbn iota in Ht.
  2: { exists st, Denied. split; [done|]. by apply (denied_step _ (CommandClaim command) _ _ _ _ _ _ _ _ _ Hr Hr' Hb Ha Ht). }
  apply txBind_ok in Ht as (? & ? & [Hnew ->]%persistAuthorization_ok & Ht).
  apply txBind_ok in Ht as (? & ? & [_ ->]%insertExecutionSequence_ok & Ht).
  apply txBind_ok in Ht as (expiry & ? & [Hexp ->]%expiryOrThrow_ok & Ht).
  apply txBind_ok in Ht as (? & ? & [Hfresh%attemptsConflict_id ->]%insertExecutionAttempt_ok & Ht).
  apply txBind_ok in Ht as (s & ? & (Hs & rows & -> & Hread)%writeDomain_ok & Ht).
  rewrite validateCallerSnapshot_wf in Hs
    by (exact (claimTransition_wf _ _ _ (reads_snapshot _ _ Hr) Hm)).
  injection Hs as <-.
  apply txBind_ok in Ht as (? & ? & ->%insertAudit_ok & Ht).
  apply txBind_ok in Ht as (rb & ? & [Hrb ->]%read_ok & Ht).
  destruct (claimReadback _ _ _) as [claimed|] eqn:Hf; [|done]. apply claimReadback_ok in Hf.
  unfold txRet in Ht. injection Ht as <- <-. rewrite (reads_det _ _ _ Hrb Hr') in Hf.
  pose proof (reads_again _ _ _ _ _ Hr Hr' eq_refl Hread) as Hst'.
  destruct (reads_unique _ _ Hr') as [Hnd _].
  assert (executions st' = executions db ++ [claimedAttempt command identity execution entry expiry])
    as Hex by (rewrite Hst'; reflexivity).
  rewrite Hex in Hf, Hnd.
  destruct (reads_ok _ _ Hr) as (d & gs & _ & _ & -> & _). rewrite Hst'.
  pose proof (step_claimed identity _ (decodedState d gs db) command execution entry task _ expiry
    eq_refl Hnew Hfresh Hb Hrev Hready Hen Hseq Hkey Hm Hexp Ha) as Hstep.
  do 2 eexists. split; [done|]. split; [exact Hstep|].
  by rewrite (find_last attemptId _ _ Hnd : findBy attemptId execution _ = _) in Hf; injection Hf as <-.
Qed.

Lemma advanceExecutionSequence_ok taskId n f r sequence db advanced db' :
  NoDup (map sequenceTaskId (executionSequences db)) → sequence ∈ executionSequences db →
  sequenceTaskId sequence = taskId →
  advanceExecutionSequence taskId n f r db = Ok (advanced, db') →
  advanced = advancedSequence sequence ∧
  db' = setLeases (putSequence (advancedSequence sequence) (executionSequences db)) (executions db) db.
Proof.
  intros Hnd Hin Hid Ht. unfold advanceExecutionSequence in Ht.
  apply txBind_ok in Ht as (? & ? & [_ ->]%statement_ok & Ht).
  apply txBind_ok in Ht as ([rows changes] & ? & Hq & Ht). unfold query in Hq.
  injection Hq as Hrows Hchanges <-.
  apply txBind_ok in Ht as (? & ? & Hmod & Ht). unfold modify in Hmod. injection Hmod as _ <-.
  apply txBind_ok in Ht as (? & ? & (->%Nat.eqb_eq & _ & ->)%require_ok & Ht).
  destruct (updateWhere_one _ _ _ rows (f_equal2 pair Hrows Hchanges)) as (-> & row & Hf).
  destruct (update_put sequenceTaskId _ advancedSequence _ row sequence Hnd Hin Hf) as [_ Hput];
    [intros a Ha; inv_bool; congruence|done|].
  rewrite Hput in Ht. clear Hput.
  apply txBind_ok in Ht as (? & ? & Hq & Ht). unfold query in Hq. injection Hq as <- <-.
  apply txBind_ok in Ht as (found & ? & [Hfound ->]%fromResult_ok & Ht).
  change (match findBy sequenceTaskId taskId (putSequence (advancedSequence sequence)
                  (executionSequences db)) with
          | None => Ok None
          | Some s => if decodeTaskExecutionSequenceRow s then Ok (Some s) else Err corruptRow
          end = Ok found) in Hfound.
  change (sequenceTaskId (advancedSequence sequence) = taskId) in Hid.
  rewrite <-Hid, (putSequence_find _ sequence) in Hfound by done.
  destruct (decodeTaskExecutionSequenceRow _); [|done]. injection Hfound as <-.
  unfold txRet in Ht. by injection Ht as <- <-.
Qed.

Lemma supersedeExecutionAttempt_ok execution successor owner r l f t now attempt db u db' :
  NoDup (map attemptId (executions db)) → attempt ∈ executions db → attemptId attempt = execution →
  supersedeExecutionAttempt execution successor owner r l f t now db = Ok (u, db') →
  postTaskRevision attempt = t ∧ db' = setLeases (executionSequences db)
          (putAttempt (supersededAttempt successor now attempt) (executions db)) db.
Proof.
  intros Hnd Hin Hid Ht. unfold supersedeExecutionAttempt in Ht.
  apply txBind_ok in Ht as (rows & ? & Hq & Ht). unfold query in Hq. injection Hq as <- <-.
  apply updateAttempts_ok in Ht as (row & Hf & _ & ->).
  destruct (filter_singleton_elem _ _ _ Hf) as [_ Hrow].
  destruct (update_put attemptId _ (supersededAttempt successor now) _ row attempt Hnd Hin Hf) as [-> ->];
    [|done|by inv_bool].
  intros a Ha. inv_bool. unfold js_eqb in *. inv_bool. congruence.
Qed.

Lemma takeoverReadback_ok command execution predecessor st replacement :
  takeoverReadback command execution predecessor st = Some replacement →
  findBy attemptId execution (executions st) = Some replacement.
Proof.
  unfold takeoverReadback. intros Hc.
  apply bind_some in Hc as (a & Ha & Hc). apply bind_some in Hc as (b & _ & Hc).
  apply bind_some in Hc as (c & _ & Hc). by case_match; simplify_eq.
Qed.

Lemma takeoverTransaction_step command identity execution preflight db r db' st' :
  takeoverTransaction command identity execution preflight db = Ok (r, db') → reads db' st' →
  ∃ st event, reads db st ∧ leaseStep identity (CommandTakeover command) st event st' ∧
    reported identity (CommandTakeover command) st event r ∧ (event = Unchanged → db' = db).
Proof.
  unfold takeoverTransaction. intros Ht Hr'.
  apply txBind_ok in Ht as (st & ? & [Hr ->]%read_ok & Ht).
  destruct (takeoverChecks _ _ _ _) as [[[entry predecessor] sequence]|early] eqn:Hc.
  2: { unfold txRet in Ht. injection Ht as <- <-. exists st, Unchanged. split; [done|].
       apply (unchanged_step _ _ _ _ _ _ Hr Hr'). by eapply takeoverChecks_err. }
  apply takeoverChecks_ok in Hc as (Hkey & Hin & Hid & Htask & Hs & (task & Hb & Hfence & Hrun) &
    Hact & Hexpired & Hrec).
  apply findBy_ok in Hs as [Hsin Hsid].
  change (authorization st identity ?a entry (executionPolicy st entry ?a)) with
    (evaluatedFor st identity a entry) in Ht.
  destruct (allowed (evaluatedFor _ _ _ _)) eqn:Ha; simpl negb in Ht; cbn iota in Ht.
  2: { exists st, Denied. split; [done|]. by apply (denied_step _ (CommandTakeover command) _ _ _ _ _ _ _ _ _ Hr Hr' Hb Ha Ht). }
  destruct (reads_unique _ _ Hr) as [Hnda Hnds]. destruct (reads_unique _ _ Hr') as [Hnd _].
  apply txBind_ok in Ht as (? & ? & [Hnew ->]%persistAuthorization_ok & Ht).
  apply txBind_ok in Ht as (advanced & ? & Hadv & Ht).
  pose proof (reads_self _ _ Hr) as Hself.
  apply (advanceExecutionSequence_ok _ _ _ _ sequence) in Hadv as [-> ->];
    [|by rewrite Hself in Hnds|by rewrite Hself in Hsin|done].
  apply txBind_ok in Ht as (? & ? & Hsup & Ht).
  apply (supersedeExecutionAttempt_ok _ _ _ _ _ _ _ _ predecessor) in Hsup as [Hpost ->];
    [|by rewrite Hself in Hnda|by rewrite Hself in Hin|done].
  apply txBind_ok in Ht as (expiry & ? & [Hexp ->]%expiryOrThrow_ok & Ht).
  apply txBind_ok in Ht as (? & ? & [Hfresh%attemptsConflict_id ->]%insertExecutionAttempt_ok & Ht).
  apply txBind_ok in Ht as (? & ? & ->%insertAudit_ok & Ht).
  apply txBind_ok in Ht as (rb & ? & [Hrb ->]%read_ok & Ht).
  destruct (takeoverReadback _ _ _ _) as [found|] eqn:Hf; [|done]. apply takeoverReadback_ok in Hf.
  unfold txRet in Ht. injection Ht as <- <-. rewrite (reads_det _ _ _ Hrb Hr') in Hf.
  pose proof (reads_unchanged _ _ _ _ Hr Hr' eq_refl eq_refl) as Hst'.
  assert (executions st' = putAttempt (supersededAttempt execution (operationNow identity) predecessor)
    (executions db) ++ [takeoverAttempt command identity execution entry predecessor
                          (advancedSequence sequence) expiry]) as Hex by (rewrite Hst'; reflexivity).
  rewrite Hex in Hf, Hnd. simpl in Hfresh. rewrite putAttempt_ids in Hfresh.
  destruct (reads_ok _ _ Hr) as (d & gs & _ & _ & -> & _). rewrite Hst'.
  pose proof (step_taken_over identity _ (decodedState d gs db) command execution entry task predecessor
    sequence expiry eq_refl Hnew Hin Hid Hsin (eq_trans Hsid Htask) Htask Hb Hfence Hpost Hrun Hact Hexpired Hrec Hfresh Hkey
    Hexp Ha) as Hstep.
  do 2 eexists. split; [done|]. split; [exact Hstep|].
  by rewrite (find_last attemptId _ _ Hnd : findBy attemptId execution _ = _) in Hf; injection Hf as <-.
Qed.
End transactions.
