(* ===== verification/ExecutionMachine.v ===== *)
(** * Runs of the execution application

    The four operations as one family, what one call can do to the database,
    and the databases reachable by calls of any number of clients whose reads
    and transactions interleave. *)

From S2P Require Import Prelude JsValue UnicodeText DomainModel DomainParse DomainGraph DomainSnapshot DomainCommands DomainTransition Timestamp Authorization PersistenceModel ProjectRegistry PersistenceReaders PersistenceTransaction ExecutionApplication ExecutionLemmas ExecutionSpec ExecutionRefinement.

Inductive ExecutionOperation : Type := do_claim | do_inspect | do_renew | do_takeover.

Section machine.
Context `{UnicodeNormalization} `{StateValidation} `{Sqlite} `{Host} `{FileSystem}.

(** [ExecutionApplicationService]; [None] is an exception that leaves it. *)
Definition runOperation (k : ExecutionOperation) (value : JsValue) (db : ApplicationState)
    : option ExecutionResult * ApplicationState :=
  match k with
  | do_claim => let '(r, db') := claim value db in (Some r, db')
  | do_inspect => let '(r, db') := inspect value db in (Some r, db')
  | do_renew => renew value db
  | do_takeover => let '(r, db') := takeover value db in (Some r, db')
  end.

Definition parseCommand (k : ExecutionOperation) (value : JsValue) : option ExecutionCommand :=
  match k with
  | do_claim => CommandClaim <$> parseClaim value
  | do_inspect => CommandInspect <$> parseInspect value
  | do_renew => CommandRenew <$> parseRenew value
  | do_takeover => CommandTakeover <$> parseTakeover value
  end.

(** The call returned before its transaction began. *)
Definition returnedEarly (k : ExecutionOperation) (value : JsValue) (db : ApplicationState)
    (r : option ExecutionResult) : Prop :=
  r = None ∨ ∃ result, r = Some result ∧
    (refusal result ∨
     ∃ asked st context, parseCommand k value = Some asked ∧ reads db st ∧
       trustedContext = Some context ∧ replayed asked st context result).

(** Its transaction failed and was rolled back. *)
Definition rolledBack (r : option ExecutionResult) : Prop :=
  ∃ e identity, r = Some (mapPersistenceFailure e identity).

(** Its transaction committed a step of the lease machine: the one asked for. *)
Definition committed (k : ExecutionOperation) (value : JsValue) (before after : ApplicationState)
    (r : option ExecutionResult) : Prop :=
  ∃ asked identity st st' event result, parseCommand k value = Some asked ∧
    trustedIdentity = Some identity ∧ r = Some result ∧ reads before st ∧ reads after st' ∧
    leaseStep identity asked st event st' ∧ reported identity asked st event result ∧
    (event = Unchanged → after = before).

Definition stepsOf (identity : ExecutionOperationIdentity) (asked : ExecutionCommand)
    (callback : Tx ExecutionResult) : Prop :=
  ∀ db r db' st', callback db = Ok (r, db') → reads db' st' →
  ∃ st event, reads db st ∧ leaseStep identity asked st event st' ∧ reported identity asked st event r ∧
    (event = Unchanged → db' = db).

Lemma transact_cases k value asked identity callback db r db' :
  parseCommand k value = Some asked → trustedIdentity = Some identity →
  stepsOf identity asked callback → transact identity callback db = (r, db') →
  (db' = concurrent db ∧ rolledBack (Some r)) ∨ committed k value (concurrent db) db' (Some r).
Proof.
  intros Hparse Hid Hsteps. unfold transact.
  destruct (withApplicationTransaction callback (concurrent db)) as [[result|e] db1] eqn:Hw;
    intros [= <- <-]; unfold withApplicationTransaction in Hw; destruct openFault as [c|].
  - done.
  - right. apply runWriteTransaction_ok in Hw as (_ & _ & Hw).
    destruct (txBind _ _ _) as [[r1 db2]|] eqn:Hb in Hw; [|done]. injection Hw as -> ->.
    apply txBind_ok in Hb as (r2 & db3 & Hcb & Hb).
    apply txBind_ok in Hb as (st' & ? & [Hr' ->]%read_ok & Hb). unfold txRet in Hb.
    injection Hb as -> ->. destruct (Hsteps _ _ _ _ Hcb Hr') as (st & event & ? & ? & ? & ?).
    exists asked, identity, st, st', event, result. done.
  - injection Hw as <- <-. left. split; [done|]. unfold rolledBack. eauto.
  - apply runWriteTransaction_err in Hw as ->. left. split; [done|]. unfold rolledBack. eauto.
Qed.

Lemma mapPersistenceFailure_refusal e identity : refusal (mapPersistenceFailure e identity).
Proof. unfold mapPersistenceFailure. by destruct e as [[]|]; apply failed_refusal. Qed.

Lemma readPreflight_ok identity db st : readPreflight identity db = Ok st → reads db st.
Proof.
  unfold readPreflight, readApplicationStateForOwner. destruct readOpenFault; [done|].
  unfold runReadSnapshot. destruct readBeginFault; [done|].
  destruct (read db) as [[st0 db0]|] eqn:Hr; [|done]. destruct readCommitFault; [done|].
  intros [= <-]. by apply read_ok in Hr as [? _].
Qed.

Lemma readPreflight_err identity db r : readPreflight identity db = Err r → refusal r.
Proof.
  unfold readPreflight. destruct (readApplicationStateForOwner db); [done|].
  intros [= <-]. apply mapPersistenceFailure_refusal.
Qed.

Lemma validateRuntimeAndActor_err st identity r : validateRuntimeAndActor st identity = Err r → refusal r.
Proof.
  unfold validateRuntimeAndActor. destruct (validateTrustedRuntimeAndActor _ _) as [[]|]; try done;
    intros [= <-]; apply failed_refusal.
Qed.

Lemma revalidateProject_err entry identity r : revalidateProject entry identity = Err r → refusal r.
Proof.
  unfold revalidateProject. destruct (revalidateProjectRoot _ _); [done|]. intros [= <-].
  apply failed_refusal.
Qed.
End machine.

(** The end of every preflight: the runtime, the actor and the project root. *)
Ltac walk_host He :=
  apply bind_err in He as [He%validateRuntimeAndActor_err|(? & _ & He)]; [by left|];
  apply bind_err in He as [He%revalidateProject_err|(? & _ & He)]; [by left|done].

Section preflights.
Context `{UnicodeNormalization} `{StateValidation} `{Sqlite} `{Host} `{FileSystem}.

Definition quiet (asked : option ExecutionCommand) (db : ApplicationState) (r : ExecutionResult) : Prop :=
  refusal r ∨ ∃ command st context, asked = Some command ∧ reads db st ∧
    trustedContext = Some context ∧ replayed command st context r.

Lemma claimPreflight_err value db r : claimPreflight value db = Err r → quiet (CommandClaim <$> parseClaim value) db r.
Proof.
  unfold claimPreflight. intros He.
  apply bind_err in He as [->%ok_or_err|(command & Hparse%ok_or_ok & He)]; [left; apply failed_refusal|].
  apply bind_err in He as [->%ok_or_err|(context & Hcontext%ok_or_ok & He)]; [left; apply failed_refusal|].
  apply bind_err in He as [He%readPreflight_err|(st & Hst%readPreflight_ok & He)]; [by left|].
  apply bind_err in He as [[He|He]%claimReplay_err|(? & _ & He)]; [by left|by right; rewrite Hparse; exists (CommandClaim command), st, context|].
  walk_checks He. apply bind_err in He as [He%claimEligible_err|(? & _ & He)]; [by left|].
  walk_host He.
Qed.

Lemma takeoverPreflight_err value db r : takeoverPreflight value db = Err r → quiet (CommandTakeover <$> parseTakeover value) db r.
Proof.
  unfold takeoverPreflight, findAttempt. intros He.
  apply bind_err in He as [->%ok_or_err|(command & Hparse%ok_or_ok & He)]; [left; apply failed_refusal|].
  apply bind_err in He as [->%ok_or_err|(context & Hcontext%ok_or_ok & He)]; [left; apply failed_refusal|].
  apply bind_err in He as [He%readPreflight_err|(st & Hst%readPreflight_ok & He)]; [by left|].
  apply bind_err in He as [[He|He]%takeoverReplay_err|(? & _ & He)]; [by left|by right; rewrite Hparse; exists (CommandTakeover command), st, context|].
  walk_checks He. apply bind_err in He as [He%leaseReleased_err|(? & _ & He)]; [by left|].
  walk_checks He. walk_host He.
Qed.

Lemma inspectPreflight_err value db r : inspectPreflight value db = Err r → refusal r.
Proof.
  unfold inspectPreflight. intros He. enough (refusal r ∨ False) by tauto. walk_checks He.
  apply bind_err in He as [He%readPreflight_err|(st & _ & He)]; [by left|].
  apply bind_err in He as [He|([? ?] & _ & He)].
  - unfold inspectChecks, findAttempt in He. by walk_checks He.
  - walk_host He.
Qed.

Lemma renewHeld_err value db r : renewHeld value db = Err r → refusal r.
Proof.
  unfold renewHeld, findAttempt. intros He. enough (refusal r ∨ False) by tauto. walk_checks He.
  apply bind_err in He as [He%readPreflight_err|(st & _ & He)]; [by left|]. by walk_checks He.
Qed.

Lemma renewPreflight_err value db r : renewPreflight value db = Some (Err r) → refusal r.
Proof.
  unfold renewPreflight. intros He.
  destruct (renewHeld value db) as [[[[[command identity] st] attempt] entry]|early] eqn:Hc.
  - apply bind_some in He as (expiry & _ & He). injection He as He.
    enough (refusal r ∨ False) by tauto. walk_checks He. walk_host He.
  - injection He as <-. by eapply renewHeld_err.
Qed.
End preflights.

Section runs.
Context `{UnicodeNormalization} `{StateValidation} `{Sqlite} `{Host} `{FileSystem}.

Lemma trustedIdentity_ok context identity :
  trustedContext = Some context → operationIdentity context = Some identity →
  trustedIdentity = Some identity ∧ operationContext identity = context.
Proof.
  intros Hc Hi. unfold trustedIdentity. rewrite Hc. split; [done|].
  unfold operationIdentity in Hi. inv_reads. by case_match; simplify_eq.
Qed.

Lemma claimPreflight_identity value db plan :
  claimPreflight value db = Ok plan →
  parseClaim value = Some (planCommand plan) ∧ trustedIdentity = Some (planIdentity plan).
Proof.
  unfold claimPreflight. intros Hp.
  apply result_bind_ok in Hp as (command & Hparse%ok_or_ok & Hp).
  apply result_bind_ok in Hp as (context & Hcontext%ok_or_ok & Hp).
  do 2 (apply result_bind_ok in Hp as (? & _ & Hp)).
  apply result_bind_ok in Hp as (identity & Hi%ok_or_ok & Hp). inv_ok.
  repeat case_match; inv_ok. subst plan. split; [done|].
  by apply (trustedIdentity_ok context).
Qed.

Lemma takeoverPreflight_identity value db plan :
  takeoverPreflight value db = Ok plan →
  parseTakeover value = Some (takeoverCommand plan) ∧ trustedIdentity = Some (takeoverIdentity plan).
Proof.
  unfold takeoverPreflight. intros Hp.
  apply result_bind_ok in Hp as (command & Hparse%ok_or_ok & Hp).
  apply result_bind_ok in Hp as (context & Hcontext%ok_or_ok & Hp).
  do 2 (apply result_bind_ok in Hp as (? & _ & Hp)).
  apply result_bind_ok in Hp as (identity & Hi%ok_or_ok & Hp). inv_ok.
  repeat case_match; inv_ok. subst plan. split; [done|].
  by apply (trustedIdentity_ok context).
Qed.

Lemma inspectPreflight_identity value db command identity entry :
  inspectPreflight value db = Ok (command, identity, entry) →
  parseInspect value = Some command ∧ trustedIdentity = Some identity.
Proof.
  unfold inspectPreflight. intros Hp.
  apply result_bind_ok in Hp as (c & Hparse%ok_or_ok & Hp).
  apply result_bind_ok in Hp as (i & Hi%ok_or_ok & Hp). inv_ok. case_match; inv_ok. by simplify_eq.
Qed.

Lemma renewPreflight_ok value db plan :
  renewPreflight value db = Some (Ok plan) →
  parseRenew value = Some (renewCommand plan) ∧ trustedIdentity = Some (renewIdentity plan) ∧
  leaseExpiry (operationNow (renewIdentity plan)) (renewLeaseSeconds (renewCommand plan))
    = Some (renewExpiry plan).
Proof.
  unfold renewPreflight. intros Hp.
  destruct (renewHeld value db) as [[[[[command identity] st] attempt] entry]|early] eqn:Hc; [|done].
  apply bind_some in Hp as (expiry & Hexp & Hp). injection Hp as Hp.
  apply guard_ok in Hp as [_ Hp]. do 2 (apply result_bind_ok in Hp as (? & _ & Hp)).
  injection Hp as <-. cbn [renewIdentity renewCommand renewExpiry].
  enough (parseRenew value = Some command ∧ trustedIdentity = Some identity) by tauto.
  unfold renewHeld in Hc. apply result_bind_ok in Hc as (c & Hparse%ok_or_ok & Hc).
  apply result_bind_ok in Hc as (i & Hi%ok_or_ok & Hc). inv_ok. case_match; inv_ok. by simplify_eq.
Qed.

(** One call: it returns early, it is rolled back, or it commits one step. *)
Lemma runOperation_cases k value db r db' :
  runOperation k value db = (r, db') →
  (db' = db ∧ returnedEarly k value db r) ∨ (db' = concurrent db ∧ rolledBack r) ∨
  committed k value (concurrent db) db' r.
Proof.
  destruct k; cbn [runOperation].
  - unfold claim. destruct (claimPreflight value db) as [plan|e] eqn:Hp.
    + destruct (transact _ _ _) as [r0 db0] eqn:Ht. intros [= <- <-]. right.
      destruct (claimPreflight_identity _ _ _ Hp) as [Hparse Hi].
      eapply (transact_cases do_claim); [by simpl; rewrite Hparse|exact Hi| |exact Ht].
      intros ?????. by eapply claimTransaction_step.
    + intros [= <- <-]. left. split; [done|]. right. exists e. split; [done|]. by eapply claimPreflight_err.
  - unfold inspect. destruct (inspectPreflight value db) as [[[c i] p]|e] eqn:Hp.
    + destruct (transact _ _ _) as [r0 db0] eqn:Ht. intros [= <- <-]. right.
      destruct (inspectPreflight_identity _ _ _ _ _ Hp) as [Hparse Hi].
      eapply (transact_cases do_inspect); [by simpl; rewrite Hparse|exact Hi| |exact Ht].
      intros ?????. by eapply inspectTransaction_step.
    + intros [= <- <-]. left. split; [done|]. right. exists e. split; [done|]. left. by eapply inspectPreflight_err.
  - unfold renew. destruct (renewPreflight value db) as [[plan|e]|] eqn:Hp.
    + destruct (transact _ _ _) as [r0 db0] eqn:Ht. intros [= <- <-]. right.
      destruct (renewPreflight_ok _ _ _ Hp) as (Hparse & Hi & Hexp).
      eapply (transact_cases do_renew); [by simpl; rewrite Hparse|exact Hi| |exact Ht].
      intros ???? Htx Hread. exact (renewTransaction_step _ _ _ _ _ _ _ _ Htx Hread Hexp).
    + intros [= <- <-]. left. split; [done|]. right. exists e. split; [done|].
      left. by eapply renewPreflight_err.
    + intros [= <- <-]. left. split; [done|]. by left.
  - unfold takeover. destruct (takeoverPreflight value db) as [plan|e] eqn:Hp.
    + destruct (transact _ _ _) as [r0 db0] eqn:Ht. intros [= <- <-]. right.
      destruct (takeoverPreflight_identity _ _ _ Hp) as [Hparse Hi].
      eapply (transact_cases do_takeover); [by simpl; rewrite Hparse|exact Hi| |exact Ht].
      intros ?????. by eapply takeoverTransaction_step.
    + intros [= <- <-]. left. split; [done|]. right. exists e. split; [done|]. by eapply takeoverPreflight_err.
Qed.
End runs.

(** Everything that is not the database during one call. *)
Record Environment : Type := {
  envSqlite : Sqlite;
  envHost : Host;
  envFiles : FileSystem;
}.

Definition runIn `{UnicodeNormalization} `{StateValidation} (e : Environment) (k : ExecutionOperation)
    (value : JsValue) (db : ApplicationState) : option ExecutionResult * ApplicationState :=
  runOperation (H1 := envSqlite e) (H2 := envHost e) (H3 := envFiles e) k value db.

Definition contextIn (e : Environment) : option TrustedExecutionContext :=
  trustedContext (H := envHost e).

(** No fault on reading. *)
Definition canRead (e : Environment) : Prop :=
  readOpenFault (Sqlite := envSqlite e) = None ∧ readBeginFault (Sqlite := envSqlite e) = None ∧
  readCommitFault (Sqlite := envSqlite e) = None.

(** ** Interleaved calls

    [later db db']: from [db], calls of any clients, each with its own host and
    faults, lead to [db'].  What other connections commit between the read and
    the transaction of a call is itself the effect of such calls. *)
Inductive later `{UnicodeNormalization} `{StateValidation} : ApplicationState → ApplicationState → Prop :=
  | later_refl db : later db db
  | later_call (e : Environment) start db k value r db' :
      later start db → later db (concurrent (Host := envHost e) db) →
      runIn e k value db = (r, db') → later start db'.

Section later.
Context `{UnicodeNormalization} `{StateValidation}.

Lemma later_trans db1 db2 db3 : later db1 db2 → later db2 db3 → later db1 db3.
Proof.
  intros H1 H2. induction H2 as [|e start db k value r db' _ IH Hc _ Hrun]; [done|].
  eapply later_call; [by apply IH|exact Hc|exact Hrun].
Qed.

(** Induction over the commits alone. *)
Lemma later_commits (R : ApplicationState → ApplicationState → Prop) `{!PreOrder R} :
  (∀ db db' st st' identity asked event,
     reads db st → reads db' st' → leaseStep identity asked st event st' → R st st') →
  ∀ db db', later db db' → ∀ st', reads db' st' → ∃ st, reads db st ∧ R st st'.
Proof.
  intros Hstep db db' Hl. induction Hl as [db|e start db k value r db' _ IH _ IHc Hrun]; intros st' Hr.
  { by exists st'. }
  set (host := envHost e) in *. assert (∃ st1, reads (concurrent db) st1 ∧ R st1 st' ∨ reads db st' ∧ st1 = st') as (st1 & [[Hc HR]|[Hd ->]]).
  { destruct (runOperation_cases _ _ _ _ _ Hrun) as [[-> _]|[[-> _]|Hcom]].
    - exists st'. by right.
    - exists st'. by left.
    - destruct Hcom as (asked & identity & st & st2 & event & result & _ & _ & _ & H1 & H2 & Hs & _).
      pose proof (reads_det _ _ _ Hr H2) as <-. exists st. left. split; [done|]. by eapply Hstep. }
  - destruct (IHc _ Hc) as (st2 & Hr2 & HR2). destruct (IH _ Hr2) as (st3 & ? & ?).
    exists st3. split; [done|]. etrans; [eassumption|]. by etrans.
  - by apply IH.
Qed.
End later.
