(* ===== verification/ExecutionLineage.v ===== *)
(** * The lineage of executions

    What the validation of the execution lineage guarantees about every state
    that can be read: the fencing tokens of a task, its one active attempt and
    the chain of supersessions. *)

From S2P Require Import Prelude JsValue UnicodeText DomainModel DomainParse DomainGraph DomainSnapshot DomainCommands Timestamp Authorization PersistenceModel PersistenceReaders PersistenceTransaction ExecutionApplication ExecutionLemmas ExecutionSpec ExecutionRefinement.

(** The leases of one task. *)
Record fenced (st : ApplicationState) (s : TaskExecutionSequence) : Prop := {
  fe_holder : ∃ a, a ∈ executions st ∧ attemptTaskId a = sequenceTaskId s ∧ isActive a = true ∧
    fencingToken a = currentFencingToken s ∧ attemptNumber a = lastAttemptNumber s;
  fe_one_active : ∀ a b, a ∈ executions st → b ∈ executions st →
    attemptTaskId a = sequenceTaskId s → attemptTaskId b = sequenceTaskId s →
    isActive a = true → isActive b = true → a = b;
  fe_tokens : ∀ a, a ∈ executions st → attemptTaskId a = sequenceTaskId s →
    fencingToken a = attemptNumber a ∧ 1 <= fencingToken a <= currentFencingToken s;
  fe_every : ∀ n, 1 <= n <= currentFencingToken s →
    ∃ a, a ∈ executions st ∧ attemptTaskId a = sequenceTaskId s ∧ fencingToken a = n;
  fe_distinct : ∀ a b, a ∈ executions st → b ∈ executions st →
    attemptTaskId a = sequenceTaskId s → attemptTaskId b = sequenceTaskId s →
    fencingToken a = fencingToken b → a = b;
  fe_stale : ∀ a, a ∈ executions st → attemptTaskId a = sequenceTaskId s →
    isActive a = false → fencingToken a < currentFencingToken s ∧
    ∃ b, b ∈ executions st ∧ attemptTaskId b = sequenceTaskId s ∧
      fencingToken b = fencingToken a + 1 ∧ supersededByExecutionId a = Some (attemptId b) ∧
      supersedesExecutionId b = Some (attemptId a);
  fe_lease : ∀ a, a ∈ executions st → attemptTaskId a = sequenceTaskId s → isActive a = true →
    js_ltb (updatedAt a) (leaseExpiresAt a) = true;
}.

Lemma attemptsOf_elem taskId rows a :
  a ∈ attemptsOf taskId rows ↔ a ∈ rows ∧ attemptTaskId a = taskId.
Proof.
  unfold attemptsOf. rewrite elem_of_sortBy, list_elem_of_In, filter_In, <-list_elem_of_In,
    bool_decide_eq_true. done.
Qed.

Definition previousOf (prev : option ExecutionAttempt) (l : list ExecutionAttempt) (i : nat)
    : option ExecutionAttempt :=
  match i with O => prev | S j => l !! j end.

Lemma attemptsValid_lookup st task index prev l i a :
  attemptsValid st task index prev l = true → l !! i = Some a →
  attemptValid st task (index + Z.of_nat i) (previousOf prev l i) (l !! S i) a = true.
Proof.
  revert index prev i. induction l as [|x l IH]; intros index prev i Hv Hi; [done|].
  simpl in Hv. apply andb_true_iff in Hv as [Hx Hv]. destruct i as [|i].
  - injection Hi as ->. rewrite Z.add_0_r. simpl. by destruct l.
  - simpl in Hi. replace (index + Z.of_nat (S i)) with (index + 1 + Z.of_nat i) by lia.
    specialize (IH _ _ _ Hv Hi). destruct i; exact IH.
Qed.

(** What the validation says about one attempt. *)
Record attemptFacts (index : Z) (previous next : option ExecutionAttempt) (a : ExecutionAttempt)
    : Prop := {
  af_number : attemptNumber a = index + 1;
  af_token : fencingToken a = index + 1;
  af_lease : isActive a = true → js_ltb (updatedAt a) (leaseExpiresAt a) = true;
  af_takeover : index ≠ 0 → supersedesExecutionId a = attemptId <$> previous;
  af_active : isActive a = true → next = None;
  af_superseded : isActive a = false →
    is_Some next ∧ supersededByExecutionId a = attemptId <$> next;
}.

Lemma attemptValid_facts st task index previous next a :
  attemptValid st task index previous next a = true → attemptFacts index previous next a.
Proof.
  unfold attemptValid. intros Hv. inv_bool.
  repeat match goal with Hm : match _ with _ => _ end = true |- _ => revert Hm end.
  intros _ _ _ Hkind Hstatus.
  assert (∀ b : bool, negb (isActive a) || b = true → isActive a = true → b = true) as Hor
    by (intros b; by destruct (isActive a)).
  constructor; [lia|lia|auto| | |].
  - intros Hi. unfold claimShape, takeoverShape in Hkind. destruct (operationKind a); inv_bool; [lia|done].
  - unfold isActive. intros Hact%bool_decide_eq_true. rewrite Hact in Hstatus. by inv_bool.
  - unfold isActive. intros Hact%bool_decide_eq_false. destruct (status a); [done|]. by inv_bool.
Qed.

Lemma filter_one {A} (f : A → bool) l x y z :
  List.filter f l = [x] → y ∈ l → z ∈ l → f y = true → f z = true → y = z.
Proof.
  intros Hf Hy Hz Hfy Hfz.
  assert (∀ w, w ∈ l → f w = true → w = x) as Hall; [|by rewrite (Hall y), (Hall z)].
  intros w Hw Hfw. assert (w ∈ List.filter f l) as Hin
    by (rewrite list_elem_of_In; apply filter_In; by rewrite <-list_elem_of_In).
  rewrite Hf in Hin. by apply list_elem_of_singleton in Hin.
Qed.

(** The attempts of a task in order of their numbers, as the validation of its
    sequence leaves them. *)
Record chain (st : ApplicationState) (s : TaskExecutionSequence) (l : list ExecutionAttempt)
    (current : ExecutionAttempt) : Prop := {
  ch_elem : ∀ a, a ∈ l ↔ a ∈ executions st ∧ attemptTaskId a = sequenceTaskId s;
  ch_active : List.filter isActive l = [current];
  ch_length : Z.of_nat (length l) = lastAttemptNumber s;
  ch_current : attemptNumber current = lastAttemptNumber s ∧
    fencingToken current = currentFencingToken s;
  ch_facts : ∀ i a, l !! i = Some a →
    attemptFacts (Z.of_nat i) (previousOf None l i) (l !! S i) a;
}.

Lemma sequenceValid_chain st s :
  sequenceValid st s = true → ∃ current, chain st s (attemptsOf (sequenceTaskId s) (executions st)) current.
Proof.
  unfold sequenceValid. destruct (mapGet _ _ _) as [task|]; [|done].
  destruct (List.filter _ _) as [|current [|]] eqn:Hactive; [done| |done].
  intros Hv. inv_bool. exists current. split; [by intros; apply attemptsOf_elem|done|done|done|].
  intros i a Hi. eapply attemptValid_facts. rewrite <-(Z.add_0_l (Z.of_nat i)).
  by apply attemptsValid_lookup.
Qed.

Section chains.
Context {st : ApplicationState} {s : TaskExecutionSequence} {l : list ExecutionAttempt}
  {current : ExecutionAttempt}.
Hypothesis Hchain : chain st s l current.

Lemma chain_at a :
  a ∈ executions st → attemptTaskId a = sequenceTaskId s →
  ∃ i, l !! i = Some a ∧ attemptFacts (Z.of_nat i) (previousOf None l i) (l !! S i) a ∧
    (i < length l)%nat.
Proof.
  intros Ha Ht. assert (a ∈ l) as [i Hi]%list_elem_of_lookup_1 by (by apply (ch_elem _ _ _ _ Hchain)).
  exists i. split_and!; [done|by apply (ch_facts _ _ _ _ Hchain)|by eapply lookup_lt_Some].
Qed.

Lemma chain_current : current ∈ executions st ∧ attemptTaskId current = sequenceTaskId s ∧
  isActive current = true ∧ attemptNumber current = Z.of_nat (length l) ∧
  fencingToken current = Z.of_nat (length l).
Proof.
  destruct (filter_singleton_elem _ _ _ (ch_active _ _ _ _ Hchain)) as [Hin Hact].
  apply (ch_elem _ _ _ _ Hchain) in Hin as [Hin Ht]. destruct (chain_at _ Hin Ht) as (i & _ & Hf & _).
  destruct (ch_current _ _ _ _ Hchain) as [Hn _]. pose proof (ch_length _ _ _ _ Hchain).
  pose proof (af_number _ _ _ _ Hf). pose proof (af_token _ _ _ _ Hf). split_and!; [done|done|done|lia|lia].
Qed.

(** An attempt that is not active has a successor in the chain. *)
Lemma chain_successor a :
  a ∈ executions st → attemptTaskId a = sequenceTaskId s → isActive a = false →
  ∃ b, b ∈ executions st ∧ attemptTaskId b = sequenceTaskId s ∧
    fencingToken b = fencingToken a + 1 ∧ supersededByExecutionId a = Some (attemptId b) ∧
    supersedesExecutionId b = Some (attemptId a).
Proof.
  intros Ha Ht Hact. destruct (chain_at _ Ha Ht) as (i & Hi & Hf & Hlt).
  destruct (af_superseded _ _ _ _ Hf Hact) as [[b Hb] Hby]. exists b.
  assert (b ∈ executions st ∧ attemptTaskId b = sequenceTaskId s) as [Hbin Hbt].
  { apply (ch_elem _ _ _ _ Hchain). by eapply list_elem_of_lookup_2. }
  pose proof (ch_facts _ _ _ _ Hchain _ _ Hb) as Hfb.
  pose proof (af_token _ _ _ _ Hf). pose proof (af_token _ _ _ _ Hfb).
  split_and!; [done|done|lia|by rewrite Hby, Hb|].
  rewrite (af_takeover _ _ _ _ Hfb) by lia. simpl. by rewrite Hi.
Qed.

(** Every token up to the length of the chain was handed out. *)
Lemma chain_token n : 1 <= n <= Z.of_nat (length l) →
  ∃ a, a ∈ executions st ∧ attemptTaskId a = sequenceTaskId s ∧ fencingToken a = n.
Proof.
  intros Hn. destruct (lookup_lt_is_Some_2 l (Z.to_nat (n - 1))) as [a Ha]; [lia|].
  assert (a ∈ executions st ∧ attemptTaskId a = sequenceTaskId s) as [Hin Ht]
    by (apply (ch_elem _ _ _ _ Hchain); by eapply list_elem_of_lookup_2).
  exists a. split_and!; [done|done|].
  pose proof (af_token _ _ _ _ (ch_facts _ _ _ _ Hchain _ _ Ha)). lia.
Qed.

Lemma chain_fenced : fenced st s.
Proof.
  destruct chain_current as (Hcin & Hct & Hcact & Hcn & Hcf).
  destruct (ch_current _ _ _ _ Hchain) as [Hn Hf].
  constructor.
  - exists current. done.
  - intros a b Ha Hb Hta Htb Hacta Hactb.
    eapply filter_one; [exact (ch_active _ _ _ _ Hchain)| | |done|done]; by apply (ch_elem _ _ _ _ Hchain).
  - intros a Ha Hta. destruct (chain_at _ Ha Hta) as (i & _ & Hfa & Hlt).
    pose proof (af_number _ _ _ _ Hfa). pose proof (af_token _ _ _ _ Hfa). lia.
  - intros n Hrange. apply chain_token. lia.
  - intros a b Ha Hb Hta Htb Hfe. destruct (chain_at _ Ha Hta) as (i & Hi & Hfa & _).
    destruct (chain_at _ Hb Htb) as (j & Hj & Hfb & _).
    pose proof (af_token _ _ _ _ Hfa). pose proof (af_token _ _ _ _ Hfb).
    assert (i = j) as -> by lia. by simplify_eq.
  - intros a Ha Hta Hact. destruct (chain_successor _ Ha Hta Hact) as (b & Hb & Htb & Hft & Hby & Hs).
    split; [|by exists b]. destruct (chain_at _ Hb Htb) as (j & _ & Hfb & Hlt).
    pose proof (af_token _ _ _ _ Hfb). lia.
  - intros a Ha Hta Hact. destruct (chain_at _ Ha Hta) as (i & _ & Hfa & _).
    by apply (af_lease _ _ _ _ Hfa).
Qed.
End chains.

Lemma sequenceValid_fenced st s : sequenceValid st s = true → fenced st s.
Proof. intros [current Hc]%sequenceValid_chain. by eapply chain_fenced. Qed.

(** What every readable database satisfies. *)
Record lineage (st : ApplicationState) : Prop := {
  ln_unique : NoDup (map attemptId (executions st));
  ln_sequences : NoDup (map sequenceTaskId (executionSequences st));
  ln_fenced : ∀ s, s ∈ executionSequences st → fenced st s;
  ln_owned : ∀ a, a ∈ executions st → ∃ s, s ∈ executionSequences st ∧
    sequenceTaskId s = attemptTaskId a;
}.

Lemma forallb_elem {A} (f : A → bool) l x : forallb f l = true → x ∈ l → f x = true.
Proof. rewrite forallb_forall, list_elem_of_In. auto. Qed.

Section readable.
Context `{UnicodeNormalization} `{StateValidation}.

Lemma reads_fenced db st : reads db st → lineage st.
Proof.
  intros Hr. destruct (reads_unique _ _ Hr) as [Hnd Hnds]. apply reads_lineage in Hr.
  unfold executionLineageValid in Hr. inv_bool. constructor; [done|done| |].
  - intros s Hs. apply sequenceValid_fenced. by eapply (forallb_elem (sequenceValid st)).
  - intros a Ha. match goal with Ho : forallb (λ _, existsb _ _) _ = true |- _ =>
      apply (forallb_elem _ _ _ Ho) in Ha end.
    apply existsb_exists in Ha as (s & Hs%list_elem_of_In & Ht%bool_decide_eq_true). by exists s.
Qed.
End readable.
