(* ===== verification/ExecutionAuthority.v ===== *)
(** * Who an operation is run for

    The authorization of an operation is decided on the grants read from the
    database; what an accepted decision says about them. *)

From S2P Require Import Prelude JsValue UnicodeText DomainModel DomainParse DomainGraph DomainSnapshot DomainCommands Timestamp Authorization AuthorizationProperties PersistenceModel ProjectRegistry PersistenceReaders PersistenceTransaction ExecutionApplication ExecutionLemmas ExecutionSpec ExecutionRefinement.

Lemma readGrants_wf rows gs : readGrants rows = Ok gs → Forall grant_wf gs.
Proof.
  unfold readGrants. intros Hr%ok_or_ok%mapM_Some. apply Forall_forall.
  intros g (i & Hi)%list_elem_of_lookup_1.
  destruct (Forall2_lookup_r _ _ _ _ _ Hr Hi) as (row & _ & Hp). by eapply parseGrant_sound.
Qed.

Lemma mapM_round_trip {A B} (parse : B → option A) (print : A → B) l :
  Forall (λ a, parse (print a) = Some a) l → mapM parse (map print l) = Some l.
Proof. intros Hall. induction Hall as [|a l Ha _ IH]; [done|]. simpl. by rewrite Ha; simpl; rewrite IH. Qed.

(** The project an operation acts on, as the target of its authorization. *)
Definition projectTarget (entry : RegisteredProject) : AuthorizationTarget :=
  {| targetProjectId := Some (registeredId entry);
     targetResourceRevision := Some (resourceRevision entry);
     targetConfigRevision := Some (configRevision entry) |}.

Lemma authorizationValue_parse st identity action entry policy input :
  Forall grant_wf (grants st) →
  parseEvaluationInput (authorizationValue st identity action entry policy) = Some input →
  inputActorId input = operationActorId identity ∧ inputAction input = action ∧
  inputNow input = operationNow identity ∧ inputTarget input = projectTarget entry ∧
  inputPolicy input = policy ∧ inputGrants input = grants st.
Proof.
  intros Hwf. unfold authorizationValue, parseEvaluationInput, exactRecord, canonicalArray.
  rewrite readExactRecord_object by done. cbn [mbind option_bind]. rewrite !field_record. cbn [List.find String.eqb Ascii.eqb Bool.eqb fst snd].
  rewrite readExactRecord_object by done. cbn [mbind option_bind]. rewrite !field_record. cbn [List.find String.eqb Ascii.eqb Bool.eqb fst snd].
  rewrite readCanonicalArray_array. cbn [mbind option_bind]. intros Hp.
  repeat apply bind_some in Hp as (? & ? & Hp). injection Hp as <-.
  repeat match goal with
  | Hs : shortIdentifier _ = Some _ |- _ => apply shortIdentifier_ok in Hs as [[= ->] _]
  | Hs : isAuthorizationAction _ = Some _ |- _ => apply isAuthorizationAction_ok in Hs as [[= <-%js_inj] _]
  | Hs : timestamp _ = Some _ |- _ => apply timestamp_ok in Hs as [[= ->] _]
  | Hs : nullable _ _ = Some _ |- _ => apply fmap_Some in Hs as (? & Hs & ->)
  | Hs : domainIdentifier _ = Some _ |- _ => apply (proj1 (isIdentifier_ok _ _)) in Hs as [[= <-] _]
  | Hs : revisionNumber _ = Some _ |- _ => apply (proj1 (isPositiveInteger_ok _ _)) in Hs as [[= <-] _]
  end.
  assert (mapM parseAuthorizationGrant (map grantValue (grants st)) = Some (grants st)) as Hgs.
  { apply mapM_round_trip. eapply Forall_impl; [exact Hwf|]. intros g. apply parseGrant_value. }
  rewrite Hgs in *. assert (isPolicyResult (jsName (AuthorizationPolicyResult_name policy)) = Some policy)
    as Hpolicy by by destruct policy.
  rewrite Hpolicy in *. cbn [inputActorId inputAction inputNow inputTarget inputPolicy inputGrants].
  unfold projectTarget. split_and!; congruence.
Qed.

(** An accepted operation is backed by a grant of the caller for this very
    action on this very project revision; all but inspections need the
    project to be enabled. *)
Lemma evaluatedFor_allowed `{UnicodeNormalization} `{StateValidation} db st identity action entry :
  reads db st → allowed (evaluatedFor st identity action entry) = true →
  (∃ g, g ∈ grants st ∧
     usable g (operationActorId identity) action (projectTarget entry) (operationNow identity)) ∧
  (action = "execution.claim.inspect" ∨ projectEnabled st (registeredId entry) = true).
Proof.
  intros (d & gs & _ & Hgs & -> & _)%reads_ok. unfold evaluatedFor, authorization, evaluateAuthorization.
  destruct (parseEvaluationInput _) as [input|] eqn:Hp; [|done]. intros Ha%decide_allowed.
  apply authorizationValue_parse in Hp as (H1 & H2 & H3 & H4 & H5 & H6); [|by eapply readGrants_wf].
  rewrite H1, H2, H3, H4, H5, H6 in Ha. destruct Ha as (Hpolicy & _ & Hg). split; [exact Hg|].
  unfold executionPolicy in Hpolicy. destruct (String.eqb_spec action "execution.claim.inspect"); [by left|].
  right. by destruct (projectEnabled _ _).
Qed.
