(* ===== verification/ExecutionMoves.v ===== *)
(** * How the leases move

    What one step of the lease machine does to each attempt, sequence, task
    and record; these changes compose, so they are also what any run does. *)

From S2P Require Import Prelude JsValue UnicodeText DomainModel DomainParse DomainGraph DomainSnapshot DomainCommands DomainTransition DomainUpdate DomainSpec DomainRefinement DomainMoves DomainMachine Timestamp Authorization AuthorizationProperties PersistenceModel ProjectRegistry PersistenceReaders PersistenceTransaction ExecutionApplication ExecutionLemmas ExecutionSpec ExecutionRefinement ExecutionLineage.

(** The columns of an attempt that no operation changes: everything but its
    status, lease, revision and last update. *)
Definition fixedPart (a : ExecutionAttempt) : ExecutionAttempt :=
  {| attemptId := attemptId a; attemptTaskId := attemptTaskId a; attemptNumber := attemptNumber a;
     operationKind := operationKind a; status := active; idempotencyKey := idempotencyKey a;
     ownerId := ownerId a; requestedLeaseSeconds := requestedLeaseSeconds a;
     predecessorExecutionRevision := predecessorExecutionRevision a;
     predecessorLeaseRevision := predecessorLeaseRevision a;
     predecessorFencingToken := predecessorFencingToken a;
     leaseRevision := 1; leaseExpiresAt := []; fencingToken := fencingToken a;
     attemptRevision := 1; expectedTaskRevision := expectedTaskRevision a;
     preTaskRevision := preTaskRevision a; postTaskRevision := postTaskRevision a;
     attemptResourceRevision := attemptResourceRevision a;
     attemptConfigRevision := attemptConfigRevision a; attemptRequestId := attemptRequestId a;
     attemptDecisionId := attemptDecisionId a; supersedesExecutionId := supersedesExecutionId a;
     supersededByExecutionId := None; createdAt := createdAt a; updatedAt := [] |}.

Record leaseEvolved (a a' : ExecutionAttempt) : Prop := {
  le_fixed : fixedPart a' = fixedPart a;
  le_revisions : leaseRevision a <= leaseRevision a' ∧ attemptRevision a <= attemptRevision a';
  le_expiry : js_leb (leaseExpiresAt a) (leaseExpiresAt a') = true;
  le_superseded : isActive a = false → a' = a;
}.

Lemma js_leb_refl s : js_leb s s = true.
Proof. apply js_leb_lt. by right. Qed.

#[export] Instance leaseEvolved_preorder : PreOrder leaseEvolved.
Proof.
  split.
  - intros a. constructor; [done|lia|apply js_leb_refl|done].
  - intros a b c [Hf [Hr1 Hr2] He Hs] [Hf' [Hr1' Hr2'] He' Hs']. constructor.
    + congruence.
    + lia.
    + by eapply js_leb_trans.
    + intros Ha. specialize (Hs Ha). subst b. auto.
Qed.

(** A column that [fixedPart] keeps. *)
Lemma fixed_column {A} (column : ExecutionAttempt → A) a a' :
  (∀ x, column (fixedPart x) = column x) → fixedPart a' = fixedPart a → column a' = column a.
Proof. intros Hc Hf. by rewrite <-(Hc a'), Hf, Hc. Qed.

(** Later attempts have larger fencing tokens. *)
Definition newer (new old : list ExecutionAttempt) : Prop :=
  ∀ a b, a ∈ new → b ∈ old → attemptTaskId a = attemptTaskId b → fencingToken b < fencingToken a.

Definition attemptsEvolve (rows rows' : list ExecutionAttempt) : Prop :=
  ∃ old new, rows' = old ++ new ∧ Forall2 leaseEvolved rows old ∧ newer new old.

Definition sequencesEvolve (rows rows' : list TaskExecutionSequence) : Prop :=
  ∀ s, s ∈ rows → ∃ s', s' ∈ rows' ∧ sequenceTaskId s' = sequenceTaskId s ∧
    currentFencingToken s <= currentFencingToken s'.

(** A task of the domain moves only from [ready] to [running]. *)
Definition taskClaimed (t t' : Task) : Prop := t' = t ∨ (state t = ready ∧ t' = moved ClaimAccepted t).

Record leasesEvolve (st st' : ApplicationState) : Prop := {
  lv_attempts : attemptsEvolve (executions st) (executions st');
  lv_sequences : sequencesEvolve (executionSequences st) (executionSequences st');
  lv_tasks : Forall2 taskClaimed (tasks (domain st)) (tasks (domain st'));
  lv_projects : projects (domain st') = projects (domain st);
  lv_requests : requests st `prefix_of` requests st';
  lv_decisions : decisions st `prefix_of` decisions st';
  lv_audit : audit st `prefix_of` audit st';
  lv_registered : registered st' = registered st;
  lv_grants : grants st' = grants st;
  lv_identity : bootstrap st' = bootstrap st ∧ localIdentity st' = localIdentity st;
}.

Lemma newer_evolved new old old' : Forall2 leaseEvolved old old' → newer new old → newer new old'.
Proof.
  intros Hf Hn a b' Ha (i & Hi)%list_elem_of_lookup_1 Ht.
  destruct (Forall2_lookup_r _ _ _ _ _ Hf Hi) as (b & Hb & [Hfix _ _ _]).
  rewrite (fixed_column fencingToken b b') by done. apply Hn; [done| |].
  - by eapply list_elem_of_lookup_2.
  - by rewrite <-(fixed_column attemptTaskId b b').
Qed.

#[export] Instance attemptsEvolve_preorder : PreOrder attemptsEvolve.
Proof.
  split.
  - intros rows. exists rows, []. rewrite app_nil_r. split_and!; [done| |].
    + apply Forall_Forall2_diag, Forall_forall. done.
    + by intros ? ? []%elem_of_nil.
  - intros r1 r2 r3 (old & new & -> & Hf & Hn) (old' & new' & -> & Hf' & Hn').
    apply Forall2_app_inv_l in Hf' as (o1 & o2 & Hf1 & Hf2 & ->).
    exists o1, (o2 ++ new'). rewrite (assoc_L (++)). split_and!; [done| |].
    + by etrans.
    + intros a b [(i & Hi)%list_elem_of_lookup_1|Ha]%elem_of_app Hb Ht; [|apply Hn'; set_solver].
      destruct (Forall2_lookup_r _ _ _ _ _ Hf2 Hi) as (a0 & Ha0 & [Hfix _ _ _]).
      rewrite (fixed_column fencingToken a0 a) by done.
      eapply newer_evolved; [exact Hf1|exact Hn| |done|].
      * by eapply list_elem_of_lookup_2.
      * by rewrite <-(fixed_column attemptTaskId a0 a).
Qed.

#[export] Instance sequencesEvolve_preorder : PreOrder sequencesEvolve.
Proof.
  split.
  - intros rows s Hs. exists s. split_and!; [done|done|lia].
  - intros r1 r2 r3 H1 H2 s Hs. destruct (H1 s Hs) as (s1 & Hs1 & Ht1 & Hc1).
    destruct (H2 s1 Hs1) as (s2 & Hs2 & Ht2 & Hc2). exists s2. split_and!; [done|congruence|lia].
Qed.

#[export] Instance taskClaimed_preorder : PreOrder taskClaimed.
Proof.
  split; [by left|]. intros t1 t2 t3 [->|[Hr ->]] [->|[Hr' ->]]; [by left|by right|by right|done].
Qed.

#[export] Instance leasesEvolve_preorder : PreOrder leasesEvolve.
Proof.
  split.
  - intros st. by constructor.
  - intros s1 s2 s3 [? ? ? ? ? ? ? ? ? [? ?]] [? ? ? ? ? ? ? ? ? [? ?]].
    constructor; first [etrans; eassumption | split; congruence | congruence].
Qed.

(** ** One step *)

Lemma evolve_put rows a a' :
  a ∈ rows → NoDup (map attemptId rows) → leaseEvolved a a' → Forall2 leaseEvolved rows (putAttempt a' rows).
Proof.
  intros Ha Hnd He. apply Forall2_fmap_r, Forall_Forall2_diag, Forall_forall. intros b Hb. unfold compose.
  destruct (js_eqb (attemptId b) (attemptId a')) eqn:Heq; [|reflexivity].
  unfold js_eqb in Heq. apply bool_decide_eq_true in Heq.
  rewrite (fixed_column attemptId a a') in Heq by (done || apply He).
  pose proof (findBy_unique attemptId rows a Hnd Ha) as H1.
  pose proof (findBy_unique attemptId rows b Hnd Hb) as H2. rewrite Heq, H1 in H2.
  by injection H2 as <-.
Qed.

Lemma evolve_append old new : newer [new] old → attemptsEvolve old (old ++ [new]).
Proof. intros Hn. exists old, [new]. split_and!; [done| |done]. by apply Forall_Forall2_diag, Forall_forall. Qed.

Lemma renewed_evolved a now newExpiry :
  isActive a = true → js_ltb (leaseExpiresAt a) newExpiry = true →
  leaseEvolved a (renewedAttempt now newExpiry a).
Proof.
  intros Ha Hlt. constructor; [done|simpl; lia| |by rewrite Ha]. apply js_leb_lt. by left.
Qed.

Lemma superseded_evolved a successor now :
  isActive a = true → leaseEvolved a (supersededAttempt successor now a).
Proof. intros Ha. constructor; [done|simpl; lia|apply js_leb_refl|by rewrite Ha]. Qed.

Lemma sequences_put s rows : s ∈ rows → NoDup (map sequenceTaskId rows) →
  sequencesEvolve rows (putSequence (advancedSequence s) rows).
Proof.
  intros Hs Hnd t Ht. unfold putSequence.
  eexists. split; [by apply list_elem_of_fmap_2; exact Ht|]. cbn beta.
  destruct (js_eqb _ _) eqn:Heq; [|split; [done|lia]]. unfold js_eqb in Heq.
  apply bool_decide_eq_true in Heq. simpl in *.
  pose proof (findBy_unique sequenceTaskId rows s Hnd Hs) as H1.
  pose proof (findBy_unique sequenceTaskId rows t Hnd Ht) as H2. rewrite Heq, H1 in H2.
  injection H2 as <-. split; [done|lia].
Qed.

Section moves.
Context `{UnicodeNormalization} `{StateValidation}.

(** The domain change of an accepted claim. *)
Lemma claimTransition_ok st task mutation :
  snapshot_wf mode_complete (domain st) → task ∈ tasks (domain st) →
  claimTransition st task = Ok mutation →
  mutable (domain st) task ∧ claimable (domain st) task ∧
  mutation = moveResult (domain st) ClaimAccepted task.
Proof.
  intros Hwf Htask Ht.
  destruct (run_is_step cmd_transitionTask _ _ _ Hwf Ht)
    as (a & (t & e & payload & m & Hin & Hread & Hm & ->) & Hstep).
  lazy -[isIdentifier id legalTarget] in Hread.
  apply bind_some in Hread as (i & [[= <-] _]%isIdentifier_ok & Hread).
  injection Hread as Hid <- _ _. simpl in Hm. inv_reads. subst m.
  rewrite (same_task _ (domain st) task t Hwf Htask Hin (eq_sym Hid)) in *.
  inversion Hstep as [| | | | | | |t' m' Hmut Hallow _ Ht' Hres]. subst.
  pose proof (same_task _ (domain st) task t' Hwf Htask (proj1 Hmut) Ht') as ->. done.
Qed.

Lemma claim_tasks s t : snapshot_wf mode_complete s → t ∈ tasks s → state t = ready →
  Forall2 taskClaimed (tasks s) (tasks (snapshot (value (moveResult s ClaimAccepted t)))).
Proof.
  intros Hwf Ht Hst. apply Forall2_fmap_r, Forall_Forall2_diag, Forall_forall. intros u Hu.
  unfold compose, afterMove. case_bool_decide as Hid; [|by left].
  rewrite (same_task _ s t u Hwf Ht Hu Hid). by right.
Qed.

Lemma leases_set identity action execution n entry evaluated st newSequences newExecutions :
  attemptsEvolve (executions st) newExecutions →
  sequencesEvolve (executionSequences st) newSequences →
  leasesEvolve st (setLeases newSequences newExecutions
                     (journal identity action execution n entry evaluated st)).
Proof. intros. constructor; simpl; try done; by apply prefix_app_r. Qed.

Lemma journal_evolve identity action execution n entry evaluated st :
  leasesEvolve st (journal identity action execution n entry evaluated st).
Proof. by apply leases_set. Qed.

(** A task without a sequence has no attempts. *)
Lemma unclaimed_newer st a : lineage st →
  attemptTaskId a ∉ map sequenceTaskId (executionSequences st) → newer [a] (executions st).
Proof.
  intros Hln Hnew x b ->%list_elem_of_singleton Hb Ht.
  destruct (ln_owned _ Hln b Hb) as (s & Hs & Hst). destruct Hnew. rewrite Ht, <-Hst.
  by apply list_elem_of_fmap_2.
Qed.

(** Every attempt of a task is older than the next token of its sequence. *)
Lemma next_newer st s a : lineage st → s ∈ executionSequences st →
  attemptTaskId a = sequenceTaskId s → currentFencingToken s < fencingToken a →
  newer [a] (executions st).
Proof.
  intros Hln Hs Hat Hlt x b ->%list_elem_of_singleton Hb Ht.
  destruct (fe_tokens _ _ (ln_fenced _ Hln s Hs) b Hb) as [_ ?]; [congruence|lia].
Qed.

Lemma leaseStep_evolve db identity asked st event st' :
  reads db st → leaseStep identity asked st event st' → leasesEvolve st st'.
Proof.
  intros Hread Hstep. pose proof (reads_snapshot _ _ Hread) as Hwf.
  pose proof (reads_fenced _ _ Hread) as Hln. pose proof (ln_unique _ Hln) as Hnd.
  destruct Hstep as [| |command entry task attempt evaluated|command execution entry task mutation expiry
    evaluated attempt _ _ _ Hbound _ Hready _ Hnew _ Htr _ _|command entry task attempt newExpiry
    evaluated _ _ Hin _ _ _ _ Hheld _ Hlt _|command execution entry task predecessor sequence expiry
    evaluated attempt _ _ Hin _ Hs Hst Htask _ _ _ _ Hactive _ _ _ _ _ _].
  - done.
  - apply journal_evolve.
  - apply journal_evolve.
  - destruct (bt_task _ _ _ _ _ _ _ Hbound) as [Htask Hid].
    apply claimTransition_ok in Htr as (_ & _ & ->); [|done..].
    destruct (leases_set identity "execution.claim" execution 1 entry evaluated st
      (executionSequences st ++ [firstSequence (claimTaskId command)]) (executions st ++ [attempt]));
      [by apply evolve_append, unclaimed_newer| |].
    + intros s Hs. exists s. split_and!; [set_solver|done|lia].
    + constructor; try done. by apply claim_tasks.
  - apply leases_set; [|done]. unfold renewLeaseHeld in Hheld. inv_bool.
    eexists _, []. rewrite app_nil_r. split_and!; [done| |by intros ? ? []%elem_of_nil].
    eapply evolve_put; [exact Hin|done|by apply renewed_evolved].
  - apply leases_set; [|by apply sequences_put, Hln].
    eexists _, [attempt]. split_and!; [done| |].
    + eapply evolve_put; [exact Hin|done|by apply superseded_evolved].
    + eapply newer_evolved; [eapply evolve_put; [exact Hin|done|by apply superseded_evolved]|].
      eapply next_newer; [exact Hln|exact Hs| |simpl; lia]. simpl. congruence.
Qed.
End moves.
