(* ===== verification/ExecutionReplay.v ===== *)
(** * Repeated commands

    A claim or a takeover that succeeded is recorded under its idempotency key;
    the record outlives every later call and answers every repetition.
    [repeats] says what a repetition is without the comparisons of the code. *)

From S2P Require Import Prelude JsValue UnicodeText DomainModel DomainParse DomainGraph DomainSnapshot DomainCommands DomainTransition DomainUpdate DomainSpec DomainRefinement DomainMoves DomainMachine Timestamp Authorization PersistenceModel ProjectRegistry PersistenceReaders PersistenceTransaction ExecutionApplication ExecutionLemmas ExecutionSpec ExecutionRefinement ExecutionMachine ExecutionLineage ExecutionMoves.

(** ** The record of a command survives *)

Lemma findBy_app {A} (key : A → JsString) k rows more row :
  findBy key k rows = Some row → findBy key k (rows ++ more) = Some row.
Proof.
  unfold findBy. induction rows as [|x rows IH]; [done|]. simpl. by destruct (bool_decide _).
Qed.

Lemma findBy_evolved (key : ExecutionAttempt → JsString) k rows old a :
  (∀ x, key (fixedPart x) = key x) → Forall2 leaseEvolved rows old →
  findBy key k rows = Some a → ∃ a', findBy key k old = Some a' ∧ leaseEvolved a a'.
Proof.
  intros Hkey Hf. unfold findBy. induction Hf as [|x y rows old Hxy _ IH]; [done|]. simpl.
  rewrite (fixed_column key x y Hkey) by apply Hxy.
  case_bool_decide; [|done]. intros [= <-]. by exists y.
Qed.

Lemma project_evolved st st' a p : leasesEvolve st st' →
  executionProjectMatches st a p = true → executionProjectMatches st' a p = true.
Proof.
  intros Hev. unfold executionProjectMatches. rewrite !bool_decide_eq_true. intros Hp. rewrite <-Hp.
  pose proof (lv_tasks _ _ Hev) as Hf. unfold findBy. clear Hp.
  induction Hf as [|t t' ts ts' Ht _ IH]; [done|]. simpl.
  assert (id t' = id t ∧ taskProjectId t' = taskProjectId t) as [-> Hproject].
  { destruct Ht as [->|[_ ->]]; [done|]. destruct (moved_links ClaimAccepted t) as (? & ? & _). done. }
  case_bool_decide; [|exact IH]. simpl. by rewrite Hproject.
Qed.

(** The comparisons of a command read fixed columns only. *)
Lemma claimTuple_evolved st st' a a' command owner : leasesEvolve st st' → fixedPart a' = fixedPart a →
  claimTupleMatches st a command owner = true → claimTupleMatches st' a' command owner = true.
Proof.
  intros Hev Hf. change (claimTupleMatches st' a' command owner) with
    (claimTupleMatches st' (fixedPart a') command owner). rewrite Hf.
  unfold claimTupleMatches. rewrite !andb_true_iff. intros Hm. destruct_and!. split_and!; try done.
  by apply (project_evolved st st' a).
Qed.

Lemma takeoverTuple_evolved st st' a a' command owner :
  leasesEvolve st st' → fixedPart a' = fixedPart a →
  takeoverTupleMatches st a command owner = true → takeoverTupleMatches st' a' command owner = true.
Proof.
  intros Hev Hf. change (takeoverTupleMatches st' a' command owner) with
    (takeoverTupleMatches st' (fixedPart a') command owner). rewrite Hf.
  unfold takeoverTupleMatches. rewrite !andb_true_iff. intros Hm. destruct_and!. split_and!; try done.
  by apply (project_evolved st st' a).
Qed.

Lemma answers_evolved asked owner st st' a : leasesEvolve st st' → answers asked owner st a →
  ∃ a', answers asked owner st' a' ∧ leaseEvolved a a'.
Proof.
  intros Hev. pose proof (lv_attempts _ _ Hev) as (old & new & Heq & Hf & _).
  destruct asked as [c|c|c|c]; simpl; try done; intros [Hfind Hm];
    (destruct (findBy_evolved idempotencyKey _ _ _ _ (λ x, eq_refl) Hf Hfind) as (a' & Ha' & He);
     exists a'; split; [|done]; split; [rewrite Heq; by apply findBy_app|]).
  - eapply claimTuple_evolved; [done|apply He|done].
  - eapply takeoverTuple_evolved; [done|apply He|done].
Qed.

Lemma recorded_evolved asked context context' st st' a request :
  contextOwnerId context' = contextOwnerId context →
  assertedActorId (contextActor context') = assertedActorId (contextActor context) →
  leasesEvolve st st' → recorded asked context st a request →
  ∃ a', recorded asked context' st' a' request ∧ leaseEvolved a a'.
Proof.
  intros Howner Hactor Hev [Hans Hreq Hact].
  destruct (answers_evolved _ _ _ _ _ Hev Hans) as (a' & Hans' & He). exists a'. split; [|done].
  constructor; [by rewrite Howner| |by rewrite Hactor].
  rewrite (fixed_column attemptRequestId a a') by (done || apply He).
  destruct (lv_requests _ _ Hev) as [more ->]. by apply findBy_app.
Qed.

(** ** A fresh success is recorded *)

Section recorded.
Context `{UnicodeNormalization} `{StateValidation}.

Lemma project_matches s st a task p : snapshot_wf mode_complete s → domain st = s →
  task ∈ tasks s → id task = attemptTaskId a → taskProjectId task = p →
  executionProjectMatches st a p = true.
Proof.
  intros Hwf Hs Hin Hid Hp. unfold executionProjectMatches. apply bool_decide_eq_true. rewrite Hs.
  destruct (findBy id (attemptTaskId a) (tasks s)) as [u|] eqn:Hf; simpl.
  - apply findBy_ok in Hf as [Hu Hidu].
    by rewrite (same_task _ s task u Hwf Hin Hu) by congruence; rewrite Hp.
  - apply findBy_none in Hf. destruct Hf. rewrite <-Hid. by apply list_elem_of_fmap_2.
Qed.

Lemma executionProjectMatches_ok st a p : snapshot_wf mode_complete (domain st) →
  executionProjectMatches st a p = true ↔
  ∃ task, task ∈ tasks (domain st) ∧ id task = attemptTaskId a ∧ taskProjectId task = p.
Proof.
  intros Hwf. split.
  - unfold executionProjectMatches. intros Hm%bool_decide_eq_true.
    apply fmap_Some in Hm as (task & [Hin Hid]%findBy_ok & ->). by exists task.
  - intros (task & Hin & Hid & Hp). by eapply project_matches.
Qed.

(** *** The same command again, without the code's comparisons *)

(** The execution was made by this claim of this owner. *)
Record sameClaim (st : ApplicationState) (a : ExecutionAttempt) (command : ExecutionClaimCommand)
    (owner : JsString) : Prop := {
  sc_kind : operationKind a = op_claim;
  sc_project : ∃ task, task ∈ tasks (domain st) ∧ id task = attemptTaskId a ∧
    taskProjectId task = claimProjectId command;
  sc_task : attemptTaskId a = claimTaskId command;
  sc_taskRevision : expectedTaskRevision a = claimTaskRevision command;
  sc_resource : attemptResourceRevision a = claimResourceRevision command;
  sc_config : attemptConfigRevision a = claimConfigRevision command;
  sc_owner : ownerId a = owner;
  sc_seconds : requestedLeaseSeconds a = claimLeaseSeconds command;
  sc_first : predecessorExecutionRevision a = None ∧ predecessorLeaseRevision a = None ∧
    predecessorFencingToken a = None ∧ supersedesExecutionId a = None;
}.

(** The execution was made by this takeover of this owner. *)
Record sameTakeover (st : ApplicationState) (a : ExecutionAttempt) (command : ExecutionTakeoverCommand)
    (owner : JsString) : Prop := {
  st_kind : operationKind a = op_takeover;
  st_project : ∃ task, task ∈ tasks (domain st) ∧ id task = attemptTaskId a ∧
    taskProjectId task = takeoverProjectId command;
  st_task : attemptTaskId a = takeoverTaskId command;
  st_taskRevision : expectedTaskRevision a = takeoverTaskRevision command;
  st_resource : attemptResourceRevision a = takeoverResourceRevision command;
  st_config : attemptConfigRevision a = takeoverConfigRevision command;
  st_owner : ownerId a = owner;
  st_seconds : requestedLeaseSeconds a = takeoverLeaseSeconds command;
  st_predecessor :
    predecessorExecutionRevision a = Some (takeoverExecutionRevision command) ∧
    predecessorLeaseRevision a = Some (takeoverLeaseRevision command) ∧
    predecessorFencingToken a = Some (takeoverFencingToken command) ∧
    supersedesExecutionId a = Some (takeoverPredecessorId command);
}.

Definition commandKey (asked : ExecutionCommand) : option JsString :=
  match asked with
  | CommandClaim command => Some (claimIdempotencyKey command)
  | CommandTakeover command => Some (takeoverIdempotencyKey command)
  | _ => None
  end.

Definition sameCommand (st : ApplicationState) (a : ExecutionAttempt) (asked : ExecutionCommand)
    (owner : JsString) : Prop :=
  match asked with
  | CommandClaim command => sameClaim st a command owner
  | CommandTakeover command => sameTakeover st a command owner
  | _ => False
  end.

(** The command repeats the one that made the execution [a] with the request
    [row]: the first execution recorded under its key is [a], every part of
    the command is the same, and so are the owner and the actor. *)
Record repeats (st : ApplicationState) (asked : ExecutionCommand) (context : TrustedExecutionContext)
    (a : ExecutionAttempt) (row : ApplicationRequestRecord) : Prop := {
  rp_key : ∃ key, commandKey asked = Some key ∧ findBy idempotencyKey key (executions st) = Some a;
  rp_command : sameCommand st a asked (contextOwnerId context);
  rp_request : findBy requestId (attemptRequestId a) (requests st) = Some row;
  rp_actor : requestActorId row = assertedActorId (contextActor context);
}.

Lemma claimTupleMatches_ok st a command owner : snapshot_wf mode_complete (domain st) →
  claimTupleMatches st a command owner = true ↔ sameClaim st a command owner.
Proof.
  intros Hwf. unfold claimTupleMatches, js_eqb.
  rewrite !andb_true_iff, !bool_decide_eq_true, !Z.eqb_eq, executionProjectMatches_ok by done.
  split; [intros; destruct_and!; by constructor|intros []; destruct_and!; by split_and!].
Qed.

Lemma takeoverTupleMatches_ok st a command owner : snapshot_wf mode_complete (domain st) →
  takeoverTupleMatches st a command owner = true ↔ sameTakeover st a command owner.
Proof.
  intros Hwf. unfold takeoverTupleMatches, js_eqb.
  rewrite !andb_true_iff, !bool_decide_eq_true, !Z.eqb_eq, executionProjectMatches_ok by done.
  split; [intros; destruct_and!; by constructor|intros []; destruct_and!; by split_and!].
Qed.

(** What the code recognises as recorded is a repetition, and nothing else is. *)
Lemma recorded_repeats st asked context a row : snapshot_wf mode_complete (domain st) →
  recorded asked context st a row ↔ repeats st asked context a row.
Proof.
  intros Hwf. split.
  - intros [Hans Hreq Hact]. destruct asked as [c|c|c|c]; try done; destruct Hans as [Hf Hm];
      constructor; simpl; eauto; by apply claimTupleMatches_ok || by apply takeoverTupleMatches_ok.
  - intros [(key & Hkey & Hf) Hsame Hreq Hact]. constructor; [|done|done].
    destruct asked as [c|c|c|c]; try done; injection Hkey as <-;
      (split; [done|]); by apply claimTupleMatches_ok || by apply takeoverTupleMatches_ok.
Qed.

Lemma findBy_last {A} (key : A → JsString) rows row :
  key row ∉ map key rows → findBy key (key row) (rows ++ [row]) = Some row.
Proof.
  unfold findBy. induction rows as [|x rows IH]; simpl; intros Hn.
  - by rewrite bool_decide_true.
  - rewrite bool_decide_false by set_solver. apply IH. set_solver.
Qed.

Definition executionRequest (identity : ExecutionOperationIdentity) (asked : ExecutionCommand)
    (execution : JsString) : ApplicationRequestRecord :=
  requestRecord identity (requestedAction asked) execution 1 "allow".

(** The new rows of a claim or a takeover, as the record of its command. *)
Lemma new_recorded asked identity execution st st' attempt old key :
  newRequest st identity → attemptRequestId attempt = operationRequestId identity →
  idempotencyKey attempt = key → key ∉ map idempotencyKey old →
  executions st' = old ++ [attempt] →
  requests st' = requests st ++ [executionRequest identity asked execution] →
  (findBy idempotencyKey key (executions st') = Some attempt →
     answers asked (operationOwner identity) st' attempt) →
  recorded asked (operationContext identity) st' attempt (executionRequest identity asked execution).
Proof.
  intros Hnew Hid <- Hkey Hex Hreq Hans. constructor.
  - apply Hans. rewrite Hex. by apply findBy_last.
  - rewrite Hreq, Hid.
    exact (findBy_last requestId (requests st) (executionRequest identity asked execution) Hnew).
  - done.
Qed.

Lemma putAttempt_keys x' rows :
  (∀ row, row ∈ rows → attemptId row = attemptId x' → idempotencyKey row = idempotencyKey x') →
  map idempotencyKey (putAttempt x' rows) = map idempotencyKey rows.
Proof.
  intros Hk. unfold putAttempt. rewrite map_map. apply map_ext_in. intros row Hrow%list_elem_of_In.
  destruct (js_eqb _ _) eqn:Heq; [|done]. unfold js_eqb in Heq. apply bool_decide_eq_true in Heq.
  symmetry. auto.
Qed.

Lemma claimed_matches st st' command identity execution entry task expiry :
  snapshot_wf mode_complete (domain st) → leasesEvolve st st' →
  boundTo st (claimProjectId command) (claimResourceRevision command)
    (claimConfigRevision command) (claimTaskId command) entry task →
  claimTupleMatches st' (claimedAttempt command identity execution entry expiry) command
    (operationOwner identity) = true.
Proof.
  intros Hwf Hev [_ [Hres Hcfg] [Hin Hid] Hp]. eapply claimTuple_evolved; [exact Hev|done|].
  unfold claimTupleMatches. rewrite !andb_true_iff. simpl. unfold js_eqb.
  rewrite !bool_decide_true, Hres, Hcfg, !Z.eqb_refl by done. split_and!; try done.
  by eapply project_matches.
Qed.

Lemma takenOver_matches st st' command identity execution entry task predecessor sequence expiry :
  snapshot_wf mode_complete (domain st) → leasesEvolve st st' →
  boundTo st (takeoverProjectId command) (takeoverResourceRevision command)
    (takeoverConfigRevision command) (takeoverTaskId command) entry task →
  attemptId predecessor = takeoverPredecessorId command →
  takeoverTupleMatches st' (takeoverAttempt command identity execution entry predecessor sequence expiry)
    command (operationOwner identity) = true.
Proof.
  intros Hwf Hev [_ [Hres Hcfg] [Hin Hid] Hp] Hpred. eapply takeoverTuple_evolved; [exact Hev|done|].
  unfold takeoverTupleMatches. rewrite !andb_true_iff. simpl. unfold js_eqb. rewrite Hpred.
  rewrite !bool_decide_true, Hres, Hcfg, !Z.eqb_refl by done. split_and!; try done.
  by eapply project_matches.
Qed.

Lemma step_recorded db identity asked st event st' attempt :
  reads db st → leaseStep identity asked st event st' →
  event = Claimed attempt ∨ (∃ predecessor, event = TakenOver predecessor attempt) →
  recorded asked (operationContext identity) st' attempt
    (executionRequest identity asked (attemptId attempt)).
Proof.
  intros Hr Hs Hevent. pose proof (leaseStep_evolve _ _ _ _ _ _ Hr Hs) as Hev.
  pose proof (reads_snapshot _ _ Hr) as Hwf. pose proof (reads_fenced _ _ Hr) as Hln.
  destruct Hs as [| | |command execution entry task mutation expiry evaluated a -> Hnew _ Hb _ _ _ _ Hkey
    _ _ Ha| |command execution entry task predecessor sequence expiry evaluated a -> Hnew Hin Hid _ _ Htask
    Hb Hfence _ _ _ _ _ _ Hkey _ Ha];
    try (by destruct Hevent as [?|[? ?]]).
  - destruct Hevent as [[= <-]|[? ?]]; [|done].
    eapply new_recorded; [exact Hnew|done|done|exact Hkey|done| |].
    + simpl. by rewrite Ha.
    + intros Hf. split; [exact Hf|]. by eapply claimed_matches.
  - destruct Hevent as [?|[? [= <- <-]]]; [done|].
    eapply new_recorded; [exact Hnew|done|done| |done| |].
    + rewrite putAttempt_keys; [exact Hkey|]. intros row Hrow Heq. simpl in *.
      pose proof (findBy_unique attemptId _ _ (ln_unique _ Hln) Hin) as H1.
      pose proof (findBy_unique attemptId _ _ (ln_unique _ Hln) Hrow) as H2.
      rewrite Heq, H1 in H2. by injection H2 as <-.
    + simpl. by rewrite Ha.
    + intros Hf. split; [exact Hf|]. by eapply takenOver_matches.
Qed.
End recorded.

Section replays.
Context `{UnicodeNormalization} `{StateValidation} `{Sqlite} `{Host} `{FileSystem}.

Definition keyed (k : ExecutionOperation) : Prop := k = do_claim ∨ k = do_takeover.

Lemma trustedIdentity_context identity :
  trustedIdentity = Some identity → trustedContext = Some (operationContext identity).
Proof.
  unfold trustedIdentity. intros (context & Hc & Hi)%bind_some. rewrite Hc. f_equal.
  unfold operationIdentity in Hi. repeat apply bind_some in Hi as (? & _ & Hi). case_match; [|done].
  by injection Hi as <-.
Qed.

Lemma refusal_not_succeeded told request correlation : ¬ refusal (Succeeded told request correlation).
Proof. by intros (? & ? & ? & ? & ?). Qed.

(** A success of a keyed command leaves its record. *)
Lemma success_recorded k value db told request correlation db' :
  keyed k → runOperation k value db = (Some (Succeeded told request correlation), db') →
  ∃ asked context st' a row, parseCommand k value = Some asked ∧ trustedContext = Some context ∧
    reads db' st' ∧ recorded asked context st' a row ∧ told = view a (contextNow context) ∧
    request = requestId row ∧ correlation = correlationId row.
Proof.
  intros Hk Hrun. destruct (runOperation_cases _ _ _ _ _ Hrun) as [[-> He]|[[-> He]|Hc]].
  - destruct He as [?|(r & [= <-] & [?%refusal_not_succeeded|He])]; [done|done|].
    destruct He as (asked & st & context & Hp & Hr & Hc & a & row & Hrec & Heq).
    injection Heq as -> -> ->. by exists asked, context, st, a, row.
  - destruct He as (e & identity & [= Heq]). pose proof (mapPersistenceFailure_refusal e identity) as Href.
    rewrite <-Heq in Href. by apply refusal_not_succeeded in Href.
  - destruct Hc as (asked & identity & st & st' & event & r & Hp & Hi & [= <-] & Hr & Hr' & Hs & Ht & Hu).
    pose proof (trustedIdentity_context _ Hi) as Hc. exists asked, (operationContext identity).
    destruct event as [| |a|a|a newExpiry|predecessor a]; simpl in Ht.
    + rewrite (Hu eq_refl) in Hr' |- *. destruct Ht as [?%refusal_not_succeeded|Ht]; [done|].
      destruct Ht as (a & row & Hrec & Heq). injection Heq as -> -> ->. by exists st, a, row.
    + by destruct Ht.
    + exfalso. inversion Hs. subst. by destruct Hk as [-> | ->]; apply fmap_Some in Hp as (? & _ & ?).
    + injection Ht as -> -> ->. exists st', a, (executionRequest identity asked (attemptId a)).
      split_and!; try done. eapply step_recorded; [exact Hr|exact Hs|by left].
    + exfalso. inversion Hs. subst. by destruct Hk as [-> | ->]; apply fmap_Some in Hp as (? & _ & ?).
    + injection Ht as -> -> ->. exists st', a, (executionRequest identity asked (attemptId a)).
      split_and!; try done. eapply step_recorded; [exact Hr|exact Hs|right; by exists predecessor].
Qed.

Lemma replayOrConflict_recorded st a row context identity :
  findBy requestId (attemptRequestId a) (requests st) = Some row →
  requestActorId row = assertedActorId (contextActor context) →
  replayOrConflict st a true context identity =
    Succeeded (view a (contextNow context)) (requestId row) (correlationId row).
Proof.
  intros Hf Ha. unfold replayOrConflict. rewrite Hf. unfold js_eqb. by rewrite Ha, bool_decide_true.
Qed.

Lemma readPreflight_reads identity db st :
  readOpenFault = None → readBeginFault = None → readCommitFault = None → reads db st →
  readPreflight identity db = Ok st.
Proof.
  intros H4 H5 H6 Hr. unfold readPreflight, readApplicationStateForOwner. rewrite H4.
  unfold runReadSnapshot. rewrite H5, H6. unfold read. unfold reads in Hr. by rewrite Hr.
Qed.

(** A recorded command is answered from its record. *)
Lemma recorded_answer k value db st asked context a row :
  parseCommand k value = Some asked → trustedContext = Some context →
  readOpenFault = None → readBeginFault = None → readCommitFault = None → reads db st →
  recorded asked context st a row →
  runOperation k value db =
    (Some (Succeeded (view a (contextNow context)) (requestId row) (correlationId row)), db).
Proof.
  intros Hp Hc H4 H5 H6 Hr [Hans Hrow Hactor].
  destruct k; apply fmap_Some in Hp as (c & Hp & ->); simpl in Hans; try done; destruct Hans as [Hf Hm].
  - unfold runOperation, claim, claimPreflight. rewrite Hp, Hc. simpl.
    rewrite (readPreflight_reads _ db st) by done. simpl. unfold claimReplay. rewrite Hf, Hm.
    by rewrite (replayOrConflict_recorded st a row).
  - unfold runOperation, takeover, takeoverPreflight. rewrite Hp, Hc. simpl.
    rewrite (readPreflight_reads _ db st) by done. simpl. unfold takeoverReplay. rewrite Hf, Hm.
    by rewrite (replayOrConflict_recorded st a row).
Qed.

(** A call whose key is recorded is decided by the record alone. *)
Lemma keyed_answer k value db st asked context key a :
  parseCommand k value = Some asked → trustedContext = Some context →
  readOpenFault = None → readBeginFault = None → readCommitFault = None → reads db st →
  commandKey asked = Some key → findBy idempotencyKey key (executions st) = Some a →
  ∃ matches : bool, (matches = true ↔ sameCommand st a asked (contextOwnerId context)) ∧
    runOperation k value db = (Some (replayOrConflict st a matches context None), db).
Proof.
  intros Hp Hc H4 H5 H6 Hr Hkey Hf. pose proof (reads_snapshot _ _ Hr) as Hwf.
  destruct k; apply fmap_Some in Hp as (c & Hp & ->); try done; injection Hkey as <-.
  - exists (claimTupleMatches st a c (contextOwnerId context)). split; [by apply claimTupleMatches_ok|].
    unfold runOperation, claim, claimPreflight. rewrite Hp, Hc. simpl.
    rewrite (readPreflight_reads _ db st) by done. simpl. unfold claimReplay. by rewrite Hf.
  - exists (takeoverTupleMatches st a c (contextOwnerId context)). split; [by apply takeoverTupleMatches_ok|].
    unfold runOperation, takeover, takeoverPreflight. rewrite Hp, Hc. simpl.
    rewrite (readPreflight_reads _ db st) by done. simpl. unfold takeoverReplay. by rewrite Hf.
Qed.
End replays.
