(* ===== verification/ExecutionProperties.v ===== *)
(** * Properties of the execution application

    What a client of claims, leases and takeovers may rely on, however the
    calls of all clients interleave and whatever the host and the database do
    wrong meanwhile. *)

From S2P Require Import Prelude JsValue UnicodeText DomainModel DomainParse DomainGraph DomainSnapshot DomainCommands DomainTransition DomainUpdate DomainSpec DomainRefinement DomainMoves DomainMachine Timestamp Authorization AuthorizationProperties PersistenceModel ProjectRegistry PersistenceReaders PersistenceTransaction ExecutionApplication ExecutionLemmas ExecutionSpec ExecutionRefinement ExecutionMachine ExecutionLineage ExecutionAuthority ExecutionMoves ExecutionReplay.

Section properties.
Context `{UnicodeNormalization} `{StateValidation} `{Sqlite} `{Host} `{FileSystem}.

(** C8 The four operations implement the lease machine: a call either returns
    early, leaving the database alone; or its transaction fails and what is
    left is what the other connections committed; or it commits exactly the
    step of the machine its command asks for, checked against the state inside
    the transaction, and reports that step. *)
Theorem operations_refine k value db :
  let '(r, db') := runOperation k value db in
  (db' = db ∧ returnedEarly k value db r) ∨ (db' = concurrent db ∧ rolledBack r) ∨
  committed k value (concurrent db) db' r.
Proof. destruct (runOperation k value db) as [r db'] eqn:Hrun. by apply runOperation_cases. Qed.

(** C9 Every state that can be read is fenced: a task that was ever claimed has
    exactly one active execution, which holds the current fencing token and an
    unexpired-at-last-update lease; the attempts of a task carry the tokens 1
    to the current one, each exactly once; and every superseded attempt is
    linked to the attempt with the next token. *)
Theorem readable_states_fenced db st : reads db st → lineage st.
Proof. apply reads_fenced. Qed.

Lemma later_evolves db db' st' :
  later db db' → reads db' st' → ∃ st, reads db st ∧ leasesEvolve st st'.
Proof.
  intros Hl Hr. eapply (later_commits leasesEvolve); [|exact Hl|exact Hr].
  intros db1 db2 st1 st2 identity asked event Hr1 _ Hs. by eapply leaseStep_evolve.
Qed.

(** C2 However calls of any clients interleave, leases only move forward: attempts
    are never removed and keep all but their lease, revision and status, an
    expiry never moves back, a superseded attempt never changes again, new
    attempts carry larger tokens than all older ones of their task, tasks only
    go from ready to running, and the journals of requests, decisions and audit
    events only grow. *)
Theorem leases_evolve db db' st' :
  later db db' → reads db' st' → ∃ st, reads db st ∧ leasesEvolve st st'.
Proof. apply later_evolves. Qed.

Lemma renewHeld_ok value db command identity st attempt entry :
  renewHeld value db = Ok (command, identity, st, attempt, entry) →
  parseRenew value = Some command ∧ reads db st ∧ attempt ∈ executions st ∧
  attemptId attempt = renewExecutionId command ∧ renewLeaseHeld identity attempt = true.
Proof.
  unfold renewHeld. intros Hh. apply result_bind_ok in Hh as (c & Hc%ok_or_ok & Hh).
  apply result_bind_ok in Hh as (i & _ & Hh).
  apply result_bind_ok in Hh as (st0 & Hst%readPreflight_ok & Hh).
  apply result_bind_ok in Hh as (a & [Hin Hid]%findAttempt_ok & Hh).
  apply result_bind_ok in Hh as ([e t] & _ & Hh). apply guard_ok in Hh as [_ Hh].
  apply guard_ok in Hh as [Hheld Hh]. by simplify_eq.
Qed.

(** The row of an execution in a later state. *)
Lemma evolved_row st st' a a' : leasesEvolve st st' → lineage st' →
  a ∈ executions st → a' ∈ executions st' → attemptId a' = attemptId a → leaseEvolved a a'.
Proof.
  intros [(old & new & Heq & Hf & _)] Hln (i & Hi)%list_elem_of_lookup_1 Ha' Hid.
  destruct (Forall2_lookup_l _ _ _ _ _ Hf Hi) as (b & Hb & Hev).
  assert (b ∈ executions st') as Hbin.
  { rewrite Heq. apply elem_of_app. left. by eapply list_elem_of_lookup_2. }
  pose proof (findBy_unique attemptId _ _ (ln_unique _ Hln) Hbin) as H1'.
  pose proof (findBy_unique attemptId _ _ (ln_unique _ Hln) Ha') as H2'.
  rewrite Hid, <-(fixed_column attemptId a b), H1' in H2' by (done || apply Hev).
  by injection H2' as <-.
Qed.

(** ** Who may change a lease, and when *)

Lemma leaseDuration_ok value n : leaseDuration value = Some n → 30 <= n <= 3600.
Proof. unfold leaseDuration. intros Hd. inv_reads. case_match; [|done]. inv_bool. simplify_eq. lia. Qed.

Lemma parseClaim_seconds value command :
  parseClaim value = Some command → 30 <= claimLeaseSeconds command <= 3600.
Proof.
  unfold parseClaim. intros Hp. apply bind_some in Hp as (? & _ & Hp). case_match; [|done].
  repeat apply bind_some in Hp as (? & ? & Hp). injection Hp as <-. by eapply leaseDuration_ok.
Qed.

Lemma parseRenew_seconds value command :
  parseRenew value = Some command → 30 <= renewLeaseSeconds command <= 3600.
Proof.
  unfold parseRenew. intros Hp. apply bind_some in Hp as (? & _ & Hp). case_match; [|done].
  repeat apply bind_some in Hp as (? & ? & Hp). injection Hp as <-. by eapply leaseDuration_ok.
Qed.

Lemma parseTakeover_seconds value command :
  parseTakeover value = Some command → 30 <= takeoverLeaseSeconds command <= 3600.
Proof.
  unfold parseTakeover. intros Hp. apply bind_some in Hp as (? & _ & Hp). case_match; [|done].
  repeat apply bind_some in Hp as (? & ? & Hp). injection Hp as <-. by eapply leaseDuration_ok.
Qed.

(** The task of an attempt is at the revision the attempt recorded. *)
Definition taskUnmoved (st : ApplicationState) (a : ExecutionAttempt) : Prop :=
  ∃ task, task ∈ tasks (domain st) ∧ id task = attemptTaskId a ∧ revision task = postTaskRevision a.

(** The three fates of an attempt under one call. *)
Inductive leaseChange (k : ExecutionOperation) (value : JsValue) (st st' : ApplicationState)
    (a : ExecutionAttempt) : Prop :=
  | lease_kept : a ∈ executions st' → leaseChange k value st st' a
  | lease_renewed command identity newExpiry :
      k = do_renew → parseRenew value = Some command → trustedIdentity = Some identity →
      renewExecutionId command = attemptId a → renewFencingToken command = fencingToken a →
      taskUnmoved st a → isActive a = true → ownerId a = operationOwner identity →
      js_ltb (operationNow identity) (leaseExpiresAt a) = true →
      js_ltb (leaseExpiresAt a) newExpiry = true →
      30 <= renewLeaseSeconds command <= 3600 →
      leaseExpiry (operationNow identity) (renewLeaseSeconds command) = Some newExpiry →
      renewedAttempt (operationNow identity) newExpiry a ∈ executions st' →
      leaseChange k value st st' a
  | lease_taken_over command identity b :
      k = do_takeover → parseTakeover value = Some command → trustedIdentity = Some identity →
      takeoverPredecessorId command = attemptId a → takeoverFencingToken command = fencingToken a →
      taskUnmoved st a → isActive a = true → js_leb (leaseExpiresAt a) (operationNow identity) = true →
      30 <= takeoverLeaseSeconds command <= 3600 →
      leaseExpiry (operationNow identity) (takeoverLeaseSeconds command) = Some (leaseExpiresAt b) →
      isActive b = true → ownerId b = operationOwner identity →
      fencingToken b = fencingToken a + 1 → supersedesExecutionId b = Some (attemptId a) →
      b ∈ executions st' →
      supersededAttempt (attemptId b) (operationNow identity) a ∈ executions st' →
      leaseChange k value st st' a.

(** The rows after one of them is replaced. *)
Lemma put_cases rows x x' a :
  NoDup (map attemptId rows) → x ∈ rows → attemptId x' = attemptId x → a ∈ rows →
  x' ∈ putAttempt x' rows ∧ (a = x ∨ a ∈ putAttempt x' rows).
Proof.
  intros Hnd Hx Hid Ha. unfold putAttempt. split.
  - apply list_elem_of_fmap. exists x. split; [|done]. unfold js_eqb. by rewrite Hid, bool_decide_true.
  - destruct (decide (attemptId a = attemptId x)) as [Heq|Hne].
    + left. pose proof (findBy_unique attemptId _ _ Hnd Hx) as H1'.
      pose proof (findBy_unique attemptId _ _ Hnd Ha) as H2'. rewrite Heq, H1' in H2'.
      by injection H2'.
    + right. apply list_elem_of_fmap. exists a. split; [|done]. unfold js_eqb.
      rewrite bool_decide_false; [done|congruence].
Qed.

Lemma step_lease_change k value asked identity st event st' a :
  parseCommand k value = Some asked → trustedIdentity = Some identity → lineage st →
  leaseStep identity asked st event st' → a ∈ executions st → leaseChange k value st st' a.
Proof.
  intros Hp Hi Hln Hstep Ha. pose proof (ln_unique _ Hln) as Hnd.
  destruct Hstep as [| |command entry task attempt evaluated|command execution entry task mutation expiry
    evaluated attempt|command entry task attempt newExpiry evaluated -> _ Hin Hid Hb Hfence Hpost
    Hheld Hexp Hlt _|command execution entry task predecessor sequence expiry evaluated attempt -> _ Hin Hid _
    _ Htask Hb Hfence Hpost _ Hactive Hexpired _ _ _ Hexp _]; try (by apply lease_kept).
  - apply lease_kept. simpl. apply elem_of_app. by left.
  - destruct (put_cases _ attempt (renewedAttempt (operationNow identity) newExpiry attempt) a Hnd Hin
      eq_refl Ha) as [Hput [->|Hkept]]; [|by apply lease_kept].
    destruct k; try (by apply fmap_Some in Hp as (? & _ & ?)).
    apply fmap_Some in Hp as (c & Hp & [= <-]). unfold renewFenceMatches, renewLeaseHeld, js_eqb in *.
    inv_bool. pose proof (parseRenew_seconds _ _ Hp).
    assert (taskUnmoved st attempt) by (exists task; split_and!; [apply Hb..|congruence]).
    by apply (lease_renewed _ _ _ _ _ command identity newExpiry).
  - destruct (put_cases _ predecessor (supersededAttempt execution (operationNow identity) predecessor) a
      Hnd Hin eq_refl Ha) as [Hput [->|Hkept]]; [|by apply lease_kept; simpl; apply elem_of_app; left].
    destruct k; try (by apply fmap_Some in Hp as (? & _ & ?)).
    apply fmap_Some in Hp as (c & Hp & [= <-]). unfold takeoverFenceMatches in Hfence. inv_bool.
    pose proof (parseTakeover_seconds _ _ Hp). assert (taskUnmoved st predecessor)
      by (exists task; split_and!; [apply Hb|rewrite <-Htask; apply Hb|congruence]).
    apply (lease_taken_over _ _ _ _ _ command identity attempt); try done; simpl; try lia; try congruence.
    + apply elem_of_app. right. by apply list_elem_of_singleton.
    + apply elem_of_app. by left.
Qed.

(** C4 Who may change a lease, and when.  In one call an attempt keeps its row;
    or it is renewed, by its owner, under its own fencing token and before its
    lease runs out, to an expiry 30 to 3600 seconds from now that is later
    than the old one; or it is superseded, only once its lease has run out by
    the trusted clock, by an attempt with the next fencing token and a lease
    of 30 to 3600 seconds.  Both require that the task is still at the revision
    it had when the attempt was made. *)
Theorem lease_changes k value db :
  let '(r, db') := runOperation k value db in
  db' = db ∨ db' = concurrent db ∨
  ∃ st st', reads (concurrent db) st ∧ reads db' st' ∧
    ∀ a, a ∈ executions st → leaseChange k value st st' a.
Proof.
  destruct (runOperation k value db) as [r db'] eqn:Hrun.
  destruct (runOperation_cases _ _ _ _ _ Hrun) as [[? _]|[[? _]|Hc]]; [by left|by right; left|].
  destruct Hc as (asked & identity & st & st' & event & result & Hp & Hi & _ & Hr & Hr' & Hs & _).
  right; right. exists st, st'. split_and!; [done|done|]. intros a Ha.
  eapply step_lease_change; [exact Hp|exact Hi|exact (reads_fenced _ _ Hr)|exact Hs|exact Ha].
Qed.

(** What a call changes: no task and no execution but those of [task], and one
    decision recorded, about the project [entry]. *)
Record changesWithin (identity : ExecutionOperationIdentity) (asked : ExecutionCommand)
    (entry : RegisteredProject) (task : Task) (st st' : ApplicationState) : Prop := {
  cw_kept : ∀ u, u ∈ tasks (domain st) → id u ≠ id task → u ∈ tasks (domain st');
  cw_task : ∀ u, u ∈ tasks (domain st') → u ∈ tasks (domain st) ∨ id u = id task;
  cw_attempt : ∀ a, a ∈ executions st' → a ∈ executions st ∨ attemptTaskId a = id task;
  cw_decision : decisions st' = decisions st ++
    [decisionRecord identity (requestedAction asked)
       (evaluatedFor st identity (requestedAction asked) entry) entry];
}.

Lemma attempts_within identity asked entry task execution n newSequences newExecutions st :
  (∀ a, a ∈ newExecutions → a ∈ executions st ∨ attemptTaskId a = id task) →
  changesWithin identity asked entry task st
    (setLeases newSequences newExecutions
       (journal identity (requestedAction asked) execution n entry
          (evaluatedFor st identity (requestedAction asked) entry) st)).
Proof. intros Ha. constructor; [done|by left|exact Ha|done]. Qed.

Lemma journal_within identity asked entry task execution n st :
  changesWithin identity asked entry task st
    (journal identity (requestedAction asked) execution n entry
       (evaluatedFor st identity (requestedAction asked) entry) st).
Proof. apply (attempts_within _ _ _ _ _ _ (executionSequences st) (executions st)). by left. Qed.

Lemma put_task a rows b : b ∈ putAttempt a rows → b ∈ rows ∨ b = a.
Proof. intros (row & -> & Hin)%list_elem_of_fmap. case_match; auto. Qed.

(** A change of the database and the answer to the call that made it: backed by a
    grant of the caller, or the record of a denial and nothing else. *)
Inductive accounted (identity : ExecutionOperationIdentity) (asked : ExecutionCommand)
    (entry : RegisteredProject) (st st' : ApplicationState) : ExecutionResult → Prop :=
  | accounted_granted told g :
      g ∈ grants st →
      usable g (operationActorId identity) (requestedAction asked) (projectTarget entry)
        (operationNow identity) →
      requestedAction asked = "execution.claim.inspect" ∨
        projectEnabled st (registeredId entry) = true →
      accounted identity asked entry st st'
        (Succeeded told (operationRequestId identity) (operationCorrelationId identity))
  | accounted_denied message execution n :
      st' = journal identity (requestedAction asked) execution n entry
              (evaluatedFor st identity (requestedAction asked) entry) st →
      accounted identity asked entry st st'
        (failed ExecutionError.AUTHORIZATION_DENIED message (Some identity)).

Lemma granted_accounted db identity asked entry st st' told :
  reads db st → allowed (evaluatedFor st identity (requestedAction asked) entry) = true →
  accounted identity asked entry st st'
    (Succeeded told (operationRequestId identity) (operationCorrelationId identity)).
Proof.
  intros Hr Ha. destruct (evaluatedFor_allowed _ _ _ _ _ Hr Ha) as [(g & Hin & Hu) He].
  by eapply accounted_granted.
Qed.

(** The rows a claim leaves. *)
Lemma claimed_within identity command entry task execution expiry mutation st :
  snapshot_wf mode_complete (domain st) → claimTransition st task = Ok mutation →
  boundTo st (claimProjectId command) (claimResourceRevision command)
    (claimConfigRevision command) (claimTaskId command) entry task →
  changesWithin identity (CommandClaim command) entry task st
    (setDomain (snapshot (value mutation))
       (setLeases (executionSequences st ++ [firstSequence (claimTaskId command)])
          (executions st ++ [claimedAttempt command identity execution entry expiry])
          (journal identity "execution.claim" execution 1 entry
             (evaluatedFor st identity "execution.claim" entry) st))).
Proof.
  intros Hwf Htr Hb. destruct (bt_task _ _ _ _ _ _ _ Hb) as [Htask Hid].
  apply claimTransition_ok in Htr as (_ & _ & ->); [|done..]. constructor; [| | |done]; simpl.
  - intros u Hu Hne. apply list_elem_of_fmap. exists u. split; [|done]. unfold afterMove.
    by rewrite bool_decide_false.
  - intros u (v & -> & Hv)%list_elem_of_fmap. unfold afterMove. case_bool_decide; [right|by left].
    apply moved_id.
  - intros a [?|Ha]%elem_of_app; [by left|right]. by apply list_elem_of_singleton in Ha as ->.
Qed.

Lemma step_accounted db identity asked st event st' result :
  reads db st → leaseStep identity asked st event st' → reported identity asked st event result →
  event = Unchanged ∨
  ∃ entry task, actsOn st asked entry task ∧ changesWithin identity asked entry task st st' ∧
    accounted identity asked entry st st' result.
Proof.
  intros Hr Hs Ht.
  destruct Hs as [|execution n entry task evaluated _ Hon _
    |command entry task attempt evaluated -> _ Hin Hida Hb _ _ Ha
    |command execution entry task mutation expiry evaluated attempt -> _ _ Hb _ _ _ _ _ Htr _ Ha
    |command entry task attempt newExpiry evaluated -> _ Hin Hida Hb _ _ _ _ _ Ha
    |command execution entry task predecessor sequence expiry evaluated attempt -> _ _ _ _ _ Htask Hb _ _ _ _
     _ _ _ _ _ Ha]; [by left|right; exists entry, task; simpl in Ht..].
  - destruct Ht as [message ->].
    split_and!; [done|apply journal_within|by eapply accounted_denied].
  - rewrite Ht. split_and!; [by exists attempt| |by eapply granted_accounted].
    exact (journal_within identity (CommandInspect command) entry task _ _ st).
  - rewrite Ht. split_and!; [done| |by eapply granted_accounted].
    apply claimed_within; [by eapply reads_snapshot|done|done].
  - rewrite Ht. split_and!; [by exists attempt| |by eapply granted_accounted].
    apply (attempts_within identity (CommandRenew command)).
    intros b [?| ->]%put_task; [by left|right]. symmetry. apply Hb.
  - rewrite Ht. split_and!; [done| |by eapply granted_accounted].
    apply (attempts_within identity (CommandTakeover command)).
    intros b [[?| ->]%put_task| ->%list_elem_of_singleton]%elem_of_app; [by left|right..].
    + simpl. rewrite <-Htask. symmetry. apply Hb.
    + simpl. symmetry. apply Hb.
Qed.

(** C7 Every change is authorized.  A call that changes the database acts on the
    registered project its command names, at the revisions it names, and on a
    task of that project: the one the command names, or that of the execution
    it names.  No other task or execution changes, and one decision about that
    project is recorded.  Either a grant of the caller is usable for this
    action on this very project and revision now and, except to inspect, the
    project is enabled; or the call is denied and all it leaves is the record
    of the denial. *)
Theorem changes_are_authorized k value db :
  let '(r, db') := runOperation k value db in
  db' = db ∨ db' = concurrent db ∨
  ∃ asked identity entry task st st' result, parseCommand k value = Some asked ∧
    trustedIdentity = Some identity ∧ reads (concurrent db) st ∧ reads db' st' ∧
    r = Some result ∧ actsOn st asked entry task ∧
    changesWithin identity asked entry task st st' ∧
    accounted identity asked entry st st' result.
Proof.
  destruct (runOperation k value db) as [r db'] eqn:Hrun.
  destruct (runOperation_cases _ _ _ _ _ Hrun) as [[? _]|[[? _]|Hc]]; [by left|by right; left|].
  destruct Hc as (asked & identity & st & st' & event & result & Hp & Hi & -> & Hr & Hr' & Hs & Ht & Hu).
  right. destruct (step_accounted _ _ _ _ _ _ _ Hr Hs Ht) as [Hun|(entry & task & Hacc)]; [by left; auto|].
  right. exists asked, identity, entry, task, st, st', result. tauto.
Qed.

(** A success before the transaction repeats a recorded one. *)
Lemma claim_replayed value db told request correlation :
  returnedEarly do_claim value db (Some (Succeeded told request correlation)) →
  ∃ command context st attempt row, parseClaim value = Some command ∧
    trustedContext = Some context ∧ reads db st ∧
    repeats st (CommandClaim command) context attempt row ∧
    told = view attempt (contextNow context) ∧ request = requestId row ∧
    correlation = correlationId row.
Proof.
  intros [?|(r & [= <-] & [?%refusal_not_succeeded|He])]; [done|done|].
  destruct He as (asked & st & context & Hp & Hr & Hc & a & row & Hrec & [= -> -> ->]).
  apply fmap_Some in Hp as (command & Hp & ->).
  exists command, context, st, a, row. split_and!; try done.
  apply recorded_repeats; [by eapply reads_snapshot|done].
Qed.

(** ** Holding a lease *)

(** The caller may renew the execution [attempt] as its command says: it can read
    the state, the execution is the one named, of a task of the registered
    project named, everything at the revisions and fence named, and the caller
    owns its live lease, which was last changed before now. *)
Record holdsLease (value : JsValue) (db : ApplicationState) (command : ExecutionLeaseRenewCommand)
    (identity : ExecutionOperationIdentity) (st : ApplicationState) (attempt : ExecutionAttempt)
    (entry : RegisteredProject) (task : Task) : Prop := {
  hl_command : parseRenew value = Some command;
  hl_identity : trustedIdentity = Some identity;
  hl_read : readOpenFault = None ∧ readBeginFault = None ∧ readCommitFault = None ∧ reads db st;
  hl_attempt : attempt ∈ executions st ∧ attemptId attempt = renewExecutionId command;
  hl_entry : findBy registeredId (renewProjectId command) (registered st) = Some entry ∧
    resourceRevision entry = renewResourceRevision command ∧
    configRevision entry = renewConfigRevision command;
  hl_task : task ∈ tasks (domain st) ∧ id task = attemptTaskId attempt ∧
    taskProjectId task = renewProjectId command ∧ revision task = renewTaskRevision command;
  hl_fence : attemptRevision attempt = renewExecutionRevision command ∧
    leaseRevision attempt = renewLeaseRevision command ∧
    fencingToken attempt = renewFencingToken command;
  hl_live : isActive attempt = true ∧ ownerId attempt = operationOwner identity ∧
    js_ltb (operationNow identity) (leaseExpiresAt attempt) = true ∧
    js_ltb (updatedAt attempt) (operationNow identity) = true;
}.

Lemma readPreflight_iff identity db st :
  readPreflight identity db = Ok st ↔
  readOpenFault = None ∧ readBeginFault = None ∧ readCommitFault = None ∧ reads db st.
Proof.
  split; [|intros (? & ? & ? & ?); by apply readPreflight_reads]. intros Hp.
  pose proof (readPreflight_ok _ _ _ Hp) as Hr. unfold readPreflight, readApplicationStateForOwner in Hp.
  destruct readOpenFault; [done|]. unfold runReadSnapshot in Hp. destruct readBeginFault; [done|].
  destruct (read db) as [[? ?]|]; [|done]. by destruct readCommitFault.
Qed.

Lemma renewHeld_iff value db command identity st attempt entry :
  renewHeld value db = Ok (command, identity, st, attempt, entry) ↔
  ∃ task, holdsLease value db command identity st attempt entry task.
Proof.
  unfold renewHeld. split.
  - intros Hh. apply result_bind_ok in Hh as (c & Hc%ok_or_ok & Hh).
    apply result_bind_ok in Hh as (i & Hi%ok_or_ok & Hh).
    apply result_bind_ok in Hh as (st0 & Hst%readPreflight_iff & Hh).
    apply result_bind_ok in Hh as (a & Ha%findAttempt_ok & Hh).
    apply result_bind_ok in Hh as ([e t] & Hb & Hh). apply guard_ok in Hh as [Hfence Hh].
    apply guard_ok in Hh as [Hheld Hh]. simplify_eq. exists t.
    unfold bindingFor in Hb. destruct (binding _ _ _ _ _) as [[e' t']|] eqn:Hbind; [|done].
    injection Hb as -> ->. unfold binding in Hbind.
    apply result_bind_ok in Hbind as (e' & He%ok_or_ok & Hbind). apply guard_ok in Hbind as [Hrevs Hbind].
    apply result_bind_ok in Hbind as (t' & [Ht Hid]%ok_or_ok%findBy_ok & Hbind).
    apply guard_ok in Hbind as [Hproject [= -> ->]].
    unfold renewFenceMatches, renewLeaseHeld, js_eqb in *. inv_bool.
    constructor; try done; by split_and!.
  - intros (task & [Hc Hi Hread [Ha Hida] (He & Hres & Hcfg) (Ht & Hid & Hp & Hrev) (Hf1 & Hf2 & Hf3)
      (Hact & Hown & Hlive & Hupd)]).
    destruct Hread as (H4 & H5 & H6 & Hr). pose proof (reads_snapshot _ _ Hr) as Hwf.
    destruct (reads_unique _ _ Hr) as [Hnd _].
    rewrite Hc, Hi. cbn [ok_or result_bind]. rewrite (readPreflight_reads _ db st) by done.
    cbn [result_bind]. unfold findAttempt. rewrite <-Hida, findBy_unique by done. cbn [ok_or result_bind].
    unfold bindingFor, binding. rewrite He. cbn [ok_or result_bind].
    rewrite Hres, Hcfg, !Z.eqb_refl. cbn [andb]. unfold stateTaskById.
    rewrite <-Hid, (findBy_unique id) by (done || by eapply wf_taskIds). cbn [ok_or result_bind].
    unfold js_eqb. rewrite Hp, bool_decide_true by done. cbn [result_bind].
    unfold renewFenceMatches, renewLeaseHeld, js_eqb.
    rewrite Hf1, Hf2, Hf3, Hrev, !Z.eqb_refl, Hact, Hown, Hlive, Hupd, bool_decide_true by done. done.
Qed.

(** Only a renewal can end without a result. *)
Lemma runOperation_throws k value db db' :
  runOperation k value db = (None, db') ↔
  db' = db ∧ k = do_renew ∧ ∃ command identity st attempt entry,
    renewHeld value db = Ok (command, identity, st, attempt, entry) ∧
    leaseExpiry (operationNow identity) (renewLeaseSeconds command) = None.
Proof.
  split.
  - destruct k; cbn [runOperation]; intros Hrun;
      [by destruct (claim value db)|by destruct (inspect value db)| |by destruct (takeover value db)].
    unfold renew, renewPreflight in Hrun.
    destruct (renewHeld value db) as [[[[[c i] st] a] entry]|early]; [|done].
    destruct (leaseExpiry _ _) as [x|] eqn:Hx; cbn [mbind option_bind] in Hrun.
    { match type of Hrun with context [match ?checks with Ok _ => _ | Err _ => _ end] =>
        destruct checks as [plan|] end; [by destruct (transact _ _ _)|done]. }
    injection Hrun as <-. split_and!; [done|done|]. by exists c, i, st, a, entry.
  - intros (-> & -> & c & i & st & a & entry & Hh & Hx). cbn [runOperation].
    unfold renew, renewPreflight. by rewrite Hh, Hx.
Qed.

(** Trusted time is the print of a time of [Date]. *)
Lemma trusted_time identity :
  trustedIdentity = Some identity →
  ∃ now, Z.abs now <= maxTime ∧ operationNow identity = toISOString now.
Proof.
  intros Hi%trustedIdentity_context. unfold trustedContext in Hi.
  apply bind_some in Hi as (? & _ & Hi). apply bind_some in Hi as (? & _ & Hi).
  apply bind_some in Hi as (? & _ & Hi). apply bind_some in Hi as (? & _ & Hi).
  apply bind_some in Hi as (? & _ & Hi). apply bind_some in Hi as (s & Hs & Hi).
  apply timestamp_ok in Hs as [_ (t & Hle & Ht)].
  exists t. split; [done|]. unfold operationNow. rewrite Ht. by injection Hi as <-.
Qed.
End properties.

(** ** Claiming *)

Section claiming.
Context `{UnicodeNormalization} `{StateValidation}.

(** C16 A holder whose execution has been superseded is fenced off for good:
    whatever happens later, renewing that execution is refused and changes
    nothing. *)
Theorem superseded_never_renews (e : Environment) db st a db' value command :
  reads db st → a ∈ executions st → isActive a = false → later db db' →
  parseRenew value = Some command → renewExecutionId command = attemptId a →
  ∃ result, runIn e do_renew value db' = (Some result, db') ∧ refusal result.
Proof.
  intros Hr Ha Hact Hl Hp Hid. destruct e as [sqlite host files].
  unfold runIn, runOperation, renew, renewPreflight. cbn [envSqlite envHost envFiles].
  destruct (renewHeld value db') as [[[[[c i] st'] attempt] entry]|early] eqn:Hh;
    [|exists early; split; [done|by eapply renewHeld_err]].
  exfalso. apply renewHeld_ok in Hh as (Hp' & Hr' & Hin & Hida & Hheld). simplify_eq.
  destruct (later_evolves _ _ _ Hl Hr') as (st0 & Hst0 & Hev).
  pose proof (reads_det _ _ _ Hr Hst0) as <-.
  destruct (evolved_row _ _ a attempt Hev (reads_fenced _ _ Hr') Ha Hin) as [_ _ _ Hsame]; [congruence|].
  unfold renewLeaseHeld in Hheld. inv_bool. rewrite (Hsame Hact) in *. congruence.
Qed.

(** What a claim changes: the task from ready to running, its first sequence and
    its first attempt, and the three records. *)
Record claimEffect (identity : ExecutionOperationIdentity) (command : ExecutionClaimCommand)
    (entry : RegisteredProject) (task : Task) (attempt : ExecutionAttempt)
    (st st' : ApplicationState) : Prop := {
  ce_bound : boundTo st (claimProjectId command) (claimResourceRevision command)
    (claimConfigRevision command) (claimTaskId command) entry task;
  ce_revision : revision task = claimTaskRevision command;
  ce_claimable : claimable (domain st) task;
  ce_first : claimTaskId command ∉ map attemptTaskId (executions st);
  ce_task : domain st' = snapshot (value (moveResult (domain st) ClaimAccepted task));
  ce_sequence : executionSequences st' =
    executionSequences st ++ [firstSequence (claimTaskId command)];
  ce_attempt : executions st' = executions st ++ [attempt];
  ce_lease : attemptTaskId attempt = claimTaskId command ∧ isActive attempt = true ∧
    fencingToken attempt = 1 ∧ ownerId attempt = operationOwner identity ∧
    leaseExpiry (operationNow identity) (claimLeaseSeconds command) = Some (leaseExpiresAt attempt) ∧
    30 <= claimLeaseSeconds command <= 3600;
  ce_audit : ∃ event, audit st' = audit st ++ [event] ∧ auditEventKind event = "execution.claimed" ∧
    auditTargetId event = attemptId attempt;
}.

(** C12 A claim that succeeds changes nothing and repeats the answer of an earlier
    one: the same claim, by the same owner and actor, is recorded under its
    key, and the caller is told of that execution under the identifiers of the
    request that made it.  Or it hands out a task that is ready, whose
    dependencies are all completed, whose project is open and that was never
    executed: the task is running at its next revision, and the caller owns its
    first attempt under fencing token 1 for 30 to 3600 seconds. *)
Theorem claims_start_ready_tasks (e : Environment) value db told request correlation db' :
  runIn e do_claim value db = (Some (Succeeded told request correlation), db') →
  ((db' = db ∨ db' = concurrent (Host := envHost e) db) ∧
   ∃ command context st attempt row, parseClaim value = Some command ∧
     contextIn e = Some context ∧ reads db' st ∧
     repeats st (CommandClaim command) context attempt row ∧
     told = view attempt (contextNow context) ∧ request = requestId row ∧
     correlation = correlationId row) ∨
  ∃ identity command entry task attempt st st', parseClaim value = Some command ∧
    contextIn e = Some (operationContext identity) ∧
    reads (concurrent (Host := envHost e) db) st ∧ reads db' st' ∧
    claimEffect identity command entry task attempt st st' ∧
    told = view attempt (operationNow identity) ∧ request = operationRequestId identity ∧
    correlation = operationCorrelationId identity.
Proof.
  intros Hrun. destruct e as [sqlite host files]. unfold runIn in Hrun. simpl in *.
  destruct (runOperation_cases do_claim value db _ _ Hrun) as [[-> He]|[[_ He]|Hc]].
  - left. split; [by left|]. by apply claim_replayed.
  - exfalso. destruct He as (fault & identity & [= Heq]).
    pose proof (mapPersistenceFailure_refusal fault identity) as Href.
    rewrite <-Heq in Href. by apply refusal_not_succeeded in Href.
  - destruct Hc as (asked & identity & st & st' & event & r & Hp & Hi & [= <-] & Hr & Hr' & Hs & Ht & Hu).
    apply fmap_Some in Hp as (command & Hp & ->).
    pose proof (reads_snapshot _ _ Hr) as Hwf. pose proof (reads_fenced _ _ Hr) as Hln.
    destruct Hs as [| |c entry task attempt evaluated Hask|c execution entry task mutation expiry evaluated
      attempt [= <-] _ _ Hb Hrev _ _ Hseq _ Htr Hexp Ha|c entry task attempt newExpiry evaluated Hask
      |c execution entry task predecessor sequence expiry evaluated attempt Hask]; try done.
    + left. rewrite (Hu eq_refl) in Hr' |- *. split; [by right|]. simpl in Ht.
      destruct Ht as [?%refusal_not_succeeded|(a & row & Hrec & [= -> -> ->])]; [done|].
      exists command, (operationContext identity), st, a, row.
      split_and!; try done; [by apply trustedIdentity_context|by apply recorded_repeats].
    + by destruct Ht.
    + right. exists identity, command, entry, task, attempt, st. eexists.
      split_and!; [done|by apply trustedIdentity_context|done|exact Hr'| |by injection Ht..].
      destruct (bt_task _ _ _ _ _ _ _ Hb) as [Htask _].
      apply claimTransition_ok in Htr as (_ & Hclaim & ->); [|done..].
      pose proof (parseClaim_seconds _ _ Hp). constructor; try done.
      * intros (a & Hat & Hin)%list_elem_of_fmap. destruct (ln_owned _ Hln a Hin) as (s & Hs & Hst).
        destruct Hseq. rewrite Hat, <-Hst. by apply list_elem_of_fmap_2.
      * eexists. split_and!; [reflexivity| |done]. simpl. by rewrite Ha.
Qed.

(** C31 The clock of a lease.  A lease of [seconds] taken at time [t] expires at
    [t + 1000 * seconds], and for years of four digits the view reports it as
    expired exactly from that instant on; outside the range of [Date] no expiry
    can be computed. *)
Theorem lease_times t seconds now a :
  Z.abs t <= maxTime →
  (Z.abs (t + seconds * 1000) <= maxTime →
     leaseExpiry (toISOString t) seconds = Some (toISOString (t + seconds * 1000))) ∧
  (maxTime < Z.abs (t + seconds * 1000) → leaseExpiry (toISOString t) seconds = None) ∧
  (plainYear (t + seconds * 1000) → plainYear now →
     leaseExpiresAt a = toISOString (t + seconds * 1000) →
     viewExpired (view a (toISOString now)) = (t + seconds * 1000 <=? now)).
Proof.
  intros Ht. unfold leaseExpiry. rewrite dateParse_iso by done. cbn [mbind option_bind]. split_and!.
  - intros Hle. by rewrite (proj2 (Z.leb_le _ _) Hle).
  - intros Hgt. by rewrite (proj2 (Z.leb_gt _ _) Hgt).
  - intros Hp Hn Hx. unfold view. cbn [viewExpired]. unfold js_leb. rewrite Hx, iso_ltb by done.
    by rewrite Z.leb_antisym.
Qed.

(** C32 When a call is not answered.  Claims, inspections and takeovers always
    return a result.  A renewal ends in an exception, with the database as it
    was, exactly when the caller holds the live lease it names and the new
    lease would end after the last instant of [Date]. *)
Theorem renewal_can_throw (e : Environment) k value db db' :
  runIn e k value db = (None, db') ↔
  db' = db ∧ k = do_renew ∧
  ∃ command identity st attempt entry task now,
    holdsLease (H1 := envSqlite e) (H2 := envHost e) value db command identity st attempt entry task ∧
    operationNow identity = toISOString now ∧ Z.abs now <= maxTime ∧
    maxTime < now + renewLeaseSeconds command * 1000.
Proof.
  unfold runIn. rewrite runOperation_throws. apply and_iff_compat_l, and_iff_compat_l. split.
  - intros (command & identity & st & attempt & entry & (task & Hh)%renewHeld_iff & Hx).
    destruct (trusted_time (H2 := envHost e) identity (hl_identity _ _ _ _ _ _ _ _ Hh)) as (now & Hle & Hnow).
    exists command, identity, st, attempt, entry, task, now. split_and!; try done.
    pose proof (parseRenew_seconds _ _ (hl_command _ _ _ _ _ _ _ _ Hh)).
    rewrite Hnow in Hx. unfold leaseExpiry in Hx. rewrite dateParse_iso in Hx by done.
    cbn [mbind option_bind] in Hx. destruct (Z.leb_spec (Z.abs (now + renewLeaseSeconds command * 1000)) maxTime); [done|].
    unfold maxTime in *. lia.
  - intros (command & identity & st & attempt & entry & task & now & Hh & Hnow & Hle & Hlt).
    exists command, identity, st, attempt, entry. split; [apply renewHeld_iff; by exists task|].
    rewrite Hnow. unfold leaseExpiry. rewrite dateParse_iso by done. cbn [mbind option_bind].
    by rewrite (proj2 (Z.leb_gt _ _)) by lia.
Qed.

(** ** Repetition *)

(** C30 An idempotency key is never reused.  When the key of a claim or a takeover
    is recorded, the call changes nothing, and it is answered exactly when it
    repeats the command of that record: same kind, project, task, revisions,
    lease, predecessor, owner and actor.  A call that differs in any of them is
    a conflict. *)
Theorem reused_keys_conflict (e : Environment) k value db st asked context key a :
  canRead e → reads db st → parseCommand k value = Some asked → contextIn e = Some context →
  commandKey asked = Some key → findBy idempotencyKey key (executions st) = Some a →
  (∀ row, repeats st asked context a row →
     runIn e k value db =
       (Some (Succeeded (view a (contextNow context)) (requestId row) (correlationId row)), db)) ∧
  ((∀ row, ¬ repeats st asked context a row) →
     ∃ message, runIn e k value db =
       (Some (failed ExecutionError.IDEMPOTENCY_CONFLICT message None), db)).
Proof.
  intros (Hopen & Hbegin & Hcommit) Hr Hp Hc Hkey Hf.
  destruct (keyed_answer (H1 := envSqlite e) (H2 := envHost e) (H3 := envFiles e)
    k value db st asked context key a Hp Hc Hopen Hbegin Hcommit Hr Hkey Hf) as (matches & Hm & Hrun).
  unfold runIn. rewrite Hrun. split.
  - intros row [_ Hsame Hrow Hactor]. apply Hm in Hsame as ->.
    by rewrite (replayOrConflict_recorded st a row).
  - intros Hno. eexists. unfold replayOrConflict.
    destruct (findBy requestId _ _) as [row|] eqn:Hrow; [|done].
    destruct (matches && _) eqn:Hd; [|done]. exfalso. unfold js_eqb in Hd. inv_bool.
    apply (Hno row). constructor; [by exists key|by apply Hm|done|done].
Qed.

(** C13 Claims and takeovers can be retried safely.  Once one has succeeded, the
    same command from the same actor and owner, at any later time and through
    whatever else happened, is answered with the same execution, fencing token,
    request and correlation identifiers, and changes nothing. *)
Theorem retries_replay (e e' : Environment) k value db told request correlation db1 db2 st2 context context' :
  k = do_claim ∨ k = do_takeover →
  runIn e k value db = (Some (Succeeded told request correlation), db1) →
  later db1 db2 → reads db2 st2 → canRead e' →
  contextIn e = Some context → contextIn e' = Some context' →
  contextOwnerId context' = contextOwnerId context →
  assertedActorId (contextActor context') = assertedActorId (contextActor context) →
  ∃ told', runIn e' k value db2 = (Some (Succeeded told' request correlation), db2) ∧
    viewExecutionId told' = viewExecutionId told ∧ viewFencingToken told' = viewFencingToken told.
Proof.
  intros Hk Hrun Hl Hr2 (Hopen & Hbegin & Hcommit) Hc Hc' Howner Hactor.
  destruct e as [sqlite host files]. unfold runIn in Hrun. simpl in Hrun.
  destruct (success_recorded _ _ _ _ _ _ _ Hk Hrun)
    as (asked & c & st1 & a & row & Hp & Htc & Hr1 & Hrec & -> & -> & ->).
  change (contextIn {| envSqlite := sqlite; envHost := host; envFiles := files |} = Some c) in Htc.
  rewrite Hc in Htc. injection Htc as <-.
  destruct (later_evolves _ _ _ Hl Hr2) as (st & Hst & Hev).
  pose proof (reads_det _ _ _ Hst Hr1) as ->.
  destruct (recorded_evolved _ _ _ _ _ _ _ Howner Hactor Hev Hrec) as (a' & Hrec' & [Hfix _ _ _]).
  exists (view a' (contextNow context')). split.
  - unfold runIn. exact (recorded_answer k value db2 st2 asked context' a' row Hp Hc' Hopen Hbegin Hcommit Hr2 Hrec').
  - simpl. by rewrite (fixed_column attemptId a a'), (fixed_column fencingToken a a').
Qed.
End claiming.
