(* ===== verification/ExecutionDemo.v ===== *)
(** * A concrete runtime

    One registered project with one ready task, a worker holding the four
    execution grants, and the host, files and database it runs on: the inputs
    at which the properties of the execution application are exercised. *)

From S2P Require Import Prelude JsValue UnicodeText DomainModel DomainCommands Timestamp Authorization AuthorizationProperties PersistenceModel ProjectRegistry PersistenceReaders PersistenceTransaction ExecutionApplication ExecutionSpec ExecutionRefinement ExecutionMachine ExecutionLineage ExecutionMoves ExecutionReplay ExecutionProperties.

#[export] Existing Instance latinNormalization.

(** No further check on the other tables, which are empty. *)
#[export] Instance demoValidation : StateValidation := {| restOfStateValid := λ _, true |}.

(** A database without faults. *)
Definition demoSqlite : Sqlite :=
  {| statementFault := λ _, None; openFault := None; beginFault := None; commitFault := None;
     readOpenFault := None; readBeginFault := None; readCommitFault := None |}.

Definition directories : list JsString := map js ["/work"; "/work/p1"; "/run"; "/run/ato"].

Definition demoFiles : FileSystem :=
  {| processPlatform := js "linux"; pathResolve := λ path, path;
     pathIsAbsolute := startsWith (js "/"); pathRoot := λ _, js "/";
     pathJoin := λ base part, if js_eqb base (js "/") then base ++ part else base ++ js "/" ++ part;
     pathSep := js "/"; toLocaleLowerCase := λ path, path;
     lstat := λ path, if bool_decide (path ∈ directories)
       then StatOk {| dev := 7; ino := Z.of_nat (length path); statMode := 16877;
                      isDirectory := true; isSymbolicLink := false |} else StatMissing;
     realpath := λ path, Some path |}.

Definition directoryIdentity (path : string) : ProjectRootIdentity :=
  {| canonicalRoot := js path; rootKey := js path; platform := js "linux"; device := js "7";
     inode := js (pretty (Z.of_nat (length (js path)))); mode := 16877 |}.

(** The ingress of one call: who calls, as which lease owner, when, and the
    suffix of the identifiers it hands out. *)
Definition caller (actorId owner : string) (now : Z) (suffix : string)
    (others : ApplicationState → ApplicationState) : Host :=
  {| currentActor := Some (jsObject [("actorId", jsName actorId);
       ("principal", jsName (String.concat "" (repeat "0123456789ABCDEF" 4)))]);
     currentLeaseOwner := Some (jsName owner); ingressNow := Some (JString (toISOString now));
     nextId := λ kind, Some (jsName (kind +:+ "-" +:+ suffix)); stringOf := λ _, None;
     layoutRoot := js "/run/ato"; concurrent := others |}.

(** 2026-01-01, and the last instant of [Date]. *)
Definition start : Z := 1767225600000.

Definition executionGrant (action : string) (from to : Z) : AuthorizationGrant :=
  {| grantId := js action; grantRevision := 1; grantActorId := js "worker"; grantAction := action;
     grantScope := {| scopeKind := runtime; scopeProjectId := None; scopeResourceRevision := None;
                      scopeConfigRevision := None |};
     notBefore := toISOString from; expiresAt := toISOString to; revokedAt := None;
     issuerGrantId := None; sourceGrantId := None |}.

Definition executionActions : list string :=
  ["execution.claim"; "execution.claim.inspect"; "execution.lease.renew"; "execution.lease.takeover"].

Definition demoTask : Task :=
  {| id := js "t1"; taskProjectId := js "p1"; state := ready; revision := 2; body := js "work";
     parentId := None; dependencyIds := []; taskWaiting := None; completion := None;
     cancellation := None; supersedesTaskId := None |}.

Definition demoDb (from to : Z) : ApplicationState :=
  {| domainInitialized := true;
     domain := {| projects := [{| projectId := js "p1"; enabled := true |}]; tasks := [demoTask] |};
     registered := [{| projectRoot := directoryIdentity "/work/p1"; registeredId := js "p1";
                       configRevision := 1; resourceRevision := 1;
                       registeredCreatedAt := toISOString from;
                       registeredUpdatedAt := toISOString from |}];
     bootstrap := Some {| bootstrapRoot := directoryIdentity "/run/ato";
                          bootstrapActorId := js "worker"; trustedPrincipal := js "principal";
                          bootstrapRequestId := js "bootstrap";
                          bootstrapCreatedAt := toISOString from;
                          bootstrapExpiresAt := toISOString to |};
     localIdentity := None; grants := map (λ action, executionGrant action from to) executionActions;
     requests := []; decisions := []; audit := []; executionSequences := []; executions := [];
     executionTerminalStates := []; executionIntents := []; manualTurns := []; otherTables := [] |}.

Definition claimCommand (key : string) (seconds : Z) : JsValue :=
  jsObject [("kind", jsName "execution.claim"); ("projectId", jsName "p1");
            ("expectedProjectResourceRevision", jsInteger 1);
            ("expectedProjectConfigRevision", jsInteger 1); ("taskId", jsName "t1");
            ("expectedTaskRevision", jsInteger 2); ("idempotencyKey", jsName key);
            ("leaseDurationSeconds", jsInteger seconds)].

Definition renewCommandOf (execution : string) (executionRevision lease fence seconds : Z) : JsValue :=
  jsObject [("kind", jsName "execution.lease.renew"); ("projectId", jsName "p1");
            ("expectedProjectResourceRevision", jsInteger 1);
            ("expectedProjectConfigRevision", jsInteger 1); ("executionId", jsName execution);
            ("expectedExecutionRevision", jsInteger executionRevision);
            ("expectedLeaseRevision", jsInteger lease); ("expectedFencingToken", jsInteger fence);
            ("expectedTaskRevision", jsInteger 3); ("leaseDurationSeconds", jsInteger seconds)].

Definition takeoverCommandOf (predecessor : string) (executionRevision lease fence : Z) (key : string)
    (seconds : Z) : JsValue :=
  jsObject [("kind", jsName "execution.lease.takeover"); ("projectId", jsName "p1");
            ("expectedProjectResourceRevision", jsInteger 1);
            ("expectedProjectConfigRevision", jsInteger 1); ("taskId", jsName "t1");
            ("expectedTaskRevision", jsInteger 3); ("predecessorExecutionId", jsName predecessor);
            ("expectedExecutionRevision", jsInteger executionRevision);
            ("expectedLeaseRevision", jsInteger lease); ("expectedFencingToken", jsInteger fence);
            ("idempotencyKey", jsName key); ("leaseDurationSeconds", jsInteger seconds)].

(** The environment of one call: the worker, as a lease owner, at a time. *)
Definition workerAt (owner : string) (now : Z) (suffix : string) : Environment :=
  {| envSqlite := demoSqlite; envHost := caller "worker" owner now suffix (λ db, db);
     envFiles := demoFiles |}.

(** The worker claims at second 1, renews at second 11, and another owner takes
    over at second 80, after the lease has run out. *)
Definition year : Z := 31536000000.
Definition readyDb : ApplicationState := demoDb start (start + year).

Definition claimedBy : Environment := workerAt "owner-1" (start + 1000) "1".
Definition renewedBy : Environment := workerAt "owner-1" (start + 11000) "2".
Definition takenOverBy : Environment := workerAt "owner-2" (start + 80000) "3".
Definition repeatedBy : Environment := workerAt "owner-1" (start + 90000) "4".

Definition claimedDb : ApplicationState :=
  Eval vm_compute in snd (runIn claimedBy do_claim (claimCommand "key-1" 60) readyDb).
Definition renewedDb : ApplicationState :=
  Eval vm_compute in snd (runIn renewedBy do_renew (renewCommandOf "execution-1" 1 1 1 60) claimedDb).
Definition takenOverDb : ApplicationState :=
  Eval vm_compute in snd (runIn takenOverBy do_takeover
    (takeoverCommandOf "execution-1" 2 2 1 "key-2" 120) renewedDb).

(** What the worker was told by its claim. *)
Definition claimedView : ExecutionClaimView :=
  {| viewExecutionId := js "execution-1"; viewTaskId := js "t1"; viewAttemptNumber := 1;
     viewStatus := active; viewOwnerId := js "owner-1"; viewLeaseRevision := 1;
     viewLeaseExpiresAt := toISOString (start + 61000); viewExpired := false; viewFencingToken := 1;
     viewRevision := 1; viewTaskRevision := 3; viewResourceRevision := 1; viewConfigRevision := 1;
     viewSupersedes := None; viewSupersededBy := None |}.

Definition claimedAnswer : option ExecutionResult :=
  Some (Succeeded claimedView (js "request-1") (js "correlation-1")).

(** The row of the first execution after the takeover. *)
Definition staleAttempt : ExecutionAttempt :=
  Eval vm_compute in default (claimedAttempt {| claimProjectId := []; claimResourceRevision := 0;
    claimConfigRevision := 0; claimTaskId := []; claimTaskRevision := 0; claimIdempotencyKey := [];
    claimLeaseSeconds := 0 |} {| operationContext := {| contextActor := {| assertedActorId := [];
    principal := JNull |}; contextOwnerId := []; contextNow := [] |}; operationRequestId := [];
    operationCorrelationId := []; operationDecisionId := []; operationAuditId := [] |} []
    {| projectRoot := directoryIdentity ""; registeredId := []; configRevision := 0;
       resourceRevision := 0; registeredCreatedAt := []; registeredUpdatedAt := [] |} [])
    (head (executions takenOverDb)).

Lemma claimed_run : runIn claimedBy do_claim (claimCommand "key-1" 60) readyDb = (claimedAnswer, claimedDb).
Proof. vm_compute. reflexivity. Qed.

Lemma renewed_run : snd (runIn renewedBy do_renew (renewCommandOf "execution-1" 1 1 1 60) claimedDb) = renewedDb.
Proof. vm_compute. reflexivity. Qed.

Lemma takenOver_run : snd (runIn takenOverBy do_takeover
  (takeoverCommandOf "execution-1" 2 2 1 "key-2" 120) renewedDb) = takenOverDb.
Proof. vm_compute. reflexivity. Qed.

(** A call that nobody interferes with. *)
Lemma later_run owner now suffix k value db0 db :
  later db0 db → later db0 (snd (runIn (workerAt owner now suffix) k value db)).
Proof.
  intros Hl. destruct (runIn _ k value db) as [r db'] eqn:Hrun.
  exact (later_call (workerAt owner now suffix) _ _ _ _ _ _ Hl (later_refl db) Hrun).
Qed.

Lemma later_takenOver : later claimedDb takenOverDb.
Proof. rewrite <-takenOver_run, <-renewed_run. do 2 apply later_run. apply later_refl. Qed.

Lemma reads_takenOver : reads takenOverDb takenOverDb.
Proof. vm_compute. reflexivity. Qed.

(** ** The properties at these inputs *)

Lemma readable_states_fenced_witness : lineage takenOverDb.
Proof. exact (readable_states_fenced takenOverDb takenOverDb reads_takenOver). Defined.

Lemma leases_evolve_witness : ∃ st, reads claimedDb st ∧ leasesEvolve st takenOverDb.
Proof. exact (leases_evolve claimedDb takenOverDb takenOverDb later_takenOver reads_takenOver). Defined.

Lemma superseded_never_renews_witness :
  ∃ result, runIn repeatedBy do_renew (renewCommandOf "execution-1" 3 2 1 60) takenOverDb = (Some result, takenOverDb) ∧
    refusal result.
Proof.
  refine (superseded_never_renews repeatedBy takenOverDb takenOverDb staleAttempt
    takenOverDb (renewCommandOf "execution-1" 3 2 1 60)
    {| renewProjectId := js "p1"; renewResourceRevision := 1; renewConfigRevision := 1;
       renewExecutionId := js "execution-1"; renewExecutionRevision := 3; renewLeaseRevision := 2;
       renewFencingToken := 1; renewTaskRevision := 3; renewLeaseSeconds := 60 |}
    reads_takenOver _ _ (later_refl _) _ _).
  - left.
  - vm_compute. reflexivity.
  - vm_compute. reflexivity.
  - vm_compute. reflexivity.
Defined.

(** The claim, and its repetition after the takeover. *)
Lemma claims_start_ready_tasks_witness :
  ∃ identity command entry task attempt st st', parseClaim (claimCommand "key-1" 60) = Some command ∧
    contextIn claimedBy = Some (operationContext identity) ∧ reads readyDb st ∧ reads claimedDb st' ∧
    claimEffect identity command entry task attempt st st' ∧
    claimedView = view attempt (operationNow identity) ∧ js "request-1" = operationRequestId identity ∧
    js "correlation-1" = operationCorrelationId identity.
Proof.
  destruct (claims_start_ready_tasks claimedBy (claimCommand "key-1" 60) readyDb claimedView
    (js "request-1") (js "correlation-1") claimedDb claimed_run) as [[[Hsame|Hsame] _]|Hclaim].
  - exfalso. apply (f_equal (λ db, length (executions db))) in Hsame. discriminate Hsame.
  - exfalso. apply (f_equal (λ db, length (executions db))) in Hsame. discriminate Hsame.
  - exact Hclaim.
Defined.

Definition workerContext (e : Environment) : TrustedExecutionContext :=
  default {| contextActor := {| assertedActorId := []; principal := JNull |}; contextOwnerId := [];
             contextNow := [] |} (contextIn e).

Lemma retries_replay_witness :
  ∃ told', runIn repeatedBy do_claim (claimCommand "key-1" 60) takenOverDb =
      (Some (Succeeded told' (js "request-1") (js "correlation-1")), takenOverDb) ∧
    viewExecutionId told' = js "execution-1" ∧ viewFencingToken told' = 1.
Proof.
  refine (retries_replay claimedBy repeatedBy do_claim (claimCommand "key-1" 60) readyDb claimedView
    (js "request-1") (js "correlation-1") claimedDb takenOverDb takenOverDb (workerContext claimedBy)
    (workerContext repeatedBy) (or_introl eq_refl) claimed_run later_takenOver reads_takenOver _ _ _ _ _).
  - split_and!; reflexivity.
  - vm_compute. reflexivity.
  - vm_compute. reflexivity.
  - vm_compute. reflexivity.
  - vm_compute. reflexivity.
Defined.

Definition demoClaim (seconds : Z) : ExecutionClaimCommand :=
  {| claimProjectId := js "p1"; claimResourceRevision := 1; claimConfigRevision := 1;
     claimTaskId := js "t1"; claimTaskRevision := 2; claimIdempotencyKey := js "key-1";
     claimLeaseSeconds := seconds |}.

(** The claim is answered again to its owner, and refused to another owner and
    for another lease. *)
Lemma reused_keys_conflict_witness :
  (∃ row, runIn repeatedBy do_claim (claimCommand "key-1" 60) takenOverDb =
    (Some (Succeeded (view staleAttempt (contextNow (workerContext repeatedBy)))
       (requestId row) (correlationId row)), takenOverDb)) ∧
  (∃ message, runIn takenOverBy do_claim (claimCommand "key-1" 60) takenOverDb =
    (Some (failed ExecutionError.IDEMPOTENCY_CONFLICT message None), takenOverDb)) ∧
  ∃ message, runIn repeatedBy do_claim (claimCommand "key-1" 61) takenOverDb =
    (Some (failed ExecutionError.IDEMPOTENCY_CONFLICT message None), takenOverDb).
Proof.
  assert (∀ e seconds, canRead e → contextIn e = Some (workerContext e) →
    parseCommand do_claim (claimCommand "key-1" seconds) = Some (CommandClaim (demoClaim seconds)) →
    (∀ row, repeats takenOverDb (CommandClaim (demoClaim seconds)) (workerContext e) staleAttempt row →
       runIn e do_claim (claimCommand "key-1" seconds) takenOverDb =
       (Some (Succeeded (view staleAttempt (contextNow (workerContext e)))
          (requestId row) (correlationId row)), takenOverDb)) ∧
    ((∀ row, ¬ repeats takenOverDb (CommandClaim (demoClaim seconds)) (workerContext e) staleAttempt row) →
     ∃ message, runIn e do_claim (claimCommand "key-1" seconds) takenOverDb =
       (Some (failed ExecutionError.IDEMPOTENCY_CONFLICT message None), takenOverDb))) as Hall.
  { intros e seconds He Hc Hp.
    apply (reused_keys_conflict e do_claim (claimCommand "key-1" seconds) takenOverDb takenOverDb
      (CommandClaim (demoClaim seconds)) (workerContext e) (js "key-1") staleAttempt He reads_takenOver Hp Hc).
    - reflexivity.
    - vm_compute. reflexivity. }
  split_and!.
  - destruct (findBy requestId (attemptRequestId staleAttempt) (requests takenOverDb)) as [row|] eqn:Hrow;
      [|vm_compute in Hrow; discriminate Hrow].
    exists row. apply Hall; [split_and!; reflexivity|vm_compute; reflexivity|vm_compute; reflexivity|].
    apply recorded_repeats; [exact (reads_snapshot _ _ reads_takenOver)|].
    constructor; [split; vm_compute; reflexivity|exact Hrow|].
    vm_compute in Hrow. injection Hrow as <-. vm_compute. reflexivity.
  - apply Hall; [split_and!; reflexivity|vm_compute; reflexivity|vm_compute; reflexivity|].
    intros row [_ [_ _ _ _ _ _ Howner _ _] _ _]. vm_compute in Howner. discriminate Howner.
  - apply Hall; [split_and!; reflexivity|vm_compute; reflexivity|vm_compute; reflexivity|].
    intros row [_ [_ _ _ _ _ _ _ Hseconds _] _ _]. vm_compute in Hseconds. discriminate Hseconds.
Defined.

Lemma lease_times_witness :
  leaseExpiry (toISOString start) 60 = Some (toISOString (start + 60000)) ∧
  viewExpired (view staleAttempt (toISOString (start + 71000))) = (start + 71000 <=? start + 71000).
Proof.
  destruct (lease_times start 60 (start + 60000) staleAttempt) as (Hin & _ & _); [done|].
  destruct (lease_times (start + 11000) 60 (start + 71000) staleAttempt) as (_ & _ & Hview); [done|].
  split; [apply Hin; done|]. apply Hview; [split; vm_compute; discriminate..|vm_compute; reflexivity].
Defined.

(** ** The end of time *)

(** A claim 100 seconds before the last instant of [Date]. *)
Definition lateDb : ApplicationState := demoDb (maxTime - 200000) maxTime.
Definition lateClaimedDb : ApplicationState :=
  Eval vm_compute in snd (runIn (workerAt "owner-1" (maxTime - 100000) "1") do_claim
    (claimCommand "key-1" 60) lateDb).

(** A renewal of it 45 seconds before that instant ends in an exception, where a
    claim that overflows in the same way is answered. *)
Definition lateBy : Environment := workerAt "owner-1" (maxTime - 45000) "2".

Definition lateIdentity : ExecutionOperationIdentity :=
  {| operationContext := workerContext lateBy; operationRequestId := js "request-2";
     operationCorrelationId := js "correlation-2"; operationDecisionId := js "decision-2";
     operationAuditId := js "audit-2" |}.

Definition lateTask : Task := Eval vm_compute in default demoTask (head (tasks (domain lateClaimedDb))).
Definition lateAttempt : ExecutionAttempt :=
  Eval vm_compute in default staleAttempt (head (executions lateClaimedDb)).
Definition lateEntry : RegisteredProject :=
  {| projectRoot := directoryIdentity "/work/p1"; registeredId := js "p1"; configRevision := 1;
     resourceRevision := 1; registeredCreatedAt := toISOString (maxTime - 200000);
     registeredUpdatedAt := toISOString (maxTime - 200000) |}.

Lemma renewal_can_throw_witness :
  runIn lateBy do_renew (renewCommandOf "execution-1" 1 1 1 60) lateClaimedDb = (None, lateClaimedDb) ∧
  ∃ message request correlation,
    runIn lateBy do_claim (claimCommand "key-1" 60) lateDb =
      (Some (Failed ExecutionError.PERSISTENCE_FAILURE message (Some request) (Some correlation)), lateDb).
Proof.
  split; [|do 3 eexists; vm_compute; reflexivity].
  apply (renewal_can_throw lateBy). split; [reflexivity|]. split; [reflexivity|].
  exists {| renewProjectId := js "p1"; renewResourceRevision := 1; renewConfigRevision := 1;
            renewExecutionId := js "execution-1"; renewExecutionRevision := 1; renewLeaseRevision := 1;
            renewFencingToken := 1; renewTaskRevision := 3; renewLeaseSeconds := 60 |},
    lateIdentity, lateClaimedDb, lateAttempt, lateEntry, lateTask, (maxTime - 45000).
  split; [|split_and!; vm_compute; (reflexivity || discriminate)].
  constructor.
  - vm_compute. reflexivity.
  - vm_compute. reflexivity.
  - split_and!; vm_compute; reflexivity.
  - split; [left|vm_compute; reflexivity].
  - split_and!; vm_compute; reflexivity.
  - split_and!; [left|vm_compute; reflexivity..].
  - split_and!; vm_compute; reflexivity.
  - split_and!; vm_compute; reflexivity.
Defined.
